(* ===== verification/_CoqProject ===== *)
-Q . S2P
Prelude.v
Float64.v
Text.v
Hashing.v
Config.v
Request.v
Worker.v
Inflight.v
Belief.v
Prefix.v
Concurrent.v
Router.v
Selection.v
Discovery.v
Health.v
System.v
Threads.v
PrometheusText.v
Metrics.v
EngineMetrics.v
Stream.v
Api.v
Widths.v
Scores.v
Serving.v
Schema.v
Tasks.v
Interleaved.v
HitRates.v
Shutdown.v
Server.v
Progress.v
PyBindings.v
CacheModel.v
Stress.v
UnitTests.v
EndToEnd.v
