(* ===== verification/Prelude.v ===== *)
(** * kvRouteRS: a verified model of the KV-cache-aware inference router

    The program ([src/crates/router-core], [src/crates/router-server]) routes
    chat-completion requests to inference workers.  A request's canonical
    prompt is cut into blocks and hashed into a chain; a sharded prefix index
    records which worker is believed to hold which block; the router scores the
    healthy workers by matched blocks and load, picks one, and records the
    chain against it.  Background tasks probe the workers, watch Kubernetes
    endpoints, and evict old index entries; the HTTP layer proxies the chosen
    worker's answer and counts what happened.

    ** Files, and the code they model

    - [Prelude]: machine integers, strings, slices, results, hash-map iteration,
      sorting by a key, and the tactics and hint databases [kv] and [kv_len];
    - [Float64]: [f64] as IEEE 754 binary64 of the standard library, and that
      comparison is a total preorder away from NaN;
    - [Text]: the [str] methods and number parsers of the standard library that
      the sources call;
    - [Hashing]: [hashing.rs], with [DefaultHasher] (SipHash-1-3) written out;
    - [Config]: [config.rs] and [error.rs];
    - [Request]: [request.rs];
    - [Worker]: [worker.rs], the registry (module [WorkerRegistry]);
    - [Inflight]: [inflight.rs], the counters (module [InflightTracker]), their
      guards ([InflightGuard]) and runs of both ([Inflight.step]);
    - [Belief]: the interface of the prefix index to its clients (class
      [BeliefIndex], laws [BeliefIndexLaws]);
    - [Prefix]: [prefix.rs], the 64-shard index (module [PrefixIndex]), the
      single-map specification ([FlatIndex]) and the refinement between them;
      it implements the interface of [Belief];
    - [Concurrent]: the methods of [prefix.rs] once more, as threads that stop
      at every shard lock ([IndexThread.advance]), and any number of them
      interleaved ([IndexPool]);
    - [Router]: [router.rs] over any implementation of the interface;
    - [Selection]: the scoring and recording of [router.rs] once more, as a
      thread on the calls of [Concurrent], among any others;
    - [Discovery]: [discovery.rs], reconciliation (module [Discovery]) and the
      watch and retry loops (module [Watch]);
    - [Health]: [health.rs], one round of the poller;
    - [System]: the tasks interleaved as a transition system over the shared
      router, whole operations at a time, with the invariant that then ties the
      index to the registry;
    - [Threads]: requests, health verdicts, sweeps and the watch task once more,
      as threads that stop at every access to what they share
      ([Thread.advance], [WatchTask.advance]), and any number of them
      interleaved ([Threads.step]);
    - [PrometheusText]: [prometheus_text.rs], with the format it reads as its
      specification;
    - [Metrics]: [metrics.rs], as calls of the metrics facade;
    - [EngineMetrics]: [engine_metrics.rs], a scrape round and the task;
    - [Stream]: the streaming part of [api.rs] ([proxy_stream], a state machine
      polled by the client) and the telemetry it records;
    - [Api]: the handlers of [api.rs], [state.rs] and [kv_transfer.rs];
    - [Server]: [lib.rs] of the server, start-up as an ordered fallible sequence;
    - [PyBindings]: [router-py/src/lib.rs], the two Python classes.

    On top of these, the files that only prove things about them:

    - [Widths], [Scores]: machine widths in every reachable state, and the
      arithmetic of scores (modules [Magnitude] and [Scores]);
    - [Serving]: handlers in one piece, with any number of streaming bodies and
      the background tasks interleaved ([Serving.step]), and its simulation by
      [System];
    - [Tasks]: the handlers of [api.rs] as tasks that stop at every await and
      between their operations on the shared state, a selection being one such
      (module [Task]: its states are the locals kept there, [Task.advance] the
      next operation);
    - [Interleaved]: those tasks, the bodies and the background interleaved at
      that grain, clients that disconnect included, and executable schedules of
      them ([Schedule.exec_all]);
    - [Shutdown]: that server with its listener and the interrupt;
    - [HitRates]: what the block counters and the hit statistics add up to, with
      every metric call at the end of a body a step of its own ([Recordings]);
    - [Schema]: the calls of the metrics facade against the declarations;
    - [Progress]: termination of requests and what eventually happens;
    - [CacheModel]: the index without hashes, as a radix cache of prompts, from
      which background steps take blocks;
    - [Stress]: the multi-threaded test of [inflight.rs], with the locks its
      tasks hold and wait for, under every schedule;
    - [UnitTests]: the unit tests of the sources, evaluated on the model;
    - [EndToEnd]: prompts with a common beginning, and [tests/vllm_e2e.rs] as a
      function of the engine's answers.

    ** How the state corresponds

    [Arc]-shared components are fields of one record ([Router.t]: registry,
    policy, cursor, index, tracker, weights), since all handles of the server
    alias the same objects; [Api.app] adds the configuration and the metrics,
    [Watch.state] the discovered workers, [System.t] the slices and the guards
    alive, [Serving.t] the bodies being streamed ([Serving.view] is the [System]
    state of a server), [Interleaved.t] the handlers under way.  An operation
    takes the state and returns the new one.

    Locks make every method of the registry and of the tracker, and every access
    to one shard, atomic, so the concurrent program is a sequence of such steps.
    The model has it at two grains.  [System], [Serving], [Tasks],
    [Interleaved] and [Shutdown] take a method of the index, a selection, a
    health verdict, a watch event and the poll of a body as one step each, and
    their theorems are about runs of such steps.  [Concurrent], [Selection] and
    [Threads] take one lock, one load of a counter, or one update of the registry
    as a step ([Section_.apply] and [Action.apply] are what is done there), and
    [HitRates.Recordings] one call of the metrics facade; each shows that without
    interruption its steps are the coarse ones.  What the coarse grain hides is
    stated there: [believed_workers_in_service], [concurrent_selection],
    [hit_statistics_consistent].  In [Stress] a lock is taken, held and released
    in separate steps.  A poisoned lock is entered like a healthy one, as the
    code does.  [Result]s are [result] values; a panic is [None].

    Integers: ids, counters and hashes are [N] below 2^64 with the wrap-around
    of the atomic operations written out ([fetch_add], [fetch_sub]); lengths are
    [nat]; instants and durations are nanoseconds in [N], and each operation
    takes the clock readings it makes.  A [str] is the list of its scalar
    values, a byte buffer a list of values below 256.

    ** Parameters

    What the sources only call is an argument: the YAML parser and the file
    system ([Config.load]), the HTTP client, header validation and the KV
    connector ([Api.http], class [KvTransfer]), the probe ([Health.poll_round]),
    the Kubernetes watch (the list of its events), the engines' metrics answers
    ([EngineMetrics]), the environment, sockets and recorder of the process
    ([Server.environment]), and the iteration order of
    [HashMap] and [HashSet] (class [HashMapOrder]: any enumeration of the
    entries).  The chain theorems hold for every block hash (class
    [BlockHash]) under the absence of collisions between the two prompts
    compared, which the witnesses check by evaluation for SipHash-1-3.

    ** What the theorems show

    - hashing and prompts: equal chain prefixes mean equal block prefixes, a
      hash identifies its whole prefix, conversations share the blocks of
      their common turns, canonical prompts can be read back;
    - prefix index: sharding refines a single map on every run, matching finds
      the longest held prefix, recording and removal do exactly that, eviction
      bounds the index and drops the least recently touched entries;
    - the index under its locks: at any interleaving a match is at most what was
      held or recorded meanwhile and at least what stayed held, a recorded chain
      is held unless someone took it, a removed worker holds nothing that nobody
      recorded again, and an eviction sweep bounds the index up to what was added
      during it; a selection decides within a bounded number of accesses, by
      matches that are good in this sense, and teaches the index its chain;
    - who is believed to hold blocks: with requests, verdicts, sweeps and watch
      events interleaved at their locks, healthy registered workers, workers whose
      removal from the index is under way, and those for which a selection
      recorded that very block when they had already gone;
    - the meaning of the index: absent collisions, and selections running one
      after the other, the match that a decision reports is never more than the
      longest run of leading blocks shared with a prompt routed to that worker
      before, and exactly that as long as no background step has taken a block
      out of the index;
    - registry and tracker: snapshots are deterministic, ids are never reused,
      counts are the numbers of live guards;
    - router: the contract of both selections, optimality and order
      independence of cache-aware choice, cyclic round robin; with weights below
      2^900 every score is a finite number, so routing is optimal in every
      reachable state;
    - handlers: run alone, the task of a handler is the function of [Api]; under
      arbitrary interference the proxy's answer is fixed by its selection, and a
      two-phase request streams only after an accepted prefill, a transfer and
      an accepted decode; every handler comes to an end;
    - the whole server, at the coarse grain: the in-flight counts are the numbers
      of handlers and bodies that hold a slot, as long as healthy workers have
      counters; accepted requests are those counted, under way, abandoned, or
      without a response head; after the interrupt what is under way comes to an
      end, no guard is left, and under the same condition no slot is occupied;
      hit blocks exceed prompt blocks only by those of bodies between the two
      increments, and never in the predicted rates;
    - tests: a warm cache is used by every request, so the router's half of the
      end-to-end test passes for every engine; the stress test cannot deadlock
      and ends with all counts at zero under every schedule;
    - types: ids, cursor, counters and hashes stay within 64 bits, and every
      metric call has its declared kind and labels;
    - progress: requests terminate, recovered workers are served, unused blocks
      expire within one sweep period of their lifetime, [/ready] follows the last
      verdicts of the health poller, start-up reports its first error;
    - engine metrics: the parser reads back what the exposition format renders,
      a scrape round shows exactly the rates of the healthy workers;
    - Python: the router is a family of independent core routers, lookups see
      exactly what was inserted, [load_weight] has no effect in process;
    - background tasks: reconciliation refines its specification and is
      idempotent, the watch tracks its slices, a poll round mirrors its probes,
      back-off is exponential;
    - requests: the exact contract of the single-phase proxy, the phases of the
      two-phase flow, the body relays and terminates the stream, every in-flight
      slot is released and every request is counted exactly once, unless its
      client leaves or its response head cannot be built;
    - limits of the code, as theorems: cyclic candidate order with NaN scores,
      round robin at the wrap of its cursor, uncounted workers after many pod
      replacements, the restarted watch, the race between a selection and a
      health probe, the purge of a removed worker before its deregistration, the
      hit counter that runs ahead of the prompt counter, an eviction sweep that
      does not see the touches made during it, split [DONE] markers, metric lines
      without a value or with a timestamp, lifetimes of 2^64 seconds and more.

    ** Bounds and fuel

    [chunks] takes the length of the list as fuel, enough for a positive chunk
    size ([chunks_cons]); bodies are polled [S (length remaining)] times, which
    drains them ([ProxyStream.polls_drain]); [Task.run] takes the number of
    operations a handler may make, and the run of every handler has one that
    is enough ([uninterrupted_handler_is_api]).  All other recursion is
    structural.  A selection makes at most
    [n * (2 * blocks + 5) + blocks + 2] accesses for [n] candidates
    ([selection_steps_bounded]); a run of the stress test has at most 96,000
    steps.  Theorems about id allocation assume fewer than 2^64
    registrations.

    ** Not modelled

    Log lines and spans, JSON and YAML syntax, the dispatch and the extractors
    of axum (its route table is [Api.build_router]), the Prometheus recorder and
    renderer, sockets and the installation of signal handlers, the interpreter
    lock and the module table of the bindings are I/O or library calls without
    state of the program's own.  Of the tests, those of serde and of the YAML
    parser's own errors are left out: they test libraries; of the stress test,
    its 30 s timeout.  Atomic counters are sequentially consistent in the model:
    a relaxed load sees the last value written. *)

From Stdlib Require Export NArith ZArith Lia.
From Stdlib Require Ascii String.
From stdpp Require Export prelude list gmap sorting numbers strings pretty.


#[export] Set Warnings "-clear-no-such-hyp".

(** ** Machine integers

    [u64] and (on the 64-bit targets the server is built for) [usize] values
    are [N]; the two atomic counters of the program use the wrapping
    [fetch_add]/[fetch_sub] of the standard library. *)

Definition u64_modulus : N := 18446744073709551616.

Definition wrap64 (x : N) : N := (x mod u64_modulus)%N.

Definition fetch_add (x d : N) : N := wrap64 (x + d).
Definition fetch_sub (x d : N) : N := wrap64 (x + (u64_modulus - wrap64 d)).

(** ** Strings

    A Rust [str] is the list of its Unicode scalar values ([str::chars]); a
    byte buffer is a list of values below 256.  [lit] writes an ASCII literal. *)

Abbreviation rstr := (list N).
Abbreviation bytes := (list N).

Definition lit (s : string) : rstr := Ascii.N_of_ascii <$> String.list_ascii_of_string s.

(** Decimal rendering of an unsigned integer ([Display] for [u64]/[u16]). *)
Definition show_N (n : N) : rstr := lit (pretty n).

(** [str::trim_end_matches(c)] for a single character. *)
Definition trim_end_matches (c : N) (s : rstr) : rstr :=
  let fix go (l : rstr) :=
    match l with
    | x :: l' => if decide (x = c) then go l' else l
    | [] => []
    end
  in rev (go (rev s)).

(** ** Automation *)

Create HintDb kv.

(** Case analysis on every [match]/[decide] of the goal and hypotheses, then
    the equations it leaves. *)
Ltac kv_cases :=
  repeat (case_decide || case_match || case_bool_decide); simplify_eq/=.

Ltac kv_solve := kv_cases; eauto with kv; try lia; try congruence.

(** ** Integers *)

Section wrapping.
Local Open Scope N_scope.

Lemma wrap64_small x : x < u64_modulus → wrap64 x = x.
Proof. apply N.mod_small. Qed.

Lemma wrap64_lt x : wrap64 x < u64_modulus.
Proof. by apply N.mod_lt. Qed.

Lemma fetch_add_lt x d : fetch_add x d < u64_modulus.
Proof. apply wrap64_lt. Qed.

Lemma fetch_sub_lt x d : fetch_sub x d < u64_modulus.
Proof. apply wrap64_lt. Qed.

(** Below the modulus, a decrement undoes an increment, wrap-around included. *)
Lemma fetch_sub_add x d : x < u64_modulus → fetch_sub (fetch_add x d) d = x.
Proof.
  intros Hx. unfold fetch_sub, fetch_add, wrap64, u64_modulus in *.
  pose proof (N.mod_lt d 18446744073709551616 ltac:(lia)).
  rewrite N.Div0.add_mod_idemp_l.
  pose proof (N.div_mod d 18446744073709551616 ltac:(lia)) as Hd.
  replace (x + d + (18446744073709551616 - d mod 18446744073709551616))
    with (x + (d / 18446744073709551616 + 1) * 18446744073709551616) by lia.
  rewrite N.Div0.mod_add. by apply N.mod_small.
Qed.

Lemma fetch_sub_pos x : 0 < x → x < u64_modulus → fetch_sub x 1 = x - 1.
Proof.
  intros H0 Hx. unfold fetch_sub, wrap64, u64_modulus in *.
  change (1 mod 18446744073709551616) with 1.
  replace (x + (18446744073709551616 - 1))
    with (x - 1 + 1 * 18446744073709551616) by lia.
  rewrite N.Div0.mod_add. apply N.mod_small. lia.
Qed.
End wrapping.

#[export] Hint Resolve wrap64_lt fetch_add_lt fetch_sub_lt : kv.
Create Rewrite HintDb kv_len.
#[export] Hint Rewrite @length_take @length_drop @length_app @length_fmap : kv_len.

(** ** Slices: [slice::chunks]

    The fuel is the length of the slice, which is enough for any positive
    chunk size ([chunks_cons]). *)

Fixpoint chunks_fuel {A} (fuel n : nat) (l : list A) : list (list A) :=
  match fuel, l with
  | _, [] => []
  | O, _ => []
  | S fuel, _ => take n l :: chunks_fuel fuel n (drop n l)
  end.

Definition chunks {A} (n : nat) (l : list A) : list (list A) :=
  chunks_fuel (length l) n l.

(** [usize::div_ceil]. *)
Definition div_ceil (a b : nat) : nat := (a + b - 1) / b.

Section chunks.
Context {A : Type}.
Implicit Types (l : list A) (n : nat).

Lemma chunks_fuel_enough n l f1 f2 :
  0 < n → length l ≤ f1 → length l ≤ f2 →
  chunks_fuel f1 n l = chunks_fuel f2 n l.
Proof.
  intros Hn. revert l f2. induction f1 as [|f1 IH]; intros l f2 H1 H2.
  - destruct l, f2; simpl in *; done || lia.
  - destruct l as [|x l]; [by destruct f2|].
    destruct f2 as [|f2]; [simpl in *; lia|].
    cbn [chunks_fuel]. f_equal.
    apply IH; rewrite length_drop; simpl in *; lia.
Qed.

Lemma chunks_nil n : chunks n (@nil A) = [].
Proof. done. Qed.

Lemma chunks_cons n l :
  0 < n → l ≠ [] → chunks n l = take n l :: chunks n (drop n l).
Proof.
  intros Hn Hl. unfold chunks. destruct l as [|x l]; [done|].
  cbn [length chunks_fuel]. f_equal.
  apply chunks_fuel_enough; rewrite ?length_drop; simpl; lia.
Qed.

(** Induction along the chunks of a list. *)
Lemma chunks_ind n (P : list A → Prop) :
  0 < n → P [] → (∀ l, l ≠ [] → P (drop n l) → P l) → ∀ l, P l.
Proof.
  intros Hn H0 HS l. remember (length l) as k eqn:Hk. revert l Hk.
  induction k as [k IH] using lt_wf_ind. intros l ->.
  destruct l as [|x l]; [done|]. apply HS; [done|].
  eapply IH; [|done]. rewrite length_drop. simpl. lia.
Qed.

Ltac chunk_induction n l :=
  pattern l; apply (chunks_ind n); [done| |clear l; intros l Hl IH].

Lemma concat_chunks n l : 0 < n → concat (chunks n l) = l.
Proof.
  intros Hn. chunk_induction n l; [done|].
  rewrite chunks_cons by done. simpl. by rewrite IH, take_drop.
Qed.

Lemma div_ceil_step a n : 0 < n → 0 < a → div_ceil a n = S (div_ceil (a - n) n).
Proof.
  intros Hn Ha. unfold div_ceil. destruct (decide (a ≤ n)).
  - replace (a - n) with 0 by lia.
    rewrite (Nat.div_small (0 + n - 1)) by lia.
    symmetry. apply Nat.div_unique with (a - 1); lia.
  - replace (a + n - 1) with ((a - n + n - 1) + 1 * n) by lia.
    rewrite Nat.div_add by lia. lia.
Qed.

Lemma length_chunks n l : 0 < n → length (chunks n l) = div_ceil (length l) n.
Proof.
  intros Hn. chunk_induction n l.
  - rewrite chunks_nil. unfold div_ceil. by rewrite Nat.div_small by (simpl; lia).
  - rewrite chunks_cons by done. simpl.
    rewrite IH, length_drop, (div_ceil_step (length l)); try done.
    destruct l; simpl; done || lia.
Qed.

Lemma lookup_chunks n l i :
  0 < n → i * n < length l → chunks n l !! i = Some (take n (drop (i * n) l)).
Proof.
  intros Hn. revert i.
  chunk_induction n l; intros i Hi; [simpl in *; lia|].
  rewrite chunks_cons by done. destruct i as [|i]; [by rewrite drop_0|].
  simpl in *. rewrite IH by (rewrite length_drop; lia).
  by rewrite drop_drop.
Qed.

(** Two lists that agree on their first [k * n] elements have the same
    first [k] chunks. *)
Lemma chunks_prefix n k l1 l2 :
  0 < n → k * n ≤ length l1 → l1 `prefix_of` l2 →
  take k (chunks n l1) = take k (chunks n l2).
Proof.
  intros Hn Hk [l3 ->]. apply list_eq. intros i.
  destruct (decide (i < k)) as [Hi|]; [|by rewrite !lookup_take_ge by lia].
  assert (S i * n ≤ k * n) by (apply Nat.mul_le_mono_r; lia).
  rewrite !lookup_take_lt by done.
  rewrite !lookup_chunks by (rewrite ?length_app; lia).
  rewrite drop_app_le by lia. rewrite take_app_le by (rewrite length_drop; lia).
  done.
Qed.
End chunks.

(** ** Filters and rotations *)

Lemma list_filter_ext_in {A} (P1 P2 : A → Prop)
    `{!∀ x, Decision (P1 x), !∀ x, Decision (P2 x)} (l : list A) :
  (∀ x, x ∈ l → P1 x ↔ P2 x) → filter P1 l = filter P2 l.
Proof.
  induction l as [|x l IH]; intros Hl; [done|]. rewrite !filter_cons.
  rewrite IH by (intros y Hy; apply Hl; by right).
  apply decide_ext, Hl. by left.
Qed.

Lemma length_filter_fmap {A B} (f : A → B) (P : B → Prop) `{!∀ x, Decision (P x)} (l : list A) :
  length (filter P (f <$> l)) = length (filter (λ x, P (f x)) l).
Proof.
  induction l as [|x l IH]; [done|]. rewrite fmap_cons, !filter_cons.
  case_decide; simpl; by rewrite ?IH.
Qed.

(** A list that reads another cyclically, once around, is a permutation of it. *)
Lemma cyclic_perm {A} (k : nat) (l l' : list A) :
  length l' = length l →
  (∀ i x, l' !! i = Some x → l !! ((k + i) mod length l) = Some x) →
  l' ≡ₚ l.
Proof.
  intros Hlen Hcyc. set (n := length l) in *. set (j := k mod n).
  destruct (decide (n = 0)) as [Hn|Hn].
  { apply nil_length_inv in Hn as ->. by apply nil_length_inv in Hlen as ->. }
  assert (Hj : j < n) by by apply Nat.mod_upper_bound.
  assert (l' = drop j l ++ take j l) as ->; [|by rewrite (Permutation_app_comm (drop j l)), take_drop].
  apply list_eq_same_length with n; [rewrite length_app, length_drop, length_take; lia|done|].
  intros i x y Hi Hx Hy. apply Hcyc in Hx.
  rewrite <-Nat.Div0.add_mod_idemp_l in Hx. fold j in Hx.
  destruct (decide (j + i < n)) as [Hlt|Hge].
  - rewrite Nat.mod_small in Hx by done.
    rewrite lookup_app_l, lookup_drop in Hy by (rewrite length_drop; lia). congruence.
  - rewrite <-(Nat.mod_unique (j + i) n 1 (j + i - n)) in Hx by lia.
    rewrite lookup_app_r, length_drop in Hy by (rewrite length_drop; lia).
    rewrite lookup_take_lt in Hy by lia.
    replace (i - (length l - j)) with (j + i - n) in Hy by lia. congruence.
Qed.

(** ** Results

    [Result<T, E>] with the [?] operator as a monadic bind. *)

Inductive result (E A : Type) := Ok (a : A) | Err (e : E).
Arguments Ok {E A} a.
Arguments Err {E A} e.

#[export] Instance result_eq_dec {E A} `{EqDecision E, EqDecision A} :
  EqDecision (result E A).
Proof. solve_decision. Defined.

#[export] Instance result_ret E : MRet (result E) := λ A a, Ok a.
#[export] Instance result_bind E : MBind (result E) := λ A B f r,
  match r with Ok a => f a | Err e => Err e end.

#[export] Instance result_fmap E : FMap (result E) := λ A B f r,
  match r with Ok a => Ok (f a) | Err e => Err e end.

(** [Result::map_err] and [Option::ok_or_else]. *)
Definition map_err {E F A} (f : E → F) (r : result E A) : result F A :=
  match r with Ok a => Ok a | Err e => Err (f e) end.
Definition ok_or {E A} (e : E) (o : option A) : result E A :=
  match o with Some a => Ok a | None => Err e end.

(** ** [HashMap] iteration

    The order in which a [HashMap] yields its entries is unspecified: the
    operations that iterate take it as an argument, any enumeration of the
    entries.  [hm_canonical] is one, for evaluation. *)

Class HashMapOrder := {
  hm_iter : ∀ {K} `{Countable K} {V}, gmap K V → list (K * V);
  hm_iter_perm : ∀ {K} `{Countable K} {V} (m : gmap K V), hm_iter m ≡ₚ map_to_list m;
}.

Definition hm_canonical : HashMapOrder := {|
  hm_iter K _ _ V m := map_to_list m;
  hm_iter_perm K _ _ V m := reflexivity (map_to_list m);
|}.

(** Another enumeration. *)
Lemma reverse_map_to_list_perm `{Countable K} {V} (m : gmap K V) :
  reverse (map_to_list m) ≡ₚ map_to_list m.
Proof. apply reverse_Permutation. Qed.

Definition hm_reversed : HashMapOrder := {|
  hm_iter K _ _ V m := reverse (map_to_list m);
  hm_iter_perm K _ _ V m := reverse_map_to_list_perm m;
|}.

Section hash_map_order.
Context {HM : HashMapOrder} `{Countable K} {V : Type}.
Implicit Types (m : gmap K V).

Lemma elem_of_hm_iter m k v : (k, v) ∈ hm_iter m ↔ m !! k = Some v.
Proof. rewrite (hm_iter_perm m). apply elem_of_map_to_list. Qed.

Lemma length_hm_iter m : length (hm_iter m) = size m.
Proof. rewrite (hm_iter_perm m). apply length_map_to_list. Qed.

Lemma NoDup_hm_iter_fst m : NoDup (hm_iter m).*1.
Proof. rewrite (hm_iter_perm m). apply NoDup_fst_map_to_list. Qed.

Lemma NoDup_hm_iter m : NoDup (hm_iter m).
Proof. rewrite (hm_iter_perm m). apply NoDup_map_to_list. Qed.
End hash_map_order.

(** [HashSet<K>] is [HashMap<K, ()>]: its iteration is that of the map. *)
Definition hs_iter {HM : HashMapOrder} `{Countable K} (X : gset K) : list K :=
  (hm_iter (mapset.mapset_car X)).*1.

Lemma hs_iter_perm {HM : HashMapOrder} `{Countable K} (X : gset K) :
  hs_iter X ≡ₚ elements X.
Proof. unfold hs_iter. rewrite hm_iter_perm. by destruct X. Qed.

Lemma elem_of_hs_iter {HM : HashMapOrder} `{Countable K} (X : gset K) (x : K) :
  x ∈ hs_iter X ↔ x ∈ X.
Proof. rewrite hs_iter_perm. apply elem_of_elements. Qed.

Lemma NoDup_hs_iter {HM : HashMapOrder} `{Countable K} (X : gset K) : NoDup (hs_iter X).
Proof. rewrite hs_iter_perm. apply NoDup_elements. Qed.

(** A duplicate-free list has as many elements as the set it enumerates. *)
Lemma length_enumeration `{Countable K} (l : list K) (X : gset K) :
  NoDup l → (∀ x, x ∈ l ↔ x ∈ X) → length l = size X.
Proof.
  intros Hnd Hl. rewrite <-(size_list_to_set (C := gset K) l Hnd).
  f_equal. apply set_eq. intros x. by rewrite elem_of_list_to_set, Hl.
Qed.

(** ** Sorting by a key ([sort_by_key])

    The standard library's [sort_by_key] is stable: elements with equal keys
    keep their order.  Insertion sort is, too, so it has the same result; on
    lists whose keys are distinct the result is independent of the input
    order. *)

Definition key_le {A} (key : A → N) : relation A := λ x y, (key x ≤ key y)%N.

#[export] Instance key_le_dec {A} (key : A → N) : RelDecision (key_le key).
Proof. intros x y. unfold key_le. apply _. Defined.

(** [x] goes before everything that is not smaller. *)
Fixpoint insert_by_key {A} (key : A → N) (x : A) (l : list A) : list A :=
  match l with
  | [] => [x]
  | y :: l' => if decide (key x ≤ key y)%N then x :: l else y :: insert_by_key key x l'
  end.

Definition sort_by_key {A} (key : A → N) (l : list A) : list A :=
  foldr (insert_by_key key) [] l.

Section sort_by_key.
Context {A : Type} (key : A → N).

#[export] Instance key_le_trans : Transitive (key_le key).
Proof. intros x y z. unfold key_le. lia. Qed.
#[export] Instance key_le_total : Total (key_le key).
Proof. intros x y. unfold key_le. lia. Qed.

Lemma insert_by_key_perm x l : insert_by_key key x l ≡ₚ x :: l.
Proof.
  induction l as [|y l IH]; [done|]. cbn [insert_by_key]. case_decide; [done|].
  rewrite IH. apply Permutation_swap.
Qed.

Lemma insert_by_key_sorted x l :
  StronglySorted (key_le key) l → StronglySorted (key_le key) (insert_by_key key x l).
Proof.
  induction 1 as [|y l Hs IH Hy]; cbn [insert_by_key]; [by repeat constructor|].
  case_decide as Hxy.
  - constructor; [by constructor|]. constructor; [done|].
    eapply Forall_impl; [exact Hy|]. intros z Hz. unfold key_le in *. lia.
  - constructor; [done|]. rewrite insert_by_key_perm. constructor; [unfold key_le; lia|done].
Qed.

Lemma sort_by_key_perm l : sort_by_key key l ≡ₚ l.
Proof.
  induction l as [|x l IH]; [done|]. cbn [sort_by_key foldr].
  rewrite insert_by_key_perm. by f_equiv.
Qed.

Lemma sort_by_key_sorted l : StronglySorted (key_le key) (sort_by_key key l).
Proof. induction l as [|x l IH]; [constructor|]. by apply insert_by_key_sorted. Qed.

(** Elements with equal keys keep their order. *)
Lemma insert_by_key_stable k x l :
  filter (λ y, key y = k) (insert_by_key key x l) = filter (λ y, key y = k) (x :: l).
Proof.
  induction l as [|y l IH]; [done|]. cbn [insert_by_key]. case_decide as Hxy; [done|].
  rewrite filter_cons, IH, !filter_cons. repeat case_decide; by lia || congruence.
Qed.

Lemma sort_by_key_stable k l :
  filter (λ y, key y = k) (sort_by_key key l) = filter (λ y, key y = k) l.
Proof.
  induction l as [|x l IH]; [done|]. cbn [sort_by_key foldr].
  rewrite insert_by_key_stable, !filter_cons. unfold sort_by_key in IH. by rewrite IH.
Qed.

(** On elements with distinct keys the sorted list is determined by the
    elements alone. *)
Lemma sort_by_key_unique l1 l2 :
  NoDup (key <$> l1) → l1 ≡ₚ l2 → sort_by_key key l1 = sort_by_key key l2.
Proof.
  intros Hnd Hp. eapply (StronglySorted_unique_strong (key_le key)).
  - intros x y Hx Hy Hxy Hyx. rewrite sort_by_key_perm in Hx, Hy.
    assert (key x = key y) as He by (unfold key_le in *; lia).
    apply list_elem_of_lookup in Hx as [i Hi].
    rewrite <-Hp in Hy. apply list_elem_of_lookup in Hy as [j Hj].
    assert (i = j) as ->.
    { eapply NoDup_lookup; [done| |]; rewrite list_lookup_fmap.
      - rewrite Hi. done.
      - rewrite Hj. simpl. by rewrite He. }
    congruence.
  - apply sort_by_key_sorted.
  - apply sort_by_key_sorted.
  - by rewrite !sort_by_key_perm.
Qed.

Lemma sort_by_key_strict l :
  NoDup (key <$> l) → StronglySorted N.lt (key <$> sort_by_key key l).
Proof.
  intros Hnd. rewrite <-(sort_by_key_perm l) in Hnd.
  pose proof (sort_by_key_sorted l) as Hs. revert Hnd Hs.
  generalize (sort_by_key key l). clear l. intros l Hnd Hs.
  induction Hs as [|x l Hs IH Hx]; simpl in *; constructor.
  - apply IH. by apply NoDup_cons in Hnd as [_ ?].
  - apply NoDup_cons in Hnd as [Hni _]. rewrite Forall_fmap, Forall_forall in *.
    intros y Hy. specialize (Hx y Hy). unfold key_le in Hx. simpl.
    assert (key x ≠ key y) by (intros He; apply Hni; rewrite He; by apply list_elem_of_fmap_2).
    lia.
Qed.
End sort_by_key.

(** ** Sums of counters *)

Definition sumN (l : list N) : N := foldr N.add 0%N l.

Section sums.
Local Open Scope N_scope.

Lemma wrap64_add_l a b : wrap64 (wrap64 a + b) = wrap64 (a + b).
Proof. apply N.Div0.add_mod_idemp_l. Qed.
Lemma wrap64_add_r a b : wrap64 (a + wrap64 b) = wrap64 (a + b).
Proof. apply N.Div0.add_mod_idemp_r. Qed.
Lemma wrap64_idemp a : wrap64 (wrap64 a) = wrap64 a.
Proof. apply N.Div0.mod_mod. Qed.

(** Adding on both sides can be cancelled modulo 2^64. *)
Lemma wrap64_add_cancel a b c : wrap64 (a + c) = wrap64 (b + c) → wrap64 a = wrap64 b.
Proof.
  intros He. set (d := u64_modulus - wrap64 c).
  assert (Hd : ∀ x, wrap64 (x + c + d) = wrap64 x).
  { intros x. pose proof (wrap64_lt c) as Hc. unfold d. clear d He.
    replace (x + c + (u64_modulus - wrap64 c)) with (x + (c + (u64_modulus - wrap64 c))) by lia.
    rewrite <-wrap64_add_r, <-(wrap64_add_l c).
    replace (wrap64 c + (u64_modulus - wrap64 c)) with u64_modulus by lia.
    change (wrap64 u64_modulus) with 0. by rewrite N.add_0_r. }
  rewrite <-(Hd a), <-(Hd b), <-(wrap64_add_l (a + c)), <-(wrap64_add_l (b + c)).
  by rewrite He.
Qed.

Lemma wrap64_sub_add_nat n :
  fetch_sub (wrap64 (N.of_nat (1 + n))) 1 = wrap64 (N.of_nat n).
Proof.
  replace (N.of_nat (1 + n)) with (N.of_nat n + 1) by lia.
  rewrite <-wrap64_add_l. apply fetch_sub_add, wrap64_lt.
Qed.

Lemma foldl_fetch_add a l :
  a < u64_modulus → foldl fetch_add a l = wrap64 (a + sumN l).
Proof.
  revert a. induction l as [|x l IH]; intros a Ha; simpl.
  - by rewrite N.add_0_r, wrap64_small.
  - rewrite IH by apply fetch_add_lt. unfold fetch_add.
    rewrite wrap64_add_l. f_equal. lia.
Qed.

Lemma sumN_alter f d i l x :
  l !! i = Some x → wrap64 (f x + d) = wrap64 x →
  wrap64 (sumN (alter f i l) + d) = wrap64 (sumN l).
Proof.
  revert l. induction i as [|i IH]; intros [|y l] Hl Hf; simplify_eq/=.
  - replace (f x + sumN l + d) with (f x + d + sumN l) by lia.
    by rewrite <-wrap64_add_l, Hf, wrap64_add_l.
  - specialize (IH l Hl Hf).
    change (foldr N.add 0 (alter f i l)) with (sumN (alter f i l)).
    rewrite <-(N.add_assoc y).
    rewrite <-wrap64_add_r, IH, wrap64_add_r. done.
Qed.

Lemma sumN_app l k : sumN (l ++ k) = sumN l + sumN k.
Proof. induction l; simpl; [done|]. unfold sumN in *. lia. Qed.

Lemma sumN_replicate_0 n : sumN (replicate n 0) = 0.
Proof. by induction n. Qed.
End sums.
