(* ===== verification/Float64.v ===== *)
(** * [f64]

    IEEE 754 binary64 as the standard library's [spec_float] with 53 bits of
    precision: the operations the program performs on scores and rates, and
    the facts about comparison that the candidate ordering rests on. *)

From Stdlib Require Import SpecFloat.
From S2P Require Import Prelude.

Abbreviation f64 := spec_float.

Definition f64_prec : Z := 53.
Definition f64_emax : Z := 1024.

Definition f64_mul : f64 → f64 → f64 := SFmul f64_prec f64_emax.
Definition f64_add : f64 → f64 → f64 := SFadd f64_prec f64_emax.
Definition f64_sub : f64 → f64 → f64 := SFsub f64_prec f64_emax.
Definition f64_div : f64 → f64 → f64 := SFdiv f64_prec f64_emax.

(** [x as f64] for an unsigned integer: round to nearest, ties to even. *)
Definition f64_of_N (x : N) : f64 :=
  binary_normalize f64_prec f64_emax (Z.of_N x) 0 false.

(** [f64::partial_cmp]. *)
Definition f64_partial_cmp : f64 → f64 → option comparison := SFcompare.

Definition f64_is_nan (x : f64) : bool :=
  match x with S754_nan => true | _ => false end.

Definition f64_is_finite (x : f64) : bool :=
  match x with S754_nan | S754_infinity _ => false | _ => true end.

Definition f64_0 : f64 := S754_zero false.
Definition f64_1 : f64 := f64_of_N 1.
(** The literal [0.5]. *)
Definition f64_half : f64 := f64_div f64_1 (f64_of_N 2).

#[export] Instance f64_eq_dec : EqDecision f64.
Proof. solve_decision. Defined.

(** ** Comparison is a total preorder away from NaN

    [rank] maps the non-NaN values order-faithfully to triples of integers
    compared lexicographically. *)

Definition rank (x : f64) : Z * Z * Z :=
  match x with
  | S754_infinity true => (-2, 0, 0)
  | S754_finite true m e => (-1, - e, Z.neg m)
  | S754_zero _ | S754_nan => (0, 0, 0)
  | S754_finite false m e => (1, e, Z.pos m)
  | S754_infinity false => (2, 0, 0)
  end%Z.

Definition then_cmp (c d : comparison) : comparison :=
  match c with Eq => d | _ => c end.

Definition rank_cmp (a b : Z * Z * Z) : comparison :=
  let '(a1, a2, a3) := a in
  let '(b1, b2, b3) := b in
  then_cmp (Z.compare a1 b1) (then_cmp (Z.compare a2 b2) (Z.compare a3 b3)).

Lemma f64_partial_cmp_rank x y :
  f64_is_nan x = false → f64_is_nan y = false →
  f64_partial_cmp x y = Some (rank_cmp (rank x) (rank y)).
Proof.
  destruct x as [[]|[]| |[] m e], y as [[]|[]| |[] m' e']; simpl;
    try done; intros _ _; f_equal; rewrite ?Z.compare_opp.
  - rewrite (Z.compare_antisym e' e).
    by destruct (e' ?= e)%Z; simpl.
  - by destruct (e ?= e')%Z.
Qed.

Lemma rank_cmp_refl a : rank_cmp a a = Eq.
Proof. destruct a as [[a1 a2] a3]. simpl. by rewrite !Z.compare_refl. Qed.

Lemma rank_cmp_antisym a b : rank_cmp b a = CompOpp (rank_cmp a b).
Proof.
  destruct a as [[a1 a2] a3], b as [[b1 b2] b3]. simpl.
  rewrite (Z.compare_antisym a1), (Z.compare_antisym a2), (Z.compare_antisym a3).
  by destruct (a1 ?= b1)%Z, (a2 ?= b2)%Z, (a3 ?= b3)%Z.
Qed.

(** [coherent a b c]: [c] may be the comparison of [x] and [z] when [a] and [b]
    are those of [x], [y] and of [y], [z] in a total preorder. *)
Definition coherent (a b c : comparison) : Prop :=
  match a, b with
  | Gt, _ | _, Gt => True
  | Eq, Eq => c = Eq
  | _, _ => c = Lt
  end.

Lemma then_cmp_coherent a1 a2 a3 b1 b2 b3 :
  coherent a1 a2 a3 → coherent b1 b2 b3 →
  coherent (then_cmp a1 b1) (then_cmp a2 b2) (then_cmp a3 b3).
Proof. destruct a1, a2; simpl; intros Ha Hb; subst; simpl; destruct b1, b2; done. Qed.

Lemma Z_compare_coherent x y z : coherent (x ?= y)%Z (y ?= z)%Z (x ?= z)%Z.
Proof.
  destruct (Z.compare_spec x y), (Z.compare_spec y z); simpl; try done; subst;
    first [apply Z.compare_refl | apply Z.compare_lt_iff; lia].
Qed.

Lemma N_compare_coherent x y z : coherent (x ?= y)%N (y ?= z)%N (x ?= z)%N.
Proof. rewrite <-!N2Z.inj_compare. apply Z_compare_coherent. Qed.

Lemma coherent_le a b c : coherent a b c → a ≠ Gt → b ≠ Gt → c ≠ Gt.
Proof. destruct a, b; simpl; intros; subst; done. Qed.

Lemma rank_cmp_coherent a b c : coherent (rank_cmp a b) (rank_cmp b c) (rank_cmp a c).
Proof.
  destruct a as [[a1 a2] a3], b as [[b1 b2] b3], c as [[c1 c2] c3].
  unfold rank_cmp. auto using then_cmp_coherent, Z_compare_coherent.
Qed.
