(* ===== verification/Text.v ===== *)
(** * Text: the [str] and [f64::from_str] routines of the standard library

    Character classes, trimming, line splitting and searching as the program
    uses them, and the decimal parsers: [str::parse::<u64>] and
    [str::parse::<f64>] (correctly rounded, over [spec_float]). *)

From Stdlib Require Import SpecFloat.
From S2P Require Import Prelude Float64.

(** ** Characters *)

Definition LF : N := 10.
Definition CR : N := 13.

(** [char::is_whitespace] (the Unicode property [White_Space]). *)
Definition is_whitespace (c : N) : bool :=
  bool_decide (9 ≤ c ≤ 13)%N || bool_decide (c = 32)%N || bool_decide (c = 133)%N ||
  bool_decide (c = 160)%N || bool_decide (c = 5760)%N || bool_decide (8192 ≤ c ≤ 8202)%N ||
  bool_decide (c = 8232)%N || bool_decide (c = 8233)%N || bool_decide (c = 8239)%N ||
  bool_decide (c = 8287)%N || bool_decide (c = 12288)%N.

Definition is_digit (c : N) : bool := bool_decide (48 ≤ c ≤ 57)%N.

(** ** [str::trim], [str::lines], [str::find], [str::rfind] *)

Fixpoint trim_start (s : rstr) : rstr :=
  match s with
  | c :: s' => if is_whitespace c then trim_start s' else s
  | [] => []
  end.

Definition trim (s : rstr) : rstr := rev (trim_start (rev (trim_start s))).

(** A line ends at a line feed, together with a carriage return before it; the
    last one may be unterminated. *)
Fixpoint lines (s : rstr) : list rstr :=
  match s with
  | [] => []
  | c :: s' =>
      if decide (c = LF) then [] :: lines s'
      else if decide (c = CR ∧ head s' = Some LF) then lines s'
      else match lines s' with
           | [] => [[c]]
           | l :: ls => (c :: l) :: ls
           end
  end.

(** The position of the first, respectively last, character that satisfies [p]. *)
Fixpoint find (p : N → bool) (s : rstr) : option nat :=
  match s with
  | [] => None
  | c :: s => if p c then Some 0 else S <$> find p s
  end.

Definition rfind (p : N → bool) (s : rstr) : option nat :=
  (λ i, length s - 1 - i) <$> find p (rev s).

Definition starts_with (c : N) (s : rstr) : bool := bool_decide (head s = Some c).

(** ** [str::parse::<u64>] *)

Fixpoint parse_digits (acc : N) (s : rstr) : option N :=
  match s with
  | [] => Some acc
  | c :: s =>
      if is_digit c then
        let acc := (acc * 10 + (c - 48))%N in
        if decide (acc < u64_modulus)%N then parse_digits acc s else None
      else None
  end.

Definition parse_u64 (s : rstr) : option N :=
  match s with
  | [] => None
  | c :: rest =>
      if decide (c = 43%N) then (if decide (rest = []) then None else parse_digits 0 rest)
      else parse_digits 0 s
  end.

(** ** [str::parse::<f64>] *)

Fixpoint span (p : N → bool) (s : rstr) : rstr * rstr :=
  match s with
  | c :: s' => if p c then let '(a, b) := span p s' in (c :: a, b) else ([], s)
  | [] => ([], [])
  end.

(** The value of a digit string, appended to [acc]. *)
Definition digits_value (acc : N) (s : rstr) : N :=
  foldl (λ acc c, acc * 10 + (c - 48))%N acc s.

(** The exponent stops growing once it has passed [0x10000]. *)
Definition exponent_value (s : rstr) : N :=
  foldl (λ acc c, if decide (acc < 65536)%N then acc * 10 + (c - 48) else acc)%N 0%N s.

(** [sign * m * 10^e], rounded to nearest, ties to even.  The first two cases
    are far outside the range of [f64] (above [10^400], below [2^-1100]) and
    only keep the powers small. *)
Definition f64_of_decimal (sign : bool) (m : N) (e : Z) : f64 :=
  match m with
  | N0 => S754_zero sign
  | Npos m =>
      if decide (400 < e)%Z then S754_infinity sign
      else if decide (Zpos (digits2_pos m) + 3 * e < -1100)%Z then S754_zero sign
      else if decide (0 ≤ e)%Z then
        binary_round f64_prec f64_emax sign (m * Z.to_pos (10 ^ e)) 0
      else
        let '(q, ex, loc) :=
          SFdiv_core_binary f64_prec f64_emax (Zpos m) 0 (10 ^ (- e)) 0 in
        binary_round_aux f64_prec f64_emax sign q ex loc
  end.

(** The exponent part: nothing, or [e], a sign and at least one digit. *)
Definition parse_exponent (s : rstr) : option Z :=
  match s with
  | [] => Some 0%Z
  | c :: s =>
      if decide (c = 101 ∨ c = 69)%N then
        let '(negative, s) :=
          match s with
          | c :: s' => if decide (c = 45%N) then (true, s')
                       else if decide (c = 43%N) then (false, s') else (false, s)
          | [] => (false, s)
          end in
        let '(ds, rest) := span is_digit s in
        if decide (ds = [] ∨ rest ≠ []) then None
        else Some (if negative then - Z.of_N (exponent_value ds)
                   else Z.of_N (exponent_value ds))%Z
      else None
  end.

(** Digits with an optional point among them (at least one digit), then the
    exponent, to the end of the string. *)
Definition parse_number (sign : bool) (s : rstr) : option f64 :=
  let '(int, s) := span is_digit s in
  let '(frac, s) :=
    match s with
    | c :: s' => if decide (c = 46%N) then span is_digit s' else ([], s)
    | [] => ([], s)
    end in
  if decide (int ++ frac = []) then None else
  e ← parse_exponent s;
  Some (f64_of_decimal sign (digits_value 0 (int ++ frac)) (e - Z.of_nat (length frac))).

Definition to_lower (c : N) : N := if decide (65 ≤ c ≤ 90)%N then (c + 32)%N else c.

Definition parse_inf_nan (sign : bool) (s : rstr) : option f64 :=
  let s := to_lower <$> s in
  if decide (s = lit "inf" ∨ s = lit "infinity") then Some (S754_infinity sign)
  else if decide (s = lit "nan") then Some S754_nan
  else None.

Definition parse_f64 (s : rstr) : option f64 :=
  let '(sign, s) :=
    match s with
    | c :: s' => if decide (c = 45%N) then (true, s')
                 else if decide (c = 43%N) then (false, s') else (false, s)
    | [] => (false, s)
    end in
  match s with
  | [] => None
  | _ => match parse_number sign s with
         | Some x => Some x
         | None => parse_inf_nan sign s
         end
  end.

(** Evaluated against the values that the standard library documents or tests. *)
Example parse_f64_samples :
  parse_f64 (lit "0.625") = Some (f64_div (f64_of_N 5) (f64_of_N 8)) ∧
  parse_f64 (lit "5e-1") = Some f64_half ∧ parse_f64 (lit ".5") = Some f64_half ∧
  parse_f64 (lit "2.") = Some (f64_of_N 2) ∧ parse_f64 (lit ".") = None ∧
  parse_f64 (lit "1e") = None ∧ parse_f64 (lit "") = None ∧ parse_f64 (lit "+") = None ∧
  parse_f64 (lit "-Infinity") = Some (S754_infinity true) ∧
  parse_f64 (lit "1.7976931348623157e308") =
    Some (SFmax_float f64_prec f64_emax) ∧
  parse_f64 (lit "1.8e308") = Some (S754_infinity false) ∧
  parse_f64 (lit "4.9e-324") = Some (S754_finite false 1 (-1074)) ∧
  parse_f64 (lit "2e-324") = Some (S754_zero false) ∧
  parse_f64 (lit "-0") = Some (S754_zero true) ∧
  parse_f64 (lit "9007199254740993") = Some (f64_of_N 9007199254740992) ∧
  parse_f64 (lit "1e-9999999999999") = Some (S754_zero false).
Proof. vm_compute. tauto. Qed.

(** ** Decimal numerals *)

Section numerals.
Local Open Scope N_scope.

Lemma is_digit_spec c : is_digit c = true ↔ 48 ≤ c ≤ 57.
Proof. unfold is_digit. by rewrite bool_decide_eq_true. Qed.

Lemma digits_value_app acc a b :
  digits_value acc (a ++ b) = digits_value (digits_value acc a) b.
Proof. apply foldl_app. Qed.

Lemma digits_value_ge ds acc : acc ≤ digits_value acc ds.
Proof.
  revert acc. induction ds as [|c ds IH]; intros acc; [done|]. cbn [digits_value foldl].
  etrans; [|apply IH]. lia.
Qed.

Lemma parse_digits_value ds acc :
  Forall (λ c, is_digit c = true) ds → digits_value acc ds < u64_modulus →
  parse_digits acc ds = Some (digits_value acc ds).
Proof.
  intros Hds. revert acc. induction Hds as [|c ds Hc Hds IH]; intros acc Hv; [done|].
  cbn [parse_digits]. rewrite Hc. pose proof (digits_value_ge ds (acc * 10 + (c - 48))).
  change (digits_value acc (c :: ds)) with (digits_value (acc * 10 + (c - 48)) ds) in *.
  rewrite decide_True by lia. by apply IH.
Qed.

(** A numeral: digits, at least one, worth [n]. *)
Definition numeral (ds : rstr) (n : N) : Prop :=
  Forall (λ c, is_digit c = true) ds ∧ ds ≠ [] ∧ digits_value 0 ds = n.

Lemma digit_char (d : N) : d < 10 → Ascii.N_of_ascii (pretty_N_char d) = 48 + d.
Proof.
  intros Hd. assert (d ∈ [0;1;2;3;4;5;6;7;8;9]) as Hin.
  { rewrite !elem_of_cons. lia. }
  repeat (apply elem_of_cons in Hin as [->|Hin]; [done|]). by apply not_elem_of_nil in Hin.
Qed.

Lemma digits_value_snoc acc ds (d : N) :
  digits_value acc (ds ++ [48 + d]) = 10 * digits_value acc ds + d.
Proof. rewrite digits_value_app. cbn [digits_value foldl]. lia. Qed.

Lemma is_digit_plus (d : N) : d < 10 → is_digit (48 + d) = true.
Proof. intros Hd. apply is_digit_spec. lia. Qed.

Lemma show_N_go x s :
  0 < x → ∃ ds, lit (pretty_N_go x s) = ds ++ lit s ∧ numeral ds x.
Proof.
  revert s. induction (N.lt_wf_0 x) as [x _ IH]. intros s Hx.
  rewrite pretty_N_go_step by done.
  pose proof (N.mod_lt x 10 ltac:(lia)) as Hm. pose proof (digit_char _ Hm) as Hc.
  pose proof (N.div_mod x 10 ltac:(lia)) as Hdm.
  pose proof (is_digit_plus _ Hm) as Hd.
  destruct (decide (x / 10 = 0)) as [Hz|Hz].
  - rewrite Hz, pretty_N_go_0. exists [48 + x mod 10]. split.
    + unfold lit. cbn [String.list_ascii_of_string]. by rewrite fmap_cons, Hc.
    + split_and!; [by apply Forall_singleton|done|].
      etrans; [apply (digits_value_snoc 0 [])|]. rewrite Hz in Hdm. symmetry. exact Hdm.
  - destruct (IH (x / 10) ltac:(apply N.div_lt; lia)
      (String (pretty_N_char (x mod 10)) s) ltac:(lia)) as (ds & Hds & Hf & Hne & Hv).
    exists (ds ++ [48 + x mod 10]). split.
    + rewrite Hds, <-app_assoc. unfold lit. cbn [String.list_ascii_of_string].
      by rewrite fmap_cons, Hc.
    + split_and!; [by apply Forall_app_2; [|apply Forall_singleton]|by destruct ds|].
      rewrite digits_value_snoc, Hv. symmetry. exact Hdm.
Qed.

Lemma show_N_numeral n : numeral (show_N n) n.
Proof.
  unfold show_N, pretty, pretty_N. case_decide as Hn.
  - subst. split_and!; [|done|done]. apply (bool_decide_unpack _). by vm_compute.
  - destruct (show_N_go n "" ltac:(lia)) as (ds & Hds & Hnum).
    rewrite Hds. by rewrite app_nil_r.
Qed.

Lemma numeral_head ds n : numeral ds n → ∃ c ds', ds = c :: ds' ∧ 48 ≤ c ≤ 57.
Proof.
  intros (Hf & Hne & _). destruct ds as [|c ds]; [done|]. apply Forall_cons in Hf as [Hc _].
  exists c, ds. by rewrite is_digit_spec in Hc.
Qed.

Lemma parse_u64_numeral ds n :
  numeral ds n → n < u64_modulus → parse_u64 ds = Some n.
Proof.
  intros Hn Hlt. destruct (numeral_head _ _ Hn) as (c & ds' & -> & Hc). destruct Hn as (Hf & _ & Hv).
  unfold parse_u64. rewrite decide_False by lia.
  rewrite parse_digits_value, Hv; [done|done|]. by rewrite Hv.
Qed.

Lemma span_all p ds : Forall (λ c, p c = true) ds → span p ds = (ds, []).
Proof. induction 1 as [|c ds Hc _ IH]; [done|]. cbn [span]. by rewrite Hc, IH. Qed.

Lemma span_app p ds c s :
  Forall (λ c, p c = true) ds → p c = false → span p (ds ++ c :: s) = (ds, c :: s).
Proof.
  intros Hds Hc. induction Hds as [|d ds Hd _ IH]; cbn [app span]; [by rewrite Hc|].
  by rewrite Hd, IH.
Qed.

(** An unsigned decimal without an exponent. *)
Lemma parse_f64_decimal int frac n :
  numeral int n → Forall (λ c, is_digit c = true) frac →
  parse_f64 (int ++ lit "." ++ frac) =
  Some (f64_of_decimal false (digits_value n frac) (- Z.of_nat (length frac))).
Proof.
  intros Hn Hfrac. destruct (numeral_head _ _ Hn) as (c & int' & -> & Hc).
  destruct Hn as (Hf & _ & Hv). unfold parse_f64. cbn [app].
  rewrite !(decide_False (P := c = _)) by lia. cbn beta iota.
  unfold parse_number. change (lit "." ++ frac) with (46 :: frac).
  rewrite (app_comm_cons int' _ c), span_app by done. cbn beta iota.
  rewrite decide_True by done. rewrite span_all by done. cbn beta iota.
  rewrite decide_False by done. cbn [parse_exponent mbind option_bind].
  by rewrite digits_value_app, Hv.
Qed.

Lemma parse_f64_numeral ds n : numeral ds n → parse_f64 ds = Some (f64_of_N n).
Proof.
  intros Hn. destruct (numeral_head _ _ Hn) as (c & ds' & -> & Hc).
  destruct Hn as (Hf & _ & Hv). unfold parse_f64.
  rewrite !(decide_False (P := c = _)) by lia. cbn beta iota.
  unfold parse_number. rewrite span_all by done. cbn beta iota.
  rewrite decide_False by done. cbn [parse_exponent mbind option_bind length].
  rewrite app_nil_r, Hv. f_equal. unfold f64_of_N, f64_of_decimal, binary_normalize.
  destruct n as [|m]; [done|]. rewrite !(decide_False (P := (_ < _)%Z)) by lia.
  rewrite decide_True by done. cbn [Z.of_N]. by rewrite Pos.mul_1_r.
Qed.
End numerals.

(** ** Lines and trimming *)

Section lines.
Implicit Types (s l : rstr).

(** A line that [lines] leaves alone. *)
Definition one_line s : Prop := (LF ∉ s) ∧ (CR ∉ s).

Lemma lines_cons l s : one_line l → lines (l ++ LF :: s) = l :: lines s.
Proof.
  intros [Hlf Hcr]. induction l as [|c l IH]; cbn [app lines]; [done|].
  apply not_elem_of_cons in Hlf as [Hc Hlf], Hcr as [Hc' Hcr].
  rewrite decide_False by done. rewrite decide_False by (intros [? _]; congruence).
  by rewrite IH.
Qed.

Lemma lines_concat ls s :
  Forall one_line ls → lines (concat ((λ l, l ++ [LF]) <$> ls) ++ s) = ls ++ lines s.
Proof.
  induction 1 as [|l ls Hl _ IH]; [done|].
  rewrite fmap_cons. cbn [concat]. rewrite <-!app_assoc. cbn [app]. by rewrite lines_cons, IH.
Qed.

Definition trimmed s : Prop :=
  (∀ c, head s = Some c → is_whitespace c = false) ∧
  (∀ c, last s = Some c → is_whitespace c = false).

Lemma trim_start_id s : (∀ c, head s = Some c → is_whitespace c = false) → trim_start s = s.
Proof. destruct s as [|c s]; [done|]. intros Hs. cbn [trim_start]. by rewrite Hs. Qed.

Lemma trim_id s : trimmed s → trim s = s.
Proof.
  intros [Hh Hl]. unfold trim. rewrite (trim_start_id s) by done. rewrite trim_start_id.
  - apply rev_involutive.
  - intros c Hc. apply Hl. revert Hc. destruct s as [|x s _] using rev_ind; [done|].
    by rewrite rev_unit, last_snoc.
Qed.

Lemma trim_blank s : Forall (λ c, is_whitespace c = true) s → trim s = [].
Proof.
  intros Hs. unfold trim. assert (trim_start s = []) as ->; [|done].
  induction Hs as [|c s Hc _ IH]; [done|]. cbn [trim_start]. by rewrite Hc.
Qed.

Lemma find_app_r p a c b :
  Forall (λ c, p c = false) a → p c = true → find p (a ++ c :: b) = Some (length a).
Proof.
  intros Ha Hc. induction Ha as [|x a Hx _ IH]; cbn [app find length]; [by rewrite Hc|].
  by rewrite Hx, IH.
Qed.

Lemma find_none p a : Forall (λ c, p c = false) a → find p a = None.
Proof. induction 1 as [|x a Hx _ IH]; cbn [find]; [done|]. by rewrite Hx, IH. Qed.

Lemma rfind_app p a c b :
  Forall (λ c, p c = false) b → p c = true → rfind p (a ++ c :: b) = Some (length a).
Proof.
  intros Hb Hc. unfold rfind. rewrite rev_app_distr. cbn [rev]. rewrite <-app_assoc. cbn [app].
  rewrite find_app_r; [|by apply Forall_rev|done]. cbn [fmap option_fmap option_map].
  rewrite length_rev, length_app. cbn [length]. f_equal. lia.
Qed.

Lemma rfind_none p a : Forall (λ c, p c = false) a → rfind p a = None.
Proof. intros Ha. unfold rfind. by rewrite find_none by by apply Forall_rev. Qed.
End lines.
