(* ===== verification/Hashing.v ===== *)
(** * Block prefix hashing ([crates/router-core/src/hashing.rs])

    [chain_hash] with the standard library's [DefaultHasher] (SipHash-1-3 with
    zero keys) written out, the interface [BlockHash] that the chain theorems
    use, and the chain invariant of the crate's documentation. *)

From S2P Require Import Prelude.

(** ** The standard library's [DefaultHasher]

    [Hasher::write] appends bytes and [finish] is SipHash-1-3 of what was
    written; integers are written in little-endian order (the native order of
    the x86-64 and AArch64 targets), slices with their length first. *)

Module DefaultHasher.
Local Open Scope N_scope.

Record sip_state := SipState { v0 : N; v1 : N; v2 : N; v3 : N }.

Definition rotl (x b : N) : N :=
  N.lor (wrap64 (N.shiftl x b)) (N.shiftr x (64 - b)).

(** One SipRound. *)
Definition compress (s : sip_state) : sip_state :=
  let v0 := fetch_add (v0 s) (v1 s) in
  let v1 := N.lxor (rotl (v1 s) 13) v0 in
  let v0 := rotl v0 32 in
  let v2 := fetch_add (v2 s) (v3 s) in
  let v3 := N.lxor (rotl (v3 s) 16) v2 in
  let v0 := fetch_add v0 v3 in
  let v3 := N.lxor (rotl v3 21) v0 in
  let v2 := fetch_add v2 v1 in
  let v1 := N.lxor (rotl v1 17) v2 in
  let v2 := rotl v2 32 in
  SipState v0 v1 v2 v3.

(** Mix one 8-byte word in (one compression round). *)
Definition mix (s : sip_state) (m : N) : sip_state :=
  let s := compress (SipState (v0 s) (v1 s) (v2 s) (N.lxor (v3 s) m)) in
  SipState (N.lxor (v0 s) m) (v1 s) (v2 s) (v3 s).

(** Keys 0 and 0. *)
Definition init : sip_state :=
  SipState 0x736f6d6570736575 0x646f72616e646f6d
           0x6c7967656e657261 0x7465646279746573.

Fixpoint le_word (bs : bytes) : N :=
  match bs with
  | [] => 0
  | b :: bs => N.lor b (N.shiftl (le_word bs) 8)
  end.

(** All full 8-byte words, then the state and the bytes left over. *)
Fixpoint absorb (s : sip_state) (bs : bytes) : sip_state * bytes :=
  match bs with
  | b0 :: b1 :: b2 :: b3 :: b4 :: b5 :: b6 :: b7 :: rest =>
      absorb (mix s (le_word [b0; b1; b2; b3; b4; b5; b6; b7])) rest
  | tail => (s, tail)
  end.

Definition finish (written : bytes) : N :=
  let '(s, tail) := absorb init written in
  let b := N.lor (N.shiftl (N.land (N.of_nat (length written)) 255) 56)
                 (le_word tail) in
  let s := mix s b in
  let s := SipState (v0 s) (v1 s) (N.lxor (v2 s) 255) (v3 s) in
  let s := compress (compress (compress s)) in
  N.lxor (N.lxor (v0 s) (v1 s)) (N.lxor (v2 s) (v3 s)).

Fixpoint to_le_bytes (k : nat) (x : N) : bytes :=
  match k with
  | O => []
  | S k => N.land x 255 :: to_le_bytes k (N.shiftr x 8)
  end.

Definition write_u64 (x : N) : bytes := to_le_bytes 8 x.
Definition write_u32 (x : N) : bytes := to_le_bytes 4 x.
Definition write_length_prefix (n : nat) : bytes := to_le_bytes 8 (N.of_nat n).

(** [Hash for [char]]: the length, then every character as a [u32]. *)
Definition hash_chars (block : rstr) : bytes :=
  write_length_prefix (length block) ++ (block ≫= write_u32).
End DefaultHasher.

(** The value of [DefaultHasher::new().finish()], a published constant of the
    standard library. *)
Example default_hasher_of_nothing : DefaultHasher.finish [] = 15130871412783076140%N.
Proof. vm_compute. reflexivity. Qed.

(** ** The chain

    The chain is built from one operation, the hash of a block after an
    optional predecessor; the theorems below hold for every such operation and
    the program uses the instance of [DefaultHasher]. *)

Class BlockHash := block_hash : option N → rstr → N.

#[export] Instance default_block_hash : BlockHash := λ prev block,
  DefaultHasher.finish
    (match prev with
     | Some prev => DefaultHasher.write_u64 prev
     | None => []
     end ++ DefaultHasher.hash_chars block).

Section chain.
Context {H : BlockHash}.

(** The loop of [chain_hash], [previous] threaded through. *)
Fixpoint chain_loop (previous : option N) (blocks : list rstr) : list N :=
  match blocks with
  | [] => []
  | block :: blocks =>
      let hash := block_hash previous block in
      hash :: chain_loop (Some hash) blocks
  end.

Definition prompt_blocks (prompt : rstr) (block_size : N) : list rstr :=
  chunks (N.to_nat (N.max block_size 1)) prompt.

Definition chain_hash (prompt : rstr) (block_size : N) : list N :=
  chain_loop None (prompt_blocks prompt block_size).

(** The pairs (predecessor, block) that the loop hashes. *)
Fixpoint hash_inputs (previous : option N) (blocks : list rstr) :
    list (option N * rstr) :=
  match blocks with
  | [] => []
  | block :: blocks =>
      (previous, block) :: hash_inputs (Some (block_hash previous block)) blocks
  end.

(** No two different inputs among those of two prompts have the same hash. *)
Definition no_collision (prompt1 prompt2 : rstr) (block_size : N) : Prop :=
  Forall (λ x, Forall (λ y, block_hash x.1 x.2 = block_hash y.1 y.2 → x = y)
                 (hash_inputs None (prompt_blocks prompt2 block_size)))
         (hash_inputs None (prompt_blocks prompt1 block_size)).

#[export] Instance no_collision_dec p1 p2 n : Decision (no_collision p1 p2 n).
Proof. unfold no_collision. apply _. Defined.

Lemma block_size_pos n : 0 < N.to_nat (N.max n 1).
Proof. lia. Qed.
#[local] Hint Resolve block_size_pos : kv.

Lemma length_chain_loop prev blocks : length (chain_loop prev blocks) = length blocks.
Proof. revert prev. induction blocks; intros; simpl; auto. Qed.

Lemma chain_loop_inputs prev blocks :
  chain_loop prev blocks = (λ x, block_hash x.1 x.2) <$> hash_inputs prev blocks.
Proof. revert prev. induction blocks; intros; simpl; f_equal; auto. Qed.

Lemma take_chain_loop k prev blocks :
  take k (chain_loop prev blocks) = chain_loop prev (take k blocks).
Proof. revert k prev. induction blocks; intros [|k] prev; simpl; f_equal; auto. Qed.

Lemma hash_inputs_length prev blocks : length (hash_inputs prev blocks) = length blocks.
Proof. revert prev. induction blocks; intros; simpl; auto. Qed.

Lemma hash_inputs_lookup_S prev blocks i x y :
  hash_inputs prev blocks !! i = Some x →
  hash_inputs prev blocks !! S i = Some y →
  y.1 = Some (block_hash x.1 x.2).
Proof.
  revert prev i. induction blocks as [|b blocks IH]; intros prev i Hx Hy; [done|].
  destruct i as [|i]; simpl in *.
  - simplify_eq/=. destruct blocks; simplify_eq/=; done.
  - by eapply IH.
Qed.

Lemma hash_inputs_lookup_snd prev blocks i x :
  hash_inputs prev blocks !! i = Some x → blocks !! i = Some x.2.
Proof.
  revert prev i. induction blocks as [|b blocks IH]; intros prev [|i] Hx;
    simplify_eq/=; eauto.
Qed.

Lemma hash_inputs_lookup_0 prev blocks x :
  hash_inputs prev blocks !! 0 = Some x → x.1 = prev.
Proof. destruct blocks; intros; by simplify_eq/=. Qed.

(** Equal inputs at two positions force the positions and everything before
    them to be equal. *)
Lemma hash_inputs_agree bs1 bs2 i j x :
  (∀ x y, x ∈ hash_inputs None bs1 → y ∈ hash_inputs None bs2 →
          block_hash x.1 x.2 = block_hash y.1 y.2 → x = y) →
  hash_inputs None bs1 !! i = Some x → hash_inputs None bs2 !! j = Some x →
  i = j ∧ take (S i) bs1 = take (S j) bs2.
Proof.
  intros Hinj. revert j x. induction i as [|i IH]; intros j x Hx Hy.
  - pose proof (hash_inputs_lookup_0 _ _ _ Hx) as Hp.
    destruct j as [|j].
    + split; [done|].
      rewrite !(take_S_r _ 0 x.2) by eauto using hash_inputs_lookup_snd. done.
    + destruct (lookup_lt_is_Some_2 (hash_inputs None bs2) j) as [y' Hy'].
      { apply lookup_lt_Some in Hy. lia. }
      pose proof (hash_inputs_lookup_S _ _ _ _ _ Hy' Hy). congruence.
  - destruct (lookup_lt_is_Some_2 (hash_inputs None bs1) i) as [x' Hx'].
    { apply lookup_lt_Some in Hx. lia. }
    pose proof (hash_inputs_lookup_S _ _ _ _ _ Hx' Hx) as Hp.
    destruct j as [|j].
    + pose proof (hash_inputs_lookup_0 _ _ _ Hy). congruence.
    + destruct (lookup_lt_is_Some_2 (hash_inputs None bs2) j) as [y' Hy'].
      { apply lookup_lt_Some in Hy. lia. }
      pose proof (hash_inputs_lookup_S _ _ _ _ _ Hy' Hy) as Hp'.
      assert (x' = y') as <-.
      { apply Hinj; [by eapply list_elem_of_lookup_2..|congruence]. }
      destruct (IH _ _ Hx' Hy') as [<- Htake]. split; [done|].
      rewrite !(take_S_r _ (S i) x.2) by eauto using hash_inputs_lookup_snd.
      by rewrite Htake.
Qed.
End chain.

Section chain_theorems.
Context {H : BlockHash}.
Implicit Types (p : rstr) (n : N).

Lemma no_collision_inputs p1 p2 n x y :
  no_collision p1 p2 n →
  x ∈ hash_inputs None (prompt_blocks p1 n) →
  y ∈ hash_inputs None (prompt_blocks p2 n) →
  block_hash x.1 x.2 = block_hash y.1 y.2 → x = y.
Proof.
  intros Hc Hx Hy. unfold no_collision in Hc. rewrite Forall_forall in Hc.
  specialize (Hc _ Hx). rewrite Forall_forall in Hc. by apply Hc.
Qed.

Lemma chain_hash_lookup p n i h :
  chain_hash p n !! i = Some h ↔
  ∃ x, hash_inputs None (prompt_blocks p n) !! i = Some x ∧ h = block_hash x.1 x.2.
Proof.
  unfold chain_hash. rewrite chain_loop_inputs, list_lookup_fmap.
  destruct (hash_inputs _ _ !! i) as [x|]; simpl; split.
  - intros [= <-]. eauto.
  - intros (? & [= <-] & ->). done.
  - done.
  - by intros (? & ? & _).
Qed.

Lemma chain_loop_inj p1 p2 n k :
  no_collision p1 p2 n →
  chain_loop None (take k (prompt_blocks p1 n)) =
  chain_loop None (take k (prompt_blocks p2 n)) →
  take k (prompt_blocks p1 n) = take k (prompt_blocks p2 n).
Proof.
  intros Hc He. rewrite <-!take_chain_loop in He.
  apply list_eq. intros i.
  destruct (decide (i < k)) as [Hi|]; [|by rewrite !lookup_take_ge by lia].
  assert (Hl : chain_hash p1 n !! i = chain_hash p2 n !! i).
  { unfold chain_hash.
    rewrite <-(lookup_take_lt (chain_loop _ (prompt_blocks p1 n)) k i) by done.
    rewrite He. by rewrite lookup_take_lt. }
  rewrite !lookup_take_lt by done.
  destruct (chain_hash p1 n !! i) as [h|] eqn:Hh.
  - symmetry in Hl.
    apply chain_hash_lookup in Hh as (x & Hx & ->).
    apply chain_hash_lookup in Hl as (y & Hy & Hxy).
    assert (x = y) as <-.
    { eapply no_collision_inputs; eauto using list_elem_of_lookup_2. }
    by rewrite (hash_inputs_lookup_snd _ _ _ _ Hx), (hash_inputs_lookup_snd _ _ _ _ Hy).
  - symmetry in Hl. unfold chain_hash in *.
    rewrite lookup_ge_None, length_chain_loop in *.
    by rewrite !lookup_ge_None_2.
Qed.

(** A block whose hash occurs in two chains is preceded by the same blocks
    in both, at the same position: a hash identifies the whole prefix. *)
Lemma chain_hash_position p1 p2 n i j h :
  no_collision p1 p2 n →
  chain_hash p1 n !! i = Some h → chain_hash p2 n !! j = Some h →
  i = j ∧ take (S i) (prompt_blocks p1 n) = take (S j) (prompt_blocks p2 n).
Proof.
  intros Hc Hi Hj.
  apply chain_hash_lookup in Hi as (x & Hx & ->).
  apply chain_hash_lookup in Hj as (y & Hy & Hxy).
  assert (x = y) as <-.
  { eapply no_collision_inputs; eauto using list_elem_of_lookup_2. }
  eapply hash_inputs_agree; eauto using no_collision_inputs.
Qed.
End chain_theorems.

(** ** Properties *)

(** C23.  The documented chain invariant of [chain_hash]: as long as no two
    inputs hashed for the two prompts collide, the first [k] hashes of the
    chains are equal exactly when the prompts share their first [k] blocks. *)
Theorem chain_hash_shared_prefix {H : BlockHash} (p1 p2 : rstr) (n : N) (k : nat)
    (Hc : no_collision p1 p2 n) :
  take k (chain_hash p1 n) = take k (chain_hash p2 n) ↔
  take k (prompt_blocks p1 n) = take k (prompt_blocks p2 n).
Proof.
  unfold chain_hash. rewrite !take_chain_loop. split.
  - by apply chain_loop_inj.
  - by intros ->.
Qed.

Theorem chain_hash_shared_prefix_witness :
  no_collision (lit "abcdefghijkl") (lit "abcdefgXijkl") 4 ∧
  (take 1 (chain_hash (lit "abcdefghijkl") 4) = take 1 (chain_hash (lit "abcdefgXijkl") 4) ↔
   take 1 (prompt_blocks (lit "abcdefghijkl") 4) = take 1 (prompt_blocks (lit "abcdefgXijkl") 4)).
Proof.
  assert (Hc : no_collision (lit "abcdefghijkl") (lit "abcdefgXijkl") 4).
  { apply (bool_decide_unpack _). vm_compute. exact I. }
  split; [exact Hc|].
  exact (chain_hash_shared_prefix (lit "abcdefghijkl") (lit "abcdefgXijkl") 4 1 Hc).
Defined.

(** A block hash identifies everything before it: if one hash occurs at
    position [i] of one chain and [j] of another, the positions and all blocks
    up to them are the same, so after the first differing block two chains
    share no hash at all. *)
Theorem chain_hash_identifies_prefix {H : BlockHash} (p1 p2 : rstr) (n : N) (i j : nat) (h : N)
    (Hc : no_collision p1 p2 n)
    (Hi : chain_hash p1 n !! i = Some h) (Hj : chain_hash p2 n !! j = Some h) :
  i = j ∧ take (S i) (prompt_blocks p1 n) = take (S i) (prompt_blocks p2 n).
Proof. by destruct (chain_hash_position p1 p2 n i j h) as [<- ?]. Qed.

Theorem chain_hash_identifies_prefix_witness :
  no_collision (lit "abcdefghijkl") (lit "abcdefghiXkl") 4 ∧
  1 = 1 ∧ take 2 (prompt_blocks (lit "abcdefghijkl") 4) = take 2 (prompt_blocks (lit "abcdefghiXkl") 4).
Proof.
  assert (Hc : no_collision (lit "abcdefghijkl") (lit "abcdefghiXkl") 4).
  { apply (bool_decide_unpack _). vm_compute. exact I. }
  split; [exact Hc|].
  apply (chain_hash_identifies_prefix (lit "abcdefghijkl") (lit "abcdefghiXkl") 4 1 1
           6122305957004846330%N Hc); vm_compute; reflexivity.
Defined.

(** The chain has one hash per started block: its length is
    [ceil(chars / max(block_size, 1))], and the blocks concatenate to the
    prompt. *)
Theorem chain_hash_length {H : BlockHash} (p : rstr) (n : N) :
  length (chain_hash p n) = div_ceil (length p) (N.to_nat (N.max n 1)) ∧
  concat (prompt_blocks p n) = p.
Proof.
  unfold chain_hash, prompt_blocks. rewrite length_chain_loop.
  split; [apply length_chunks|apply concat_chunks]; apply block_size_pos.
Qed.

(** Extending a prompt keeps the hashes of all its complete blocks. *)
Theorem chain_hash_extends {H : BlockHash} (p1 p2 : rstr) (n : N)
    (Hp : p1 `prefix_of` p2) :
  take (length p1 / N.to_nat (N.max n 1)) (chain_hash p1 n) `prefix_of` chain_hash p2 n.
Proof.
  unfold chain_hash. rewrite take_chain_loop. unfold prompt_blocks.
  rewrite (chunks_prefix _ _ p1 p2); [|apply block_size_pos| |done].
  - rewrite <-take_chain_loop. apply prefix_take.
  - rewrite Nat.mul_comm. apply Nat.Div0.mul_div_le.
Qed.

Theorem chain_hash_extends_witness :
  take 2 (chain_hash (lit "once upon a") 4) `prefix_of` chain_hash (lit "once upon a time") 4.
Proof.
  apply (chain_hash_extends (lit "once upon a") (lit "once upon a time") 4).
  exists (lit " time"). reflexivity.
Defined.
