(* ===== verification/Config.v ===== *)
(** * Configuration and errors ([router-core/src/config.rs], [error.rs])

    The data types of the configuration, their textual names, the defaults,
    the validation of [RouterConfig::from_yaml], and the error type with its
    messages.  The YAML parser ([serde_yaml]) is a parameter. *)

From S2P Require Import Prelude Float64.

(** ** Enumerations *)

Inductive Pool := Prefill | Decode | Both.

#[export] Instance Pool_eq_dec : EqDecision Pool.
Proof. solve_decision. Defined.

Inductive RoutingPolicy := RoundRobin | CacheAware | Disaggregated.

#[export] Instance RoutingPolicy_eq_dec : EqDecision RoutingPolicy.
Proof. solve_decision. Defined.

(** [Display for Pool] and [Display for RoutingPolicy]. *)
Definition show_Pool (p : Pool) : rstr :=
  lit match p with Prefill => "prefill" | Decode => "decode" | Both => "both" end.

Definition show_RoutingPolicy (p : RoutingPolicy) : rstr :=
  lit match p with
      | RoundRobin => "round_robin"
      | CacheAware => "cache_aware"
      | Disaggregated => "disaggregated"
      end.

(** ** Errors ([error.rs]) *)

Inductive RouterError :=
  | NoHealthyWorkers (policy : rstr)
  | NoHealthyWorkersInPool (pool policy : rstr)
  | KvTransferFailed (from to : N) (reason : rstr)
  | DisaggregatedRequiresTwoPhase
  | PolicyNotImplemented (policy : rstr)
  | ConfigError (message : rstr).

#[export] Instance RouterError_eq_dec : EqDecision RouterError.
Proof. solve_decision. Defined.

(** The [#[error(...)]] messages ([Display], hence [to_string]). *)
Definition show_RouterError (e : RouterError) : rstr :=
  match e with
  | NoHealthyWorkers policy =>
      lit "no healthy workers available (policy: " ++ policy ++ lit ")"
  | NoHealthyWorkersInPool pool policy =>
      lit "no healthy workers in pool `" ++ pool ++ lit "` (policy: " ++ policy ++ lit ")"
  | KvTransferFailed from to reason =>
      lit "KV transfer from worker " ++ show_N from ++ lit " to worker " ++ show_N to
      ++ lit " failed: " ++ reason
  | DisaggregatedRequiresTwoPhase =>
      lit "policy `disaggregated` requires two-phase routing via `select_in_pool`; "
      ++ lit "`select_for_chat` cannot serve disaggregated requests"
  | PolicyNotImplemented policy =>
      lit "routing policy `" ++ policy ++ lit "` is not implemented yet"
  | ConfigError message => lit "invalid configuration: " ++ message
  end.

(** ** The configuration record ([config.rs]) *)

Record WorkerConfig := { wc_url : rstr; wc_pool : Pool }.

Record DiscoveryConfig := {
  dc_enabled : bool;
  dc_service : rstr;
  dc_namespace : option rstr;
}.

Definition default_discovery_service : rstr := lit "kvrouter-workers".

Definition DiscoveryConfig_default : DiscoveryConfig := {|
  dc_enabled := false;
  dc_service := default_discovery_service;
  dc_namespace := None;
|}.

Record RouterConfig := {
  cfg_workers : list WorkerConfig;
  cfg_routing_policy : RoutingPolicy;
  cfg_health_check_interval_secs : N;
  cfg_prompt_block_chars : N;
  cfg_cache_weight : f64;
  cfg_load_weight : f64;
  cfg_prefix_index_ttl_secs : N;
  cfg_prefix_index_max_entries : N;
  cfg_kv_transfer_cost_ms : N;
  cfg_metrics_scrape : bool;
  cfg_engine_metrics_interval_secs : N;
  cfg_engine_cache_hit_metric : rstr;
  cfg_discovery : DiscoveryConfig;
}.

Definition default_health_check_interval_secs : N := 5.
Definition default_prompt_block_chars : N := 512.
Definition default_cache_weight : f64 := f64_1.
Definition default_load_weight : f64 := f64_half.
Definition default_prefix_index_ttl_secs : N := 300.
Definition default_prefix_index_max_entries : N := 100000.
Definition default_kv_transfer_cost_ms : N := 20.
Definition default_engine_metrics_interval_secs : N := 15.
Definition default_engine_cache_hit_metric : rstr := lit "vllm:gpu_prefix_cache_hit_rate".

(** The [discovery] section before defaulting. *)
Record DiscoveryConfigYaml := {
  yd_enabled : option bool;
  yd_service : option rstr;
  yd_namespace : option rstr;
}.

Definition fill_discovery (y : DiscoveryConfigYaml) : DiscoveryConfig := {|
  dc_enabled := default false (yd_enabled y);
  dc_service := default default_discovery_service (yd_service y);
  dc_namespace := yd_namespace y;
|}.

(** The fields of a YAML document before defaulting: [None] for a field that
    the document leaves out and that has a [#[serde(default)]]. *)
Record RouterConfigYaml := {
  y_workers : list WorkerConfig;
  y_routing_policy : RoutingPolicy;
  y_health_check_interval_secs : option N;
  y_prompt_block_chars : option N;
  y_cache_weight : option f64;
  y_load_weight : option f64;
  y_prefix_index_ttl_secs : option N;
  y_prefix_index_max_entries : option N;
  y_kv_transfer_cost_ms : option N;
  y_metrics_scrape : option bool;
  y_engine_metrics_interval_secs : option N;
  y_engine_cache_hit_metric : option rstr;
  y_discovery : option DiscoveryConfigYaml;
}.

(** What the [#[serde(default = ...)]] attributes prescribe. *)
Definition fill_defaults (y : RouterConfigYaml) : RouterConfig := {|
  cfg_workers := y_workers y;
  cfg_routing_policy := y_routing_policy y;
  cfg_health_check_interval_secs :=
    default default_health_check_interval_secs (y_health_check_interval_secs y);
  cfg_prompt_block_chars := default default_prompt_block_chars (y_prompt_block_chars y);
  cfg_cache_weight := default default_cache_weight (y_cache_weight y);
  cfg_load_weight := default default_load_weight (y_load_weight y);
  cfg_prefix_index_ttl_secs :=
    default default_prefix_index_ttl_secs (y_prefix_index_ttl_secs y);
  cfg_prefix_index_max_entries :=
    default default_prefix_index_max_entries (y_prefix_index_max_entries y);
  cfg_kv_transfer_cost_ms := default default_kv_transfer_cost_ms (y_kv_transfer_cost_ms y);
  cfg_metrics_scrape := default false (y_metrics_scrape y);
  cfg_engine_metrics_interval_secs :=
    default default_engine_metrics_interval_secs (y_engine_metrics_interval_secs y);
  cfg_engine_cache_hit_metric :=
    default default_engine_cache_hit_metric (y_engine_cache_hit_metric y);
  cfg_discovery := default DiscoveryConfig_default (fill_discovery <$> y_discovery y);
|}.

(** ** Loading

    [serde_yaml_parse] stands for [serde_yaml::from_str] up to defaulting (its
    error is the parser's message); [read_to_string] for the file system. *)

Section loading.
Context (serde_yaml_parse : rstr → result rstr RouterConfigYaml).
Context (read_to_string : rstr → result rstr rstr).

Definition from_yaml (raw : rstr) : result RouterError RouterConfig :=
  config ← map_err ConfigError (fill_defaults <$> serde_yaml_parse raw);
  if decide (cfg_workers config = [] ∧ dc_enabled (cfg_discovery config) = false)
  then Err (ConfigError
    (lit "`workers` must contain at least one entry, or enable `discovery` "
     ++ lit "to populate workers from Kubernetes"))
  else Ok config.

Definition load (path : rstr) : result RouterError RouterConfig :=
  raw ← map_err (λ e, ConfigError (lit "failed to read " ++ path ++ lit ": " ++ e))
                (read_to_string path);
  from_yaml raw.
End loading.

(** ** Properties *)

(** [load]/[from_yaml] accept exactly the documents that parse and name
    a worker or enable discovery; the accepted configuration is the document
    with the documented defaults, and every rejection is a [Config] error. *)
Theorem load_spec parse read path :
  match load parse read path with
  | Ok config =>
      ∃ raw y, read path = Ok raw ∧ parse raw = Ok y ∧ config = fill_defaults y ∧
        (cfg_workers config ≠ [] ∨ dc_enabled (cfg_discovery config) = true)
  | Err e =>
      (∃ message, e = ConfigError message) ∧
      ∀ raw y, read path = Ok raw → parse raw = Ok y →
        y_workers y = [] ∧ (d ← y_discovery y; yd_enabled d) ≠ Some true
  end.
Proof.
  unfold load, from_yaml, mbind, result_bind, fmap, result_fmap, map_err.
  destruct (read path) as [raw|e]; [|split; [by eexists|done]].
  destruct (parse raw) as [y|e] eqn:Hy;
    [|split; [by eexists|]; intros ? ? [= <-] Hy'; congruence].
  case_decide as Hd.
  - split; [by eauto|]. intros ? ? [= <-] Hy'. rewrite Hy in Hy'. simplify_eq/=.
    destruct Hd as [-> Hd]. split; [done|]. by destruct (y_discovery _) as [[[[]|] ? ?]|].
  - exists raw, y. split_and!; try done.
    apply not_and_l in Hd as [?|?%not_false_is_true]; auto.
Qed.
