(* ===== verification/Request.v ===== *)
(** * Chat requests and the canonical prompt ([router-core/src/request.rs]) *)

From S2P Require Import Prelude Float64 Hashing.

Record ChatMessage := { msg_role : rstr; msg_content : rstr }.

#[export] Instance ChatMessage_eq_dec : EqDecision ChatMessage.
Proof. solve_decision. Defined.

(** [Value] is the type of JSON values kept in the flattened [extra] map; the
    routing core never looks at them. *)
Record ChatCompletionRequest {Value : Type} := {
  req_model : rstr;
  req_messages : list ChatMessage;
  req_max_tokens : option N;
  req_temperature : option f64;
  req_stream : bool;
  req_extra : gmap rstr Value;
}.
Arguments ChatCompletionRequest : clear implicits.

Definition newline_char : N := 10.
Definition newline : rstr := [newline_char].
Definition colon : N := 58.

(** The loop of [canonical_prompt]: [prompt] is the string built so far and
    [index] the position of the next message. *)
Fixpoint canonical_loop (index : nat) (messages : list ChatMessage) (prompt : rstr) : rstr :=
  match messages with
  | [] => prompt
  | message :: messages =>
      let prompt := if decide (0 < index) then prompt ++ newline else prompt in
      canonical_loop (S index) messages
        (prompt ++ msg_role message ++ lit ": " ++ msg_content message)
  end.

Definition canonical_prompt {Value} (req : ChatCompletionRequest Value) : rstr :=
  canonical_loop 0 (req_messages req) [].

(** ** Specification: joined lines, and a reader for them *)

Definition prompt_line (m : ChatMessage) : rstr :=
  msg_role m ++ lit ": " ++ msg_content m.

Fixpoint join_lines (ls : list rstr) : rstr :=
  match ls with
  | [] => []
  | [l] => l
  | l :: ls => l ++ newline ++ join_lines ls
  end.

Fixpoint split_on (c : N) (s : rstr) : list rstr :=
  match s with
  | [] => [[]]
  | x :: s =>
      if decide (x = c) then [] :: split_on c s
      else match split_on c s with
           | [] => [[x]]
           | l :: ls => (x :: l) :: ls
           end
  end.

(** The role is what precedes the first colon; one space follows the colon. *)
Fixpoint parse_line (s : rstr) : ChatMessage :=
  match s with
  | [] => {| msg_role := []; msg_content := [] |}
  | x :: s =>
      if decide (x = colon) then {| msg_role := []; msg_content := drop 1 s |}
      else let m := parse_line s in
           {| msg_role := x :: msg_role m; msg_content := msg_content m |}
  end.

Definition parse_prompt (s : rstr) : list ChatMessage :=
  if decide (s = []) then [] else parse_line <$> split_on newline_char s.

(** A message whose line can be read back. *)
Definition plain_message (m : ChatMessage) : Prop :=
  (colon ∉ msg_role m) ∧ (newline_char ∉ msg_role m) ∧ (newline_char ∉ msg_content m).

#[export] Instance plain_message_dec m : Decision (plain_message m).
Proof. unfold plain_message. apply _. Defined.

Section canonical.
Lemma canonical_loop_acc i ms prompt :
  0 < i →
  canonical_loop i ms prompt = prompt ++ (ms ≫= λ m, newline ++ prompt_line m).
Proof.
  revert i prompt. induction ms as [|m ms IH]; intros i prompt Hi.
  - by rewrite app_nil_r.
  - cbn [canonical_loop]. rewrite IH by lia. rewrite decide_True by done.
    rewrite bind_cons. unfold prompt_line. by rewrite <-!(assoc_L (++)).
Qed.

Lemma join_lines_bind l ls :
  join_lines (l :: ls) = l ++ (ls ≫= λ l, newline ++ l).
Proof.
  revert l. induction ls as [|l' ls IH]; intros l; [by rewrite app_nil_r|].
  change (join_lines (l :: l' :: ls)) with (l ++ newline ++ join_lines (l' :: ls)).
  rewrite IH, bind_cons. by rewrite <-!(assoc_L (++)).
Qed.

Lemma canonical_loop_join ms :
  canonical_loop 0 ms [] = join_lines (prompt_line <$> ms).
Proof.
  destruct ms as [|m ms]; [done|].
  rewrite fmap_cons, join_lines_bind, list_fmap_bind.
  cbn [canonical_loop]. rewrite canonical_loop_acc by lia.
  rewrite decide_False by lia. done.
Qed.

Lemma split_on_app c a b : c ∉ a → split_on c (a ++ c :: b) = a :: split_on c b.
Proof.
  induction a as [|x a IH]; intros Hc; simpl.
  - by rewrite decide_True.
  - apply not_elem_of_cons in Hc as [Hx Ha].
    by rewrite decide_False, IH by done.
Qed.

Lemma split_on_fresh c a : c ∉ a → split_on c a = [a].
Proof.
  induction a as [|x a IH]; intros Hc; simpl; [done|].
  apply not_elem_of_cons in Hc as [Hx Ha].
  by rewrite decide_False, IH by done.
Qed.

Lemma parse_prompt_line m : colon ∉ msg_role m → parse_line (prompt_line m) = m.
Proof.
  destruct m as [r c]. unfold prompt_line. simpl. induction r as [|x r IH]; intros Hr.
  - reflexivity.
  - apply not_elem_of_cons in Hr as [Hx Hr]. simpl.
    rewrite decide_False by done. simpl in IH. by rewrite IH.
Qed.

Lemma plain_line_no_newline m : plain_message m → newline_char ∉ prompt_line m.
Proof.
  intros (_ & Hr & Hc). unfold prompt_line. rewrite !not_elem_of_app.
  split_and!; [done| |done]. change (lit ": ") with [58%N; 32%N].
  rewrite !not_elem_of_cons. split_and!; [done..|apply not_elem_of_nil].
Qed.

Lemma split_join_lines m ms :
  Forall plain_message (m :: ms) →
  split_on newline_char (join_lines (prompt_line <$> (m :: ms))) = prompt_line <$> (m :: ms).
Proof.
  revert m. induction ms as [|m' ms IH]; intros m [Hm Hms]%Forall_cons.
  - by apply split_on_fresh, plain_line_no_newline.
  - rewrite !fmap_cons. cbn [join_lines].
    change (newline ++ ?l) with (newline_char :: l).
    rewrite split_on_app by by apply plain_line_no_newline.
    f_equal. by apply IH.
Qed.

Lemma prompt_line_not_nil m : prompt_line m ≠ [].
Proof. unfold prompt_line. by destruct (msg_role m). Qed.

Lemma join_lines_prefix ls1 ls2 :
  ls1 ≠ [] → join_lines ls1 `prefix_of` join_lines (ls1 ++ ls2).
Proof.
  destruct ls1 as [|l ls1]; [done|]. intros _. simpl app.
  rewrite !join_lines_bind, bind_app, (assoc_L (++)). by eexists.
Qed.
End canonical.

(** ** Properties *)

(** C40.  [canonical_prompt] can be read back: when no role contains a colon or
    a newline and no content a newline, the messages are recovered from the
    prompt, so such requests have the same prompt exactly when they have the
    same messages. *)
Theorem canonical_prompt_roundtrip {V} (req : ChatCompletionRequest V)
    (Hp : Forall plain_message (req_messages req)) :
  parse_prompt (canonical_prompt req) = req_messages req.
Proof.
  unfold canonical_prompt. rewrite canonical_loop_join.
  destruct (req_messages req) as [|m ms]; [done|]. unfold parse_prompt.
  rewrite split_join_lines by done. rewrite decide_False.
  - rewrite <-list_fmap_compose. rewrite <-(list_fmap_id (m :: ms)) at 2.
    apply list_fmap_ext. intros i x Hx. simpl.
    rewrite Forall_lookup in Hp. apply parse_prompt_line. by apply (Hp i).
  - rewrite fmap_cons, join_lines_bind. intros [Hl _]%app_eq_nil.
    by apply prompt_line_not_nil in Hl.
Qed.

Definition chat_request (ms : list ChatMessage) : ChatCompletionRequest unit := {|
  req_model := lit "m"; req_messages := ms; req_max_tokens := None;
  req_temperature := None; req_stream := false; req_extra := ∅ |}.

Theorem canonical_prompt_roundtrip_witness :
  parse_prompt (canonical_prompt (chat_request
    [{| msg_role := lit "user"; msg_content := lit "first: a" |};
     {| msg_role := lit "assistant"; msg_content := lit "second" |}])) =
  [{| msg_role := lit "user"; msg_content := lit "first: a" |};
   {| msg_role := lit "assistant"; msg_content := lit "second" |}].
Proof.
  apply (canonical_prompt_roundtrip (chat_request _)).
  apply (bool_decide_unpack _). vm_compute. exact I.
Defined.

(** Nothing escapes a newline in a message: one user message can have the
    very prompt of a two-message conversation that contains an assistant turn
    (so the requests share every cache block although they differ). *)
Theorem canonical_prompt_not_injective :
  ∃ req1 req2 : ChatCompletionRequest unit,
    req_messages req1 ≠ req_messages req2 ∧
    length (req_messages req1) ≠ length (req_messages req2) ∧
    canonical_prompt req1 = canonical_prompt req2.
Proof.
  exists (chat_request [{| msg_role := lit "user";
                           msg_content := lit "hi" ++ newline ++ lit "assistant: ok" |}]),
         (chat_request [{| msg_role := lit "user"; msg_content := lit "hi" |};
                        {| msg_role := lit "assistant"; msg_content := lit "ok" |}]).
  split_and!; done.
Qed.

(** Multi-turn affinity: a request that appends messages to a non-empty
    conversation keeps the hash of every complete block of the shorter
    conversation's prompt. *)
Theorem canonical_prompt_turns_share_chain {V} {H : BlockHash}
    (req1 req2 : ChatCompletionRequest V) (n : N)
    (Hne : req_messages req1 ≠ [])
    (Hpre : req_messages req1 `prefix_of` req_messages req2) :
  take (length (canonical_prompt req1) / N.to_nat (N.max n 1))
       (chain_hash (canonical_prompt req1) n)
  `prefix_of` chain_hash (canonical_prompt req2) n.
Proof.
  unfold canonical_prompt. rewrite !canonical_loop_join.
  destruct Hpre as [ms ->]. rewrite fmap_app.
  unfold chain_hash. rewrite take_chain_loop. unfold prompt_blocks.
  erewrite chunks_prefix; [| | |apply join_lines_prefix].
  - rewrite <-take_chain_loop. apply prefix_take.
  - apply block_size_pos.
  - rewrite Nat.mul_comm. apply Nat.Div0.mul_div_le.
  - by destruct (req_messages req1).
Qed.

Theorem canonical_prompt_turns_share_chain_witness :
  take 2 (chain_hash (lit "user: hello") 4) `prefix_of` chain_hash (lit "user: hello
user: again") 4.
Proof.
  apply (canonical_prompt_turns_share_chain
    (chat_request [{| msg_role := lit "user"; msg_content := lit "hello" |}])
    (chat_request [{| msg_role := lit "user"; msg_content := lit "hello" |};
                   {| msg_role := lit "user"; msg_content := lit "again" |}]) 4).
  - discriminate.
  - eexists. reflexivity.
Defined.
