(* ===== verification/Worker.v ===== *)
(** * Worker registry ([router-core/src/worker.rs])

    The health registry: a map from worker ids to worker states behind one
    lock, and the id allocator. *)

From S2P Require Import Prelude Config.

(** [WorkerId] is [u64]. *)
Abbreviation WorkerId := N.

Record Worker := { w_id : WorkerId; w_url : rstr; w_pool : Pool }.

#[export] Instance Worker_eq_dec : EqDecision Worker.
Proof. solve_decision. Defined.

Record WorkerState := { ws_worker : Worker; ws_healthy : bool }.

#[export] Instance WorkerState_eq_dec : EqDecision WorkerState.
Proof. solve_decision. Defined.

Module WorkerRegistry.

Record t := { workers : gmap WorkerId WorkerState; next_id : N }.

(** The entry of the [index]-th configured worker. *)
Definition config_entry (index : nat) (config : WorkerConfig) : WorkerId * WorkerState :=
  let id := N.of_nat index in
  (id, {| ws_worker := {| w_id := id; w_url := wc_url config; w_pool := wc_pool config |};
          ws_healthy := false |}).

Definition from_config (configs : list WorkerConfig) : t := {|
  workers := list_to_map (imap config_entry configs);
  next_id := N.of_nat (length configs);
|}.

Definition register_worker (url : rstr) (pool : Pool) (r : t) : WorkerId * t :=
  let id := next_id r in
  let worker := {| w_id := id; w_url := url; w_pool := pool |} in
  (id, {| workers := <[id := {| ws_worker := worker; ws_healthy := false |}]> (workers r);
          next_id := fetch_add (next_id r) 1 |}).

Definition remove_worker (id : WorkerId) (r : t) : option Worker * t :=
  (ws_worker <$> workers r !! id,
   {| workers := delete id (workers r); next_id := next_id r |}).

Definition set_healthy (id : WorkerId) (healthy : bool) (r : t) : bool * t :=
  match workers r !! id with
  | Some state =>
      (negb (Bool.eqb (ws_healthy state) healthy),
       {| workers := <[id := {| ws_worker := ws_worker state; ws_healthy := healthy |}]>
                       (workers r);
          next_id := next_id r |})
  | None => (false, r)
  end.

Definition get (id : WorkerId) (r : t) : option Worker := ws_worker <$> workers r !! id.

Definition is_healthy (id : WorkerId) (r : t) : bool :=
  match workers r !! id with Some state => ws_healthy state | None => false end.

Section iteration.
Context {HM : HashMapOrder}.

(** [HashMap::values]. *)
Definition values (r : t) : list WorkerState := (hm_iter (workers r)).*2.

Definition all_workers (r : t) : list Worker :=
  sort_by_key w_id (ws_worker <$> values r).

Definition healthy_workers (r : t) : list Worker :=
  sort_by_key w_id (ws_worker <$> filter (λ s, ws_healthy s = true) (values r)).

Definition healthy_count (r : t) : nat :=
  length (filter (λ s, ws_healthy s = true) (values r)).

Definition any_healthy (r : t) : bool := existsb ws_healthy (values r).
End iteration.

(** ** Invariant: states are filed under their own id, below the allocator. *)

Record wf (r : t) : Prop := {
  wf_id id s : workers r !! id = Some s → w_id (ws_worker s) = id;
  wf_bound id s : workers r !! id = Some s → (id < next_id r)%N;
  wf_next : (next_id r < u64_modulus)%N;
}.

(** ** Operations as data, and sequences of them *)

Inductive op :=
  | Register (url : rstr) (pool : Pool)
  | Remove (id : WorkerId)
  | SetHealthy (id : WorkerId) (healthy : bool).

Definition apply_op (r : t) (o : op) : t :=
  match o with
  | Register url pool => (register_worker url pool r).2
  | Remove id => (remove_worker id r).2
  | SetHealthy id healthy => (set_healthy id healthy r).2
  end.

Definition run (r : t) (ops : list op) : t := foldl apply_op r ops.

(** ** Lookups after each operation *)

Section lookups.
Implicit Types (r : t) (id : WorkerId).

Lemma lookup_from_config configs id :
  workers (from_config configs) !! id =
  (λ c, {| ws_worker := {| w_id := id; w_url := wc_url c; w_pool := wc_pool c |};
           ws_healthy := false |}) <$> configs !! N.to_nat id.
Proof.
  apply option_eq. intros s. simpl. rewrite <-elem_of_list_to_map.
  - rewrite list_elem_of_lookup. setoid_rewrite list_lookup_imap_Some. split.
    + intros (i & c & Hc & He). unfold config_entry in He. simplify_eq.
      by rewrite Nat2N.id, Hc.
    + destruct (configs !! N.to_nat id) as [c|] eqn:Hc; [|done]. intros [= <-].
      exists (N.to_nat id), c. split; [done|]. unfold config_entry.
      by rewrite N2Nat.id.
  - rewrite fmap_imap. apply NoDup_alt. intros i j x.
    rewrite !list_lookup_imap_Some. unfold config_entry. simpl.
    intros (? & _ & ->) (? & _ & ?). lia.
Qed.

Lemma lookup_register url pool r id :
  workers (register_worker url pool r).2 !! id =
  if decide (id = next_id r)
  then Some {| ws_worker := {| w_id := id; w_url := url; w_pool := pool |};
               ws_healthy := false |}
  else workers r !! id.
Proof. simpl. rewrite lookup_insert. by kv_cases. Qed.

Lemma lookup_remove id' r id :
  workers (remove_worker id' r).2 !! id =
  if decide (id = id') then None else workers r !! id.
Proof. simpl. rewrite lookup_delete. by kv_cases. Qed.

Lemma lookup_set_healthy id' h r id :
  workers (set_healthy id' h r).2 !! id =
  if decide (id = id')
  then (λ s, {| ws_worker := ws_worker s; ws_healthy := h |}) <$> workers r !! id
  else workers r !! id.
Proof.
  unfold set_healthy. destruct (workers r !! id') eqn:Hl; simpl.
  - rewrite lookup_insert. kv_cases; by rewrite ?Hl.
  - kv_cases; by rewrite ?Hl.
Qed.

Lemma next_id_set_healthy id h r : next_id (set_healthy id h r).2 = next_id r.
Proof. unfold set_healthy. by case_match. Qed.

Lemma next_id_apply_op r o :
  (next_id r + 1 < u64_modulus)%N →
  (next_id r ≤ next_id (apply_op r o) ≤ next_id r + 1)%N.
Proof.
  intros Hn. destruct o; simpl; [|lia|rewrite next_id_set_healthy; lia].
  unfold fetch_add. rewrite wrap64_small; lia.
Qed.

Lemma wf_apply_op r o :
  wf r → (next_id r + 1 < u64_modulus)%N → wf (apply_op r o).
Proof.
  intros [Hid Hb Hn] Hlt. pose proof (next_id_apply_op r o Hlt) as [Hle1 Hle2].
  split; [intros id s Hl|intros id s Hl|lia].
  - destruct o; cbn [apply_op] in Hl;
      rewrite ?lookup_register, ?lookup_remove, ?lookup_set_healthy in Hl;
      kv_cases; try by eauto.
    apply fmap_Some in Hl as (s' & Hs' & ->). by apply Hid in Hs'.
  - assert (id < next_id r ∨ ∃ url pool, o = Register url pool ∧ id = next_id r)%N
      as [?|(url & pool & -> & ->)]; [|lia|].
    { destruct o; cbn [apply_op] in Hl;
        rewrite ?lookup_register, ?lookup_remove, ?lookup_set_healthy in Hl;
        kv_cases; eauto.
      apply fmap_Some in Hl as (s' & Hs' & ->). by apply Hb in Hs'; left. }
    simpl. unfold fetch_add. rewrite wrap64_small; lia.
Qed.
End lookups.

(** ** Runs *)

Lemma wf_from_config configs :
  (N.of_nat (length configs) < u64_modulus)%N → wf (from_config configs).
Proof.
  intros Hn. split; [| |done]; intros id s; rewrite lookup_from_config;
    intros (c & Hc & ->)%fmap_Some; [done|].
  apply lookup_lt_Some in Hc. simpl. lia.
Qed.

Lemma wf_run ops r :
  wf r → (next_id r + N.of_nat (length ops) < u64_modulus)%N →
  wf (run r ops) ∧ (next_id r ≤ next_id (run r ops) ≤ next_id r + N.of_nat (length ops))%N.
Proof.
  revert r. induction ops as [|o ops IH]; intros r Hr Hn; simpl in *; [split; [done|lia]|].
  destruct (next_id_apply_op r o) as [H1 H2]; [lia|].
  destruct (IH (apply_op r o)) as [? [? ?]]; [by apply wf_apply_op; [|lia]|lia|].
  split; [done|lia].
Qed.

(** ** Snapshots *)

Section snapshots.
Context {HM : HashMapOrder}.
Implicit Types (r : t) (w : Worker).

Lemma elem_of_values r s : s ∈ values r ↔ ∃ id, workers r !! id = Some s.
Proof.
  unfold values. rewrite list_elem_of_fmap. split.
  - intros ([id s'] & -> & Hin). apply elem_of_hm_iter in Hin. by exists id.
  - intros [id Hid]. exists (id, s). by rewrite elem_of_hm_iter.
Qed.

Lemma elem_of_all_workers r w :
  w ∈ all_workers r ↔ ∃ id s, workers r !! id = Some s ∧ ws_worker s = w.
Proof.
  unfold all_workers. rewrite sort_by_key_perm, list_elem_of_fmap.
  setoid_rewrite elem_of_values. naive_solver.
Qed.

Lemma elem_of_healthy_workers r w :
  w ∈ healthy_workers r ↔
  ∃ id s, workers r !! id = Some s ∧ ws_healthy s = true ∧ ws_worker s = w.
Proof.
  unfold healthy_workers. rewrite sort_by_key_perm, list_elem_of_fmap.
  setoid_rewrite list_elem_of_filter. setoid_rewrite elem_of_values. naive_solver.
Qed.

Lemma healthy_workers_registered r w : w ∈ healthy_workers r → w ∈ all_workers r.
Proof. rewrite elem_of_healthy_workers, elem_of_all_workers. naive_solver. Qed.

Lemma elem_of_healthy_workers_wf r w :
  wf r → w ∈ healthy_workers r ↔ workers r !! w_id w = Some {| ws_worker := w; ws_healthy := true |}.
Proof.
  intros Hr. rewrite elem_of_healthy_workers. split.
  - intros (id & [w' h] & Hl & ? & ?). simpl in *. subst.
    pose proof (wf_id _ Hr _ _ Hl) as He. simpl in He. by rewrite He.
  - intros Hl. by eexists _, _.
Qed.

Lemma is_healthy_spec r id :
  is_healthy id r = true ↔ ∃ s, workers r !! id = Some s ∧ ws_healthy s = true.
Proof. unfold is_healthy. destruct (workers r !! id); naive_solver. Qed.

Lemma fmap_values_ids r :
  wf r → w_id <$> (ws_worker <$> values r) = (hm_iter (workers r)).*1.
Proof.
  intros Hr. unfold values. rewrite <-!list_fmap_compose.
  apply list_fmap_ext. intros i [id s] Hi. simpl.
  apply list_elem_of_lookup_2, elem_of_hm_iter in Hi. by apply Hr.
Qed.

Lemma NoDup_worker_ids r : wf r → NoDup (w_id <$> (ws_worker <$> values r)).
Proof. intros Hr. rewrite fmap_values_ids by done. apply NoDup_hm_iter_fst. Qed.

Lemma NoDup_healthy_ids_unsorted r :
  wf r → NoDup (w_id <$> (ws_worker <$> filter (λ s, ws_healthy s = true) (values r))).
Proof.
  intros Hr. eapply sublist_NoDup; [by apply NoDup_worker_ids|].
  do 2 apply fmap_sublist. apply sublist_filter.
Qed.

Lemma NoDup_healthy_ids r : wf r → NoDup (w_id <$> healthy_workers r).
Proof.
  intros Hr. unfold healthy_workers. rewrite sort_by_key_perm.
  by apply NoDup_healthy_ids_unsorted.
Qed.

Lemma healthy_workers_order (HM' : HashMapOrder) r :
  wf r → @healthy_workers HM' r = @healthy_workers HM r.
Proof.
  intros Hr. symmetry. apply sort_by_key_unique; [by apply NoDup_healthy_ids_unsorted|].
  unfold values. by rewrite !hm_iter_perm.
Qed.

Lemma all_workers_order (HM' : HashMapOrder) r :
  wf r → @all_workers HM' r = @all_workers HM r.
Proof.
  intros Hr. symmetry. apply sort_by_key_unique; [by apply NoDup_worker_ids|].
  unfold values. by rewrite !hm_iter_perm.
Qed.

Lemma healthy_count_length r : healthy_count r = length (healthy_workers r).
Proof.
  unfold healthy_count, healthy_workers. rewrite sort_by_key_perm.
  by rewrite length_fmap.
Qed.

(** A new registry: every configured worker, none of them healthy. *)
Lemma get_from_config configs id :
  get id (from_config configs) =
  (λ c, {| w_id := id; w_url := wc_url c; w_pool := wc_pool c |}) <$> configs !! N.to_nat id.
Proof. unfold get. rewrite lookup_from_config. by destruct (configs !! _). Qed.

Lemma healthy_from_config configs : healthy_workers (from_config configs) = [].
Proof.
  destruct (healthy_workers _) as [|w ws] eqn:He; [done|].
  assert (w ∈ healthy_workers (from_config configs)) as Hin by (rewrite He; by left).
  apply elem_of_healthy_workers in Hin as (id & s & Hl & Hh & _).
  rewrite lookup_from_config in Hl. by apply fmap_Some in Hl as (c & _ & ->).
Qed.

Lemma any_healthy_spec r : any_healthy r = true ↔ healthy_workers r ≠ [].
Proof.
  unfold any_healthy. rewrite existsb_exists. split.
  - intros (s & Hs & Hh). apply list_elem_of_In, elem_of_values in Hs as [id Hid].
    apply (elem_of_not_nil (ws_worker s)), elem_of_healthy_workers. eauto.
  - destruct (healthy_workers r) as [|w ws] eqn:E; [done|]. intros _.
    assert (w ∈ healthy_workers r) as Hw by (rewrite E; left).
    apply elem_of_healthy_workers in Hw as (id & s & Hid & Hh & _).
    exists s. split; [|done]. apply list_elem_of_In, elem_of_values. eauto.
Qed.
End snapshots.
End WorkerRegistry.

(** ** Properties *)

(** [healthy_workers] and [all_workers] are deterministic snapshots: for a
    well-formed registry they list exactly the (healthy) registered workers,
    in strictly increasing id order, whatever order the hash map iterates in;
    [healthy_count] and [any_healthy] agree with the snapshot. *)
Theorem registry_snapshots {HM : HashMapOrder} (r : WorkerRegistry.t)
    (Hr : WorkerRegistry.wf r) :
  (∀ w, w ∈ WorkerRegistry.all_workers r ↔
        ∃ h, WorkerRegistry.workers r !! w_id w = Some {| ws_worker := w; ws_healthy := h |}) ∧
  (∀ w, w ∈ WorkerRegistry.healthy_workers r ↔
        WorkerRegistry.get (w_id w) r = Some w ∧ WorkerRegistry.is_healthy (w_id w) r = true) ∧
  StronglySorted N.lt (w_id <$> WorkerRegistry.healthy_workers r) ∧
  StronglySorted N.lt (w_id <$> WorkerRegistry.all_workers r) ∧
  (∀ HM' : HashMapOrder,
     @WorkerRegistry.healthy_workers HM' r = @WorkerRegistry.healthy_workers HM r ∧
     @WorkerRegistry.all_workers HM' r = @WorkerRegistry.all_workers HM r) ∧
  WorkerRegistry.healthy_count r = length (WorkerRegistry.healthy_workers r) ∧
  (WorkerRegistry.any_healthy r = true ↔ WorkerRegistry.healthy_workers r ≠ []).
Proof.
  split_and!.
  - intros w. rewrite WorkerRegistry.elem_of_all_workers. split.
    + intros (id & [w' h] & Hl & <-). exists h.
      pose proof (WorkerRegistry.wf_id _ Hr _ _ Hl) as He. simpl in *. by rewrite He.
    + intros [h Hl]. by eexists _, _.
  - intros w. rewrite WorkerRegistry.elem_of_healthy_workers_wf by done.
    unfold WorkerRegistry.get, WorkerRegistry.is_healthy.
    destruct (WorkerRegistry.workers r !! w_id w) as [[w' h]|]; simpl; naive_solver.
  - apply sort_by_key_strict. by apply WorkerRegistry.NoDup_healthy_ids_unsorted.
  - apply sort_by_key_strict. by apply WorkerRegistry.NoDup_worker_ids.
  - intros HM'. split.
    + by apply WorkerRegistry.healthy_workers_order.
    + by apply WorkerRegistry.all_workers_order.
  - apply WorkerRegistry.healthy_count_length.
  - apply WorkerRegistry.any_healthy_spec.
Qed.

Definition two_workers : list WorkerConfig :=
  [{| wc_url := lit "http://a"; wc_pool := Both |};
   {| wc_url := lit "http://b"; wc_pool := Both |}].

Definition two_workers_b_up : WorkerRegistry.t :=
  (WorkerRegistry.set_healthy 1 true (WorkerRegistry.from_config two_workers)).2.

Lemma two_workers_b_up_wf : WorkerRegistry.wf two_workers_b_up.
Proof.
  apply (WorkerRegistry.wf_apply_op _ (WorkerRegistry.SetHealthy 1 true)).
  - by apply WorkerRegistry.wf_from_config.
  - done.
Qed.

Theorem registry_snapshots_witness :
  @WorkerRegistry.healthy_workers hm_canonical two_workers_b_up =
    [{| w_id := 1; w_url := lit "http://b"; w_pool := Both |}] ∧
  @WorkerRegistry.healthy_count hm_canonical two_workers_b_up =
    length (@WorkerRegistry.healthy_workers hm_canonical two_workers_b_up).
Proof.
  split; [by vm_compute|].
  exact (proj1 (proj2 (proj2 (proj2 (proj2 (proj2
    (@registry_snapshots hm_canonical two_workers_b_up two_workers_b_up_wf))))))).
Defined.

(** Worker ids are never reused: along any sequence of registry
    operations that does not exhaust the 64-bit allocator, the id returned by
    [register_worker] differs from every id that was registered at any earlier
    point, removed workers included, and the well-formedness of the registry
    is preserved. *)
Theorem register_worker_fresh (r : WorkerRegistry.t) (ops : list WorkerRegistry.op)
    (url : rstr) (pool : Pool) (k : nat) (id : WorkerId)
    (Hr : WorkerRegistry.wf r)
    (Hn : (WorkerRegistry.next_id r + N.of_nat (length ops) < u64_modulus)%N)
    (Hid : is_Some (WorkerRegistry.workers (WorkerRegistry.run r (take k ops)) !! id)) :
  WorkerRegistry.wf (WorkerRegistry.run r ops) ∧
  (WorkerRegistry.register_worker url pool (WorkerRegistry.run r ops)).1 ≠ id.
Proof.
  destruct (WorkerRegistry.wf_run (take k ops) r) as [Hwf1 _]; [done| |].
  { rewrite length_take. lia. }
  assert (WorkerRegistry.run r ops =
          WorkerRegistry.run (WorkerRegistry.run r (take k ops)) (drop k ops)) as Hrun.
  { unfold WorkerRegistry.run. by rewrite <-foldl_app, take_drop. }
  destruct (WorkerRegistry.wf_run ops r) as [Hwf [_ Hle]]; [done..|].
  split; [done|]. simpl. destruct Hid as [s Hs].
  apply (WorkerRegistry.wf_bound _ Hwf1) in Hs.
  destruct (WorkerRegistry.wf_run (take k ops) r) as [_ [_ Hk]]; [done| |].
  { rewrite length_take. lia. }
  rewrite length_take in Hk.
  destruct (WorkerRegistry.wf_run (drop k ops) (WorkerRegistry.run r (take k ops)))
    as [_ [Hge _]]; [done| |].
  { rewrite length_drop. lia. }
  rewrite Hrun. lia.
Qed.

Theorem register_worker_fresh_witness :
  (WorkerRegistry.register_worker (lit "http://replacement") Both
     (WorkerRegistry.run (WorkerRegistry.from_config two_workers)
        [WorkerRegistry.Register (lit "http://discovered") Both; WorkerRegistry.Remove 2])).1 ≠ 2%N.
Proof.
  apply (register_worker_fresh (WorkerRegistry.from_config two_workers)
    [WorkerRegistry.Register (lit "http://discovered") Both; WorkerRegistry.Remove 2]
    (lit "http://replacement") Both 1 2).
  - by apply WorkerRegistry.wf_from_config.
  - done.
  - eexists. vm_compute. reflexivity.
Defined.

(** [set_healthy] changes the health of the named worker only, reports
    [true] exactly when that worker exists and its health actually flips, and
    leaves worker descriptions and the allocator alone. *)
Theorem set_healthy_spec (r : WorkerRegistry.t) (id : WorkerId) (h : bool) :
  let '(changed, r') := WorkerRegistry.set_healthy id h r in
  (changed = true ↔
   is_Some (WorkerRegistry.workers r !! id) ∧ WorkerRegistry.is_healthy id r = negb h) ∧
  (∀ id', WorkerRegistry.get id' r' = WorkerRegistry.get id' r) ∧
  (∀ id', WorkerRegistry.is_healthy id' r' =
          if decide (id' = id ∧ is_Some (WorkerRegistry.workers r !! id)) then h
          else WorkerRegistry.is_healthy id' r) ∧
  WorkerRegistry.next_id r' = WorkerRegistry.next_id r.
Proof.
  pose proof (WorkerRegistry.next_id_set_healthy id h r) as Hn.
  pose proof (WorkerRegistry.lookup_set_healthy id h r) as Hl.
  destruct (WorkerRegistry.set_healthy id h r) as [changed r'] eqn:E.
  simpl in Hn, Hl. split_and!; [| | |done].
  - unfold WorkerRegistry.set_healthy, WorkerRegistry.is_healthy in *.
    destruct (WorkerRegistry.workers r !! id) as [[w b]|]; simplify_eq/=.
    + destruct b, h; naive_solver.
    + split; [done|]. by intros [[] _].
  - intros id'. unfold WorkerRegistry.get. rewrite Hl.
    case_decide; [|done]. by destruct (WorkerRegistry.workers r !! id').
  - intros id'. unfold WorkerRegistry.is_healthy. rewrite Hl.
    destruct (decide (id' = id)) as [->|Hne]; [|by rewrite decide_False by tauto].
    destruct (WorkerRegistry.workers r !! id) as [s|] eqn:Hs; simpl.
    + by rewrite decide_True by eauto.
    + rewrite decide_False; [done|]. by intros [_ [? ?]].
Qed.
