(* ===== verification/Inflight.v ===== *)
(** * In-flight accounting ([router-core/src/inflight.rs])

    A vector of atomic counters, one per worker id, and the guard that
    increments on acquisition and decrements when dropped.  Each method is
    atomic per counter (the lock only guards the vector's length), so a run of
    the program is a sequence of the steps below. *)

From S2P Require Import Prelude Config Worker.

Module InflightTracker.

Record t := { counts : list N }.

Definition with_capacity (workers : nat) : t := {| counts := replicate workers 0%N |}.

Definition ensure_capacity (workers : nat) (tr : t) : t :=
  if decide (length (counts tr) < workers)
  then {| counts := counts tr ++ replicate (workers - length (counts tr)) 0%N |}
  else tr.

(** [counts.get(worker as usize)]. *)
Definition slot (worker : WorkerId) (tr : t) : option N := counts tr !! N.to_nat worker.

Definition count (worker : WorkerId) (tr : t) : N := default 0%N (slot worker tr).

(** [Iterator::sum] of the loads (release build: wrapping). *)
Definition total (tr : t) : N := foldl fetch_add 0%N (counts tr).

(** Out of range, both are silent no-ops. *)
Definition increment (worker : WorkerId) (tr : t) : t :=
  {| counts := alter (λ c, fetch_add c 1) (N.to_nat worker) (counts tr) |}.

Definition decrement (worker : WorkerId) (tr : t) : t :=
  {| counts := alter (λ c, fetch_sub c 1) (N.to_nat worker) (counts tr) |}.

Definition tracks (worker : WorkerId) (tr : t) : Prop :=
  N.to_nat worker < length (counts tr).

Definition wf (tr : t) : Prop := Forall (λ c, (c < u64_modulus)%N) (counts tr).

#[export] Instance tracks_dec worker tr : Decision (tracks worker tr).
Proof. unfold tracks. apply _. Defined.
End InflightTracker.

(** The guard remembers its worker; the tracker it shares is the state. *)
Module InflightGuard.
Record t := { worker : WorkerId }.

Definition acquire (tr : InflightTracker.t) (w : WorkerId) : t * InflightTracker.t :=
  ({| worker := w |}, InflightTracker.increment w tr).

Definition drop (g : t) (tr : InflightTracker.t) : InflightTracker.t :=
  InflightTracker.decrement (worker g) tr.
End InflightGuard.

(** ** Runs: guards alive next to the tracker *)

Module Inflight.
Import InflightTracker.

Record state := { tracker : t; guards : list InflightGuard.t }.

(** [ok] says which acquisitions a run may perform. *)
Inductive step (ok : WorkerId → t → Prop) : state → state → Prop :=
  | step_acquire w g tr tr' gs :
      ok w tr → InflightGuard.acquire tr w = (g, tr') →
      step ok {| tracker := tr; guards := gs |} {| tracker := tr'; guards := g :: gs |}
  | step_drop g tr gs1 gs2 :
      step ok {| tracker := tr; guards := gs1 ++ g :: gs2 |}
              {| tracker := InflightGuard.drop g tr; guards := gs1 ++ gs2 |}
  | step_grow n tr gs :
      step ok {| tracker := tr; guards := gs |}
              {| tracker := ensure_capacity n tr; guards := gs |}.

Definition initial (workers : nat) : state :=
  {| tracker := with_capacity workers; guards := [] |}.

Definition live (w : WorkerId) (gs : list InflightGuard.t) : nat :=
  length (filter (λ g, InflightGuard.worker g = w) gs).

(** ** Lemmas *)

Lemma slot_alter f w w' tr :
  slot w {| counts := alter f (N.to_nat w') (counts tr) |} =
  if decide (w = w') then f <$> slot w tr else slot w tr.
Proof.
  unfold slot. simpl. case_decide; subst.
  - apply list_lookup_alter_eq.
  - apply list_lookup_alter_ne. lia.
Qed.

Lemma count_increment w w' tr :
  count w (increment w' tr) =
  if decide (w = w' ∧ tracks w tr) then fetch_add (count w tr) 1 else count w tr.
Proof.
  unfold count, increment. rewrite slot_alter. unfold slot, tracks.
  destruct (decide (w = w')) as [->|Hne].
  - destruct (counts tr !! N.to_nat w') eqn:E; simpl.
    + rewrite decide_True; [done|]. split; [done|]. by eapply lookup_lt_Some.
    + rewrite decide_False; [done|]. apply lookup_ge_None in E. lia.
  - rewrite decide_False; [done|tauto].
Qed.

Lemma count_decrement w w' tr :
  count w (decrement w' tr) =
  if decide (w = w' ∧ tracks w tr) then fetch_sub (count w tr) 1 else count w tr.
Proof.
  unfold count, decrement. rewrite slot_alter. unfold slot, tracks.
  destruct (decide (w = w')) as [->|Hne].
  - destruct (counts tr !! N.to_nat w') eqn:E; simpl.
    + rewrite decide_True; [done|]. split; [done|]. by eapply lookup_lt_Some.
    + rewrite decide_False; [done|]. apply lookup_ge_None in E. lia.
  - rewrite decide_False; [done|tauto].
Qed.

Lemma count_ensure_capacity w n tr : count w (ensure_capacity n tr) = count w tr.
Proof.
  unfold ensure_capacity. case_decide; [|done]. unfold count, slot. simpl.
  destruct (decide (tracks w tr)) as [Hw|Hw]; unfold tracks in Hw.
  - by rewrite lookup_app_l.
  - rewrite (lookup_ge_None_2 (counts tr)) by lia.
    rewrite lookup_app_r by lia.
    destruct (replicate _ _ !! _) eqn:E; [|done].
    by apply lookup_replicate in E as [-> _].
Qed.

Lemma tracks_increment w w' tr : tracks w (increment w' tr) ↔ tracks w tr.
Proof. unfold tracks, increment. simpl. by rewrite length_alter. Qed.

Lemma tracks_decrement w w' tr : tracks w (decrement w' tr) ↔ tracks w tr.
Proof. unfold tracks, decrement. simpl. by rewrite length_alter. Qed.

Lemma tracks_ensure_capacity w n tr :
  tracks w (ensure_capacity n tr) ↔ tracks w tr ∨ N.to_nat w < n.
Proof.
  unfold tracks, ensure_capacity. case_decide; simpl; [|lia].
  rewrite length_app, length_replicate. lia.
Qed.

Lemma live_cons w g gs :
  live w (g :: gs) = (if decide (InflightGuard.worker g = w) then 1 else 0) + live w gs.
Proof. unfold live. rewrite filter_cons. by case_decide. Qed.

Lemma live_middle w g gs1 gs2 :
  live w (gs1 ++ g :: gs2) =
  (if decide (InflightGuard.worker g = w) then 1 else 0) + live w (gs1 ++ gs2).
Proof.
  unfold live. rewrite !filter_app, filter_cons, !length_app.
  case_decide; simpl; lia.
Qed.

(** Dropping a fresh guard restores the tracker, tracked worker or not. *)
Lemma drop_acquire w tr :
  wf tr → InflightGuard.drop (InflightGuard.acquire tr w).1 (InflightGuard.acquire tr w).2 = tr.
Proof.
  intros Hwf. destruct tr as [cs]. unfold InflightGuard.drop, InflightGuard.acquire.
  cbn [fst snd InflightGuard.worker]. unfold decrement, increment. cbn [counts]. f_equal.
  apply list_eq. intros i. destruct (decide (i = N.to_nat w)) as [->|Hne].
  - rewrite !list_lookup_alter_eq. destruct (cs !! N.to_nat w) as [c|] eqn:Hc; [|done].
    simpl. f_equal. apply fetch_sub_add.
    exact (Forall_lookup_1 _ _ _ _ Hwf Hc).
  - by rewrite !list_lookup_alter_ne.
Qed.

(** Every counter is the number of guards alive for its worker, modulo
    2^64; no guard is alive for a worker without a counter. *)
Definition accounted (s : state) : Prop :=
  (∀ w, count w (tracker s) = wrap64 (N.of_nat (live w (guards s)))) ∧
  (∀ g, g ∈ guards s → tracks (InflightGuard.worker g) (tracker s)).

Lemma live_untracked w s :
  accounted s → ¬ tracks w (tracker s) → live w (guards s) = 0.
Proof.
  intros [_ Hg] Hw. unfold live. destruct (filter _ _) as [|g gs] eqn:E; [done|].
  assert (g ∈ filter (λ g, InflightGuard.worker g = w) (guards s)) as Hin
    by (rewrite E; left).
  apply list_elem_of_filter in Hin as [<- Hin]. by apply Hg in Hin.
Qed.

Lemma accounted_initial n : accounted (initial n).
Proof.
  split.
  - intros w. unfold live. simpl. unfold count, slot. simpl.
    destruct (replicate n 0%N !! _) eqn:E; [|done].
    by apply lookup_replicate in E as [-> _].
  - intros g Hg. simpl in Hg. by apply elem_of_nil in Hg.
Qed.

Lemma accounted_step s s' : step tracks s s' → accounted s → accounted s'.
Proof.
  intros Hs [Hc Hg]. destruct Hs as [w g tr tr' gs Hok Hacq|g tr gs1 gs2|n tr gs]; simpl in *.
  - injection Hacq as <- <-. split; simpl.
    + intros w'. rewrite count_increment, Hc, live_cons. simpl.
      destruct (decide (w = w')) as [->|Hne].
      * rewrite decide_True by done. unfold fetch_add. rewrite wrap64_add_l. f_equal. lia.
      * rewrite decide_False by naive_solver. done.
    + intros g [->|Hin]%elem_of_cons; apply tracks_increment; [done|by apply Hg].
  - unfold InflightGuard.drop. split; simpl.
    + intros w'. specialize (Hc w'). rewrite live_middle in Hc. rewrite count_decrement, Hc.
      destruct (decide (InflightGuard.worker g = w')) as [<-|Hne].
      * rewrite decide_True.
        { apply wrap64_sub_add_nat. }
        split; [done|]. apply Hg. set_solver.
      * rewrite decide_False by naive_solver. done.
    + intros g' Hin. apply tracks_decrement, Hg. set_solver.
  - split; simpl.
    + intros w. by rewrite count_ensure_capacity.
    + intros g Hin. apply tracks_ensure_capacity. left. by apply Hg.
Qed.

(** The order of the guards does not matter. *)
Lemma live_perm w gs gs' : gs ≡ₚ gs' → live w gs = live w gs'.
Proof. intros Hp. unfold live. by rewrite Hp. Qed.

Lemma accounted_perm tr gs gs' :
  gs ≡ₚ gs' → accounted {| tracker := tr; guards := gs |} →
  accounted {| tracker := tr; guards := gs' |}.
Proof.
  intros Hp [Hc Hg]. split; cbn in *.
  - intros w. rewrite Hc. do 2 f_equal. by apply live_perm.
  - intros g Hin. apply Hg. by rewrite Hp.
Qed.

Lemma accounted_rtc s s' : rtc (step tracks) s s' → accounted s → accounted s'.
Proof. induction 1; eauto using accounted_step. Qed.

(** The gauge total is the number of guards alive. *)
Lemma total_sumN tr : total tr = wrap64 (sumN (counts tr)).
Proof. unfold total. by rewrite foldl_fetch_add. Qed.

Lemma total_alter f d w tr :
  tracks w tr → (∀ x, wrap64 (f x + d) = wrap64 x) →
  wrap64 (total {| counts := alter f (N.to_nat w) (counts tr) |} + d) = total tr.
Proof.
  intros Hw Hf. rewrite !total_sumN. simpl.
  destruct (lookup_lt_is_Some_2 (counts tr) (N.to_nat w) Hw) as [x Hx].
  rewrite wrap64_add_l. by eapply sumN_alter.
Qed.

Lemma total_increment w tr : tracks w tr → total (increment w tr) = fetch_add (total tr) 1.
Proof.
  intros Hw. rewrite <-(total_alter (λ c, fetch_add c 1) (u64_modulus - 1) w tr Hw).
  - unfold fetch_add at 1, increment. rewrite wrap64_add_l, <-N.add_assoc, <-wrap64_add_r.
    change (wrap64 (u64_modulus - 1 + 1)) with 0%N. rewrite N.add_0_r.
    rewrite total_sumN. by rewrite wrap64_idemp.
  - intros x. unfold fetch_add. rewrite wrap64_add_l, <-N.add_assoc, <-wrap64_add_r.
    change (wrap64 (1 + (u64_modulus - 1))) with 0%N. by rewrite N.add_0_r.
Qed.

Lemma total_decrement w tr : tracks w tr → fetch_add (total (decrement w tr)) 1 = total tr.
Proof.
  intros Hw. apply (total_alter (λ c, fetch_sub c 1) 1 w tr Hw).
  intros x. unfold fetch_sub. rewrite wrap64_add_l, <-N.add_assoc, <-wrap64_add_r.
  change (wrap64 (u64_modulus - wrap64 1 + 1)) with 0%N. by rewrite N.add_0_r.
Qed.

Lemma total_ensure_capacity n tr : total (ensure_capacity n tr) = total tr.
Proof.
  unfold ensure_capacity. case_decide; [|done]. rewrite !total_sumN. simpl.
  by rewrite sumN_app, sumN_replicate_0, N.add_0_r.
Qed.

Definition totalled (s : state) : Prop :=
  total (tracker s) = wrap64 (N.of_nat (length (guards s))).

Lemma totalled_step s s' :
  step tracks s s' → accounted s → totalled s → totalled s'.
Proof.
  unfold totalled. intros Hs [_ Hg] Ht.
  destruct Hs as [w g tr tr' gs Hok Hacq|g tr gs1 gs2|n tr gs]; simpl in *.
  - injection Hacq as <- <-. rewrite total_increment, Ht by done.
    unfold fetch_add. rewrite wrap64_add_l. f_equal. lia.
  - rewrite length_app in *. simpl in Ht. unfold InflightGuard.drop.
    assert (tracks (InflightGuard.worker g) tr) as Hw by (apply Hg; set_solver).
    apply total_decrement in Hw. unfold fetch_add in Hw.
    rewrite total_sumN. apply (wrap64_add_cancel _ _ 1).
    rewrite <-wrap64_add_l, <-total_sumN, Hw, Ht. f_equal. lia.
  - by rewrite total_ensure_capacity.
Qed.

Lemma totalled_rtc s s' :
  rtc (step tracks) s s' → accounted s → totalled s → totalled s'.
Proof. induction 1; eauto using accounted_step, totalled_step. Qed.

Lemma totalled_initial n : totalled (initial n).
Proof.
  unfold totalled. rewrite total_sumN. simpl. by rewrite sumN_replicate_0.
Qed.
End Inflight.

(** ** Properties *)

(** In-flight accounting is exact: in every state reached by acquiring
    guards for tracked workers, dropping guards in any order and growing the
    vector, each worker's count is the number of its live guards and the total
    is the number of all live guards (both modulo 2^64); so once every guard
    is dropped, all counts and the total are zero. *)
Theorem inflight_counts_exact (n : nat) (s : Inflight.state) (w : WorkerId)
    (Hs : rtc (Inflight.step InflightTracker.tracks) (Inflight.initial n) s) :
  InflightTracker.count w (Inflight.tracker s) =
    wrap64 (N.of_nat (Inflight.live w (Inflight.guards s))) ∧
  InflightTracker.total (Inflight.tracker s) =
    wrap64 (N.of_nat (length (Inflight.guards s))).
Proof.
  split.
  - apply (Inflight.accounted_rtc _ _ Hs), Inflight.accounted_initial.
  - apply (Inflight.totalled_rtc _ _ Hs);
      [apply Inflight.accounted_initial|apply Inflight.totalled_initial].
Qed.

Definition two_guards : Inflight.state := {|
  Inflight.tracker := {| InflightTracker.counts := [1; 1]%N |};
  Inflight.guards := [{| InflightGuard.worker := 0 |}; {| InflightGuard.worker := 1 |}]
|}.

Theorem inflight_counts_exact_witness :
  InflightTracker.count 1 (Inflight.tracker two_guards) =
    wrap64 (N.of_nat (Inflight.live 1 (Inflight.guards two_guards))) ∧
  InflightTracker.total (Inflight.tracker two_guards) =
    wrap64 (N.of_nat (length (Inflight.guards two_guards))).
Proof.
  apply (inflight_counts_exact 2).
  eapply rtc_l.
  - apply (Inflight.step_acquire _ 1%N); [|reflexivity].
    vm_compute. lia.
  - eapply rtc_l; [|apply rtc_refl].
    apply (Inflight.step_acquire _ 0%N); [|reflexivity].
    vm_compute. lia.
Defined.

(** Acquiring a guard for a worker the vector does not yet cover is not
    counted, and if the vector grows before that guard is dropped the count
    wraps: with no guard alive the worker's in-flight count is [2^64 - 1]. *)
Theorem inflight_untracked_guard_wraps :
  ∃ s1 s2,
    rtc (Inflight.step (λ _ _, True)) (Inflight.initial 2) s1 ∧
    rtc (Inflight.step (λ _ _, True)) s1 s2 ∧
    length (Inflight.guards s1) = 1 ∧ InflightTracker.total (Inflight.tracker s1) = 0%N ∧
    Inflight.guards s2 = [] ∧
    InflightTracker.count 5 (Inflight.tracker s2) = (u64_modulus - 1)%N.
Proof.
  set (g := {| InflightGuard.worker := 5 |}).
  set (tr := InflightTracker.with_capacity 2).
  exists {| Inflight.tracker := InflightTracker.increment 5 tr; Inflight.guards := [g] |},
    {| Inflight.tracker := InflightGuard.drop g
         (InflightTracker.ensure_capacity 6 (InflightTracker.increment 5 tr));
       Inflight.guards := [] |}.
  split_and!; [| |done..].
  - eapply rtc_l; [|apply rtc_refl]. by eapply Inflight.step_acquire.
  - eapply rtc_l; [apply (Inflight.step_grow _ 6)|].
    eapply rtc_l; [|apply rtc_refl]. apply (Inflight.step_drop _ g _ [] []).
Qed.

(** [ensure_capacity] never shrinks the vector, covers every id below
    the requested size, and changes no count. *)
Theorem ensure_capacity_spec (n : nat) (tr : InflightTracker.t) (w : WorkerId) :
  (InflightTracker.tracks w (InflightTracker.ensure_capacity n tr) ↔
   InflightTracker.tracks w tr ∨ N.to_nat w < n) ∧
  InflightTracker.count w (InflightTracker.ensure_capacity n tr) = InflightTracker.count w tr.
Proof.
  split; [apply Inflight.tracks_ensure_capacity|apply Inflight.count_ensure_capacity].
Qed.
