(* ===== verification/Belief.v ===== *)
(** * The belief interface

    What the prefix index promises to the router, the health poller and
    discovery: an abstract relation "worker [w] is believed to hold block [h]"
    and the effect of every operation on it.  The clients' theorems are proved
    against this interface; [PrefixIndex] implements it with sharded maps and
    [FlatIndex] with a single map. *)

From S2P Require Import Prelude Config Worker.

(** Outcome of one eviction sweep. *)
Record EvictionStats := { expired : nat; lru_evicted : nat }.

#[export] Instance EvictionStats_eq_dec : EqDecision EvictionStats.
Proof. solve_decision. Defined.

(** Instants and durations are counts of nanoseconds. *)
Abbreviation instant := N.
Abbreviation duration := N.

Class BeliefIndex (T : Type) := {
  bi_new : T;
  bi_record : instant → WorkerId → list N → T → T;
  bi_longest_match : instant → WorkerId → list N → T → nat * T;
  bi_remove_worker : WorkerId → T → T;
  bi_len : T → nat;
  bi_evict : instant → duration → N → T → EvictionStats * T;
  (** The belief itself, and the representation invariant. *)
  bi_holds : T → WorkerId → N → bool;
  bi_ok : T → Prop;
}.

(** Number of leading elements of [chain] that satisfy [holds]. *)
Fixpoint held_prefix (holds : N → bool) (chain : list N) : nat :=
  match chain with
  | [] => 0
  | hash :: chain => if holds hash then S (held_prefix holds chain) else 0
  end.

Class BeliefIndexLaws (T : Type) `{BeliefIndex T} : Prop := {
  bi_new_ok : bi_ok bi_new;
  bi_record_ok now w chain s : bi_ok s → bi_ok (bi_record now w chain s);
  bi_match_ok now w chain s : bi_ok s → bi_ok (bi_longest_match now w chain s).2;
  bi_remove_ok w s : bi_ok s → bi_ok (bi_remove_worker w s);
  bi_evict_ok now ttl cap s : bi_ok s → bi_ok (bi_evict now ttl cap s).2;
  bi_new_holds w h : bi_holds bi_new w h = false;
  bi_record_holds now w chain s w' h : bi_ok s →
    bi_holds (bi_record now w chain s) w' h =
    bi_holds s w' h || bool_decide (w' = w ∧ h ∈ chain);
  bi_match_len now w chain s : bi_ok s →
    (bi_longest_match now w chain s).1 = held_prefix (bi_holds s w) chain;
  bi_match_holds now w chain s w' h : bi_ok s →
    bi_holds (bi_longest_match now w chain s).2 w' h = bi_holds s w' h;
  bi_remove_holds w s w' h : bi_ok s →
    bi_holds (bi_remove_worker w s) w' h = bi_holds s w' h && negb (bool_decide (w' = w));
  bi_evict_holds now ttl cap s w h : bi_ok s →
    bi_holds (bi_evict now ttl cap s).2 w h = true → bi_holds s w h = true;
}.

#[export] Hint Resolve bi_new_ok bi_record_ok bi_match_ok bi_remove_ok bi_evict_ok : kv.

Section held_prefix.
Implicit Types (holds : N → bool) (chain : list N).

Lemma held_prefix_le holds chain : held_prefix holds chain ≤ length chain.
Proof. induction chain; simpl; [done|]. case_match; lia. Qed.

Lemma held_prefix_all holds chain :
  (∀ h, h ∈ chain → holds h = true) → held_prefix holds chain = length chain.
Proof.
  induction chain as [|h chain IH]; intros Hall; simpl; [done|].
  rewrite Hall by left. f_equal. apply IH. intros. apply Hall. by right.
Qed.

Lemma held_prefix_none holds chain :
  (∀ h, h ∈ chain → holds h = false) → held_prefix holds chain = 0.
Proof. destruct chain; intros Hall; simpl; [done|]. by rewrite Hall by left. Qed.

Lemma held_prefix_ext holds1 holds2 chain :
  (∀ h, h ∈ chain → holds1 h = holds2 h) →
  held_prefix holds1 chain = held_prefix holds2 chain.
Proof.
  induction chain as [|h chain IH]; intros Hall; simpl; [done|].
  rewrite Hall by left. case_match; [|done]. f_equal. apply IH.
  intros. apply Hall. by right.
Qed.

(** It is the longest prefix: everything before it is held and what follows
    is not. *)
Lemma held_prefix_spec holds chain k :
  held_prefix holds chain = k ↔
  (∀ i h, i < k → chain !! i = Some h → holds h = true) ∧ k ≤ length chain ∧
  (∀ h, chain !! k = Some h → holds h = false).
Proof.
  revert k. induction chain as [|h chain IH]; intros k; simpl.
  - split; [intros <-; split_and!; [lia|done..]|intros (_ & ? & _); lia].
  - destruct (holds h) eqn:Hh.
    + destruct k as [|k].
      { split; [done|]. intros (_ & _ & Hn). specialize (Hn h eq_refl). congruence. }
      rewrite Nat.succ_inj_wd, IH. split.
      * intros (H1 & H2 & H3). split_and!; [|lia|done].
        intros [|i] h' ? ?; simplify_eq/=; [done|]. eapply (H1 i); [lia|done].
      * intros (H1 & H2 & H3). split_and!; [|lia|by intros; apply H3].
        intros i h' ? ?. apply (H1 (S i)); [lia|done].
    + split.
      * intros <-. split_and!; [lia..|]. by intros ? [= <-].
      * intros (H1 & _ & _). destruct k as [|k]; [done|].
        specialize (H1 0 h ltac:(lia) eq_refl). congruence.
Qed.
End held_prefix.
