(* ===== verification/Prefix.v ===== *)
(** * The sharded prefix index ([router-core/src/prefix.rs])

    The index as the code has it, 64 maps selected by [hash & 63], and a flat
    specification with one map; every operation refines the flat one, so the
    sharding is invisible to callers. *)

From S2P Require Import Prelude Config Worker Belief.

Record IndexEntry := { ie_workers : list WorkerId; ie_last_touched : instant }.

#[export] Instance IndexEntry_eq_dec : EqDecision IndexEntry.
Proof. solve_decision. Defined.

Abbreviation entries := (gmap N IndexEntry).

(** ** Operations on one entry *)

(** [or_insert_with], then add the worker if absent and touch. *)
Definition record_entry (now : instant) (worker : WorkerId) (o : option IndexEntry) : IndexEntry :=
  let entry := default {| ie_workers := []; ie_last_touched := now |} o in
  {| ie_workers := if decide (worker ∈ ie_workers entry) then ie_workers entry
                   else ie_workers entry ++ [worker];
     ie_last_touched := now |}.

Definition touch_entry (now : instant) (entry : IndexEntry) : IndexEntry :=
  {| ie_workers := ie_workers entry; ie_last_touched := now |}.

(** The closure of [retain] in [remove_worker]. *)
Definition drop_worker (worker : WorkerId) (entry : IndexEntry) : option IndexEntry :=
  let workers := filter (λ w, w ≠ worker) (ie_workers entry) in
  if decide (workers = []) then None
  else Some {| ie_workers := workers; ie_last_touched := ie_last_touched entry |}.

Definition retain_worker (worker : WorkerId) (es : entries) : entries :=
  omap (drop_worker worker) es.

(** [now.duration_since(last_touched) <= ttl]; [duration_since] saturates at
    zero. *)
Definition fresh (now : instant) (ttl : duration) (entry : IndexEntry) : Prop :=
  (now - ie_last_touched entry ≤ ttl)%N.

#[export] Instance fresh_dec now ttl e : Decision (fresh now ttl e).
Proof. unfold fresh. apply _. Defined.

Module PrefixIndex.

Definition NUM_SHARDS : N := 64.

Record t := { shards : list entries }.

Definition new : t := {| shards := replicate (N.to_nat NUM_SHARDS) ∅ |}.

Definition shard_index (hash : N) : nat := N.to_nat (N.land hash (NUM_SHARDS - 1)).

Definition shard (hash : N) (idx : t) : entries := default ∅ (shards idx !! shard_index hash).

(** Hold the write lock of the hash's shard and apply [f]. *)
Definition update_shard (hash : N) (f : entries → entries) (idx : t) : t :=
  {| shards := alter f (shard_index hash) (shards idx) |}.

Definition record_block (now : instant) (worker : WorkerId) (idx : t) (hash : N) : t :=
  update_shard hash (λ es, <[hash := record_entry now worker (es !! hash)]> es) idx.

Definition record (now : instant) (worker : WorkerId) (chain : list N) (idx : t) : t :=
  foldl (record_block now worker) idx chain.

(** The read pass of [longest_match]: the matched hashes. *)
Fixpoint match_loop (worker : WorkerId) (chain : list N) (idx : t) : list N :=
  match chain with
  | [] => []
  | hash :: chain =>
      match shard hash idx !! hash with
      | Some entry =>
          if decide (worker ∈ ie_workers entry)
          then hash :: match_loop worker chain idx else []
      | None => []
      end
  end.

Definition touch (now : instant) (idx : t) (hash : N) : t :=
  update_shard hash (alter (touch_entry now) hash) idx.

Definition longest_match (now : instant) (worker : WorkerId) (chain : list N) (idx : t) : nat * t :=
  let matched_hashes := match_loop worker chain idx in
  (length matched_hashes, foldl (touch now) idx matched_hashes).

Definition remove_worker (worker : WorkerId) (idx : t) : t :=
  {| shards := retain_worker worker <$> shards idx |}.

Definition len (idx : t) : nat := sum_list (size <$> shards idx).

Definition is_empty (idx : t) : bool := bool_decide (len idx = 0).

(** *** Eviction *)

Definition expire (now : instant) (ttl : duration) (es : entries) : entries :=
  filter (λ kv, fresh now ttl kv.2) es.

Section evict.
Context {HM : HashMapOrder}.

(** [(last_touched, hash, shard_index)] of every entry, shard by shard. *)
Definition collect (idx : t) : list (instant * N * nat) :=
  mjoin (imap (λ i es, (λ kv, (ie_last_touched kv.2, kv.1, i)) <$> hm_iter es) (shards idx)).

(** One iteration of the final loop: remove and count if present; the shard
    indices come from [collect] and are in range. *)
Definition evict_one (acc : t * nat) (x : instant * N * nat) : t * nat :=
  let '(idx, lru_evicted) := acc in
  let '(_, hash, shard_index) := x in
  match shards idx !! shard_index with
  | Some es =>
      ({| shards := alter (delete hash) shard_index (shards idx) |},
       if decide (is_Some (es !! hash)) then S lru_evicted else lru_evicted)
  | None => (idx, lru_evicted)
  end.

Definition evict (now : instant) (ttl : duration) (max_entries : N) (idx : t) :
    EvictionStats * t :=
  let idx' := {| shards := expire now ttl <$> shards idx |} in
  let expired :=
    sum_list (zip_with (λ before after, size before - size after)
                (shards idx) (shards idx')) in
  let total := len idx' in
  if decide (N.of_nat total ≤ max_entries)%N
  then ({| expired := expired; lru_evicted := 0 |}, idx')
  else
    let overflow := total - N.to_nat max_entries in
    let oldest := sort_by_key (λ x, x.1.1) (collect idx') in
    let '(idx'', lru_evicted) := foldl evict_one (idx', 0) (take overflow oldest) in
    ({| expired := expired; lru_evicted := lru_evicted |}, idx'').
End evict.

(** The background task: [ttl / 3] clamped to 1s..60s, one sweep per tick. *)
Definition eviction_period (ttl : duration) : duration :=
  N.min (N.max (ttl / 3) 1000000000) 60000000000.

Definition eviction_sweeps {HM : HashMapOrder} (ttl : duration) (max_entries : N)
    (ticks : list instant) (idx : t) : t :=
  foldl (λ idx now, (evict now ttl max_entries idx).2) idx ticks.

(** ** The belief and the representation invariant *)

Definition holds (idx : t) (worker : WorkerId) (hash : N) : bool :=
  match shard hash idx !! hash with
  | Some entry => bool_decide (worker ∈ ie_workers entry)
  | None => false
  end.

Record sharded (idx : t) : Prop := {
  sharded_length : length (shards idx) = N.to_nat NUM_SHARDS;
  sharded_index i es h e :
    shards idx !! i = Some es → es !! h = Some e → i = shard_index h;
}.

(** All entries in one map. *)
Definition flatten (idx : t) : entries := ⋃ (shards idx).
End PrefixIndex.

(** ** Specification: one map *)

Module FlatIndex.

Definition record_block (now : instant) (worker : WorkerId) (m : entries) (hash : N) : entries :=
  partial_alter (λ o, Some (record_entry now worker o)) hash m.

Definition record (now : instant) (worker : WorkerId) (chain : list N) (m : entries) : entries :=
  foldl (record_block now worker) m chain.

Definition holds (m : entries) (worker : WorkerId) (hash : N) : bool :=
  match m !! hash with
  | Some entry => bool_decide (worker ∈ ie_workers entry)
  | None => false
  end.

Definition longest_match (now : instant) (worker : WorkerId) (chain : list N) (m : entries) :
    nat * entries :=
  let k := held_prefix (holds m worker) chain in
  (k, foldl (λ m hash, alter (touch_entry now) hash m) m (take k chain)).

Definition remove_worker (worker : WorkerId) (m : entries) : entries :=
  retain_worker worker m.

(** What an eviction sweep may leave, as a relation because ties in age are
    broken arbitrarily: stale entries go, then the least recently touched
    ones until the cap is met, and the statistics count both. *)
Record evicts (now : instant) (ttl : duration) (max_entries : N)
    (m : entries) (stats : EvictionStats) (m' : entries) : Prop := {
  evicts_sub : m' ⊆ m;
  evicts_fresh h e : m' !! h = Some e → fresh now ttl e;
  evicts_expired : expired stats + size (filter (λ kv, fresh now ttl kv.2) m) = size m;
  evicts_total : expired stats + lru_evicted stats + size m' = size m;
  evicts_size : N.of_nat (size m') =
    N.min (N.of_nat (size (filter (λ kv, fresh now ttl kv.2) m))) max_entries;
  evicts_lru h e h' e' :
    m !! h = Some e → fresh now ttl e → m' !! h = None → m' !! h' = Some e' →
    (ie_last_touched e ≤ ie_last_touched e')%N;
}.

(** Entries name at least one worker, each once. *)
Definition ok (m : entries) : Prop :=
  map_Forall (λ _ e, ie_workers e ≠ [] ∧ NoDup (ie_workers e)) m.

(** *** Lemmas *)

Lemma record_entry_workers now w o w' :
  w' ∈ ie_workers (record_entry now w o) ↔
  w' = w ∨ w' ∈ default [] (ie_workers <$> o).
Proof.
  unfold record_entry. destruct o as [e|]; simpl.
  - case_decide as Hw; simpl.
    + split; [by right|]. by intros [->|].
    + rewrite elem_of_app, list_elem_of_singleton. tauto.
  - rewrite list_elem_of_singleton, elem_of_nil. tauto.
Qed.

Lemma record_entry_idemp now w o :
  record_entry now w (Some (record_entry now w o)) = record_entry now w o.
Proof.
  unfold record_entry at 1. simpl. rewrite decide_True; [done|].
  apply record_entry_workers. by left.
Qed.

Lemma lookup_record now w chain m h :
  record now w chain m !! h =
  if decide (h ∈ chain)
  then Some (record_entry now w (m !! h)) else m !! h.
Proof.
  unfold record. revert m. induction chain as [|x chain IH]; intros m; cbn [foldl].
  { by rewrite decide_False by apply not_elem_of_nil. }
  rewrite IH. unfold record_block.
  destruct (decide (x = h)) as [->|Hne].
  - rewrite lookup_partial_alter_eq, record_entry_idemp.
    destruct (decide (h ∈ chain)), (decide (h ∈ h :: chain)); set_solver.
  - rewrite lookup_partial_alter_ne by done.
    destruct (decide (h ∈ chain)), (decide (h ∈ x :: chain)); set_solver.
Qed.

Lemma flat_holds_record now w chain m w' h :
  holds (record now w chain m) w' h = holds m w' h || bool_decide (w' = w ∧ h ∈ chain).
Proof.
  unfold holds. rewrite lookup_record. apply eq_true_iff_eq.
  rewrite orb_true_iff, bool_decide_eq_true.
  destruct (decide (h ∈ chain)).
  - rewrite bool_decide_eq_true, record_entry_workers.
    destruct (m !! h); simpl; rewrite ?bool_decide_eq_true, ?elem_of_nil; naive_solver.
  - naive_solver.
Qed.

Lemma lookup_touch_list now hs (m : entries) h :
  foldl (λ m hash, alter (touch_entry now) hash m) m hs !! h =
  if decide (h ∈ hs) then touch_entry now <$> m !! h else m !! h.
Proof.
  revert m. induction hs as [|x hs IH]; intros m; cbn [foldl].
  { by rewrite decide_False by apply not_elem_of_nil. }
  rewrite IH. destruct (decide (x = h)) as [->|Hne].
  - rewrite lookup_alter_eq, <-option_fmap_compose.
    destruct (decide (h ∈ hs)), (decide (h ∈ h :: hs)); set_solver.
  - rewrite lookup_alter_ne by done.
    destruct (decide (h ∈ hs)), (decide (h ∈ x :: hs)); set_solver.
Qed.

Lemma holds_longest_match now w chain m w' h :
  holds (longest_match now w chain m).2 w' h = holds m w' h.
Proof.
  unfold longest_match, holds. simpl. rewrite lookup_touch_list.
  case_decide; [|done]. by destruct (m !! h).
Qed.

Lemma lookup_remove_worker w m h :
  remove_worker w m !! h = m !! h ≫= drop_worker w.
Proof. apply lookup_omap. Qed.

Lemma drop_worker_spec w e :
  match drop_worker w e with
  | Some e' => ie_workers e' = filter (λ w', w' ≠ w) (ie_workers e) ∧ ie_workers e' ≠ []
               ∧ ie_last_touched e' = ie_last_touched e
  | None => ∀ w', w' ∈ ie_workers e → w' = w
  end.
Proof.
  unfold drop_worker. case_decide as Hd; [|done]. intros w' Hw'.
  destruct (decide (w' = w)) as [|Hne]; [done|].
  assert (w' ∈ filter (λ w, w ≠ w) (ie_workers e) ∨ w' ∈ filter (λ w', w' ≠ w) (ie_workers e))
    as [Hin|Hin] by (right; by apply list_elem_of_filter).
  - by apply list_elem_of_filter in Hin as [? _].
  - rewrite Hd in Hin. by apply elem_of_nil in Hin.
Qed.

Lemma holds_remove_worker w m w' h :
  holds (remove_worker w m) w' h = holds m w' h && negb (bool_decide (w' = w)).
Proof.
  unfold holds. rewrite lookup_remove_worker.
  destruct (m !! h) as [e|]; simpl; [|done].
  pose proof (drop_worker_spec w e) as Hd. apply eq_true_iff_eq.
  rewrite andb_true_iff, negb_true_iff, bool_decide_eq_true, bool_decide_eq_false.
  destruct (drop_worker w e) as [e'|].
  - destruct Hd as (-> & _ & _). rewrite bool_decide_eq_true, list_elem_of_filter. tauto.
  - split; [done|]. intros [Hin Hne]. by apply Hd in Hin.
Qed.

Lemma ok_record now w chain m : ok m → ok (record now w chain m).
Proof.
  intros Hok h e. rewrite lookup_record. case_decide; [|apply Hok].
  intros [= <-]. unfold record_entry. destruct (m !! h) as [e|] eqn:He; simpl.
  - apply Hok in He as [Hne Hnd]. case_decide; [done|]. split; [by destruct (ie_workers e)|].
    apply NoDup_app. split_and!; [done| |apply NoDup_singleton].
    intros x Hx ->%list_elem_of_singleton. done.
  - split; [done|apply NoDup_singleton].
Qed.

Lemma ok_longest_match now w chain m : ok m → ok (longest_match now w chain m).2.
Proof.
  intros Hok h e. unfold longest_match. simpl. rewrite lookup_touch_list.
  case_decide; [|apply Hok]. intros (e' & He' & ->)%fmap_Some. by apply (Hok h e').
Qed.

Lemma ok_remove_worker w m : ok m → ok (remove_worker w m).
Proof.
  intros Hok h e. rewrite lookup_remove_worker. intros (e' & He' & Hd)%bind_Some.
  pose proof (drop_worker_spec w e') as Hs. rewrite Hd in Hs. destruct Hs as (Hw & Hne & _).
  split; [done|]. rewrite Hw. apply NoDup_filter. by apply (Hok h e').
Qed.

Lemma evicts_ok now ttl cap m stats m' : evicts now ttl cap m stats m' → ok m → ok m'.
Proof.
  intros He Hok h e Hl. apply (Hok h e). eapply lookup_weaken; [done|apply He].
Qed.

Lemma evicts_holds now ttl cap m stats m' w h :
  evicts now ttl cap m stats m' → holds m' w h = true → holds m w h = true.
Proof.
  intros He. unfold holds. destruct (m' !! h) as [e|] eqn:E; [|done].
  by rewrite (lookup_weaken _ _ _ _ E (evicts_sub _ _ _ _ _ _ He)).
Qed.
End FlatIndex.

(** ** Refinement: the sharded operations implement the flat ones *)

Module ShardedRefinesFlat.
Import PrefixIndex.

Lemma shard_index_lt h : shard_index h < N.to_nat NUM_SHARDS.
Proof.
  unfold shard_index, NUM_SHARDS. change (64 - 1)%N with (N.ones 6).
  rewrite N.land_ones. pose proof (N.mod_lt h (2 ^ 6) ltac:(done)). lia.
Qed.

Lemma lookup_union_shards (l : list entries) h k :
  (∀ i es, l !! i = Some es → i ≠ k → es !! h = None) →
  (⋃ l) !! h = l !! k ≫= lookup h.
Proof.
  revert k. induction l as [|es l IH]; intros k Hl; simpl; [by rewrite lookup_empty|].
  destruct k as [|k]; simpl.
  - apply option_eq. intros e. rewrite lookup_union_Some_raw.
    assert ((⋃ l) !! h = None) as Hn.
    { rewrite (IH (length l)).
      - by rewrite lookup_ge_None_2.
      - intros i es' Hi _. by apply (Hl (S i) es'). }
    rewrite Hn. naive_solver.
  - rewrite lookup_union_r by by apply (Hl 0).
    apply IH. intros i es' Hi Hne. apply (Hl (S i)); [done|lia].
Qed.

Lemma lookup_flatten idx h : sharded idx → flatten idx !! h = shard h idx !! h.
Proof.
  intros [Hlen Hidx]. unfold flatten. rewrite (lookup_union_shards _ _ (shard_index h)).
  - unfold shard. by destruct (shards idx !! shard_index h).
  - intros i es Hi Hne. apply eq_None_not_Some. intros [e He]. by eapply Hne, Hidx.
Qed.

Lemma sharded_lookup idx h :
  sharded idx → shards idx !! shard_index h = Some (shard h idx).
Proof.
  intros [Hlen _]. unfold shard.
  destruct (lookup_lt_is_Some_2 (shards idx) (shard_index h)) as [es Hes].
  { rewrite Hlen. apply shard_index_lt. }
  by rewrite Hes.
Qed.

Lemma sharded_new : sharded new.
Proof.
  split; [apply length_replicate|]. intros i es h e Hi He.
  apply lookup_replicate in Hi as [-> _]. by rewrite lookup_empty in He.
Qed.

Lemma flatten_new : flatten new = ∅.
Proof.
  apply map_eq. intros h. rewrite lookup_flatten by apply sharded_new.
  pose proof (sharded_lookup new h sharded_new) as Hl.
  by apply lookup_replicate in Hl as [-> _].
Qed.

(** An update of one key inside its shard is the update of that key in the
    flat map: the lemma every writing operation uses. *)
Lemma update_shard_refines g f h idx :
  (∀ es, f es = partial_alter g h es) → sharded idx →
  sharded (update_shard h f idx) ∧
  flatten (update_shard h f idx) = partial_alter g h (flatten idx).
Proof.
  intros Hf Hs.
  assert (Hs' : sharded (update_shard h f idx)).
  { split; simpl; [rewrite length_alter; apply Hs|].
    intros i es k e Hi He. rewrite list_lookup_alter in Hi.
    destruct (decide (shard_index h = i)) as [<-|Hne]; [|by eapply (sharded_index _ Hs)].
    rewrite sharded_lookup in Hi by done. injection Hi as <-. rewrite Hf in He.
    destruct (decide (h = k)) as [->|Hne]; [done|].
    rewrite lookup_partial_alter_ne in He by done.
    eapply (sharded_index _ Hs); [by apply sharded_lookup|done]. }
  split; [done|]. apply map_eq. intros k. rewrite lookup_flatten by done.
  unfold shard. simpl.
  destruct (decide (shard_index h = shard_index k)) as [Hi|Hi].
  - rewrite <-Hi, list_lookup_alter_eq, sharded_lookup by done. simpl. rewrite Hf.
    assert (shard h idx = shard k idx) as He by (unfold shard; by rewrite Hi).
    destruct (decide (h = k)) as [->|Hne].
    + by rewrite !lookup_partial_alter_eq, lookup_flatten.
    + by rewrite !lookup_partial_alter_ne, lookup_flatten, He.
  - assert (h ≠ k) by congruence.
    rewrite list_lookup_alter_ne by done.
    by rewrite lookup_partial_alter_ne, lookup_flatten.
Qed.

Lemma record_block_refines now w h idx :
  sharded idx →
  sharded (record_block now w idx h) ∧
  flatten (record_block now w idx h) = FlatIndex.record_block now w (flatten idx) h.
Proof.
  apply update_shard_refines. intros es. apply map_eq. intros k.
  destruct (decide (h = k)) as [->|Hne].
  - by rewrite lookup_insert_eq, lookup_partial_alter_eq.
  - by rewrite lookup_insert_ne, lookup_partial_alter_ne.
Qed.

Lemma record_refines now w chain idx :
  sharded idx →
  sharded (record now w chain idx) ∧
  flatten (record now w chain idx) = FlatIndex.record now w chain (flatten idx).
Proof.
  unfold record, FlatIndex.record. revert idx.
  induction chain as [|h chain IH]; intros idx Hs; [done|]. simpl.
  destruct (record_block_refines now w h idx Hs) as [Hs' <-]. by apply IH.
Qed.

Lemma holds_flatten idx w h : sharded idx → holds idx w h = FlatIndex.holds (flatten idx) w h.
Proof. intros Hs. unfold FlatIndex.holds. by rewrite lookup_flatten. Qed.

Lemma match_loop_held_prefix w chain idx :
  match_loop w chain idx = take (held_prefix (holds idx w) chain) chain.
Proof.
  induction chain as [|h chain IH]; [done|]. simpl. unfold holds at 1.
  destruct (shard h idx !! h) as [e|]; [|done].
  case_bool_decide; case_decide; try done. by rewrite IH.
Qed.

Lemma touch_refines now hs idx :
  sharded idx →
  sharded (foldl (touch now) idx hs) ∧
  flatten (foldl (touch now) idx hs) =
    foldl (λ m h, alter (touch_entry now) h m) (flatten idx) hs.
Proof.
  revert idx. induction hs as [|h hs IH]; intros idx Hs; [done|]. simpl.
  destruct (update_shard_refines (fmap (touch_entry now)) (alter (touch_entry now) h) h idx)
    as [Hs' He]; [done..|].
  change (alter (touch_entry now) h (flatten idx))
    with (partial_alter (fmap (touch_entry now)) h (flatten idx)).
  rewrite <-He. by apply IH.
Qed.

Lemma longest_match_refines now w chain idx :
  sharded idx →
  sharded (longest_match now w chain idx).2 ∧
  (longest_match now w chain idx).1 = (FlatIndex.longest_match now w chain (flatten idx)).1 ∧
  flatten (longest_match now w chain idx).2 =
    (FlatIndex.longest_match now w chain (flatten idx)).2.
Proof.
  intros Hs. unfold longest_match, FlatIndex.longest_match. simpl.
  rewrite match_loop_held_prefix.
  rewrite (held_prefix_ext (holds idx w) (FlatIndex.holds (flatten idx) w))
    by (intros; by apply holds_flatten).
  destruct (touch_refines now
    (take (held_prefix (FlatIndex.holds (flatten idx) w) chain) chain) idx Hs).
  split_and!; [done| |done].
  rewrite length_take. pose proof (held_prefix_le (FlatIndex.holds (flatten idx) w) chain). lia.
Qed.

(** Applying one function that maps keys to themselves to every shard. *)
Lemma map_shards_refines (f : entries → entries) (g : N → option IndexEntry → option IndexEntry) idx :
  (∀ es h, f es !! h = g h (es !! h)) → (∀ h, g h None = None) → sharded idx →
  sharded {| shards := f <$> shards idx |} ∧
  (∀ h, flatten {| shards := f <$> shards idx |} !! h = g h (flatten idx !! h)).
Proof.
  intros Hf Hg Hs.
  assert (Hs' : sharded {| shards := f <$> shards idx |}).
  { split; simpl; [rewrite length_fmap; apply Hs|].
    intros i es h e. rewrite list_lookup_fmap. intros (es' & Hes' & ->)%fmap_Some He.
    rewrite Hf in He. destruct (es' !! h) eqn:E; [|by rewrite Hg in He].
    by eapply (sharded_index _ Hs). }
  split; [done|]. intros h. rewrite !lookup_flatten by done. unfold shard at 1. simpl.
  by rewrite list_lookup_fmap, sharded_lookup by done; simpl.
Qed.

Lemma remove_worker_refines w idx :
  sharded idx →
  sharded (remove_worker w idx) ∧
  flatten (remove_worker w idx) = FlatIndex.remove_worker w (flatten idx).
Proof.
  intros Hs.
  destruct (map_shards_refines (retain_worker w) (λ _ o, o ≫= drop_worker w) idx)
    as [? He]; [by intros; apply lookup_omap|done..|].
  split; [done|]. apply map_eq. intros h. unfold remove_worker.
  rewrite He. symmetry. apply FlatIndex.lookup_remove_worker.
Qed.
End ShardedRefinesFlat.

(** ** Eviction refines its specification *)

Module EvictionRefines.
Import PrefixIndex ShardedRefinesFlat.

Lemma size_union_shards (l : list entries) :
  (∀ i j es1 es2 h, l !! i = Some es1 → l !! j = Some es2 →
     is_Some (es1 !! h) → is_Some (es2 !! h) → i = j) →
  size (⋃ l) = sum_list (size <$> l).
Proof.
  induction l as [|es l IH]; intros Hd; [apply map_size_empty|]. simpl.
  rewrite map_size_disj_union.
  - rewrite IH; [done|]. intros i j es1 es2 h Hi Hj H1 H2.
    specialize (Hd (S i) (S j) es1 es2 h Hi Hj H1 H2). lia.
  - apply map_disjoint_spec. intros h e1 e2 He1 He2.
    destruct (decide (Exists (λ es', is_Some (es' !! h)) l)) as [Hex|Hex].
    + apply Exists_exists in Hex as (es' & Hin & Hsome).
      apply list_elem_of_lookup in Hin as [j Hj].
      by specialize (Hd 0 (S j) es es' h eq_refl Hj ltac:(eauto) Hsome).
    + rewrite (lookup_union_shards _ _ (length l)) in He2.
      * by rewrite lookup_ge_None_2 in He2.
      * intros i es' Hi _. apply eq_None_not_Some. intros Hsome. apply Hex.
        apply Exists_exists. exists es'. split; [by eapply list_elem_of_lookup_2|done].
Qed.

Lemma len_flatten idx : sharded idx → len idx = size (flatten idx).
Proof.
  intros Hs. unfold len, flatten. rewrite size_union_shards; [done|].
  intros i j es1 es2 h Hi Hj [e1 H1] [e2 H2].
  rewrite (sharded_index _ Hs _ _ _ _ Hi H1). symmetry. by eapply (sharded_index _ Hs).
Qed.

Lemma lookup_fresh now ttl (m : entries) h :
  filter (λ kv, fresh now ttl kv.2) m !! h =
  m !! h ≫= λ e, if decide (fresh now ttl e) then Some e else None.
Proof.
  apply option_eq. intros e. rewrite map_lookup_filter_Some. simpl.
  destruct (m !! h) as [e'|]; simpl; [|naive_solver].
  case_decide; naive_solver.
Qed.

Lemma expire_refines now ttl idx :
  sharded idx →
  sharded {| shards := expire now ttl <$> shards idx |} ∧
  flatten {| shards := expire now ttl <$> shards idx |} =
    filter (λ kv, fresh now ttl kv.2) (flatten idx).
Proof.
  intros Hs.
  destruct (map_shards_refines (expire now ttl)
    (λ h o, o ≫= λ e, if decide (fresh now ttl e) then Some e else None) idx) as [Hs' He];
    [|done..|].
  { intros es h. apply lookup_fresh. }
  split; [done|]. apply map_eq. intros h. by rewrite He, lookup_fresh.
Qed.

(** The statistic counts what the sweep removed. *)
Lemma sum_expired (f : entries → entries) l :
  (∀ es, f es ⊆ es) →
  sum_list (zip_with (λ before after, size before - size after) l (f <$> l))
    + sum_list (size <$> (f <$> l)) = sum_list (size <$> l).
Proof.
  intros Hf. induction l as [|es l IH]; csimpl; [done|].
  pose proof (map_subseteq_size _ _ (Hf es)). lia.
Qed.

Section order.
Context {HM : HashMapOrder}.

(** What an element of [collect] says of the index. *)
Definition collected (idx : t) (x : instant * N * nat) : Prop :=
  ∃ e, flatten idx !! x.1.2 = Some e ∧ x.1.1 = ie_last_touched e ∧ x.2 = shard_index x.1.2.

Lemma elem_of_collect idx t h i :
  (t, h, i) ∈ collect idx ↔
  ∃ es e, shards idx !! i = Some es ∧ es !! h = Some e ∧ t = ie_last_touched e.
Proof.
  unfold collect. rewrite list_elem_of_join. split.
  - intros (l & Hin & Hl). apply elem_of_lookup_imap in Hl as (j & es & -> & Hj).
    apply list_elem_of_fmap in Hin as ([h' e] & He & Hin). simplify_eq/=.
    apply elem_of_hm_iter in Hin. eauto.
  - intros (es & e & Hi & He & ->).
    exists ((λ kv, (ie_last_touched kv.2, kv.1, i)) <$> hm_iter es). split.
    + apply list_elem_of_fmap. exists (h, e). by rewrite elem_of_hm_iter.
    + apply elem_of_lookup_imap. eauto.
Qed.

Lemma length_collect idx : length (collect idx) = len idx.
Proof.
  unfold collect, len. rewrite length_join, fmap_imap. f_equal.
  apply list_eq. intros i. rewrite list_lookup_imap, list_lookup_fmap.
  destruct (shards idx !! i); simpl; [|done].
  by rewrite length_fmap, length_hm_iter.
Qed.

Definition describe (kv : N * IndexEntry) : instant * N * nat :=
  (ie_last_touched kv.2, kv.1, shard_index kv.1).

(** [collect] lists every entry of the index exactly once. *)
Lemma collect_perm idx :
  sharded idx → collect idx ≡ₚ describe <$> map_to_list (flatten idx).
Proof.
  intros Hs. symmetry. apply submseteq_length_Permutation.
  - apply NoDup_submseteq.
    + apply (NoDup_fmap_1 (λ x : instant * N * nat, x.1.2)).
      rewrite <-list_fmap_compose. apply NoDup_fst_map_to_list.
    + intros x ([h e] & -> & Hin)%list_elem_of_fmap.
      apply elem_of_map_to_list in Hin. rewrite lookup_flatten in Hin by done.
      apply elem_of_collect. exists (shard h idx), e.
      by rewrite sharded_lookup.
  - rewrite length_collect, length_fmap, length_map_to_list, len_flatten by done. lia.
Qed.

Lemma collected_collect idx x : sharded idx → x ∈ collect idx ↔ collected idx x.
Proof.
  intros Hs. rewrite collect_perm, list_elem_of_fmap by done. unfold collected. split.
  - intros ([h e] & -> & Hin). exists e. by rewrite <-elem_of_map_to_list.
  - destruct x as [[t h] i]. simpl. intros (e & He & -> & ->).
    exists (h, e). by rewrite elem_of_map_to_list.
Qed.

Lemma NoDup_collect_hashes idx :
  sharded idx → NoDup ((λ x, x.1.2) <$> collect idx).
Proof.
  intros Hs. rewrite collect_perm by done. rewrite <-list_fmap_compose.
  apply NoDup_fst_map_to_list.
Qed.

Lemma evict_one_refines idx n x :
  sharded idx → collected idx x →
  ∃ idx', evict_one (idx, n) x = (idx', S n) ∧ sharded idx' ∧
    flatten idx' = delete x.1.2 (flatten idx).
Proof.
  destruct x as [[t h] i]. intros Hs (e & He & _ & Hi). simpl in *. subst i.
  rewrite lookup_flatten in He by done. rewrite sharded_lookup by done.
  rewrite decide_True by eauto.
  destruct (update_shard_refines (λ _, None) (delete h) h idx) as [Hs' Hf]; [done..|].
  eexists. split; [done|]. by split.
Qed.

Lemma evict_fold_refines L idx n :
  sharded idx → Forall (collected idx) L → NoDup ((λ x, x.1.2) <$> L) →
  ∃ idx', foldl evict_one (idx, n) L = (idx', n + length L) ∧ sharded idx' ∧
    (∀ h, flatten idx' !! h =
          if decide (h ∈ (λ x, x.1.2) <$> L) then None else flatten idx !! h) ∧
    size (flatten idx') + length L = size (flatten idx).
Proof.
  revert idx n. induction L as [|x L IH]; intros idx n Hs HL Hnd; cbn [foldl].
  { exists idx. rewrite Nat.add_0_r. split_and!; [done..| |simpl; lia].
    intros h. by rewrite decide_False by apply not_elem_of_nil. }
  apply Forall_cons in HL as [Hx HL]. rewrite fmap_cons in Hnd.
  apply NoDup_cons in Hnd as [Hni Hnd].
  destruct (evict_one_refines idx n x Hs Hx) as (idx1 & -> & Hs1 & Hf1).
  assert (HL1 : Forall (collected idx1) L).
  { rewrite Forall_forall in HL |- *. intros y Hy. destruct (HL y Hy) as (e & He & ? & ?).
    exists e. split_and!; [|done..]. rewrite Hf1, lookup_delete_ne; [done|].
    intros Heq. apply Hni. apply list_elem_of_fmap. by exists y. }
  destruct (IH idx1 (S n) Hs1 HL1 Hnd) as (idx2 & -> & Hs2 & Hl2 & Hsz2).
  exists idx2. split_and!; [f_equal; simpl; lia|done| |].
  - intros h. rewrite Hl2, Hf1, fmap_cons.
    destruct (decide (h = x.1.2)) as [->|Hne].
    + rewrite lookup_delete_eq, (decide_True (P := _ ∈ _ :: _)) by by left.
      by case_decide.
    + rewrite lookup_delete_ne by done.
      destruct (decide (h ∈ (λ x, x.1.2) <$> L)).
      * by rewrite decide_True by by right.
      * rewrite decide_False; [done|]. by rewrite not_elem_of_cons.
  - destruct Hx as (e & He & _). rewrite Hf1 in Hsz2.
    rewrite map_size_delete_Some in Hsz2 by eauto.
    pose proof (map_size_ne_0_lookup_2 _ _ (ex_intro _ e He)). simpl. lia.
Qed.

(** The LRU pass on its own: the [k] least recently touched entries go. *)
Lemma lru_refines k idx :
  sharded idx → k ≤ len idx →
  let oldest := sort_by_key (λ x, x.1.1) (collect idx) in
  ∃ idx', foldl evict_one (idx, 0) (take k oldest) = (idx', k) ∧ sharded idx' ∧
    flatten idx' ⊆ flatten idx ∧ size (flatten idx') + k = size (flatten idx) ∧
    (∀ h e h' e', flatten idx !! h = Some e → flatten idx' !! h = None →
       flatten idx' !! h' = Some e' → (ie_last_touched e ≤ ie_last_touched e')%N).
Proof.
  intros Hs Hk oldest.
  assert (Hperm : oldest ≡ₚ collect idx) by apply sort_by_key_perm.
  assert (Hsorted : StronglySorted (key_le (λ x : instant * N * nat, x.1.1)) oldest)
    by apply sort_by_key_sorted.
  assert (Hlen : length (take k oldest) = k)
    by (rewrite length_take, Hperm, length_collect; lia).
  rewrite <-(take_drop k oldest) in Hsorted, Hperm.
  destruct (evict_fold_refines (take k oldest) idx 0 Hs) as (idx' & -> & Hs' & Hl & Hsz).
  { apply Forall_forall. intros x Hx. apply collected_collect; [done|].
    rewrite <-Hperm. set_solver. }
  { pose proof (NoDup_collect_hashes idx Hs) as Hnd.
    rewrite <-Hperm, fmap_app in Hnd. by apply NoDup_app in Hnd as [? _]. }
  rewrite Hlen in *. exists idx'. split_and!; [done|done| |done|].
  - apply map_subseteq_spec. intros h e. rewrite Hl. by case_decide.
  - intros h e h' e' Hm Hn He'. rewrite Hl in Hn, He'.
    destruct (decide (h ∈ (λ x, x.1.2) <$> take k oldest)) as [Hin|]; [|congruence].
    destruct (decide (h' ∈ (λ x, x.1.2) <$> take k oldest)) as [|Hin']; [done|].
    apply list_elem_of_fmap in Hin as (x & -> & Hx).
    assert (Hcx : collected idx x)
      by (apply collected_collect; [done|]; rewrite <-Hperm; set_solver).
    destruct Hcx as (ex & Hex & Htx & _). rewrite Hm in Hex. injection Hex as <-.
    assert (Hcy : collected idx (describe (h', e'))) by by exists e'.
    apply collected_collect in Hcy; [|done]. rewrite <-Hperm in Hcy.
    apply elem_of_app in Hcy as [Hcy|Hcy].
    + exfalso. apply Hin'. apply list_elem_of_fmap. by exists (describe (h', e')).
    + pose proof (StronglySorted_app_1_elem_of _ _ _ _ _ Hsorted Hx Hcy) as Hle.
      unfold key_le in Hle. simpl in Hle. lia.
Qed.

Theorem evict_refines now ttl cap idx :
  sharded idx →
  sharded (evict now ttl cap idx).2 ∧
  FlatIndex.evicts now ttl cap (flatten idx) (evict now ttl cap idx).1
    (flatten (evict now ttl cap idx).2).
Proof.
  intros Hs. destruct (expire_refines now ttl idx Hs) as [Hs1 Hf1].
  pose proof (sum_expired (expire now ttl) (shards idx)
                (λ es, map_filter_subseteq _ es)) as Hexp.
  set (idx1 := {| shards := expire now ttl <$> shards idx |}) in *.
  pose proof (len_flatten _ Hs1) as Hl1. pose proof (len_flatten _ Hs) as Hl.
  set (m1 := filter (λ kv, fresh now ttl kv.2) (flatten idx)) in *.
  assert (Hm1 : m1 ⊆ flatten idx) by apply map_filter_subseteq.
  assert (Hfresh : ∀ h e, m1 !! h = Some e ↔ flatten idx !! h = Some e ∧ fresh now ttl e)
    by (intros h e; apply map_lookup_filter_Some).
  assert (Hexp' : sum_list (zip_with (λ before after, size before - size after)
                    (shards idx) (expire now ttl <$> shards idx)) + size m1
                 = size (flatten idx)).
  { rewrite <-Hf1, <-Hl1, <-Hl. exact Hexp. }
  rewrite Hf1 in Hl1. unfold evict. fold idx1. case_decide as Hcap.
  - split; [done|]. simpl. rewrite Hf1. rewrite Hl1 in Hcap.
    split; simpl; fold m1; [done|by intros h e [_ ?]%Hfresh|done|lia|lia|].
    intros h e h' e' He Hfr Hn. exfalso.
    assert (m1 !! h = Some e) by by apply Hfresh. congruence.
  - destruct (lru_refines (len idx1 - N.to_nat cap) idx1 Hs1 ltac:(lia))
      as (idx2 & -> & Hs2 & Hsub & Hsz & Hold).
    split; [done|]. rewrite Hf1 in *. split; simpl; fold m1; [by etrans| |done|lia|lia|].
    + intros h e He. eapply lookup_weaken in He; [|done]. by apply Hfresh in He as [_ ?].
    + intros h e h' e' He Hfr. apply Hold. by apply Hfresh.
Qed.
End order.
End EvictionRefines.

(** ** The implementation of the interface *)

Definition index_ok (idx : PrefixIndex.t) : Prop :=
  PrefixIndex.sharded idx ∧ FlatIndex.ok (PrefixIndex.flatten idx).

#[export] Instance prefix_index_belief {HM : HashMapOrder} : BeliefIndex PrefixIndex.t := {
  bi_new := PrefixIndex.new;
  bi_record := PrefixIndex.record;
  bi_longest_match := PrefixIndex.longest_match;
  bi_remove_worker := PrefixIndex.remove_worker;
  bi_len := PrefixIndex.len;
  bi_evict := PrefixIndex.evict;
  bi_holds := PrefixIndex.holds;
  bi_ok := index_ok;
}.

#[export] Instance prefix_index_laws {HM : HashMapOrder} : BeliefIndexLaws PrefixIndex.t.
Proof.
  split; cbn [prefix_index_belief bi_new bi_record bi_longest_match bi_remove_worker
              bi_evict bi_holds bi_ok]; unfold index_ok.
  - split; [apply ShardedRefinesFlat.sharded_new|].
    rewrite ShardedRefinesFlat.flatten_new. apply map_Forall_empty.
  - intros now w chain s [Hs Hok].
    destruct (ShardedRefinesFlat.record_refines now w chain s Hs) as [? ->].
    split; [done|]. by apply FlatIndex.ok_record.
  - intros now w chain s [Hs Hok].
    destruct (ShardedRefinesFlat.longest_match_refines now w chain s Hs) as (? & _ & ->).
    split; [done|]. by apply FlatIndex.ok_longest_match.
  - intros w s [Hs Hok].
    destruct (ShardedRefinesFlat.remove_worker_refines w s Hs) as [? ->].
    split; [done|]. by apply FlatIndex.ok_remove_worker.
  - intros now ttl cap s [Hs Hok].
    destruct (EvictionRefines.evict_refines now ttl cap s Hs) as [? He].
    split; [done|]. by eapply FlatIndex.evicts_ok.
  - intros w h. rewrite ShardedRefinesFlat.holds_flatten by apply ShardedRefinesFlat.sharded_new.
    rewrite ShardedRefinesFlat.flatten_new. unfold FlatIndex.holds. by rewrite lookup_empty.
  - intros now w chain s w' h [Hs _].
    destruct (ShardedRefinesFlat.record_refines now w chain s Hs) as [? He].
    rewrite !ShardedRefinesFlat.holds_flatten, He by done. apply FlatIndex.flat_holds_record.
  - intros now w chain s [Hs _].
    destruct (ShardedRefinesFlat.longest_match_refines now w chain s Hs) as (_ & -> & _).
    simpl. apply held_prefix_ext. intros. by rewrite ShardedRefinesFlat.holds_flatten.
  - intros now w chain s w' h [Hs _].
    destruct (ShardedRefinesFlat.longest_match_refines now w chain s Hs) as (? & _ & He).
    rewrite !ShardedRefinesFlat.holds_flatten, He by done. apply FlatIndex.holds_longest_match.
  - intros w s w' h [Hs _].
    destruct (ShardedRefinesFlat.remove_worker_refines w s Hs) as [? He].
    rewrite !ShardedRefinesFlat.holds_flatten, He by done. apply FlatIndex.holds_remove_worker.
  - intros now ttl cap s w h [Hs _].
    destruct (EvictionRefines.evict_refines now ttl cap s Hs) as [? He].
    rewrite !ShardedRefinesFlat.holds_flatten by done. by eapply FlatIndex.evicts_holds.
Qed.

(** The laws, read at the sharded index. *)
Section prefix_laws.
Implicit Types (idx : PrefixIndex.t) (now : instant) (w : WorkerId) (chain : list N).
#[local] Existing Instance hm_canonical.

Lemma index_ok_new : index_ok PrefixIndex.new.
Proof. exact (bi_new_ok (T := PrefixIndex.t)). Qed.
Lemma index_ok_record now w chain idx :
  index_ok idx → index_ok (PrefixIndex.record now w chain idx).
Proof. exact (bi_record_ok (T := PrefixIndex.t) now w chain idx). Qed.
Lemma index_ok_remove w idx : index_ok idx → index_ok (PrefixIndex.remove_worker w idx).
Proof. exact (bi_remove_ok (T := PrefixIndex.t) w idx). Qed.
Lemma index_holds_record now w chain idx w' h :
  index_ok idx →
  PrefixIndex.holds (PrefixIndex.record now w chain idx) w' h =
  PrefixIndex.holds idx w' h || bool_decide (w' = w ∧ h ∈ chain).
Proof. exact (bi_record_holds (T := PrefixIndex.t) now w chain idx w' h). Qed.
Lemma index_holds_remove w idx w' h :
  index_ok idx →
  PrefixIndex.holds (PrefixIndex.remove_worker w idx) w' h =
  PrefixIndex.holds idx w' h && negb (bool_decide (w' = w)).
Proof. exact (bi_remove_holds (T := PrefixIndex.t) w idx w' h). Qed.
Lemma match_len now w chain idx :
  index_ok idx →
  (PrefixIndex.longest_match now w chain idx).1 = held_prefix (PrefixIndex.holds idx w) chain.
Proof. exact (bi_match_len (T := PrefixIndex.t) now w chain idx). Qed.
End prefix_laws.

#[export] Hint Resolve index_ok_new index_ok_record index_ok_remove : kv.

(** ** Runs of both indexes *)

Module PrefixRuns.

Inductive op :=
  | OpRecord (now : instant) (worker : WorkerId) (chain : list N)
  | OpMatch (now : instant) (worker : WorkerId) (chain : list N)
  | OpRemove (worker : WorkerId)
  | OpLen
  | OpEvict (now : instant) (ttl : duration) (max_entries : N).

(** What the caller of an operation sees. *)
Inductive obs := ObsUnit | ObsNat (n : nat) | ObsStats (s : EvictionStats).

Definition step {HM : HashMapOrder} (o : op) (idx : PrefixIndex.t) : obs * PrefixIndex.t :=
  match o with
  | OpRecord now w chain => (ObsUnit, PrefixIndex.record now w chain idx)
  | OpMatch now w chain =>
      let '(n, idx') := PrefixIndex.longest_match now w chain idx in (ObsNat n, idx')
  | OpRemove w => (ObsUnit, PrefixIndex.remove_worker w idx)
  | OpLen => (ObsNat (PrefixIndex.len idx), idx)
  | OpEvict now ttl cap =>
      let '(stats, idx') := PrefixIndex.evict now ttl cap idx in (ObsStats stats, idx')
  end.

Inductive flat_step : op → entries → obs → entries → Prop :=
  | flat_record now w chain m :
      flat_step (OpRecord now w chain) m ObsUnit (FlatIndex.record now w chain m)
  | flat_match now w chain m :
      flat_step (OpMatch now w chain) m
        (ObsNat (FlatIndex.longest_match now w chain m).1)
        (FlatIndex.longest_match now w chain m).2
  | flat_remove w m : flat_step (OpRemove w) m ObsUnit (FlatIndex.remove_worker w m)
  | flat_len m : flat_step OpLen m (ObsNat (size m)) m
  | flat_evict now ttl cap m stats m' :
      FlatIndex.evicts now ttl cap m stats m' →
      flat_step (OpEvict now ttl cap) m (ObsStats stats) m'.

Fixpoint run {HM : HashMapOrder} (ops : list op) (idx : PrefixIndex.t) :
    list obs * PrefixIndex.t :=
  match ops with
  | [] => ([], idx)
  | o :: ops =>
      let '(ob, idx) := step o idx in
      let '(obs, idx) := run ops idx in (ob :: obs, idx)
  end.

Inductive flat_run : list op → entries → list obs → entries → Prop :=
  | flat_run_nil m : flat_run [] m [] m
  | flat_run_cons o ops m ob m' obs m'' :
      flat_step o m ob m' → flat_run ops m' obs m'' →
      flat_run (o :: ops) m (ob :: obs) m''.

Lemma step_refines {HM : HashMapOrder} o idx :
  PrefixIndex.sharded idx →
  PrefixIndex.sharded (step o idx).2 ∧
  flat_step o (PrefixIndex.flatten idx) (step o idx).1 (PrefixIndex.flatten (step o idx).2).
Proof.
  intros Hs. destruct o as [now w chain|now w chain|w| |now ttl cap]; cbn [step fst snd].
  - destruct (ShardedRefinesFlat.record_refines now w chain idx Hs) as [? ->].
    split; [done|constructor].
  - destruct (ShardedRefinesFlat.longest_match_refines now w chain idx Hs) as (? & He & Hf).
    destruct (PrefixIndex.longest_match now w chain idx) as [n idx'].
    cbn [fst snd] in *.
    split; [done|]. rewrite He, Hf. constructor.
  - destruct (ShardedRefinesFlat.remove_worker_refines w idx Hs) as [? ->].
    split; [done|constructor].
  - split; [done|]. rewrite EvictionRefines.len_flatten by done. constructor.
  - destruct (EvictionRefines.evict_refines now ttl cap idx Hs) as [? He].
    destruct (PrefixIndex.evict now ttl cap idx) as [stats idx'].
    split; [done|]. by constructor.
Qed.
Lemma run_sharded {HM : HashMapOrder} ops idx :
  PrefixIndex.sharded idx → PrefixIndex.sharded (run ops idx).2.
Proof.
  revert idx. induction ops as [|o ops IH]; intros idx Hs; [done|]. cbn [run].
  pose proof (proj1 (step_refines o idx Hs)) as Hs1. destruct (step o idx) as [ob idx1].
  specialize (IH idx1 Hs1). by destruct (run ops idx1).
Qed.
End PrefixRuns.

(** ** Properties *)

(** C2.  Sharding is invisible: every run of operations on the 64-shard index
    is a run of the single-map specification that shows the caller the same
    results (match lengths, sizes, eviction statistics), for any hash-map
    iteration order, and ends in the same set of entries. *)
Theorem prefix_index_refines_flat {HM : HashMapOrder} (ops : list PrefixRuns.op) :
  let '(obs, idx) := PrefixRuns.run ops PrefixIndex.new in
  PrefixIndex.sharded idx ∧ PrefixRuns.flat_run ops ∅ obs (PrefixIndex.flatten idx).
Proof.
  assert (Hrun : ∀ idx, PrefixIndex.sharded idx →
    let '(obs, idx') := PrefixRuns.run ops idx in
    PrefixIndex.sharded idx' ∧
    PrefixRuns.flat_run ops (PrefixIndex.flatten idx) obs (PrefixIndex.flatten idx')).
  { induction ops as [|o ops IH]; intros idx Hs; simpl; [split; [done|constructor]|].
    destruct (PrefixRuns.step_refines o idx Hs) as [Hs1 Hf1].
    destruct (PrefixRuns.step o idx) as [ob idx1]. simpl in *. specialize (IH idx1 Hs1).
    destruct (PrefixRuns.run ops idx1) as [obs idx2]. destruct IH as [? ?].
    split; [done|]. by econstructor. }
  rewrite <-ShardedRefinesFlat.flatten_new. apply Hrun, ShardedRefinesFlat.sharded_new.
Qed.

(** [longest_match] returns the longest prefix of the chain whose blocks
    are all recorded for the worker: everything before it is held, the next
    block is not, and it never exceeds the chain. *)
Theorem longest_match_is_longest (now : instant) (w : WorkerId)
    (chain : list N) (idx : PrefixIndex.t) :
  let k := (PrefixIndex.longest_match now w chain idx).1 in
  (∀ i h, i < k → chain !! i = Some h → PrefixIndex.holds idx w h = true) ∧
  k ≤ length chain ∧
  (∀ h, chain !! k = Some h → PrefixIndex.holds idx w h = false).
Proof.
  cbn zeta. apply held_prefix_spec. unfold PrefixIndex.longest_match. cbn [fst].
  rewrite ShardedRefinesFlat.match_loop_held_prefix, length_take.
  pose proof (held_prefix_le (PrefixIndex.holds idx w) chain). lia.
Qed.

(** Matching refreshes exactly the matched blocks: afterwards every block
    of the matched prefix carries the time of the match, every other entry its
    old time, and no worker set changes. *)
Theorem longest_match_touches (now : instant) (w : WorkerId) (chain : list N)
    (idx : PrefixIndex.t) (h : N) (Hs : PrefixIndex.sharded idx) :
  let '(k, idx') := PrefixIndex.longest_match now w chain idx in
  PrefixIndex.flatten idx' !! h =
    (if decide (h ∈ take k chain)
     then touch_entry now <$> PrefixIndex.flatten idx !! h
     else PrefixIndex.flatten idx !! h).
Proof.
  destruct (ShardedRefinesFlat.longest_match_refines now w chain idx Hs) as (_ & He & Hf).
  destruct (PrefixIndex.longest_match now w chain idx) as [k idx'].
  cbn [fst snd] in *. rewrite Hf, He. apply FlatIndex.lookup_touch_list.
Qed.

Definition sample_index : PrefixIndex.t :=
  PrefixIndex.record 20 1 [7; 71]%N (PrefixIndex.record 10 0 [7; 71; 200]%N PrefixIndex.new).

Lemma sample_index_sharded : PrefixIndex.sharded sample_index.
Proof.
  apply ShardedRefinesFlat.record_refines, ShardedRefinesFlat.record_refines,
    ShardedRefinesFlat.sharded_new.
Qed.

Theorem longest_match_touches_witness :
  PrefixIndex.longest_match 30 1 [7; 71; 200]%N sample_index =
    (2, (PrefixIndex.longest_match 30 1 [7; 71; 200]%N sample_index).2) ∧
  PrefixIndex.flatten (PrefixIndex.longest_match 30 1 [7; 71; 200]%N sample_index).2 !! 7%N =
    Some {| ie_workers := [0; 1]%N; ie_last_touched := 30 |}.
Proof.
  split; [by vm_compute|].
  exact (eq_trans
    (longest_match_touches 30 1 [7; 71; 200]%N sample_index 7%N sample_index_sharded)
    eq_refl).
Defined.

(** Recording makes the worker, and no other, hold the chain: afterwards
    the whole chain matches for the recorded worker, and every other worker
    matches what it matched before. *)
Theorem record_then_match (now now' : instant) (w w' : WorkerId)
    (chain chain' : list N) (idx : PrefixIndex.t) (Hs : index_ok idx) (Hw : w' ≠ w) :
  (PrefixIndex.longest_match now' w chain (PrefixIndex.record now w chain idx)).1 = length chain ∧
  (PrefixIndex.longest_match now' w' chain' (PrefixIndex.record now w chain idx)).1 =
  (PrefixIndex.longest_match now' w' chain' idx).1.
Proof.
  assert (Hs' := index_ok_record now w chain idx Hs).
  split.
  - rewrite (match_len now' w chain _ Hs'). apply held_prefix_all. intros h Hh.
    rewrite (index_holds_record now w chain idx w h Hs), bool_decide_true by done.
    apply orb_true_r.
  - rewrite (match_len now' w' chain' _ Hs'), (match_len now' w' chain' _ Hs).
    apply held_prefix_ext. intros h Hh.
    rewrite (index_holds_record now w chain idx w' h Hs), bool_decide_false by tauto.
    apply orb_false_r.
Qed.

Lemma sample_index_ok : index_ok sample_index.
Proof. unfold sample_index. auto with kv. Qed.

Theorem record_then_match_witness :
  (PrefixIndex.longest_match 30 2 [7; 300]%N (PrefixIndex.record 30 2 [7; 300]%N sample_index)).1 = 2 ∧
  (PrefixIndex.longest_match 30 0 [7; 300]%N (PrefixIndex.record 30 2 [7; 300]%N sample_index)).1 =
  (PrefixIndex.longest_match 30 0 [7; 300]%N sample_index).1.
Proof.
  apply (record_then_match 30 30 2 0 [7; 300]%N [7; 300]%N sample_index).
  - exact sample_index_ok.
  - discriminate.
Defined.

(** Removing a worker purges exactly it: it matches nothing any more, all
    other workers match what they matched before, and no entry with an empty
    worker set is left behind. *)
Theorem remove_worker_purges (now : instant) (w w' : WorkerId)
    (chain : list N) (idx : PrefixIndex.t) (Hs : index_ok idx) (Hw : w' ≠ w) :
  (PrefixIndex.longest_match now w chain (PrefixIndex.remove_worker w idx)).1 = 0 ∧
  (PrefixIndex.longest_match now w' chain (PrefixIndex.remove_worker w idx)).1 =
  (PrefixIndex.longest_match now w' chain idx).1 ∧
  (∀ h e, PrefixIndex.flatten (PrefixIndex.remove_worker w idx) !! h = Some e →
          ie_workers e ≠ [] ∧ NoDup (ie_workers e)).
Proof.
  assert (Hs' := index_ok_remove w idx Hs).
  split_and!.
  - rewrite (match_len now w chain _ Hs'). apply held_prefix_none. intros h Hh.
    rewrite (index_holds_remove w idx w h Hs), bool_decide_true by done. apply andb_false_r.
  - rewrite (match_len now w' chain _ Hs'), (match_len now w' chain _ Hs).
    apply held_prefix_ext. intros h Hh.
    rewrite (index_holds_remove w idx w' h Hs), bool_decide_false by done. apply andb_true_r.
  - intros h e Hl. exact (map_Forall_lookup_1 _ _ _ _ (proj2 Hs') Hl).
Qed.

Theorem remove_worker_purges_witness :
  (PrefixIndex.longest_match 30 0 [7; 71]%N (PrefixIndex.remove_worker 0 sample_index)).1 = 0 ∧
  (PrefixIndex.longest_match 30 1 [7; 71]%N (PrefixIndex.remove_worker 0 sample_index)).1 =
  (PrefixIndex.longest_match 30 1 [7; 71]%N sample_index).1 ∧
  (∀ h e, PrefixIndex.flatten (PrefixIndex.remove_worker 0 sample_index) !! h = Some e →
          ie_workers e ≠ [] ∧ NoDup (ie_workers e)).
Proof.
  apply (remove_worker_purges 30 0 1 [7; 71]%N sample_index).
  - exact sample_index_ok.
  - discriminate.
Defined.

(** C25.  An eviction sweep keeps the index bounded and is honest about it:
    every survivor was touched within the TTL, at most [max_entries] entries
    survive, evicted fresh entries are no younger than any survivor, the
    overflow is evicted exactly, and the statistics add up to the number of
    entries that left. *)
Theorem evict_bounds_index {HM : HashMapOrder} (now : instant) (ttl : duration) (cap : N)
    (idx : PrefixIndex.t) (Hs : PrefixIndex.sharded idx) :
  let '(stats, idx') := PrefixIndex.evict now ttl cap idx in
  let m := PrefixIndex.flatten idx in
  let m' := PrefixIndex.flatten idx' in
  m' ⊆ m ∧
  (∀ h e, m' !! h = Some e → fresh now ttl e) ∧
  (N.of_nat (PrefixIndex.len idx') ≤ cap)%N ∧
  (∀ h e h' e', m !! h = Some e → fresh now ttl e → m' !! h = None → m' !! h' = Some e' →
     (ie_last_touched e ≤ ie_last_touched e')%N) ∧
  expired stats + lru_evicted stats + PrefixIndex.len idx' = PrefixIndex.len idx ∧
  lru_evicted stats =
    size (filter (λ kv, fresh now ttl kv.2) m) - N.to_nat cap.
Proof.
  destruct (EvictionRefines.evict_refines now ttl cap idx Hs) as [Hs' [Hsub Hfr Hexp Htot Hsz Hlru]].
  destruct (PrefixIndex.evict now ttl cap idx) as [stats idx']. cbn [fst snd] in *. cbn zeta.
  rewrite !EvictionRefines.len_flatten by done.
  split_and!; [done|done|lia|done|done|lia].
Qed.

Theorem evict_bounds_index_witness :
  let '(stats, idx') := @PrefixIndex.evict hm_canonical 25 100 2 sample_index in
  stats = {| expired := 0; lru_evicted := 1 |} ∧ (N.of_nat (PrefixIndex.len idx') ≤ 2)%N.
Proof.
  split; [by vm_compute|].
  exact (proj1 (proj2 (proj2
    (@evict_bounds_index hm_canonical 25 100 2 sample_index sample_index_sharded)))).
Defined.

(** Entries of one age leave in the order of their shards: the sort is stable.
    Five blocks recorded at one instant, a cap of four. *)
Theorem evict_ties_by_shard :
  let idx := PrefixIndex.record 5 0 [5; 4; 3; 2; 1]%N PrefixIndex.new in
  let '(stats, idx') := @PrefixIndex.evict hm_canonical 10 100 4 idx in
  lru_evicted stats = 1 ∧
  (λ h, PrefixIndex.holds idx' 0 h) <$> [1; 2; 3; 4; 5]%N = [false; true; true; true; true].
Proof. vm_compute. by split. Qed.
