(* ===== verification/Concurrent.v ===== *)
(** * The prefix index at the grain of its locks ([router-core/src/prefix.rs])

    Every other file takes a whole method of the index as one step.  The code
    locks one shard at a time, so calls from different threads interleave
    between two locks.  Here a call is a thread that stops at every critical
    section; the theorems say what a call may rely on when others run. *)

From S2P Require Import Prelude Config Worker Belief Prefix.

(** ** Critical sections *)

Module Section_.
Import PrefixIndex.

(** What the body of one critical section does to the index. *)
Inductive t :=
  | Record (now : instant) (worker : WorkerId) (hash : N)
  | Touch (now : instant) (hash : N)
  | Retain (worker : WorkerId) (shard : nat)
  | Expire (now : instant) (ttl : duration) (shard : nat)
  | Remove (hash : N) (shard : nat)
  | ReadOnly.

(** Hold the write lock of shard [i] and apply [f]. *)
Definition on_shard (i : nat) (f : entries → entries) (idx : PrefixIndex.t) : PrefixIndex.t :=
  {| shards := alter f i (shards idx) |}.

Definition apply (a : t) (idx : PrefixIndex.t) : PrefixIndex.t :=
  match a with
  | Record now worker hash => record_block now worker idx hash
  | Touch now hash => touch now idx hash
  | Retain worker shard => on_shard shard (retain_worker worker) idx
  | Expire now ttl shard => on_shard shard (expire now ttl) idx
  | Remove hash shard => on_shard shard (delete hash) idx
  | ReadOnly => idx
  end.
End Section_.

(** ** Calls as threads *)

Module IndexThread.
Import PrefixIndex Section_.

Inductive call :=
  | CallRecord (worker : WorkerId) (chain : list N)
  | CallLongestMatch (worker : WorkerId) (chain : list N)
  | CallRemoveWorker (worker : WorkerId)
  | CallLen
  | CallEvict (ttl : duration) (max_entries : N).

Inductive answer :=
  | Recorded
  | Matched (blocks : nat)
  | Removed
  | Length (entries : nat)
  | Evicted (stats : EvictionStats).

(** A call between two critical sections, with its local variables. *)
Inductive t :=
  | Recording (now : instant) (worker : WorkerId) (chain : list N)
  (** The read pass, then the touch pass, of [longest_match]. *)
  | Matching (worker : WorkerId) (chain matched_hashes : list N)
  | Touching (now : instant) (matched : nat) (matched_hashes : list N)
  | Removing (worker : WorkerId) (shard : nat)
  | Counting (shard total : nat)
  (** The four loops of [evict]. *)
  | Expiring (now : instant) (ttl : duration) (max_entries : N) (shard expired : nat)
  | Totalling (max_entries : N) (expired shard total : nat)
  | Collecting (overflow expired shard : nat) (oldest : list (instant * N * nat))
  | Trimming (expired : nat) (oldest : list (instant * N * nat)) (lru_evicted : nat)
  | Returned (result : answer).

Definition start (now : instant) (c : call) : t :=
  match c with
  | CallRecord worker chain => Recording now worker chain
  | CallLongestMatch worker chain => Matching worker chain []
  | CallRemoveWorker worker => Removing worker 0
  | CallLen => Counting 0 0
  | CallEvict ttl max_entries => Expiring now ttl max_entries 0 0
  end.

Section machine.
Context {HM : HashMapOrder}.
Implicit Types (k : t) (idx : PrefixIndex.t) (now : instant).

(** The next critical section of a call: where it goes on, and what it does.
    [now] is the clock, for the readings that the code makes on the way. *)
Definition advance now k idx : option (t * Section_.t) :=
  match k with
  | Recording at_ worker (hash :: chain) =>
      Some (Recording at_ worker chain, Record at_ worker hash)
  | Recording _ _ [] => Some (Returned Recorded, ReadOnly)
  | Matching worker (hash :: chain) matched_hashes =>
      match shard hash idx !! hash with
      | Some entry =>
          if decide (worker ∈ ie_workers entry)
          then Some (Matching worker chain (matched_hashes ++ [hash]), ReadOnly)
          else Some (Touching now (length matched_hashes) matched_hashes, ReadOnly)
      | None => Some (Touching now (length matched_hashes) matched_hashes, ReadOnly)
      end
  | Matching _ [] matched_hashes =>
      Some (Touching now (length matched_hashes) matched_hashes, ReadOnly)
  | Touching at_ matched (hash :: rest) => Some (Touching at_ matched rest, Touch at_ hash)
  | Touching _ matched [] => Some (Returned (Matched matched), ReadOnly)
  | Removing worker shard =>
      if decide (shard < length (shards idx))
      then Some (Removing worker (S shard), Retain worker shard)
      else Some (Returned Removed, ReadOnly)
  | Counting shard total =>
      match shards idx !! shard with
      | Some es => Some (Counting (S shard) (total + size es), ReadOnly)
      | None => Some (Returned (Length total), ReadOnly)
      end
  | Expiring at_ ttl max_entries shard expired =>
      match shards idx !! shard with
      | Some es =>
          Some (Expiring at_ ttl max_entries (S shard)
                  (expired + (size es - size (expire at_ ttl es))), Expire at_ ttl shard)
      | None => Some (Totalling max_entries expired 0 0, ReadOnly)
      end
  | Totalling max_entries expired shard total =>
      match shards idx !! shard with
      | Some es => Some (Totalling max_entries expired (S shard) (total + size es), ReadOnly)
      | None =>
          if decide (N.of_nat total ≤ max_entries)%N
          then Some (Returned (Evicted {| expired := expired; lru_evicted := 0 |}), ReadOnly)
          else Some (Collecting (total - N.to_nat max_entries) expired 0 [], ReadOnly)
      end
  | Collecting overflow expired shard oldest =>
      match shards idx !! shard with
      | Some es =>
          Some (Collecting overflow expired (S shard)
                  (oldest ++ ((λ kv, (ie_last_touched kv.2, kv.1, shard)) <$> hm_iter es)), ReadOnly)
      | None =>
          Some (Trimming expired (take overflow (sort_by_key (λ x, x.1.1) oldest)) 0, ReadOnly)
      end
  | Trimming expired ((_, hash, shard) :: oldest) lru_evicted =>
      Some (Trimming expired oldest
              (if decide (is_Some (shards idx !! shard ≫= lookup hash))
               then S lru_evicted else lru_evicted), Remove hash shard)
  | Trimming expired [] lru_evicted =>
      Some (Returned (Evicted {| expired := expired; lru_evicted := lru_evicted |}), ReadOnly)
  | Returned _ => None
  end.

(** One step of a call on the index. *)
Definition step now k idx : option (t * PrefixIndex.t) :=
  '(k, a) ← advance now k idx; Some (k, apply a idx).

(** The call as the rest of the library has it, in one piece. *)
Definition execute now (c : call) idx : answer * PrefixIndex.t :=
  match c with
  | CallRecord worker chain => (Recorded, record now worker chain idx)
  | CallLongestMatch worker chain =>
      let '(matched, idx) := longest_match now worker chain idx in (Matched matched, idx)
  | CallRemoveWorker worker => (Removed, remove_worker worker idx)
  | CallLen => (Length (len idx), idx)
  | CallEvict ttl max_entries =>
      let '(stats, idx) := evict now ttl max_entries idx in (Evicted stats, idx)
  end.

(** Uninterrupted steps. *)
Inductive alone now : t * PrefixIndex.t → t * PrefixIndex.t → Prop :=
  | alone_refl x : alone now x x
  | alone_step k idx y z : step now k idx = Some y → alone now y z → alone now (k, idx) z.
End machine.
End IndexThread.

(** ** A call alone is the method *)

Module IndexAlone.
Import PrefixIndex Section_ IndexThread.

Section alone.
Context {HM : HashMapOrder} (now : instant).
Implicit Types (idx : PrefixIndex.t) (f : entries → entries).

#[local] Notation "x ⇝ y" := (alone now x y) (at level 70).

Lemma alone_trans x y z : x ⇝ y → y ⇝ z → x ⇝ z.
Proof. induction 1; eauto using alone_step. Qed.

Lemma alone_next k idx k' a z :
  advance now k idx = Some (k', a) → (k', apply a idx) ⇝ z → (k, idx) ⇝ z.
Proof. intros Hk. eapply alone_step. unfold step. by rewrite Hk. Qed.

(** A step that only reads. *)
Lemma alone_read k idx k' : advance now k idx = Some (k', ReadOnly) → (k, idx) ⇝ (k', idx).
Proof. intros Hk. eapply alone_next; [exact Hk|apply alone_refl]. Qed.

(** [f] on the shards from [i] on. *)
Definition from (i : nat) f (l : list entries) : list entries := take i l ++ (f <$> drop i l).

Lemma from_0 f l : from 0 f l = f <$> l.
Proof. done. Qed.

Lemma from_end i f l : length l ≤ i → from i f l = l.
Proof. intros Hi. unfold from. by rewrite drop_ge, take_ge, app_nil_r. Qed.

Lemma from_S i f l es : l !! i = Some es → from (S i) f (alter f i l) = from i f l.
Proof.
  intros Hi. unfold from. rewrite (take_S_r _ _ (f es)) by by rewrite list_lookup_alter_eq, Hi.
  rewrite take_alter, drop_alter, !decide_False by lia.
  rewrite (drop_S l es i Hi), fmap_cons. by rewrite <-app_assoc.
Qed.

Lemma alone_recording at_ w chain idx :
  (Recording at_ w chain, idx) ⇝ (Returned Recorded, record at_ w chain idx).
Proof.
  revert idx. induction chain as [|h chain IH]; intros idx; [by apply alone_read|].
  eapply alone_next; [done|apply IH].
Qed.

Lemma alone_touching at_ m hs idx :
  (Touching at_ m hs, idx) ⇝ (Returned (Matched m), foldl (touch at_) idx hs).
Proof.
  revert idx. induction hs as [|h hs IH]; intros idx; [by apply alone_read|].
  eapply alone_next; [done|apply IH].
Qed.

Lemma alone_matching w chain hs idx :
  let ms := hs ++ match_loop w chain idx in
  (Matching w chain hs, idx) ⇝ (Touching now (length ms) ms, idx).
Proof.
  revert hs. induction chain as [|h chain IH]; intros hs; cbn [match_loop].
  { rewrite app_nil_r. by apply alone_read. }
  destruct (shard h idx !! h) as [e|] eqn:He; [destruct (decide (w ∈ ie_workers e)) as [Hw|Hw]|].
  - specialize (IH (hs ++ [h])). rewrite <-app_assoc in IH.
    eapply alone_trans; [|exact IH]. apply alone_read. cbn [advance]. by rewrite He, decide_True.
  - rewrite app_nil_r. apply alone_read. cbn [advance]. by rewrite He, decide_False.
  - rewrite app_nil_r. apply alone_read. cbn [advance]. by rewrite He.
Qed.

Lemma alone_removing w i idx :
  (Removing w i, idx) ⇝ (Returned Removed, {| shards := from i (retain_worker w) (shards idx) |}).
Proof.
  remember (length (shards idx) - i) as n eqn:Hn. revert i idx Hn.
  induction n as [|n IH]; intros i idx Hn.
  - rewrite from_end by lia. destruct idx as [l]. apply alone_read.
    cbn [advance]. by rewrite decide_False by (cbn in *; lia).
  - destruct (lookup_lt_is_Some_2 (shards idx) i) as [es Hes]; [lia|].
    rewrite <-(from_S i _ _ es Hes).
    eapply (alone_next _ _ _ (Retain w i)); [cbn [advance]; by rewrite decide_True by lia|].
    apply (IH (S i) (on_shard i (retain_worker w) idx)). cbn. rewrite length_alter. lia.
Qed.

(** A loop over the shards from [i] on that only reads them. *)
Lemma alone_reading {B} (k : nat → B → t) (g : nat → B → entries → B) i b idx :
  (∀ i b es, shards idx !! i = Some es →
     advance now (k i b) idx = Some (k (S i) (g i b es), ReadOnly)) →
  (k i b, idx) ⇝
  (k (Nat.max i (length (shards idx)))
     (foldl (λ b x, g x.1 b x.2) b (drop i (imap pair (shards idx)))), idx).
Proof.
  intros Hk. remember (length (shards idx) - i) as n eqn:Hn. revert i b Hn.
  induction n as [|n IH]; intros i b Hn.
  - rewrite drop_ge by (rewrite length_imap; lia). replace (Nat.max _ _) with i by lia.
    apply alone_refl.
  - destruct (lookup_lt_is_Some_2 (shards idx) i) as [es Hes]; [lia|].
    eapply alone_next; [by apply Hk|]. cbn [apply].
    rewrite (drop_S _ (i, es)) by by rewrite list_lookup_imap, Hes. cbn [foldl].
    specialize (IH (S i) (g i b es) ltac:(lia)).
    replace (Nat.max i _) with (Nat.max (S i) (length (shards idx))) by lia. exact IH.
Qed.

Lemma foldl_sizes total (l : list entries) :
  foldl (λ b x, b + size x.2) total (imap pair l) = total + sum_list (size <$> l).
Proof.
  assert (Hf : ∀ f : nat → entries → nat * entries, (∀ i es, (f i es).2 = es) →
    foldl (λ b x, b + size x.2) total (imap f l) = total + sum_list (size <$> l)); [|by apply Hf].
  revert total. induction l as [|es l IH]; intros total f Hf; [simpl; lia|].
  rewrite imap_cons. cbn [foldl]. rewrite IH by (intros; apply Hf). rewrite Hf.
  change (sum_list (size <$> es :: l)) with (size es + sum_list (size <$> l)). lia.
Qed.

Lemma alone_counting idx : (Counting 0 0, idx) ⇝ (Returned (Length (len idx)), idx).
Proof.
  eapply alone_trans.
  - apply (alone_reading Counting (λ _ total es, total + size es)).
    intros i b es Hes. cbn [advance]. by rewrite Hes.
  - rewrite drop_0, foldl_sizes. apply alone_read. cbn [advance].
    by rewrite lookup_ge_None_2 by lia.
Qed.

Lemma alone_trimming expired oldest n idx :
  (Trimming expired oldest n, idx) ⇝
  (let '(idx, n) := foldl evict_one (idx, n) oldest in
   (Returned (Evicted {| Belief.expired := expired; lru_evicted := n |}), idx)).
Proof.
  revert n idx. induction oldest as [|[[at_ h] i] oldest IH]; intros n idx; [by apply alone_read|].
  eapply alone_next; [done|]. cbn [foldl evict_one apply].
  destruct (shards idx !! i) as [es|] eqn:Hi; cbn [mbind option_bind]; [apply IH|].
  replace (on_shard i (delete h) idx) with idx; [apply IH|].
  destruct idx as [l]. unfold on_shard. f_equal. apply list_eq. intros j. cbn in *.
  rewrite list_lookup_alter. case_decide; [subst; by rewrite Hi|done].
Qed.

(** The first pass of [evict]. *)
Lemma alone_expiring at_ ttl cap i expired idx :
  (Expiring at_ ttl cap i expired, idx) ⇝
  (Totalling cap
     (expired + sum_list (zip_with (λ before after, size before - size after)
        (drop i (shards idx)) (expire at_ ttl <$> drop i (shards idx)))) 0 0,
   {| shards := from i (expire at_ ttl) (shards idx) |}).
Proof.
  remember (length (shards idx) - i) as n eqn:Hn. revert i expired idx Hn.
  induction n as [|n IH]; intros i expired idx Hn.
  - rewrite from_end, drop_ge by lia. cbn. rewrite Nat.add_0_r. destruct idx as [l].
    apply alone_read. cbn [advance]. by rewrite lookup_ge_None_2 by (cbn in *; lia).
  - destruct (lookup_lt_is_Some_2 (shards idx) i) as [es Hes]; [lia|].
    eapply alone_next; [cbn [advance]; by rewrite Hes|].
    specialize (IH (S i) (expired + (size es - size (expire at_ ttl es)))
      (on_shard i (expire at_ ttl) idx) ltac:(cbn; rewrite length_alter; lia)).
    cbn [on_shard shards] in IH. rewrite (from_S i _ _ es Hes), drop_alter in IH.
    rewrite decide_False in IH by lia. rewrite (drop_S _ es i Hes). cbn [zip_with fmap list_fmap].
    change (sum_list (?x :: ?l)) with (x + sum_list l). rewrite Nat.add_assoc. exact IH.
Qed.

Lemma foldl_collect (l : list entries) :
  foldl (λ oldest x, oldest ++ ((λ kv, (ie_last_touched kv.2, kv.1, x.1)) <$> hm_iter x.2)) []
    (imap pair l) = collect {| shards := l |}.
Proof.
  unfold collect. cbn [shards]. rewrite <-(app_nil_l (mjoin _)).
  generalize (@nil (instant * N * nat)). 
  assert (Hf : ∀ (f : nat → nat) acc,
    foldl (λ oldest x, oldest ++ ((λ kv, (ie_last_touched kv.2, kv.1, x.1)) <$> hm_iter x.2)) acc
      (imap (λ i es, (f i, es)) l) =
    acc ++ mjoin (imap (λ i es, (λ kv, (ie_last_touched kv.2, kv.1, f i)) <$> hm_iter es) l));
    [|by apply (Hf id)].
  induction l as [|es l IH]; intros f acc; [by rewrite app_nil_r|].
  rewrite !imap_cons. cbn [foldl mjoin list_join fst snd]. rewrite app_assoc.
  apply (IH (λ i, f (S i))).
Qed.

Lemma alone_evicting at_ ttl cap idx :
  (Expiring at_ ttl cap 0 0, idx) ⇝
  (let '(stats, idx) := evict at_ ttl cap idx in (Returned (Evicted stats), idx)).
Proof.
  eapply alone_trans; [apply alone_expiring|]. rewrite drop_0, from_0. unfold evict.
  set (idx1 := {| shards := expire at_ ttl <$> shards idx |}). cbn [Nat.add].
  set (expired := sum_list _).
  eapply alone_trans.
  { apply (alone_reading (Totalling cap expired) (λ _ total es, total + size es)).
    intros i b es Hes. cbn [advance]. by rewrite Hes. }
  rewrite drop_0, foldl_sizes. change (0 + sum_list (size <$> shards idx1)) with (len idx1).
  case_decide as Hcap.
  { apply alone_read. cbn [advance]. by rewrite lookup_ge_None_2, decide_True by (lia || done). }
  eapply alone_next; [cbn [advance]; by rewrite lookup_ge_None_2, decide_False by (lia || done)|].
  cbn [apply]. eapply alone_trans.
  { apply (alone_reading (Collecting (len idx1 - N.to_nat cap) expired)
      (λ i oldest es, oldest ++ ((λ kv, (ie_last_touched kv.2, kv.1, i)) <$> hm_iter es))).
    intros i b es Hes. cbn [advance]. by rewrite Hes. }
  rewrite drop_0, foldl_collect. 
  eapply alone_next; [cbn [advance]; by rewrite lookup_ge_None_2 by lia|].
  cbn [apply]. eapply alone_trans; [apply alone_trimming|].
  destruct (foldl evict_one _ _). apply alone_refl.
Qed.

Lemma alone_execute c idx :
  (start now c, idx) ⇝ (Returned (execute now c idx).1, (execute now c idx).2).
Proof.
  destruct c as [w chain|w chain|w| |ttl cap]; cbn [start execute].
  - apply alone_recording.
  - eapply alone_trans; [apply alone_matching|]. apply alone_touching.
  - apply alone_removing.
  - apply alone_counting.
  - pose proof (alone_evicting now ttl cap idx) as He. by destruct (evict now ttl cap idx).
Qed.
End alone.
End IndexAlone.

(** ** What a critical section does to one entry *)

Module SectionEffect.
Import PrefixIndex ShardedRefinesFlat Section_.

Definition effect (a : t) (h : N) (o : option IndexEntry) : option IndexEntry :=
  match a with
  | Record now w h' => if decide (h = h') then Some (record_entry now w o) else o
  | Touch now h' => if decide (h = h') then touch_entry now <$> o else o
  | Retain w i => if decide (shard_index h = i) then o ≫= drop_worker w else o
  | Expire now ttl i =>
      if decide (shard_index h = i)
      then o ≫= λ e, if decide (fresh now ttl e) then Some e else None else o
  | Remove h' i => if decide (h = h' ∧ shard_index h = i) then None else o
  | ReadOnly => o
  end.

Lemma on_shard_refines (f : entries → entries) (g : N → option IndexEntry → option IndexEntry) i idx :
  (∀ es h, f es !! h = g h (es !! h)) → (∀ h, g h None = None) → sharded idx →
  sharded (on_shard i f idx) ∧
  (∀ h, flatten (on_shard i f idx) !! h =
        if decide (shard_index h = i) then g h (flatten idx !! h) else flatten idx !! h).
Proof.
  intros Hf Hg Hs.
  assert (Hs' : sharded (on_shard i f idx)).
  { split; cbn; [rewrite length_alter; apply Hs|]. intros j es h e.
    rewrite list_lookup_alter. case_decide as Hj; [subst j|by apply (sharded_index _ Hs)].
    intros (es' & Hes' & ->)%fmap_Some He. rewrite Hf in He.
    destruct (es' !! h) eqn:E; [|by rewrite Hg in He]. by eapply (sharded_index _ Hs). }
  split; [done|]. intros h. rewrite !lookup_flatten by done. unfold shard at 1. cbn.
  destruct (decide (shard_index h = i)) as [<-|Hi].
  - rewrite list_lookup_alter_eq, sharded_lookup by done. cbn. apply Hf.
  - rewrite list_lookup_alter_ne by done. by rewrite sharded_lookup.
Qed.

Lemma apply_refines a idx :
  sharded idx →
  sharded (apply a idx) ∧ ∀ h, flatten (apply a idx) !! h = effect a h (flatten idx !! h).
Proof.
  intros Hs. destruct a as [now w h'|now h'|w i|now ttl i|h' i|]; cbn [apply effect].
  - destruct (record_block_refines now w h' idx Hs) as [? ->]. split; [done|]. intros h.
    unfold FlatIndex.record_block. case_decide as Hd; subst;
      [by rewrite lookup_partial_alter_eq|by rewrite lookup_partial_alter_ne].
  - destruct (update_shard_refines (fmap (touch_entry now)) (alter (touch_entry now) h') h' idx)
      as [? He]; [done..|]. split; [done|]. intros h. unfold touch. rewrite He.
    case_decide as Hd; subst; [by rewrite lookup_partial_alter_eq|by rewrite lookup_partial_alter_ne].
  - apply (on_shard_refines _ (λ _ o, o ≫= drop_worker w)); [|done..].
    intros es h. apply lookup_omap.
  - apply (on_shard_refines _
      (λ _ o, o ≫= λ e, if decide (fresh now ttl e) then Some e else None)); [|done..].
    intros es h. apply EvictionRefines.lookup_fresh.
  - destruct (on_shard_refines (delete h') (λ h o, if decide (h = h') then None else o) i idx)
      as [? He]; [| |done|].
    { intros es h. rewrite lookup_delete. by destruct (decide (h' = h)), (decide (h = h')). }
    { intros h. by case_decide. }
    split; [done|]. intros h. rewrite He.
    destruct (decide (shard_index h = i)), (decide (h = h')); try done;
      first [by rewrite decide_True by done|by rewrite decide_False by tauto].
  - done.
Qed.

Lemma sharded_apply a idx : sharded idx → sharded (apply a idx).
Proof. intros Hs. by apply apply_refines. Qed.

Definition entry_holds (w : WorkerId) (o : option IndexEntry) : bool :=
  match o with Some e => bool_decide (w ∈ ie_workers e) | None => false end.

Lemma holds_apply a w h idx :
  sharded idx → holds (apply a idx) w h = entry_holds w (effect a h (flatten idx !! h)).
Proof.
  intros Hs. destruct (apply_refines a idx Hs) as [Hs' He].
  rewrite holds_flatten by done. unfold FlatIndex.holds. by rewrite He.
Qed.

(** The section records block [h] for worker [w]. *)
Definition records (w : WorkerId) (h : N) (a : t) : bool :=
  match a with Record _ w' h' => bool_decide (w' = w ∧ h' = h) | _ => false end.

(** The section takes no block from worker [w]. *)
Definition spares (w : WorkerId) (a : t) : bool :=
  match a with
  | Retain w' _ => bool_decide (w' ≠ w)
  | Expire _ _ _ | Remove _ _ => false
  | _ => true
  end.

Lemma entry_holds_record now w w' o :
  entry_holds w (Some (record_entry now w' o)) = bool_decide (w' = w) || entry_holds w o.
Proof.
  apply eq_true_iff_eq. rewrite orb_true_iff, bool_decide_eq_true. unfold entry_holds at 1.
  rewrite bool_decide_eq_true, FlatIndex.record_entry_workers.
  destruct o as [e|]; cbn; rewrite ?bool_decide_eq_true, ?elem_of_nil; naive_solver.
Qed.

Lemma entry_holds_drop w w' o :
  entry_holds w (o ≫= drop_worker w') = entry_holds w o && negb (bool_decide (w' = w)).
Proof.
  destruct o as [e|]; [|done]. cbn [mbind option_bind].
  pose proof (FlatIndex.drop_worker_spec w' e) as Hd. apply eq_true_iff_eq. cbn.
  rewrite andb_true_iff, negb_true_iff, bool_decide_eq_true, bool_decide_eq_false.
  destruct (drop_worker w' e) as [e'|]; cbn.
  - destruct Hd as (-> & _ & _). rewrite bool_decide_eq_true, list_elem_of_filter. naive_solver.
  - split; [done|]. intros [Hin Hne]. by apply Hd in Hin.
Qed.

(** No belief appears that the section did not record. *)
Lemma holds_apply_new a w h idx :
  sharded idx → holds (apply a idx) w h = true → holds idx w h = true ∨ records w h a = true.
Proof.
  intros Hs. rewrite holds_apply, (holds_flatten idx) by done. change (FlatIndex.holds _ w h) with
    (entry_holds w (flatten idx !! h)). generalize (flatten idx !! h) as o. intros o.
  destruct a as [now w' h'|now h'|w' i|now ttl i|h' i|]; cbn [effect records];
    try case_decide; subst; auto.
  - rewrite entry_holds_record, orb_true_iff, !bool_decide_eq_true. naive_solver.
  - destruct o; auto.
  - rewrite entry_holds_drop, andb_true_iff. tauto.
  - destruct o as [e|]; cbn; [|done]. case_decide; [auto|done].
Qed.

Lemma holds_apply_keep a w h idx :
  sharded idx → spares w a = true → holds idx w h = true → holds (apply a idx) w h = true.
Proof.
  intros Hs Ha. rewrite holds_apply, (holds_flatten idx) by done. change (FlatIndex.holds _ w h) with
    (entry_holds w (flatten idx !! h)). generalize (flatten idx !! h) as o. intros o Ho.
  destruct a as [now w' h'|now h'|w' i|now ttl i|h' i|]; cbn [effect spares] in *;
    try done.
  - case_decide; [|done]. by rewrite entry_holds_record, Ho, orb_true_r.
  - case_decide; [by destruct o|done].
  - apply bool_decide_eq_true in Ha. destruct (decide (shard_index h = i)); [|done].
    by rewrite entry_holds_drop, Ho, bool_decide_false.
Qed.

Lemma holds_apply_record a w h idx :
  sharded idx → records w h a = true → holds (apply a idx) w h = true.
Proof.
  intros Hs. rewrite holds_apply by done. destruct a as [now w' h'| | | | |]; try done.
  cbn [records effect]. intros [-> ->]%bool_decide_eq_true. rewrite decide_True by done.
  by rewrite entry_holds_record, bool_decide_true.
Qed.

Lemma holds_apply_retain w h idx :
  sharded idx → holds (apply (Retain w (shard_index h)) idx) w h = false.
Proof.
  intros Hs. rewrite holds_apply by done. cbn [effect]. rewrite decide_True by done.
  by rewrite entry_holds_drop, bool_decide_true, andb_false_r.
Qed.
End SectionEffect.

(** ** A call among others *)

Module Interference.
Import PrefixIndex ShardedRefinesFlat Section_ IndexThread SectionEffect.

Section during.
Context {HM : HashMapOrder}.
Implicit Types (k : IndexThread.t) (idx : PrefixIndex.t) (es : list Section_.t).

(** Call [k] runs, with a clock that may read anything, while others execute the
    sections [es] between its own. *)
Inductive during : IndexThread.t → PrefixIndex.t → list Section_.t →
    IndexThread.t → PrefixIndex.t → Prop :=
  | during_refl k idx : during k idx [] k idx
  | during_own now k idx k1 a es k2 idx2 :
      advance now k idx = Some (k1, a) → during k1 (apply a idx) es k2 idx2 →
      during k idx es k2 idx2
  | during_other a k idx es k2 idx2 :
      during k (apply a idx) es k2 idx2 → during k idx (a :: es) k2 idx2.

Lemma during_snoc_own now k idx es k1 idx1 k2 a :
  during k idx es k1 idx1 → advance now k1 idx1 = Some (k2, a) →
  during k idx es k2 (apply a idx1).
Proof. induction 1; eauto using during_refl, during_own, during_other. Qed.

Lemma during_snoc_other k idx es k1 idx1 a :
  during k idx es k1 idx1 → during k idx (es ++ [a]) k1 (apply a idx1).
Proof. induction 1; cbn [app]; eauto using during_refl, during_own, during_other. Qed.

Lemma sharded_during k idx es k' idx' : during k idx es k' idx' → sharded idx → sharded idx'.
Proof. induction 1; eauto using sharded_apply. Qed.

(** Someone recorded block [h] for worker [w]. *)
Definition recorded (w : WorkerId) (h : N) es : bool := existsb (records w h) es.

(** What a step of a recording call records. *)
Definition will_record k (w : WorkerId) (h : N) : Prop :=
  match k with Recording _ w' chain => w' = w ∧ h ∈ chain | _ => False end.

Lemma advance_records now k idx k' a w h :
  advance now k idx = Some (k', a) →
  (records w h a = true → will_record k w h) ∧ (will_record k' w h → will_record k w h).
Proof.
  destruct k as [at_ w' [|h' ch]|w' [|h' ch] hs|at_ m [|h' hs]|w' i|i n|at_ ttl cap i n
    |cap n i tot|ov n i old|n [|[[t h'] i] old] m|r]; cbn; intros Hk; repeat case_match;
    try done; injection Hk as <- <-; cbn; try done.
  rewrite bool_decide_eq_true, elem_of_cons. naive_solver.
Qed.

(** Beliefs do not come out of thin air. *)
Lemma during_new k idx es k' idx' w h :
  during k idx es k' idx' → sharded idx → holds idx' w h = true →
  holds idx w h = true ∨ recorded w h es = true ∨ will_record k w h.
Proof.
  induction 1 as [k idx|now k idx k1 a es k2 idx2 Hk _ IH|a k idx es k2 idx2 _ IH]; intros Hs Hh.
  - by left.
  - destruct (advance_records now k idx k1 a w h Hk) as [Hr Hw].
    destruct (IH (sharded_apply a idx Hs) Hh) as [Hh'|[?|?]]; [|auto..].
    apply holds_apply_new in Hh' as [?|?]; auto.
  - destruct (IH (sharded_apply a idx Hs) Hh) as [Hh'|[Hr|?]]; [| |auto].
    + apply holds_apply_new in Hh' as [?|Hr]; [auto| |done].
      right; left. unfold recorded. cbn. by rewrite Hr.
    + right; left. unfold recorded in *. cbn. by rewrite Hr, orb_true_r.
Qed.

(** A call that takes nothing from worker [w]. *)
Definition gentle (w : WorkerId) k : bool :=
  match k with
  | Removing w' _ => bool_decide (w' ≠ w)
  | Expiring _ _ _ _ _ | Totalling _ _ _ _ | Collecting _ _ _ _ | Trimming _ _ _ => false
  | _ => true
  end.

Lemma advance_gentle now k idx k' a w :
  advance now k idx = Some (k', a) → gentle w k = true → gentle w k' = true ∧ spares w a = true.
Proof.
  destruct k as [at_ w' [|h' ch]|w' [|h' ch] hs|at_ m [|h' hs]|w' i|i n|at_ ttl cap i n
    |cap n i tot|ov n i old|n [|[[t h'] i] old] m|r]; cbn; intros Hk Hg; repeat case_match;
    try done; injection Hk as <- <-; done.
Qed.

(** Beliefs about [w] last as long as nobody takes them. *)
Lemma during_keep k idx es k' idx' w h :
  during k idx es k' idx' → sharded idx → gentle w k = true → Forall (λ a, spares w a = true) es →
  holds idx w h = true → holds idx' w h = true.
Proof.
  induction 1 as [k idx|now k idx k1 a es k2 idx2 Hk _ IH|a k idx es k2 idx2 _ IH];
    intros Hs Hg He Hh; [done| |].
  - destruct (advance_gentle _ _ _ _ _ w Hk Hg) as [Hg1 Ha].
    apply IH; [by apply sharded_apply|done|done|by apply holds_apply_keep].
  - apply Forall_cons in He as [Ha He].
    apply IH; [by apply sharded_apply|done|done|by apply holds_apply_keep].
Qed.

(** *** [record] *)

(** Blocks of [chain] that are not in the rest are held. *)
Definition recording (w : WorkerId) (chain : list N) k idx : Prop :=
  match k with
  | Recording _ w' rest => w' = w ∧ ∀ h, h ∈ chain → h ∈ rest ∨ holds idx w h = true
  | Returned Recorded => ∀ h, h ∈ chain → holds idx w h = true
  | _ => False
  end.

Lemma during_recording w chain k idx es k' idx' :
  during k idx es k' idx' → sharded idx → Forall (λ a, spares w a = true) es →
  recording w chain k idx → recording w chain k' idx'.
Proof.
  induction 1 as [k idx|now k idx k1 a es k2 idx2 Hk _ IH|a k idx es k2 idx2 _ IH];
    intros Hs He Hr; [done| |].
  - apply IH; [by apply sharded_apply|done|]. unfold recording in Hr.
    destruct k as [at_ w' [|h' rest]| | | | | | | | |[]]; try done; injection Hk as <- <-.
    + destruct Hr as [-> Hr]. intros h [Hh%elem_of_nil|Hh]%Hr; done.
    + destruct Hr as [-> Hr]. split; [done|]. intros h [[->|Hh]%elem_of_cons|Hh]%Hr.
      * right. apply holds_apply_record; [done|]. cbn. by apply bool_decide_eq_true.
      * by left.
      * right. by apply holds_apply_keep.
  - apply Forall_cons in He as [Ha He]. apply IH; [by apply sharded_apply|done|].
    destruct k as [at_ w' rest| | | | | | | | |[]]; try done.
    + destruct Hr as [-> Hr]. split; [done|].
      intros h [Hh|Hh]%Hr; [by left|right]. by apply holds_apply_keep.
    + intros h Hh%Hr. by apply holds_apply_keep.
Qed.

(** *** [longest_match] *)

Lemma held_prefix_mono f g (chain : list N) :
  (∀ h, f h = true → g h = true) → held_prefix f chain ≤ held_prefix g chain.
Proof.
  intros Hfg. induction chain as [|h chain IH]; [done|]. cbn.
  destruct (f h) eqn:Hf; [|lia]. rewrite (Hfg h Hf). lia.
Qed.

Lemma held_prefix_app f (ms rest : list N) :
  length ms ≤ held_prefix f (ms ++ rest) →
  held_prefix f (ms ++ rest) = length ms + held_prefix f rest.
Proof.
  induction ms as [|h ms IH]; [done|]. cbn. destruct (f h); [|lia].
  intros Hle. rewrite IH; lia.
Qed.

(** What the answer [m] is at most, and at least, given what is held by [f]. *)
Definition at_most (f : N → bool) (m : nat) k : Prop :=
  match k with
  | Matching _ rest ms => m ≤ length ms + held_prefix f rest
  | Touching _ n _ | Returned (Matched n) => m ≤ n
  | _ => True
  end.

Definition at_least (f : N → bool) (m : nat) k : Prop :=
  match k with
  | Matching _ rest ms => length ms + held_prefix f rest ≤ m
  | Touching _ n _ | Returned (Matched n) => n ≤ m
  | _ => True
  end.

Definition matches (w : WorkerId) k : Prop :=
  match k with Matching w' _ _ => w' = w | _ => True end.

Lemma advance_matches now k idx k' a w :
  advance now k idx = Some (k', a) → matches w k → matches w k'.
Proof.
  destruct k as [at_ w' [|h' ch]|w' [|h' ch] hs|at_ m [|h' hs]|w' i|i n|at_ ttl cap i n
    |cap n i tot|ov n i old|n [|[[t h'] i] old] m|r]; cbn; intros Hk Hm; repeat case_match;
    try done; injection Hk as <- <-; done.
Qed.

Lemma at_most_mono f g m k : (∀ h, f h = true → g h = true) → at_most f m k → at_most g m k.
Proof.
  intros Hfg. destruct k; try done. cbn. pose proof (held_prefix_mono f g chain Hfg). lia.
Qed.

Lemma at_least_mono f g m k : (∀ h, g h = true → f h = true) → at_least f m k → at_least g m k.
Proof.
  intros Hfg. destruct k; try done. cbn. pose proof (held_prefix_mono g f chain Hfg). lia.
Qed.

(** The step that decides about a block. *)
Lemma advance_matching now w rest ms idx k' a :
  advance now (Matching w rest ms) idx = Some (k', a) →
  a = ReadOnly ∧
  ((∃ h rest', rest = h :: rest' ∧ holds idx w h = true ∧ k' = Matching w rest' (ms ++ [h])) ∨
   (∀ f, (∀ h, f h = true → holds idx w h = true) → held_prefix f rest = 0) ∧
   k' = Touching now (length ms) ms).
Proof.
  cbn. destruct rest as [|h rest]; [intros [= <- <-]; by auto|]. unfold holds.
  destruct (shard h idx !! h) as [e|] eqn:He; [destruct (decide (w ∈ ie_workers e))|];
    intros [= <- <-]; (split; [done|]).
  - left. exists h, rest. rewrite He, bool_decide_true by done. done.
  - right. split; [|done]. intros f Hf. cbn. destruct (f h) eqn:E; [|done].
    specialize (Hf h E). rewrite He in Hf. by apply bool_decide_eq_true in Hf.
  - right. split; [|done]. intros f Hf. cbn. destruct (f h) eqn:E; [|done].
    specialize (Hf h E). by rewrite He in Hf.
Qed.

Lemma during_at_most w m k idx es k' idx' :
  during k idx es k' idx' → sharded idx → k' = Returned (Matched m) → matches w k →
  at_most (λ h, holds idx w h || recorded w h es) m k.
Proof.
  induction 1 as [k idx|now k idx k1 a es k2 idx2 Hk _ IH|a k idx es k2 idx2 _ IH];
    intros Hs Hk' Hm; [subst; cbn; lia| |].
  - specialize (IH (sharded_apply a idx Hs) Hk' (advance_matches _ _ _ _ _ w Hk Hm)).
    destruct k as [|w' rest ms|at_ n [|h hs]| | | | | | |]; try done; [|injection Hk as <- <-; exact IH..].
    cbn in Hm. subst w'. apply advance_matching in Hk as [-> [(h & rest' & -> & Hh & ->)|[_ ->]]].
    + cbn in IH |- *. rewrite Hh. cbn. rewrite length_app in IH. cbn in IH. lia.
    + cbn in IH |- *. lia.
  - eapply at_most_mono; [|apply IH; [by apply sharded_apply|done..]]. intros h.
    cbn. rewrite !orb_true_iff. intros [Hh|?]; [|by auto].
    apply holds_apply_new in Hh as [?|?]; auto.
Qed.

Lemma during_at_least w m k idx es k' idx' :
  during k idx es k' idx' → sharded idx → k' = Returned (Matched m) → matches w k →
  Forall (λ a, spares w a = true) es → at_least (holds idx w) m k.
Proof.
  induction 1 as [k idx|now k idx k1 a es k2 idx2 Hk _ IH|a k idx es k2 idx2 _ IH];
    intros Hs Hk' Hm He; [subst; cbn; lia| |].
  - specialize (IH (sharded_apply a idx Hs) Hk' (advance_matches _ _ _ _ _ w Hk Hm) He).
    destruct k as [|w' rest ms|at_ n [|h hs]| | | | | | |]; try done; [|injection Hk as <- <-; exact IH..].
    cbn in Hm. subst w'. apply advance_matching in Hk as [-> [(h & rest' & -> & Hh & ->)|[Hz ->]]].
    + cbn in IH |- *. rewrite Hh. rewrite length_app in IH. cbn in IH. lia.
    + cbn in IH |- *. rewrite Hz by done. lia.
  - apply Forall_cons in He as [Ha He]. eapply at_least_mono; [|apply IH; [by apply sharded_apply|done..]].
    intros h. by apply holds_apply_keep.
Qed.

(** What has been counted so far is held. *)
Definition credited (w : WorkerId) (chain : list N) k idx : Prop :=
  match k with
  | Matching w' rest ms =>
      w' = w ∧ chain = ms ++ rest ∧ length ms ≤ held_prefix (holds idx w) chain
  | Touching _ n _ | Returned (Matched n) => n ≤ held_prefix (holds idx w) chain
  | _ => False
  end.

Lemma credited_mono w chain k idx idx' :
  (∀ h, holds idx w h = true → holds idx' w h = true) →
  credited w chain k idx → credited w chain k idx'.
Proof.
  intros Hh. pose proof (held_prefix_mono _ _ chain Hh).
  destruct k as [| | | | | | | | |[]]; cbn; try done; [intros (? & ? & ?); split_and!; [done..|]|..]; lia.
Qed.

Lemma during_credited w chain k idx es k' idx' :
  during k idx es k' idx' → sharded idx → Forall (λ a, spares w a = true) es →
  credited w chain k idx → credited w chain k' idx'.
Proof.
  induction 1 as [k idx|now k idx k1 a es k2 idx2 Hk _ IH|a k idx es k2 idx2 _ IH];
    intros Hs He Hc; [done| |].
  - apply IH; [by apply sharded_apply|done|].
    destruct k as [|w' rest ms|at_ n [|h hs]| | | | | | |]; try done.
    + destruct Hc as (-> & -> & Hc).
      apply advance_matching in Hk as [-> [(h & rest' & -> & Hh & ->)|[_ ->]]]; [|done].
      cbn. split_and!; [done|by rewrite <-app_assoc|].
      rewrite (held_prefix_app _ _ _ Hc), length_app. cbn. rewrite Hh. lia.
    + by injection Hk as <- <-.
    + injection Hk as <- <-. eapply credited_mono, Hc. intros h'. by apply holds_apply_keep.
  - apply Forall_cons in He as [Ha He]. apply IH; [by apply sharded_apply|done|].
    eapply credited_mono, Hc. intros h. by apply holds_apply_keep.
Qed.

(** *** [remove_worker] *)

Definition removing (w : WorkerId) k idx : Prop :=
  match k with
  | Removing w' i => w' = w ∧ ∀ h, holds idx w h = true → i ≤ shard_index h
  | Returned Removed => ∀ h, holds idx w h = false
  | _ => False
  end.

Lemma removing_other w k a idx :
  sharded idx → (∀ h, records w h a = false) → removing w k idx → removing w k (apply a idx).
Proof.
  intros Hs Ha Hr.
  assert (Hh : ∀ h, holds (apply a idx) w h = true → holds idx w h = true).
  { intros h [?|Hrec]%holds_apply_new; [done| |done]. by rewrite Ha in Hrec. }
  destruct k as [| | |w' i| | | | | |[]]; try done; cbn in *.
  - destruct Hr as [-> Hr]. split; [done|]. intros h Hh'. by apply Hr, Hh.
  - intros h. specialize (Hr h). destruct (holds (apply a idx) w h) eqn:E; [|done].
    by rewrite (Hh h E) in Hr.
Qed.

Lemma during_removing w k idx es k' idx' :
  during k idx es k' idx' → sharded idx → (∀ h, recorded w h es = false) →
  removing w k idx → removing w k' idx'.
Proof.
  induction 1 as [k idx|now k idx k1 a es k2 idx2 Hk _ IH|a k idx es k2 idx2 _ IH];
    intros Hs He Hr; [done| |].
  - apply IH; [by apply sharded_apply|done|].
    destruct k as [| | |w' i| | | | | |[]]; try done. destruct Hr as [-> Hr]. cbn in Hk.
    case_decide as Hi; injection Hk as <- <-.
    + split; [done|]. intros h Hh.
      assert (Hle : i ≤ shard_index h).
      { apply Hr. by apply holds_apply_new in Hh as [?|?]. }
      destruct (decide (i = shard_index h)) as [->|]; [|lia].
      by rewrite holds_apply_retain in Hh.
    + intros h. destruct (holds idx w h) eqn:E; [|done]. specialize (Hr h E).
      pose proof (shard_index_lt h). rewrite (sharded_length _ Hs) in Hi. lia.
  - apply IH; [by apply sharded_apply| |].
    + intros h. specialize (He h). unfold recorded in *. cbn in He. by apply orb_false_iff in He as [_ ?].
    + apply removing_other; [done| |done]. intros h. specialize (He h).
      unfold recorded in He. cbn in He. by apply orb_false_iff in He as [? _].
Qed.

(** *** [evict] *)

(** The blocks that have an entry. *)
Definition blocks idx : gset N := dom (flatten idx).

Lemma size_blocks idx : sharded idx → size (blocks idx) = len idx.
Proof. intros Hs. unfold blocks. by rewrite size_dom, EvictionRefines.len_flatten. Qed.

(** The block whose entry a section may create. *)
Definition added (a : Section_.t) : gset N :=
  match a with Record _ _ h => {[h]} | _ => ∅ end.

Lemma blocks_apply a idx : sharded idx → blocks (apply a idx) ⊆ blocks idx ∪ added a.
Proof.
  intros Hs h. unfold blocks. rewrite elem_of_union, !elem_of_dom.
  destruct (apply_refines a idx Hs) as [_ ->].
  destruct a as [now w h'|now h'|w i|now ttl i|h' i|]; cbn [effect added]; try case_decide;
    subst; auto.
  - rewrite elem_of_singleton. auto.
  - rewrite fmap_is_Some. auto.
  - intros [e (e' & He & _)%bind_Some]. left. by exists e'.
  - intros [e (e' & He & _)%bind_Some]. left. by exists e'.
  - by intros [? ?].
Qed.

Section filters.
Context (P Q : N → Prop) `{∀ h, Decision (P h)} `{∀ h, Decision (Q h)}.
Implicit Types (X Y : gset N).

Lemma size_filter_union X Y : size (filter P (X ∪ Y)) ≤ size (filter P X) + size (filter P Y).
Proof.
  transitivity (size (filter P X ∪ filter P Y)); [apply subseteq_size; set_solver|].
  rewrite size_union_alt. pose proof (subseteq_size (filter P Y ∖ filter P X) (filter P Y) ltac:(set_solver)). lia.
Qed.

Lemma size_filter_le X : size (filter P X) ≤ size X.
Proof. apply subseteq_size. intros h. rewrite elem_of_filter. tauto. Qed.

Lemma size_filter_none X : (∀ h, ¬ P h) → size (filter P X) = 0.
Proof.
  intros Hn. apply size_empty_iff. intros h. rewrite elem_of_filter. set_solver.
Qed.

Lemma size_filter_sub X Y : X ⊆ Y → size (filter P X) ≤ size (filter P Y).
Proof. intros HX. apply subseteq_size. set_solver. Qed.

Lemma size_filter_split X R `{∀ h, Decision (R h)} :
  (∀ h, P h → Q h → False) → (∀ h, P h ∨ Q h → R h) →
  size (filter P X) + size (filter Q X) ≤ size (filter R X).
Proof. intros Hd Hr. rewrite <-size_union by set_solver. apply subseteq_size. set_solver. Qed.

(** Two disjoint parts of a set. *)
Lemma size_filter_parts X :
  (∀ h, P h → Q h → False) → size (filter P X) + size (filter Q X) ≤ size X.
Proof.
  intros Hd. rewrite <-size_union by set_solver. apply subseteq_size. set_solver.
Qed.

Lemma size_filter_or X R `{∀ h, Decision (R h)} :
  (∀ h, R h → P h ∨ Q h) → size (filter R X) ≤ size (filter P X) + size (filter Q X).
Proof.
  intros Hr. transitivity (size (filter P X ∪ filter Q X)); [apply subseteq_size; set_solver|].
  rewrite size_union_alt. pose proof (subseteq_size (filter Q X ∖ filter P X) (filter Q X) ltac:(set_solver)). lia.
Qed.
End filters.

Lemma size_filter_apply (P : N → Prop) `{∀ h, Decision (P h)} a idx :
  sharded idx →
  size (filter P (blocks (apply a idx))) ≤ size (filter P (blocks idx)) + size (filter P (added a)).
Proof.
  intros Hs. etrans; [|apply size_filter_union]. apply size_filter_sub. by apply blocks_apply.
Qed.

Lemma size_list_to_set_le (l : list N) : size (list_to_set l : gset N) ≤ length l.
Proof.
  induction l as [|x l IH]; [done|]. cbn [list_to_set length]. rewrite size_union_alt.
  pose proof (subseteq_size (list_to_set l ∖ {[x]}) (list_to_set l : gset N) ltac:(set_solver)).
  rewrite size_singleton. lia.
Qed.

(** A shard has the blocks of its index. *)
Lemma blocks_shard idx i en :
  sharded idx → shards idx !! i = Some en →
  filter (λ h, shard_index h = i) (blocks idx) = dom en.
Proof.
  intros Hs Hi. apply set_eq. intros h. unfold blocks.
  rewrite elem_of_filter, !elem_of_dom, lookup_flatten by done. split.
  - intros [<- Hh]. rewrite sharded_lookup in Hi by done. by injection Hi as <-.
  - intros [e He]. assert (i = shard_index h) as -> by by eapply (sharded_index _ Hs).
    rewrite sharded_lookup in Hi by done. injection Hi as <-. split; [done|by exists e].
Qed.

Lemma size_shard idx i en :
  sharded idx → shards idx !! i = Some en →
  size (filter (λ h, shard_index h = i) (blocks idx)) = size en.
Proof. intros Hs Hi. by rewrite (blocks_shard idx i en), size_dom. Qed.

Lemma shards_end idx i h : sharded idx → shards idx !! i = None → shard_index h < i.
Proof.
  intros Hs Hi. apply lookup_ge_None_1 in Hi. rewrite (sharded_length _ Hs) in Hi.
  pose proof (shard_index_lt h). lia.
Qed.

Abbreviation hashes oldest := ((λ x : instant * N * nat, x.1.2) <$> oldest).

Definition placed (x : instant * N * nat) : Prop := x.2 = shard_index x.1.2.

(** How many entries the sweep leaves at most, when [n] may have been added by
    others since it began. *)
Definition bounded (cap : nat) k idx (n : nat) : Prop :=
  match k with
  | Expiring _ _ c _ _ => N.to_nat c = cap
  | Totalling c _ i total =>
      N.to_nat c = cap ∧ size (filter (λ h, shard_index h < i) (blocks idx)) ≤ total + n
  | Collecting overflow _ i oldest =>
      Forall placed oldest ∧
      (length oldest + size (filter (λ h, i ≤ shard_index h) (blocks idx)) - overflow) +
        size (filter (λ h, shard_index h < i ∧ h ∉ hashes oldest) (blocks idx)) ≤ cap + n
  | Trimming _ rest _ =>
      Forall placed rest ∧ size (filter (λ h, h ∉ hashes rest) (blocks idx)) ≤ cap + n
  | Returned (Evicted _) => size (blocks idx) ≤ cap + n
  | _ => False
  end.

Lemma bounded_other cap k idx n a :
  sharded idx → bounded cap k idx n → bounded cap k (apply a idx) (n + size (added a)).
Proof.
  intros Hs. destruct k as [| | | | |at_ ttl c i e|c e i total|ov e i oldest|e rest m|[]]; cbn; try done.
  - intros [Hc Hb]. split; [done|].
    pose proof (size_filter_apply (λ h, shard_index h < i) a idx Hs).
    pose proof (size_filter_le (λ h, shard_index h < i) (added a)).
    lia.
  - intros [Hp Hb]. split; [done|].
    pose proof (size_filter_apply (λ h, i ≤ shard_index h) a idx Hs).
    pose proof (size_filter_apply (λ h, shard_index h < i ∧ h ∉ hashes oldest) a idx Hs).
    pose proof (size_filter_parts (λ h, i ≤ shard_index h)
      (λ h, shard_index h < i ∧ h ∉ hashes oldest) (added a) ltac:(cbv beta; intros ? ? [? _]; lia)). lia.
  - intros [Hp Hb]. split; [done|].
    pose proof (size_filter_apply (λ h, h ∉ hashes rest) a idx Hs).
    pose proof (size_filter_le (λ h, h ∉ hashes rest) (added a)).
    lia.
  - intros Hb. pose proof (subseteq_size _ _ (blocks_apply a idx Hs)) as Hu.
    rewrite size_union_alt in Hu.
    pose proof (subseteq_size (added a ∖ blocks idx) (added a) ltac:(set_solver)). lia.
Qed.

Lemma bounded_total cap c e i total idx n en :
  sharded idx → shards idx !! i = Some en → bounded cap (Totalling c e i total) idx n →
  bounded cap (Totalling c e (S i) (total + size en)) idx n.
Proof.
  intros Hs Hi [Hc Hb]. split; [done|].
  pose proof (size_filter_or (λ h, shard_index h < i) (λ h, shard_index h = i) (blocks idx)
    (λ h, shard_index h < S i) ltac:(cbv beta; intros; lia)) as Ho.
  rewrite (size_shard idx i en Hs Hi) in Ho. lia.
Qed.

(** The sizes are summed up. *)
Lemma bounded_totalled cap c e i total idx n :
  sharded idx → shards idx !! i = None → bounded cap (Totalling c e i total) idx n →
  size (blocks idx) ≤ total + n.
Proof.
  intros Hs Hi [_ Hb]. etrans; [|exact Hb]. apply subseteq_size. intros h Hh.
  apply elem_of_filter. split; [by eapply shards_end|done].
Qed.

Lemma bounded_collect cap ov e i oldest idx n en :
  sharded idx → shards idx !! i = Some en → bounded cap (Collecting ov e i oldest) idx n →
  bounded cap (Collecting ov e (S i)
    (oldest ++ ((λ kv, (ie_last_touched kv.2, kv.1, i)) <$> hm_iter en))) idx n.
Proof.
  intros Hs Hi [Hp Hb].
  assert (Hes : ∀ h, h ∈ hashes ((λ kv, (ie_last_touched kv.2, kv.1, i)) <$> hm_iter en) ↔
    h ∈ blocks idx ∧ shard_index h = i).
  { intros h. transitivity (h ∈ dom en).
    - rewrite <-list_fmap_compose, elem_of_dom, list_elem_of_fmap. split.
      + intros ([h' x] & -> & Hx%elem_of_hm_iter). by exists x.
      + intros [x Hx]. exists (h, x). by rewrite elem_of_hm_iter.
    - rewrite <-(blocks_shard idx i en Hs Hi), elem_of_filter. tauto. }
  split.
  - apply Forall_app. split; [done|]. apply Forall_forall. intros x Hx.
    destruct (Hes x.1.2) as [H1 _]. unfold placed.
    destruct H1 as [_ ->]; [by apply list_elem_of_fmap; exists x|].
    by apply list_elem_of_fmap in Hx as (kv & -> & _).
  - rewrite length_app, length_fmap, length_hm_iter.
    pose proof (size_filter_split (λ h, shard_index h = i) (λ h, S i ≤ shard_index h) (blocks idx)
      (λ h, i ≤ shard_index h) ltac:(cbv beta; intros; lia) ltac:(cbv beta; intros; lia)) as Hq.
    rewrite (size_shard idx i en Hs Hi) in Hq.
    assert (Hr : size (filter (λ h, shard_index h < S i ∧ h ∉ hashes (oldest ++
        ((λ kv, (ie_last_touched kv.2, kv.1, i)) <$> hm_iter en))) (blocks idx)) ≤
      size (filter (λ h, shard_index h < i ∧ h ∉ hashes oldest) (blocks idx))); [|lia].
    apply subseteq_size. intros h. rewrite !elem_of_filter, fmap_app, not_elem_of_app, Hes.
    intros [(Hi' & Ho & Hn) Hb']. split; [|done]. split; [|done].
    destruct (decide (shard_index h = i)); [tauto|lia].
Qed.

(** The oldest [ov] of what was collected are about to go. *)
Lemma bounded_trim cap ov e i oldest idx n :
  sharded idx → shards idx !! i = None → bounded cap (Collecting ov e i oldest) idx n →
  bounded cap (Trimming e (take ov (sort_by_key (λ x, x.1.1) oldest)) 0) idx n.
Proof.
  intros Hs Hi [Hp Hb]. set (sorted := sort_by_key _ oldest).
  assert (Hperm : sorted ≡ₚ oldest) by apply sort_by_key_perm. split.
  - apply Forall_forall. intros x Hx. rewrite Forall_forall in Hp. apply Hp.
    rewrite <-Hperm. rewrite <-(take_drop ov sorted). set_solver.
  - pose proof (size_filter_or (λ h, shard_index h < i ∧ h ∉ hashes oldest)
      (λ h, h ∈ hashes (drop ov sorted)) (blocks idx) (λ h, h ∉ hashes (take ov sorted))) as Ho.
    assert (Hdrop : size (filter (λ h, h ∈ hashes (drop ov sorted)) (blocks idx)) ≤
      length oldest - ov).
    { transitivity (size (list_to_set (hashes (drop ov sorted)) : gset N)).
      - apply subseteq_size. intros h. rewrite elem_of_filter, elem_of_list_to_set. tauto.
      - etrans; [apply size_list_to_set_le|]. by rewrite length_fmap, length_drop, Hperm. }
    etrans; [apply Ho|lia]. intros h Hh.
    destruct (decide (h ∈ hashes oldest)) as [Hin|]; [right|left; split; [by eapply shards_end|done]].
    rewrite <-Hperm, <-(take_drop ov sorted), fmap_app in Hin. set_solver.
Qed.

Lemma bounded_own cap now k idx k' a n :
  sharded idx → advance now k idx = Some (k', a) → bounded cap k idx n →
  bounded cap k' (apply a idx) n.
Proof.
  intros Hs Hk Hb.
  destruct k as [| | | | |at_ ttl c i e|c e i total|ov e i oldest|e [|[[t h] i] rest] m|[]]; try done;
    cbn in Hk.
  - destruct (shards idx !! i) as [en|]; injection Hk as <- <-; [exact Hb|].
    split; [exact Hb|]. rewrite size_filter_none; [lia|]. intros h. lia.
  - destruct (shards idx !! i) as [en|] eqn:Hi; [injection Hk as <- <-; by apply bounded_total|].
    pose proof (bounded_totalled _ _ _ _ _ _ _ Hs Hi Hb) as Ht. destruct Hb as [<- _].
    case_decide as Hc; injection Hk as <- <-; cbn; [lia|]. split; [by constructor|].
    pose proof (size_filter_le (λ h, 0 ≤ shard_index h) (blocks idx)).
    rewrite (size_filter_none (λ h, shard_index h < 0 ∧ h ∉ [])); [lia|]. intros h. lia.
  - destruct (shards idx !! i) as [en|] eqn:Hi; injection Hk as <- <-;
      [by apply bounded_collect|by eapply bounded_trim].
  - injection Hk as <- <-. destruct Hb as [_ Hb]. cbn. etrans; [|exact Hb]. apply subseteq_size.
    intros h Hh. apply elem_of_filter. split; [apply not_elem_of_nil|done].
  - injection Hk as <- <-. destruct Hb as [Hp Hb]. apply Forall_cons in Hp as [Hi Hp].
    split; [done|]. cbn. etrans; [|exact Hb]. apply subseteq_size. intros h'.
    rewrite !elem_of_filter, fmap_cons, not_elem_of_cons. unfold blocks. rewrite !elem_of_dom.
    unfold placed in Hi. cbn in Hi |- *. subst i. destruct (apply_refines (Remove h (shard_index h)) idx Hs) as [_ He].
    cbn [apply] in He. rewrite He. cbn [effect]. intros [Hn Hh'].
    case_decide as Hd; [by destruct Hh'|]. split; [|done]. split; [|done]. intros ->. by apply Hd.
Qed.

(** Sections of others that may add an entry. *)
Definition additions es : nat := sum_list_with (λ a, size (added a)) es.

Lemma during_bounded cap k idx es k' idx' n :
  during k idx es k' idx' → sharded idx → bounded cap k idx n →
  bounded cap k' idx' (n + additions es).
Proof.
  intros Hd. revert n. induction Hd as [k idx|now k idx k1 a es k2 idx2 Hk _ IH|a k idx es k2 idx2 _ IH];
    intros n Hs Hb.
  - by rewrite Nat.add_0_r.
  - apply IH; [by apply sharded_apply|]. by eapply bounded_own.
  - unfold additions. cbn [sum_list_with]. rewrite Nat.add_assoc.
    apply IH; [by apply sharded_apply|]. by apply bounded_other.
Qed.
End during.
End Interference.

(** ** Any number of calls *)

Module IndexPool.
Import PrefixIndex ShardedRefinesFlat Section_ IndexThread SectionEffect Interference.

(** The shared index and the calls made on it so far, finished ones included. *)
Record t := { index : PrefixIndex.t; calls : list IndexThread.t }.

Section pool.
Context {HM : HashMapOrder}.
Implicit Types (p : t) (k : IndexThread.t).

(** A call is made, or one of those under way executes its next section. *)
Inductive step : list (nat * Section_.t) → t → t → Prop :=
  | step_start now c p :
      step [] p {| index := index p; calls := calls p ++ [start now c] |}
  | step_advance now i k k' a p :
      calls p !! i = Some k → advance now k (index p) = Some (k', a) →
      step [(i, a)] p {| index := apply a (index p); calls := <[i := k']> (calls p) |}.

(** A run, with the sections executed and who executed them. *)
Inductive run : t → list (nat * Section_.t) → t → Prop :=
  | run_refl p : run p [] p
  | run_step p tr p1 es p2 : run p tr p1 → step es p1 p2 → run p (tr ++ es) p2.

Definition initial : t := {| index := PrefixIndex.new; calls := [] |}.

(** The sections of all calls but the [i]-th. *)
Definition others (i : nat) (tr : list (nat * Section_.t)) : list Section_.t :=
  (filter (λ x, x.1 ≠ i) tr).*2.

Lemma others_app i tr1 tr2 : others i (tr1 ++ tr2) = others i tr1 ++ others i tr2.
Proof. unfold others. by rewrite filter_app, fmap_app. Qed.

Lemma sharded_run p tr p' : run p tr p' → sharded (index p) → sharded (index p').
Proof.
  induction 1 as [|p tr p1 es p2 _ IH Hs]; intros Hp; [done|].
  specialize (IH Hp). destruct Hs; [done|]. by apply sharded_apply.
Qed.

(** To each call, the rest of the pool is interference. *)
Lemma run_during i k p tr p' :
  run p tr p' → calls p !! i = Some k →
  ∃ k', calls p' !! i = Some k' ∧ during k (index p) (others i tr) k' (index p').
Proof.
  induction 1 as [p|p tr p1 es p2 _ IH Hs]; intros Hk.
  - exists k. split; [done|apply during_refl].
  - destruct (IH Hk) as (k1 & Hk1 & Hd). rewrite others_app.
    destruct Hs as [now c p1|now j kj k' a p1 Hj Hadv]; cbn [calls index].
    + exists k1. rewrite lookup_app_l by by eapply lookup_lt_Some. by rewrite app_nil_r.
    + unfold others at 2. rewrite filter_cons. cbn [fst]. case_decide as Hji.
      * exists k1. rewrite list_lookup_insert_ne by done. split; [done|].
        by apply during_snoc_other.
      * assert (j = i) as -> by by destruct (decide (j = i)).
        rewrite Hk1 in Hj. injection Hj as ->. exists k'.
        rewrite list_lookup_insert_eq by by eapply lookup_lt_Some.
        split; [done|]. cbn. rewrite app_nil_r. by eapply during_snoc_own.
Qed.

(** Beliefs come from the records of some call. *)
Lemma run_holds w h p tr p' :
  run p tr p' → sharded (index p) → holds (index p') w h = true →
  holds (index p) w h = true ∨ recorded w h tr.*2 = true.
Proof.
  induction 1 as [|p tr p1 es p2 Hr IH Hs]; intros Hp Hh; [by left|].
  unfold recorded. rewrite fmap_app, existsb_app, orb_true_iff.
  destruct Hs as [now c p1|now j kj k' a p1 Hj Hadv].
  - destruct (IH Hp Hh); auto.
  - cbn [index] in Hh. apply holds_apply_new in Hh as [Hh|Ha]; [|cbn; rewrite Ha; auto|].
    + destruct (IH Hp Hh); auto.
    + by eapply sharded_run.
Qed.

(** *** Executable schedules *)

Inductive command := DoCall (now : instant) (c : call) | DoStep (now : instant) (i : nat).

Definition exec (c : command) p : option (list (nat * Section_.t) * t) :=
  match c with
  | DoCall now c => Some ([], {| index := index p; calls := calls p ++ [start now c] |})
  | DoStep now i =>
      k ← calls p !! i;
      '(k', a) ← advance now k (index p);
      Some ([(i, a)], {| index := apply a (index p); calls := <[i := k']> (calls p) |})
  end.

Fixpoint exec_all (cs : list command) p : option (list (nat * Section_.t) * t) :=
  match cs with
  | [] => Some ([], p)
  | c :: cs => '(es, p) ← exec c p; '(tr, p) ← exec_all cs p; Some (es ++ tr, p)
  end.

Lemma pool_exec_step c p es p' : exec c p = Some (es, p') → step es p p'.
Proof.
  destruct c as [now c|now i]; cbn [exec]; [intros [= <- <-]; constructor|].
  destruct (calls p !! i) as [k|] eqn:Hk; cbn [mbind option_bind]; [|done].
  destruct (advance now k (index p)) as [[k' a]|] eqn:Ha; cbn [mbind option_bind]; [|done].
  intros [= <- <-]. by eapply step_advance.
Qed.

Lemma pool_exec_run cs p0 tr0 p tr p' :
  run p0 tr0 p → exec_all cs p = Some (tr, p') → run p0 (tr0 ++ tr) p'.
Proof.
  revert tr0 p tr. induction cs as [|c cs IH]; intros tr0 p tr Hr; cbn [exec_all].
  { intros [= <- <-]. by rewrite app_nil_r. }
  destruct (exec c p) as [[es p1]|] eqn:Hc; cbn [mbind option_bind]; [|done].
  destruct (exec_all cs p1) as [[tr1 p2]|] eqn:Hcs; cbn [mbind option_bind]; [|done].
  intros [= <- <-]. rewrite app_assoc. eapply IH, Hcs. eapply run_step; [done|by eapply pool_exec_step].
Qed.
End pool.
End IndexPool.

(** ** Properties *)

(** C11.  A call that nobody interrupts is the method as the rest of the library
    has it: its critical sections, one after the other, come to exactly the
    answer and the index of [record], [longest_match], [remove_worker], [len]
    and [evict], whatever the index holds and in whatever order maps iterate. *)
Theorem uninterrupted_call_is_method {HM : HashMapOrder} (now : instant) (c : IndexThread.call)
    (idx : PrefixIndex.t) :
  IndexThread.alone now (IndexThread.start now c, idx)
    (IndexThread.Returned (IndexThread.execute now c idx).1, (IndexThread.execute now c idx).2).
Proof. apply IndexAlone.alone_execute. Qed.

(** C6.  What [longest_match] may answer while any other calls run: at most the
    leading blocks that the worker held when the call was made or that someone
    recorded for it since; and if nobody took blocks from the worker meanwhile,
    at least what it held when the call was made and at most what it holds when
    the call returns, so the answer is never behind what the caller had recorded
    before and never ahead of the truth. *)
Theorem concurrent_match_bounds {HM : HashMapOrder} (p p' : IndexPool.t)
    (tr : list (nat * Section_.t)) (i : nat) (now : instant) (w : WorkerId) (chain : list N) (m : nat)
    (Hs : PrefixIndex.sharded (IndexPool.index p))
    (Hr : IndexPool.run p tr p')
    (Hk : IndexPool.calls p !! i =
            Some (IndexThread.start now (IndexThread.CallLongestMatch w chain)))
    (Hk' : IndexPool.calls p' !! i = Some (IndexThread.Returned (IndexThread.Matched m))) :
  m ≤ held_prefix (λ h, PrefixIndex.holds (IndexPool.index p) w h ||
                        Interference.recorded w h (IndexPool.others i tr)) chain ∧
  (Forall (λ a, SectionEffect.spares w a = true) (IndexPool.others i tr) →
   held_prefix (PrefixIndex.holds (IndexPool.index p) w) chain ≤ m ∧
   m ≤ held_prefix (PrefixIndex.holds (IndexPool.index p') w) chain).
Proof.
  destruct (IndexPool.run_during i _ p tr p' Hr Hk) as (k' & Hk2 & Hd).
  rewrite Hk' in Hk2. injection Hk2 as <-. split; [|intros He; split].
  - by apply (Interference.during_at_most w m _ _ _ _ _ Hd Hs eq_refl).
  - by apply (Interference.during_at_least w m _ _ _ _ _ Hd Hs eq_refl).
  - apply (Interference.during_credited w chain _ _ _ _ _ Hd Hs He).
    split_and!; [done|done|apply le_0_n].
Qed.

(** C7.  What the writing calls achieve while any other calls run.  When
    [record] returns, its worker holds the whole chain unless someone took
    blocks from it; when [remove_worker] returns, its worker holds nothing
    unless someone recorded for it, and another worker still holds what it held
    unless someone took that; and no block is ever believed to be held that no
    call has recorded. *)
Theorem concurrent_writes {HM : HashMapOrder} (p p' : IndexPool.t)
    (tr : list (nat * Section_.t)) (i : nat) (now : instant) (w : WorkerId)
    (Hs : PrefixIndex.sharded (IndexPool.index p))
    (Hr : IndexPool.run p tr p') :
  (∀ chain,
     IndexPool.calls p !! i = Some (IndexThread.start now (IndexThread.CallRecord w chain)) →
     IndexPool.calls p' !! i = Some (IndexThread.Returned IndexThread.Recorded) →
     Forall (λ a, SectionEffect.spares w a = true) (IndexPool.others i tr) →
     ∀ h, h ∈ chain → PrefixIndex.holds (IndexPool.index p') w h = true) ∧
  (IndexPool.calls p !! i = Some (IndexThread.start now (IndexThread.CallRemoveWorker w)) →
   IndexPool.calls p' !! i = Some (IndexThread.Returned IndexThread.Removed) →
   ((∀ h, Interference.recorded w h (IndexPool.others i tr) = false) →
    ∀ h, PrefixIndex.holds (IndexPool.index p') w h = false) ∧
   ∀ w' h, w' ≠ w →
     Forall (λ a, SectionEffect.spares w' a = true) (IndexPool.others i tr) →
     PrefixIndex.holds (IndexPool.index p) w' h = true →
     PrefixIndex.holds (IndexPool.index p') w' h = true) ∧
  ∀ w' h, PrefixIndex.holds (IndexPool.index p') w' h = true →
    PrefixIndex.holds (IndexPool.index p) w' h = true ∨ Interference.recorded w' h tr.*2 = true.
Proof.
  split_and!.
  - intros chain Hk Hk' He. destruct (IndexPool.run_during i _ p tr p' Hr Hk) as (k' & Hk2 & Hd).
    rewrite Hk' in Hk2. injection Hk2 as <-.
    apply (Interference.during_recording w chain _ _ _ _ _ Hd Hs He). split; [done|by left].
  - intros Hk Hk'. destruct (IndexPool.run_during i _ p tr p' Hr Hk) as (k' & Hk2 & Hd).
    rewrite Hk' in Hk2. injection Hk2 as <-. split.
    + intros He. apply (Interference.during_removing w _ _ _ _ _ Hd Hs He).
      split; [done|intros; apply le_0_n].
    + intros w' h Hne He. eapply Interference.during_keep; [exact Hd|done| |done].
      cbn. apply bool_decide_eq_true. congruence.
  - intros w' h. by eapply IndexPool.run_holds.
Qed.

(** C26.  The cap holds under concurrency up to what is added meanwhile: when an
    eviction sweep returns, the index has at most [max_entries] entries plus one
    for each section with which another call recorded a block during the sweep,
    although the sweep adds sizes and collects ages shard by shard. *)
Theorem concurrent_evict_bounds {HM : HashMapOrder} (p p' : IndexPool.t)
    (tr : list (nat * Section_.t)) (i : nat) (now : instant) (ttl : duration) (max_entries : N)
    (stats : EvictionStats)
    (Hs : PrefixIndex.sharded (IndexPool.index p))
    (Hr : IndexPool.run p tr p')
    (Hk : IndexPool.calls p !! i =
            Some (IndexThread.start now (IndexThread.CallEvict ttl max_entries)))
    (Hk' : IndexPool.calls p' !! i = Some (IndexThread.Returned (IndexThread.Evicted stats))) :
  PrefixIndex.len (IndexPool.index p') ≤
    N.to_nat max_entries + Interference.additions (IndexPool.others i tr).
Proof.
  destruct (IndexPool.run_during i _ p tr p' Hr Hk) as (k' & Hk2 & Hd).
  rewrite Hk' in Hk2. injection Hk2 as <-.
  rewrite <-Interference.size_blocks by by eapply IndexPool.sharded_run.
  exact (Interference.during_bounded (N.to_nat max_entries) _ _ _ _ _ 0 Hd Hs eq_refl).
Qed.

Section witnesses.
#[local] Existing Instance hm_canonical.
Import IndexThread IndexPool.

Definition pool_of (idx : PrefixIndex.t) (cs : list IndexThread.call) : IndexPool.t :=
  {| index := idx; calls := start 10 <$> cs |}.

(** Where a schedule leads. *)
Definition after (cs : list command) (p : IndexPool.t) : list (nat * Section_.t) * IndexPool.t :=
  default ([], p) (exec_all cs p).

Lemma after_run cs p :
  is_Some (exec_all cs p) → run p (after cs p).1 (after cs p).2.
Proof.
  intros [[tr p'] He]. unfold after. rewrite He. apply (pool_exec_run cs p [] p tr p'); [|done].
  constructor.
Qed.

Definition index_with (now : instant) (chain : list N) : PrefixIndex.t :=
  PrefixIndex.record now 0 chain PrefixIndex.new.

Lemma index_with_sharded now chain : PrefixIndex.sharded (index_with now chain).
Proof. apply ShardedRefinesFlat.record_refines, ShardedRefinesFlat.sharded_new. Qed.

(** Block 2 is recorded before the match reads it, block 3 after. *)
Definition match_and_record : IndexPool.t :=
  pool_of (index_with 5 [1]%N) [CallLongestMatch 0 [1; 2; 3]%N; CallRecord 0 [2; 3]%N].

Definition match_schedule : list command :=
  [DoStep 20 0; DoStep 20 1; DoStep 20 0; DoStep 20 0; DoStep 20 1; DoStep 20 0; DoStep 20 0;
   DoStep 20 0].

Theorem concurrent_match_bounds_witness :
  held_prefix (PrefixIndex.holds (index match_and_record) 0) [1; 2; 3]%N = 1 ∧
  1 ≤ 2 ∧
  2 ≤ held_prefix (PrefixIndex.holds (index (after match_schedule match_and_record).2) 0)
        [1; 2; 3]%N ∧
  held_prefix (PrefixIndex.holds (index (after match_schedule match_and_record).2) 0)
    [1; 2; 3]%N = 3.
Proof.
  destruct (concurrent_match_bounds match_and_record (after match_schedule match_and_record).2
    (after match_schedule match_and_record).1 0 10 0 [1; 2; 3]%N 2) as [_ Hb].
  - apply index_with_sharded.
  - apply after_run. vm_compute. by eexists.
  - reflexivity.
  - vm_compute. reflexivity.
  - destruct Hb as [Hlow Hhigh].
    { apply (bool_decide_unpack _). vm_compute. exact I. }
    split_and!; [vm_compute; reflexivity|exact Hlow|exact Hhigh|vm_compute; reflexivity].
Defined.

(** Worker 0 is removed while worker 1 records. *)
Definition remove_and_record : IndexPool.t :=
  pool_of (index_with 5 [1; 2]%N) [CallRemoveWorker 0; CallRecord 1 [2; 3]%N].

Definition remove_schedule : list command :=
  replicate 2 (DoStep 20 0) ++ replicate 3 (DoStep 20 1) ++ replicate 63 (DoStep 20 0).

Theorem concurrent_writes_witness :
  (∀ h, PrefixIndex.holds (index (after remove_schedule remove_and_record).2) 0 h = false) ∧
  PrefixIndex.holds (index remove_and_record) 0 1 = true ∧
  PrefixIndex.holds (index (after remove_schedule remove_and_record).2) 1 2 = true.
Proof.
  split; [|split; vm_compute; reflexivity].
  destruct (concurrent_writes remove_and_record (after remove_schedule remove_and_record).2
    (after remove_schedule remove_and_record).1 0 10 0) as (_ & Hrem & _).
  - apply index_with_sharded.
  - apply after_run. vm_compute. by eexists.
  - apply Hrem; [reflexivity|vm_compute; reflexivity|]. intros h. vm_compute. reflexivity.
Defined.

(** Three entries, a cap of one; block 9 is recorded between the two passes of
    the sweep over the shards: the bound is met. *)
Definition evict_and_record : IndexPool.t :=
  pool_of (index_with 5 [1; 2; 3]%N) [CallEvict 1000 1; CallRecord 0 [9]%N].

Definition evict_schedule : list command :=
  replicate 130 (DoStep 20 0) ++ [DoStep 20 1] ++ replicate 68 (DoStep 20 0).

Theorem concurrent_evict_bounds_witness :
  PrefixIndex.len (index (after evict_schedule evict_and_record).2) ≤ 1 + 1 ∧
  PrefixIndex.len (index (after evict_schedule evict_and_record).2) = 2.
Proof.
  split; [|vm_compute; reflexivity].
  apply (concurrent_evict_bounds evict_and_record (after evict_schedule evict_and_record).2
    (after evict_schedule evict_and_record).1 0 10 1000 1 {| expired := 0; lru_evicted := 2 |}).
  - apply index_with_sharded.
  - apply after_run. vm_compute. by eexists.
  - reflexivity.
  - vm_compute. reflexivity.
Defined.

(** An entry that is touched between the collection of the ages and the removals
    is evicted by the age it had, although it is then the most recently touched
    one: under concurrency the sweep is not by age. *)
Definition evict_and_match : IndexPool.t :=
  pool_of (PrefixIndex.record 6 0 [2]%N (index_with 5 [1]%N))
    [CallEvict 1000 1; CallLongestMatch 0 [1]%N].

Definition touched_schedule : list command :=
  replicate 195 (DoStep 20 0) ++ replicate 4 (DoStep 50 1).

Definition swept_schedule : list command := replicate 2 (DoStep 60 0).

Theorem concurrent_evict_not_by_age :
  ∃ touched swept tr1 tr2,
    run evict_and_match tr1 touched ∧ run touched tr2 swept ∧
    (ie_last_touched <$> PrefixIndex.flatten (index touched) !! 1%N) = Some 50%N ∧
    (ie_last_touched <$> PrefixIndex.flatten (index touched) !! 2%N) = Some 6%N ∧
    calls swept !! 0 = Some (Returned (Evicted {| expired := 0; lru_evicted := 1 |})) ∧
    PrefixIndex.flatten (index swept) !! 1%N = None ∧
    (ie_last_touched <$> PrefixIndex.flatten (index swept) !! 2%N) = Some 6%N.
Proof.
  exists (after touched_schedule evict_and_match).2,
    (after swept_schedule (after touched_schedule evict_and_match).2).2,
    (after touched_schedule evict_and_match).1,
    (after swept_schedule (after touched_schedule evict_and_match).2).1.
  split_and!; [apply after_run; vm_compute; by eexists..|vm_compute; reflexivity|
    vm_compute; reflexivity|vm_compute; reflexivity|vm_compute; reflexivity|vm_compute; reflexivity].
Qed.
End witnesses.
