(* ===== verification/Router.v ===== *)
(** * Worker selection ([router-core/src/router.rs])

    The candidate order, the three routing policies and the two selection
    entry points, over any implementation of the belief interface.  The
    operations return the updated router next to their result; [None] stands
    for a panic (an index out of bounds or a remainder by zero). *)

From Stdlib Require Import SpecFloat.
From S2P Require Import Prelude Float64 Hashing Config Request Worker Inflight Belief Prefix.

(** ** Candidates and their order *)

Record Candidate := { c_score : f64; c_in_flight : N; c_id : WorkerId }.

#[export] Instance Candidate_eq_dec : EqDecision Candidate.
Proof. solve_decision. Defined.

(** [Ord for Candidate]. *)
Definition candidate_cmp (self other : Candidate) : comparison :=
  then_cmp (default Eq (f64_partial_cmp (c_score self) (c_score other)))
    (then_cmp (N.compare (c_in_flight other) (c_in_flight self))
       (N.compare (c_id other) (c_id self))).

(** [PartialOrd] and [PartialEq for Candidate], through [cmp]. *)
Definition candidate_partial_cmp (self other : Candidate) : option comparison :=
  Some (candidate_cmp self other).

Definition candidate_eq (self other : Candidate) : bool :=
  match candidate_cmp self other with Eq => true | _ => false end.

(** [Iterator::max_by]: the later of two equal elements wins. *)
Definition max_by {A} (cmp : A → A → comparison) (l : list A) : option A :=
  match l with
  | [] => None
  | x :: l => Some (foldl (λ x y, match cmp x y with Gt => x | _ => y end) x l)
  end.

Record ScoredWorker := { sw_worker : Worker; sw_matched : nat; sw_candidate : Candidate }.

Record RouteDecision := {
  rd_worker : Worker;
  rd_matched_prefix_len : nat;
  rd_prompt_blocks : nat;
  rd_score : f64;
}.

(** ** The order is total away from NaN *)

Definition comparable (c : Candidate) : Prop := f64_is_nan (c_score c) = false.

(** The documented preference: a higher score, then fewer requests in flight,
    then the lower id. *)
Definition outranks (a b : Candidate) : Prop :=
  match f64_partial_cmp (c_score a) (c_score b) with
  | Some Gt => True
  | Some Eq => (c_in_flight a < c_in_flight b)%N ∨
               c_in_flight a = c_in_flight b ∧ (c_id a < c_id b)%N
  | _ => False
  end.

Section candidate_order.
Implicit Types (a b c : Candidate).

Lemma candidate_cmp_rank a b :
  comparable a → comparable b →
  candidate_cmp a b =
    then_cmp (rank_cmp (rank (c_score a)) (rank (c_score b)))
      (then_cmp (N.compare (c_in_flight b) (c_in_flight a)) (N.compare (c_id b) (c_id a))).
Proof. intros Ha Hb. unfold candidate_cmp. by rewrite f64_partial_cmp_rank. Qed.

Lemma candidate_cmp_antisym a b :
  comparable a → comparable b → candidate_cmp b a = CompOpp (candidate_cmp a b).
Proof.
  intros. rewrite !candidate_cmp_rank by done.
  rewrite (rank_cmp_antisym (rank (c_score a))), (N.compare_antisym (c_in_flight a)),
    (N.compare_antisym (c_id a)).
  by destruct (rank_cmp _ _), (c_in_flight a ?= _)%N, (c_id a ?= _)%N.
Qed.

Lemma candidate_cmp_coherent a b c :
  comparable a → comparable b → comparable c →
  coherent (candidate_cmp a b) (candidate_cmp b c) (candidate_cmp a c).
Proof.
  intros. rewrite !candidate_cmp_rank by done.
  assert (∀ x y z, coherent (y ?= x)%N (z ?= y)%N (z ?= x)%N) as Hflip.
  { intros x y z.
    destruct (N.compare_spec y x), (N.compare_spec z y), (N.compare_spec z x);
      simpl; done || lia. }
  auto using then_cmp_coherent, rank_cmp_coherent.
Qed.

Lemma candidate_cmp_eq_id a b :
  comparable a → comparable b → candidate_cmp a b = Eq → c_id a = c_id b.
Proof.
  intros Ha Hb. rewrite candidate_cmp_rank by done. unfold then_cmp.
  destruct (rank_cmp _ _); try done. destruct (_ ?= _)%N; try done.
  by intros ->%N.compare_eq.
Qed.

(** [Eq] is a congruence of the order: candidates that are equal compare alike
    with every other. *)
Lemma candidate_eq_laws a b c :
  comparable a → comparable b → comparable c → candidate_eq a b = true →
  candidate_eq b a = true ∧ c_id a = c_id b ∧
  candidate_partial_cmp a c = candidate_partial_cmp b c.
Proof.
  unfold candidate_eq, candidate_partial_cmp. intros Ha Hb Hc.
  destruct (candidate_cmp a b) eqn:Hab; [intros _|done|done].
  assert (Hba : candidate_cmp b a = Eq) by by rewrite (candidate_cmp_antisym a b), Hab.
  rewrite Hba. split_and!; [done|by apply candidate_cmp_eq_id|]. f_equal.
  pose proof (candidate_cmp_coherent a b c Ha Hb Hc) as H1. rewrite Hab in H1.
  pose proof (candidate_cmp_coherent b a c Hb Ha Hc) as H2. rewrite Hba in H2.
  by destruct (candidate_cmp b c), (candidate_cmp a c).
Qed.

Lemma outranks_cmp a b :
  comparable a → comparable b → outranks a b ↔ candidate_cmp b a = Lt.
Proof.
  intros Ha Hb. rewrite candidate_cmp_rank by done. unfold outranks.
  rewrite f64_partial_cmp_rank, (rank_cmp_antisym (rank (c_score a))) by done.
  destruct (rank_cmp (rank (c_score a)) _); simpl; try done.
  destruct (N.compare_spec (c_in_flight a) (c_in_flight b)); simpl;
    rewrite ?N.compare_lt_iff; split; try done; lia.
Qed.

Lemma not_outranked a b :
  comparable a → comparable b → candidate_cmp b a ≠ Gt → c_id a ≠ c_id b → outranks a b.
Proof.
  intros Ha Hb Hle Hid. apply outranks_cmp; [done..|].
  destruct (candidate_cmp b a) eqn:He; [|done|done].
  apply candidate_cmp_eq_id in He; [congruence|done..].
Qed.

Lemma outranks_asym a b :
  comparable a → comparable b → outranks a b → outranks b a → False.
Proof.
  intros Ha Hb H1 H2. apply outranks_cmp in H1, H2; [|done..].
  rewrite candidate_cmp_antisym, H1 in H2 by done. done.
Qed.
End candidate_order.

(** ** [max_by] *)

Section max_by.
Context {A : Type} (cmp : A → A → comparison) (P : A → Prop).

Lemma max_by_is_Some l : l ≠ [] → is_Some (max_by cmp l).
Proof. destruct l; [done|]. eexists. reflexivity. Qed.

Lemma max_by_elem l x : max_by cmp l = Some x → x ∈ l.
Proof.
  destruct l as [|y l]; [done|]. simpl. intros [= <-]. revert y.
  induction l as [|z l IH]; intros y; simpl; [by left|].
  destruct (cmp y z); [right; apply IH|right; apply IH|].
  specialize (IH y). apply elem_of_cons in IH as [IH|IH].
  - rewrite IH. by left.
  - right. by right.
Qed.

Hypothesis antisym : ∀ x y, P x → P y → cmp y x = CompOpp (cmp x y).
Hypothesis trans : ∀ x y z, P x → P y → P z → coherent (cmp x y) (cmp y z) (cmp x z).

Lemma max_by_refl x : P x → cmp x x ≠ Gt.
Proof. intros Hx Hg. pose proof (antisym x x Hx Hx) as Ha. by rewrite Hg in Ha. Qed.

Lemma max_by_greatest l x :
  Forall P l → max_by cmp l = Some x → ∀ y, y ∈ l → cmp y x ≠ Gt.
Proof.
  destruct l as [|x0 l]; [done|]. simpl. intros Hall [= <-]. revert x0 Hall.
  induction l as [|z l IH]; intros x0 [Hx0 Hall]%Forall_cons y Hy; simpl.
  - apply list_elem_of_singleton in Hy as ->. by apply max_by_refl.
  - apply Forall_cons in Hall as [Hz Hall].
    set (x1 := match cmp x0 z with Gt => x0 | _ => z end) in *.
    assert (Hx1 : P x1) by (subst x1; by destruct (cmp x0 z)).
    specialize (IH x1 (Forall_cons_2 _ _ _ Hx1 Hall)).
    set (m := foldl _ x1 l) in *.
    assert (Hm : P m).
    { pose proof (max_by_elem (x1 :: l) m eq_refl) as Hin.
      rewrite Forall_forall in Hall. apply elem_of_cons in Hin as [->|Hin]; auto. }
    assert (Hstep : ∀ u, P u → cmp u x1 ≠ Gt → cmp u m ≠ Gt).
    { intros u Hu Hle. eapply coherent_le; [by apply (trans u x1 m)|done|].
      apply IH. by left. }
    apply elem_of_cons in Hy as [->|[->|Hy]%elem_of_cons].
    + apply Hstep; [done|]. subst x1.
      destruct (cmp x0 z) eqn:E; rewrite ?E; try done. by apply max_by_refl.
    + apply Hstep; [done|]. subst x1.
      destruct (cmp x0 z) eqn:E; try by apply max_by_refl.
      by rewrite (antisym x0 z), E.
    + apply IH. by right.
Qed.
End max_by.

Module Router.

(** The shared handles ([Arc]) of the source are the fields themselves. *)
Record t {T : Type} := {
  registry : WorkerRegistry.t;
  policy : RoutingPolicy;
  next_worker : N;
  prefix_index : T;
  inflight : InflightTracker.t;
  block_size : N;
  cache_weight : f64;
  load_weight : f64;
}.
Arguments t : clear implicits.

Section operations.
Context {T : Type} `{BI : BeliefIndex T} {HM : HashMapOrder} {BH : BlockHash}.

Definition new (reg : WorkerRegistry.t) (config : RouterConfig) : t T := {|
  registry := reg;
  policy := cfg_routing_policy config;
  next_worker := 0;
  prefix_index := bi_new;
  inflight := InflightTracker.with_capacity (length (cfg_workers config));
  block_size := N.max (cfg_prompt_block_chars config) 1;
  cache_weight := cfg_cache_weight config;
  load_weight := cfg_load_weight config;
|}.

Definition set_prefix_index (idx : T) (r : t T) : t T := {|
  registry := registry r; policy := policy r; next_worker := next_worker r;
  prefix_index := idx; inflight := inflight r; block_size := block_size r;
  cache_weight := cache_weight r; load_weight := load_weight r |}.

Definition set_next_worker (n : N) (r : t T) : t T := {|
  registry := registry r; policy := policy r; next_worker := n;
  prefix_index := prefix_index r; inflight := inflight r; block_size := block_size r;
  cache_weight := cache_weight r; load_weight := load_weight r |}.

(** Updates of the shared registry and tracker, made by the background tasks. *)
Definition set_registry (reg : WorkerRegistry.t) (r : t T) : t T := {|
  registry := reg; policy := policy r; next_worker := next_worker r;
  prefix_index := prefix_index r; inflight := inflight r; block_size := block_size r;
  cache_weight := cache_weight r; load_weight := load_weight r |}.

Definition set_inflight (tr : InflightTracker.t) (r : t T) : t T := {|
  registry := registry r; policy := policy r; next_worker := next_worker r;
  prefix_index := prefix_index r; inflight := tr; block_size := block_size r;
  cache_weight := cache_weight r; load_weight := load_weight r |}.

(** [matched * cache_weight - in_flight * load_weight], in [f64]. *)
Definition score_worker (worker : WorkerId) (matched_blocks : nat) (r : t T) : f64 :=
  f64_sub (f64_mul (f64_of_N (N.of_nat matched_blocks)) (cache_weight r))
          (f64_mul (f64_of_N (InflightTracker.count worker (inflight r))) (load_weight r)).

Definition scored (w : Worker) (matched : nat) (r : t T) : ScoredWorker := {|
  sw_worker := w;
  sw_matched := matched;
  sw_candidate := {|
    c_score := score_worker (w_id w) matched r;
    c_in_flight := InflightTracker.count (w_id w) (inflight r);
    c_id := w_id w;
  |};
|}.

(** [now k] is the clock at the [k]-th index operation of a selection. *)
Implicit Types (now : nat → instant) (chain : list N).

(** The [map] of [pick_best], in iteration order: matching touches the
    index. *)
Fixpoint score_all now (k : nat) (chain : list N) (ws : list Worker) (r : t T) :
    list ScoredWorker * t T :=
  match ws with
  | [] => ([], r)
  | w :: ws =>
      let '(matched, idx) := bi_longest_match (now k) (w_id w) chain (prefix_index r) in
      let '(rest, r') := score_all now (S k) chain ws (set_prefix_index idx r) in
      (scored w matched r :: rest, r')
  end.

Definition pick_best now (candidates : list Worker) chain (r : t T) :
    option ScoredWorker * t T :=
  let '(ss, r') := score_all now 0 chain candidates r in
  (max_by (λ a b, candidate_cmp (sw_candidate a) (sw_candidate b)) ss, r').

Definition record (at_time : instant) (worker : Worker) chain (r : t T) : t T :=
  set_prefix_index (bi_record at_time (w_id worker) chain (prefix_index r)) r.

(** Workers labelled [both] are preferred for a whole request. *)
Definition chat_candidates (healthy : list Worker) : list Worker :=
  if existsb (λ w, bool_decide (w_pool w = Both)) healthy
  then filter (λ w, w_pool w = Both) healthy
  else healthy.

Definition decision (best : ScoredWorker) chain : RouteDecision := {|
  rd_worker := sw_worker best;
  rd_matched_prefix_len := sw_matched best;
  rd_prompt_blocks := length chain;
  rd_score := c_score (sw_candidate best);
|}.

Definition no_healthy (r : t T) : RouterError :=
  NoHealthyWorkers (show_RoutingPolicy (policy r)).

Definition no_healthy_in_pool (pool : Pool) (r : t T) : RouterError :=
  NoHealthyWorkersInPool (show_Pool pool) (show_RoutingPolicy (policy r)).

Definition round_robin now (candidates : list Worker) chain (r : t T) :
    option (result RouterError RouteDecision * t T) :=
  if decide (length candidates = 0) then None else
  let index := (next_worker r mod N.of_nat (length candidates))%N in
  let r := set_next_worker (fetch_add (next_worker r) 1) r in
  worker ← candidates !! N.to_nat index;
  let '(matched, idx) := bi_longest_match (now 0) (w_id worker) chain (prefix_index r) in
  let r := record (now 1) worker chain (set_prefix_index idx r) in
  Some (Ok {| rd_worker := worker; rd_matched_prefix_len := matched;
              rd_prompt_blocks := length chain; rd_score := f64_0 |}, r).

(** Score, choose and record: shared by [select_for_chat] and
    [select_in_pool]. *)
Definition choose now (e : RouterError) (candidates : list Worker) chain (r : t T) :
    result RouterError RouteDecision * t T :=
  let '(best, r) := pick_best now candidates chain r in
  match best with
  | None => (Err e, r)
  | Some best =>
      (Ok (decision best chain), record (now (length candidates)) (sw_worker best) chain r)
  end.

Definition select_for_chat {V} now (request : ChatCompletionRequest V) (r : t T) :
    option (result RouterError RouteDecision * t T) :=
  let chain := chain_hash (canonical_prompt request) (block_size r) in
  let healthy := WorkerRegistry.healthy_workers (registry r) in
  if decide (healthy = []) then Some (Err (no_healthy r), r) else
  let candidates := chat_candidates healthy in
  match policy r with
  | RoundRobin => round_robin now candidates chain r
  | CacheAware => Some (choose now (no_healthy r) candidates chain r)
  | Disaggregated => Some (Err DisaggregatedRequiresTwoPhase, r)
  end.

Definition pool_candidates (pool : Pool) (r : t T) : list Worker :=
  filter (λ w, w_pool w = pool) (WorkerRegistry.healthy_workers (registry r)).

Definition select_in_pool now (pool : Pool) chain (r : t T) :
    result RouterError RouteDecision * t T :=
  let candidates := pool_candidates pool r in
  if decide (candidates = []) then (Err (no_healthy_in_pool pool r), r)
  else choose now (no_healthy_in_pool pool r) candidates chain r.
End operations.

(** ** Frame: selections touch the cursor and the index only *)

Section frame.
Context {T : Type} `{BI : BeliefIndex T} {HM : HashMapOrder} {BH : BlockHash}.
Implicit Types (r : t T).

Definition same_setup r r' : Prop :=
  registry r' = registry r ∧ policy r' = policy r ∧ inflight r' = inflight r.

Lemma score_all_frame now k chain ws r :
  ∃ idx, (score_all now k chain ws r).2 = set_prefix_index idx r.
Proof.
  revert k r. induction ws as [|w ws IH]; intros k r; cbn [score_all].
  { exists (prefix_index r). by destruct r. }
  destruct (bi_longest_match _ _ _ _) as [matched idx].
  destruct (IH (S k) (set_prefix_index idx r)) as [idx' Hidx].
  destruct (score_all _ _ _ _ _) as [ss r']. simpl in *. subst. by exists idx'.
Qed.

Lemma choose_frame now e ws chain r : same_setup r (choose now e ws chain r).2.
Proof.
  unfold choose, pick_best. destruct (score_all_frame now 0 chain ws r) as [idx Hidx].
  destruct (score_all _ _ _ _ _) as [ss r']. simpl in *. subst. by destruct (max_by _ ss).
Qed.

Lemma select_in_pool_frame now pool chain r : same_setup r (select_in_pool now pool chain r).2.
Proof. unfold select_in_pool. case_decide; [done|]. apply choose_frame. Qed.

(** A selection never panics, index laws or not. *)
Lemma select_for_chat_frame {V} now (request : ChatCompletionRequest V) r :
  ∃ out r', select_for_chat now request r = Some (out, r') ∧ same_setup r r' ∧
    (out = Err DisaggregatedRequiresTwoPhase → policy r = Disaggregated).
Proof.
  unfold select_for_chat. case_decide as He; [by eexists _, _|].
  set (ws := chat_candidates _). set (chain := chain_hash _ _).
  assert (Hne : ws ≠ []).
  { unfold ws, chat_candidates. case_match eqn:Hb; [|done].
    apply existsb_exists in Hb as (b & Hb & Hb'%bool_decide_eq_true).
    apply (elem_of_not_nil b), list_elem_of_filter. split; [done|by apply list_elem_of_In]. }
  destruct (policy r) eqn:Hp.
  - unfold round_robin. rewrite decide_False by (by destruct ws).
    destruct (lookup_lt_is_Some_2 ws (N.to_nat (next_worker r mod N.of_nat (length ws))))
      as [w Hw].
    { assert (length ws ≠ 0) by (by destruct ws).
      pose proof (N.mod_lt (next_worker r) (N.of_nat (length ws)) ltac:(lia)). lia. }
    rewrite Hw. cbn [mbind option_bind].
    destruct (bi_longest_match _ _ _ _) as [matched idx]. by eexists _, _.
  - pose proof (choose_frame now (no_healthy r) ws chain r) as Hf.
    unfold choose in *. destruct (pick_best now ws chain r) as [best r'].
    by destruct best; eexists _, _.
  - by eexists _, _.
Qed.
End frame.

(** ** What a selection may observe and change *)

Section laws.
Context {T : Type} `{BIL : BeliefIndexLaws T} {HM : HashMapOrder} {BH : BlockHash}.
Implicit Types (r : t T) (w : Worker) (ws : list Worker) (chain : list N).

(** Blocks of [chain] the worker is believed to hold. *)
Definition believed_prefix r chain w : nat :=
  held_prefix (bi_holds (prefix_index r) (w_id w)) chain.

Definition candidate r chain w : ScoredWorker := scored w (believed_prefix r chain w) r.

Definition prefers r chain w1 w2 : Prop :=
  outranks (sw_candidate (candidate r chain w1)) (sw_candidate (candidate r chain w2)).

Definition scorable r chain w : Prop := comparable (sw_candidate (candidate r chain w)).

(** [idx] is the index of [r] with [chain] recorded for [w]. *)
Definition records r chain w (idx : T) : Prop :=
  bi_ok idx ∧
  ∀ i h, bi_holds idx i h =
         bi_holds (prefix_index r) i h || bool_decide (i = w_id w ∧ h ∈ chain).

Lemma set_prefix_index_id r : set_prefix_index (prefix_index r) r = r.
Proof. by destruct r. Qed.

Lemma score_all_spec now k chain ws r :
  bi_ok (prefix_index r) →
  ∃ idx, score_all now k chain ws r = (candidate r chain <$> ws, set_prefix_index idx r) ∧
    bi_ok idx ∧ ∀ i h, bi_holds idx i h = bi_holds (prefix_index r) i h.
Proof.
  revert k r. induction ws as [|w ws IH]; intros k r Hok; cbn [score_all].
  { exists (prefix_index r). by rewrite set_prefix_index_id. }
  pose proof (bi_match_len (now k) (w_id w) chain _ Hok) as Hlen.
  pose proof (bi_match_ok (now k) (w_id w) chain _ Hok) as Hok'.
  pose proof (λ i h, bi_match_holds (now k) (w_id w) chain _ i h Hok) as Hh.
  destruct (bi_longest_match _ _ _ _) as [matched idx1]. cbn [fst snd] in *.
  destruct (IH (S k) (set_prefix_index idx1 r) Hok') as (idx & -> & Hidx & Hheld).
  cbn [prefix_index set_prefix_index] in Hheld.
  exists idx. split_and!; [|done|by intros; rewrite Hheld].
  rewrite fmap_cons. f_equal. f_equal.
  - by rewrite Hlen.
  - apply list_fmap_ext. intros i w' _. unfold candidate, believed_prefix.
    cbn [prefix_index set_prefix_index].
    by rewrite (held_prefix_ext _ _ chain (λ h _, Hh (w_id w') h)).
Qed.

Definition best_of r chain ws : option ScoredWorker :=
  max_by (λ a b, candidate_cmp (sw_candidate a) (sw_candidate b)) (candidate r chain <$> ws).

Lemma pick_best_spec now ws chain r :
  bi_ok (prefix_index r) →
  ∃ idx, pick_best now ws chain r = (best_of r chain ws, set_prefix_index idx r) ∧
    bi_ok idx ∧ ∀ i h, bi_holds idx i h = bi_holds (prefix_index r) i h.
Proof.
  intros Hok. destruct (score_all_spec now 0 chain ws r Hok) as (idx & He & Hidx).
  exists idx. unfold pick_best. by rewrite He.
Qed.

Lemma best_of_elem r chain ws best :
  best_of r chain ws = Some best → ∃ w, w ∈ ws ∧ best = candidate r chain w.
Proof. intros (w & -> & Hw)%max_by_elem%list_elem_of_fmap. eauto. Qed.

(** Among workers with distinct ids and scores that are numbers, the choice
    outranks every other one. *)
Lemma best_of_outranks r chain ws w w' :
  Forall (scorable r chain) ws → NoDup (w_id <$> ws) →
  best_of r chain ws = Some (candidate r chain w) → w ∈ ws → w' ∈ ws → w' ≠ w →
  prefers r chain w w'.
Proof.
  intros Hall Hnd Hbest Hw Hw' Hne.
  rewrite Forall_forall in Hall.
  apply not_outranked; [by apply Hall..| |].
  - apply (max_by_greatest (λ a b, candidate_cmp (sw_candidate a) (sw_candidate b))
             (λ s, comparable (sw_candidate s))) with (candidate r chain <$> ws);
      [by intros; apply candidate_cmp_antisym|by intros; apply candidate_cmp_coherent
      |by apply Forall_fmap, Forall_forall|done|by apply list_elem_of_fmap_2].
  - intros He. apply Hne. simpl in He.
    apply list_elem_of_lookup in Hw as [i Hi]. apply list_elem_of_lookup in Hw' as [j Hj].
    assert (i = j) as ->; [|congruence].
    eapply NoDup_lookup; [exact Hnd| |]; rewrite list_lookup_fmap.
    + by rewrite Hi.
    + rewrite Hj. simpl. by rewrite He.
Qed.

Lemma records_record at_time chain w r idx :
  bi_ok idx → (∀ i h, bi_holds idx i h = bi_holds (prefix_index r) i h) →
  records r chain w (bi_record at_time (w_id w) chain idx).
Proof.
  intros Hok Hh. split; [by apply bi_record_ok|]. intros i h.
  by rewrite bi_record_holds, Hh.
Qed.

Lemma choose_spec now e ws chain r :
  bi_ok (prefix_index r) → ws ≠ [] →
  ∃ w idx, choose now e ws chain r =
             (Ok (decision (candidate r chain w) chain), set_prefix_index idx r) ∧
    w ∈ ws ∧ best_of r chain ws = Some (candidate r chain w) ∧ records r chain w idx.
Proof.
  intros Hok Hne. destruct (pick_best_spec now ws chain r Hok) as (idx & He & Hidx & Hh).
  destruct (max_by_is_Some (λ a b, candidate_cmp (sw_candidate a) (sw_candidate b))
              (candidate r chain <$> ws)) as [best Hbest]; [by destruct ws|].
  fold (best_of r chain ws) in Hbest.
  destruct (best_of_elem _ _ _ _ Hbest) as (w & Hw & ->).
  unfold choose. rewrite He, Hbest. eexists w, _.
  split; [reflexivity|]. split_and!; [done..|]. by apply records_record.
Qed.

(** Either no candidate and no change, or a recorded choice among them. *)
Lemma select_in_pool_cases now pool chain r :
  bi_ok (prefix_index r) →
  (pool_candidates pool r = [] ∧
   select_in_pool now pool chain r = (Err (no_healthy_in_pool pool r), r)) ∨
  (∃ w idx, select_in_pool now pool chain r =
              (Ok (decision (candidate r chain w) chain), set_prefix_index idx r) ∧
     w ∈ WorkerRegistry.healthy_workers (registry r) ∧ w_pool w = pool ∧ records r chain w idx).
Proof.
  intros Hok. unfold select_in_pool. case_decide as He; [by left|right].
  destruct (choose_spec now (no_healthy_in_pool pool r) _ chain r Hok He)
    as (w & idx & -> & Hw & _ & Hr).
  apply list_elem_of_filter in Hw as [? ?]. by exists w, idx.
Qed.

Lemma round_robin_spec now ws chain r :
  bi_ok (prefix_index r) → ws ≠ [] →
  ∃ w idx, round_robin now ws chain r =
      Some (Ok {| rd_worker := w; rd_matched_prefix_len := believed_prefix r chain w;
                  rd_prompt_blocks := length chain; rd_score := f64_0 |},
            set_prefix_index idx (set_next_worker (fetch_add (next_worker r) 1) r)) ∧
    ws !! N.to_nat (next_worker r mod N.of_nat (length ws)) = Some w ∧
    records r chain w idx.
Proof.
  intros Hok Hne.
  assert (Hlen : length ws ≠ 0) by (by destruct ws).
  destruct (lookup_lt_is_Some_2 ws (N.to_nat (next_worker r mod N.of_nat (length ws))))
    as [w Hw].
  { pose proof (N.mod_lt (next_worker r) (N.of_nat (length ws)) ltac:(lia)). lia. }
  unfold round_robin. rewrite decide_False by done. rewrite Hw. cbn [mbind option_bind].
  cbn [prefix_index set_next_worker].
  pose proof (bi_match_len (now 0) (w_id w) chain _ Hok) as Hlen'.
  pose proof (bi_match_ok (now 0) (w_id w) chain _ Hok) as Hok'.
  pose proof (λ i h, bi_match_holds (now 0) (w_id w) chain _ i h Hok) as Hh.
  destruct (bi_longest_match _ _ _ _) as [matched idx1]. cbn [fst snd] in *.
  eexists w, _. split; [by rewrite Hlen'|]. split; [done|]. by apply records_record.
Qed.

Lemma chat_candidates_elem (healthy : list Worker) w :
  w ∈ chat_candidates healthy ↔
  w ∈ healthy ∧ (w_pool w = Both ∨ ∀ w', w' ∈ healthy → w_pool w' ≠ Both).
Proof.
  unfold chat_candidates. case_match eqn:He.
  - apply existsb_exists in He as (b & Hb & Hb'%bool_decide_eq_true).
    apply list_elem_of_In in Hb. rewrite list_elem_of_filter. split.
    + intros [Hp Hw]. by auto.
    + intros [Hw [Hp|Hn]]; [done|]. by destruct (Hn b).
  - assert (∀ w', w' ∈ healthy → w_pool w' ≠ Both) as Hn.
    2: { split; [by auto|by intros [? _]]. }
    intros w' Hw' Hboth.
    assert (existsb (λ w, bool_decide (w_pool w = Both)) healthy = true); [|congruence].
    apply existsb_exists. exists w'. split; [by apply list_elem_of_In|].
    by apply bool_decide_eq_true.
Qed.

Lemma chat_candidates_sublist (healthy : list Worker) :
  chat_candidates healthy `sublist_of` healthy.
Proof. unfold chat_candidates. case_match; [apply sublist_filter|done]. Qed.

Lemma chat_candidates_not_nil (healthy : list Worker) :
  healthy ≠ [] → chat_candidates healthy ≠ [].
Proof.
  intros Hne. unfold chat_candidates. case_match eqn:He; [|done].
  apply existsb_exists in He as (b & Hb & Hb'%bool_decide_eq_true).
  apply (elem_of_not_nil b), list_elem_of_filter. split; [done|by apply list_elem_of_In].
Qed.
End laws.
End Router.

(** ** The contract of a selection *)

Module RouterSpec.
Import Router.
Section contract.
Context {T : Type} `{BI : BeliefIndex T} {HM : HashMapOrder}.
Implicit Types (r : t T) (chain : list N).

(** [w] was chosen for [chain]: the decision reports what the index
    believed before, and the index afterwards differs by [chain] only. *)
Definition chosen r r' chain (next : N) (d : RouteDecision) : Prop :=
  rd_matched_prefix_len d = believed_prefix r chain (rd_worker d) ∧
  rd_prompt_blocks d = length chain ∧
  ∃ idx, r' = set_prefix_index idx (set_next_worker next r) ∧
         records r chain (rd_worker d) idx.

Definition chat_contract r chain (out : result RouterError RouteDecision) r' : Prop :=
  let healthy := WorkerRegistry.healthy_workers (registry r) in
  match out with
  | Ok d =>
      chosen r r' chain
        (if decide (policy r = RoundRobin) then fetch_add (next_worker r) 1
         else next_worker r) d ∧
      rd_worker d ∈ healthy ∧ policy r ≠ Disaggregated ∧
      (w_pool (rd_worker d) = Both ∨ ∀ w, w ∈ healthy → w_pool w ≠ Both)
  | Err e =>
      r' = r ∧
      (healthy = [] ∧ e = NoHealthyWorkers (show_RoutingPolicy (policy r)) ∨
       healthy ≠ [] ∧ policy r = Disaggregated ∧ e = DisaggregatedRequiresTwoPhase)
  end.

(** Every other candidate loses against the decision. *)
Definition optimal r chain (candidates : list Worker) (d : RouteDecision) : Prop :=
  rd_worker d ∈ candidates ∧
  rd_score d = score_worker (w_id (rd_worker d)) (believed_prefix r chain (rd_worker d)) r ∧
  ∀ w, w ∈ candidates → w ≠ rd_worker d → prefers r chain (rd_worker d) w.

(** Consecutive chat requests; [None] as soon as one panics or fails. *)
Fixpoint chat_run {BH : BlockHash} {V} (now : nat → instant)
    (requests : list (ChatCompletionRequest V)) r : option (list RouteDecision * t T) :=
  match requests with
  | [] => Some ([], r)
  | request :: requests =>
      match select_for_chat now request r with
      | Some (Ok d, r') =>
          '(ds, r'') ← chat_run now requests r'; Some (d :: ds, r'')
      | _ => None
      end
  end.
End contract.
End RouterSpec.

(** ** Sample router *)

Definition sample_config (policy : RoutingPolicy) (workers : list WorkerConfig) :
    RouterConfig := fill_defaults {|
  y_workers := workers; y_routing_policy := policy;
  y_health_check_interval_secs := None; y_prompt_block_chars := Some 4%N;
  y_cache_weight := None; y_load_weight := None; y_prefix_index_ttl_secs := None;
  y_prefix_index_max_entries := None; y_kv_transfer_cost_ms := None;
  y_metrics_scrape := None; y_engine_metrics_interval_secs := None;
  y_engine_cache_hit_metric := None; y_discovery := None |}.

Definition all_up (workers : list WorkerConfig) : WorkerRegistry.t :=
  WorkerRegistry.run (WorkerRegistry.from_config workers)
    (imap (λ i _, WorkerRegistry.SetHealthy (N.of_nat i) true) workers).

Definition sample_router (policy : RoutingPolicy) (workers : list WorkerConfig) :
    Router.t PrefixIndex.t :=
  @Router.new PrefixIndex.t (@prefix_index_belief hm_canonical) (all_up workers)
    (sample_config policy workers).

Definition hello : ChatCompletionRequest unit :=
  chat_request [{| msg_role := lit "user"; msg_content := lit "hello" |}].

Definition still : nat → instant := λ _, 0%N.

(** ** Properties *)

Section properties.
Context {T : Type} `{BIL : BeliefIndexLaws T} {HM : HashMapOrder} {BH : BlockHash}.
Implicit Types (r : Router.t T) (chain : list N).

Lemma chosen_intro r r' chain next d w idx :
  rd_worker d = w →
  rd_matched_prefix_len d = Router.believed_prefix r chain w → rd_prompt_blocks d = length chain →
  r' = Router.set_prefix_index idx (Router.set_next_worker next r) →
  Router.records r chain w idx → RouterSpec.chosen r r' chain next d.
Proof. intros <- Hm Hb Hr Hrec. split_and!; [done..|]. by exists idx. Qed.

Lemma select_for_chat_spec {V} (now : nat → instant)
    (request : ChatCompletionRequest V) (r : Router.t T)
    (Hok : bi_ok (Router.prefix_index r)) :
  ∃ out r', Router.select_for_chat now request r = Some (out, r') ∧
    RouterSpec.chat_contract r
      (chain_hash (canonical_prompt request) (Router.block_size r)) out r'.
Proof.
  unfold Router.select_for_chat, RouterSpec.chat_contract.
  set (chain := chain_hash _ _). set (healthy := WorkerRegistry.healthy_workers _).
  destruct (decide (healthy = [])) as [He|Hne].
  { eexists _, _. split; [done|]. split; [done|by left]. }
  pose proof (Router.chat_candidates_not_nil _ Hne) as Hc.
  destruct (Router.policy r) eqn:Hp.
  - destruct (Router.round_robin_spec now _ chain r Hok Hc) as (w & idx & -> & Hw & Hr).
    eexists _, _. split; [done|]. apply list_elem_of_lookup_2 in Hw.
    apply Router.chat_candidates_elem in Hw as [Hw Hboth].
    split_and!; [by eapply chosen_intro|done..].
  - destruct (Router.choose_spec now (Router.no_healthy r) _ chain r Hok Hc)
      as (w & idx & -> & Hw & _ & Hr).
    eexists _, _. split; [done|].
    apply Router.chat_candidates_elem in Hw as [Hw Hboth].
    split_and!; [|done..]. eapply chosen_intro; [done..| |done]. by destruct r.
  - eexists _, _. split; [done|]. split; [done|by right].
Qed.

(** With a healthy worker and a single-phase policy a selection succeeds. *)
Lemma select_for_chat_ok {V} (now : nat → instant)
    (request : ChatCompletionRequest V) (r : Router.t T)
    (Hok : bi_ok (Router.prefix_index r))
    (Hne : WorkerRegistry.healthy_workers (Router.registry r) ≠ [])
    (Hp : Router.policy r ≠ Disaggregated) :
  ∃ d r', Router.select_for_chat now request r = Some (Ok d, r') ∧
    bi_ok (Router.prefix_index r') ∧ Router.same_setup r r'.
Proof.
  destruct (select_for_chat_spec now request r Hok) as (out & r' & Hsel & Hout).
  destruct (Router.select_for_chat_frame now request r) as (out' & r'' & Hsel' & Hsetup & _).
  rewrite Hsel in Hsel'. injection Hsel' as <- <-.
  destruct out as [d|e]; [|by destruct Hout as (_ & [[? _]|(_ & ? & _)])].
  exists d, r'.
  split_and!; [done| |done..]. by destruct Hout as ((_ & _ & idx & -> & Hidx & _) & _).
Qed.

(** C1.  Contract of [select_for_chat]: it never panics; it succeeds unless
    no worker is healthy or the policy is [disaggregated]; a failure changes
    nothing; a success names a healthy worker ([both] preferred), reports
    the prefix believed before the request and the prompt's block count,
    and changes nothing but the round-robin cursor and the index, which
    records exactly this chain for exactly this worker. *)
Theorem select_for_chat_contract {V} (now : nat → instant)
    (request : ChatCompletionRequest V) (r : Router.t T)
    (Hok : bi_ok (Router.prefix_index r)) :
  ∃ out r', Router.select_for_chat now request r = Some (out, r') ∧
    RouterSpec.chat_contract r
      (chain_hash (canonical_prompt request) (Router.block_size r)) out r'.
Proof. exact (select_for_chat_spec now request r Hok). Qed.

(** Cache-aware selection among candidates whose scores are numbers. *)
Lemma select_cache_aware {V} (now : nat → instant)
    (request : ChatCompletionRequest V) (r : Router.t T)
    (Hok : bi_ok (Router.prefix_index r)) (Hwf : WorkerRegistry.wf (Router.registry r))
    (Hp : Router.policy r = CacheAware)
    (Hne : WorkerRegistry.healthy_workers (Router.registry r) ≠ []) :
  let chain := chain_hash (canonical_prompt request) (Router.block_size r) in
  let candidates := Router.chat_candidates
                      (WorkerRegistry.healthy_workers (Router.registry r)) in
  Forall (Router.scorable r chain) candidates →
  ∃ d r', Router.select_for_chat now request r = Some (Ok d, r') ∧
    RouterSpec.optimal r chain candidates d.
Proof.
  intros chain candidates Hall. pose proof (Router.chat_candidates_not_nil _ Hne) as Hc.
  unfold Router.select_for_chat. rewrite decide_False, Hp by done. fold chain candidates.
  destruct (Router.choose_spec now (Router.no_healthy r) candidates chain r Hok Hc)
    as (w & idx & -> & Hw & Hbest & _).
  eexists _, _. split; [done|]. split_and!; [done..|].
  intros w' Hw' Hne'. eapply Router.best_of_outranks; [done| |done..].
  eapply sublist_NoDup; [by apply (WorkerRegistry.NoDup_healthy_ids _ Hwf)|].
  apply fmap_sublist, Router.chat_candidates_sublist.
Qed.

(** Cache-aware selection is optimal: with distinct worker ids and scores
    that are numbers, the chosen worker outranks every other candidate (higher
    [matched * cache_weight - in_flight * load_weight], then fewer requests
    in flight, then lower id). *)
Theorem cache_aware_optimal {V} (now : nat → instant)
    (request : ChatCompletionRequest V) (r : Router.t T)
    (Hok : bi_ok (Router.prefix_index r)) (Hwf : WorkerRegistry.wf (Router.registry r))
    (Hp : Router.policy r = CacheAware)
    (Hne : WorkerRegistry.healthy_workers (Router.registry r) ≠ []) :
  let chain := chain_hash (canonical_prompt request) (Router.block_size r) in
  let candidates := Router.chat_candidates
                      (WorkerRegistry.healthy_workers (Router.registry r)) in
  Forall (Router.scorable r chain) candidates →
  ∃ d r', Router.select_for_chat now request r = Some (Ok d, r') ∧
    RouterSpec.optimal r chain candidates d.
Proof. exact (select_cache_aware now request r Hok Hwf Hp Hne). Qed.

(** The winner does not depend on the order in which the candidates are
    scored: permuting them yields the same choice, and the same beliefs
    afterwards. *)
Theorem pick_best_order_independent (now : nat → instant)
    (ws1 ws2 : list Worker) (chain : list N) (r : Router.t T)
    (Hok : bi_ok (Router.prefix_index r)) (Hnd : NoDup (w_id <$> ws1))
    (Hall : Forall (Router.scorable r chain) ws1) (Hperm : ws1 ≡ₚ ws2) :
  (Router.pick_best now ws1 chain r).1 = (Router.pick_best now ws2 chain r).1 ∧
  ∀ id h, bi_holds (Router.prefix_index (Router.pick_best now ws1 chain r).2) id h =
          bi_holds (Router.prefix_index (Router.pick_best now ws2 chain r).2) id h.
Proof.
  destruct (Router.pick_best_spec now ws1 chain r Hok) as (idx1 & -> & _ & H1).
  destruct (Router.pick_best_spec now ws2 chain r Hok) as (idx2 & -> & _ & H2).
  split; [simpl|intros; simpl; by rewrite H1, H2].
  destruct (Router.best_of r chain ws1) as [b1|] eqn:E1.
  - assert (ws2 ≠ []) as Hne2.
    { intros ->. symmetry in Hperm. apply Permutation_nil_l in Hperm. by subst. }
    destruct (Router.best_of r chain ws2) as [b2|] eqn:E2.
    2:{ unfold Router.best_of, max_by in E2. by destruct ws2. }
    destruct (Router.best_of_elem _ _ _ _ E1) as (w1 & Hw1 & ->).
    destruct (Router.best_of_elem _ _ _ _ E2) as (w2 & Hw2 & ->).
    destruct (decide (w1 = w2)) as [->|Hne]; [done|exfalso].
    rewrite Forall_forall in Hall.
    eapply (outranks_asym (sw_candidate (Router.candidate r chain w1))
                          (sw_candidate (Router.candidate r chain w2)));
      [by apply Hall|apply Hall; by rewrite Hperm| |].
    + apply (Router.best_of_outranks r chain ws1);
        [by apply Forall_forall|done..|by rewrite Hperm|done].
    + apply (Router.best_of_outranks r chain ws2);
        [rewrite <-Hperm; by apply Forall_forall|by rewrite <-Hperm|done..
        |by rewrite <-Hperm|done].
  - unfold Router.best_of, max_by in E1. destruct ws1; [|done].
    apply Permutation_nil_l in Hperm. by subst.
Qed.

(** C34.  Contract of [select_in_pool]: it succeeds exactly when a healthy
    worker is labelled with that very pool (a worker labelled [both] is no
    candidate); the decision is for such a worker, reports the blocks it is
    believed to hold, records the chain for it and leaves the cursor alone; a
    failure changes nothing.  The worker outranks every other candidate provided
    that all scores are numbers, which they are unless the weights overflow. *)
Theorem select_in_pool_contract (now : nat → instant) (pool : Pool)
    (chain : list N) (r : Router.t T)
    (Hok : bi_ok (Router.prefix_index r)) (Hwf : WorkerRegistry.wf (Router.registry r)) :
  match Router.select_in_pool now pool chain r with
  | (Ok d, r') =>
      RouterSpec.chosen r r' chain (Router.next_worker r) d ∧
      rd_worker d ∈ WorkerRegistry.healthy_workers (Router.registry r) ∧
      w_pool (rd_worker d) = pool ∧
      (Forall (Router.scorable r chain) (Router.pool_candidates pool r) →
       RouterSpec.optimal r chain (Router.pool_candidates pool r) d)
  | (Err e, r') =>
      r' = r ∧
      (∀ w, w ∈ WorkerRegistry.healthy_workers (Router.registry r) → w_pool w ≠ pool) ∧
      e = NoHealthyWorkersInPool (show_Pool pool) (show_RoutingPolicy (Router.policy r))
  end.
Proof.
  unfold Router.select_in_pool. case_decide as He.
  { split_and!; [done| |done]. intros w Hw Hp.
    assert (Hin : w ∈ Router.pool_candidates pool r) by by apply list_elem_of_filter.
    rewrite He in Hin. by apply not_elem_of_nil in Hin. }
  destruct (Router.choose_spec now (Router.no_healthy_in_pool pool r) _ chain r Hok He)
    as (w & idx & -> & Hw & Hbest & Hr).
  pose proof Hw as [Hpool Hin]%list_elem_of_filter. split_and!.
  - eapply chosen_intro; [done..| |done]. by destruct r.
  - done.
  - done.
  - intros Hall. split_and!; [done..|]. intros w' Hw' Hne.
    eapply Router.best_of_outranks; [done| |done..].
    eapply sublist_NoDup; [by apply (WorkerRegistry.NoDup_healthy_ids _ Hwf)|].
    apply fmap_sublist, sublist_filter.
Qed.

(** A successful selection teaches the router: on the same prompt the
    chosen worker now matches every block, and what any other worker matches
    is unchanged, on every prompt. *)
Theorem selection_teaches {V} (now : nat → instant)
    (request : ChatCompletionRequest V) (r r' : Router.t T) (d : RouteDecision)
    (w : Worker) (chain : list N)
    (Hok : bi_ok (Router.prefix_index r))
    (Hsel : Router.select_for_chat now request r = Some (Ok d, r'))
    (Hw : w_id w ≠ w_id (rd_worker d)) :
  bi_ok (Router.prefix_index r') ∧
  Router.believed_prefix r'
    (chain_hash (canonical_prompt request) (Router.block_size r)) (rd_worker d) =
    rd_prompt_blocks d ∧
  Router.believed_prefix r' chain w = Router.believed_prefix r chain w.
Proof.
  destruct (select_for_chat_spec now request r Hok) as (out & r1 & Heq & Hout).
  rewrite Hsel in Heq. simplify_eq.
  destruct Hout as ((_ & Hblocks & idx & -> & Hidx & Hheld) & _).
  unfold Router.believed_prefix. cbn [Router.prefix_index Router.set_prefix_index].
  split_and!; [done| |].
  - rewrite Hblocks. apply held_prefix_all. intros h Hh. rewrite Hheld.
    rewrite bool_decide_true by done. apply orb_true_r.
  - apply held_prefix_ext. intros h _. rewrite Hheld.
    rewrite bool_decide_false by tauto. apply orb_false_r.
Qed.
End properties.

(** ** Round robin *)

Section round_robin.
Context {T : Type} `{BIL : BeliefIndexLaws T} {HM : HashMapOrder} {BH : BlockHash}.
Implicit Types (r : Router.t T).

Definition round_robin_order r : list Worker :=
  Router.chat_candidates (WorkerRegistry.healthy_workers (Router.registry r)).

Lemma round_robin_step {V} now (request : ChatCompletionRequest V) r :
  bi_ok (Router.prefix_index r) → Router.policy r = RoundRobin → round_robin_order r ≠ [] →
  ∃ d idx, Router.select_for_chat now request r =
      Some (Ok d, Router.set_prefix_index idx
                    (Router.set_next_worker (fetch_add (Router.next_worker r) 1) r)) ∧
    bi_ok idx ∧
    round_robin_order r !!
      (N.to_nat (Router.next_worker r) mod length (round_robin_order r)) = Some (rd_worker d).
Proof.
  intros Hok Hp Hne. unfold Router.select_for_chat.
  rewrite decide_False.
  2:{ intros He. apply Hne. unfold round_robin_order. by rewrite He. }
  rewrite Hp. fold (round_robin_order r).
  destruct (Router.round_robin_spec now _ (chain_hash (canonical_prompt request)
    (Router.block_size r)) r Hok Hne) as (w & idx & -> & Hw & Hr & _).
  eexists _, idx. split; [done|]. split; [done|]. cbn [rd_worker].
  rewrite <-Hw. unfold round_robin_order. f_equal.
  by rewrite N2Nat.inj_mod, Nat2N.id.
Qed.

(** Where the requests of a run go; the registry stays as it is. *)
Lemma chat_run_round_robin {V} (now : nat → instant)
    (requests : list (ChatCompletionRequest V)) (r : Router.t T)
    (Hok : bi_ok (Router.prefix_index r)) (Hp : Router.policy r = RoundRobin)
    (Hne : round_robin_order r ≠ [])
    (Hn : (Router.next_worker r + N.of_nat (length requests) ≤ u64_modulus)%N) :
  ∃ ds r', RouterSpec.chat_run now requests r = Some (ds, r') ∧
    length ds = length requests ∧
    (∀ i d, ds !! i = Some d →
       round_robin_order r !!
         ((N.to_nat (Router.next_worker r) + i) mod length (round_robin_order r)) =
       Some (rd_worker d)).
Proof.
  revert r Hok Hp Hne Hn. induction requests as [|request requests IH];
    intros r Hok Hp Hne Hn; cbn [RouterSpec.chat_run].
  { by exists [], r. }
  destruct (round_robin_step now request r Hok Hp Hne) as (d & idx & -> & Hidx & Hd).
  set (r1 := Router.set_prefix_index idx _).
  destruct (IH r1) as (ds & r' & -> & Hlen & Hds); [done..| |].
  { simpl. unfold fetch_add, wrap64. simpl in Hn.
    destruct (decide (Router.next_worker r + 1 = u64_modulus)%N) as [->|].
    - rewrite N.Div0.mod_same. lia.
    - rewrite N.mod_small; lia. }
  exists (d :: ds), r'. split_and!; [done|simpl; by rewrite Hlen|].
  intros [|i] d' Hi; simplify_eq/=; [by rewrite Nat.add_0_r|].
  assert (Hreq : requests ≠ []) by (intros ->; by destruct ds).
  specialize (Hds i d' Hi). unfold round_robin_order in *.
  cbn [r1 Router.set_prefix_index Router.set_next_worker Router.registry
       Router.next_worker] in Hds.
  unfold fetch_add in Hds. rewrite wrap64_small in Hds.
  - rewrite <-Hds. do 2 f_equal. lia.
  - destruct requests; simpl in *; done || lia.
Qed.

(** As many requests as candidates serve every candidate. *)
Lemma chat_run_serves_all (r : Router.t T) (ds : list RouteDecision) :
  length ds = length (round_robin_order r) →
  (∀ i d, ds !! i = Some d →
     round_robin_order r !!
       ((N.to_nat (Router.next_worker r) + i) mod length (round_robin_order r)) =
     Some (rd_worker d)) →
  rd_worker <$> ds ≡ₚ round_robin_order r.
Proof.
  intros Hall Hds. apply (cyclic_perm (N.to_nat (Router.next_worker r))).
  - by rewrite length_fmap.
  - intros i w Hi. rewrite list_lookup_fmap in Hi.
    destruct (ds !! i) as [d|] eqn:Hd; simplify_eq/=. by apply Hds.
Qed.

(** C35.  Round robin is cyclic: while the cursor does not wrap around, the
    [i]-th of consecutive requests goes to the candidate at position
    [(cursor + i) mod n], and [n] consecutive requests serve each of the [n]
    candidates exactly once. *)
Theorem round_robin_cyclic {V} (now : nat → instant)
    (requests : list (ChatCompletionRequest V)) (r : Router.t T)
    (Hok : bi_ok (Router.prefix_index r)) (Hp : Router.policy r = RoundRobin)
    (Hne : round_robin_order r ≠ [])
    (Hn : (Router.next_worker r + N.of_nat (length requests) ≤ u64_modulus)%N) :
  ∃ ds r', RouterSpec.chat_run now requests r = Some (ds, r') ∧
    length ds = length requests ∧
    (∀ i d, ds !! i = Some d →
       round_robin_order r !!
         ((N.to_nat (Router.next_worker r) + i) mod length (round_robin_order r)) =
       Some (rd_worker d)) ∧
    (length requests = length (round_robin_order r) →
     rd_worker <$> ds ≡ₚ round_robin_order r).
Proof.
  destruct (chat_run_round_robin now requests r Hok Hp Hne Hn) as (ds & r' & Hrun & Hlen & Hds).
  exists ds, r'. split_and!; [done..|]. intros Hall.
  apply chat_run_serves_all; [congruence|done].
Qed.

(** A worker labelled [both] never serves a disaggregated phase: when
    every healthy worker is labelled [both], selecting from the prefill or
    the decode pool always fails. *)
Theorem both_workers_serve_no_pool now (pool : Pool) (chain : list N) (r : Router.t T)
    (Hboth : ∀ w, w ∈ WorkerRegistry.healthy_workers (Router.registry r) → w_pool w = Both)
    (Hpool : pool ≠ Both) :
  Router.select_in_pool now pool chain r =
    (Err (NoHealthyWorkersInPool (show_Pool pool) (show_RoutingPolicy (Router.policy r))), r).
Proof.
  unfold Router.select_in_pool. rewrite decide_True; [done|].
  destruct (Router.pool_candidates pool r) as [|w ws] eqn:Hc; [done|exfalso].
  assert (w ∈ Router.pool_candidates pool r) as Hw by (rewrite Hc; by left).
  apply list_elem_of_filter in Hw as [Hw Hin]. apply Hpool. rewrite <-Hw. by apply Hboth.
Qed.
End round_robin.

(** The iteration order of the hash maps never shows: on a well-formed
    registry both selections return the same result and the same router
    whatever order the registry's map iterates in. *)
Theorem selection_deterministic {T V} `{BeliefIndex T} {BH : BlockHash}
    (HM1 HM2 : HashMapOrder) (now : nat → instant) (request : ChatCompletionRequest V)
    (pool : Pool) (chain : list N) (r : Router.t T)
    (Hwf : WorkerRegistry.wf (Router.registry r)) :
  Router.select_for_chat (HM := HM1) now request r =
    Router.select_for_chat (HM := HM2) now request r ∧
  Router.select_in_pool (HM := HM1) now pool chain r =
    Router.select_in_pool (HM := HM2) now pool chain r.
Proof.
  assert (WorkerRegistry.healthy_workers (HM := HM1) (Router.registry r) =
          WorkerRegistry.healthy_workers (HM := HM2) (Router.registry r)) as He
    by by apply WorkerRegistry.healthy_workers_order.
  unfold Router.select_for_chat, Router.select_in_pool, Router.pool_candidates.
  by rewrite He.
Qed.

(** ** The properties at concrete routers *)

Section witnesses.
#[local] Existing Instance hm_canonical.

Definition router_a : Router.t PrefixIndex.t := sample_router CacheAware two_workers.

Lemma router_a_index_ok : bi_ok (Router.prefix_index router_a).
Proof. exact index_ok_new. Qed.

Lemma all_up_wf : WorkerRegistry.wf (all_up two_workers).
Proof. apply WorkerRegistry.wf_run; [by apply WorkerRegistry.wf_from_config|done]. Qed.

Theorem select_for_chat_contract_witness :
  ∃ out r', Router.select_for_chat still hello router_a = Some (out, r') ∧
    RouterSpec.chat_contract router_a
      (chain_hash (canonical_prompt hello) (Router.block_size router_a)) out r'.
Proof. exact (select_for_chat_contract still hello router_a router_a_index_ok). Defined.

Theorem cache_aware_optimal_witness :
  ∃ d r', Router.select_for_chat still hello router_a = Some (Ok d, r') ∧
    RouterSpec.optimal router_a
      (chain_hash (canonical_prompt hello) (Router.block_size router_a))
      (Router.chat_candidates
         (WorkerRegistry.healthy_workers (Router.registry router_a))) d.
Proof.
  apply (cache_aware_optimal still hello router_a router_a_index_ok all_up_wf eq_refl).
  - vm_compute. discriminate.
  - apply Forall_forall. intros w Hw.
    assert (Forall (λ w, f64_is_nan (c_score (sw_candidate (Router.candidate router_a
              (chain_hash (canonical_prompt hello) (Router.block_size router_a)) w))) = false)
            (Router.chat_candidates
               (WorkerRegistry.healthy_workers (Router.registry router_a)))) as Hall.
    { apply (bool_decide_unpack _). vm_compute. exact I. }
    exact (proj1 (Forall_forall _ _) Hall w Hw).
Defined.

Definition both (url : string) : WorkerConfig := {| wc_url := lit url; wc_pool := Both |}.

Definition worker_a : Worker := {| w_id := 0; w_url := lit "http://a"; w_pool := Both |}.
Definition worker_b : Worker := {| w_id := 1; w_url := lit "http://b"; w_pool := Both |}.

Theorem pick_best_order_independent_witness :
  (Router.pick_best still [worker_a; worker_b] [7]%N router_a).1 =
  (Router.pick_best still [worker_b; worker_a] [7]%N router_a).1 ∧
  ∀ id h, bi_holds (Router.prefix_index
            (Router.pick_best still [worker_a; worker_b] [7]%N router_a).2) id h =
          bi_holds (Router.prefix_index
            (Router.pick_best still [worker_b; worker_a] [7]%N router_a).2) id h.
Proof.
  apply (pick_best_order_independent still [worker_a; worker_b] [worker_b; worker_a]
           [7]%N router_a router_a_index_ok).
  - apply (bool_decide_unpack _). vm_compute. exact I.
  - repeat constructor.
  - constructor.
Defined.

Definition prefill_decode : list WorkerConfig :=
  [{| wc_url := lit "http://p"; wc_pool := Prefill |};
   {| wc_url := lit "http://d"; wc_pool := Decode |}].

Definition router_pd : Router.t PrefixIndex.t := sample_router Disaggregated prefill_decode.

Theorem select_in_pool_contract_witness :
  ∃ d r', Router.select_in_pool still Decode [7; 9]%N router_pd = (Ok d, r') ∧
    RouterSpec.chosen router_pd r' [7; 9]%N (Router.next_worker router_pd) d ∧
    RouterSpec.optimal router_pd [7; 9]%N (Router.pool_candidates Decode router_pd) d.
Proof.
  assert (Hwf : WorkerRegistry.wf (Router.registry router_pd))
    by (apply WorkerRegistry.wf_run; [by apply WorkerRegistry.wf_from_config|done]).
  pose proof (select_in_pool_contract still Decode [7; 9]%N router_pd index_ok_new Hwf) as Hc.
  destruct (Router.select_in_pool still Decode [7; 9]%N router_pd) as [[d|e] r'] eqn:Hs.
  - exists d, r'. destruct Hc as (Hch & _ & _ & Hopt). split_and!; [done|exact Hch|].
    apply Hopt.
    assert (Router.pool_candidates Decode router_pd =
      [{| w_id := 1; w_url := lit "http://d"; w_pool := Decode |}]) as -> by by vm_compute.
    repeat constructor.
  - exfalso. vm_compute in Hs. discriminate.
Defined.

Definition after_hello : Router.t PrefixIndex.t :=
  default router_a (snd <$> Router.select_for_chat still hello router_a).

Definition hello_decision : RouteDecision := {|
  rd_worker := worker_a; rd_matched_prefix_len := 0; rd_prompt_blocks := 3;
  rd_score := f64_0 |}.

Theorem selection_teaches_witness :
  Router.believed_prefix after_hello
    (chain_hash (canonical_prompt hello) (Router.block_size router_a)) worker_a =
  rd_prompt_blocks hello_decision.
Proof.
  assert (Hsel : Router.select_for_chat still hello router_a =
                 Some (Ok hello_decision, after_hello)) by (vm_compute; reflexivity).
  assert (Hw : w_id worker_b ≠ w_id (rd_worker hello_decision)) by discriminate.
  destruct (selection_teaches still hello router_a after_hello hello_decision worker_b []
              router_a_index_ok Hsel Hw) as (_ & Hfull & _).
  exact Hfull.
Defined.

Definition three_workers : list WorkerConfig :=
  [both "http://a"; both "http://b"; both "http://c"].

Definition router_rr : Router.t PrefixIndex.t := sample_router RoundRobin three_workers.

Theorem round_robin_cyclic_witness :
  length (round_robin_order router_rr) = 3 ∧
  ∃ ds r', RouterSpec.chat_run still [hello; hello; hello] router_rr = Some (ds, r') ∧
    rd_worker <$> ds ≡ₚ round_robin_order router_rr.
Proof.
  split; [by vm_compute|].
  destruct (round_robin_cyclic still [hello; hello; hello] router_rr)
    as (ds & r' & Hrun & _ & _ & Hperm).
  - exact index_ok_new.
  - reflexivity.
  - vm_compute. discriminate.
  - vm_compute. discriminate.
  - exists ds, r'. split; [exact Hrun|]. apply Hperm. by vm_compute.
Defined.

Theorem both_workers_serve_no_pool_witness :
  WorkerRegistry.healthy_count (Router.registry router_a) = 2 ∧
  Router.select_in_pool still Prefill [7]%N router_a =
    (Err (NoHealthyWorkersInPool (lit "prefill") (lit "cache_aware")), router_a).
Proof.
  split; [by vm_compute|].
  apply (both_workers_serve_no_pool still Prefill [7]%N router_a); [|discriminate].
  apply Forall_forall, (bool_decide_unpack _). vm_compute. exact I.
Defined.

Theorem selection_deterministic_witness :
  Router.select_for_chat (HM := hm_canonical) still hello router_a =
    Router.select_for_chat (HM := hm_reversed) still hello router_a ∧
  Router.select_in_pool (HM := hm_canonical) still Both [7]%N router_a =
    Router.select_in_pool (HM := hm_reversed) still Both [7]%N router_a.
Proof.
  exact (selection_deterministic hm_canonical hm_reversed still hello Both [7]%N
           router_a all_up_wf).
Defined.

(** The cursor is a 64-bit counter and round robin is not cyclic where it
    wraps: with three workers, the requests at cursors [2^64 - 1] and [0] go
    to the same worker. *)
Theorem round_robin_wrap_repeats :
  let r := Router.set_next_worker (u64_modulus - 1) router_rr in
  ∃ d1 d2 r', RouterSpec.chat_run still [hello; hello] r = Some ([d1; d2], r') ∧
    rd_worker d1 = rd_worker d2 ∧ Router.next_worker r' = 1%N.
Proof.
  cbn zeta. eexists _, _, _. split; [vm_compute; reflexivity|]. done.
Qed.

(** The candidate order is not total on every configuration: with finite
    (negative) weights three workers can beat each other in a cycle, since a
    score overflows to NaN; the claim that ties keep the order total needs
    scores that are numbers. *)
Theorem candidate_order_cyclic_with_nan :
  ∃ (r : Router.t PrefixIndex.t) (a b c : ScoredWorker),
    f64_is_finite (Router.cache_weight r) = true ∧
    f64_is_finite (Router.load_weight r) = true ∧
    (∃ w m, a = Router.scored w m r) ∧ (∃ w m, b = Router.scored w m r) ∧
    (∃ w m, c = Router.scored w m r) ∧
    candidate_cmp (sw_candidate b) (sw_candidate a) = Gt ∧
    candidate_cmp (sw_candidate c) (sw_candidate b) = Gt ∧
    candidate_cmp (sw_candidate a) (sw_candidate c) = Gt.
Proof.
  set (w i := {| w_id := i; w_url := []; w_pool := Both |}).
  set (huge := f64_sub f64_0 (S754_finite false (2 ^ 52) 971)).
  set (r := {| Router.registry := all_up three_workers; Router.policy := CacheAware;
    Router.next_worker := 0; Router.prefix_index := PrefixIndex.new;
    Router.inflight := {| InflightTracker.counts := [3; 2; 1]%N |};
    Router.block_size := 4; Router.cache_weight := huge; Router.load_weight := huge |}).
  exists r, (Router.scored (w 0%N) 0 r), (Router.scored (w 1%N) 2 r),
    (Router.scored (w 2%N) 0 r).
  split_and!; first [eexists _, _; reflexivity | vm_compute; reflexivity].
Qed.
End witnesses.
