(* ===== verification/Selection.v ===== *)
(** * Selection at the grain of its locks ([router-core/src/router.rs], [pick_best])

    [Router.choose] scores every candidate and records the winner in one step.
    In the code each candidate is matched by a call on the shared index and
    weighed by two loads of a shared counter, and the winner is recorded by
    another call, all of which interleave with other requests.  This file
    writes the selection as the thread it is, on top of the calls of
    [Concurrent], and says what a decision means when others run. *)

From S2P Require Import Prelude Float64 Hashing Config Request Worker Inflight Belief Prefix Concurrent Router.

Module Selection.
Import IndexThread.

(** What selections share. *)
Record shared := { index : PrefixIndex.t; tracker : InflightTracker.t }.

(** The settings of the router that a selection reads. *)
Record weights := { cache_weight : f64; load_weight : f64 }.

(** A selection between two accesses. *)
Inductive t :=
  (** [longest_match] for [worker] is under way. *)
  | Scoring (worker : Worker) (call : IndexThread.t) (rest : list Worker) (scored : list ScoredWorker)
  (** It is scored next, then its load is read once more for the tie-break. *)
  | Weighing (worker : Worker) (matched : nat) (rest : list Worker) (scored : list ScoredWorker)
  | Loading (worker : Worker) (matched : nat) (score : f64) (rest : list Worker)
      (scored : list ScoredWorker)
  (** The winner is being recorded. *)
  | Dispatching (best : ScoredWorker) (call : IndexThread.t)
  | Decided (out : result RouterError RouteDecision).

Section machine.
Context {HM : HashMapOrder} (wt : weights) (error : RouterError) (chain : list N).
Implicit Types (s : t) (sh : shared) (now : instant) (ws : list Worker) (ss : list ScoredWorker).

Definition best_scored ss : option ScoredWorker :=
  max_by (λ a b, candidate_cmp (sw_candidate a) (sw_candidate b)) ss.

(** On to the next candidate, or to the winner. *)
Definition continue now ws ss : t :=
  match ws with
  | w :: ws => Scoring w (start now (CallLongestMatch (w_id w) chain)) ws ss
  | [] =>
      match best_scored ss with
      | None => Decided (Err error)
      | Some best => Dispatching best (start now (CallRecord (w_id (sw_worker best)) chain))
      end
  end.

(** The next access of a selection, and the section it executes on the index. *)
Definition advance now s sh : option (t * Section_.t) :=
  match s with
  | Scoring w (Returned (Matched matched)) rest ss =>
      Some (Weighing w matched rest ss, Section_.ReadOnly)
  | Scoring w call rest ss =>
      '(call, a) ← IndexThread.advance now call (index sh);
      Some (Scoring w call rest ss, a)
  | Weighing w matched rest ss =>
      let load := InflightTracker.count (w_id w) (tracker sh) in
      Some (Loading w matched
              (f64_sub (f64_mul (f64_of_N (N.of_nat matched)) (cache_weight wt))
                 (f64_mul (f64_of_N load) (load_weight wt))) rest ss, Section_.ReadOnly)
  | Loading w matched score rest ss =>
      let load := InflightTracker.count (w_id w) (tracker sh) in
      Some (continue now rest
              (ss ++ [{| sw_worker := w; sw_matched := matched;
                         sw_candidate := {| c_score := score; c_in_flight := load;
                                            c_id := w_id w |} |}]), Section_.ReadOnly)
  | Dispatching best (Returned Recorded) =>
      Some (Decided (Ok (Router.decision best chain)), Section_.ReadOnly)
  | Dispatching best call =>
      '(call, a) ← IndexThread.advance now call (index sh);
      Some (Dispatching best call, a)
  | Decided _ => None
  end.

Definition run_section (a : Section_.t) sh : shared :=
  {| index := Section_.apply a (index sh); tracker := tracker sh |}.

(** The selection runs while others execute the sections [es] on the index and
    change the counters at will. *)
Inductive among : t → shared → list Section_.t → t → shared → Prop :=
  | among_refl s sh : among s sh [] s sh
  | among_own now s sh es s1 sh1 s2 a :
      among s sh es s1 sh1 → advance now s1 sh1 = Some (s2, a) →
      among s sh es s2 (run_section a sh1)
  | among_other a s sh es s1 sh1 :
      among s sh es s1 sh1 → among s sh (es ++ [a]) s1 (run_section a sh1)
  | among_load tr s sh es s1 sh1 :
      among s sh es s1 sh1 → among s sh es s1 {| index := index sh1; tracker := tr |}.

(** Alone, with the clock at [now]. *)
Inductive alone now : t * shared → t * shared → Prop :=
  | alone_refl x : alone now x x
  | alone_step s sh s1 a z :
      advance now s sh = Some (s1, a) → alone now (s1, run_section a sh) z → alone now (s, sh) z.
End machine.

(** ** A selection alone is [Router.choose] *)

Section alone.
Context {HM : HashMapOrder} (now : instant) (error : RouterError) (chain : list N).
Implicit Types (r : Router.t PrefixIndex.t).

Definition weights_of r : weights :=
  {| cache_weight := Router.cache_weight r; load_weight := Router.load_weight r |}.

Definition shared_of r : shared :=
  {| index := Router.prefix_index r; tracker := Router.inflight r |}.

Lemma alone_then wt x y z :
  alone wt error chain now x y → alone wt error chain now y z → alone wt error chain now x z.
Proof. induction 1; eauto using alone_step. Qed.

(** A call runs inside a selection as it does by itself. *)
Lemma alone_scoring wt w rest ss tr x y :
  IndexThread.alone now x y →
  alone wt error chain now (Scoring w x.1 rest ss, {| index := x.2; tracker := tr |})
    (Scoring w y.1 rest ss, {| index := y.2; tracker := tr |}).
Proof.
  induction 1 as [x|k idx y z Hk _ IH]; [apply alone_refl|].
  unfold IndexThread.step in Hk. destruct (IndexThread.advance now k idx) as [[k' a]|] eqn:Ha; [|done].
  injection Hk as <-. eapply alone_step; [|exact IH]. cbn [fst snd].
  destruct k; cbn [advance index]; by rewrite Ha.
Qed.

Lemma alone_dispatching wt best tr x y :
  IndexThread.alone now x y →
  alone wt error chain now (Dispatching best x.1, {| index := x.2; tracker := tr |})
    (Dispatching best y.1, {| index := y.2; tracker := tr |}).
Proof.
  induction 1 as [x|k idx y z Hk _ IH]; [apply alone_refl|].
  unfold IndexThread.step in Hk. destruct (IndexThread.advance now k idx) as [[k' a]|] eqn:Ha; [|done].
  injection Hk as <-. eapply alone_step; [|exact IH]. cbn [fst snd].
  destruct k; cbn [advance index]; by rewrite Ha.
Qed.

Lemma alone_scores n ws ss r :
  let '(scored, r') := Router.score_all (λ _, now) n chain ws r in
  alone (weights_of r) error chain now
    (continue error chain now ws ss, shared_of r)
    (continue error chain now [] (ss ++ scored), shared_of r').
Proof.
  revert n ss r. induction ws as [|w ws IH]; intros n ss r; cbn [Router.score_all].
  { rewrite app_nil_r. apply alone_refl. }
  pose proof (IndexAlone.alone_execute now (CallLongestMatch (w_id w) chain) (Router.prefix_index r))
    as Hm. cbn [execute] in Hm. change (bi_longest_match now (w_id w) chain (Router.prefix_index r))
    with (PrefixIndex.longest_match now (w_id w) chain (Router.prefix_index r)).
  destruct (PrefixIndex.longest_match _ _ _ _) as [m idx]. cbn [fst snd] in Hm.
  specialize (IH (S n) (ss ++ [Router.scored w m r]) (Router.set_prefix_index idx r)).
  destruct (Router.score_all _ _ _ _ _) as [scored r'].
  apply (alone_scoring (weights_of r) w ws ss (Router.inflight r)) in Hm. cbn [fst snd] in Hm.
  eapply alone_then; [exact Hm|].
  eapply alone_step; [reflexivity|]. eapply alone_step; [reflexivity|].
  eapply alone_step; [reflexivity|]. rewrite <-app_assoc in IH. exact IH.
Qed.

Lemma alone_choose ws r :
  let '(out, r') := Router.choose (λ _, now) error ws chain r in
  alone (weights_of r) error chain now
    (continue error chain now ws [], shared_of r) (Decided out, shared_of r').
Proof.
  unfold Router.choose, Router.pick_best. pose proof (alone_scores 0 ws [] r) as Hs.
  destruct (Router.score_all _ _ _ _ _) as [scored r1].
  cbn [continue app] in Hs. unfold best_scored in Hs.
  destruct (max_by _ scored) as [best|]; [|exact Hs].
  eapply alone_then; [exact Hs|].
  pose proof (IndexAlone.alone_execute now (CallRecord (w_id (sw_worker best)) chain)
    (Router.prefix_index r1)) as Hm.
  apply (alone_dispatching (weights_of r) best (Router.inflight r1)) in Hm. cbn [fst snd] in Hm.
  eapply alone_then; [exact Hm|]. eapply alone_step; [reflexivity|]. apply alone_refl.
Qed.
End alone.

(** ** A selection among others *)

Section among.
Context {HM : HashMapOrder} (wt : weights) (error : RouterError) (chain : list N).
Context (idx0 : PrefixIndex.t) (candidates : list Worker).
Import SectionEffect Interference.

#[local] Abbreviation holds := PrefixIndex.holds.
#[local] Abbreviation sharded := PrefixIndex.sharded.

Implicit Types (es : list Section_.t) (k : IndexThread.t) (idx : PrefixIndex.t) (w : WorkerId).

(** Nobody took blocks from [w]. *)
Definition spared w es : Prop := Forall (λ a, spares w a = true) es.

(** Held at the beginning, or recorded by someone since. *)
Definition known es w (h : N) : bool := holds idx0 w h || recorded w h es.

(** What a number of matched blocks says. *)
Definition credible es w (m : nat) : Prop :=
  m ≤ held_prefix (known es w) chain ∧ (spared w es → held_prefix (holds idx0 w) chain ≤ m).

Definition weighed (m : nat) (score : f64) : Prop :=
  ∃ load, score = f64_sub (f64_mul (f64_of_N (N.of_nat m)) (cache_weight wt))
                    (f64_mul (f64_of_N load) (load_weight wt)).

Record observed es (s : ScoredWorker) : Prop := {
  observed_matched : credible es (w_id (sw_worker s)) (sw_matched s);
  observed_score : weighed (sw_matched s) (c_score (sw_candidate s));
  observed_id : c_id (sw_candidate s) = w_id (sw_worker s);
}.

(** Until something is recorded, the selection has changed no belief. *)
Record tracked es idx : Prop := {
  tracked_sharded : sharded idx;
  tracked_known w h : holds idx w h = true → known es w h = true;
  tracked_kept w h : spared w es → holds idx0 w h = true → holds idx w h = true;
}.

Definition matching es w k : Prop :=
  match k with
  | Matching w' rest ms => w' = w ∧ chain = ms ++ rest ∧ length ms ≤ held_prefix (known es w) chain
  | Touching _ m _ | Returned (Matched m) => credible es w m
  | _ => False
  end.

Definition scored_so_far es (ss : list ScoredWorker) (rest : list Worker) : Prop :=
  Forall (observed es) ss ∧ (sw_worker <$> ss) ++ rest = candidates.

Definition winner es best : Prop :=
  ∃ ss, scored_so_far es ss [] ∧ best_scored ss = Some best.

Definition ok (s : Selection.t) es idx : Prop :=
  match s with
  | Scoring w k rest ss =>
      tracked es idx ∧ matching es (w_id w) k ∧ scored_so_far es ss (w :: rest)
  | Weighing w m rest ss =>
      tracked es idx ∧ credible es (w_id w) m ∧ scored_so_far es ss (w :: rest)
  | Loading w m score rest ss =>
      tracked es idx ∧ credible es (w_id w) m ∧ weighed m score ∧ scored_so_far es ss (w :: rest)
  | Dispatching best k =>
      sharded idx ∧ winner es best ∧
      (spared (w_id (sw_worker best)) es → recording (w_id (sw_worker best)) chain k idx)
  | Decided (Ok d) =>
      sharded idx ∧ ∃ best, d = Router.decision best chain ∧ winner es best ∧
        (spared (w_id (sw_worker best)) es →
         ∀ h, h ∈ chain → holds idx (w_id (sw_worker best)) h = true)
  | Decided (Err e) => candidates = [] ∧ e = error
  end.

(** *** Monotony in what the others do *)

Lemma spared_app w es a : spared w (es ++ [a]) → spared w es ∧ spares w a = true.
Proof. unfold spared. rewrite Forall_app, Forall_singleton. tauto. Qed.

Lemma known_app es a w h : known es w h = true → known (es ++ [a]) w h = true.
Proof. unfold known, recorded. rewrite existsb_app, !orb_true_iff. intros [?|?]; auto. Qed.

Lemma credible_app es a w m : credible es w m → credible (es ++ [a]) w m.
Proof.
  intros [Hu Hl]. split.
  - etrans; [exact Hu|]. apply held_prefix_mono. intros h. apply known_app.
  - intros [Hsp _]%spared_app. by apply Hl.
Qed.

Lemma scored_app es a ss rest : scored_so_far es ss rest → scored_so_far (es ++ [a]) ss rest.
Proof.
  intros [Ho Hw]. split; [|done]. eapply Forall_impl; [exact Ho|].
  intros s [Hm Hs Hi]. split; [by apply credible_app|done..].
Qed.

Lemma winner_app es a best : winner es best → winner (es ++ [a]) best.
Proof. intros (ss & Hss & Hb). exists ss. split; [by apply scored_app|done]. Qed.

Lemma tracked_app es a idx : tracked es idx → tracked (es ++ [a]) (Section_.apply a idx).
Proof.
  intros [Hs Hk Hh]. split.
  - by apply sharded_apply.
  - intros w h [Hw|Ha]%holds_apply_new; [by apply known_app, Hk| |done].
    unfold known, recorded. rewrite existsb_app. cbn. by rewrite Ha, !orb_true_r.
  - intros w h [Hsp Ha]%spared_app Hw. apply holds_apply_keep; [done..|]. by apply Hh.
Qed.

Lemma matching_app es a w k : matching es w k → matching (es ++ [a]) w k.
Proof.
  destruct k as [|w' rest ms| | | | | | | |[]]; cbn; try done; try apply credible_app.
  intros (-> & Hc & Hl). split_and!; [done|done|]. etrans; [exact Hl|].
  apply held_prefix_mono. intros h. apply known_app.
Qed.

Lemma recording_other w es a k idx :
  sharded idx → (spared w es → recording w chain k idx) →
  spared w (es ++ [a]) → recording w chain k (Section_.apply a idx).
Proof.
  intros Hs Hr [Hsp Ha]%spared_app.
  eapply (during_recording w chain k idx [a]); [|done| |by apply Hr].
  - apply during_other, during_refl.
  - by apply Forall_singleton.
Qed.

Lemma ok_other s es idx a : ok s es idx → ok s (es ++ [a]) (Section_.apply a idx).
Proof.
  destruct s as [w k rest ss|w m rest ss|w m sc rest ss|best k|[d|e]]; cbn.
  - intros (Ht & Hm & Hss). split_and!; eauto using tracked_app, matching_app, scored_app.
  - intros (Ht & Hm & Hss). split_and!; eauto using tracked_app, credible_app, scored_app.
  - intros (Ht & Hm & Hsc & Hss). split_and!; eauto using tracked_app, credible_app, scored_app.
  - intros (Hs & Hw & Hr). split_and!; [by apply sharded_apply|by apply winner_app|].
    by apply recording_other.
  - intros (Hs & best & -> & Hw & Hh). split; [by apply sharded_apply|].
    exists best. split_and!; [done|by apply winner_app|].
    intros [Hsp Ha]%spared_app h Hin. apply holds_apply_keep; [done..|]. by apply Hh.
  - done.
Qed.

(** *** The selection's own steps *)

Lemma held_prefix_le_app f (ms rest : list N) :
  held_prefix f (ms ++ rest) ≤ length ms + held_prefix f rest.
Proof. induction ms as [|h ms IH]; [done|]. cbn. destruct (f h); lia. Qed.

(** A step that records nothing for anyone and takes nothing from anyone. *)
Lemma tracked_own es idx a :
  (∀ w h, records w h a = false) → (∀ w, spares w a = true) →
  tracked es idx → tracked es (Section_.apply a idx).
Proof.
  intros Hr Hsp [Hs Hk Hh]. split.
  - by apply sharded_apply.
  - intros w h [Hw|Ha]%holds_apply_new; [by apply Hk| |done]. by rewrite Hr in Ha.
  - intros w h He Hw. apply holds_apply_keep; [done|done|]. by apply Hh.
Qed.

Lemma matching_own now es w k idx k' a :
  IndexThread.advance now k idx = Some (k', a) → tracked es idx → matching es w k →
  tracked es (Section_.apply a idx) ∧ matching es w k'.
Proof.
  intros Hk Ht Hm. destruct k as [|w' rest ms|at_ n [|h hs]| | | | | | |[]]; try done.
  - destruct Hm as (-> & Hc & Hl).
    apply advance_matching in Hk as [-> [(h & rest' & -> & Hh & ->)|[Hz ->]]]; (split; [done|]).
    + cbn. split_and!; [done|by rewrite <-app_assoc|]. rewrite Hc in Hl |- *.
      rewrite (held_prefix_app _ _ _ Hl), length_app. cbn.
      rewrite (tracked_known _ _ Ht w h Hh). lia.
    + cbn. split; [done|]. intros He. rewrite Hc. etrans; [apply held_prefix_le_app|].
      rewrite (Hz (holds idx0 w)); [lia|]. intros h. by apply (tracked_kept _ _ Ht).
  - by injection Hk as <- <-.
  - injection Hk as <- <-. split; [by apply tracked_own|done].
Qed.

Lemma best_scored_none ss : best_scored ss = None → ss = [].
Proof. by destruct ss. Qed.

Lemma ok_continue now es idx rest ss :
  tracked es idx → scored_so_far es ss rest → ok (continue error chain now rest ss) es idx.
Proof.
  intros Ht Hss. destruct rest as [|w rest]; cbn [continue].
  - destruct (best_scored ss) as [best|] eqn:Hb; cbn.
    + split_and!; [apply Ht|by exists ss|]. intros _. split; [done|by left].
    + apply best_scored_none in Hb as ->. destruct Hss as [_ Hc]. by split.
  - cbn. split_and!; [done|done|done|lia|done].
Qed.

Lemma scoring_inv now (w : Worker) k rest ss sh s' a :
  advance wt error chain now (Scoring w k rest ss) sh = Some (s', a) →
  (∃ m, k = Returned (Matched m) ∧ s' = Weighing w m rest ss ∧ a = Section_.ReadOnly) ∨
  (∃ k', IndexThread.advance now k (index sh) = Some (k', a) ∧ s' = Scoring w k' rest ss).
Proof.
  destruct k as [| | | | | | | | |[]]; cbn [advance]; intros Hs;
    first [injection Hs as <- <-; left; by eexists
          |apply bind_Some in Hs as ([k' b] & Hk & [= <- <-]); right; by exists k'].
Qed.

Lemma dispatching_inv now best k sh s' a :
  advance wt error chain now (Dispatching best k) sh = Some (s', a) →
  (k = Returned Recorded ∧ s' = Decided (Ok (Router.decision best chain)) ∧ a = Section_.ReadOnly) ∨
  (∃ k', IndexThread.advance now k (index sh) = Some (k', a) ∧ s' = Dispatching best k').
Proof.
  destruct k as [| | | | | | | | |[]]; cbn [advance]; intros Hs;
    first [injection Hs as <- <-; by left
          |apply bind_Some in Hs as ([k' b] & Hk & [= <- <-]); right; by exists k'].
Qed.

Lemma recording_own now w k idx k' a :
  IndexThread.advance now k idx = Some (k', a) → sharded idx →
  recording w chain k idx → recording w chain k' (Section_.apply a idx).
Proof.
  intros Hk Hs. eapply (during_recording w chain k idx []); [|done|constructor].
  eapply during_own; [exact Hk|apply during_refl].
Qed.

Lemma ok_own now s sh es s' a :
  advance wt error chain now s sh = Some (s', a) → ok s es (index sh) →
  ok s' es (Section_.apply a (index sh)).
Proof.
  intros Ha Hok. destruct s as [w k rest ss|w m rest ss|w m sc rest ss|best k|out]; [..|done].
  - destruct Hok as (Ht & Hm & Hss).
    apply scoring_inv in Ha as [(m & -> & -> & ->)|(k' & Hk & ->)]; [done|].
    destruct (matching_own _ _ _ _ _ _ _ Hk Ht Hm). done.
  - destruct Hok as (Ht & Hm & Hss). injection Ha as <- <-. cbn.
    split_and!; [done|done|by eexists|done].
  - destruct Hok as (Ht & Hm & Hsc & Hss). injection Ha as <- <-. apply ok_continue; [done|].
    destruct Hss as [Ho Hw]. split.
    + apply Forall_app_2; [done|]. by apply Forall_singleton.
    + rewrite fmap_app, <-app_assoc. exact Hw.
  - destruct Hok as (Hs & Hw & Hr).
    apply dispatching_inv in Ha as [(-> & -> & ->)|(k' & Hk & ->)]; cbn.
    + split; [done|]. by exists best.
    + split_and!; [by apply sharded_apply|done|]. intros He.
      eapply recording_own; [exact Hk|done|by apply Hr].
Qed.

Lemma ok_among s sh es s' sh' :
  among wt error chain s sh es s' sh' → ok s [] (index sh) → ok s' es (index sh').
Proof.
  induction 1 as [|now s sh es s1 sh1 s2 a _ IH Ha|a s sh es s1 sh1 _ IH|tr s sh es s1 sh1 _ IH];
    intros Hok; [done|..].
  - eapply ok_own; [exact Ha|by apply IH].
  - by apply ok_other, IH.
  - by apply IH.
Qed.

Lemma ok_start now : sharded idx0 → ok (continue error chain now candidates []) [] idx0.
Proof.
  intros Hs. apply ok_continue; [|by split]. split; [done| |done].
  intros w h Hw. unfold known. by rewrite Hw.
Qed.
(** *** Steps to go *)

(** Accesses that a call has left, at most. *)
Definition call_left k : nat :=
  match k with
  | Recording _ _ rest => S (length rest)
  | Matching _ rest ms => 2 * length rest + length ms + 2
  | Touching _ _ hs => S (length hs)
  | _ => 0
  end.

(** From a fresh start with [n] candidates. *)
Definition to_decide (n : nat) : nat := n * (2 * length chain + 5) + length chain + 2.

Definition steps_left (s : Selection.t) : nat :=
  match s with
  | Scoring _ k rest _ => call_left k + 3 + to_decide (length rest)
  | Weighing _ _ rest _ => 2 + to_decide (length rest)
  | Loading _ _ _ rest _ => 1 + to_decide (length rest)
  | Dispatching _ k => call_left k + 1
  | Decided _ => 0
  end.

(** The calls that a selection makes, and whether they have returned. *)
Definition match_call k : bool := match k with Matching _ _ _ | Touching _ _ _ => true | _ => false end.

Definition record_call k : bool := match k with Recording _ _ _ => true | _ => false end.

(** They always go on. *)
Lemma match_call_next now k idx :
  match_call k = true → ∃ k' a, IndexThread.advance now k idx = Some (k', a) ∧
    call_left k' < call_left k ∧ (match_call k' = true ∨ ∃ m, k' = Returned (Matched m)).
Proof.
  destruct k as [|w [|h rest] ms|at_ m [|h hs]| | | | | | |]; try done; intros _; cbn;
    repeat case_match; eexists _, _; (split; [reflexivity|]); cbn; rewrite ?length_app; cbn;
    (split; [lia|eauto]).
Qed.

Lemma record_call_next now k idx :
  record_call k = true → ∃ k' a, IndexThread.advance now k idx = Some (k', a) ∧
    call_left k' < call_left k ∧ (record_call k' = true ∨ k' = Returned Recorded).
Proof.
  destruct k as [at_ w [|h rest]| | | | | | | | |]; try done; intros _;
    (eexists _, _; split; [reflexivity|]); cbn; (split; [lia|auto]).
Qed.

Lemma steps_left_continue now rest ss :
  steps_left (continue error chain now rest ss) ≤ to_decide (length rest).
Proof.
  destruct rest as [|w rest]; cbn [continue steps_left start call_left length].
  - destruct (best_scored ss); cbn; unfold to_decide; lia.
  - unfold to_decide. lia.
Qed.

(** The calls that a selection is in are its own. *)
Definition calling (s : Selection.t) : Prop :=
  match s with
  | Scoring _ k _ _ => match_call k = true ∨ ∃ m, k = Returned (Matched m)
  | Dispatching _ k => record_call k = true ∨ k = Returned Recorded
  | _ => True
  end.

Lemma calling_continue now rest ss : calling (continue error chain now rest ss).
Proof.
  destruct rest as [|w rest]; cbn [continue]; [destruct (best_scored ss)|]; cbn; auto.
Qed.

(** A selection that has not decided has a next step, and one step less to go
    after it. *)
Lemma steps_left_lt now s sh :
  calling s → (∀ out, s ≠ Decided out) →
  ∃ s' a, advance wt error chain now s sh = Some (s', a) ∧ steps_left s' < steps_left s ∧ calling s'.
Proof.
  destruct s as [w k rest ss|w m rest ss|w m sc rest ss|best k|out]; intros Hc Hd.
  - destruct Hc as [Hp|[m ->]]; [|eexists _, _; split; [reflexivity|cbn; lia]].
    destruct (match_call_next now k (index sh) Hp) as (k' & a & Hk & Hlt & Hc).
    exists (Scoring w k' rest ss), a. split; [|cbn; split; [lia|done]].
    destruct k; try done; cbn [advance]; by rewrite Hk.
  - eexists _, _. split; [reflexivity|cbn; lia].
  - eexists _, _. split; [reflexivity|]. split; [|apply calling_continue].
    eapply Nat.le_lt_trans; [apply steps_left_continue|]. cbn [steps_left]. lia.
  - destruct Hc as [Hp| ->]; [|eexists _, _; split; [reflexivity|cbn; lia]].
    destruct (record_call_next now k (index sh) Hp) as (k' & a & Hk & Hlt & Hc).
    exists (Dispatching best k'), a. split; [|cbn; split; [lia|done]].
    destruct k; try done; cbn [advance]; by rewrite Hk.
  - by destruct (Hd out).
Qed.

Lemma calling_among s sh es s' sh' :
  among wt error chain s sh es s' sh' → calling s → calling s'.
Proof.
  induction 1 as [|now s sh es s1 sh1 s2 a _ IH Ha| |]; auto. intros Hc%IH.
  destruct (steps_left_lt now s1 sh1 Hc) as (s3 & b & Ha' & _ & Hc').
  { intros out ->. done. }
  rewrite Ha in Ha'. by injection Ha' as -> ->.
Qed.
End among.

(** The winner outranks every candidate with another id. *)
Lemma best_scored_outranks ss best s :
  Forall (λ s, comparable (sw_candidate s)) ss → best_scored ss = Some best → s ∈ ss →
  c_id (sw_candidate best) ≠ c_id (sw_candidate s) →
  outranks (sw_candidate best) (sw_candidate s).
Proof.
  intros Hc Hb Hin Hne. pose proof (max_by_elem _ _ _ Hb) as Hbin. rewrite Forall_forall in Hc.
  apply not_outranked; [by apply Hc..| |done].
  apply (max_by_greatest (λ a b, candidate_cmp (sw_candidate a) (sw_candidate b))
    (λ s, comparable (sw_candidate s))) with (l := ss); [| | |exact Hb|exact Hin].
  - intros x y Hx Hy. by apply candidate_cmp_antisym.
  - intros x y z Hx Hy Hz. by apply candidate_cmp_coherent.
  - by apply Forall_forall.
Qed.
End Selection.

(** Without interruption, the steps of a selection (one access to the
    shared state each) are [Router.choose]: the same decision or error, and the
    same index. *)
Theorem uninterrupted_selection_is_choose {HM : HashMapOrder} (now : instant) (error : RouterError)
    (candidates : list Worker) (chain : list N) (r : Router.t PrefixIndex.t) :
  let '(out, r') := Router.choose (λ _, now) error candidates chain r in
  Selection.alone (Selection.weights_of r) error chain now
    (Selection.continue error chain now candidates [], Selection.shared_of r)
    (Selection.Decided out, Selection.shared_of r').
Proof. apply Selection.alone_choose. Qed.

(** C5.  What a decision means while others run, at any interleaving with their
    critical sections [es] on the index and any change of the counters.  The
    selection fails only without candidates.  Otherwise every candidate was
    scored once, in order, by the documented formula at some load, from a match
    that is at most what was held or recorded meanwhile and, when nobody took
    blocks from the worker, at least what it held at the start; the winner is
    what the code's comparison leaves of these candidates, and if none of their
    scores is NaN it outranks every other by what was observed; and it holds the
    whole chain in the end unless someone took blocks from it. *)
Theorem concurrent_selection {HM : HashMapOrder} (wt : Selection.weights) (error : RouterError)
    (chain : list N) (now : instant) (candidates : list Worker) (sh sh' : Selection.shared)
    (es : list Section_.t) (out : result RouterError RouteDecision)
    (Hs : PrefixIndex.sharded (Selection.index sh))
    (Hr : Selection.among wt error chain (Selection.continue error chain now candidates []) sh es
            (Selection.Decided out) sh') :
  (candidates = [] ∧ out = Err error) ∨
  ∃ ss best,
    out = Ok (Router.decision best chain) ∧ best ∈ ss ∧ Selection.best_scored ss = Some best ∧
    sw_worker <$> ss = candidates ∧
    (∀ s, s ∈ ss →
       let w := w_id (sw_worker s) in
       sw_matched s ≤ held_prefix (λ h, PrefixIndex.holds (Selection.index sh) w h ||
                                        Interference.recorded w h es) chain ∧
       (Forall (λ a, SectionEffect.spares w a = true) es →
        held_prefix (PrefixIndex.holds (Selection.index sh) w) chain ≤ sw_matched s) ∧
       ∃ load, c_score (sw_candidate s) =
         f64_sub (f64_mul (f64_of_N (N.of_nat (sw_matched s))) (Selection.cache_weight wt))
           (f64_mul (f64_of_N load) (Selection.load_weight wt))) ∧
    (Forall (λ s, comparable (sw_candidate s)) ss →
     ∀ s, s ∈ ss → w_id (sw_worker s) ≠ w_id (sw_worker best) →
       outranks (sw_candidate best) (sw_candidate s)) ∧
    (Forall (λ a, SectionEffect.spares (w_id (sw_worker best)) a = true) es →
     ∀ h, h ∈ chain →
       PrefixIndex.holds (Selection.index sh') (w_id (sw_worker best)) h = true).
Proof.
  pose proof (Selection.ok_among wt error chain (Selection.index sh) candidates _ _ _ _ _ Hr
    (Selection.ok_start wt error chain _ _ now Hs)) as Hok.
  destruct out as [d|e]; [right|left; by destruct Hok as [? ->]].
  destruct Hok as (_ & best & -> & (ss & [Ho Hc] & Hb) & Hh).
  rewrite app_nil_r in Hc. rewrite Forall_forall in Ho.
  pose proof (max_by_elem _ _ _ Hb) as Hin.
  exists ss, best. split_and!; [done|done|done|done| | |done].
  - intros s Hsin. destruct (Ho s Hsin) as [[Hu Hl] Hsc _]. by split_and!.
  - intros Hcmp s Hsin Hne. apply (Selection.best_scored_outranks ss); [done..|].
    rewrite (Selection.observed_id _ _ _ _ _ (Ho s Hsin)),
      (Selection.observed_id _ _ _ _ _ (Ho best Hin)). done.
Qed.

(** C18.  A selection cannot be kept from deciding: wherever it is, whatever the
    others do, it has a next access, and every access of its own leaves at least
    one fewer to go of the [n * (2 * blocks + 5) + blocks + 2] that [n]
    candidates can cost. *)
Theorem selection_steps_bounded {HM : HashMapOrder} (wt : Selection.weights) (error : RouterError)
    (chain : list N) (now now' : instant) (candidates : list Worker) (sh sh' : Selection.shared)
    (es : list Section_.t) (s : Selection.t)
    (Hr : Selection.among wt error chain (Selection.continue error chain now candidates []) sh es s sh')
    (Hd : ∀ out, s ≠ Selection.Decided out) :
  Selection.steps_left chain (Selection.continue error chain now candidates []) ≤
    length candidates * (2 * length chain + 5) + length chain + 2 ∧
  ∃ s' a, Selection.advance wt error chain now' s sh' = Some (s', a) ∧
    Selection.steps_left chain s' < Selection.steps_left chain s.
Proof.
  split; [apply Selection.steps_left_continue|].
  destruct (Selection.steps_left_lt wt error chain now' s sh') as (s' & a & Ha & Hlt & _).
  - eapply Selection.calling_among; [exact Hr|]. apply Selection.calling_continue.
  - exact Hd.
  - by exists s', a.
Qed.

(** ** A selection at a concrete schedule *)

Section witnesses.
#[local] Existing Instance hm_canonical.
Import Selection.

Inductive happens :=
  | Own (now : instant)
  | Other (a : Section_.t)
  | Loads (tr : InflightTracker.t).

(** What has happened so far: the sections of the others, and where the
    selection is. *)
Definition follow (wt : weights) (error : RouterError) (chain : list N)
    (acc : option (list Section_.t * Selection.t * shared)) (c : happens) :
    option (list Section_.t * Selection.t * shared) :=
  '(es, s, sh) ← acc;
  match c with
  | Own now => '(s, a) ← advance wt error chain now s sh; Some (es, s, run_section a sh)
  | Other a => Some (es ++ [a], s, run_section a sh)
  | Loads tr => Some (es, s, {| index := index sh; tracker := tr |})
  end.

Lemma follow_among wt error chain s0 sh0 cs es s sh :
  foldl (follow wt error chain) (Some ([], s0, sh0)) cs = Some (es, s, sh) →
  among wt error chain s0 sh0 es s sh.
Proof.
  revert es s sh. induction cs as [|c cs IH] using rev_ind; intros es s sh.
  { intros [= <- <- <-]. apply among_refl. }
  rewrite foldl_app. cbn [foldl]. unfold follow at 1.
  destruct (foldl _ _ cs) as [[[es1 s1] sh1]|]; [|done]. specialize (IH _ _ _ eq_refl).
  destruct c as [now|a|tr]; cbn [mbind option_bind].
  - destruct (advance _ _ _ _ _ _) as [[s2 a]|] eqn:Ha; [|done]. intros [= <- <- <-].
    eapply among_own; [exact IH|exact Ha].
  - intros [= <- <- <-]. by apply among_other.
  - intros [= <- <- <-]. by apply among_load.
Qed.

Definition sample_weights : weights := {| cache_weight := f64_1; load_weight := f64_1 |}.

(** Worker 0 holds block 1.  While it is matched, another request teaches the
    index that worker 1 holds the chain; a request is in flight at worker 0 when
    worker 1 has been weighed. *)
Definition before_selection : shared :=
  {| index := index_with 5 [1]%N; tracker := {| InflightTracker.counts := [0; 0]%N |} |}.

Definition selection_schedule : list happens :=
  [Own 20; Other (Section_.Record 21 1 1%N); Own 20; Other (Section_.Record 21 1 2%N)] ++
  replicate 4 (Own 20) ++ [Own 20; Own 20; Own 20; Loads {| InflightTracker.counts := [1; 0]%N |}] ++
  replicate 11 (Own 20).

Definition selected : RouteDecision :=
  {| rd_worker := worker_b; rd_matched_prefix_len := 2; rd_prompt_blocks := 2;
     rd_score := f64_of_N 2 |}.

Definition selection_followed : option (list Section_.t * Selection.t * shared) :=
  foldl (follow sample_weights (NoHealthyWorkers []) [1; 2]%N)
    (Some ([], continue (NoHealthyWorkers []) [1; 2]%N 10 [worker_a; worker_b] [],
           before_selection)) selection_schedule.

Definition after_selection : shared := default before_selection (snd <$> selection_followed).

Theorem concurrent_selection_witness :
  PrefixIndex.holds (index before_selection) 1 2 = false ∧
  ∃ best, Router.decision best [1; 2]%N = selected ∧
    ∀ h, h ∈ [1; 2]%N → PrefixIndex.holds (index after_selection) 1 h = true.
Proof.
  split; [vm_compute; reflexivity|].
  destruct (concurrent_selection sample_weights (NoHealthyWorkers []) [1; 2]%N 10
    [worker_a; worker_b] before_selection after_selection
    [Section_.Record 21 1 1; Section_.Record 21 1 2] (Ok selected))
    as [[? _]|(ss & best & Hb & _ & _ & _ & _ & _ & Hh)]; [..|done|].
  - apply index_with_sharded.
  - apply (follow_among _ _ _ _ _ selection_schedule). vm_compute. reflexivity.
  - injection Hb as Hw Hm Hsc. exists best. split.
    + unfold Router.decision, selected. rewrite <-Hw, <-Hm, <-Hsc. reflexivity.
    + rewrite <-Hw in Hh. apply Hh. repeat constructor.
Defined.

(** The selection of the schedule above after its first twelve events. *)
Definition selection_halfway : list Section_.t * Selection.t * shared :=
  default ([], continue (NoHealthyWorkers []) [1; 2]%N 10 [worker_a; worker_b] [], before_selection)
    (foldl (follow sample_weights (NoHealthyWorkers []) [1; 2]%N)
      (Some ([], continue (NoHealthyWorkers []) [1; 2]%N 10 [worker_a; worker_b] [],
             before_selection)) (take 12 selection_schedule)).

Theorem selection_steps_bounded_witness :
  ∃ s' a, advance sample_weights (NoHealthyWorkers []) [1; 2]%N 30 selection_halfway.1.2
            selection_halfway.2 = Some (s', a) ∧
    steps_left [1; 2]%N s' < steps_left [1; 2]%N selection_halfway.1.2.
Proof.
  apply (selection_steps_bounded sample_weights (NoHealthyWorkers []) [1; 2]%N 10 30
    [worker_a; worker_b] before_selection selection_halfway.2 selection_halfway.1.1
    selection_halfway.1.2).
  - apply (follow_among _ _ _ _ _ (take 12 selection_schedule)). vm_compute. reflexivity.
  - vm_compute. discriminate.
Defined.
End witnesses.
