(* ===== verification/Discovery.v ===== *)
(** * Worker discovery ([router-server/src/discovery.rs])

    Reconciliation of the registry and the prefix index with the endpoints of
    a headless service, the watch loop over EndpointSlice events, and the
    retry loop with its backoff.  The Kubernetes client is a parameter: a watch
    is the list of events it yields and how it ends. *)

From S2P Require Import Prelude Float64 Hashing Config Request Worker Inflight Belief Prefix Router.

(** ** EndpointSlices

    The fields that the program reads; [slice_name] is [ResourceExt::name_any]. *)

Record Endpoint := {
  ep_addresses : list rstr;
  (** [conditions], with its [ready] field. *)
  ep_conditions : option (option bool);
}.

Record EndpointSlice := {
  slice_name : rstr;
  (** [ports], each with its optional number. *)
  slice_ports : option (list (option Z));
  slice_endpoints : list Endpoint;
}.

Definition endpoint_is_ready (endpoint : Endpoint) : bool :=
  match ep_conditions endpoint with
  | None => true
  | Some ready => default false ready
  end.

Definition slice_port (slice : EndpointSlice) : Z :=
  default 8001%Z (ports ← slice_ports slice; port ← head ports; port).

Definition endpoint_url (address : rstr) (port : Z) : rstr :=
  lit "http://" ++ address ++ lit ":" ++ lit (pretty port).

Definition endpoint_urls (slice : EndpointSlice) : gset rstr :=
  let port := slice_port slice in
  foldl (λ urls endpoint,
    if endpoint_is_ready endpoint
    then foldl (λ urls address, {[endpoint_url address port]} ∪ urls) urls (ep_addresses endpoint)
    else urls) ∅ (slice_endpoints slice).

(** ** Reconciliation *)

Module Discovery.

Record t {T : Type} := {
  registry : WorkerRegistry.t;
  index : T;
  (** [DiscoveredWorkers]. *)
  by_url : gmap rstr WorkerId;
}.
Arguments t : clear implicits.

Section reconcile.
Context {T : Type} `{BI : BeliefIndex T} {HM : HashMapOrder}.

(** One iteration of the removal loop. *)
Definition drop_url (d : t T) (url : rstr) : t T :=
  match by_url d !! url with
  | Some id => {|
      registry := (WorkerRegistry.remove_worker id (registry d)).2;
      index := bi_remove_worker id (index d);
      by_url := delete url (by_url d);
    |}
  | None => d
  end.

(** One iteration of the registration loop. *)
Definition add_url (acc : t T * nat) (url : rstr) : t T * nat :=
  let '(d, added) := acc in
  match by_url d !! url with
  | Some _ => (d, added)
  | None =>
      let '(id, reg) := WorkerRegistry.register_worker url Both (registry d) in
      ({| registry := reg; index := index d; by_url := <[url := id]> (by_url d) |}, S added)
  end.

Definition gone (desired_urls : gset rstr) (d : t T) : list rstr :=
  filter (λ url, url ∉ desired_urls) (hm_iter (by_url d)).*1.

Definition reconcile (desired_urls : gset rstr) (d : t T) : (nat * nat) * t T :=
  let gone := gone desired_urls d in
  let d := foldl drop_url d gone in
  let '(d, added) := foldl add_url (d, 0) (hs_iter desired_urls) in
  ((length gone, added), d).
End reconcile.

(** ** Invariant: discovery owns the workers it remembers *)

Record ok {T} `{BeliefIndex T} (d : t T) : Prop := {
  ok_registry : WorkerRegistry.wf (registry d);
  ok_index : bi_ok (index d);
  ok_owned url id : by_url d !! url = Some id →
    ∃ h, WorkerRegistry.workers (registry d) !! id =
         Some {| ws_worker := {| w_id := id; w_url := url; w_pool := Both |}; ws_healthy := h |};
}.

(** What a reconciliation does to the state. *)
Record reconciled {T} `{BeliefIndex T} (desired : gset rstr) (d : t T)
    (counts : nat * nat) (d' : t T) : Prop := {
  rec_ok : ok d';
  (** The discovered set becomes the desired set; survivors keep their ids. *)
  rec_desired url : is_Some (by_url d' !! url) ↔ url ∈ desired;
  rec_survivors url id : url ∈ desired → by_url d !! url = Some id →
    by_url d' !! url = Some id;
  (** Removed endpoints leave the registry and the index. *)
  rec_gone url id : by_url d !! url = Some id → url ∉ desired →
    WorkerRegistry.workers (registry d') !! id = None ∧
    ∀ h, bi_holds (index d') id h = false;
  (** Every other worker keeps its registration, health and beliefs. *)
  rec_others id : (∀ url, by_url d !! url = Some id → url ∈ desired) →
    ((id < WorkerRegistry.next_id (registry d))%N →
     WorkerRegistry.workers (registry d') !! id = WorkerRegistry.workers (registry d) !! id) ∧
    ∀ h, bi_holds (index d') id h = bi_holds (index d) id h;
  (** New endpoints get fresh ids and start unhealthy. *)
  rec_added url id : by_url d !! url = None → by_url d' !! url = Some id →
    (WorkerRegistry.next_id (registry d) ≤ id)%N ∧
    WorkerRegistry.is_healthy id (registry d') = false;
  rec_removed_count : counts.1 = size (dom (by_url d) ∖ desired);
  rec_added_count : counts.2 = size (desired ∖ dom (by_url d));
  rec_next : (WorkerRegistry.next_id (registry d) ≤ WorkerRegistry.next_id (registry d') ≤
              WorkerRegistry.next_id (registry d) + N.of_nat (size desired))%N;
}.

Section lemmas.
Context {T : Type} `{BIL : BeliefIndexLaws T} {HM : HashMapOrder}.
Implicit Types (d : t T) (url : rstr) (id : WorkerId) (L : list rstr).

Lemma ok_injective d url url' id :
  ok d → by_url d !! url = Some id → by_url d !! url' = Some id → url = url'.
Proof.
  intros Hd H1 H2. apply (ok_owned _ Hd) in H1 as [h1 H1].
  apply (ok_owned _ Hd) in H2 as [h2 H2]. congruence.
Qed.

Lemma ok_below d url id :
  ok d → by_url d !! url = Some id → (id < WorkerRegistry.next_id (registry d))%N.
Proof.
  intros Hd H1. pose proof (ok_owned _ Hd _ _ H1) as [h Hh].
  by apply (WorkerRegistry.wf_bound _ (ok_registry _ Hd)) in Hh.
Qed.

Lemma wf_remove id r : WorkerRegistry.wf r → WorkerRegistry.wf (WorkerRegistry.remove_worker id r).2.
Proof.
  intros [H1 H2 H3]. split; [| |done]; intros i s; rewrite WorkerRegistry.lookup_remove;
    case_decide; try done; eauto.
Qed.

Lemma drop_url_ok d url : ok d → ok (drop_url d url).
Proof.
  intros Hd. unfold drop_url. destruct (by_url d !! url) as [id|] eqn:Hu; [|done].
  split; cbn [registry index by_url].
  - apply wf_remove, Hd.
  - apply bi_remove_ok, Hd.
  - intros url' id' [Hne Hl]%lookup_delete_Some. rewrite WorkerRegistry.lookup_remove.
    rewrite decide_False; [by apply Hd|].
    intros ->. by pose proof (ok_injective _ _ _ _ Hd Hu Hl).
Qed.

(** The ids of [url :: L], after [url] was dropped. *)
Lemma exists_drop_url d url L id :
  Exists (λ url, by_url d !! url = Some id) (url :: L) ↔
  by_url d !! url = Some id ∨ Exists (λ url', by_url (drop_url d url) !! url' = Some id) L.
Proof.
  rewrite Exists_cons. unfold drop_url.
  destruct (by_url d !! url) as [idu|] eqn:Hu; [|done]. cbn [by_url].
  rewrite !Exists_exists. split.
  - intros [?|(u & Hin & Hl)]; [by left|].
    destruct (decide (u = url)) as [->|]; [left; congruence|right].
    exists u. by rewrite lookup_delete_ne.
  - intros [?|(u & Hin & [_ ?]%lookup_delete_Some)]; [by left|right; eauto].
Qed.

Lemma drop_all_spec L d :
  ok d →
  let d' := foldl drop_url d L in
  ok d' ∧
  (∀ url, by_url d' !! url = if decide (url ∈ L) then None else by_url d !! url) ∧
  (∀ id, WorkerRegistry.workers (registry d') !! id =
     if decide (Exists (λ url, by_url d !! url = Some id) L) then None
     else WorkerRegistry.workers (registry d) !! id) ∧
  (∀ id h, bi_holds (index d') id h =
     if decide (Exists (λ url, by_url d !! url = Some id) L) then false
     else bi_holds (index d) id h) ∧
  WorkerRegistry.next_id (registry d') = WorkerRegistry.next_id (registry d).
Proof.
  revert d. induction L as [|url L IH]; intros d Hd; cbn [foldl].
  { assert (∀ id, ¬ Exists (λ url, by_url d !! url = Some id) []) as Hnil by (intros id; by inv 1).
    split_and!; [done|..|done]; intros.
    - by rewrite decide_False by apply not_elem_of_nil.
    - by rewrite decide_False by apply Hnil.
    - by rewrite decide_False by apply Hnil. }
  pose proof (exists_drop_url d url L) as Hex.
  destruct (IH (drop_url d url) (drop_url_ok d url Hd)) as (Hok & Hby & Hw & Hh & Hn).
  clear IH. split_and!; [done|..].
  - intros u. rewrite Hby. unfold drop_url.
    destruct (by_url d !! url) as [idu|] eqn:Hu; cbn [by_url].
    + destruct (decide (u = url)) as [->|Hne].
      * rewrite lookup_delete_eq, (decide_True (P := url ∈ url :: L)) by by left.
        by case_decide.
      * rewrite lookup_delete_ne by done. apply decide_ext. set_solver.
    + destruct (decide (u = url)) as [->|Hne].
      * rewrite (decide_True (P := url ∈ url :: L)) by by left. by case_decide.
      * apply decide_ext. set_solver.
  - intros id. rewrite Hw.
    destruct (decide (Exists _ (url :: L))) as [He|He]; rewrite Hex in He.
    + destruct He as [He|He]; [|by rewrite decide_True].
      case_decide; [done|]. unfold drop_url. rewrite He. cbn [registry].
      rewrite WorkerRegistry.lookup_remove. by rewrite decide_True.
    + rewrite decide_False by tauto. unfold drop_url.
      destruct (by_url d !! url) as [idu|] eqn:Hu; [|done]. cbn [registry].
      rewrite WorkerRegistry.lookup_remove, decide_False; [done|]. intros ->. tauto.
  - intros id h. rewrite Hh. pose proof (ok_index _ Hd) as Hidx.
    destruct (decide (Exists _ (url :: L))) as [He|He]; rewrite Hex in He.
    + destruct He as [He|He]; [|by rewrite decide_True].
      case_decide; [done|]. unfold drop_url. rewrite He. cbn [index].
      rewrite bi_remove_holds, bool_decide_true by done. apply andb_false_r.
    + rewrite decide_False by tauto. unfold drop_url.
      destruct (by_url d !! url) as [idu|] eqn:Hu; [|done]. cbn [index].
      rewrite bi_remove_holds by done. rewrite bool_decide_false; [apply andb_true_r|].
      intros ->. tauto.
  - rewrite Hn. unfold drop_url. by destruct (by_url d !! url).
Qed.

Lemma wf_register url pool r :
  WorkerRegistry.wf r → (WorkerRegistry.next_id r + 1 < u64_modulus)%N →
  WorkerRegistry.wf (WorkerRegistry.register_worker url pool r).2.
Proof. exact (WorkerRegistry.wf_apply_op r (WorkerRegistry.Register url pool)). Qed.

Lemma next_id_register url pool r :
  (WorkerRegistry.next_id r + 1 < u64_modulus)%N →
  WorkerRegistry.next_id (WorkerRegistry.register_worker url pool r).2 =
  (WorkerRegistry.next_id r + 1)%N.
Proof. intros Hn. simpl. unfold fetch_add. by rewrite wrap64_small. Qed.

Definition register_url d url : t T := {|
  registry := (WorkerRegistry.register_worker url Both (registry d)).2;
  index := index d;
  by_url := <[url := WorkerRegistry.next_id (registry d)]> (by_url d);
|}.

Lemma register_url_ok d url :
  ok d → by_url d !! url = None → (WorkerRegistry.next_id (registry d) + 1 < u64_modulus)%N →
  ok (register_url d url).
Proof.
  intros Hd Hu Hn. split; cbn [registry index by_url register_url].
  - by apply wf_register; [apply Hd|].
  - apply Hd.
  - intros url' id. rewrite lookup_insert_Some, WorkerRegistry.lookup_register.
    intros [[-> <-]|[Hne Hl]].
    + rewrite decide_True by done. by eexists.
    + rewrite decide_False; [by apply Hd|]. apply ok_below in Hl; [lia|done].
Qed.

Lemma add_all_spec L d n :
  ok d → NoDup L →
  (WorkerRegistry.next_id (registry d) + N.of_nat (length L) < u64_modulus)%N →
  let '(d', added) := foldl add_url (d, n) L in
  ok d' ∧ index d' = index d ∧
  (∀ url, is_Some (by_url d' !! url) ↔ url ∈ L ∨ is_Some (by_url d !! url)) ∧
  (∀ url id, by_url d !! url = Some id → by_url d' !! url = Some id) ∧
  (∀ id, (id < WorkerRegistry.next_id (registry d))%N →
     WorkerRegistry.workers (registry d') !! id = WorkerRegistry.workers (registry d) !! id) ∧
  (∀ url id, by_url d !! url = None → by_url d' !! url = Some id →
     (WorkerRegistry.next_id (registry d) ≤ id)%N ∧
     WorkerRegistry.is_healthy id (registry d') = false) ∧
  added = n + length (filter (λ url, by_url d !! url = None) L) ∧
  (WorkerRegistry.next_id (registry d) ≤ WorkerRegistry.next_id (registry d') ≤
   WorkerRegistry.next_id (registry d) + N.of_nat (length L))%N.
Proof.
  revert d n. induction L as [|url L IH]; intros d n Hd Hnd Hn; cbn [foldl].
  { split_and!; [done|done| |done|done|intros; congruence|simpl; lia..].
    intros url. rewrite elem_of_nil. tauto. }
  apply NoDup_cons in Hnd as [Hni Hnd].
  unfold add_url at 2. destruct (by_url d !! url) as [idu|] eqn:Hu.
  - specialize (IH d n Hd Hnd ltac:(simpl in Hn; lia)).
    destruct (foldl add_url (d, n) L) as [d' added].
    destruct IH as (Hok & Hidx & Hdom & Hkeep & Hw & Hnew & Hadd & Hnx).
    split_and!; [done|done| |done|done|done| |simpl; lia..].
    + intros url'. rewrite Hdom, elem_of_cons. split; [tauto|].
      intros [[->|?]|?]; [by right|tauto|tauto].
    + rewrite filter_cons, decide_False by congruence. done.
  - change (WorkerRegistry.register_worker url Both (registry d)) with
      (WorkerRegistry.next_id (registry d),
       (WorkerRegistry.register_worker url Both (registry d)).2). cbv beta iota zeta.
    fold (register_url d url).
    assert (Hn1 : (WorkerRegistry.next_id (registry d) + 1 < u64_modulus)%N)
      by (simpl in Hn; lia).
    pose proof (next_id_register url Both (registry d) Hn1) as Hnext.
    specialize (IH (register_url d url) (S n) (register_url_ok d url Hd Hu Hn1) Hnd).
    cbn [registry index by_url register_url] in IH. rewrite Hnext in IH.
    specialize (IH ltac:(simpl in Hn; lia)).
    destruct (foldl add_url (register_url d url, S n) L) as [d' added].
    destruct IH as (Hok & Hidx & Hdom & Hkeep & Hw & Hnew & Hadd & Hnx).
    split_and!; [done|done| | | | | |simpl; lia..].
    + intros url'. rewrite Hdom, elem_of_cons, lookup_insert_is_Some'.
      split; [intros [?|[->|?]]|intros [[->|?]|?]]; tauto.
    + intros url' id Hl. apply Hkeep. rewrite lookup_insert_ne; [done|congruence].
    + intros id Hid. rewrite Hw by lia. rewrite WorkerRegistry.lookup_register.
      by rewrite decide_False by lia.
    + intros url' id Hl Hl'. destruct (decide (url' = url)) as [->|Hne].
      * assert (id = WorkerRegistry.next_id (registry d)) as ->.
        { rewrite (Hkeep url _ (lookup_insert_eq _ _ _)) in Hl'. congruence. }
        split; [lia|]. unfold WorkerRegistry.is_healthy.
        rewrite Hw by lia. rewrite WorkerRegistry.lookup_register.
        by rewrite decide_True.
      * destruct (Hnew url' id) as [? ?]; [by rewrite lookup_insert_ne|done|].
        split; [lia|done].
    + rewrite Hadd, filter_cons, decide_True by done. simpl.
      rewrite (list_filter_ext_in (λ url', <[url:=WorkerRegistry.next_id (registry d)]> (by_url d)
        !! url' = None) (λ url', by_url d !! url' = None) L); [lia|].
      intros x Hx. rewrite lookup_insert_ne; [done|]. by intros ->.
Qed.

(** Whatever the state, a reconciliation adds no belief. *)
Lemma reconcile_shrinks desired d :
  bi_ok (index d) →
  bi_ok (index (reconcile desired d).2) ∧
  ∀ id h, bi_holds (index (reconcile desired d).2) id h = true → bi_holds (index d) id h = true.
Proof.
  intros Hok. unfold reconcile.
  assert (∀ L d n, index (foldl add_url (d, n) L).1 = index d) as Hadd.
  { induction L as [|url L IH]; intros d' n; cbn [foldl]; [done|].
    unfold add_url at 2. destruct (by_url d' !! url); [by apply IH|].
    cbn [WorkerRegistry.register_worker]. by rewrite IH. }
  pose proof (Hadd (hs_iter desired) (foldl drop_url d (gone desired d)) 0) as Hi.
  destruct (foldl add_url _ _) as [d' added]. cbn [fst snd] in *. rewrite Hi.
  clear Hi Hadd d' added. generalize (gone desired d) as L. intros L.
  revert d Hok. induction L as [|url L IH]; intros d Hok; cbn [foldl]; [done|].
  unfold drop_url at 2 4. destruct (by_url d !! url) as [id|]; [|by apply IH].
  match goal with |- context [foldl drop_url ?d1 L] => destruct (IH d1) as [Hok' Hh] end.
  { by apply bi_remove_ok. }
  split; [done|]. intros id' h Hw. apply Hh in Hw. cbn in Hw.
  rewrite bi_remove_holds in Hw by done. by apply andb_true_iff in Hw as [? _].
Qed.

Lemma elem_of_gone desired d url :
  url ∈ gone desired d ↔ is_Some (by_url d !! url) ∧ url ∉ desired.
Proof.
  unfold gone. rewrite list_elem_of_filter, list_elem_of_fmap. split.
  - intros (Hn & [u id] & -> & Hin). apply elem_of_hm_iter in Hin. eauto.
  - intros [[id Hl] Hn]. split; [done|]. exists (url, id). by rewrite elem_of_hm_iter.
Qed.

Lemma NoDup_gone desired d : NoDup (gone desired d).
Proof. apply NoDup_filter, NoDup_hm_iter_fst. Qed.

Lemma exists_gone desired d id :
  Exists (λ url, by_url d !! url = Some id) (gone desired d) ↔
  ∃ url, by_url d !! url = Some id ∧ url ∉ desired.
Proof.
  rewrite Exists_exists. setoid_rewrite elem_of_gone. split.
  - intros (url & [_ ?] & ?). eauto.
  - intros (url & ? & ?). exists url. eauto.
Qed.

Lemma reconcile_reconciled desired d :
  ok d →
  (WorkerRegistry.next_id (registry d) + N.of_nat (size desired) < u64_modulus)%N →
  reconciled desired d (reconcile desired d).1 (reconcile desired d).2.
Proof.
  intros Hd Hn. unfold reconcile.
  destruct (drop_all_spec (gone desired d) d Hd) as (Hok1 & Hby1 & Hw1 & Hh1 & Hn1).
  set (d1 := foldl drop_url d (gone desired d)) in *.
  pose proof (add_all_spec (hs_iter desired) d1 0 Hok1 (NoDup_hs_iter desired)) as Hadd.
  rewrite Hn1, (length_enumeration _ desired (NoDup_hs_iter _) (elem_of_hs_iter _)) in Hadd.
  specialize (Hadd Hn).
  destruct (foldl add_url (d1, 0) (hs_iter desired)) as [d2 added].
  destruct Hadd as (Hok2 & Hidx2 & Hdom2 & Hkeep2 & Hw2 & Hnew2 & Hcount2 & Hnext2).
  assert (Hby : ∀ url, by_url d1 !! url = if decide (url ∈ desired) then by_url d !! url else None).
  { intros url. rewrite Hby1.
    destruct (decide (url ∈ gone desired d)) as [Hg|Hg], (decide (url ∈ desired)) as [Hi|Hi];
      rewrite elem_of_gone in Hg; try done; [tauto|].
    destruct (by_url d !! url) eqn:E; [|done]. exfalso. apply Hg. eauto. }
  cbn [fst snd]. split.
  - done.
  - intros url. rewrite Hdom2, elem_of_hs_iter, Hby. case_decide; [tauto|].
    split; [intros [?|[? ?]]; done|done].
  - intros url id Hin Hl. apply Hkeep2. by rewrite Hby, decide_True.
  - intros url id Hl Hnin.
    assert (He : Exists (λ url, by_url d !! url = Some id) (gone desired d))
      by (apply exists_gone; eauto).
    split.
    + rewrite Hw2 by by eapply ok_below. by rewrite Hw1, decide_True.
    + intros h. by rewrite Hidx2, Hh1, decide_True.
  - intros id Hall.
    assert (¬ Exists (λ url, by_url d !! url = Some id) (gone desired d)).
    { rewrite exists_gone. intros (url & Hl & Hnin). by apply Hnin, Hall. }
    split.
    + intros Hid. rewrite Hw2 by done. by rewrite Hw1, decide_False.
    + intros h. by rewrite Hidx2, Hh1, decide_False.
  - intros url id Hl Hl2. apply Hnew2 with url; [|done]. rewrite Hby, Hl. by case_decide.
  - apply length_enumeration; [apply NoDup_gone|]. intros url.
    rewrite elem_of_gone, elem_of_difference, elem_of_dom. tauto.
  - simpl. rewrite Hcount2. simpl. apply length_enumeration; [apply NoDup_filter, NoDup_hs_iter|].
    intros url. rewrite list_elem_of_filter, elem_of_hs_iter, elem_of_difference, not_elem_of_dom, Hby.
    split.
    + intros [Hl Hin]. by rewrite decide_True in Hl.
    + intros [Hin Hl]. by rewrite decide_True.
  - lia.
Qed.
End lemmas.
End Discovery.

(** ** The watch loop *)

Module Watch.

Inductive Event :=
  | EvInit
  | EvInitApply (slice : EndpointSlice)
  | EvInitDone
  | EvApply (slice : EndpointSlice)
  | EvDelete (slice : EndpointSlice).

Abbreviation slice_map := (gmap rstr (gset rstr)).

(** The shared application state (its router) and the discovered workers. *)
Record state {T : Type} := { app : Router.t T; discovered : gmap rstr WorkerId }.
Arguments state : clear implicits.

Definition apply_event (ev : Event) (slices : slice_map) : slice_map :=
  match ev with
  | EvInitApply slice | EvApply slice => <[slice_name slice := endpoint_urls slice]> slices
  | EvDelete slice => delete (slice_name slice) slices
  | EvInit | EvInitDone => slices
  end.

Section watch.
Context {T : Type} `{BI : BeliefIndex T} {HM : HashMapOrder}.

(** [slices.values().flatten()], collected into a set. *)
Definition desired_urls (slices : slice_map) : gset rstr :=
  list_to_set ((hm_iter slices).*2 ≫= hs_iter).

(** What reconciliation reads and writes of the application. *)
Definition view (st : state T) : Discovery.t T := {|
  Discovery.registry := Router.registry (app st);
  Discovery.index := Router.prefix_index (app st);
  Discovery.by_url := discovered st;
|}.

Definition write_back (d : Discovery.t T) (st : state T) : state T := {|
  app := Router.set_prefix_index (Discovery.index d)
           (Router.set_registry (Discovery.registry d) (app st));
  discovered := Discovery.by_url d;
|}.

(** The body of the [while let] loop of [watch_once], run without interruption.
    [Threads.WatchTask] makes every purge, deregistration and registration, and
    the growth of the counters at the end, an action of its own. *)
Definition handle_event (acc : slice_map * state T) (ev : Event) : slice_map * state T :=
  let '(slices, st) := acc in
  let slices := apply_event ev slices in
  let desired := desired_urls slices in
  let '((removed, added), d) := Discovery.reconcile desired (view st) in
  let st := write_back d st in
  (slices,
   if decide (0 < removed + added) then
     {| app := Router.set_inflight
                 (InflightTracker.ensure_capacity (size (discovered st) + 16)
                    (Router.inflight (app st))) (app st);
        discovered := discovered st |}
   else st).

(** One watch: the slices start empty; [ending] is how the stream ends. *)
Definition watch_once (events : list Event) (ending : result rstr unit) (st : state T) :
    result rstr unit * state T :=
  (ending, (foldl handle_event (∅, st) events).2).

(** The retry loop over the watches it makes: the backoffs slept (in seconds)
    and the final state. *)
Fixpoint discovery_loop (watches : list (list Event * result rstr unit)) (backoff : N)
    (st : state T) : list N * state T :=
  match watches with
  | [] => ([], st)
  | (events, ending) :: watches =>
      let '(r, st) := watch_once events ending st in
      match r with
      | Ok _ => discovery_loop watches 1%N st
      | Err _ =>
          let '(sleeps, st) := discovery_loop watches (N.min (backoff * 2) 30)%N st in
          (backoff :: sleeps, st)
      end
  end.

(** Without an in-cluster configuration or a client, the static workers stay. *)
Definition run_discovery (incluster client : result rstr unit)
    (watches : list (list Event * result rstr unit)) (app : Router.t T) : Router.t T :=
  match incluster, client with
  | Ok _, Ok _ =>
      Watch.app (discovery_loop watches 1%N {| app := app; discovered := ∅ |}).2
  | _, _ => app
  end.
End watch.

(** Ids that a run of events may allocate. *)
Fixpoint registrations {HM : HashMapOrder} (slices : slice_map) (events : list Event) : nat :=
  match events with
  | [] => 0
  | ev :: events =>
      let slices := apply_event ev slices in
      size (desired_urls slices) + registrations slices events
  end.

Section lemmas.
Context {T : Type} `{BIL : BeliefIndexLaws T} {HM : HashMapOrder}.
Implicit Types (st : state T) (slices : slice_map) (url : rstr).

Lemma elem_of_desired slices url :
  url ∈ desired_urls slices ↔ ∃ name urls, slices !! name = Some urls ∧ url ∈ urls.
Proof.
  unfold desired_urls. rewrite elem_of_list_to_set, list_elem_of_bind. split.
  - intros (urls & Hu & ([name urls'] & -> & Hin)%list_elem_of_fmap).
    apply elem_of_hm_iter in Hin. exists name, urls'. by rewrite elem_of_hs_iter in Hu.
  - intros (name & urls & Hl & Hu). exists urls. split; [by apply elem_of_hs_iter|].
    apply list_elem_of_fmap. exists (name, urls). by rewrite elem_of_hm_iter.
Qed.

Lemma view_handle_event slices st ev :
  view (handle_event (slices, st) ev).2 =
  (Discovery.reconcile (desired_urls (apply_event ev slices)) (view st)).2.
Proof.
  unfold handle_event.
  destruct (Discovery.reconcile _ _) as [[removed added] d]. simpl.
  case_decide; by destruct d.
Qed.

Lemma handle_event_block_size slices st ev :
  Router.block_size (app (handle_event (slices, st) ev).2) = Router.block_size (app st).
Proof.
  unfold handle_event. destruct (Discovery.reconcile _ _) as [[? ?] ?]. simpl.
  by case_decide.
Qed.

Lemma handle_event_slices slices st ev :
  (handle_event (slices, st) ev).1 = apply_event ev slices.
Proof. unfold handle_event. by destruct (Discovery.reconcile _ _) as [[? ?] ?]. Qed.

Lemma watch_events_spec events slices st :
  Discovery.ok (view st) →
  (WorkerRegistry.next_id (Router.registry (app st)) +
     N.of_nat (registrations slices events) < u64_modulus)%N →
  let '(slices', st') := foldl handle_event (slices, st) events in
  slices' = foldl (λ sl ev, apply_event ev sl) slices events ∧
  Discovery.ok (view st') ∧
  (events ≠ [] → ∀ url, is_Some (discovered st' !! url) ↔ url ∈ desired_urls slices').
Proof.
  revert slices st. induction events as [|ev events IH]; intros slices st Hok Hn; cbn [foldl].
  { done. }
  simpl in Hn.
  pose proof (Discovery.reconcile_reconciled (desired_urls (apply_event ev slices)) (view st)
                Hok ltac:(simpl; lia)) as Hrec.
  pose proof (view_handle_event slices st ev) as Hview.
  pose proof (handle_event_slices slices st ev) as Hsl.
  destruct (handle_event (slices, st) ev) as [slices1 st1]. cbn [fst snd] in *. subst slices1.
  rewrite <-Hview in Hrec.
  pose proof (Discovery.rec_next _ _ _ _ Hrec) as [_ Hnext]. simpl in Hnext.
  specialize (IH (apply_event ev slices) st1 (Discovery.rec_ok _ _ _ _ Hrec) ltac:(lia)).
  destruct (foldl handle_event _ events) as [slices2 st2] eqn:Hf.
  destruct IH as (-> & Hok2 & Hdom). split_and!; [done|done|]. intros _.
  destruct events as [|ev' events]; [|by apply Hdom].
  simpl in Hf. injection Hf as <-. apply (Discovery.rec_desired _ _ _ _ Hrec).
Qed.

Lemma view_initial (r : Router.t T) :
  WorkerRegistry.wf (Router.registry r) → bi_ok (Router.prefix_index r) →
  Discovery.ok (view {| app := r; discovered := ∅ |}).
Proof. intros Hr Hi. by split. Qed.

(** Backoffs of a run of failures. *)
Lemma loop_failures failures k st :
  (∀ w, w ∈ failures → ∃ e, w.2 = Err e) →
  (discovery_loop failures (N.min (2 ^ N.of_nat k) 30) st).1 =
  imap (λ i _, N.min (2 ^ N.of_nat (k + i)) 30) failures.
Proof.
  revert k st. induction failures as [|[evs ending] failures IH]; intros k st Hall; [done|].
  destruct (Hall (evs, ending)) as [e He]; [by left|]. simpl in He. subst ending.
  cbn [discovery_loop watch_once imap].
  assert (Hb : N.min (N.min (2 ^ N.of_nat k) 30 * 2) 30 = N.min (2 ^ N.of_nat (S k)) 30).
  { rewrite Nat2N.inj_succ, N.pow_succ_r'. lia. }
  rewrite Hb. pose proof (IH (S k) (foldl handle_event (∅, st) evs).2
    (λ w Hw, Hall w (list_elem_of_further _ _ _ Hw))) as IHk.
  destruct (discovery_loop failures _ _) as [sleeps st']. simpl in *.
  rewrite IHk, Nat.add_0_r. f_equal. apply imap_ext. intros i x _. simpl. by rewrite Nat.add_succ_r.
Qed.
End lemmas.
End Watch.

(** ** Properties *)

(** C9.  Reconciliation refines its specification: afterwards the discovered
    workers are exactly the desired endpoints; survivors keep their ids;
    removed endpoints are gone from the registry and hold no block of the
    index; all other workers keep registration, health and beliefs; new
    endpoints get fresh ids and start unhealthy; the returned counts are the
    sizes of the two differences. *)
Theorem reconcile_refines_spec {T} `{BeliefIndexLaws T} {HM : HashMapOrder}
    (desired : gset rstr) (d : Discovery.t T) (Hd : Discovery.ok d)
    (Hn : (WorkerRegistry.next_id (Discovery.registry d) + N.of_nat (size desired)
           < u64_modulus)%N) :
  let '(counts, d') := Discovery.reconcile desired d in
  Discovery.reconciled desired d counts d'.
Proof.
  pose proof (Discovery.reconcile_reconciled desired d Hd Hn) as Hrec.
  by destruct (Discovery.reconcile desired d).
Qed.

(** Reconciling twice with the same endpoints changes nothing the second
    time. *)
Theorem reconcile_idempotent {T} `{BeliefIndexLaws T} {HM : HashMapOrder}
    (desired : gset rstr) (d : Discovery.t T) (Hd : Discovery.ok d)
    (Hn : (WorkerRegistry.next_id (Discovery.registry d) + N.of_nat (size desired)
           < u64_modulus)%N) :
  let d' := (Discovery.reconcile desired d).2 in
  Discovery.reconcile desired d' = ((0, 0), d').
Proof.
  pose proof (Discovery.reconcile_reconciled desired d Hd Hn) as Hrec. cbn zeta.
  set (d' := (Discovery.reconcile desired d).2) in *. unfold Discovery.reconcile.
  assert (Discovery.gone desired d' = []) as ->.
  { destruct (Discovery.gone desired d') as [|url l] eqn:E; [done|exfalso].
    assert (url ∈ Discovery.gone desired d') as Hin by (rewrite E; by left).
    apply Discovery.elem_of_gone in Hin as [Hs Hn']. by apply Hrec in Hs. }
  cbn [foldl length].
  assert (∀ L n, (∀ url, url ∈ L → url ∈ desired) →
    foldl Discovery.add_url (d', n) L = (d', n)) as Hadd.
  { induction L as [|url L IH]; intros n HL; [done|]. cbn [foldl].
    unfold Discovery.add_url at 2.
    destruct (proj2 (Discovery.rec_desired _ _ _ _ Hrec url) (HL url ltac:(by left))) as [id ->].
    apply IH. intros. apply HL. by right. }
  rewrite Hadd; [done|]. intros url. apply elem_of_hs_iter.
Qed.

(** Only ready addresses are advertised: a URL of a slice is the address of
    an endpoint whose conditions are absent or say ready, at the slice's first
    port (8001 by default); conditions without a [ready] value do not count. *)
Theorem endpoint_urls_spec (slice : EndpointSlice) (url : rstr) :
  url ∈ endpoint_urls slice ↔
  ∃ e address, e ∈ slice_endpoints slice ∧ address ∈ ep_addresses e ∧
    (ep_conditions e = None ∨ ep_conditions e = Some (Some true)) ∧
    url = endpoint_url address (slice_port slice).
Proof.
  unfold endpoint_urls. set (port := slice_port slice).
  assert (∀ L X, url ∈ foldl (λ urls address, {[endpoint_url address port]} ∪ urls) X L ↔
    url ∈ (X : gset rstr) ∨ ∃ address, address ∈ L ∧ url = endpoint_url address port) as Hinner.
  { induction L as [|a L IH]; intros X; cbn [foldl].
    - split; [by left|]. intros [?|(? & Hin & _)]; [done|]. by apply not_elem_of_nil in Hin.
    - rewrite IH. setoid_rewrite elem_of_cons. set_solver. }
  assert (∀ e, endpoint_is_ready e = true ↔
    ep_conditions e = None ∨ ep_conditions e = Some (Some true)) as Hready.
  { intros e. unfold endpoint_is_ready. destruct (ep_conditions e) as [[[]|]|]; naive_solver. }
  assert (∀ L X, url ∈ foldl (λ urls endpoint, if endpoint_is_ready endpoint
      then foldl (λ urls address, {[endpoint_url address port]} ∪ urls) urls (ep_addresses endpoint)
      else urls) X L ↔
    url ∈ (X : gset rstr) ∨ ∃ e address, e ∈ L ∧ address ∈ ep_addresses e ∧
      endpoint_is_ready e = true ∧ url = endpoint_url address port) as Houter.
  { induction L as [|e L IH]; intros X; cbn [foldl].
    - split; [by left|]. intros [?|(? & ? & Hin & _)]; [done|]. by apply not_elem_of_nil in Hin.
    - rewrite IH. setoid_rewrite elem_of_cons. destruct (endpoint_is_ready e) eqn:He.
      + rewrite Hinner. naive_solver.
      + naive_solver congruence. }
  rewrite Houter. setoid_rewrite Hready. set_solver.
Qed.

(** C39.  The watch tracks its slices: after any non-empty run of events the
    discovered workers are exactly the URLs of the slices seen and not deleted
    since the watch began, each registered under its own id. *)
Theorem watch_tracks_slices {T} `{BeliefIndexLaws T} {HM : HashMapOrder}
    (events : list Watch.Event) (ending : result rstr unit) (st : Watch.state T)
    (Hok : Discovery.ok (Watch.view st)) (Hne : events ≠ [])
    (Hn : (WorkerRegistry.next_id (Router.registry (Watch.app st)) +
           N.of_nat (Watch.registrations ∅ events) < u64_modulus)%N) :
  let st' := (Watch.watch_once events ending st).2 in
  let slices := foldl (λ sl ev, Watch.apply_event ev sl) ∅ events in
  Discovery.ok (Watch.view st') ∧
  ∀ url, is_Some (Watch.discovered st' !! url) ↔
         ∃ name urls, slices !! name = Some urls ∧ url ∈ urls.
Proof.
  pose proof (Watch.watch_events_spec events ∅ st Hok Hn) as Hspec. unfold Watch.watch_once.
  destruct (foldl Watch.handle_event (∅, st) events) as [slices st'].
  destruct Hspec as (<- & Hok' & Hdom). split; [done|]. intros url. simpl.
  rewrite Hdom by done. apply Watch.elem_of_desired.
Qed.

(** A restarted watch forgets the slices of the previous one: its first
    event ([Init]) reconciles against no endpoints, so every discovered worker
    is removed from the registry and the index before the slices are listed
    again, and comes back under a new id without its beliefs. *)
Theorem watch_restart_drops_workers {T} `{BeliefIndexLaws T} {HM : HashMapOrder}
    (ending : result rstr unit) (st : Watch.state T) (url : rstr) (id : WorkerId)
    (Hok : Discovery.ok (Watch.view st)) (Hid : Watch.discovered st !! url = Some id) :
  let st' := (Watch.watch_once [Watch.EvInit] ending st).2 in
  Watch.discovered st' !! url = None ∧
  WorkerRegistry.get id (Router.registry (Watch.app st')) = None ∧
  ∀ h, bi_holds (Router.prefix_index (Watch.app st')) id h = false.
Proof.
  assert (Hempty : Watch.desired_urls (Watch.apply_event Watch.EvInit ∅) = ∅).
  { apply set_eq. intros u. rewrite Watch.elem_of_desired. split; [|set_solver].
    intros (? & ? & Hl & _). cbn [Watch.apply_event] in Hl. by rewrite lookup_empty in Hl. }
  pose proof (Watch.view_handle_event ∅ st Watch.EvInit) as Hview. rewrite Hempty in Hview.
  pose proof (Discovery.reconcile_reconciled ∅ (Watch.view st) Hok) as Hrec.
  rewrite size_empty in Hrec.
  specialize (Hrec ltac:(pose proof (WorkerRegistry.wf_next _ (Discovery.ok_registry _ Hok)); lia)).
  rewrite <-Hview in Hrec. unfold Watch.watch_once. cbn [foldl snd].
  set (st' := (Watch.handle_event (∅, st) Watch.EvInit).2) in *.
  destruct (Discovery.rec_gone _ _ _ _ Hrec url id Hid ltac:(set_solver)) as [Hw Hh].
  split_and!; [| |done].
  - apply eq_None_not_Some. intros Hs.
    apply (Discovery.rec_desired _ _ _ _ Hrec url) in Hs. set_solver.
  - unfold WorkerRegistry.get. simpl in Hw. by rewrite Hw.
Qed.

(** C28.  The retry loop backs off exponentially: after a successful watch (and
    whatever came before it), the [i]-th consecutive failure sleeps
    [min (2^i) 30] seconds. *)
Theorem discovery_backoff {T} `{BeliefIndex T} {HM : HashMapOrder}
    (before failures : list (list Watch.Event * result rstr unit))
    (events : list Watch.Event) (b : N) (st : Watch.state T)
    (Hall : ∀ w, w ∈ failures → ∃ e, w.2 = Err e) :
  (Watch.discovery_loop (before ++ (events, Ok ()) :: failures) b st).1 =
  (Watch.discovery_loop before b st).1 ++
  imap (λ i _, N.min (2 ^ N.of_nat i) 30) failures.
Proof.
  revert b st. induction before as [|[evs ending] before IH]; intros b st.
  - simpl. exact (Watch.loop_failures failures 0 _ Hall).
  - cbn [app Watch.discovery_loop Watch.watch_once]. destruct ending as [u|e]; [apply IH|].
    specialize (IH (N.min (b * 2) 30) (foldl Watch.handle_event (∅, st) evs).2).
    repeat case_match. simpl in *. by rewrite IH.
Qed.

(** ** The properties at concrete states *)

Section witnesses.
#[local] Existing Instance hm_canonical.

Definition one_address (name address : string) : EndpointSlice := {|
  slice_name := lit name;
  slice_ports := Some [Some 8001%Z];
  slice_endpoints := [{| ep_addresses := [lit address]; ep_conditions := Some (Some true) |}];
|}.

Definition static_state : Watch.state PrefixIndex.t := {|
  Watch.app := sample_router CacheAware two_workers; Watch.discovered := ∅ |}.

Lemma static_state_ok : Discovery.ok (Watch.view static_state).
Proof.
  apply Watch.view_initial; [|exact index_ok_new].
  apply WorkerRegistry.wf_run; [by apply WorkerRegistry.wf_from_config|done].
Qed.

Definition listing : list Watch.Event :=
  [Watch.EvInit; Watch.EvInitApply (one_address "s1" "10.0.0.1");
   Watch.EvInitApply (one_address "s2" "10.0.0.2"); Watch.EvInitDone].

Definition listed_state : Watch.state PrefixIndex.t :=
  (Watch.watch_once listing (Err []) static_state).2.

Lemma listing_budget :
  (WorkerRegistry.next_id (Router.registry (Watch.app static_state)) +
     N.of_nat (Watch.registrations ∅ listing) < u64_modulus)%N.
Proof. vm_compute. reflexivity. Qed.

Lemma listed_state_ok : Discovery.ok (Watch.view listed_state).
Proof.
  pose proof (Watch.watch_events_spec listing ∅ static_state static_state_ok
                listing_budget) as Hspec.
  unfold listed_state, Watch.watch_once.
  destruct (foldl Watch.handle_event (∅, static_state) listing). apply Hspec.
Qed.

Definition pod_url : rstr := lit "http://10.0.0.9:8001".

Theorem reconcile_refines_spec_witness :
  let '(counts, d') := Discovery.reconcile {[pod_url]} (Watch.view listed_state) in
  Discovery.reconciled {[pod_url]} (Watch.view listed_state) counts d'.
Proof.
  apply (reconcile_refines_spec {[pod_url]} (Watch.view listed_state) listed_state_ok).
  vm_compute. reflexivity.
Defined.

Theorem reconcile_idempotent_witness :
  let d' := (Discovery.reconcile {[pod_url]} (Watch.view listed_state)).2 in
  Discovery.reconcile {[pod_url]} d' = ((0, 0), d').
Proof.
  apply (reconcile_idempotent {[pod_url]} (Watch.view listed_state) listed_state_ok).
  vm_compute. reflexivity.
Defined.

Theorem watch_tracks_slices_witness :
  let st' := (Watch.watch_once listing (Ok ()) static_state).2 in
  let slices := foldl (λ sl ev, Watch.apply_event ev sl) ∅ listing in
  Discovery.ok (Watch.view st') ∧
  ∀ url, is_Some (Watch.discovered st' !! url) ↔
         ∃ name urls, slices !! name = Some urls ∧ url ∈ urls.
Proof.
  apply (watch_tracks_slices listing (Ok ()) static_state static_state_ok).
  - discriminate.
  - exact listing_budget.
Defined.

Theorem watch_restart_drops_workers_witness :
  WorkerRegistry.get 2 (Router.registry (Watch.app
    (Watch.watch_once [Watch.EvInit] (Ok ()) listed_state).2)) = None.
Proof.
  assert (Hid : Watch.discovered listed_state !! lit "http://10.0.0.1:8001" = Some 2%N)
    by (vm_compute; reflexivity).
  exact (proj1 (proj2 (watch_restart_drops_workers (Ok ()) listed_state _ 2%N
    listed_state_ok Hid))).
Defined.

Theorem discovery_backoff_witness :
  (Watch.discovery_loop ([([], Err [])] ++ (listing, Ok ()) :: [([], Err []); ([], Err [])])
     1 static_state).1 = [1; 1; 2]%N.
Proof.
  apply (discovery_backoff [([], Err [])] [([], Err []); ([], Err [])] listing 1 static_state).
  intros w [->|[->|[]%not_elem_of_nil]%elem_of_cons]%elem_of_cons; by exists [].
Defined.

(** A pod replaced nineteen times, always one endpoint alive. *)
Definition churn : list Watch.Event :=
  (λ i, Watch.EvApply {|
     slice_name := lit "s";
     slice_ports := Some [Some 8001%Z];
     slice_endpoints := [{| ep_addresses := [lit "10.0.0." ++ show_N (N.of_nat i)];
                            ep_conditions := Some (Some true) |}] |}) <$> seq 1 19.

(** Ids are never reused but the in-flight vector is sized by the number
    of discovered workers plus 16: after nineteen replacements of a single pod
    the registered worker has no counter, and a request in flight on it is
    not counted. *)
Theorem discovered_worker_untracked :
  ∃ url id w,
    let st := (Watch.watch_once churn (Ok ()) static_state).2 in
    let tr := Router.inflight (Watch.app st) in
    Watch.discovered st !! url = Some id ∧
    WorkerRegistry.get id (Router.registry (Watch.app st)) = Some w ∧
    ¬ InflightTracker.tracks id tr ∧
    InflightTracker.count id (InflightGuard.acquire tr id).2 = 0%N.
Proof.
  exists (lit "http://10.0.0.19:8001"), 20%N,
    {| w_id := 20; w_url := lit "http://10.0.0.19:8001"; w_pool := Both |}.
  cbn zeta. split_and!; [vm_compute; reflexivity..| |vm_compute; reflexivity].
  intros Ht. vm_compute in Ht. lia.
Qed.
End witnesses.
