(* ===== verification/Health.v ===== *)
(** * Health poller ([router-server/src/health.rs])

    One round of the background task: probe every registered worker in id
    order and mirror the outcome into the registry; a worker that goes down
    loses its prefix-index entries.  The HTTP client is a parameter. *)

From S2P Require Import Prelude Float64 Hashing Config Request Worker Inflight Belief Prefix Router.

Module Health.

Definition slash : N := 47.

Definition probe_url (w : Worker) : rstr :=
  trim_end_matches slash (w_url w) ++ lit "/health".

Section poller.
Context {T : Type} `{BI : BeliefIndex T} {HM : HashMapOrder}.

(** [get id url] is the answer to the probe made for worker [id]: a status or
    a transport error; [is_success] is [StatusCode::is_success]. *)
Context (is_success : N → bool) (get : WorkerId → rstr → result rstr N).

Definition probe (w : Worker) : bool :=
  match get (w_id w) (probe_url w) with
  | Ok status => is_success status
  | Err _ => false
  end.

(** The body of the [for] loop, after the answer has arrived, run without
    interruption: [set_healthy], then [remove_worker].  [Threads] makes them two
    actions, with everything else in between. *)
Definition mark (w : Worker) (healthy : bool) (r : Router.t T) : Router.t T :=
  let '(changed, reg) := WorkerRegistry.set_healthy (w_id w) healthy (Router.registry r) in
  let r := Router.set_registry reg r in
  if changed && negb healthy
  then Router.set_prefix_index (bi_remove_worker (w_id w) (Router.prefix_index r)) r
  else r.

Definition poll_worker (r : Router.t T) (w : Worker) : Router.t T := mark w (probe w) r.

Definition poll_round (r : Router.t T) : Router.t T :=
  foldl poll_worker r (WorkerRegistry.all_workers (Router.registry r)).

(** [health_check_interval_secs.max(1)]. *)
Definition interval_secs (config : RouterConfig) : N :=
  N.max (cfg_health_check_interval_secs config) 1.
End poller.

Section lemmas.
Context {T : Type} `{BIL : BeliefIndexLaws T} {HM : HashMapOrder}.
Implicit Types (r : Router.t T) (w : Worker) (id : WorkerId).

Lemma wf_set_healthy id h reg :
  WorkerRegistry.wf reg → WorkerRegistry.wf (WorkerRegistry.set_healthy id h reg).2.
Proof.
  intros Hr.
  split; [intros i s|intros i s|]; rewrite ?WorkerRegistry.next_id_set_healthy;
    [..|apply Hr]; rewrite WorkerRegistry.lookup_set_healthy; case_decide; try apply Hr;
    intros (s' & Hs' & ->)%fmap_Some; [exact (WorkerRegistry.wf_id _ Hr _ _ Hs')
    |exact (WorkerRegistry.wf_bound _ Hr _ _ Hs')].
Qed.

Lemma is_healthy_set id h reg i :
  WorkerRegistry.is_healthy i (WorkerRegistry.set_healthy id h reg).2 =
  if decide (i = id) then
    match WorkerRegistry.workers reg !! i with Some _ => h | None => false end
  else WorkerRegistry.is_healthy i reg.
Proof.
  unfold WorkerRegistry.is_healthy. rewrite WorkerRegistry.lookup_set_healthy.
  case_decide; [|done]. by destruct (WorkerRegistry.workers reg !! i).
Qed.

Lemma get_set id h reg i :
  WorkerRegistry.get i (WorkerRegistry.set_healthy id h reg).2 = WorkerRegistry.get i reg.
Proof.
  unfold WorkerRegistry.get. rewrite WorkerRegistry.lookup_set_healthy.
  case_decide; [|done]. by destruct (WorkerRegistry.workers reg !! i).
Qed.

Lemma set_healthy_changed id h reg :
  (WorkerRegistry.set_healthy id h reg).1 = true ↔
  is_Some (WorkerRegistry.workers reg !! id) ∧ WorkerRegistry.is_healthy id reg = negb h.
Proof.
  unfold WorkerRegistry.set_healthy, WorkerRegistry.is_healthy.
  destruct (WorkerRegistry.workers reg !! id) as [[w b]|] eqn:E; simpl.
  - destruct b, h; simpl; split; try done; try (by intros [_ ?]); by intros _.
  - split; [done|]. by intros [[] _].
Qed.

(** Everything about one worker's mark. *)
Lemma mark_spec w h r :
  WorkerRegistry.wf (Router.registry r) → bi_ok (Router.prefix_index r) →
  let r' := mark w h r in
  WorkerRegistry.wf (Router.registry r') ∧ bi_ok (Router.prefix_index r') ∧
  (∀ i, WorkerRegistry.get i (Router.registry r') = WorkerRegistry.get i (Router.registry r)) ∧
  (∀ i, WorkerRegistry.is_healthy i (Router.registry r') =
     if decide (i = w_id w) then
       match WorkerRegistry.get i (Router.registry r) with Some _ => h | None => false end
     else WorkerRegistry.is_healthy i (Router.registry r)) ∧
  (∀ i b, bi_holds (Router.prefix_index r') i b =
     bi_holds (Router.prefix_index r) i b &&
     negb (bool_decide (i = w_id w) && WorkerRegistry.is_healthy i (Router.registry r) && negb h)) ∧
  Router.inflight r' = Router.inflight r ∧ Router.policy r' = Router.policy r ∧
  WorkerRegistry.next_id (Router.registry r') = WorkerRegistry.next_id (Router.registry r).
Proof.
  intros Hwf Hok. unfold mark.
  pose proof (wf_set_healthy (w_id w) h _ Hwf) as Hwf'.
  pose proof (get_set (w_id w) h (Router.registry r)) as Hget.
  pose proof (is_healthy_set (w_id w) h (Router.registry r)) as Hhealthy.
  pose proof (set_healthy_changed (w_id w) h (Router.registry r)) as Hch.
  pose proof (WorkerRegistry.next_id_set_healthy (w_id w) h (Router.registry r)) as Hnext.
  destruct (WorkerRegistry.set_healthy (w_id w) h (Router.registry r)) as [changed reg].
  cbn [fst snd] in *. cbn zeta.
  assert (Hh : ∀ i, WorkerRegistry.is_healthy i reg =
     if decide (i = w_id w) then
       match WorkerRegistry.get i (Router.registry r) with Some _ => h | None => false end
     else WorkerRegistry.is_healthy i (Router.registry r)).
  { intros i. rewrite Hhealthy. unfold WorkerRegistry.get.
    by destruct (WorkerRegistry.workers (Router.registry r) !! i). }
  destruct (changed && negb h) eqn:Hc;
    cbn [Router.set_prefix_index Router.set_registry Router.registry Router.prefix_index
         Router.inflight Router.policy].
  - apply andb_true_iff in Hc as [-> Hneg]. destruct Hch as [Hch _].
    destruct (Hch eq_refl) as [_ Hup]. rewrite Hneg in Hup.
    split_and!; [done|by apply bi_remove_ok|done|done| |done..].
    intros i b. rewrite bi_remove_holds by done. rewrite Hneg.
    destruct (decide (i = w_id w)) as [->|Hne].
    + rewrite !bool_decide_true by done. by rewrite Hup.
    + by rewrite !bool_decide_false by done.
  - split_and!; [done..| |done|done|done].
    intros i b. destruct (decide (i = w_id w)) as [->|Hne].
    + rewrite bool_decide_true by done. simpl.
      destruct (WorkerRegistry.is_healthy (w_id w) (Router.registry r)) eqn:Hup; simpl;
        [|by rewrite andb_true_r].
      destruct h; simpl; [by rewrite andb_true_r|].
      assert (changed = true) as ->; [|done]. apply Hch. split; [|done].
      unfold WorkerRegistry.is_healthy in Hup. by destruct (_ !! _).
    + rewrite bool_decide_false by done. by rewrite andb_true_r.
Qed.

(** What the probe of the worker registered under an id answers. *)
Definition probed is_success get r id : bool :=
  match WorkerRegistry.get id (Router.registry r) with
  | Some w => probe is_success get w
  | None => false
  end.

Lemma poll_fold_spec is_success get ws r :
  WorkerRegistry.wf (Router.registry r) → bi_ok (Router.prefix_index r) →
  (∀ w, w ∈ ws → WorkerRegistry.get (w_id w) (Router.registry r) = Some w) →
  let r' := foldl (poll_worker is_success get) r ws in
  WorkerRegistry.wf (Router.registry r') ∧ bi_ok (Router.prefix_index r') ∧
  (∀ i, WorkerRegistry.get i (Router.registry r') = WorkerRegistry.get i (Router.registry r)) ∧
  (∀ i, WorkerRegistry.is_healthy i (Router.registry r') =
     if decide (i ∈ w_id <$> ws) then probed is_success get r i
     else WorkerRegistry.is_healthy i (Router.registry r)) ∧
  (∀ i b, bi_holds (Router.prefix_index r') i b =
     bi_holds (Router.prefix_index r) i b &&
     negb (bool_decide (i ∈ w_id <$> ws) && WorkerRegistry.is_healthy i (Router.registry r) &&
           negb (probed is_success get r i))) ∧
  Router.inflight r' = Router.inflight r.
Proof.
  revert r. induction ws as [|w ws IH]; intros r Hwf Hok Hreg; cbn [foldl].
  { split_and!; [done..| |done]. intros i b. rewrite bool_decide_false by apply not_elem_of_nil.
    by rewrite andb_true_r. }
  destruct (mark_spec w (probe is_success get w) r Hwf Hok)
    as (Hwf1 & Hok1 & Hget1 & Hup1 & Hh1 & Hin1 & _ & _).
  set (r1 := mark w (probe is_success get w) r) in *.
  change (poll_worker is_success get r w) with r1.
  destruct (IH r1 Hwf1 Hok1) as (Hwf2 & Hok2 & Hget2 & Hup2 & Hh2 & Hin2).
  { intros w' Hw'. rewrite Hget1. apply Hreg. by right. }
  assert (Hp : ∀ i, probed is_success get r1 i = probed is_success get r i)
    by (intros i; unfold probed; by rewrite Hget1).
  pose proof (Hreg w ltac:(by left)) as Hw.
  assert (Hpw : probed is_success get r (w_id w) = probe is_success get w)
    by (unfold probed; by rewrite Hw).
  split_and!; [done|done|by intros; rewrite Hget2| | |by rewrite Hin2].
  - intros i. rewrite Hup2, Hp, Hup1, fmap_cons.
    destruct (decide (i = w_id w)) as [->|Hne].
    + rewrite (decide_True (P := _ ∈ _ :: _)) by by left. rewrite Hw, Hpw. by case_decide.
    + apply decide_ext. rewrite elem_of_cons. tauto.
  - intros i b. rewrite Hh2, Hp, Hup1, Hh1, fmap_cons.
    destruct (decide (i = w_id w)) as [->|Hne].
    + rewrite (bool_decide_true (_ = _)), (bool_decide_true (_ ∈ _ :: _)) by (done || by left).
      rewrite Hw, Hpw.
      destruct (bi_holds _ _ _), (WorkerRegistry.is_healthy _ _), (probe _ _ w),
        (bool_decide _); done.
    + rewrite (bool_decide_false (i = _)) by done.
      rewrite (bool_decide_ext (i ∈ _ :: _) (i ∈ w_id <$> ws)) by (rewrite elem_of_cons; tauto).
      by rewrite andb_true_r.
Qed.
(** A whole round: what it keeps and what it decides. *)
Lemma poll_round_facts is_success get r :
  WorkerRegistry.wf (Router.registry r) → bi_ok (Router.prefix_index r) →
  let r' := poll_round is_success get r in
  WorkerRegistry.wf (Router.registry r') ∧ bi_ok (Router.prefix_index r') ∧
  (∀ i, WorkerRegistry.get i (Router.registry r') = WorkerRegistry.get i (Router.registry r)) ∧
  (∀ i, WorkerRegistry.is_healthy i (Router.registry r') = probed is_success get r i) ∧
  Router.policy r' = Router.policy r.
Proof.
  intros Hwf Hok. unfold poll_round.
  destruct (poll_fold_spec is_success get (WorkerRegistry.all_workers (Router.registry r)) r Hwf Hok)
    as (Hwf' & Hok' & Hget & Hup & _ & _).
  { intros w (id & s & Hl & <-)%WorkerRegistry.elem_of_all_workers.
    unfold WorkerRegistry.get. by rewrite (WorkerRegistry.wf_id _ Hwf _ _ Hl), Hl. }
  split_and!; [done..| |].
  - intros i. rewrite Hup. case_decide as Hi; [done|].
    assert (WorkerRegistry.workers (Router.registry r) !! i = None) as Hn.
    { apply eq_None_not_Some. intros [s Hl]. apply Hi, list_elem_of_fmap. exists (ws_worker s).
      split; [by rewrite (WorkerRegistry.wf_id _ Hwf _ _ Hl)|].
      apply WorkerRegistry.elem_of_all_workers. eauto. }
    unfold probed, WorkerRegistry.get, WorkerRegistry.is_healthy. by rewrite Hn.
  - clear. generalize (WorkerRegistry.all_workers (Router.registry r)) as ws. intros ws.
    revert r. induction ws as [|w ws IH]; intros r; [done|]. cbn [foldl]. rewrite IH.
    unfold poll_worker, mark. destruct (WorkerRegistry.set_healthy _ _ _) as [changed reg].
    by destruct (changed && _).
Qed.
End lemmas.
End Health.

(** ** Properties *)

(** A poll round mirrors the probes: afterwards every registered worker is
    healthy exactly when its probe answered with a success status; a worker
    that went from healthy to unhealthy holds no block any more, all other
    beliefs are unchanged; registrations and in-flight counts are untouched. *)
Theorem poll_round_spec {T} `{BeliefIndexLaws T} {HM : HashMapOrder}
    (is_success : N → bool) (get : WorkerId → rstr → result rstr N) (r : Router.t T)
    (Hwf : WorkerRegistry.wf (Router.registry r)) (Hok : bi_ok (Router.prefix_index r)) :
  let r' := Health.poll_round is_success get r in
  Router.inflight r' = Router.inflight r ∧
  ∀ id,
    WorkerRegistry.get id (Router.registry r') = WorkerRegistry.get id (Router.registry r) ∧
    WorkerRegistry.is_healthy id (Router.registry r') = Health.probed is_success get r id ∧
    ∀ b, bi_holds (Router.prefix_index r') id b =
      bi_holds (Router.prefix_index r) id b &&
      negb (WorkerRegistry.is_healthy id (Router.registry r) &&
            negb (Health.probed is_success get r id)).
Proof.
  cbn zeta. unfold Health.poll_round.
  destruct (Health.poll_fold_spec is_success get
    (WorkerRegistry.all_workers (Router.registry r)) r Hwf Hok)
    as (_ & _ & Hget & Hup & Hh & Hin).
  { intros w (id & s & Hl & <-)%WorkerRegistry.elem_of_all_workers.
    unfold WorkerRegistry.get. by rewrite (WorkerRegistry.wf_id _ Hwf _ _ Hl), Hl. }
  split; [done|]. intros id.
  assert (id ∈ w_id <$> WorkerRegistry.all_workers (Router.registry r) ∨
    WorkerRegistry.workers (Router.registry r) !! id = None) as [Hi|Hi].
  { destruct (WorkerRegistry.workers (Router.registry r) !! id) as [s|] eqn:Hl; [left|by right].
    apply list_elem_of_fmap. exists (ws_worker s).
    split; [by rewrite (WorkerRegistry.wf_id _ Hwf _ _ Hl)|].
    apply WorkerRegistry.elem_of_all_workers. eauto. }
  - split_and!; [done| |].
    + by rewrite Hup, decide_True.
    + intros b. by rewrite Hh, bool_decide_true.
  - assert (Hnone : WorkerRegistry.is_healthy id (Router.registry r) = false)
      by (unfold WorkerRegistry.is_healthy; by rewrite Hi).
    assert (Hprobed : Health.probed is_success get r id = false)
      by (unfold Health.probed, WorkerRegistry.get; by rewrite Hi).
    split_and!; [done| |].
    + rewrite Hup, Hnone, Hprobed. by case_decide.
    + intros b. rewrite Hh, Hnone. by rewrite andb_false_r.
Qed.

Section witnesses.
#[local] Existing Instance hm_canonical.

(** Worker 0 answers 200, worker 1 does not answer. *)
Definition sample_get (id : WorkerId) (_ : rstr) : result rstr N :=
  if decide (id = 0%N) then Ok 200%N else Err (lit "connection refused").

Definition sample_success (status : N) : bool :=
  bool_decide (200 ≤ status < 300)%N.

Theorem poll_round_spec_witness :
  WorkerRegistry.is_healthy 0
    (Router.registry (Health.poll_round sample_success sample_get router_a)) = true ∧
  WorkerRegistry.is_healthy 1
    (Router.registry (Health.poll_round sample_success sample_get router_a)) =
    Health.probed sample_success sample_get router_a 1.
Proof.
  split; [by vm_compute|].
  exact (proj1 (proj2 (proj2 (poll_round_spec sample_success sample_get router_a
    all_up_wf router_a_index_ok) 1%N))).
Defined.
End witnesses.

