(* ===== verification/System.v ===== *)
(** * The running server: requests, probes, discovery and eviction interleaved

    A transition system whose steps are the operations of the request handlers
    and of the background tasks on the shared router, and the invariant that
    ties the prefix index to the registry.  Each operation is one step here: a
    selection, a verdict with its purge, the whole handling of an event.  The
    code releases its locks within all three; [Threads] has them split there, and
    shows what is left of the invariant. *)

From S2P Require Import Prelude Float64 Hashing Config Request Worker Inflight Belief Prefix Router Discovery Health.

Module System.

Record t {T : Type} := {
  router : Router.t T;
  slices : Watch.slice_map;
  discovered : gmap rstr WorkerId;
  guards : list InflightGuard.t;
}.
Arguments t : clear implicits.

Section steps.
Context {T : Type} `{BI : BeliefIndex T} {HM : HashMapOrder} {BH : BlockHash}.

Definition with_router (r : Router.t T) (s : t T) : t T := {|
  router := r; slices := slices s; discovered := discovered s; guards := guards s |}.

Definition watch_state (s : t T) : Watch.state T := {|
  Watch.app := router s; Watch.discovered := discovered s |}.

Inductive step : t T → t T → Prop :=
  | step_chat {V} now (request : ChatCompletionRequest V) out r s :
      Router.select_for_chat now request (router s) = Some (out, r) →
      step s (with_router r s)
  | step_pool now pool chain out r s :
      Router.select_in_pool now pool chain (router s) = (out, r) →
      step s (with_router r s)
  (** An answer of the health poller; [w] may have been removed meanwhile. *)
  | step_probe w healthy s : step s (with_router (Health.mark w healthy (router s)) s)
  | step_evict now ttl max_entries s :
      step s (with_router
        (Router.set_prefix_index
           (bi_evict now ttl max_entries (Router.prefix_index (router s))).2 (router s)) s)
  (** An event of the watch, while worker ids last. *)
  | step_event ev sl st s :
      (WorkerRegistry.next_id (Router.registry (router s)) +
         N.of_nat (size (Watch.desired_urls (Watch.apply_event ev (slices s)))) < u64_modulus)%N →
      Watch.handle_event (slices s, watch_state s) ev = (sl, st) →
      step s {| router := Watch.app st; slices := sl; discovered := Watch.discovered st;
                guards := guards s |}
  (** The watch is restarted with empty slices. *)
  | step_restart s :
      step s {| router := router s; slices := ∅; discovered := discovered s; guards := guards s |}
  | step_acquire w s :
      let '(g, tr) := InflightGuard.acquire (Router.inflight (router s)) w in
      step s {| router := Router.set_inflight tr (router s); slices := slices s;
                discovered := discovered s; guards := g :: guards s |}
  | step_drop g gs1 gs2 s :
      guards s = gs1 ++ g :: gs2 →
      step s {| router := Router.set_inflight
                            (InflightGuard.drop g (Router.inflight (router s))) (router s);
                slices := slices s; discovered := discovered s; guards := gs1 ++ gs2 |}.

Definition initial (config : RouterConfig) : t T := {|
  router := Router.new (WorkerRegistry.from_config (cfg_workers config)) config;
  slices := ∅; discovered := ∅; guards := [] |}.
End steps.

(** ** The invariant *)

(** Only healthy registered workers are believed to hold anything. *)
Definition beliefs_live {T} `{BeliefIndex T} (r : Router.t T) : Prop :=
  ∀ id h, bi_holds (Router.prefix_index r) id h = true →
          WorkerRegistry.is_healthy id (Router.registry r) = true.

Record inv {T} `{BeliefIndex T} (s : t T) : Prop := {
  inv_discovery : Discovery.ok (Watch.view (watch_state s));
  inv_beliefs : beliefs_live (router s);
}.

Section preservation.
Context {T : Type} `{BIL : BeliefIndexLaws T} {HM : HashMapOrder} {BH : BlockHash}.
Implicit Types (s : t T) (r : Router.t T).

Lemma inv_wf s : inv s → WorkerRegistry.wf (Router.registry (router s)).
Proof. intros [[Hwf _ _] _]. exact Hwf. Qed.

Lemma inv_index s : inv s → bi_ok (Router.prefix_index (router s)).
Proof. intros [[_ Hidx _] _]. exact Hidx. Qed.

(** A step that keeps the registry and adds no belief about unhealthy workers. *)
Lemma inv_with_router s r :
  inv s → Router.registry r = Router.registry (router s) → bi_ok (Router.prefix_index r) →
  (∀ id h, bi_holds (Router.prefix_index r) id h = true →
     bi_holds (Router.prefix_index (router s)) id h = true ∨
     WorkerRegistry.is_healthy id (Router.registry (router s)) = true) →
  inv (with_router r s).
Proof.
  intros [[Hwf Hidx Hown] Hb] Hreg Hok Hh. split.
  - split; cbn in *; by rewrite ?Hreg.
  - intros id h Hhold. cbn in *. rewrite Hreg. destruct (Hh id h Hhold) as [?|?]; [|done].
    by eapply Hb.
Qed.

(** A selected worker was healthy, so recording for it is safe. *)
Lemma inv_chosen s r chain next d :
  inv s → RouterSpec.chosen (router s) r chain next d →
  WorkerRegistry.is_healthy (w_id (rd_worker d)) (Router.registry (router s)) = true →
  inv (with_router r s).
Proof.
  intros Hi (_ & _ & idx & -> & Hidx & Hheld) Hup.
  apply inv_with_router; [done|done|done|]. intros id h. cbn. rewrite Hheld.
  intros [?|[-> _]%bool_decide_eq_true]%orb_true_iff; [by left|by right].
Qed.

Lemma healthy_workers_is_healthy r w :
  WorkerRegistry.wf (Router.registry r) →
  w ∈ WorkerRegistry.healthy_workers (Router.registry r) →
  WorkerRegistry.is_healthy (w_id w) (Router.registry r) = true.
Proof.
  intros Hwf Hw. apply WorkerRegistry.elem_of_healthy_workers_wf in Hw; [|done].
  unfold WorkerRegistry.is_healthy. by rewrite Hw.
Qed.

Lemma inv_pool now pool chain s :
  inv s → inv (with_router (Router.select_in_pool now pool chain (router s)).2 s).
Proof.
  intros Hi. pose proof (inv_index s Hi) as Hok. pose proof (inv_wf s Hi) as Hwf.
  unfold Router.select_in_pool. case_decide as He.
  { cbn [snd]. by apply inv_with_router; [..|intros; left]. }
  destruct (Router.choose_spec now (Router.no_healthy_in_pool pool (router s)) _ chain
              (router s) Hok He) as (w & idx & -> & Hw & _ & Hr).
  apply list_elem_of_filter in Hw as [_ Hw]. cbn [snd].
  apply (inv_chosen s _ chain (Router.next_worker (router s))
           (Router.decision (Router.candidate (router s) chain w) chain)); [done| |].
  - split_and!; [done..|]. exists idx. split; [by destruct (router s)|done].
  - by apply healthy_workers_is_healthy.
Qed.

Lemma inv_mark w healthy s : inv s → inv (with_router (Health.mark w healthy (router s)) s).
Proof.
  intros Hi. destruct (Health.mark_spec w healthy (router s) (inv_wf s Hi) (inv_index s Hi))
    as (Hwf & Hok & Hget & Hup & Hh & _).
  destruct Hi as [[_ _ Hown] Hb]. split.
  - split; cbn in *; [done..|]. intros url id Hid. destruct (Hown url id Hid) as [h Hl].
    specialize (Hget id). unfold WorkerRegistry.get in Hget. rewrite Hl in Hget.
    destruct (WorkerRegistry.workers _ !! id) as [[w' h']|] eqn:E; simplify_eq/=.
    by exists h'.
  - intros id h. cbn. rewrite Hh, Hup. intros [Hhold Hn]%andb_true_iff.
    pose proof (Hb id h Hhold) as Hid. rewrite Hid in Hn.
    destruct (decide (id = w_id w)) as [->|]; [|done].
    rewrite bool_decide_true in Hn by done. destruct healthy; [|done].
    unfold WorkerRegistry.is_healthy in Hid. unfold WorkerRegistry.get.
    by destruct (WorkerRegistry.workers _ !! w_id w).
Qed.

Lemma inv_event ev s :
  inv s →
  (WorkerRegistry.next_id (Router.registry (router s)) +
     N.of_nat (size (Watch.desired_urls (Watch.apply_event ev (slices s)))) < u64_modulus)%N →
  let '(sl, st) := Watch.handle_event (slices s, watch_state s) ev in
  inv {| router := Watch.app st; slices := sl; discovered := Watch.discovered st;
         guards := guards s |}.
Proof.
  intros [Hd Hb] Hn.
  pose proof (Discovery.reconcile_reconciled _ (Watch.view (watch_state s)) Hd Hn) as Hrec.
  pose proof (Watch.view_handle_event (slices s) (watch_state s) ev) as Hview.
  destruct (Watch.handle_event _ ev) as [sl st]. cbn [snd] in Hview. rewrite <-Hview in Hrec.
  split; [apply Hrec|]. intros id h Hhold. cbn in *.
  set (desired := Watch.desired_urls _) in *.
  destruct (decide (Exists (λ u, discovered s !! u = Some id)
              (filter (λ u, u ∉ desired) (map_to_list (discovered s)).*1))) as [Hg|Hg].
  - apply Exists_exists in Hg as (u & [Hu _]%list_elem_of_filter & Hl).
    destruct (Discovery.rec_gone _ _ _ _ Hrec u id Hl Hu) as [_ Hno].
    cbn in Hno. by rewrite Hno in Hhold.
  - destruct (Discovery.rec_others _ _ _ _ Hrec id) as [Hw Hh].
    { intros u Hl. destruct (decide (u ∈ desired)) as [|Hu]; [done|exfalso]. apply Hg.
      apply Exists_exists. exists u. split; [|done]. apply list_elem_of_filter.
      split; [done|]. apply list_elem_of_fmap. exists (u, id).
      by rewrite elem_of_map_to_list. }
    cbn in Hw, Hh. rewrite Hh in Hhold. apply Hb in Hhold.
    unfold WorkerRegistry.is_healthy in *. rewrite Hw; [done|].
    destruct (WorkerRegistry.workers _ !! id) as [ws|] eqn:E; [|done].
    by apply (WorkerRegistry.wf_bound _ (Discovery.ok_registry _ Hd)) in E.
Qed.

Lemma inv_chat {V} now (request : ChatCompletionRequest V) out r s :
  inv s → Router.select_for_chat now request (router s) = Some (out, r) →
  inv (with_router r s).
Proof.
  intros Hi Hsel. pose proof (inv_index s Hi) as Hok.
  unfold Router.select_for_chat in Hsel.
  set (chain := chain_hash _ _) in *. case_decide as He.
  { simplify_eq. by apply inv_with_router; [..|intros; left]. }
  pose proof (Router.chat_candidates_not_nil _ He) as Hc.
  destruct (Router.policy (router s)).
  - destruct (Router.round_robin_spec now _ chain (router s) Hok Hc) as (w & idx & Hs & Hw & Hr).
    rewrite Hs in Hsel. simplify_eq.
    apply list_elem_of_lookup_2, Router.chat_candidates_elem in Hw as [Hw _].
    apply (inv_chosen s _ chain (fetch_add (Router.next_worker (router s)) 1)
      {| rd_worker := w; rd_matched_prefix_len := Router.believed_prefix (router s) chain w;
         rd_prompt_blocks := length chain; rd_score := f64_0 |}); [done| |].
    + split_and!; [done..|]. by exists idx.
    + by apply healthy_workers_is_healthy; [apply inv_wf|].
  - destruct (Router.choose_spec now (Router.no_healthy (router s)) _ chain (router s) Hok Hc)
      as (w & idx & Hs & Hw & _ & Hr).
    rewrite Hs in Hsel. simplify_eq. apply Router.chat_candidates_elem in Hw as [Hw _].
    apply (inv_chosen s _ chain (Router.next_worker (router s))
      (Router.decision (Router.candidate (router s) chain w) chain)); [done| |].
    + split_and!; [done..|]. exists idx. split; [by destruct (router s)|done].
    + by apply healthy_workers_is_healthy; [apply inv_wf|].
  - simplify_eq. by apply inv_with_router; [..|intros; left].
Qed.

Lemma inv_step s s' : step s s' → inv s → inv s'.
Proof.
  intros Hs Hi. pose proof Hi as [[Hwf Hidx Hown] Hb].
  destruct Hs as [V now request out r s Hsel|now pool chain out r s Hsel|w healthy s
    |now ttl cap s|ev sl st s Hn He|s|w s|g gs1 gs2 s Hg].
  - by eapply inv_chat.
  - pose proof (inv_pool now pool chain s Hi) as Hp. by rewrite Hsel in Hp.
  - by apply inv_mark.
  - apply inv_with_router; [done|done|by apply bi_evict_ok|]. intros id h Hh. left.
    exact (bi_evict_holds _ _ _ _ _ _ Hidx Hh).
  - pose proof (inv_event ev s Hi Hn) as Hp. by rewrite He in Hp.
  - by split.
  - by split.
  - by split.
Qed.

Lemma inv_rtc s s' : rtc step s s' → inv s → inv s'.
Proof. induction 1; eauto using inv_step. Qed.

Lemma inv_initial config :
  (N.of_nat (length (cfg_workers config)) < u64_modulus)%N → inv (initial config).
Proof.
  intros Hn. split.
  - split; cbn; [by apply WorkerRegistry.wf_from_config|apply bi_new_ok|done].
  - intros id h. cbn. by rewrite bi_new_holds.
Qed.
End preservation.

(** ** States up to the order of the guards

    Nothing depends on the order in which the guards alive are listed. *)

Record same {T} (s s' : t T) : Prop := {
  same_router : router s = router s';
  same_slices : slices s = slices s';
  same_discovered : discovered s = discovered s';
  same_guards : guards s ≡ₚ guards s';
}.

#[global] Instance same_equivalence {T} : Equivalence (@same T).
Proof.
  split.
  - by intros s.
  - intros s s' []. by split.
  - intros s1 s2 s3 [] []. split; etrans; done.
Qed.

Section up_to.
Context {T : Type} `{BI : BeliefIndex T} {HM : HashMapOrder} {BH : BlockHash}.
Implicit Types (s : t T).

Lemma step_same s1 s2 s1' :
  same s1 s2 → step s1 s1' → ∃ s2', step s2 s2' ∧ same s1' s2'.
Proof.
  destruct s2 as [r2 sl2 d2 g2]. intros [Hr Hsl Hd Hg] Hs. cbn in Hr, Hsl, Hd, Hg. subst r2 sl2 d2.
  destruct Hs as [V now request out r s Hsel|now pool chain out r s Hsel|w healthy s
    |now ttl cap s|ev sl st s Hn He|s|w s|g gs1 gs2 s Hgs].
  - eexists. split; [by eapply (step_chat now request)|by split].
  - eexists. split; [by eapply (step_pool now pool chain)|by split].
  - eexists. split; [by apply (step_probe w healthy)|by split].
  - eexists. split; [by apply (step_evict now ttl cap)|by split].
  - eexists. split; [by eapply (step_event ev)|by split].
  - eexists. split; [by apply step_restart|by split].
  - eexists. split; [by apply (step_acquire w)|]. split; [done..|]. cbn. by rewrite Hg.
  - rewrite Hgs in Hg. assert (Hin : g ∈ g2) by (rewrite <-Hg; set_solver).
    apply list_elem_of_split in Hin as (h1 & h2 & ->).
    eexists. split; [by apply (step_drop g h1 h2)|]. split; [done..|]. cbn.
    apply (Permutation_app_inv _ _ _ _ _ Hg).
Qed.

Lemma run_same s1 s2 s1' :
  same s1 s2 → rtc step s1 s1' → ∃ s2', rtc step s2 s2' ∧ same s1' s2'.
Proof.
  intros Hsame Hs. revert s2 Hsame. induction Hs as [s1|s1 s1a s1' Hs _ IH]; intros s2 Hsame.
  { by exists s2. }
  destruct (step_same _ _ _ Hsame Hs) as (s2a & Hs2 & Hsame2).
  destruct (IH _ Hsame2) as (s2' & Hr & Hsame'). exists s2'. split; [by eapply rtc_l|done].
Qed.
End up_to.
End System.

(** ** Properties *)

(** In every reachable state the registry is well formed, discovery owns
    the workers it remembers, and, with every operation one step, only healthy
    registered workers are believed to hold any block.  ([Threads.covered] is
    what holds when the operations interleave.) *)
Theorem only_healthy_workers_hold {T} `{BeliefIndexLaws T} {HM : HashMapOrder}
    {BH : BlockHash} (config : RouterConfig) (s : System.t T)
    (Hn : (N.of_nat (length (cfg_workers config)) < u64_modulus)%N)
    (Hs : rtc System.step (System.initial config) s) :
  WorkerRegistry.wf (Router.registry (System.router s)) ∧
  bi_ok (Router.prefix_index (System.router s)) ∧
  (∀ url id, System.discovered s !! url = Some id →
     WorkerRegistry.get id (Router.registry (System.router s)) =
       Some {| w_id := id; w_url := url; w_pool := Both |}) ∧
  (∀ id h, bi_holds (Router.prefix_index (System.router s)) id h = true →
     WorkerRegistry.is_healthy id (Router.registry (System.router s)) = true).
Proof.
  pose proof (System.inv_rtc _ _ Hs (System.inv_initial config Hn)) as [[Hwf Hok Hown] Hb].
  split_and!; [done|done| |exact Hb]. intros url id Hid.
  destruct (Hown url id Hid) as [h Hl]. cbn in Hl. unfold WorkerRegistry.get. by rewrite Hl.
Qed.

Section witnesses.
#[local] Existing Instance hm_canonical.

Definition sys_config : RouterConfig := sample_config CacheAware two_workers.
Definition sys_start : System.t PrefixIndex.t := System.initial sys_config.

(** Worker 0 comes up and serves [hello]. *)
Definition sys_up : System.t PrefixIndex.t :=
  System.with_router (Health.mark worker_a true (System.router sys_start)) sys_start.

Definition sys_served : System.t PrefixIndex.t :=
  System.with_router
    (default (System.router sys_up)
       (snd <$> Router.select_for_chat still hello (System.router sys_up))) sys_up.

Theorem only_healthy_workers_hold_witness :
  bi_holds (Router.prefix_index (System.router sys_served)) 0 16360918370999562615%N = true ∧
  ∀ id h, bi_holds (Router.prefix_index (System.router sys_served)) id h = true →
    WorkerRegistry.is_healthy id (Router.registry (System.router sys_served)) = true.
Proof.
  split; [vm_compute; reflexivity|].
  apply (only_healthy_workers_hold sys_config sys_served).
  - vm_compute. reflexivity.
  - eapply rtc_l; [apply (System.step_probe worker_a true)|].
    eapply rtc_l; [|apply rtc_refl].
    apply (System.step_chat still hello (default (Err DisaggregatedRequiresTwoPhase)
      (fst <$> Router.select_for_chat still hello (System.router sys_up)))).
    vm_compute. reflexivity.
Defined.

End witnesses.
