(* ===== verification/Threads.v ===== *)
(** * The router's clients at the grain of their locks

    Elsewhere a selection, a health verdict and a reconciliation are one step
    each.  In the code ([router-core/src/router.rs], [router-server/src/health.rs]
    and [discovery.rs]) each is a sequence of critical sections: a snapshot of
    the registry, calls on the index that lock one shard at a time, loads of
    counters, updates of the registry, between which everything else runs.
    This file has them as threads that stop at each of these, shows that a
    thread that is not interrupted is the function of the other files, and says
    what the index believes about whom while they are interleaved. *)

From S2P Require Import Prelude Float64 Hashing Config Request Worker Inflight Belief Prefix Concurrent Router Selection Discovery Health System.

(** ** Accesses to what the threads share *)

Module Action.

Inductive t :=
  (** One critical section of the index ([ReadOnly] for any other reading). *)
  | Access (a : Section_.t)
  (** [next_worker.fetch_add(1)]. *)
  | NextCursor
  (** Writes of the registry; [TakeId] and [Insert] make [register_worker]. *)
  | SetHealthy (id : WorkerId) (healthy : bool)
  | Deregister (id : WorkerId)
  | TakeId
  | Insert (id : WorkerId) (url : rstr)
  (** [ensure_capacity] of the in-flight tracker. *)
  | Grow (workers : nat).

Definition apply (a : t) (r : Router.t PrefixIndex.t) : Router.t PrefixIndex.t :=
  let reg := Router.registry r in
  match a with
  | Access a => Router.set_prefix_index (Section_.apply a (Router.prefix_index r)) r
  | NextCursor => Router.set_next_worker (fetch_add (Router.next_worker r) 1) r
  | SetHealthy id healthy => Router.set_registry (WorkerRegistry.set_healthy id healthy reg).2 r
  | Deregister id => Router.set_registry (WorkerRegistry.remove_worker id reg).2 r
  | TakeId => Router.set_registry {|
      WorkerRegistry.workers := WorkerRegistry.workers reg;
      WorkerRegistry.next_id := fetch_add (WorkerRegistry.next_id reg) 1 |} r
  | Insert id url => Router.set_registry {|
      WorkerRegistry.workers := <[id := {|
        ws_worker := {| w_id := id; w_url := url; w_pool := Both |};
        ws_healthy := false |}]> (WorkerRegistry.workers reg);
      WorkerRegistry.next_id := WorkerRegistry.next_id reg |} r
  | Grow workers =>
      Router.set_inflight (InflightTracker.ensure_capacity workers (Router.inflight r)) r
  end.

(** A step that changes nothing shared. *)
Abbreviation Local := (Access Section_.ReadOnly).
End Action.

(** ** Threads *)

Module Thread.
Import Action.

Inductive t :=
  (** [select_for_chat] and [select_in_pool], the chain computed. *)
  | Chat (chain : list N)
  | InPool (pool : Pool) (chain : list N)
  (** Round robin: the cursor, [longest_match], [record]. *)
  | Rotating (candidates : list Worker) (chain : list N)
  | Peeking (worker : Worker) (chain : list N) (call : IndexThread.t)
  | Noting (d : RouteDecision) (call : IndexThread.t)
  (** [pick_best] and [record]. *)
  | Choosing (error : RouterError) (chain : list N) (selection : Selection.t)
  (** [None] is a panic. *)
  | Selected (out : option (result RouterError RouteDecision))
  (** The health poller with the verdict on a worker, then [remove_worker]. *)
  | Mark (id : WorkerId) (healthy : bool)
  | Forgetting (id : WorkerId) (call : IndexThread.t)
  (** An eviction sweep, or any other call on the index that records nothing. *)
  | Sweeping (call : IndexThread.t)
  | Finished.

Section machine.
Context {HM : HashMapOrder}.
Implicit Types (now : instant) (r : Router.t PrefixIndex.t).

(** Score and record, among [candidates]. *)
Definition choose now (error : RouterError) (chain : list N) (candidates : list Worker) : t :=
  Choosing error chain (Selection.continue error chain now candidates []).

(** The next access of a thread. *)
Definition advance now (k : t) r : option (t * Action.t) :=
  match k with
  | Chat chain =>
      let healthy := WorkerRegistry.healthy_workers (Router.registry r) in
      if decide (healthy = []) then Some (Selected (Some (Err (Router.no_healthy r))), Local) else
      let candidates := Router.chat_candidates healthy in
      match Router.policy r with
      | RoundRobin => Some (Rotating candidates chain, Local)
      | CacheAware => Some (choose now (Router.no_healthy r) chain candidates, Local)
      | Disaggregated => Some (Selected (Some (Err DisaggregatedRequiresTwoPhase)), Local)
      end
  | InPool pool chain =>
      let candidates := Router.pool_candidates pool r in
      if decide (candidates = [])
      then Some (Selected (Some (Err (Router.no_healthy_in_pool pool r))), Local)
      else Some (choose now (Router.no_healthy_in_pool pool r) chain candidates, Local)
  | Rotating candidates chain =>
      if decide (length candidates = 0) then Some (Selected None, NextCursor) else
      let index := (Router.next_worker r mod N.of_nat (length candidates))%N in
      match candidates !! N.to_nat index with
      | Some worker =>
          Some (Peeking worker chain
                  (IndexThread.start now (IndexThread.CallLongestMatch (w_id worker) chain)),
                NextCursor)
      | None => Some (Selected None, NextCursor)
      end
  | Peeking worker chain (IndexThread.Returned (IndexThread.Matched matched)) =>
      Some (Noting {| rd_worker := worker; rd_matched_prefix_len := matched;
                      rd_prompt_blocks := length chain; rd_score := f64_0 |}
              (IndexThread.start now (IndexThread.CallRecord (w_id worker) chain)), Local)
  | Peeking worker chain call =>
      '(call, a) ← IndexThread.advance now call (Router.prefix_index r);
      Some (Peeking worker chain call, Access a)
  | Noting d (IndexThread.Returned _) => Some (Selected (Some (Ok d)), Local)
  | Noting d call =>
      '(call, a) ← IndexThread.advance now call (Router.prefix_index r);
      Some (Noting d call, Access a)
  | Choosing error chain (Selection.Decided out) => Some (Selected (Some out), Local)
  | Choosing error chain s =>
      '(s, a) ← Selection.advance (Selection.weights_of r) error chain now s (Selection.shared_of r);
      Some (Choosing error chain s, Access a)
  | Mark id healthy =>
      let changed := (WorkerRegistry.set_healthy id healthy (Router.registry r)).1 in
      Some (if changed && negb healthy
            then Forgetting id (IndexThread.start now (IndexThread.CallRemoveWorker id))
            else Finished, SetHealthy id healthy)
  | Forgetting id (IndexThread.Returned _) => Some (Finished, Local)
  | Forgetting id call =>
      '(call, a) ← IndexThread.advance now call (Router.prefix_index r);
      Some (Forgetting id call, Access a)
  | Sweeping (IndexThread.Returned _) => Some (Finished, Local)
  | Sweeping call =>
      '(call, a) ← IndexThread.advance now call (Router.prefix_index r);
      Some (Sweeping call, Access a)
  | Selected _ | Finished => None
  end.

(** Uninterrupted steps, with the clock at [now]. *)
Definition own now (x y : t * Router.t PrefixIndex.t) : Prop :=
  ∃ a, advance now x.1 x.2 = Some (y.1, a) ∧ y.2 = Action.apply a x.2.
End machine.
End Thread.

(** ** The watch task

    There is one of it; the discovered workers are its own. *)

Module WatchTask.
Import Action.

Inductive t :=
  | Watching
  (** The two loops of [reconcile]; [removed] and [added] are its counts. *)
  | Dropping (gone : list rstr) (desired : gset rstr) (removed : nat)
  | Purging (id : WorkerId) (call : IndexThread.t) (gone : list rstr) (desired : gset rstr)
      (removed : nat)
  | Adding (todo : list rstr) (removed added : nat)
  | Registering (url : rstr) (id : WorkerId) (todo : list rstr) (removed added : nat).

Section machine.
Context {HM : HashMapOrder}.
Implicit Types (now : instant) (r : Router.t PrefixIndex.t) (discovered : gmap rstr WorkerId).

(** An event of the watch asks for the endpoints [desired]. *)
Definition begin (desired : gset rstr) discovered : t :=
  let gone := filter (λ url, url ∉ desired) (hm_iter discovered).*1 in
  Dropping gone desired (length gone).

Definition advance now (k : t) discovered r : option (t * gmap rstr WorkerId * Action.t) :=
  match k with
  | Watching => None
  | Dropping (url :: gone) desired removed =>
      match discovered !! url with
      | Some id =>
          Some (Purging id (IndexThread.start now (IndexThread.CallRemoveWorker id)) gone desired removed,
                delete url discovered, Local)
      | None => Some (Dropping gone desired removed, discovered, Local)
      end
  | Dropping [] desired removed => Some (Adding (hs_iter desired) removed 0, discovered, Local)
  | Purging id (IndexThread.Returned _) gone desired removed =>
      Some (Dropping gone desired removed, discovered, Deregister id)
  | Purging id call gone desired removed =>
      '(call, a) ← IndexThread.advance now call (Router.prefix_index r);
      Some (Purging id call gone desired removed, discovered, Access a)
  | Adding (url :: todo) removed added =>
      match discovered !! url with
      | Some _ => Some (Adding todo removed added, discovered, Local)
      | None =>
          Some (Registering url (WorkerRegistry.next_id (Router.registry r)) todo removed added,
                discovered, TakeId)
      end
  | Registering url id todo removed added =>
      Some (Adding todo removed (S added), <[url := id]> discovered, Insert id url)
  | Adding [] removed added =>
      Some (Watching, discovered,
            if decide (0 < removed + added) then Grow (size discovered + 16) else Local)
  end.

Definition own now (x y : t * gmap rstr WorkerId * Router.t PrefixIndex.t) : Prop :=
  ∃ a, advance now x.1.1 x.1.2 x.2 = Some (y.1, a) ∧ y.2 = Action.apply a x.2.
End machine.
End WatchTask.

(** ** A thread alone is the function of the other files *)

Module ThreadsAlone.
Import Action Thread.

Section alone.
Context {HM : HashMapOrder} (now : instant).
Implicit Types (r : Router.t PrefixIndex.t) (idx : PrefixIndex.t) (chain : list N).

#[local] Notation "x ⇝ y" := (rtc (own now) x y) (at level 70).

Lemma returned_or (call : IndexThread.t) :
  (∃ out, call = IndexThread.Returned out) ∨ ∀ out, call ≠ IndexThread.Returned out.
Proof. destruct call; eauto. Qed.

Lemma own_step k r k' a z :
  advance now k r = Some (k', a) → (k', Action.apply a r) ⇝ z → (k, r) ⇝ z.
Proof. intros Hk Hz. eapply rtc_l; [|exact Hz]. by exists a. Qed.

Lemma set_index_twice idx idx' r :
  Router.set_prefix_index idx (Router.set_prefix_index idx' r) = Router.set_prefix_index idx r.
Proof. done. Qed.

Lemma local_id r : Action.apply Local r = r.
Proof. by destruct r. Qed.

(** A call runs inside a thread as it does by itself. *)
Lemma own_call (C : IndexThread.t → Thread.t) r x y :
  (∀ call r call' a, IndexThread.advance now call (Router.prefix_index r) = Some (call', a) →
     advance now (C call) r = Some (C call', Access a)) →
  IndexThread.alone now x y →
  (C x.1, Router.set_prefix_index x.2 r) ⇝ (C y.1, Router.set_prefix_index y.2 r).
Proof.
  intros HC. induction 1 as [x|k idx y z Hk _ IH]; [apply rtc_refl|].
  unfold IndexThread.step in Hk.
  destruct (IndexThread.advance now k idx) as [[k' a]|] eqn:Ha; [|done]. injection Hk as <-.
  eapply own_step; [by apply HC|]. exact IH.
Qed.

(** The whole call, from its start to its answer. *)
Lemma own_execute (C : IndexThread.t → Thread.t) c r :
  (∀ call r call' a, IndexThread.advance now call (Router.prefix_index r) = Some (call', a) →
     advance now (C call) r = Some (C call', Access a)) →
  let out := IndexThread.execute now c (Router.prefix_index r) in
  (C (IndexThread.start now c), r) ⇝
  (C (IndexThread.Returned out.1), Router.set_prefix_index out.2 r).
Proof.
  intros HC out. pose proof (own_call C r _ _ HC (IndexAlone.alone_execute now c
    (Router.prefix_index r))) as Hc.
  cbn [fst snd] in Hc. by rewrite Router.set_prefix_index_id in Hc.
Qed.

Lemma advance_call (C : IndexThread.t → Thread.t) :
  (C = Sweeping ∨ (∃ id, C = Forgetting id) ∨ (∃ d, C = Noting d) ∨ ∃ w chain, C = Peeking w chain) →
  ∀ call r call' a, IndexThread.advance now call (Router.prefix_index r) = Some (call', a) →
    advance now (C call) r = Some (C call', Access a).
Proof.
  intros HC call r call' a Ha.
  destruct HC as [->|[[id ->]|[[d ->]|(w & chain & ->)]]];
    destruct call; try done; cbn [advance]; by rewrite Ha.
Qed.

(** A selection runs inside its thread as it does by itself. *)
Lemma own_selection error chain r x y :
  Selection.alone (Selection.weights_of r) error chain now x y →
  Selection.tracker x.2 = Router.inflight r →
  (Choosing error chain x.1, Router.set_prefix_index (Selection.index x.2) r) ⇝
  (Choosing error chain y.1, Router.set_prefix_index (Selection.index y.2) r).
Proof.
  induction 1 as [x|s sh s1 a z Ha _ IH]; intros Ht; [apply rtc_refl|].
  cbn [fst snd] in *. apply (own_step _ _ (Choosing error chain s1) (Access a)); [|apply IH; exact Ht].
  assert (Hsh : Selection.shared_of (Router.set_prefix_index (Selection.index sh) r) = sh).
  { unfold Selection.shared_of. cbn. rewrite <-Ht. by destruct sh. }
  destruct s; try done; cbn [advance]; rewrite Hsh;
    change (Selection.weights_of (Router.set_prefix_index (Selection.index sh) r))
      with (Selection.weights_of r); by rewrite Ha.
Qed.

Lemma own_choose error chain candidates r :
  let '(out, r') := Router.choose (λ _, now) error candidates chain r in
  (choose now error chain candidates, r) ⇝ (Selected (Some out), r').
Proof.
  pose proof (Selection.alone_choose now error chain candidates r) as Hs.
  pose proof (Router.choose_frame (λ _, now) error candidates chain r) as Hf.
  destruct (Router.choose _ _ _ _ _) as [out r'] eqn:Hc. cbn [snd] in Hf.
  apply (own_selection error chain r) in Hs; [|done]. cbn [fst snd] in Hs.
  cbn [Selection.shared_of Selection.index] in Hs. rewrite Router.set_prefix_index_id in Hs.
  etrans; [exact Hs|]. eapply own_step; [done|]. rewrite local_id.
  enough (Router.set_prefix_index (Router.prefix_index r') r = r') as -> by apply rtc_refl.
  unfold Router.choose, Router.pick_best in Hc.
  destruct (Router.score_all_frame (λ _, now) 0 chain candidates r) as [idx Hidx].
  destruct (Router.score_all _ _ _ _ _) as [ss r1]. cbn [snd] in Hidx. subst r1.
  destruct (max_by _ ss); by injection Hc as _ <-.
Qed.

Lemma own_round_robin candidates chain r out r' :
  Router.round_robin (λ _, now) candidates chain r = Some (out, r') →
  (Rotating candidates chain, r) ⇝ (Selected (Some out), r').
Proof.
  unfold Router.round_robin. case_decide as Hlen; [done|].
  destruct (candidates !! _) as [w|] eqn:Hw; cbn [mbind option_bind]; [|done].
  cbn [Router.prefix_index Router.set_next_worker].
  set (r1 := Router.set_next_worker (fetch_add (Router.next_worker r) 1) r).
  change (bi_longest_match now (w_id w) chain (Router.prefix_index r))
    with (PrefixIndex.longest_match now (w_id w) chain (Router.prefix_index r1)).
  pose proof (own_execute (Peeking w chain) (IndexThread.CallLongestMatch (w_id w) chain) r1
    (advance_call _ ltac:(eauto 6))) as Hm.
  cbn [IndexThread.execute] in Hm.
  destruct (PrefixIndex.longest_match now (w_id w) chain (Router.prefix_index r1)) as [matched idx].
  cbn [fst snd] in Hm. intros [= <- <-].
  eapply (own_step _ _ (Peeking w chain _) NextCursor).
  { cbn [advance]. rewrite decide_False by done. by rewrite Hw. }
  fold r1. etrans; [exact Hm|]. eapply own_step; [done|]. rewrite local_id.
  set (d := {| rd_worker := w; rd_matched_prefix_len := matched;
               rd_prompt_blocks := length chain; rd_score := f64_0 |}).
  etrans; [apply (own_execute (Noting d) (IndexThread.CallRecord (w_id w) chain));
    apply advance_call; eauto|].
  eapply own_step; [done|]. rewrite local_id. apply rtc_refl.
Qed.

Lemma own_chat {BH : BlockHash} {V} (request : ChatCompletionRequest V) r out r' :
  Router.select_for_chat (λ _, now) request r = Some (out, r') →
  (Chat (chain_hash (canonical_prompt request) (Router.block_size r)), r) ⇝
  (Selected (Some out), r').
Proof.
  unfold Router.select_for_chat. set (chain := chain_hash _ _). case_decide as He; intros Hsel.
  { injection Hsel as <- <-. eapply own_step; [cbn [advance]; by rewrite decide_True|].
    rewrite local_id. apply rtc_refl. }
  destruct (Router.policy r) eqn:Hp.
  - eapply own_step; [cbn [advance]; by rewrite decide_False, Hp|]. rewrite local_id.
    by apply own_round_robin.
  - eapply own_step; [cbn [advance]; by rewrite decide_False, Hp|]. rewrite local_id.
    pose proof (own_choose (Router.no_healthy r) chain
      (Router.chat_candidates (WorkerRegistry.healthy_workers (Router.registry r))) r) as Hc.
    injection Hsel as Hsel. by rewrite Hsel in Hc.
  - injection Hsel as <- <-. eapply own_step; [cbn [advance]; by rewrite decide_False, Hp|].
    rewrite local_id. apply rtc_refl.
Qed.

Lemma own_pool pool chain r :
  let '(out, r') := Router.select_in_pool (λ _, now) pool chain r in
  (InPool pool chain, r) ⇝ (Selected (Some out), r').
Proof.
  unfold Router.select_in_pool. case_decide as He.
  { eapply own_step; [cbn [advance]; by rewrite decide_True|]. rewrite local_id. apply rtc_refl. }
  pose proof (own_choose (Router.no_healthy_in_pool pool r) chain (Router.pool_candidates pool r) r)
    as Hc.
  destruct (Router.choose _ _ _ _ _) as [out r'].
  eapply own_step; [cbn [advance]; by rewrite decide_False|]. by rewrite local_id.
Qed.

Lemma own_mark w healthy r :
  (Mark (w_id w) healthy, r) ⇝ (Finished, Health.mark w healthy r).
Proof.
  eapply own_step; [done|]. unfold Health.mark. cbn [Action.apply].
  destruct (WorkerRegistry.set_healthy (w_id w) healthy (Router.registry r)) as [changed reg].
  cbn [fst snd]. destruct (changed && negb healthy); [|apply rtc_refl].
  etrans; [apply (own_execute (Forgetting (w_id w)) (IndexThread.CallRemoveWorker (w_id w)));
    apply advance_call; eauto|].
  eapply own_step; [done|]. rewrite local_id. apply rtc_refl.
Qed.

Lemma own_sweep ttl cap r :
  (Sweeping (IndexThread.start now (IndexThread.CallEvict ttl cap)), r) ⇝
  (Finished, Router.set_prefix_index (bi_evict now ttl cap (Router.prefix_index r)).2 r).
Proof.
  etrans; [apply (own_execute Sweeping); apply advance_call; by left|].
  eapply own_step; [done|]. rewrite local_id. cbn [IndexThread.execute].
  change (bi_evict now ttl cap (Router.prefix_index r)) with
    (PrefixIndex.evict now ttl cap (Router.prefix_index r)).
  destruct (PrefixIndex.evict _ _ _ _). apply rtc_refl.
Qed.
End alone.

(** *** The watch task *)

Section watch.
Context {HM : HashMapOrder} (now : instant).
Implicit Types (r : Router.t PrefixIndex.t) (d : Discovery.t PrefixIndex.t).
Import WatchTask.

#[local] Notation "x ⇝ y" := (rtc (WatchTask.own now) x y) (at level 70).

(** The state of the task, when the parts that it works on are those of [d]. *)
Definition at_ (k : WatchTask.t) d r : WatchTask.t * gmap rstr WorkerId * Router.t PrefixIndex.t :=
  (k, Discovery.by_url d,
   Router.set_prefix_index (Discovery.index d) (Router.set_registry (Discovery.registry d) r)).

Lemma watch_next k disc r k' disc' a y :
  WatchTask.advance now k disc r = Some (k', disc', a) →
  (k', disc', Action.apply a r) ⇝ y → (k, disc, r) ⇝ y.
Proof. intros Hk Hy. eapply rtc_l; [|exact Hy]. by exists a. Qed.

Lemma watch_step k d r k' disc a y :
  WatchTask.advance now k (Discovery.by_url d)
    (Router.set_prefix_index (Discovery.index d) (Router.set_registry (Discovery.registry d) r)) =
    Some (k', disc, a) →
  (k', disc, Action.apply a (Router.set_prefix_index (Discovery.index d)
     (Router.set_registry (Discovery.registry d) r))) ⇝ y →
  at_ k d r ⇝ y.
Proof. apply watch_next. Qed.

Lemma watch_purging id gone desired removed disc r x y :
  IndexThread.alone now x y →
  (Purging id x.1 gone desired removed, disc, Router.set_prefix_index x.2 r) ⇝
  (Purging id y.1 gone desired removed, disc, Router.set_prefix_index y.2 r).
Proof.
  induction 1 as [x|k idx y z Hk _ IH]; [apply rtc_refl|].
  unfold IndexThread.step in Hk.
  destruct (IndexThread.advance now k idx) as [[k' a]|] eqn:Ha; [|done]. injection Hk as <-.
  eapply rtc_l; [|exact IH]. exists (Access a). split; [|done].
  destruct k; try done; cbn [WatchTask.advance fst snd]; cbn; cbn in Ha; by rewrite Ha.
Qed.

Lemma watch_drop_all gone desired removed d r :
  at_ (Dropping gone desired removed) d r ⇝
  at_ (Adding (hs_iter desired) removed 0) (foldl Discovery.drop_url d gone) r.
Proof.
  revert d. induction gone as [|url gone IH]; intros d; cbn [foldl].
  { eapply watch_step; [done|]. rewrite local_id. apply rtc_refl. }
  destruct (Discovery.by_url d !! url) as [id|] eqn:Hu.
  - eapply watch_step; [cbn [WatchTask.advance]; by rewrite Hu|]. rewrite local_id.
    etrans; [apply (watch_purging id gone desired removed (delete url (Discovery.by_url d))
      (Router.set_registry (Discovery.registry d) r) _ _
      (IndexAlone.alone_execute now (IndexThread.CallRemoveWorker id) (Discovery.index d)))|].
    cbn [IndexThread.execute fst snd].
    eapply watch_next; [done|]. unfold Discovery.drop_url at 2. rewrite Hu.
    exact (IH {| Discovery.registry := (WorkerRegistry.remove_worker id (Discovery.registry d)).2;
      Discovery.index := PrefixIndex.remove_worker id (Discovery.index d);
      Discovery.by_url := delete url (Discovery.by_url d) |}).
  - eapply watch_step; [cbn [WatchTask.advance]; by rewrite Hu|]. rewrite local_id.
    unfold Discovery.drop_url at 2. rewrite Hu. apply IH.
Qed.

Lemma watch_add_all todo removed added d r :
  let '(d', added') := foldl Discovery.add_url (d, added) todo in
  at_ (Adding todo removed added) d r ⇝ at_ (Adding [] removed added') d' r.
Proof.
  revert d added. induction todo as [|url todo IH]; intros d added; cbn [foldl].
  { apply rtc_refl. }
  unfold Discovery.add_url at 2. destruct (Discovery.by_url d !! url) as [id|] eqn:Hu.
  - specialize (IH d added). destruct (foldl _ _ _) as [d' added'].
    eapply watch_step; [cbn [WatchTask.advance]; by rewrite Hu|]. by rewrite local_id.
  - cbn [WorkerRegistry.register_worker].
    match goal with |- context [foldl Discovery.add_url (?d1, S added) todo] =>
      specialize (IH d1 (S added)) end.
    destruct (foldl _ _ _) as [d' added'].
    eapply watch_step; [cbn [WatchTask.advance]; by rewrite Hu|].
    eapply watch_next; [done|]. exact IH.
Qed.

Lemma own_handle_event slices ev r discovered :
  let '(_, st) := Watch.handle_event (slices,
    {| Watch.app := r; Watch.discovered := discovered |}) ev in
  (WatchTask.begin (Watch.desired_urls (Watch.apply_event ev slices)) discovered, discovered, r) ⇝
  (Watching, Watch.discovered st, Watch.app st).
Proof.
  unfold Watch.handle_event, Discovery.reconcile. set (desired := Watch.desired_urls _).
  set (d := Watch.view _).
  pose proof (watch_drop_all (Discovery.gone desired d) desired (length (Discovery.gone desired d)) d r)
    as Hdrop.
  pose proof (watch_add_all (hs_iter desired) (length (Discovery.gone desired d)) 0
    (foldl Discovery.drop_url d (Discovery.gone desired d)) r) as Hadd.
  destruct (foldl Discovery.add_url _ _) as [d' added].
  assert (Hbegin : (WatchTask.begin desired discovered, discovered, r) =
    at_ (Dropping (Discovery.gone desired d) desired (length (Discovery.gone desired d))) d r).
  { unfold at_, WatchTask.begin. cbn. by destruct r. }
  rewrite Hbegin. etrans; [exact Hdrop|]. etrans; [exact Hadd|].
  eapply watch_next; [done|]. case_decide; apply rtc_refl.
Qed.
End watch.
End ThreadsAlone.

(** ** The server as its threads *)

Module Threads.
Import Action Thread.

Record t := {
  router : Router.t PrefixIndex.t;
  threads : list Thread.t;
  watch : WatchTask.t;
  discovered : gmap rstr WorkerId;
  (** History: the blocks that a selection recorded for a worker that was not
      healthy at that moment, or that the watch task was just purging. *)
  overtaken : list (WorkerId * N);
}.

(** What happens to a worker's registration and health. *)
Inductive event :=
  | Verdict (id : WorkerId) (healthy : bool)
  | Registered (id : WorkerId)
  | Removed (id : WorkerId)
  | Quiet.

Definition event_of (a : Action.t) : event :=
  match a with
  | SetHealthy id healthy => Verdict id healthy
  | Insert id _ => Registered id
  | Deregister id => Removed id
  | _ => Quiet
  end.

(** The watch task is purging worker [w]. *)
Definition purging (k : WatchTask.t) (w : WorkerId) : bool :=
  match k with WatchTask.Purging id _ _ _ _ => bool_decide (id = w) | _ => false end.

(** The block that the action records, if its worker is not in service. *)
Definition overtakes (a : Action.t) (s : t) : list (WorkerId * N) :=
  match a with
  | Access (Section_.Record _ w h) =>
      if WorkerRegistry.is_healthy w (Router.registry (router s)) && negb (purging (watch s) w)
      then [] else [(w, h)]
  | _ => []
  end.

Section steps.
Context {HM : HashMapOrder}.
Implicit Types (s : t) (now : instant).

(** Thread [i] makes its next access. *)
Definition run_thread now (i : nat) s : option (event * t) :=
  k ← threads s !! i;
  '(k, a) ← Thread.advance now k (router s);
  Some (event_of a, {|
    router := Action.apply a (router s); threads := <[i := k]> (threads s);
    watch := watch s; discovered := discovered s;
    overtaken := overtakes a s ++ overtaken s |}).

(** The watch task makes its next access, while worker ids last. *)
Definition run_watch now s : option (event * t) :=
  if decide (WorkerRegistry.next_id (Router.registry (router s)) + 1 < u64_modulus)%N then
    '(k, disc, a) ← WatchTask.advance now (watch s) (discovered s) (router s);
    Some (event_of a, {|
      router := Action.apply a (router s); threads := threads s; watch := k; discovered := disc;
      overtaken := overtakes a s ++ overtaken s |})
  else None.

(** Threads that are spawned: requests, verdicts and sweeps. *)
Definition starts (k : Thread.t) : Prop :=
  match k with
  | Chat _ | InPool _ _ | Mark _ _ => True
  | Sweeping call => ∃ now ttl cap, call = IndexThread.start now (IndexThread.CallEvict ttl cap)
  | _ => False
  end.

Definition spawn (k : Thread.t) s : t := {|
  router := router s; threads := k :: threads s; watch := watch s;
  discovered := discovered s; overtaken := overtaken s |}.

Inductive step : event → t → t → Prop :=
  | step_spawn k s : starts k → step Quiet s (spawn k s)
  | step_thread now i e s s' : run_thread now i s = Some (e, s') → step e s s'
  (** An event of the watch, whose endpoints are [desired]. *)
  | step_event desired s :
      watch s = WatchTask.Watching →
      step Quiet s {| router := router s; threads := threads s;
        watch := WatchTask.begin desired (discovered s); discovered := discovered s;
        overtaken := overtaken s |}
  | step_watch now e s s' : run_watch now s = Some (e, s') → step e s s'
  (** Guards are taken and dropped. *)
  | step_load tracker s :
      step Quiet s {| router := Router.set_inflight tracker (router s); threads := threads s;
        watch := watch s; discovered := discovered s; overtaken := overtaken s |}.

(** Runs, with their events, oldest first. *)
Inductive run : t → list event → t → Prop :=
  | run_nil s : run s [] s
  | run_snoc s es s1 e s2 : run s es s1 → step e s1 s2 → run s (es ++ [e]) s2.

(** Before the first request, with the configured workers. *)
Definition start (r : Router.t PrefixIndex.t) : t := {|
  router := r; threads := []; watch := WatchTask.Watching; discovered := ∅; overtaken := [] |}.
End steps.

(** ** Who is believed to hold what *)

(** A removal that has not passed the shard of [h] yet. *)
Definition removing_at (call : IndexThread.t) (h : N) : Prop :=
  match call with
  | IndexThread.Removing _ i => i ≤ PrefixIndex.shard_index h
  | _ => False
  end.

(** [w] is healthy, and if the watch is purging it, not yet there. *)
Definition in_service (s : t) (w : WorkerId) (h : N) : Prop :=
  WorkerRegistry.is_healthy w (Router.registry (router s)) = true ∧
  ∀ call gone desired removed,
    watch s = WatchTask.Purging w call gone desired removed → removing_at call h.

(** [w] went down and its removal from the index has not got to [h]. *)
Definition leaving (s : t) (w : WorkerId) (h : N) : Prop :=
  ∃ call, Forgetting w call ∈ threads s ∧ removing_at call h.

Definition covered (s : t) (w : WorkerId) (h : N) : Prop :=
  in_service s w h ∨ leaving s w h ∨ (w, h) ∈ overtaken s.

Definition is_forgetting (k : Thread.t) : bool :=
  match k with Forgetting _ _ => true | _ => false end.

Lemma no_removal_under_way s :
  existsb is_forgetting (threads s) = false → ∀ w call, Forgetting w call ∉ threads s.
Proof.
  intros He w call Hin. enough (existsb is_forgetting (threads s) = true) by congruence.
  apply existsb_exists. exists (Forgetting w call). split; [by apply list_elem_of_In|done].
Qed.

(** A removal of worker [id]. *)
Definition removal (id : WorkerId) (call : IndexThread.t) : Prop :=
  match call with
  | IndexThread.Removing w _ => w = id
  | IndexThread.Returned _ => True
  | _ => False
  end.

Record inv (s : t) : Prop := {
  inv_registry : WorkerRegistry.wf (Router.registry (router s));
  inv_index : index_ok (Router.prefix_index (router s));
  inv_owned url id : discovered s !! url = Some id →
    WorkerRegistry.get id (Router.registry (router s)) =
      Some {| w_id := id; w_url := url; w_pool := Both |};
  inv_threads id call : Forgetting id call ∈ threads s → removal id call;
  inv_watch : match watch s with
    | WatchTask.Purging id call _ _ _ =>
        removal id call ∧ ∀ url, discovered s !! url ≠ Some id
    | WatchTask.Registering _ id _ _ _ =>
        (id < WorkerRegistry.next_id (Router.registry (router s)))%N ∧
        WorkerRegistry.get id (Router.registry (router s)) = None
    | _ => True
    end;
  inv_covered w h : PrefixIndex.holds (Router.prefix_index (router s)) w h = true → covered s w h;
}.

Section invariant.
Context {HM : HashMapOrder}.
Implicit Types (s : t) (now : instant) (idx : PrefixIndex.t) (w : WorkerId) (h : N).

(** A removal makes its next access: it leaves the blocks behind it unheld. *)
Lemma removal_advance now id call idx call' a :
  IndexThread.advance now call idx = Some (call', a) → removal id call → PrefixIndex.sharded idx →
  removal id call' ∧
  (∀ w h, PrefixIndex.holds (Section_.apply a idx) w h = true →
     PrefixIndex.holds idx w h = true) ∧
  (∀ h, PrefixIndex.holds (Section_.apply a idx) id h = true → removing_at call h →
     removing_at call' h).
Proof.
  intros Ha Hr Hs. destruct call as [| | |w i| | | | | |]; try done. cbn in Hr. subst w.
  cbn [IndexThread.advance] in Ha. case_decide as Hi; injection Ha as <- <-.
  - split; [done|]. split.
    + intros w h [Hh|Hh]%SectionEffect.holds_apply_new; done.
    + cbn [removing_at]. intros h Hh Hle. destruct (decide (i = PrefixIndex.shard_index h)) as [->|];
        [|lia]. by rewrite SectionEffect.holds_apply_retain in Hh.
  - split; [done|]. split; [done|]. cbn [removing_at]. intros h _ Hle.
    pose proof (ShardedRefinesFlat.shard_index_lt h). rewrite (PrefixIndex.sharded_length _ Hs) in Hi. lia.
Qed.

(** Every entry keeps a list of distinct workers, at least one, through every
    critical section. *)
Lemma section_ok a idx : index_ok idx → index_ok (Section_.apply a idx).
Proof.
  intros [Hs Hok]. destruct (SectionEffect.apply_refines a idx Hs) as [Hs' He].
  split; [done|]. intros h e. rewrite He.
  destruct a as [now w h'|now h'|w i|now ttl i|h' i|]; cbn [SectionEffect.effect].
  - case_decide as Hh; [|apply Hok]. subst h'. intros Hl.
    apply (FlatIndex.ok_record now w [h] _ Hok h e).
    rewrite FlatIndex.lookup_record, decide_True; [done|by left].
  - case_decide; [|apply Hok]. intros (e' & He' & ->)%fmap_Some. by apply (Hok h e').
  - case_decide; [|apply Hok]. intros Hl. apply (FlatIndex.ok_remove_worker w _ Hok h e).
    by rewrite FlatIndex.lookup_remove_worker.
  - case_decide; [|apply Hok]. intros (e' & He' & Hl)%bind_Some. case_decide; [|done].
    injection Hl as <-. by apply (Hok h e').
  - case_decide; [done|apply Hok].
  - apply Hok.
Qed.

(** What is believed after an action. *)
Lemma action_holds a (r : Router.t PrefixIndex.t) w h :
  PrefixIndex.sharded (Router.prefix_index r) →
  PrefixIndex.holds (Router.prefix_index (Action.apply a r)) w h = true →
  PrefixIndex.holds (Router.prefix_index r) w h = true ∨ ∃ now, a = Access (Section_.Record now w h).
Proof.
  intros Hs Hh. destruct a; [|by left..]. cbn in Hh.
  apply SectionEffect.holds_apply_new in Hh as [?|Hr]; [by left| |done]. right.
  destruct a; try done. cbn in Hr. apply bool_decide_eq_true in Hr as [-> ->]. by eexists.
Qed.

Lemma action_index a (r : Router.t PrefixIndex.t) :
  index_ok (Router.prefix_index r) → index_ok (Router.prefix_index (Action.apply a r)).
Proof. intros Hs. destruct a; [|done..]. by apply section_ok. Qed.

(** What it records is covered, or noted. *)
Lemma action_record s w h now :
  in_service s w h ∨ (w, h) ∈ overtakes (Access (Section_.Record now w h)) s.
Proof.
  cbn [overtakes]. destruct (WorkerRegistry.is_healthy w _) eqn:Hup; [|right; by left].
  destruct (purging (watch s) w) eqn:Hp; [right; by left|]. left. split; [done|].
  intros call gone desired removed Hw. rewrite Hw in Hp. cbn in Hp.
  by rewrite bool_decide_true in Hp.
Qed.

(** What an action does to registration and health. *)
Lemma action_healthy a (r : Router.t PrefixIndex.t) w :
  WorkerRegistry.is_healthy w (Router.registry (Action.apply a r)) =
  match a with
  | SetHealthy id healthy =>
      if decide (w = id) then
        match WorkerRegistry.get id (Router.registry r) with Some _ => healthy | None => false end
      else WorkerRegistry.is_healthy w (Router.registry r)
  | Deregister id | Insert id _ =>
      if decide (w = id) then false else WorkerRegistry.is_healthy w (Router.registry r)
  | _ => WorkerRegistry.is_healthy w (Router.registry r)
  end.
Proof.
  destruct a as [x| |id healthy|id| |id url|n]; try done; cbn [Action.apply Router.registry
    Router.set_registry].
  - rewrite Health.is_healthy_set. case_decide; [subst|done]. unfold WorkerRegistry.get.
    by destruct (WorkerRegistry.workers _ !! id).
  - unfold WorkerRegistry.is_healthy. rewrite WorkerRegistry.lookup_remove. by case_decide.
  - unfold WorkerRegistry.is_healthy. cbn. rewrite lookup_insert. by repeat case_decide.
Qed.

Lemma action_get a (r : Router.t PrefixIndex.t) w :
  WorkerRegistry.get w (Router.registry (Action.apply a r)) =
  match a with
  | Deregister id => if decide (w = id) then None else WorkerRegistry.get w (Router.registry r)
  | Insert id url =>
      if decide (w = id) then Some {| w_id := id; w_url := url; w_pool := Both |}
      else WorkerRegistry.get w (Router.registry r)
  | _ => WorkerRegistry.get w (Router.registry r)
  end.
Proof.
  destruct a as [x| |id healthy|id| |id url|n]; try done; cbn [Action.apply Router.registry
    Router.set_registry].
  - apply Health.get_set.
  - unfold WorkerRegistry.get. rewrite WorkerRegistry.lookup_remove. by case_decide.
  - unfold WorkerRegistry.get. cbn. rewrite lookup_insert. by repeat case_decide.
Qed.

Lemma action_wf a (r : Router.t PrefixIndex.t) :
  WorkerRegistry.wf (Router.registry r) →
  (a = TakeId → (WorkerRegistry.next_id (Router.registry r) + 1 < u64_modulus)%N) →
  (∀ id url, a = Insert id url → (id < WorkerRegistry.next_id (Router.registry r))%N) →
  WorkerRegistry.wf (Router.registry (Action.apply a r)) ∧
  (WorkerRegistry.next_id (Router.registry r) ≤
   WorkerRegistry.next_id (Router.registry (Action.apply a r)))%N ∧
  (a = TakeId → (WorkerRegistry.next_id (Router.registry r) <
     WorkerRegistry.next_id (Router.registry (Action.apply a r)))%N).
Proof.
  intros Hwf Ht Hin. destruct a as [x| |id healthy|id| |id url|n];
    cbn [Action.apply Router.registry Router.set_registry Router.set_prefix_index
      Router.set_next_worker Router.set_inflight].
  - by split_and!.
  - by split_and!.
  - split_and!; [by apply Health.wf_set_healthy|by rewrite WorkerRegistry.next_id_set_healthy|done].
  - split_and!; [by apply Discovery.wf_remove|done|done].
  - specialize (Ht eq_refl). destruct Hwf as [H1 H2 H3]. cbn. unfold fetch_add.
    rewrite wrap64_small by lia. split_and!; [|lia|lia]. split; cbn; [done| |lia].
    intros i s Hs. specialize (H2 i s Hs). lia.
  - specialize (Hin id url eq_refl). destruct Hwf as [H1 H2 H3]. split_and!; [|done|done].
    split; cbn; [| |done]; intros i s; rewrite lookup_insert; case_decide as Hd; try apply H1; try apply H2;
      by intros [= <-]; subst.
  - by split_and!.
Qed.

(** *** Steps of a thread *)

Lemma leaving_insert s s' i k k' w h :
  threads s !! i = Some k → threads s' = <[i := k']> (threads s) →
  (∀ call, k = Forgetting w call → removing_at call h →
     ∃ call', k' = Forgetting w call' ∧ removing_at call' h) →
  leaving s w h → leaving s' w h.
Proof.
  intros Hk Hs' Hkk (call & (j & Hj)%list_elem_of_lookup & Hc).
  destruct (decide (i = j)) as [<-|Hne].
  - rewrite Hk in Hj. injection Hj as ->. destruct (Hkk call eq_refl Hc) as (call' & -> & Hc').
    exists call'. split; [|done]. rewrite Hs'. apply (list_elem_of_lookup_2 _ i).
    rewrite list_lookup_insert_eq; [done|by eapply lookup_lt_Some].
  - exists call. split; [|done]. rewrite Hs'. apply (list_elem_of_lookup_2 _ j).
    by rewrite list_lookup_insert_ne.
Qed.

(** The kinds of steps a thread makes. *)
Lemma advance_kind now k (r : Router.t PrefixIndex.t) k' a :
  Thread.advance now k r = Some (k', a) →
  match k with
  | Mark id healthy =>
      a = SetHealthy id healthy ∧
      k' = if (WorkerRegistry.set_healthy id healthy (Router.registry r)).1 && negb healthy
           then Forgetting id (IndexThread.Removing id 0) else Finished
  | Forgetting id call =>
      (∃ out, call = IndexThread.Returned out ∧ k' = Finished ∧ a = Local) ∨
      (∃ call' x, IndexThread.advance now call (Router.prefix_index r) = Some (call', x) ∧
         k' = Forgetting id call' ∧ a = Access x)
  | _ => (a = NextCursor ∨ ∃ x, a = Access x) ∧ ∀ id call, k' ≠ Forgetting id call
  end.
Proof.
  assert (Hbind : ∀ {A B} (o : option (A * Section_.t)) (f : A → B) y,
    ('(x, b) ← o; Some (f x, Access b)) = Some y →
    ∃ x b, o = Some (x, b) ∧ y = (f x, Access b)).
  { intros A B [[x b]|] f y; [|done]. intros [= <-]. by exists x, b. }
  destruct k as [chain|pool chain|ws chain|w chain call|d call|e chain sel|out|id healthy|id call
    |call|]; cbn [Thread.advance]; try done.
  - case_decide; [intros [= <- <-]; split; [by eauto|done]|].
    destruct (Router.policy r); intros [= <- <-]; (split; [by eauto|done]).
  - case_decide; intros [= <- <-]; (split; [by eauto|done]).
  - repeat case_match; intros [= <- <-]; (split; [by auto|done]).
  - destruct call as [| | | | | | | | |[]]; intros Ha;
      first [apply Hbind in Ha as (x & b & _ & [= -> ->])|injection Ha as <- <-];
      (split; [by eauto|done]).
  - destruct call; intros Ha;
      first [apply Hbind in Ha as (x & b & _ & [= -> ->])|injection Ha as <- <-];
      (split; [by eauto|done]).
  - destruct sel; intros Ha;
      first [apply Hbind in Ha as (x & b & _ & [= -> ->])|injection Ha as <- <-];
      (split; [by eauto|done]).
  - intros [= <- <-]. by split.
  - destruct call as [| | | | | | | | |out]; intros Ha;
      first [apply Hbind in Ha as (x & b & Hx & [= -> ->]); right; by exists x, b
            |injection Ha as <- <-; left; by exists out].
  - destruct call; intros Ha;
      first [apply Hbind in Ha as (x & b & _ & [= -> ->])|injection Ha as <- <-];
      (split; [by eauto|done]).
Qed.

(** All of the invariant but the beliefs, along a thread's step. *)
Lemma thread_frame s i k k' a :
  inv s → threads s !! i = Some k → (a = NextCursor ∨ (∃ x, a = Access x) ∨ ∃ id b, a = SetHealthy id b) →
  (∀ id call, k' = Forgetting id call → removal id call) →
  let s' := {| router := Action.apply a (router s); threads := <[i := k']> (threads s);
    watch := watch s; discovered := discovered s; overtaken := overtakes a s ++ overtaken s |} in
  (∀ w h, PrefixIndex.holds (Router.prefix_index (router s')) w h = true → covered s' w h) → inv s'.
Proof.
  intros [Hwf Hidx Hown Hth Hw _] Hk Ha Hk' s' Hcov.
  destruct (action_wf a (router s) Hwf) as (Hwf' & Hn & _);
    [by destruct Ha as [->|[[? ->]|(? & ? & ->)]]|by destruct Ha as [->|[[? ->]|(? & ? & ->)]]|].
  assert (Hget : ∀ w, WorkerRegistry.get w (Router.registry (Action.apply a (router s))) =
    WorkerRegistry.get w (Router.registry (router s))).
  { intros w. rewrite action_get. by destruct Ha as [->|[[? ->]|(? & ? & ->)]]. }
  split; cbn [s' router threads watch discovered overtaken].
  - done.
  - by apply action_index.
  - intros url id Hid. rewrite Hget. by apply Hown.
  - intros id call (j & Hj)%list_elem_of_lookup. rewrite list_lookup_insert in Hj.
    case_decide; [by simplify_eq; apply Hk'|]. by eapply Hth, list_elem_of_lookup_2.
  - destruct (watch s); try done. destruct Hw as [Hlt Hnone]. rewrite Hget. split; [lia|done].
  - exact Hcov.
Qed.

Lemma overtakes_quiet a s :
  (∀ x, a ≠ Access x) → overtakes a s = [].
Proof. destruct a as [x| | | | | |]; [|done..]. by intros Ha; destruct (Ha x). Qed.

(** Covered before, and neither health nor the removals lose it. *)
Lemma covered_after s s' w h :
  covered s w h →
  (in_service s w h → covered s' w h) → (leaving s w h → leaving s' w h) →
  (∀ x, x ∈ overtaken s → x ∈ overtaken s') → covered s' w h.
Proof. intros [?|[?|?]] Hi Hl Ho; [by auto|right; left; by auto|right; right; by auto]. Qed.

(** A verdict on a worker in service leaves it in service, or leaving. *)
Lemma marked_covered s i id healthy k' w h :
  threads s !! i = Some (Mark id healthy) →
  WorkerRegistry.is_healthy w (Router.registry (router s)) = true →
  (∀ call gone desired removed,
    watch s = WatchTask.Purging w call gone desired removed → removing_at call h) →
  k' = (if (WorkerRegistry.set_healthy id healthy (Router.registry (router s))).1 && negb healthy
        then Forgetting id (IndexThread.Removing id 0) else Finished) →
  covered {| router := Action.apply (SetHealthy id healthy) (router s);
    threads := <[i := k']> (threads s); watch := watch s; discovered := discovered s;
    overtaken := overtakes (SetHealthy id healthy) s ++ overtaken s |} w h.
Proof.
  intros Hk Hup Hp Hk'.
  assert (Hreg : is_Some (WorkerRegistry.workers (Router.registry (router s)) !! w)).
  { unfold WorkerRegistry.is_healthy in Hup. by destruct (WorkerRegistry.workers _ !! w). }
  destruct (decide (w = id)) as [->|Hne]; [destruct healthy|].
  - left. split; [|done]. cbn [router]. rewrite action_healthy, decide_True by done.
    unfold WorkerRegistry.get. by destruct Hreg as [? ->].
  - right; left. exists (IndexThread.Removing id 0). split; [|cbn; lia]. cbn [threads].
    assert ((WorkerRegistry.set_healthy id false (Router.registry (router s))).1 = true) as Hch
      by (by apply Health.set_healthy_changed).
    rewrite Hch in Hk'. subst k'. apply (list_elem_of_lookup_2 _ i).
    rewrite list_lookup_insert_eq; [done|by eapply lookup_lt_Some].
  - left. split; [|done]. cbn [router]. by rewrite action_healthy, decide_False.
Qed.

Lemma inv_thread now i e s s' : run_thread now i s = Some (e, s') → inv s → inv s'.
Proof.
  unfold run_thread. destruct (threads s !! i) as [k|] eqn:Hk; cbn [mbind option_bind]; [|done].
  destruct (Thread.advance now k (router s)) as [[k' a]|] eqn:Ha; cbn [mbind option_bind]; [|done].
  intros [= <- <-] Hi. pose proof Hi as [Hwf Hidx Hown Hth Hw Hcov].
  pose proof (advance_kind now k (router s) k' a Ha) as Hkind.
  set (s' := {| router := _ |}).
  assert (Hover : ∀ x, x ∈ overtaken s → x ∈ overtaken s') by (intros x ?; apply elem_of_app; by right).
  (* an action that leaves the registry alone keeps everybody in service *)
  assert (Hserve : (∀ w, WorkerRegistry.is_healthy w (Router.registry (router s')) =
      WorkerRegistry.is_healthy w (Router.registry (router s))) →
    ∀ w h, in_service s w h → covered s' w h).
  { intros Hup w h [Hh Hp]. left. split; [by rewrite Hup|done]. }
  assert (Hplain : (a = NextCursor ∨ ∃ x, a = Access x) →
    (∀ w h, PrefixIndex.holds (Router.prefix_index (router s')) w h = true → leaving s w h →
       leaving s' w h) → (∀ id call, k' = Forgetting id call → removal id call) → inv s').
  { intros Hax Hleave Hrem. apply (thread_frame s i k k' a Hi Hk); [by naive_solver|done|].
    intros w h Hh. destruct (action_holds a (router s) w h (proj1 Hidx) Hh) as [Hold|[now' ->]].
    - eapply covered_after; [by apply Hcov| |by apply Hleave|done]. apply Hserve.
      intros w'. change (router s') with (Action.apply a (router s)). rewrite action_healthy. by destruct Hax as [->|[x ->]].
    - destruct (action_record s w h now') as [Hs|Hs]; [by apply Hserve|].
      right; right. apply elem_of_app. by left. }
  destruct k as [chain|pool chain|ws chain|w0 chain call|d call|e chain sel|out|id healthy|id call
    |call|]; cbn beta iota in Hkind;
    try (destruct Hkind as [Hax Hno]; apply Hplain; [exact Hax| |intros ? ? ->; by edestruct Hno];
         intros w h _; eapply leaving_insert; [exact Hk|done|done]).
  - destruct Hkind as [-> Hk']. apply (thread_frame s i _ k' _ Hi Hk); [by eauto| |].
    { intros id' call. rewrite Hk'. case_match; [|done]. by intros [= <- <-]. }
    intros w h Hh. change (PrefixIndex.holds (Router.prefix_index (router s)) w h = true) in Hh.
    eapply covered_after; [by apply Hcov| | |done].
    + intros [Hup Hp]. by apply marked_covered.
    + eapply leaving_insert; [exact Hk|done|done].
  - destruct Hkind as [(out & -> & -> & ->)|(call' & x & Hx & -> & ->)].
    + apply Hplain; [by eauto| |done]. intros w h _. eapply leaving_insert; [exact Hk|done|].
      by intros ? [= <- <-].
    + pose proof (Hth id call (list_elem_of_lookup_2 _ _ _ Hk)) as Hrem.
      destruct (removal_advance now id call _ call' x Hx Hrem (proj1 Hidx)) as (Hrem' & Hless & Hat).
      apply Hplain; [by eauto| |by intros ? ? [= <- <-]].
      intros w h Hh. eapply leaving_insert; [exact Hk|done|].
      intros ? [= <- <-] Hc. exists call'. split; [done|]. by apply Hat.
Qed.

(** *** Steps of the watch task *)

Lemma watch_frame s k' disc a :
  inv s → (WorkerRegistry.next_id (Router.registry (router s)) + 1 < u64_modulus)%N →
  (∀ id url, a = Insert id url → (id < WorkerRegistry.next_id (Router.registry (router s)))%N) →
  (∀ now w h, a ≠ Access (Section_.Record now w h)) →
  let s' := {| router := Action.apply a (router s); threads := threads s; watch := k';
    discovered := disc; overtaken := overtakes a s ++ overtaken s |} in
  (∀ url id, disc !! url = Some id → WorkerRegistry.get id (Router.registry (router s')) =
     Some {| w_id := id; w_url := url; w_pool := Both |}) →
  match k' with
  | WatchTask.Purging id call _ _ _ => removal id call ∧ ∀ url, disc !! url ≠ Some id
  | WatchTask.Registering _ id _ _ _ =>
      (id < WorkerRegistry.next_id (Router.registry (router s')))%N ∧
      WorkerRegistry.get id (Router.registry (router s')) = None
  | _ => True
  end →
  (∀ w h, PrefixIndex.holds (Router.prefix_index (router s')) w h = true →
     in_service s w h → in_service s' w h) →
  inv s'.
Proof.
  intros [Hwf Hidx Hown Hth Hw Hcov] Hroom Hins Hrec s' Hown' Hw' Hserve.
  destruct (action_wf a (router s) Hwf) as (Hwf' & _); [done|done|].
  split; [done|by apply action_index|done|done|done|]. intros w h Hh.
  destruct (action_holds a (router s) w h (proj1 Hidx) Hh) as [Hold|[now ->]]; [|by edestruct Hrec].
  eapply covered_after; [by apply Hcov| |done|].
  - intros Hs. left. by apply Hserve.
  - intros x Hx. apply elem_of_app. by right.
Qed.

(** The worker whose id is found healthy is registered. *)
Lemma healthy_registered (reg : WorkerRegistry.t) w :
  WorkerRegistry.is_healthy w reg = true → is_Some (WorkerRegistry.get w reg).
Proof.
  unfold WorkerRegistry.is_healthy, WorkerRegistry.get. by destruct (WorkerRegistry.workers reg !! w).
Qed.

Lemma inv_dropping s url gone desired n k' disc :
  inv s → (WorkerRegistry.next_id (Router.registry (router s)) + 1 < u64_modulus)%N →
  watch s = WatchTask.Dropping (url :: gone) desired n →
  ∀ now a, WatchTask.advance now (watch s) (discovered s) (router s) = Some (k', disc, a) →
  inv {| router := Action.apply a (router s); threads := threads s; watch := k';
    discovered := disc; overtaken := overtakes a s ++ overtaken s |}.
Proof.
  intros Hi Hroom Hws now a Ha. pose proof (inv_owned s Hi) as Hown.
  rewrite Hws in Ha. cbn [WatchTask.advance] in Ha.
  destruct (discovered s !! url) as [id|] eqn:Hu; injection Ha as <- <- <-;
    apply watch_frame; try done.
  - intros url' id' [_ Hl]%lookup_delete_Some. cbn [router]. rewrite action_get. by apply Hown.
  - split; [done|]. intros url' [Hne Hl]%lookup_delete_Some.
    apply Hown in Hu, Hl. rewrite Hu in Hl. by injection Hl as ->.
  - intros w h _ [Hup _]. split; [exact Hup|]. intros call g d r. cbn [watch].
    intros [= _ <- _ _ _]. cbn. lia.
  - intros w h _ [Hup _]. by split.
Qed.

Lemma inv_purging s id call gone desired n k' disc :
  inv s → (WorkerRegistry.next_id (Router.registry (router s)) + 1 < u64_modulus)%N →
  watch s = WatchTask.Purging id call gone desired n →
  ∀ now a, WatchTask.advance now (watch s) (discovered s) (router s) = Some (k', disc, a) →
  inv {| router := Action.apply a (router s); threads := threads s; watch := k';
    discovered := disc; overtaken := overtakes a s ++ overtaken s |}.
Proof.
  intros Hi Hroom Hws now a Ha. pose proof Hi as [Hwf Hidx Hown _ Hw _].
  rewrite Hws in Ha, Hw. destruct Hw as [Hrem Hno].
  destruct (ThreadsAlone.returned_or call) as [[out ->]|Hr].
  { cbn [WatchTask.advance] in Ha. injection Ha as <- <- <-. apply watch_frame; try done.
    - intros url' id' Hl. cbn [router]. rewrite action_get, decide_False; [by apply Hown|].
      intros ->. by apply Hno in Hl.
    - intros w h _ [Hup Hp]. specialize (Hp (IndexThread.Returned out) gone desired n).
      rewrite Hws in Hp.
      destruct (decide (w = id)) as [->|Hne]; [by destruct (Hp eq_refl)|].
      split; [|done]. cbn [router]. by rewrite action_healthy, decide_False. }
  assert (Hx : ∃ call' x, IndexThread.advance now call (Router.prefix_index (router s)) =
      Some (call', x) ∧ k' = WatchTask.Purging id call' gone desired n ∧
    disc = discovered s ∧ a = Access x).
  { destruct call as [| | | | | | | | |out]; [..|by destruct (Hr out)];
      cbn [WatchTask.advance] in Ha; (destruct (IndexThread.advance now _ (Router.prefix_index (router s))) as [[call' x]|] eqn:E;
        [|done]); injection Ha as <- <- <-; by exists call', x. }
  destruct Hx as (call' & x & Hx & -> & -> & ->).
  destruct (removal_advance now id call _ call' x Hx Hrem (proj1 Hidx)) as (Hrem' & Hless & Hat).
  apply watch_frame; try done.
  - intros now' w h [= ->]. destruct call; try done. cbn in Hx. by case_decide; simplify_eq.
  - intros w h Hh [Hup Hp]. split; [exact Hup|]. intros call0 g d r. cbn [watch].
    intros [= <- <- <- <- <-]. apply Hat; [exact Hh|]. by eapply Hp.
Qed.

Lemma inv_adding s k' disc :
  inv s → (WorkerRegistry.next_id (Router.registry (router s)) + 1 < u64_modulus)%N →
  (match watch s with
   | WatchTask.Adding _ _ _ | WatchTask.Dropping [] _ _ | WatchTask.Registering _ _ _ _ _ => True
   | _ => False end) →
  ∀ now a, WatchTask.advance now (watch s) (discovered s) (router s) = Some (k', disc, a) →
  inv {| router := Action.apply a (router s); threads := threads s; watch := k';
    discovered := disc; overtaken := overtakes a s ++ overtaken s |}.
Proof.
  intros Hi Hroom Hk now a Ha. pose proof Hi as [Hwf Hidx Hown _ Hw _].
  destruct (watch s) as [|[|url gone] desired n|id call gone desired n|[|url todo] n m
    |url id todo n m] eqn:Hws; try done; cbn [WatchTask.advance] in Ha.
  - injection Ha as <- <- <-. apply watch_frame; try done. intros w h _ [Hup _]. by split.
  - injection Ha as <- <- <-. case_decide; (apply watch_frame; try done);
      intros w h _ [Hup _]; by split.
  - destruct (discovered s !! url) as [id|] eqn:Hu; injection Ha as <- <- <-.
    + apply watch_frame; try done. intros w h _ [Hup _]. by split.
    + apply watch_frame; try done; [|intros w h _ [Hup _]; by split]. cbn [router].
      destruct (action_wf TakeId (router s) Hwf) as (_ & _ & Hlt); [done|done|].
      split; [by apply Hlt|]. rewrite action_get. unfold WorkerRegistry.get.
      destruct (WorkerRegistry.workers _ !! _) as [st|] eqn:E; [|done].
      apply (WorkerRegistry.wf_bound _ Hwf) in E. lia.
  - destruct Hw as [Hlt Hnone]. injection Ha as <- <- <-. apply watch_frame; try done.
    + by intros ? ? [= <- <-].
    + intros url' id'. cbn [router]. rewrite action_get, lookup_insert_Some.
      intros [[-> ->]|[Hne Hl]]; [by rewrite decide_True|].
      rewrite decide_False; [by apply Hown|]. intros ->. apply Hown in Hl. congruence.
    + intros w h _ [Hup _]. split; [|done]. cbn [router].
      rewrite action_healthy, decide_False; [done|]. intros ->.
      apply healthy_registered in Hup as [? ?]. congruence.
Qed.

Lemma inv_watch_step now e s s' : run_watch now s = Some (e, s') → inv s → inv s'.
Proof.
  unfold run_watch. case_decide as Hroom; [|done].
  destruct (WatchTask.advance now (watch s) (discovered s) (router s)) as [[[k' disc] a]|] eqn:Ha;
    cbn [mbind option_bind]; [|done].
  intros [= <- <-] Hi.
  destruct (watch s) as [|[|url gone] desired n|id call gone desired n|todo n m|url id todo n m]
    eqn:Hws; [done|..]; rewrite <-Hws in Ha.
  - by apply (inv_adding s k' disc Hi Hroom ltac:(by rewrite Hws) now).
  - by apply (inv_dropping s url gone desired n k' disc Hi Hroom Hws now).
  - by apply (inv_purging s id call gone desired n k' disc Hi Hroom Hws now).
  - by apply (inv_adding s k' disc Hi Hroom ltac:(by rewrite Hws) now).
  - by apply (inv_adding s k' disc Hi Hroom ltac:(by rewrite Hws) now).
Qed.

Lemma inv_threads_step e s s' : step e s s' → inv s → inv s'.
Proof.
  intros Hs Hi. destruct Hs as [k s Hk|now i e s s' Hr|desired s Hws|now e s s' Hr|tracker s].
  - destruct Hi as [Hwf Hidx Hown Hth Hw Hcov]. split; try done.
    + intros id call [<-|Hin]%elem_of_cons; [done|by apply Hth].
    + intros w h Hh. destruct (Hcov w h Hh) as [?|[(call & Hc & ?)|?]]; [by left| |by right; right].
      right; left. exists call. split; [by right|done].
  - by eapply inv_thread.
  - destruct Hi as [Hwf Hidx Hown Hth Hw Hcov]. split; try done.
    intros w h Hh. destruct (Hcov w h Hh) as [[Hup _]|[?|?]]; [|by right; left|by right; right].
    left. by split.
  - by eapply inv_watch_step.
  - destruct Hi as [Hwf Hidx Hown Hth Hw Hcov]. by split.
Qed.

Lemma threads_inv_run s es s' : run s es s' → inv s → inv s'.
Proof. induction 1; eauto using inv_threads_step. Qed.

Lemma inv_start r :
  WorkerRegistry.wf (Router.registry r) → index_ok (Router.prefix_index r) →
  (∀ w h, PrefixIndex.holds (Router.prefix_index r) w h = false) → inv (start r).
Proof.
  intros Hwf Hs Hh. split; try done.
  - intros id call Hin. by apply not_elem_of_nil in Hin.
  - intros w h Hw. cbn in Hw. by rewrite Hh in Hw.
Qed.
End invariant.
End Threads.

(** ** Health as the last verdict *)

Module Verdicts.
Import Threads.

(** Registration and health of worker [id] as the events tell them. *)
Definition after_event (id : WorkerId) (status : option bool) (e : event) : option bool :=
  match e with
  | Verdict id' healthy => if decide (id' = id) then (λ _, healthy) <$> status else status
  | Registered id' => if decide (id' = id) then Some false else status
  | Removed id' => if decide (id' = id) then None else status
  | Quiet => status
  end.

Definition status (id : WorkerId) (initially : option bool) (es : list event) : option bool :=
  foldl (after_event id) initially es.

(** The event is about worker [id]. *)
Definition concerns (id : WorkerId) (e : event) : bool :=
  match e with
  | Verdict id' _ | Registered id' | Removed id' => bool_decide (id' = id)
  | Quiet => false
  end.

Definition health (id : WorkerId) (s : t) : option bool :=
  ws_healthy <$> WorkerRegistry.workers (Router.registry (router s)) !! id.

Section verdicts.
Context {HM : HashMapOrder}.

Lemma action_health id a (r : Router.t PrefixIndex.t) :
  ws_healthy <$> WorkerRegistry.workers (Router.registry (Action.apply a r)) !! id =
  after_event id (ws_healthy <$> WorkerRegistry.workers (Router.registry r) !! id) (event_of a).
Proof.
  destruct a as [x| |id' healthy|id'| |id' url|n]; try done;
    cbn [Action.apply event_of after_event Router.registry Router.set_registry].
  - rewrite WorkerRegistry.lookup_set_healthy.
    destruct (decide (id = id')) as [->|Hne]; [rewrite decide_True by done|by rewrite decide_False].
    by destruct (WorkerRegistry.workers _ !! id').
  - rewrite WorkerRegistry.lookup_remove.
    destruct (decide (id = id')) as [->|Hne]; [by rewrite decide_True|by rewrite decide_False].
  - cbn. rewrite lookup_insert.
    destruct (decide (id' = id)) as [->|Hne]; done.
Qed.

Lemma step_health id e s s' :
  step e s s' → health id s' = after_event id (health id s) e.
Proof.
  unfold health. intros Hs. destruct Hs as [k s Hk|now i e s s' Hr|desired s Hws|now e s s' Hr|tr s];
    try done.
  - unfold run_thread in Hr. destruct (threads s !! i) as [k|]; [|done]. cbn in Hr.
    destruct (Thread.advance now k (router s)) as [[k' a]|]; [|done]. injection Hr as <- <-.
    apply action_health.
  - unfold run_watch in Hr. case_decide; [|done].
    destruct (WatchTask.advance _ _ _ _) as [[[k' disc] a]|]; [|done]. injection Hr as <- <-.
    apply action_health.
Qed.

Lemma run_health id s es s' :
  run s es s' → health id s' = status id (health id s) es.
Proof.
  induction 1 as [s|s es s1 e s2 _ IH Hs]; [done|].
  unfold status in *. by rewrite foldl_app, (step_health id _ _ _ Hs), IH.
Qed.

Lemma status_unconcerned id st es :
  Forall (λ e, concerns id e = false) es → status id st es = st.
Proof.
  unfold status. revert st. induction es as [|e es IH]; intros st; [done|].
  intros [He Hes]%Forall_cons. cbn [foldl]. rewrite IH by done.
  destruct e; cbn in He |- *; try done; apply bool_decide_eq_false in He; by rewrite decide_False.
Qed.

(** Up means: registered, and the last thing that happened is a good verdict. *)
Lemma status_up id st es :
  st ≠ Some true →
  status id st es = Some true ↔
  ∃ es1 es2, es = es1 ++ Verdict id true :: es2 ∧ status id st es1 ≠ None ∧
    Forall (λ e, concerns id e = false) es2.
Proof.
  intros Hst. split.
  - induction es as [|e es IH] using rev_ind; [done|].
    intros Hs. destruct (concerns id e) eqn:Hc.
    + unfold status in Hs. rewrite foldl_app in Hs. cbn [foldl] in Hs.
      destruct (foldl (after_event id) st es) as [up|] eqn:Hes;
        destruct e as [id' healthy|id'|id'|]; cbn in Hs, Hc; try done;
        apply bool_decide_eq_true in Hc as ->; rewrite decide_True in Hs by done; try done.
      injection Hs as ->. exists es, []. split_and!; [done| |done].
      unfold status. by rewrite Hes.
    + assert (status id st es = Some true) as Hs'.
      { rewrite <-Hs. unfold status. rewrite foldl_app. symmetry.
        apply (status_unconcerned id _ [e]). by constructor. }
      destruct (IH Hs') as (es1 & es2 & -> & Hn & Hq). exists es1, (es2 ++ [e]).
      rewrite <-app_assoc. split_and!; [done|done|]. apply Forall_app. split; [done|by constructor].
  - intros (es1 & es2 & -> & Hn & Hq). unfold status. rewrite foldl_app. cbn [foldl].
    unfold status in Hn. destruct (foldl (after_event id) st es1) as [up|]; [|done].
    cbn [after_event]. rewrite decide_True by done. by apply status_unconcerned.
Qed.
End verdicts.
End Verdicts.

(** ** Concrete schedules *)

Module ThreadSchedule.
Import Threads.

Inductive command :=
  | Spawn (k : Thread.t)
  (** Thread [i] makes [n] steps; the watch task makes [n] steps. *)
  | Run (i n : nat)
  | RunWatch (n : nat)
  | Event (desired : gset rstr).

Section exec.
Context {HM : HashMapOrder} (allowed : Thread.t → bool).

Fixpoint repeat_steps (f : t → option (event * t)) (n : nat) (s : t) : option (list event * t) :=
  match n with
  | O => Some ([], s)
  | S n =>
      '(e, s) ← f s;
      '(es, s) ← repeat_steps f n s;
      Some (e :: es, s)
  end.

Definition exec (c : command) (s : t) : option (list event * t) :=
  match c with
  | Spawn k => if allowed k then Some ([Quiet], spawn k s) else None
  | Run i n => repeat_steps (run_thread 0 i) n s
  | RunWatch n => repeat_steps (run_watch 0) n s
  | Event desired =>
      match watch s with
      | WatchTask.Watching => Some ([Quiet], {| router := router s; threads := threads s;
          watch := WatchTask.begin desired (discovered s); discovered := discovered s;
          overtaken := overtaken s |})
      | _ => None
      end
  end.

Fixpoint exec_all (cs : list command) (s : t) : option (list event * t) :=
  match cs with
  | [] => Some ([], s)
  | c :: cs =>
      '(es, s) ← exec c s;
      '(es', s) ← exec_all cs s;
      Some (es ++ es', s)
  end.

Lemma run_trans s es s1 es' s2 : run s es s1 → run s1 es' s2 → run s (es ++ es') s2.
Proof.
  intros H1. induction 1 as [s1|s1 es' s2 e s3 _ IH Hs]; [by rewrite app_nil_r|].
  rewrite app_assoc. by eapply run_snoc; [apply IH|].
Qed.

Lemma run_one s e s' : step e s s' → run s [e] s'.
Proof. intros Hs. apply (run_snoc s [] s e s'); [apply run_nil|done]. Qed.

Lemma repeat_steps_run f n s es s' :
  (∀ s e s', f s = Some (e, s') → step e s s') → repeat_steps f n s = Some (es, s') → run s es s'.
Proof.
  intros Hf. revert s es. induction n as [|n IH]; intros s es; cbn [repeat_steps].
  { intros [= <- <-]. apply run_nil. }
  destruct (f s) as [[e s1]|] eqn:He; cbn [mbind option_bind]; [|done].
  destruct (repeat_steps f n s1) as [[es1 s2]|] eqn:Hr; cbn [mbind option_bind]; [|done].
  intros [= <- <-]. apply (run_trans s [e] s1); [by apply run_one, Hf|by apply IH].
Qed.

Hypothesis allowed_starts : ∀ k, allowed k = true → starts k.

Lemma exec_run c s es s' : exec c s = Some (es, s') → run s es s'.
Proof.
  destruct c as [k|i n|n|desired]; cbn [exec].
  - destruct (allowed k) eqn:Hk; [|done]. intros [= <- <-].
    by apply run_one, step_spawn, allowed_starts.
  - apply repeat_steps_run. intros. by eapply step_thread.
  - apply repeat_steps_run. intros. by eapply step_watch.
  - destruct (watch s) eqn:Hw; try done. intros [= <- <-]. by apply run_one, step_event.
Qed.

Lemma exec_all_runs cs s es s' : exec_all cs s = Some (es, s') → run s es s'.
Proof.
  revert s es. induction cs as [|c cs IH]; intros s es; cbn [exec_all].
  { intros [= <- <-]. apply run_nil. }
  destruct (exec c s) as [[es1 s1]|] eqn:Hc; cbn [mbind option_bind]; [|done].
  destruct (exec_all cs s1) as [[es2 s2]|] eqn:Hcs; cbn [mbind option_bind]; [|done].
  intros [= <- <-]. eapply run_trans; [by eapply exec_run|by apply IH].
Qed.
End exec.

(** Requests and verdicts. *)
Definition request_or_verdict (k : Thread.t) : bool :=
  match k with Thread.Chat _ | Thread.InPool _ _ | Thread.Mark _ _ => true | _ => false end.

Lemma request_or_verdict_starts k : request_or_verdict k = true → starts k.
Proof. by destruct k. Qed.
End ThreadSchedule.

(** ** Properties *)

(** C4.  A thread that is not interrupted is the function of the other files: a
    request is [select_for_chat] or [select_in_pool], a verdict is [Health.mark],
    a sweep is [evict], and an event of the watch is [Watch.handle_event]; each
    comes to its end with the same answer and the same state. *)
Theorem uninterrupted_thread_is_function {HM : HashMapOrder} {BH : BlockHash} (now : instant)
    (r : Router.t PrefixIndex.t) :
  (∀ V (request : ChatCompletionRequest V), ∃ out r',
     Router.select_for_chat (λ _, now) request r = Some (out, r') ∧
     rtc (Thread.own now)
       (Thread.Chat (chain_hash (canonical_prompt request) (Router.block_size r)), r)
       (Thread.Selected (Some out), r')) ∧
  (∀ pool chain,
     let '(out, r') := Router.select_in_pool (λ _, now) pool chain r in
     rtc (Thread.own now) (Thread.InPool pool chain, r) (Thread.Selected (Some out), r')) ∧
  (∀ w healthy,
     rtc (Thread.own now) (Thread.Mark (w_id w) healthy, r)
       (Thread.Finished, Health.mark w healthy r)) ∧
  (∀ ttl cap,
     rtc (Thread.own now)
       (Thread.Sweeping (IndexThread.start now (IndexThread.CallEvict ttl cap)), r)
       (Thread.Finished,
        Router.set_prefix_index (bi_evict now ttl cap (Router.prefix_index r)).2 r)) ∧
  (∀ slices discovered ev,
     let '(_, st) := Watch.handle_event (slices,
       {| Watch.app := r; Watch.discovered := discovered |}) ev in
     rtc (WatchTask.own now)
       (WatchTask.begin (Watch.desired_urls (Watch.apply_event ev slices)) discovered, discovered, r)
       (WatchTask.Watching, Watch.discovered st, Watch.app st)).
Proof.
  split_and!.
  - intros V request.
    destruct (Router.select_for_chat_frame (λ _, now) request r) as (out & r' & Hs & _).
    exists out, r'. split; [done|by apply ThreadsAlone.own_chat].
  - intros pool chain. exact (ThreadsAlone.own_pool now pool chain r).
  - exact (λ w healthy, ThreadsAlone.own_mark now w healthy r).
  - exact (λ ttl cap, ThreadsAlone.own_sweep now ttl cap r).
  - intros slices discovered ev. exact (ThreadsAlone.own_handle_event now slices ev r discovered).
Qed.

(** C3.  Who is believed to hold a block, with all requests, verdicts, sweeps
    and events of the watch interleaved at their critical sections.  At any time
    after start-up a worker that is believed to hold a block is registered and
    healthy, and if the watch task is just purging it, not yet in that block's
    shard; or it has gone down and the health poller's removal has not got to
    that shard yet; or some selection recorded this block for it at a moment at
    which it was already down, unregistered or being purged.  The registry and
    the index stay well formed, and every discovered worker is registered with
    its URL. *)
Theorem believed_workers_in_service {HM : HashMapOrder} (config : RouterConfig)
    (es : list Threads.event) (s : Threads.t)
    (Hn : (N.of_nat (length (cfg_workers config)) < u64_modulus)%N)
    (Hs : Threads.run (Threads.start
            (Router.new (WorkerRegistry.from_config (cfg_workers config)) config)) es s) :
  WorkerRegistry.wf (Router.registry (Threads.router s)) ∧
  bi_ok (Router.prefix_index (Threads.router s)) ∧
  (∀ url id, Threads.discovered s !! url = Some id →
     WorkerRegistry.get id (Router.registry (Threads.router s)) =
       Some {| w_id := id; w_url := url; w_pool := Both |}) ∧
  (∀ w h, bi_holds (Router.prefix_index (Threads.router s)) w h = true →
     Threads.in_service s w h ∨ Threads.leaving s w h ∨ (w, h) ∈ Threads.overtaken s).
Proof.
  destruct (Threads.threads_inv_run _ _ _ Hs) as [Hwf Hidx Hown _ _ Hcov];
    [|split; [exact Hwf|split; [exact Hidx|split; [exact Hown|exact Hcov]]]].
  apply Threads.inv_start.
  - by apply WorkerRegistry.wf_from_config.
  - exact index_ok_new.
  - exact (λ w h, bi_new_holds (T := PrefixIndex.t) w h).
Qed.

Section witnesses.
#[local] Existing Instance hm_canonical.
Import ThreadSchedule.

Definition threads_start : Threads.t := Threads.start (System.router sys_start).

Definition chain_ab : list N := [7; 71]%N.

Definition after_commands (cs : list command) : list Threads.event * Threads.t :=
  default ([], threads_start) (exec_all request_or_verdict cs threads_start).

Lemma after_commands_run cs :
  is_Some (exec_all request_or_verdict cs threads_start) →
  Threads.run threads_start (after_commands cs).1 (after_commands cs).2.
Proof.
  intros [[es s] He]. apply (exec_all_runs request_or_verdict request_or_verdict_starts cs).
  unfold after_commands. by rewrite He.
Qed.

(** Worker 0 is found healthy and serves a request. *)
Definition one_request : list command :=
  [Spawn (Thread.Mark 0 true); Run 0 1; Spawn (Thread.InPool Both chain_ab); Run 0 11].

Theorem believed_workers_in_service_witness :
  bi_holds (Router.prefix_index (Threads.router (after_commands one_request).2)) 0 7%N = true ∧
  Threads.overtaken (after_commands one_request).2 = [] ∧
  Threads.in_service (after_commands one_request).2 0 7%N.
Proof.
  assert (Hh : bi_holds (Router.prefix_index (Threads.router (after_commands one_request).2))
    0 7%N = true) by (vm_compute; reflexivity).
  assert (Ho : Threads.overtaken (after_commands one_request).2 = []) by (vm_compute; reflexivity).
  split; [exact Hh|]. split; [exact Ho|].
  destruct (believed_workers_in_service sys_config (after_commands one_request).1
    (after_commands one_request).2) as (_ & _ & _ & Hc).
  - vm_compute. reflexivity.
  - apply after_commands_run. vm_compute. by eexists.
  - destruct (Hc 0%N 7%N Hh) as [Hs|[(call & Hin & _)|Hin]]; [exact Hs|exfalso..].
    + revert Hin. apply Threads.no_removal_under_way. vm_compute. reflexivity.
    + rewrite Ho in Hin. by apply not_elem_of_nil in Hin.
Defined.

(** A request has chosen worker 0 when the health poller finds the worker down
    and purges it; then the request records its chain. *)
Definition overtaken_request : list command :=
  [Spawn (Thread.Mark 0 true); Run 0 1; Spawn (Thread.InPool Both chain_ab); Run 0 6;
   Spawn (Thread.Mark 0 false); Run 0 67; Run 1 5].

(** The exceptions are real: a selection releases the locks between choosing
    and recording, so a worker that goes down in between ends up believed to hold
    the chain, with no removal under way; and when it is back, with an empty
    cache, the router credits it with a full match. *)
Theorem selection_races_with_health :
  ∃ es s, Threads.run threads_start es s ∧
    WorkerRegistry.is_healthy 0 (Router.registry (Threads.router s)) = false ∧
    (∀ w call, Thread.Forgetting w call ∉ Threads.threads s) ∧
    Router.believed_prefix (Threads.router s) chain_ab worker_a = length chain_ab ∧
    Router.believed_prefix (Health.mark worker_a true (Threads.router s)) chain_ab worker_a =
      length chain_ab.
Proof.
  exists (after_commands overtaken_request).1, (after_commands overtaken_request).2.
  split; [apply after_commands_run; vm_compute; by eexists|].
  split_and!; [vm_compute; reflexivity| |vm_compute; reflexivity..].
  apply Threads.no_removal_under_way. vm_compute. reflexivity.
Qed.

(** A pod is discovered and healthy; its endpoint goes away.  The watch task has
    purged the index and is about to deregister the worker when a request arrives,
    selects it and records its chain. *)
Definition purged_too_early : list command :=
  [Event {[pod_url]}; RunWatch 4; Spawn (Thread.Mark 2 true); Run 0 1;
   Event ∅; RunWatch 66; Spawn (Thread.Chat chain_ab); Run 0 11; RunWatch 1].

(** [reconcile] purges a worker from the index before it deregisters it, so a
    request that arrives in between still selects it, and its chain stays in the
    index for a worker that no longer exists. *)
Theorem purge_precedes_deregistration :
  ∃ es s, Threads.run threads_start es s ∧
    WorkerRegistry.get 2 (Router.registry (Threads.router s)) = None ∧
    Threads.discovered s = ∅ ∧
    ∀ h, h ∈ chain_ab → bi_holds (Router.prefix_index (Threads.router s)) 2 h = true.
Proof.
  exists (after_commands purged_too_early).1, (after_commands purged_too_early).2.
  split; [apply after_commands_run; vm_compute; by eexists|].
  split_and!; [vm_compute; reflexivity..|].
  apply Forall_forall. repeat constructor; vm_compute; reflexivity.
Qed.
End witnesses.
