(* ===== verification/PrometheusText.v ===== *)
(** * Prometheus text exposition ([router-server/src/prometheus_text.rs])

    [find_metric]: the mean of all series of one metric in a text exposition,
    and a renderer of expositions against which it is specified. *)

From Stdlib Require Import SpecFloat.
From S2P Require Import Prelude Float64 Text.

Definition hash_char : N := 35.
Definition brace : N := 123.

(** The delimiters ['{', ' ', '\t'] and [' ', '\t']. *)
Definition ends_name (c : N) : bool := bool_decide (c = brace ∨ c = 32 ∨ c = 9)%N.
Definition is_blank (c : N) : bool := bool_decide (c = 32 ∨ c = 9)%N.

(** [Iterator::sum] over [f64]: its neutral element is [-0.0]. *)
Definition f64_sum (l : list f64) : f64 := foldl f64_add (S754_zero true) l.

Definition f64_mean (l : list f64) : f64 :=
  f64_div (f64_sum l) (f64_of_N (N.of_nat (length l))).

(** The [for] loop; [None] is the early return of [?]. *)
Fixpoint scan (name : rstr) (ls : list rstr) (values : list f64) : option (list f64) :=
  match ls with
  | [] => Some values
  | line :: ls =>
      let line := trim line in
      if bool_decide (line = []) || starts_with hash_char line then scan name ls values else
      let name_end := default (length line) (find ends_name line) in
      if decide (take name_end line ≠ name) then scan name ls values else
      let rest := drop name_end line in
      i ← rfind is_blank rest;
      let value_start := S i in
      match parse_f64 (drop value_start rest) with
      | Some value => scan name ls (values ++ [value])
      | None => scan name ls values
      end
  end.

Definition find_metric (text name : rstr) : option f64 :=
  values ← scan name (lines text) [];
  if decide (values = []) then None else Some (f64_mean values).

(** ** Expositions *)

Inductive exposition_line :=
  | Blank
  | Comment (text : rstr)
  (** [name], the text between braces, [value], and the optional timestamp. *)
  | Sample (name : rstr) (labels : option rstr) (value : rstr) (timestamp : option rstr).

(** The text of an optional part. *)
Definition labels_text (labels : option rstr) : rstr :=
  match labels with Some ls => lit "{" ++ ls ++ lit "}" | None => [] end.

Definition timestamp_text (timestamp : option rstr) : rstr :=
  match timestamp with Some ts => lit " " ++ ts | None => [] end.

Definition render_line (l : exposition_line) : rstr :=
  match l with
  | Blank => []
  | Comment text => hash_char :: text
  | Sample name labels value timestamp =>
      name ++ labels_text labels ++ lit " " ++ value ++ timestamp_text timestamp
  end.

Definition render (doc : list exposition_line) : rstr :=
  concat ((λ l, render_line l ++ [LF]) <$> doc).

(** A token: not empty, no whitespace. *)
Definition token (s : rstr) : Prop := s ≠ [] ∧ Forall (λ c, is_whitespace c = false) s.

Definition metric_name (s : rstr) : Prop :=
  token s ∧ (brace ∉ s) ∧ head s ≠ Some hash_char.

Definition line_ok (l : exposition_line) : Prop :=
  match l with
  | Blank => True
  | Comment text => one_line text
  | Sample name labels value timestamp =>
      metric_name name ∧ one_line (default [] labels) ∧ token value ∧
      match timestamp with Some ts => token ts | None => True end
  end.

#[export] Instance token_dec s : Decision (token s).
Proof. unfold token. apply _. Defined.
#[export] Instance line_ok_dec l : Decision (line_ok l).
Proof. unfold line_ok, metric_name, one_line. destruct l as [| |? ? ? []]; apply _. Defined.

(** What the last fields of the series of [name] read as, in order; those that
    are no number are skipped. *)
Definition last_fields (name : rstr) (doc : list exposition_line) : list f64 :=
  omap (λ l, match l with
    | Sample name' _ value timestamp =>
        if decide (name' = name) then parse_f64 (default value timestamp) else None
    | _ => None
    end) doc.

(** The readable values of the series of [name]. *)
Definition series (name : rstr) (doc : list exposition_line) : list f64 :=
  omap (λ l, match l with
    | Sample name' _ value _ => if decide (name' = name) then parse_f64 value else None
    | _ => None
    end) doc.

Definition without_timestamp (l : exposition_line) : Prop :=
  match l with Sample _ _ _ (Some _) => False | _ => True end.

#[export] Instance without_timestamp_dec l : Decision (without_timestamp l).
Proof. destruct l as [| |? ? ? []]; apply _. Defined.

Section lemmas.
Implicit Types (s : rstr) (l : exposition_line) (doc : list exposition_line).

Lemma whitespace_chars :
  is_whitespace 10 = true ∧ is_whitespace 13 = true ∧ is_whitespace 32 = true ∧
  is_whitespace 9 = true ∧ is_whitespace brace = false ∧ is_whitespace 125 = false ∧
  is_whitespace hash_char = false.
Proof. vm_compute. tauto. Qed.

Lemma token_not_in s c : token s → is_whitespace c = true → c ∉ s.
Proof. intros [_ Hs] Hc Hin. rewrite Forall_forall in Hs. specialize (Hs c Hin). congruence. Qed.

Lemma token_one_line s : token s → one_line s.
Proof. intros Hs. destruct whitespace_chars as (? & ? & _). split; by eapply token_not_in. Qed.

Lemma token_no_blank s : token s → Forall (λ c, is_blank c = false) s.
Proof.
  intros [_ Hs]. eapply Forall_impl; [exact Hs|]. intros c Hc. unfold is_blank.
  apply bool_decide_eq_false. destruct whitespace_chars as (_ & _ & H1 & H2 & _).
  intros [-> | ->]; congruence.
Qed.

Lemma name_no_end s : metric_name s → Forall (λ c, ends_name c = false) s.
Proof.
  intros (Ht & Hb & _). apply Forall_forall. intros c Hc. unfold ends_name.
  apply bool_decide_eq_false. destruct whitespace_chars as (_ & _ & H1 & H2 & _).
  intros [->|[-> | ->]]; [done|by apply (token_not_in s 32%N)|by apply (token_not_in s 9%N)].
Qed.

Lemma one_line_app a b : one_line a → one_line b → one_line (a ++ b).
Proof. intros [] []. split; by rewrite not_elem_of_app. Qed.

Lemma one_line_of s : bool_decide (one_line s) = true → one_line s.
Proof. apply bool_decide_eq_true_1. Qed.

Lemma render_one_line l : line_ok l → one_line (render_line l).
Proof.
  destruct l as [|text|name labels value timestamp]; simpl; intros Hok;
    [by apply one_line_of; vm_compute|..].
  - apply (one_line_app [hash_char]); [by apply one_line_of; vm_compute|done].
  - destruct Hok as ((Hn & _) & Hl & Hv & Ht).
    assert (Hsp : one_line (lit " ")) by by apply one_line_of; vm_compute.
    apply one_line_app; [by apply token_one_line|].
    apply one_line_app; [|apply (one_line_app (lit " ")); [done|apply one_line_app; [by apply token_one_line|]]].
    + destruct labels as [ls|]; [|by apply one_line_of; vm_compute].
      apply (one_line_app (lit "{")); [by apply one_line_of; vm_compute|].
      apply one_line_app; [done|by apply one_line_of; vm_compute].
    + destruct timestamp as [ts|]; [|by apply one_line_of; vm_compute].
      apply (one_line_app (lit " ")); [done|by apply token_one_line].
Qed.

Lemma token_head s x : token s → ∃ c s', s ++ x = c :: s' ∧ head s = Some c ∧ is_whitespace c = false.
Proof. intros [Hne Hs]. destruct s as [|c s]; [done|]. exists c, (s ++ x). by inversion Hs. Qed.

Lemma token_last s c : token s → last s = Some c → is_whitespace c = false.
Proof.
  intros [_ Hs] Hc. rewrite Forall_forall in Hs. apply Hs. by apply last_Some_elem_of.
Qed.

Lemma last_app_token x s : token s → last (x ++ s) = last s.
Proof.
  intros [Hne _]. rewrite last_app. destruct (last s) eqn:E; [done|]. by apply last_None in E.
Qed.

(** What is between the name and the last field. *)
Definition middle (labels : option rstr) (value : rstr) (timestamp : option rstr) : rstr :=
  labels_text labels ++ match timestamp with Some _ => lit " " ++ value | None => [] end.

Lemma render_sample name labels value timestamp :
  render_line (Sample name labels value timestamp) =
  name ++ middle labels value timestamp ++ lit " " ++ default value timestamp.
Proof.
  cbn [render_line]. unfold middle. destruct timestamp; cbn [timestamp_text from_option id];
    by rewrite ?app_nil_r, <-?app_assoc.
Qed.

Lemma last_field_token name labels value timestamp :
  line_ok (Sample name labels value timestamp) → token (default value timestamp).
Proof. destruct timestamp; intros (_ & _ & ? & ?); done. Qed.

(** A rendered sample is not trimmed. *)
Lemma sample_trimmed name labels value timestamp :
  line_ok (Sample name labels value timestamp) →
  trimmed (render_line (Sample name labels value timestamp)).
Proof.
  intros Hok. pose proof (last_field_token _ _ _ _ Hok) as Hv. destruct Hok as ((Hn & _) & _).
  rewrite render_sample. split.
  - intros c. destruct (token_head name (middle labels value timestamp ++ lit " " ++
      default value timestamp) Hn) as (c' & s' & -> & _ & Hc'). by intros [= <-].
  - intros c. rewrite !app_assoc, last_app_token by done. by apply token_last.
Qed.

Lemma find_name_end name labels value timestamp :
  metric_name name →
  find ends_name (name ++ middle labels value timestamp ++ lit " " ++ default value timestamp) =
  Some (length name).
Proof.
  intros Hn. apply name_no_end in Hn. unfold middle.
  destruct labels as [ls|]; [by apply (find_app_r ends_name name brace)|].
  destruct timestamp as [ts|]; by apply (find_app_r ends_name name 32%N).
Qed.

Lemma value_start pre field :
  token field → ∃ i, rfind is_blank (pre ++ lit " " ++ field) = Some i ∧
    drop (S i) (pre ++ lit " " ++ field) = field.
Proof.
  intros Hv. apply token_no_blank in Hv. exists (length pre).
  split; [by apply (rfind_app is_blank pre 32%N field)|].
  change (pre ++ lit " " ++ field) with (pre ++ [32%N] ++ field).
  rewrite app_assoc. apply drop_app_length'. rewrite length_app. simpl. lia.
Qed.

Lemma name_first name x : metric_name name → starts_with hash_char (name ++ x) = false ∧ name ++ x ≠ [].
Proof.
  intros ([Hne _] & _ & Hh). destruct name as [|c name]; [done|]. split; [|done].
  unfold starts_with. by apply bool_decide_eq_false.
Qed.

(** One line of the loop. *)
Lemma scan_line name l ls values :
  line_ok l →
  scan name (render_line l :: ls) values =
  scan name ls (values ++ match l with
    | Sample name' _ value timestamp =>
        if decide (name' = name)
        then match parse_f64 (default value timestamp) with Some v => [v] | None => [] end
        else []
    | _ => []
    end).
Proof.
  destruct l as [|text|name' labels value timestamp]; intros Hok; cbn [scan];
    [by rewrite app_nil_r|..].
  - rewrite app_nil_r. unfold trim. cbn [render_line].
    assert (trim_start (hash_char :: text) = hash_char :: text) as -> by done.
    assert (∃ t, rev (trim_start (rev (hash_char :: text))) = hash_char :: t) as [t ->].
    { cbn [rev]. generalize (rev text) as r. intros r.
      induction r as [|c r IH]; [by exists []|]. cbn [app trim_start].
      destruct (is_whitespace c); [done|]. exists (rev r ++ [c]).
      by rewrite (app_comm_cons r _ c), rev_app_distr. }
    done.
  - rewrite trim_id by by apply sample_trimmed. pose proof (last_field_token _ _ _ _ Hok) as Hv.
    destruct Hok as (Hn & _). rewrite render_sample.
    destruct (name_first name' (middle labels value timestamp ++ lit " " ++
      default value timestamp) Hn) as [-> Hne].
    rewrite bool_decide_false, find_name_end by done. cbn [orb from_option id].
    rewrite take_app_length, drop_app_length.
    destruct (decide (name' = name)) as [->|Hd]; [|by rewrite decide_True, app_nil_r].
    rewrite decide_False by tauto.
    destruct (value_start (middle labels value timestamp) _ Hv) as (i & -> & Hdrop).
    cbn [mbind option_bind]. rewrite Hdrop.
    destruct (parse_f64 (default value timestamp)); [done|by rewrite app_nil_r].
Qed.

Lemma scan_app name (a b : list rstr) values :
  scan name (a ++ b) values = scan name a values ≫= scan name b.
Proof.
  revert values. induction a as [|x a IH]; intros values; [done|]. cbn [app scan].
  destruct (_ || _); [apply IH|]. case_decide; [apply IH|].
  destruct (rfind _ _); cbn [mbind option_bind]; [|done]. case_match; apply IH.
Qed.

Lemma scan_lines name doc values :
  Forall line_ok doc → scan name (render_line <$> doc) values = Some (values ++ last_fields name doc).
Proof.
  intros Hdoc. revert values. induction Hdoc as [|l doc Hl _ IH]; intros values.
  { simpl. by rewrite app_nil_r. }
  rewrite fmap_cons, scan_line, IH by done. rewrite <-app_assoc. do 2 f_equal.
  destruct l as [|text|name' labels value timestamp]; [done..|]. cbn [last_fields omap list_omap].
  case_decide; [|done]. by destruct (parse_f64 (default value timestamp)).
Qed.

Lemma scan_render name doc text values :
  Forall line_ok doc →
  scan name (lines (render doc ++ text)) values = scan name (lines text) (values ++ last_fields name doc).
Proof.
  intros Hdoc. unfold render.
  change (λ l, render_line l ++ [LF]) with ((λ s, s ++ [LF]) ∘ render_line).
  rewrite list_fmap_compose, lines_concat.
  - by rewrite scan_app, scan_lines.
  - apply Forall_fmap. eapply Forall_impl; [exact Hdoc|]. exact render_one_line.
Qed.

Lemma last_fields_series name doc :
  Forall without_timestamp doc → last_fields name doc = series name doc.
Proof.
  induction 1 as [|l doc Hl _ IH]; [done|].
  destruct l as [| |name' labels value []]; cbn [last_fields series omap list_omap]; try done.
  unfold last_fields, series in IH. by rewrite IH.
Qed.
End lemmas.

(** ** Properties *)

(** C32.  [find_metric] reads back an exposition: on the rendering of any list
    of lines that are blank, comments or samples (with or without labels, in
    which blanks may occur, and with or without a timestamp) it returns the mean
    of what the last fields of the samples of the named metric read as, those
    that are no number being left out, and [None] exactly when none is left; so,
    where no sample has a timestamp, the mean of the readable values of that
    metric. *)
Theorem find_metric_reads_exposition (doc : list exposition_line) (name : rstr)
    (Hdoc : Forall line_ok doc) :
  find_metric (render doc) name =
    (if decide (last_fields name doc = []) then None else Some (f64_mean (last_fields name doc))) ∧
  (Forall without_timestamp doc → last_fields name doc = series name doc).
Proof.
  split; [|apply last_fields_series]. unfold find_metric.
  pose proof (scan_render name doc [] [] Hdoc) as Hs. rewrite !app_nil_r in Hs. by rewrite Hs.
Qed.

(** A sample without a value makes the metric disappear: the [?] on the
    search for the value leaves the whole function, so one line that holds
    the bare name yields [None] whatever series came before it and whatever
    text follows. *)
Theorem find_metric_valueless_line (doc : list exposition_line) (name text : rstr)
    (Hdoc : Forall line_ok doc) (Hname : metric_name name) :
  find_metric (render doc ++ name ++ [LF] ++ text) name = None.
Proof.
  unfold find_metric. rewrite scan_render by done. cbn [app].
  rewrite lines_cons by by apply token_one_line; destruct Hname. cbn [scan].
  destruct (name_first name [] Hname) as [Hh Hne]. rewrite app_nil_r in Hh, Hne.
  assert (Ht : trimmed name).
  { destruct Hname as (Hn & _). split; [|intros c; by apply token_last].
    destruct (token_head name [] Hn) as (c & s' & _ & Hc & Hw). intros c'. congruence. }
  rewrite trim_id, Hh, bool_decide_false by done. cbn [orb].
  rewrite find_none by by apply name_no_end. cbn [from_option id].
  rewrite firstn_all, drop_all, decide_False by tauto. done.
Qed.

Section witnesses.

(** The sample of the source's tests, with a second series. *)
Definition vllm_exposition : list exposition_line :=
  [Comment (lit " HELP vllm:gpu_prefix_cache_hit_rate GPU prefix cache hit rate.");
   Comment (lit " TYPE vllm:gpu_prefix_cache_hit_rate gauge");
   Sample (lit "vllm:gpu_prefix_cache_hit_rate")
     (Some (lit "model_name=Qwen, rank 0")) (lit "0.625") None;
   Blank;
   Sample (lit "vllm:gpu_prefix_cache_hit_rate") None (lit "0.375") None;
   Sample (lit "vllm:num_requests_running") None (lit "2") (Some (lit "1700000000"))].

Lemma vllm_exposition_ok : Forall line_ok vllm_exposition.
Proof. apply (bool_decide_unpack _). vm_compute. exact I. Qed.

Theorem find_metric_reads_exposition_witness :
  find_metric (render vllm_exposition) (lit "vllm:gpu_prefix_cache_hit_rate") = Some f64_half.
Proof.
  rewrite (proj1 (find_metric_reads_exposition vllm_exposition
    (lit "vllm:gpu_prefix_cache_hit_rate") vllm_exposition_ok)).
  vm_compute. reflexivity.
Defined.

Theorem find_metric_valueless_line_witness :
  find_metric (render vllm_exposition ++ lit "up" ++ [LF] ++ lit "up 1") (lit "up") = None.
Proof.
  apply (find_metric_valueless_line vllm_exposition (lit "up") (lit "up 1") vllm_exposition_ok).
  apply (bool_decide_unpack _). vm_compute. exact I.
Defined.

(** The last blank-separated word is taken for the value, so the optional
    timestamp of the format is read instead of the value before it. *)
Theorem find_metric_reads_timestamp :
  find_metric (lit "m 0.5 1700000000") (lit "m") = Some (f64_of_N 1700000000).
Proof. vm_compute. reflexivity. Qed.
End witnesses.
