(* ===== verification/Metrics.v ===== *)
(** * Metrics ([router-server/src/metrics.rs])

    What the program reports through the metrics facade, as the sequence of
    calls it makes, and the per-worker hit statistics that it keeps itself. *)

From S2P Require Import Prelude Float64 Hashing Config Request Worker Inflight Belief Prefix Router.

(** A call of the facade; the recorder behind it is not part of the program. *)
Inductive MetricCall :=
  | CounterIncrement (name : rstr) (labels : list (rstr * rstr)) (by_ : N)
  | GaugeSet (name : rstr) (labels : list (rstr * rstr)) (value : f64)
  | HistogramRecord (name : rstr) (labels : list (rstr * rstr)) (value : f64).

#[export] Instance MetricCall_eq_dec : EqDecision MetricCall.
Proof. solve_decision. Defined.

(** ** Declarations ([register_descriptions]) *)

Inductive MetricKind := Counter | Gauge | Histogram.

#[export] Instance MetricKind_eq_dec : EqDecision MetricKind.
Proof. solve_decision. Defined.

(** Kind, name and help text, in the order of the calls. *)
Definition register_descriptions : list (MetricKind * rstr * rstr) := [
  (Counter, lit "kvrouter_requests_total",
   lit "Chat completion requests by worker, policy and status.");
  (Counter, lit "kvrouter_cache_hit_blocks",
   lit "Cache-hit blocks credited to routing decisions (matched prefix length).");
  (Counter, lit "kvrouter_prompt_blocks_total", lit "Prompt blocks across routed requests.");
  (Histogram, lit "kvrouter_ttft_seconds", lit "Time to first token, seconds.");
  (Histogram, lit "kvrouter_request_duration_seconds",
   lit "End-to-end request duration, seconds.");
  (Counter, lit "kvrouter_tokens_generated_total",
   lit "Tokens streamed back to clients, counted from streamed chunks.");
  (Gauge, lit "kvrouter_inflight_requests", lit "Requests currently in flight, per worker.");
  (Gauge, lit "kvrouter_prefix_index_entries", lit "Router-side prefix index size.");
  (Gauge, lit "kvrouter_worker_up", lit "1 if the worker is currently healthy.");
  (Histogram, lit "kvrouter_kv_transfer_seconds",
   lit "KV transfer duration between prefill and decode workers (disaggregated mode).");
  (Gauge, lit "kvrouter_engine_cache_hit_rate",
   lit "Engine-reported prefix cache hit rate (metrics_scrape mode).");
  (Gauge, lit "kvrouter_predicted_cache_hit_rate",
   lit "Router-predicted prefix cache hit rate from its belief index.");
  (Gauge, lit "kvrouter_hit_rate_prediction_error",
   lit "Predicted minus engine-reported cache hit rate.")].

Module Metrics.

Record t := {
  (** Oldest call first. *)
  calls : list MetricCall;
  (** [HIT_STATS]: hit blocks and prompt blocks per worker URL. *)
  hit_stats : gmap rstr (N * N);
}.

Definition emit (c : MetricCall) (m : t) : t :=
  {| calls := calls m ++ [c]; hit_stats := hit_stats m |}.

(** [Duration::as_secs_f64]. *)
Definition as_secs_f64 (d : duration) : f64 :=
  f64_add (f64_of_N (d / 1000000000))
          (f64_div (f64_of_N (d mod 1000000000)) (f64_of_N 1000000000)).

(** [Duration::as_millis] as a [u64]. *)
Definition as_millis (d : duration) : N := wrap64 (d / 1000000).

Definition worker_label (worker : rstr) : rstr * rstr := (lit "worker", worker).
Definition policy_label (policy : RoutingPolicy) : rstr * rstr :=
  (lit "policy", show_RoutingPolicy policy).

(** [entry.0 += matched; entry.1 += prompt] in release mode (wrapping). *)
Definition record_hit_stats (worker : rstr) (matched_blocks prompt_blocks : N) (m : t) : t :=
  let entry := default (0, 0)%N (hit_stats m !! worker) in
  {| calls := calls m;
     hit_stats := <[worker := (fetch_add entry.1 matched_blocks,
                               fetch_add entry.2 prompt_blocks)]> (hit_stats m) |}.

Definition predicted_cache_hit_rate (worker : rstr) (m : t) : option f64 :=
  '(hits, prompts) ← hit_stats m !! worker;
  if decide (0 < prompts)%N then Some (f64_div (f64_of_N hits) (f64_of_N prompts)) else None.

Definition set_engine_cache_hit_rate (worker : rstr) (rate : f64) : t → t :=
  emit (GaugeSet (lit "kvrouter_engine_cache_hit_rate") [worker_label worker] rate).

Definition set_predicted_cache_hit_rate (worker : rstr) (rate : f64) : t → t :=
  emit (GaugeSet (lit "kvrouter_predicted_cache_hit_rate") [worker_label worker] rate).

Definition set_hit_rate_prediction_error (worker : rstr) (error : f64) : t → t :=
  emit (GaugeSet (lit "kvrouter_hit_rate_prediction_error") [worker_label worker] error).

Definition request_call (worker : rstr) (policy : RoutingPolicy) (status : N) : MetricCall :=
  CounterIncrement (lit "kvrouter_requests_total")
    [worker_label worker; policy_label policy; (lit "status", show_N status)] 1.

Definition record_request (worker : rstr) (policy : RoutingPolicy) (status : N) : t → t :=
  emit (request_call worker policy status).

Definition record_cache_hit_blocks (blocks : N) : t → t :=
  emit (CounterIncrement (lit "kvrouter_cache_hit_blocks") [] blocks).

Definition record_prompt_blocks (blocks : N) : t → t :=
  emit (CounterIncrement (lit "kvrouter_prompt_blocks_total") [] blocks).

Definition record_ttft (policy : RoutingPolicy) (seconds : f64) : t → t :=
  emit (HistogramRecord (lit "kvrouter_ttft_seconds") [policy_label policy] seconds).

Definition record_request_duration (policy : RoutingPolicy) (seconds : f64) : t → t :=
  emit (HistogramRecord (lit "kvrouter_request_duration_seconds") [policy_label policy] seconds).

Definition record_tokens_generated (worker : rstr) (tokens : N) : t → t :=
  emit (CounterIncrement (lit "kvrouter_tokens_generated_total") [worker_label worker] tokens).

Definition record_kv_transfer (seconds : f64) : t → t :=
  emit (HistogramRecord (lit "kvrouter_kv_transfer_seconds") [] seconds).

Definition set_inflight (worker : rstr) (count : N) : t → t :=
  emit (GaugeSet (lit "kvrouter_inflight_requests") [worker_label worker] (f64_of_N count)).

Definition set_prefix_index_entries (entries : N) : t → t :=
  emit (GaugeSet (lit "kvrouter_prefix_index_entries") [] (f64_of_N entries)).

Definition set_worker_up (worker : rstr) (up : bool) : t → t :=
  emit (GaugeSet (lit "kvrouter_worker_up") [worker_label worker] (if up then f64_1 else f64_0)).

Section refresh.
Context {T : Type} `{BI : BeliefIndex T} {HM : HashMapOrder}.

(** The gauges of one worker. *)
Definition refresh_worker (r : Router.t T) (m : t) (w : Worker) : t :=
  set_inflight (w_url w) (InflightTracker.count (w_id w) (Router.inflight r))
    (set_worker_up (w_url w) (WorkerRegistry.is_healthy (w_id w) (Router.registry r)) m).

Definition refresh_gauges (r : Router.t T) (m : t) : t :=
  set_prefix_index_entries (N.of_nat (bi_len (Router.prefix_index r)))
    (foldl (refresh_worker r) m (WorkerRegistry.all_workers (Router.registry r))).
End refresh.

(** ** Reading the calls back *)

(** The value a gauge shows: that of its last [set]. *)
Definition gauge (name : rstr) (labels : list (rstr * rstr)) (m : t) : option f64 :=
  foldl (λ v c, match c with
    | GaugeSet name' labels' value =>
        if decide (name' = name ∧ labels' = labels) then Some value else v
    | _ => v
    end) None (calls m).

Definition is_request_call (c : MetricCall) : bool :=
  match c with
  | CounterIncrement name _ _ => bool_decide (name = lit "kvrouter_requests_total")
  | _ => false
  end.

(** Number of requests counted, whatever their labels. *)
Definition requests_counted (m : t) : nat :=
  length (filter (λ c, is_request_call c = true) (calls m)).

Lemma gauge_emit name labels c m :
  gauge name labels (emit c m) =
  match c with
  | GaugeSet name' labels' value =>
      if decide (name' = name ∧ labels' = labels) then Some value else gauge name labels m
  | _ => gauge name labels m
  end.
Proof. unfold gauge, emit. cbn [calls]. by rewrite foldl_app. Qed.

Lemma requests_counted_emit c m :
  requests_counted (emit c m) = requests_counted m + (if is_request_call c then 1 else 0).
Proof.
  unfold requests_counted, emit. cbn [calls]. rewrite filter_app, length_app, filter_cons.
  by destruct (is_request_call c).
Qed.

Lemma requests_counted_hit_stats worker a b m :
  requests_counted (record_hit_stats worker a b m) = requests_counted m.
Proof. done. Qed.

Section lemmas.
Context {T : Type} `{BI : BeliefIndex T} {HM : HashMapOrder}.

Lemma refresh_fold_gauge (r : Router.t T) ws m name url :
  gauge name [worker_label url] (foldl (refresh_worker r) m ws) =
  foldl (λ v w,
    if decide (w_url w = url) then
      if decide (name = lit "kvrouter_inflight_requests")
      then Some (f64_of_N (InflightTracker.count (w_id w) (Router.inflight r)))
      else if decide (name = lit "kvrouter_worker_up")
      then Some (if WorkerRegistry.is_healthy (w_id w) (Router.registry r) then f64_1 else f64_0)
      else v
    else v) (gauge name [worker_label url] m) ws.
Proof.
  revert m. induction ws as [|w ws IH]; intros m; [done|]. cbn [foldl]. rewrite IH. f_equal.
  unfold refresh_worker, set_inflight, set_worker_up. rewrite !gauge_emit.
  unfold worker_label. destruct (decide (w_url w = url)) as [->|Hne].
  - destruct (decide (name = lit "kvrouter_inflight_requests")) as [->|Hn1];
      [by rewrite decide_True|].
    rewrite (decide_False (P := _ ∧ _)) by naive_solver.
    destruct (decide (name = lit "kvrouter_worker_up")) as [->|Hn2];
      [by rewrite decide_True|]. by rewrite decide_False by naive_solver.
  - rewrite !decide_False; [done|intros [_ ?]; simplify_eq..].
Qed.

(** A fold that only looks at one element of a duplicate-free list. *)
Lemma foldl_pick {A B} (key : A → B) `{EqDecision B} (f : A → option f64) (l : list A) v x :
  NoDup (key <$> l) → x ∈ l →
  foldl (λ v y, if decide (key y = key x) then f y else v) v l = f x.
Proof.
  revert v. induction l as [|y l IH]; intros v Hnd Hx; [by apply not_elem_of_nil in Hx|].
  rewrite fmap_cons in Hnd. apply NoDup_cons in Hnd as [Hni Hnd]. cbn [foldl].
  apply elem_of_cons in Hx as [->|Hx]; [|by apply IH].
  rewrite decide_True by done. clear IH Hnd. induction l as [|z l IH]; [done|]. cbn [foldl].
  rewrite fmap_cons, not_elem_of_cons in Hni. destruct Hni as [Hne Hni].
  rewrite decide_False by congruence. by apply IH.
Qed.

Lemma foldl_skip {A B C} (key : A → B) `{EqDecision B} (f : C → A → C) (l : list A) v k :
  k ∉ key <$> l → foldl (λ v y, if decide (key y = k) then f v y else v) v l = v.
Proof.
  revert v. induction l as [|z l IH]; intros v Hni; [done|]. cbn [foldl].
  rewrite fmap_cons, not_elem_of_cons in Hni. destruct Hni as [Hne Hni].
  rewrite decide_False by congruence. by apply IH.
Qed.
End lemmas.
End Metrics.

(** ** Properties *)

(** A scrape shows the current state: after [refresh_gauges] the up and
    in-flight gauges of every registered worker (workers having distinct URLs)
    and the index size are those of the registry, the tracker and the index;
    the gauges of any other worker keep their old value. *)
Theorem refresh_gauges_current {T} `{BeliefIndex T} {HM : HashMapOrder}
    (r : Router.t T) (m : Metrics.t) (w : Worker) (url : rstr)
    (Hnd : NoDup (w_url <$> WorkerRegistry.all_workers (Router.registry r)))
    (Hw : w ∈ WorkerRegistry.all_workers (Router.registry r))
    (Hurl : url ∉ w_url <$> WorkerRegistry.all_workers (Router.registry r)) :
  let m' := Metrics.refresh_gauges r m in
  Metrics.gauge (lit "kvrouter_worker_up") [Metrics.worker_label (w_url w)] m' =
    Some (if WorkerRegistry.is_healthy (w_id w) (Router.registry r) then f64_1 else f64_0) ∧
  Metrics.gauge (lit "kvrouter_inflight_requests") [Metrics.worker_label (w_url w)] m' =
    Some (f64_of_N (InflightTracker.count (w_id w) (Router.inflight r))) ∧
  Metrics.gauge (lit "kvrouter_prefix_index_entries") [] m' =
    Some (f64_of_N (N.of_nat (bi_len (Router.prefix_index r)))) ∧
  (∀ name, Metrics.gauge name [Metrics.worker_label url] m' =
           Metrics.gauge name [Metrics.worker_label url] m).
Proof.
  assert (Hskip : ∀ name u, Metrics.gauge name [Metrics.worker_label u] (Metrics.refresh_gauges r m) =
    Metrics.gauge name [Metrics.worker_label u]
      (foldl (Metrics.refresh_worker r) m (WorkerRegistry.all_workers (Router.registry r)))).
  { intros name u. unfold Metrics.refresh_gauges, Metrics.set_prefix_index_entries.
    rewrite Metrics.gauge_emit. rewrite decide_False; [done|]. by intros [_ ?]. }
  cbn zeta. split_and!.
  - rewrite Hskip, Metrics.refresh_fold_gauge.
    exact (Metrics.foldl_pick w_url (λ y, Some (if WorkerRegistry.is_healthy (w_id y)
      (Router.registry r) then f64_1 else f64_0)) _ _ w Hnd Hw).
  - rewrite Hskip, Metrics.refresh_fold_gauge.
    exact (Metrics.foldl_pick w_url (λ y, Some (f64_of_N (InflightTracker.count (w_id y)
      (Router.inflight r)))) _ _ w Hnd Hw).
  - unfold Metrics.refresh_gauges, Metrics.set_prefix_index_entries.
    by rewrite Metrics.gauge_emit, decide_True.
  - intros name. rewrite Hskip, Metrics.refresh_fold_gauge. by apply Metrics.foldl_skip.
Qed.

(** The hit statistics are exact: after any sequence of recordings the
    entry of a worker is the sum of its matched and of its prompt blocks
    (modulo 2^64), a worker that was never recorded has none, and the
    predicted rate is their quotient as soon as there are prompt blocks. *)
Theorem hit_stats_are_sums (worker : rstr) (m : Metrics.t)
    (records : list (rstr * (N * N)))
    (H0 : Metrics.hit_stats m !! worker = None) :
  let m' := foldl (λ m x, Metrics.record_hit_stats x.1 x.2.1 x.2.2 m) m records in
  let mine := snd <$> filter (λ x, x.1 = worker) records in
  let hits := wrap64 (sumN mine.*1) in
  let prompts := wrap64 (sumN mine.*2) in
  Metrics.hit_stats m' !! worker = (if decide (mine = []) then None else Some (hits, prompts)) ∧
  Metrics.predicted_cache_hit_rate worker m' =
    (if decide (0 < prompts)%N then Some (f64_div (f64_of_N hits) (f64_of_N prompts)) else None) ∧
  Metrics.calls m' = Metrics.calls m.
Proof.
  cbn zeta.
  assert (Hstats : ∀ records m entry, Metrics.hit_stats m !! worker = entry →
    (∀ e, entry = Some e → (e.1 < u64_modulus ∧ e.2 < u64_modulus)%N) →
    let mine := snd <$> filter (λ x, x.1 = worker) records in
    Metrics.hit_stats (foldl (λ m x, Metrics.record_hit_stats x.1 x.2.1 x.2.2 m) m records)
      !! worker =
    (if decide (mine = []) then entry else
     Some (wrap64 ((default (0, 0) entry).1 + sumN mine.*1),
           wrap64 ((default (0, 0) entry).2 + sumN mine.*2))%N)).
  { clear m H0 records. intros records. induction records as [|[w [a b]] records IH];
      intros m entry He Hb; [done|]. cbn [foldl fst snd]. rewrite filter_cons. cbn [fst].
    destruct (decide (w = worker)) as [->|Hne].
    - rewrite (IH _ (Some (fetch_add (default (0, 0)%N entry).1 a,
                           fetch_add (default (0, 0)%N entry).2 b))).
      + rewrite fmap_cons, (decide_False (P := _ :: _ = [])) by done. cbn [fst snd fmap list_fmap].
        case_decide as Hm.
        * apply fmap_nil_inv in Hm. rewrite Hm. simpl. unfold fetch_add. by rewrite !N.add_0_r.
        * simpl. unfold fetch_add. rewrite !wrap64_add_l. do 2 f_equal; f_equal; lia.
      + unfold Metrics.record_hit_stats. simpl. by rewrite lookup_insert_eq, He.
      + intros e [= <-]. split; apply fetch_add_lt.
    - apply IH; [|done]. unfold Metrics.record_hit_stats. simpl.
      by rewrite lookup_insert_ne. }
  specialize (Hstats records m None H0 ltac:(done)). simpl in Hstats.
  split_and!.
  - exact Hstats.
  - unfold Metrics.predicted_cache_hit_rate. rewrite Hstats.
    case_decide as Hm; simpl; [by rewrite Hm|done].
  - clear. revert m. induction records as [|x records IH]; intros m; [done|]. simpl. by rewrite IH.
Qed.


Section witnesses.
#[local] Existing Instance hm_canonical.

Definition no_metrics : Metrics.t := {| Metrics.calls := []; Metrics.hit_stats := ∅ |}.

(** A gauge left behind by a worker that has been removed since. *)
Definition stale_metrics : Metrics.t :=
  Metrics.set_worker_up (lit "http://gone") true no_metrics.

Theorem refresh_gauges_current_witness :
  Metrics.gauge (lit "kvrouter_worker_up") [Metrics.worker_label (lit "http://gone")]
    (Metrics.refresh_gauges router_a stale_metrics) = Some f64_1.
Proof.
  assert (Hnd : NoDup (w_url <$> WorkerRegistry.all_workers (Router.registry router_a)))
    by (apply (bool_decide_unpack _); vm_compute; exact I).
  assert (Hw : worker_a ∈ WorkerRegistry.all_workers (Router.registry router_a))
    by (apply (bool_decide_unpack _); vm_compute; exact I).
  assert (Hurl : lit "http://gone" ∉ w_url <$> WorkerRegistry.all_workers (Router.registry router_a))
    by (apply (bool_decide_unpack _); vm_compute; exact I).
  destruct (refresh_gauges_current router_a stale_metrics worker_a (lit "http://gone")
              Hnd Hw Hurl) as (_ & _ & _ & Hstale).
  rewrite Hstale. vm_compute. reflexivity.
Defined.

Theorem hit_stats_are_sums_witness :
  Metrics.hit_stats
    (foldl (λ m x, Metrics.record_hit_stats x.1 x.2.1 x.2.2 m) no_metrics
       [(lit "a", (1, 2)); (lit "b", (5, 5)); (lit "a", (3, 4))]%N) !! lit "a" =
  Some (4, 6)%N.
Proof.
  exact (proj1 (hit_stats_are_sums (lit "a") no_metrics
    [(lit "a", (1, 2)); (lit "b", (5, 5)); (lit "a", (3, 4))]%N eq_refl)).
Defined.
End witnesses.
