(* ===== verification/EngineMetrics.v ===== *)
(** * Engine metrics scraper ([router-server/src/engine_metrics.rs])

    One round of the optional background task: ask every healthy worker for its
    metrics, read the reported cache hit rate out of the exposition, and show
    it next to the rate the router predicted.  The HTTP client is a parameter. *)

From S2P Require Import Prelude Float64 Text Hashing Config Request Worker Inflight Belief Prefix Router PrometheusText Metrics.

Module EngineMetrics.

Definition slash : N := 47.

(** [format!("{}/metrics", worker.url.trim_end_matches('/'))]. *)
Definition scrape_url (w : Worker) : rstr :=
  trim_end_matches slash (w_url w) ++ lit "/metrics".

(** [engine_metrics_interval_secs.max(1)]. *)
Definition interval_secs (config : RouterConfig) : N :=
  N.max (cfg_engine_metrics_interval_secs config) 1.

Section scraper.
Context {HM : HashMapOrder}.

(** [get w url]: a transport error, or a status with the body's text (or the
    error of reading it); [is_success] is [StatusCode::is_success]. *)
Context (is_success : N → bool).
Context (get : Worker → rstr → result rstr (N * result rstr rstr)).
Context (metric_name : rstr).

(** The answer of one worker that is found healthy. *)
Definition fetch (w : Worker) : option f64 :=
  match get w (scrape_url w) with
  | Ok (status, body) =>
      if is_success status then
        match body with
        | Ok text => find_metric text metric_name
        | Err _ => None
        end
      else None
  | Err _ => None
  end.

(** The body of [if let Some(rate)]. *)
Definition report (w : Worker) (rate : f64) (m : Metrics.t) : Metrics.t :=
  let m := Metrics.set_engine_cache_hit_rate (w_url w) rate m in
  match Metrics.predicted_cache_hit_rate (w_url w) m with
  | Some predicted =>
      Metrics.set_hit_rate_prediction_error (w_url w) (f64_sub predicted rate)
        (Metrics.set_predicted_cache_hit_rate (w_url w) predicted m)
  | None => m
  end.

(** One iteration of the [for] loop; [reg] is the registry when the worker's
    turn comes. *)
Definition scrape_worker (reg : WorkerRegistry.t) (m : Metrics.t) (w : Worker) : Metrics.t :=
  if negb (WorkerRegistry.is_healthy (w_id w) reg) then m else
  match fetch w with
  | Some rate => report w rate m
  | None => m
  end.

(** A round over the workers registered at its start; the registry may change
    while the answers are awaited: [turn id] is it when [id] has its turn. *)
Definition scrape_round (reg : WorkerRegistry.t) (turn : WorkerId → WorkerRegistry.t)
    (m : Metrics.t) : Metrics.t :=
  foldl (λ m w, scrape_worker (turn (w_id w)) m w) m (WorkerRegistry.all_workers reg).
End scraper.

(** The task: nothing unless [metrics_scrape] is set, otherwise the rounds it
    gets to make, with the configured metric name. *)
Definition spawn_engine_metrics_scraper {HM : HashMapOrder} (config : RouterConfig)
    (is_success : N → bool)
    (rounds : list ((Worker → rstr → result rstr (N * result rstr rstr)) *
                    WorkerRegistry.t * (WorkerId → WorkerRegistry.t)))
    (m : Metrics.t) : Metrics.t :=
  if negb (cfg_metrics_scrape config) then m else
  foldl (λ m '(get, reg, turn),
    scrape_round is_success get (cfg_engine_cache_hit_metric config) reg turn m) m rounds.

Section lemmas.
Context {HM : HashMapOrder}.
Context (is_success : N → bool).
Context (get : Worker → rstr → result rstr (N * result rstr rstr)).
Context (metric_name : rstr).
Implicit Types (w : Worker) (reg : WorkerRegistry.t) (m : Metrics.t).

(** The rate that a round obtains from [w], if any. *)
Definition scraped (turn : WorkerId → WorkerRegistry.t) w : option f64 :=
  if WorkerRegistry.is_healthy (w_id w) (turn (w_id w))
  then fetch is_success get metric_name w else None.

Lemma predicted_emit url c m :
  Metrics.predicted_cache_hit_rate url (Metrics.emit c m) = Metrics.predicted_cache_hit_rate url m.
Proof. done. Qed.

Lemma scrape_worker_cases turn m w :
  scrape_worker is_success get metric_name (turn (w_id w)) m w =
  match scraped turn w with Some rate => report w rate m | None => m end.
Proof. unfold scrape_worker, scraped. by destruct (WorkerRegistry.is_healthy _ _). Qed.

(** What one report leaves alone. *)
Lemma report_frame w rate m :
  Metrics.hit_stats (report w rate m) = Metrics.hit_stats m ∧
  Metrics.requests_counted (report w rate m) = Metrics.requests_counted m ∧
  ∀ name labels, labels ≠ [Metrics.worker_label (w_url w)] →
    Metrics.gauge name labels (report w rate m) = Metrics.gauge name labels m.
Proof.
  unfold report, Metrics.set_engine_cache_hit_rate, Metrics.set_predicted_cache_hit_rate,
    Metrics.set_hit_rate_prediction_error.
  case_match; rewrite ?Metrics.requests_counted_emit; (split_and!; [done|simpl; lia|]);
    intros name labels Hne; rewrite !Metrics.gauge_emit;
    by rewrite !(decide_False (P := _ ∧ _)) by naive_solver.
Qed.

Lemma round_frame turn ws m :
  let m' := foldl (λ m w, scrape_worker is_success get metric_name (turn (w_id w)) m w) m ws in
  Metrics.hit_stats m' = Metrics.hit_stats m ∧
  Metrics.requests_counted m' = Metrics.requests_counted m ∧
  ∀ name labels, (∀ w, w ∈ ws → labels ≠ [Metrics.worker_label (w_url w)]) →
    Metrics.gauge name labels m' = Metrics.gauge name labels m.
Proof.
  revert m. induction ws as [|w ws IH]; intros m; cbn [foldl]; [done|].
  destruct (IH (scrape_worker is_success get metric_name (turn (w_id w)) m w)) as (Hs & Hc & Hg).
  revert Hs Hc Hg. rewrite scrape_worker_cases. intros Hs Hc Hg.
  assert (Hrest : ∀ labels, (∀ w', w' ∈ w :: ws → labels ≠ [Metrics.worker_label (w_url w')]) →
    ∀ w', w' ∈ ws → labels ≠ [Metrics.worker_label (w_url w')])
    by (intros ?? w' Hw'; set_solver).
  destruct (scraped turn w) as [rate|]; [|split_and!; [done|done|]; intros name labels Hl; exact (Hg _ _ (Hrest _ Hl))].
  destruct (report_frame w rate m) as (Hs' & Hc' & Hg').
  split_and!; [congruence|congruence|]. intros name labels Hl.
  rewrite Hg by exact (Hrest _ Hl). apply Hg', Hl. by left.
Qed.

(** Decide which gauge a call sets. *)
Ltac gauge_step :=
  match goal with
  | |- context [decide (?a = ?b ∧ ?c)] =>
      first [rewrite (decide_True (P := a = b ∧ c)) by done
            |rewrite (decide_False (P := a = b ∧ c)) by (intros [? _]; discriminate)]
  end.

(** The three gauges of a worker after its report. *)
Lemma report_gauges w rate m :
  let gauge name := Metrics.gauge (lit name) [Metrics.worker_label (w_url w)] in
  let predicted := Metrics.predicted_cache_hit_rate (w_url w) m in
  gauge "kvrouter_engine_cache_hit_rate" (report w rate m) = Some rate ∧
  gauge "kvrouter_predicted_cache_hit_rate" (report w rate m) =
    (match predicted with Some p => Some p
     | None => gauge "kvrouter_predicted_cache_hit_rate" m end) ∧
  gauge "kvrouter_hit_rate_prediction_error" (report w rate m) =
    (match predicted with Some p => Some (f64_sub p rate)
     | None => gauge "kvrouter_hit_rate_prediction_error" m end).
Proof.
  cbn zeta. unfold report, Metrics.set_engine_cache_hit_rate,
    Metrics.set_predicted_cache_hit_rate, Metrics.set_hit_rate_prediction_error.
  rewrite predicted_emit.
  destruct (Metrics.predicted_cache_hit_rate (w_url w) m); rewrite !Metrics.gauge_emit;
    split_and!; repeat gauge_step; done.
Qed.
End lemmas.
End EngineMetrics.

(** ** Properties *)

(** C37.  A scrape round shows engine and prediction side by side: with distinct
    URLs, a worker that is healthy at its turn and whose answer holds the
    metric gets that rate as its engine gauge and, as soon as the router has a
    prediction for it, that prediction and exactly their difference; a worker
    that is down, fails or lacks the metric keeps all its gauges, and so does
    everything that is not a registered worker; no statistic changes. *)
Theorem scrape_round_spec {HM : HashMapOrder} (is_success : N → bool)
    (get : Worker → rstr → result rstr (N * result rstr rstr)) (metric_name : rstr)
    (reg : WorkerRegistry.t) (turn : WorkerId → WorkerRegistry.t) (m : Metrics.t)
    (Hnd : NoDup (w_url <$> WorkerRegistry.all_workers reg)) :
  let m' := EngineMetrics.scrape_round is_success get metric_name reg turn m in
  let gauge url name m := Metrics.gauge (lit name) [Metrics.worker_label url] m in
  Metrics.hit_stats m' = Metrics.hit_stats m ∧
  Metrics.requests_counted m' = Metrics.requests_counted m ∧
  (∀ w, w ∈ WorkerRegistry.all_workers reg →
     match EngineMetrics.scraped is_success get metric_name turn w with
     | None => ∀ name, gauge (w_url w) name m' = gauge (w_url w) name m
     | Some rate =>
         gauge (w_url w) "kvrouter_engine_cache_hit_rate" m' = Some rate ∧
         ∀ p, Metrics.predicted_cache_hit_rate (w_url w) m = Some p →
           gauge (w_url w) "kvrouter_predicted_cache_hit_rate" m' = Some p ∧
           gauge (w_url w) "kvrouter_hit_rate_prediction_error" m' = Some (f64_sub p rate)
     end) ∧
  (∀ name labels, (∀ w, w ∈ WorkerRegistry.all_workers reg →
                     labels ≠ [Metrics.worker_label (w_url w)]) →
     Metrics.gauge name labels m' = Metrics.gauge name labels m).
Proof.
  unfold EngineMetrics.scrape_round. revert Hnd.
  generalize (WorkerRegistry.all_workers reg) as ws. intros ws Hnd. cbn zeta.
  destruct (EngineMetrics.round_frame is_success get metric_name turn ws m) as (Hs & Hc & Hg).
  split_and!; [done|done| |done]. intros w Hw.
  apply list_elem_of_split in Hw as (l1 & l2 & ->).
  rewrite fmap_app, fmap_cons, NoDup_app, NoDup_cons in Hnd.
  destruct Hnd as (_ & Hd & Hn2 & _).
  assert (Hn1 : w_url w ∉ w_url <$> l1) by (intros Hin; apply (Hd _ Hin); by left).
  assert (Hne : ∀ l : list Worker, w_url w ∉ w_url <$> l → ∀ w', w' ∈ l →
    [Metrics.worker_label (w_url w)] ≠ [Metrics.worker_label (w_url w')]).
  { intros l Hl w' Hw' [= He]. apply Hl. rewrite He. by apply list_elem_of_fmap_2. }
  rewrite foldl_app. cbn [foldl].
  set (m1 := foldl _ m l1).
  destruct (EngineMetrics.round_frame is_success get metric_name turn l1 m) as (Hs1 & _ & Hg1).
  fold m1 in Hs1, Hg1.
  rewrite (EngineMetrics.scrape_worker_cases is_success get metric_name turn m1 w).
  destruct (EngineMetrics.scraped is_success get metric_name turn w) as [rate|].
  - set (m2 := EngineMetrics.report w rate m1).
    destruct (EngineMetrics.round_frame is_success get metric_name turn l2 m2) as (_ & _ & Hg2).
    rewrite !Hg2 by exact (Hne _ Hn2). destruct (EngineMetrics.report_gauges w rate m1) as (He & Hp & Herr).
    split; [exact He|]. intros p Hpred. unfold m2.
    rewrite Hp, Herr.
    assert (Metrics.predicted_cache_hit_rate (w_url w) m1 = Some p) as ->; [|done].
    unfold Metrics.predicted_cache_hit_rate in *. by rewrite Hs1.
  - destruct (EngineMetrics.round_frame is_success get metric_name turn l2 m1) as (_ & _ & Hg2).
    intros name. rewrite Hg2 by exact (Hne _ Hn2). by rewrite Hg1 by exact (Hne _ Hn1).
Qed.

Section witnesses.
#[local] Existing Instance hm_canonical.

Definition rate_name : rstr := default_engine_cache_hit_metric.

(** Worker 0 reports 0.625; worker 1 answers without the metric. *)
Definition engine_get (w : Worker) (_ : rstr) : result rstr (N * result rstr rstr) :=
  Ok (200%N, Ok (if decide (w_id w = 0%N)
                 then render [Sample rate_name None (lit "0.625") None] else lit "up 1")).

(** Three of four prompt blocks were credited to worker 0. *)
Definition routed_metrics : Metrics.t := Metrics.record_hit_stats (lit "http://a") 3 4 no_metrics.

Theorem scrape_round_spec_witness :
  Metrics.gauge (lit "kvrouter_hit_rate_prediction_error")
    [Metrics.worker_label (lit "http://a")]
    (EngineMetrics.scrape_round (λ s, bool_decide (s = 200%N)) engine_get rate_name
       (all_up two_workers) (λ _, all_up two_workers) routed_metrics) =
  Some (f64_div (f64_of_N 1) (f64_of_N 8)).
Proof.
  assert (Hnd : NoDup (w_url <$> WorkerRegistry.all_workers (all_up two_workers)))
    by (apply (bool_decide_unpack _); vm_compute; exact I).
  assert (Hw : worker_a ∈ WorkerRegistry.all_workers (all_up two_workers))
    by (apply (bool_decide_unpack _); vm_compute; exact I).
  destruct (scrape_round_spec (λ s, bool_decide (s = 200%N)) engine_get rate_name
    (all_up two_workers) (λ _, all_up two_workers) routed_metrics Hnd) as (_ & _ & Hws & _).
  specialize (Hws worker_a Hw). revert Hws.
  assert (EngineMetrics.scraped (λ s, bool_decide (s = 200%N)) engine_get rate_name
    (λ _, all_up two_workers) worker_a = Some (f64_div (f64_of_N 5) (f64_of_N 8))) as ->
    by (vm_compute; reflexivity).
  intros [_ Hp]. refine (eq_trans (proj2 (Hp (f64_div (f64_of_N 3) (f64_of_N 4)) _)) _);
    vm_compute; reflexivity.
Defined.
End witnesses.
