(* ===== verification/Stream.v ===== *)
(** * Response streaming ([router-server/src/api.rs], [proxy_stream])

    The body of a proxied response as the state machine of [unfold]: it relays
    the upstream chunks, closes SSE streams with [data: \[DONE\]], counts tokens,
    and records the request once the upstream is drained.  The upstream body
    is the list of items it yields, followed by the end of the stream for ever
    (what a polled-out body of the HTTP client answers). *)

From S2P Require Import Prelude Float64 Hashing Config Request Worker Inflight Belief Prefix Router Metrics.

(** ** Scanning chunks *)

(** [slice::windows]. *)
Fixpoint windows (n : nat) (l : bytes) : list bytes :=
  match l with
  | [] => []
  | x :: l' => if decide (n ≤ length l) then take n l :: windows n l' else []
  end.

Definition done_pattern : bytes := lit "data: [DONE]".

Definition chunk_contains_done (chunk : bytes) : bool :=
  existsb (λ window, bool_decide (window = done_pattern)) (windows 12 chunk).

(** ["content"] with its quotes. *)
Definition MARKER : bytes := [34%N] ++ lit "content" ++ [34%N].

Definition count_content_chunks (chunk : bytes) : N :=
  N.of_nat (length (filter (λ window, window = MARKER) (windows (length MARKER) chunk))).

(** [b"data: \[DONE\]\n\n"]. *)
Definition done_event : bytes := done_pattern ++ [10; 10]%N.

(** ** Telemetry *)

Inductive CompletionDetails :=
  | Single
  | DisaggregatedDetails (prefill_worker : rstr) (prefill_ms kv_transfer_ms : N).

Record RequestTelemetry := {
  rt_request_id : rstr;
  rt_worker : Worker;
  rt_policy : RoutingPolicy;
  rt_matched_prefix_blocks : nat;
  rt_prompt_blocks : nat;
  rt_score : f64;
  rt_started : instant;
  rt_guard : InflightGuard.t;
  rt_details : CompletionDetails;
}.

(** [finish] without its log line. *)
Definition finish (t : RequestTelemetry) (ttft total : duration) (tokens : N)
    (m : Metrics.t) : Metrics.t :=
  let worker := w_url (rt_worker t) in
  let m := Metrics.record_request worker (rt_policy t) 200 m in
  let m := Metrics.record_cache_hit_blocks (N.of_nat (rt_matched_prefix_blocks t)) m in
  let m := Metrics.record_prompt_blocks (N.of_nat (rt_prompt_blocks t)) m in
  let m := Metrics.record_hit_stats worker (N.of_nat (rt_matched_prefix_blocks t))
             (N.of_nat (rt_prompt_blocks t)) m in
  let m := Metrics.record_ttft (rt_policy t) (Metrics.as_secs_f64 ttft) m in
  let m := Metrics.record_request_duration (rt_policy t) (Metrics.as_secs_f64 total) m in
  Metrics.record_tokens_generated worker tokens m.

(** ** The state machine *)

Module ProxyStream.

(** An item of a body: a chunk or an error message. *)
Abbreviation item := (result rstr bytes).

Record state := {
  inner : list item;
  telemetry : RequestTelemetry;
  completion_tokens : option N;
  streaming : bool;
  done_seen : bool;
  first_chunk_after : option duration;
  tokens : N;
  errored : bool;
}.

(** [Instant::elapsed] (saturating). *)
Definition elapsed (now started : instant) : duration := (now - started)%N.

Definition proxy_stream (upstream : list item) (telemetry : RequestTelemetry)
    (completion_tokens : option N) (streaming : bool) : state := {|
  inner := upstream; telemetry := telemetry; completion_tokens := completion_tokens;
  streaming := streaming; done_seen := false; first_chunk_after := None;
  tokens := 0; errored := false |}.

(** The arm [Some(Ok(chunk))]. *)
Definition on_chunk (now : instant) (chunk : bytes) (rest : list item) (s : state) : state := {|
  inner := rest;
  telemetry := telemetry s;
  completion_tokens := completion_tokens s;
  streaming := streaming s;
  done_seen :=
    if streaming s && negb (done_seen s) && chunk_contains_done chunk then true else done_seen s;
  first_chunk_after :=
    match first_chunk_after s with
    | None => Some (elapsed now (rt_started (telemetry s)))
    | Some d => Some d
    end;
  tokens := if streaming s then fetch_add (tokens s) (count_content_chunks chunk) else tokens s;
  errored := errored s |}.

(** The arm [Some(Err(error))]. *)
Definition on_error (rest : list item) (s : state) : state := {|
  inner := rest; telemetry := telemetry s; completion_tokens := completion_tokens s;
  streaming := streaming s; done_seen := done_seen s; first_chunk_after := first_chunk_after s;
  tokens := tokens s; errored := true |}.

Definition set_done (s : state) : state := {|
  inner := inner s; telemetry := telemetry s; completion_tokens := completion_tokens s;
  streaming := streaming s; done_seen := true; first_chunk_after := first_chunk_after s;
  tokens := tokens s; errored := errored s |}.

(** One poll of the [unfold] closure; all clock readings of a poll are [now]. *)
Definition next (now : instant) (s : state) (m : Metrics.t) : option (item * state) * Metrics.t :=
  match inner s with
  | Ok chunk :: rest => (Some (Ok chunk, on_chunk now chunk rest s), m)
  | Err error :: rest => (Some (Err error, on_error rest s), m)
  | [] =>
      if streaming s && negb (done_seen s) then (Some (Ok done_event, set_done s), m)
      else if errored s then
        (None, Metrics.record_request (w_url (rt_worker (telemetry s)))
                 (rt_policy (telemetry s)) 502 m)
      else
        let total := elapsed now (rt_started (telemetry s)) in
        let ttft := default total (first_chunk_after s) in
        let tokens := if streaming s then tokens s else default 0%N (completion_tokens s) in
        (None, finish (telemetry s) ttft total tokens m)
  end.

(** ** The body, its consumer and the in-flight guard

    [None] is a finished body: the state, and the guard in it, are dropped with
    the poll that ends the stream. *)

Abbreviation body := (option state).

(** One poll, run without interruption.  The poll that ends a body calls the
    metrics seven times; [HitRates.Recordings] makes each call a step. *)
Definition poll (now : instant) (b : body) (m : Metrics.t) (tr : InflightTracker.t) :
    option item * body * Metrics.t * InflightTracker.t :=
  match b with
  | None => (None, None, m, tr)
  | Some s =>
      match next now s m with
      | (Some (i, s'), m) => (Some i, Some s', m, tr)
      | (None, m) => (None, None, m, InflightGuard.drop (rt_guard (telemetry s)) tr)
      end
  end.

(** The consumer goes away (or the finished body is dropped). *)
Definition drop_body (b : body) (tr : InflightTracker.t) : InflightTracker.t :=
  match b with
  | None => tr
  | Some s => InflightGuard.drop (rt_guard (telemetry s)) tr
  end.

(** [n] polls at the given times: the items received, then the rest. *)
Fixpoint polls (n : nat) (now : nat → instant) (b : body) (m : Metrics.t)
    (tr : InflightTracker.t) : list item * body * Metrics.t * InflightTracker.t :=
  match n with
  | O => ([], b, m, tr)
  | S n =>
      let '(item_, b, m, tr) := poll (now 0) b m tr in
      let '(rest, b, m, tr) := polls n (λ k, now (S k)) b m tr in
      (match item_ with Some i => [i] | None => [] end ++ rest, b, m, tr)
  end.

(** ** Specification of a drained body *)

Definition has_error (items : list item) : bool :=
  existsb (λ i, match i with Err _ => true | Ok _ => false end) items.

Definition has_done (items : list item) : bool :=
  existsb (λ i, match i with Ok chunk => chunk_contains_done chunk | Err _ => false end) items.

Fixpoint count_tokens (items : list item) : N :=
  match items with
  | [] => 0
  | Ok chunk :: items => count_content_chunks chunk + count_tokens items
  | Err _ :: items => count_tokens items
  end.

(** Position of the first chunk. *)
Fixpoint first_chunk (items : list item) : option nat :=
  match items with
  | [] => None
  | Ok _ :: _ => Some 0
  | Err _ :: items => S <$> first_chunk items
  end.

(** What the client receives. *)
Definition relayed (streaming : bool) (upstream : list item) : list item :=
  upstream ++ (if streaming && negb (has_done upstream) then [Ok done_event] else []).

(** What is recorded when the body is drained; [now k] is the time of poll [k]. *)
Definition recorded (now : nat → instant) (t : RequestTelemetry) (completion_tokens : option N)
    (streaming : bool) (upstream : list item) (m : Metrics.t) : Metrics.t :=
  if has_error upstream
  then Metrics.record_request (w_url (rt_worker t)) (rt_policy t) 502 m
  else
    let total := elapsed (now (length (relayed streaming upstream))) (rt_started t) in
    finish t
      (match first_chunk upstream with
       | Some k => elapsed (now k) (rt_started t)
       | None => total
       end)
      total
      (if streaming then wrap64 (count_tokens upstream) else default 0%N completion_tokens) m.

Section lemmas.
Implicit Types (s : state) (now : nat → instant).

(** A body that still owes the client [DONE] after its remaining items. *)
Definition owes_done s : bool :=
  streaming s && negb (done_seen s || has_done (inner s)).

Definition remaining s : list item :=
  inner s ++ (if owes_done s then [Ok done_event] else []).

(** What a body records when it is polled to its end. *)
Definition outcome now s (m : Metrics.t) : Metrics.t :=
  let t := telemetry s in
  if errored s || has_error (inner s)
  then Metrics.record_request (w_url (rt_worker t)) (rt_policy t) 502 m
  else
    let total := elapsed (now (length (remaining s))) (rt_started t) in
    finish t
      (default total
         (match first_chunk_after s with
          | Some d => Some d
          | None => (λ k, elapsed (now k) (rt_started t)) <$> first_chunk (inner s)
          end))
      total
      (if streaming s then wrap64 (tokens s + count_tokens (inner s))
       else default 0%N (completion_tokens s)) m.

Lemma remaining_chunk at_time chunk rest s :
  inner s = Ok chunk :: rest →
  remaining s = Ok chunk :: remaining (on_chunk at_time chunk rest s).
Proof.
  intros Hi. unfold remaining, owes_done. rewrite Hi. simpl.
  destruct (streaming s), (done_seen s), (chunk_contains_done chunk); done.
Qed.

Lemma remaining_error e rest s :
  inner s = Err e :: rest → remaining s = Err e :: remaining (on_error rest s).
Proof. intros Hi. unfold remaining, owes_done. by rewrite Hi. Qed.

Lemma outcome_chunk now chunk rest s m :
  inner s = Ok chunk :: rest → (tokens s < u64_modulus)%N →
  outcome (λ k, now (S k)) (on_chunk (now 0) chunk rest s) m = outcome now s m.
Proof.
  intros Hi Ht. unfold outcome. rewrite (remaining_chunk (now 0) chunk rest s Hi), Hi.
  cbn [on_chunk errored inner telemetry first_chunk_after streaming tokens completion_tokens
       has_error existsb first_chunk count_tokens length orb].
  destruct (errored s || _); [done|]. f_equal.
  - by destruct (first_chunk_after s).
  - destruct (streaming s); [|done]. unfold fetch_add. by rewrite wrap64_add_l, N.add_assoc.
Qed.

Lemma outcome_error now e rest s m :
  inner s = Err e :: rest →
  outcome (λ k, now (S k)) (on_error rest s) m = outcome now s m.
Proof.
  intros Hi. unfold outcome. rewrite Hi. cbn [on_error errored inner telemetry]. simpl.
  by rewrite orb_true_r.
Qed.

Lemma on_chunk_tokens at_time chunk rest s :
  (tokens s < u64_modulus)%N → (tokens (on_chunk at_time chunk rest s) < u64_modulus)%N.
Proof. intros Ht. simpl. destruct (streaming s); [apply fetch_add_lt|done]. Qed.

Lemma polls_next n now s m tr i s' m' :
  next (now 0) s m = (Some (i, s'), m') →
  polls (S n) now (Some s) m tr =
  let '(items, b, m, tr) := polls n (λ k, now (S k)) (Some s') m' tr in (i :: items, b, m, tr).
Proof. intros Hn. cbn [polls poll]. by rewrite Hn. Qed.

(** A body is drained after one poll per item and one that finds the end. *)
Lemma polls_drain now s m tr :
  (tokens s < u64_modulus)%N →
  polls (S (length (remaining s))) now (Some s) m tr =
  (remaining s, None, outcome now s m, InflightGuard.drop (rt_guard (telemetry s)) tr).
Proof.
  remember (inner s) as l eqn:Hl. symmetry in Hl. revert now s m tr Hl.
  induction l as [|[chunk|e] l IH]; intros now s m tr Hl Ht.
  - unfold remaining, owes_done, outcome. rewrite Hl. simpl.
    unfold next, remaining, owes_done. rewrite Hl. simpl. rewrite !orb_false_r.
    destruct (streaming s && negb (done_seen s)) eqn:Hd; simpl.
    + unfold next. cbn [set_done inner streaming done_seen errored]. rewrite Hl, andb_false_r.
      simpl. destruct (errored s); [done|].
      apply andb_true_iff in Hd as [-> _]. rewrite N.add_0_r, wrap64_small by done.
      by destruct (first_chunk_after s).
    + destruct (errored s); [done|]. rewrite N.add_0_r.
      destruct (streaming s); rewrite ?wrap64_small by done; by destruct (first_chunk_after s).
  - rewrite (remaining_chunk (now 0) chunk l s Hl). cbn [length].
    rewrite (polls_next _ now s m tr (Ok chunk) (on_chunk (now 0) chunk l s) m)
      by (unfold next; by rewrite Hl).
    rewrite (IH (λ k, now (S k)) (on_chunk (now 0) chunk l s) m tr eq_refl
               (on_chunk_tokens _ _ _ _ Ht)).
    by rewrite (outcome_chunk now chunk l s m Hl Ht).
  - rewrite (remaining_error e l s Hl). cbn [length].
    rewrite (polls_next _ now s m tr (Err e) (on_error l s) m)
      by (unfold next; by rewrite Hl).
    rewrite (IH (λ k, now (S k)) (on_error l s) m tr eq_refl Ht).
    by rewrite (outcome_error now e l s m Hl).
Qed.

(** However the consumer behaves, the guard is dropped exactly once: the
    tracker after [n] polls and a final drop is the same for all [n]. *)
Lemma telemetry_next at_time s m i s' m' :
  next at_time s m = (Some (i, s'), m') → telemetry s' = telemetry s.
Proof.
  unfold next. destruct (inner s) as [|[]]; [|by intros [= _ <- _]..].
  destruct (_ && _); [by intros [= _ <- _]|]. by destruct (errored s).
Qed.

Lemma polls_then_drop n now b m tr :
  let '(_, b', _, tr') := polls n now b m tr in drop_body b' tr' = drop_body b tr.
Proof.
  revert now b m tr. induction n as [|n IH]; intros now b m tr; [done|]. cbn [polls].
  destruct b as [s|]; cbn [poll].
  - destruct (next (now 0) s m) as [[[i s']|] m'] eqn:Hn.
    + specialize (IH (λ k, now (S k)) (Some s') m' tr).
      destruct (polls _ _ _ _ _) as [[[items b'] m''] tr'].
      rewrite IH. simpl. by rewrite (telemetry_next _ _ _ _ _ _ Hn).
    + specialize (IH (λ k, now (S k)) None m'
                    (InflightGuard.drop (rt_guard (telemetry s)) tr)).
      destruct (polls _ _ _ _ _) as [[[items b'] m''] tr']. by rewrite IH.
  - specialize (IH (λ k, now (S k)) None m tr).
    by destruct (polls _ _ _ _ _) as [[[items b'] m''] tr'].
Qed.
End lemmas.
End ProxyStream.

(** ** Windows *)

Lemma lookup_windows n l i :
  0 < n →
  windows n l !! i = if decide (i + n ≤ length l) then Some (take n (drop i l)) else None.
Proof.
  intros Hn. revert i. induction l as [|x l IH]; intros i; cbn [windows].
  { rewrite decide_False by (simpl; lia). done. }
  destruct (decide (n ≤ length (x :: l))) as [Hle|Hle].
  - destruct i as [|i]; cbn [lookup list_lookup drop]; [by rewrite decide_True|].
    change (windows n l !! i = if decide (S i + n ≤ length (x :: l))
      then Some (take n (drop i l)) else None).
    rewrite IH. apply decide_ext. simpl. lia.
  - rewrite decide_False by lia. done.
Qed.

Lemma elem_of_windows n l w :
  0 < n → w ∈ windows n l ↔ length w = n ∧ ∃ pre post, l = pre ++ w ++ post.
Proof.
  intros Hn. rewrite list_elem_of_lookup. setoid_rewrite lookup_windows; [|done]. split.
  - intros [i Hi]. case_decide as Hle; [|done]. injection Hi as <-.
    split; [rewrite length_take, length_drop; lia|].
    exists (take i l), (drop n (drop i l)). by rewrite take_drop, take_drop.
  - intros [Hw (pre & post & ->)]. exists (length pre).
    rewrite decide_True by (rewrite !length_app; lia).
    by rewrite drop_app_length, <-Hw, take_app_length.
Qed.

Lemma windows_seq n l :
  0 < n → windows n l = (λ i, take n (drop i l)) <$> seq 0 (S (length l) - n).
Proof.
  intros Hn. apply list_eq. intros i. rewrite lookup_windows, list_lookup_fmap by done.
  destruct (decide (i + n ≤ length l)) as [Hle|Hle].
  - by rewrite lookup_seq_lt by lia.
  - by rewrite lookup_seq_ge by lia.
Qed.

(** ** Properties *)

(** A chunk is recognised as the end marker exactly when it contains the
    bytes [data: \[DONE\]] contiguously. *)
Theorem chunk_contains_done_spec (chunk : bytes) :
  chunk_contains_done chunk = true ↔ ∃ pre post, chunk = pre ++ done_pattern ++ post.
Proof.
  unfold chunk_contains_done. rewrite existsb_exists. split.
  - intros (w & Hw & Hd%bool_decide_eq_true). subst w.
    apply list_elem_of_In, elem_of_windows in Hw as [_ ?]; [done|lia].
  - intros Hinfix. exists done_pattern. split; [|by apply bool_decide_eq_true].
    apply list_elem_of_In, elem_of_windows; [lia|]. by split.
Qed.

(** The token count of a chunk is the number of positions at which the
    marker ["content"] (with quotes) starts. *)
Theorem count_content_chunks_spec (chunk : bytes) :
  count_content_chunks chunk =
  N.of_nat (length (filter (λ i, take (length MARKER) (drop i chunk) = MARKER)
                      (seq 0 (length chunk)))).
Proof.
  unfold count_content_chunks. f_equal. rewrite windows_seq by (vm_compute; lia).
  rewrite length_filter_fmap.
  set (P := λ i, take (length MARKER) (drop i chunk) = MARKER).
  replace (seq 0 (length chunk)) with
    (seq 0 (S (length chunk) - length MARKER) ++
     seq (S (length chunk) - length MARKER)
         (length chunk - (S (length chunk) - length MARKER))).
  2:{ rewrite <-seq_app. f_equal. change (length MARKER) with 9. lia. }
  rewrite filter_app, length_app.
  rewrite (proj2 (length_zero_iff_nil (filter P (seq (S (length chunk) - length MARKER) _)))); [lia|].
  destruct (filter P _) as [|i l] eqn:E; [done|exfalso].
  assert (i ∈ i :: l) as Hi by by left. rewrite <-E in Hi.
  apply list_elem_of_filter in Hi as [HP Hi]. apply elem_of_seq in Hi.
  unfold P in HP. apply (f_equal length) in HP. rewrite length_take, length_drop in HP.
  change (length MARKER) with 9 in *. lia.
Qed.

(** C24.  The proxied body, polled to its end, relays the upstream items
    unchanged and in order, appends the [DONE] event exactly when the response
    streams and no upstream chunk contains the marker, records the request
    exactly once (a 502 when any item was an error, otherwise the completion
    with its latencies and token count), and releases the in-flight slot. *)
Theorem proxy_stream_drains (upstream : list ProxyStream.item) (t : RequestTelemetry)
    (completion_tokens : option N) (streaming : bool) (now : nat → instant)
    (m : Metrics.t) (tr : InflightTracker.t) :
  ProxyStream.polls (S (length (ProxyStream.relayed streaming upstream))) now
    (Some (ProxyStream.proxy_stream upstream t completion_tokens streaming)) m tr =
  (ProxyStream.relayed streaming upstream, None,
   ProxyStream.recorded now t completion_tokens streaming upstream m,
   InflightGuard.drop (rt_guard t) tr).
Proof.
  pose proof (ProxyStream.polls_drain now
    (ProxyStream.proxy_stream upstream t completion_tokens streaming) m tr ltac:(done)) as Hdrain.
  change (ProxyStream.remaining
    (ProxyStream.proxy_stream upstream t completion_tokens streaming))
    with (ProxyStream.relayed streaming upstream) in Hdrain.
  rewrite Hdrain. do 2 f_equal. unfold ProxyStream.outcome, ProxyStream.recorded.
  cbn [ProxyStream.proxy_stream ProxyStream.errored ProxyStream.inner ProxyStream.telemetry
       ProxyStream.first_chunk_after ProxyStream.streaming ProxyStream.tokens
       ProxyStream.completion_tokens orb].
  destruct (ProxyStream.has_error upstream); [done|].
  change (ProxyStream.remaining _) with (ProxyStream.relayed streaming upstream).
  by destruct (ProxyStream.first_chunk upstream).
Qed.

(** The in-flight slot of a proxied response is released exactly once
    whatever the client does: after any number of polls and the final drop of
    the body, drained or abandoned, the tracker is the one with the guard
    dropped once. *)
Theorem body_releases_slot_once (n : nat) (now : nat → instant) (s : ProxyStream.state)
    (m : Metrics.t) (tr : InflightTracker.t) :
  let '(_, b, _, tr') := ProxyStream.polls n now (Some s) m tr in
  ProxyStream.drop_body b tr' = InflightGuard.drop (rt_guard (ProxyStream.telemetry s)) tr.
Proof. exact (ProxyStream.polls_then_drop n now (Some s) m tr). Qed.

(** The end marker is searched chunk by chunk: an upstream that splits it
    between two chunks makes the client receive it twice, and a streamed body
    whose upstream failed still ends with [DONE] after the error. *)
Theorem done_marker_anomalies (e : rstr) :
  (∃ c1 c2, c1 ++ c2 = done_event ∧
     ProxyStream.relayed true [Ok c1; Ok c2] = [Ok c1; Ok c2; Ok done_event]) ∧
  ProxyStream.relayed true [Err e] = [Err e; Ok done_event].
Proof.
  split; [|done]. exists (lit "data: [DO"), (lit "NE]" ++ [10; 10]%N).
  split; vm_compute; reflexivity.
Qed.
