(* ===== verification/Api.v ===== *)
(** * HTTP handlers ([router-server/src/api.rs], [state.rs], [router-core/src/kv_transfer.rs])

    Error mapping, the single-phase proxy, the two-phase disaggregated flow and
    the small endpoints, as functions on the application state.  The HTTP
    client, header validation and the KV connector are parameters; a request
    is one call of a handler followed by polls of the body it returned. *)

From S2P Require Import Prelude Float64 Text Hashing Config Request Worker Inflight Belief Prefix Router Metrics Stream.

(** ** Errors over HTTP *)

Record ApiError := { ae_status : N; ae_type : rstr; ae_message : rstr }.

#[export] Instance ApiError_eq_dec : EqDecision ApiError.
Proof. solve_decision. Defined.

Definition BAD_GATEWAY : N := 502.
Definition SERVICE_UNAVAILABLE : N := 503.
Definition NOT_IMPLEMENTED : N := 501.
Definition INTERNAL_SERVER_ERROR : N := 500.
Definition STATUS_OK : N := 200.

Definition api_error (status : N) (type message : rstr) : ApiError :=
  {| ae_status := status; ae_type := type; ae_message := message |}.

Definition api_upstream (w : Worker) (message : rstr) : ApiError :=
  api_error BAD_GATEWAY (lit "upstream_error")
    (lit "worker " ++ w_url w ++ lit " failed: " ++ message).

Definition api_no_healthy_workers : ApiError :=
  api_error SERVICE_UNAVAILABLE (lit "no_healthy_workers")
    (lit "no healthy workers are currently available").

(** [From<RouterError> for ApiError]. *)
Definition from_router_error (error : RouterError) : ApiError :=
  match error with
  | NoHealthyWorkers _ | NoHealthyWorkersInPool _ _ => api_no_healthy_workers
  | KvTransferFailed _ _ reason => api_error BAD_GATEWAY (lit "kv_transfer_error") reason
  | PolicyNotImplemented policy =>
      api_error NOT_IMPLEMENTED (lit "unimplemented")
        (lit "routing policy `" ++ policy ++ lit "` is not implemented yet")
  | DisaggregatedRequiresTwoPhase =>
      api_error INTERNAL_SERVER_ERROR (lit "invalid_routing_mode")
        (lit "disaggregated policy requires two-phase routing; this endpoint used single-phase")
  | ConfigError message => api_error INTERNAL_SERVER_ERROR (lit "config_error") message
  end.

(** A [JsonRejection] is its status and its text. *)
Definition from_json_rejection (rejection : N * rstr) : ApiError :=
  api_error rejection.1 (lit "invalid_request") rejection.2.

(** The fields of the JSON error body. *)
Record ErrorBody := { eb_message : rstr; eb_type : rstr; eb_code : N }.

Definition into_response (e : ApiError) : N * ErrorBody :=
  (ae_status e, {| eb_message := ae_message e; eb_type := ae_type e; eb_code := ae_status e |}).

(** ** KV transfer *)

(** What the router relies on: a fallible move of [blocks] blocks. *)
Class KvTransfer := kv_transfer : WorkerId → WorkerId → nat → result RouterError unit.

(** [MockKvTransfer] sleeps and succeeds. *)
Definition mock_kv_transfer : KvTransfer := λ _ _ _, Ok tt.

(** ** The application state ([AppState]) *)

Module Api.

Inductive Method := Get | Post.

#[export] Instance Method_eq_dec : EqDecision Method.
Proof. solve_decision. Defined.

(** The handlers, named after the functions that implement them. *)
Inductive Endpoint := ChatCompletions | ListModels | Health | Ready | MetricsText.

Record app {T : Type} := {
  config : RouterConfig;
  router : Router.t T;
  metrics : Metrics.t;
}.
Arguments app : clear implicits.

(** An upstream response: status, headers (first value of a name), body. *)
Record upstream := {
  up_status : N;
  up_header : rstr → option bytes;
  up_body : list ProxyStream.item;
}.

Record response := {
  resp_status : N;
  resp_headers : list (rstr * rstr);
  resp_body : ProxyStream.body;
}.

(** The HTTP world a handler runs in. *)
Record http := {
  (** [post url phase]: the answer to the forwarded request. *)
  post : rstr → option rstr → result rstr upstream;
  get : rstr → result rstr upstream;
  is_success : N → bool;
  (** [Display for StatusCode]. *)
  show_status : N → rstr;
  (** [HeaderValue::to_str] and the validity of a header value. *)
  to_str : bytes → option rstr;
  header_ok : rstr → bool;
  header_error : rstr;
  (** Clock readings: of the index operations of each selection, and of the
      handler itself. *)
  index_clock : nat → nat → instant;
  clock : nat → instant;
}.

Section handlers.
Context {T : Type} `{BI : BeliefIndex T} {HM : HashMapOrder} {BH : BlockHash} {KV : KvTransfer}.
Context (env : http).
Implicit Types (a : app T).

Definition new (config : RouterConfig) : app T := {|
  config := config;
  router := Router.new (WorkerRegistry.from_config (cfg_workers config)) config;
  metrics := {| Metrics.calls := []; Metrics.hit_stats := ∅ |};
|}.

Definition with_router (r : Router.t T) a : app T :=
  {| config := config a; router := r; metrics := metrics a |}.
Definition with_metrics (f : Metrics.t → Metrics.t) a : app T :=
  {| config := config a; router := router a; metrics := f (metrics a) |}.
Definition tracker a : InflightTracker.t := Router.inflight (router a).
Definition with_tracker (tr : InflightTracker.t) a : app T :=
  with_router (Router.set_inflight tr (router a)) a.

(** A guard goes out of scope. *)
Definition drop_guard (g : InflightGuard.t) a : app T :=
  with_tracker (InflightGuard.drop g (tracker a)) a.

Definition chat_url (w : Worker) : rstr :=
  trim_end_matches 47 (w_url w) ++ lit "/v1/chat/completions".

Definition prefix_hit_header (u : upstream) : option rstr :=
  value ← up_header u (lit "x-kv-prefix-hit"); to_str env value.

Definition completion_tokens_header (u : upstream) : option N :=
  value ← up_header u (lit "x-completion-tokens");
  text ← to_str env value;
  parse_u64 text.

Definition response_headers (request_id worker_url : rstr) (matched_blocks : nat)
    (upstream_prefix_hit : option rstr) (completion_tokens : option N) (streaming : bool) :
    list (rstr * rstr) :=
  [(lit "x-request-id", request_id);
   (lit "x-router-worker", worker_url);
   (lit "x-router-matched-prefix", show_N (N.of_nat matched_blocks))]
  ++ match upstream_prefix_hit with
     | Some hit => [(lit "x-kv-prefix-hit", hit)] | None => [] end
  ++ match completion_tokens with
     | Some tokens => [(lit "x-completion-tokens", show_N tokens)] | None => [] end
  ++ (if streaming
      then [(lit "content-type", lit "text/event-stream; charset=utf-8");
            (lit "cache-control", lit "no-cache")]
      else [(lit "content-type", lit "application/json")]).

Definition build_response (u : upstream) (telemetry : RequestTelemetry)
    (upstream_prefix_hit : option rstr) (completion_tokens : option N) (streaming : bool)
    (a : app T) : result ApiError response * app T :=
  let body := Some (ProxyStream.proxy_stream (up_body u) telemetry completion_tokens streaming) in
  let headers := response_headers (rt_request_id telemetry) (w_url (rt_worker telemetry))
    (rt_matched_prefix_blocks telemetry) upstream_prefix_hit completion_tokens streaming in
  if forallb (λ h, header_ok env h.2) headers
  then (Ok {| resp_status := STATUS_OK; resp_headers := headers; resp_body := body |}, a)
  else (Err (api_error INTERNAL_SERVER_ERROR (lit "internal_error") (header_error env)),
        with_tracker (ProxyStream.drop_body body (tracker a)) a).

Definition record_request (worker : rstr) (status : N) a : app T :=
  with_metrics (Metrics.record_request worker (Router.policy (router a)) status) a.

Definition serve_proxied {V} (request : ChatCompletionRequest V) (request_id : rstr)
    (a : app T) : option (result ApiError response * app T) :=
  '(selected, r) ← Router.select_for_chat (index_clock env 0) request (router a);
  let a := with_router r a in
  match selected with
  | Err error => Some (Err (from_router_error error), record_request (lit "unrouted") 503 a)
  | Ok decision =>
      let worker := rd_worker decision in
      let '(guard, tr) := InflightGuard.acquire (tracker a) (w_id worker) in
      let a := with_tracker tr a in
      let started := clock env 0 in
      match post env (chat_url worker) None with
      | Err error =>
          Some (Err (api_upstream worker error),
                drop_guard guard (record_request (w_url worker) 502 a))
      | Ok u =>
          if negb (is_success env (up_status u)) then
            Some (Err (api_upstream worker (lit "upstream returned " ++ show_status env (up_status u))),
                  drop_guard guard (record_request (w_url worker) 502 a))
          else
            Some (build_response u
              {| rt_request_id := request_id; rt_worker := worker;
                 rt_policy := Router.policy (router a);
                 rt_matched_prefix_blocks := rd_matched_prefix_len decision;
                 rt_prompt_blocks := rd_prompt_blocks decision;
                 rt_score := rd_score decision; rt_started := started;
                 rt_guard := guard; rt_details := Single |}
              (prefix_hit_header u) (completion_tokens_header u) (req_stream request) a)
      end
  end.

(** The prefill phase on [prefill]: its in-flight slot is held for the whole
    phase and released at its end, errors included.  Draining the response
    body has no effect on the state; an error while draining only ends it. *)
Definition prefill_phase (prefill : Worker) a : result ApiError N * app T :=
  let '(guard, tr) := InflightGuard.acquire (tracker a) (w_id prefill) in
  let a := with_tracker tr a in
  let started := clock env 0 in
  match post env (chat_url prefill) (Some (lit "prefill")) with
  | Err error =>
      (Err (api_upstream prefill error), drop_guard guard (record_request (w_url prefill) 502 a))
  | Ok u =>
      if negb (is_success env (up_status u)) then
        (Err (api_upstream prefill
           (lit "prefill phase returned " ++ show_status env (up_status u))),
         drop_guard guard (record_request (w_url prefill) 502 a))
      else (Ok (Metrics.as_millis (ProxyStream.elapsed (clock env 1) started)), drop_guard guard a)
  end.

(** The decode phase: what the client sees. *)
Definition decode_phase {V} (request : ChatCompletionRequest V) (request_id : rstr)
    (prefill : Worker) (decode : RouteDecision) (prefill_ms kv_transfer_ms : N) a :
    result ApiError response * app T :=
  let worker := rd_worker decode in
  let '(guard, tr) := InflightGuard.acquire (tracker a) (w_id worker) in
  let a := with_tracker tr a in
  let started := clock env 4 in
  match post env (chat_url worker) (Some (lit "decode")) with
  | Err error =>
      (Err (api_upstream worker error), drop_guard guard (record_request (w_url worker) 502 a))
  | Ok u =>
      if negb (is_success env (up_status u)) then
        (Err (api_upstream worker (lit "decode phase returned " ++ show_status env (up_status u))),
         drop_guard guard (record_request (w_url worker) 502 a))
      else
        build_response u
          {| rt_request_id := request_id; rt_worker := worker;
             rt_policy := Router.policy (router a);
             rt_matched_prefix_blocks := rd_matched_prefix_len decode;
             rt_prompt_blocks := rd_prompt_blocks decode;
             rt_score := rd_score decode; rt_started := started; rt_guard := guard;
             rt_details := DisaggregatedDetails (w_url prefill) prefill_ms kv_transfer_ms |}
          (prefix_hit_header u) (completion_tokens_header u) (req_stream request) a
  end.

(** [transfer_started.elapsed()], recorded in seconds from whole milliseconds. *)
Definition transfer_ms : N :=
  Metrics.as_millis (ProxyStream.elapsed (clock env 3) (clock env 2)).

Definition serve_disaggregated {V} (request : ChatCompletionRequest V) (request_id : rstr)
    (a : app T) : result ApiError response * app T :=
  let chain := chain_hash (canonical_prompt request) (cfg_prompt_block_chars (config a)) in
  let '(selected, r) := Router.select_in_pool (index_clock env 0) Prefill chain (router a) in
  let a := with_router r a in
  match selected with
  | Err error => (Err (from_router_error error), record_request (lit "unrouted") 503 a)
  | Ok prefill =>
      let '(phase, a) := prefill_phase (rd_worker prefill) a in
      match phase with
      | Err e => (Err e, a)
      | Ok prefill_ms =>
          let '(selected, r) :=
            Router.select_in_pool (index_clock env 1) Decode chain (router a) in
          let a := with_router r a in
          match selected with
          | Err error => (Err (from_router_error error), record_request (lit "unrouted") 503 a)
          | Ok decode =>
              match kv_transfer (w_id (rd_worker prefill)) (w_id (rd_worker decode))
                      (length chain) with
              | Err error =>
                  (Err (from_router_error error), record_request (w_url (rd_worker decode)) 502 a)
              | Ok _ =>
                  let a := with_metrics (Metrics.record_kv_transfer
                             (f64_div (f64_of_N transfer_ms) (f64_of_N 1000))) a in
                  decode_phase request request_id (rd_worker prefill) decode
                    prefill_ms transfer_ms a
              end
          end
      end
  end.

(** The payload is what the JSON extractor yields. *)
Definition chat_completions {V} (payload : result (N * rstr) (ChatCompletionRequest V))
    (request_id : rstr) (a : app T) : option (result ApiError response * app T) :=
  match payload with
  | Err rejection => Some (Err (from_json_rejection rejection), a)
  | Ok request =>
      if decide (cfg_routing_policy (config a) = Disaggregated)
      then Some (serve_disaggregated request request_id a)
      else serve_proxied request request_id a
  end.

(** [GET /ready]: the status and the [healthy_workers] field. *)
Definition ready a : N * nat :=
  let healthy := WorkerRegistry.healthy_count (Router.registry (router a)) in
  if WorkerRegistry.any_healthy (Router.registry (router a))
  then (STATUS_OK, healthy) else (SERVICE_UNAVAILABLE, healthy).

(** [GET /metrics], up to rendering. *)
Definition scrape a : app T := with_metrics (Metrics.refresh_gauges (router a)) a.

(** [GET /v1/models]: the body of the first healthy worker's answer. *)
Definition list_models a : result ApiError (list ProxyStream.item) :=
  match WorkerRegistry.healthy_workers (Router.registry (router a)) with
  | [] => Err api_no_healthy_workers
  | worker :: _ =>
      match get env (trim_end_matches 47 (w_url worker) ++ lit "/v1/models") with
      | Err error => Err (api_upstream worker error)
      | Ok u =>
          if negb (is_success env (up_status u))
          then Err (api_upstream worker (lit "upstream returned " ++ show_status env (up_status u)))
          else Ok (up_body u)
      end
  end.

(** [GET /health]: the JSON object of the liveness probe. *)
Definition health : list (rstr * rstr) := [(lit "status", lit "ok")].

(** The routes of the server. *)
Definition build_router : list (rstr * Method * Endpoint) := [
  (lit "/v1/chat/completions", Post, ChatCompletions);
  (lit "/v1/models", Get, ListModels);
  (lit "/health", Get, Health);
  (lit "/ready", Get, Ready);
  (lit "/metrics", Get, MetricsText)].

(** ** A whole request: the handler, [n] polls of the body, the drop *)

Definition finish_request (now : nat → instant) (n : nat) (res : result ApiError response)
    a : list ProxyStream.item * app T :=
  match res with
  | Err _ => ([], a)
  | Ok resp =>
      let '(items, b, m, tr) := ProxyStream.polls n now (resp_body resp) (metrics a) (tracker a) in
      (items, with_tracker (ProxyStream.drop_body b tr) (with_metrics (λ _, m) a))
  end.
End handlers.

(** ** What every handler does to the in-flight slots and the request counter *)

Definition rejected_headers (e : ApiError) : Prop := ae_type e = lit "internal_error".

(** Requests counted by the handler itself; a returned body counts at its end. *)
Definition counted (res : result ApiError response) : nat :=
  match res with
  | Ok _ => 0
  | Err e => if decide (ae_type e = lit "internal_error") then 0 else 1
  end.

Section handled.
Context {T : Type} `{BI : BeliefIndex T} {HM : HashMapOrder} {BH : BlockHash} {KV : KvTransfer}.
Context (env : http).
Implicit Types (a : app T).

(** An error leaves the tracker as it was; a response holds one slot, by the
    guard in its body. *)
Record handled a (res : result ApiError response) a' : Prop := {
  handled_err e : res = Err e → tracker a' = tracker a;
  handled_ok resp : res = Ok resp → ∃ s w, resp_body resp = Some s ∧
    (ProxyStream.tokens s < u64_modulus)%N ∧
    rt_guard (ProxyStream.telemetry s) = (InflightGuard.acquire (tracker a) w).1 ∧
    tracker a' = (InflightGuard.acquire (tracker a) w).2;
  handled_count : Metrics.requests_counted (metrics a') =
                  Metrics.requests_counted (metrics a) + counted res;
}.

(** No two routes overlap, which the server's framework would refuse. *)
Lemma routes_distinct : NoDup ((λ r, (r.1.1, r.1.2)) <$> build_router).
Proof. apply (bool_decide_unpack _). vm_compute. exact I. Qed.

Lemma counted_router_error e : counted (Err (from_router_error e)) = 1.
Proof. by destruct e. Qed.

Lemma counted_upstream w message : counted (Err (api_upstream w message)) = 1.
Proof. done. Qed.

Lemma requests_counted_request worker status a :
  Metrics.requests_counted (metrics (record_request worker status a)) =
  S (Metrics.requests_counted (metrics a)).
Proof.
  unfold record_request, with_metrics, Metrics.record_request. cbn [metrics].
  rewrite Metrics.requests_counted_emit. simpl. lia.
Qed.

Lemma requests_counted_finish t ttft total tokens m :
  Metrics.requests_counted (finish t ttft total tokens m) = S (Metrics.requests_counted m).
Proof.
  unfold finish, Metrics.record_tokens_generated, Metrics.record_request_duration,
    Metrics.record_ttft, Metrics.record_prompt_blocks, Metrics.record_cache_hit_blocks,
    Metrics.record_request.
  rewrite !Metrics.requests_counted_emit, Metrics.requests_counted_hit_stats,
    !Metrics.requests_counted_emit. simpl. lia.
Qed.

Lemma handled_error a a' e :
  tracker a' = tracker a →
  Metrics.requests_counted (metrics a') =
    Metrics.requests_counted (metrics a) + counted (Err e) →
  handled a (Err e) a'.
Proof. intros Ht Hc. by split. Qed.

(** An error after the slot [w] was taken: it is given back. *)
Lemma handled_release a a1 w worker status e :
  InflightTracker.wf (tracker a) →
  tracker a1 = (InflightGuard.acquire (tracker a) w).2 →
  Metrics.requests_counted (metrics a1) = Metrics.requests_counted (metrics a) →
  counted (Err e) = 1 →
  handled a (Err e)
    (drop_guard (InflightGuard.acquire (tracker a) w).1 (record_request worker status a1)).
Proof.
  intros Hwf Ht Hm Hc. apply handled_error.
  - unfold drop_guard, with_tracker, tracker. cbn. fold (tracker a1).
    rewrite Ht. by apply Inflight.drop_acquire.
  - rewrite Hc. transitivity (S (Metrics.requests_counted (metrics a1))); [|lia].
    apply requests_counted_request.
Qed.

Lemma build_response_handled a a1 u t hit tok streaming w :
  InflightTracker.wf (tracker a) →
  rt_guard t = (InflightGuard.acquire (tracker a) w).1 →
  tracker a1 = (InflightGuard.acquire (tracker a) w).2 →
  Metrics.requests_counted (metrics a1) = Metrics.requests_counted (metrics a) →
  handled a (build_response env u t hit tok streaming a1).1
            (build_response env u t hit tok streaming a1).2.
Proof.
  intros Hwf Hg Ht Hm. unfold build_response. case_match; cbn [fst snd].
  - split; [done| |rewrite Hm; simpl; lia]. intros resp [= <-]. by eexists _, w.
  - apply handled_error.
    + unfold with_tracker, tracker. cbn. rewrite Hg. fold (tracker a1). rewrite Ht.
      by apply Inflight.drop_acquire.
    + cbn [with_tracker with_router metrics]. rewrite Hm. unfold counted.
      rewrite decide_True by done. lia.
Qed.

(** The two outcomes of [build_response]. *)
Lemma build_response_cases u t hit tok streaming a :
  (∃ headers, build_response env u t hit tok streaming a =
     (Ok {| resp_status := STATUS_OK; resp_headers := headers;
            resp_body := Some (ProxyStream.proxy_stream (up_body u) t tok streaming) |}, a) ∧
     (lit "x-router-worker", w_url (rt_worker t)) ∈ headers ∧
     (lit "x-router-matched-prefix", show_N (N.of_nat (rt_matched_prefix_blocks t))) ∈ headers) ∨
  (∃ e a', build_response env u t hit tok streaming a = (Err e, a') ∧
     rejected_headers e ∧ metrics a' = metrics a).
Proof.
  unfold build_response. set (headers := response_headers _ _ _ _ _ _). destruct (forallb _ headers).
  - left. exists headers. split; [done|]. unfold headers, response_headers.
    split; [by right; left|by do 2 right; left].
  - right. by eexists _, _.
Qed.

Lemma serve_proxied_handled {V} (request : ChatCompletionRequest V) request_id a :
  InflightTracker.wf (tracker a) →
  ∃ res a', serve_proxied env request request_id a = Some (res, a') ∧ handled a res a'.
Proof.
  intros Hwf. unfold serve_proxied.
  destruct (Router.select_for_chat_frame (index_clock env 0) request (router a))
    as (out & r & -> & (_ & _ & Hin) & _). cbn [mbind option_bind].
  assert (Ht : tracker (with_router r a) = tracker a) by exact Hin.
  destruct out as [d|e]; [|eexists _, _; split; [done|]; apply handled_error].
  - cbn zeta. destruct (InflightGuard.acquire (tracker (with_router r a)) _) as [g tr] eqn:Hacq.
    rewrite Ht in Hacq.
    assert (Hg : g = (InflightGuard.acquire (tracker a) (w_id (rd_worker d))).1) by by rewrite Hacq.
    assert (Htr : tr = (InflightGuard.acquire (tracker a) (w_id (rd_worker d))).2) by by rewrite Hacq.
    rewrite Hg. destruct (post env _ _) as [u|e]; [|].
    + destruct (is_success env (up_status u)); simpl negb; cbv iota.
      * eexists _, _. split; [by rewrite <-surjective_pairing|].
        by apply (build_response_handled a) with (w := w_id (rd_worker d)).
      * eexists _, _. split; [done|]. by apply handled_release.
    + eexists _, _. split; [done|]. by apply handled_release.
  - exact Ht.
  - rewrite requests_counted_request, counted_router_error. cbn. lia.
Qed.

Lemma handled_from a a1 res a' :
  tracker a1 = tracker a →
  Metrics.requests_counted (metrics a1) = Metrics.requests_counted (metrics a) →
  handled a1 res a' → handled a res a'.
Proof. intros Ht Hm [He Ho Hc]. rewrite Ht in He, Ho. rewrite Hm in Hc. by split. Qed.

Lemma prefill_phase_spec prefill a :
  InflightTracker.wf (tracker a) →
  let '(res, a') := prefill_phase env prefill a in
  match res with
  | Ok _ => tracker a' = tracker a ∧ metrics a' = metrics a ∧ config a' = config a
  | Err e => handled a (Err e) a'
  end.
Proof.
  intros Hwf. unfold prefill_phase.
  destruct (InflightGuard.acquire (tracker a) (w_id prefill)) as [g tr] eqn:Hacq.
  assert (g = (InflightGuard.acquire (tracker a) (w_id prefill)).1) as -> by by rewrite Hacq.
  assert (Htr : tr = (InflightGuard.acquire (tracker a) (w_id prefill)).2) by by rewrite Hacq.
  destruct (post env _ _) as [u|e]; [|by apply handled_release].
  destruct (is_success env (up_status u)); simpl negb; cbv iota; [|by apply handled_release].
  split_and!; [|done..]. unfold drop_guard, with_tracker, tracker. cbn. rewrite Htr.
  by apply Inflight.drop_acquire.
Qed.

Lemma decode_phase_handled {V} (request : ChatCompletionRequest V) request_id prefill decode
    prefill_ms transfer_ms a :
  InflightTracker.wf (tracker a) →
  let '(res, a') := decode_phase env request request_id prefill decode prefill_ms transfer_ms a in
  handled a res a'.
Proof.
  intros Hwf. unfold decode_phase.
  destruct (InflightGuard.acquire (tracker a) (w_id (rd_worker decode))) as [g tr] eqn:Hacq.
  assert (Hg : g = (InflightGuard.acquire (tracker a) (w_id (rd_worker decode))).1)
    by by rewrite Hacq.
  assert (Htr : tr = (InflightGuard.acquire (tracker a) (w_id (rd_worker decode))).2)
    by by rewrite Hacq.
  rewrite Hg. destruct (post env _ _) as [u|e]; [|by apply handled_release].
  destruct (is_success env (up_status u)); simpl negb; cbv iota; [|by apply handled_release].
  rewrite (surjective_pairing (build_response _ _ _ _ _ _ _)).
  by apply (build_response_handled a) with (w := w_id (rd_worker decode)).
Qed.

Lemma requests_counted_transfer seconds a :
  Metrics.requests_counted (metrics (with_metrics (Metrics.record_kv_transfer seconds) a)) =
  Metrics.requests_counted (metrics a).
Proof.
  cbn [with_metrics metrics]. unfold Metrics.record_kv_transfer.
  rewrite Metrics.requests_counted_emit. simpl. lia.
Qed.

Lemma tracker_with_pool pool chain k a :
  tracker (with_router (Router.select_in_pool (index_clock env k) pool chain (router a)).2 a) =
  tracker a.
Proof. apply (Router.select_in_pool_frame (index_clock env k) pool chain (router a)). Qed.

Lemma serve_disaggregated_handled {V} (request : ChatCompletionRequest V) request_id a :
  InflightTracker.wf (tracker a) →
  let '(res, a') := serve_disaggregated env request request_id a in handled a res a'.
Proof.
  intros Hwf. unfold serve_disaggregated. set (chain := chain_hash _ _).
  pose proof (tracker_with_pool Prefill chain 0 a) as Ht1.
  destruct (Router.select_in_pool (index_clock env 0) Prefill chain (router a)) as [sel r1].
  cbn [snd] in Ht1. destruct sel as [prefill|e].
  2:{ apply handled_error; [exact Ht1|].
      rewrite requests_counted_request, counted_router_error. cbn. lia. }
  pose proof (prefill_phase_spec (rd_worker prefill) (with_router r1 a)) as Hp.
  rewrite Ht1 in Hp. specialize (Hp Hwf).
  destruct (prefill_phase env (rd_worker prefill) (with_router r1 a)) as [[ms|e] a2].
  2:{ by eapply handled_from; [exact Ht1| |exact Hp]. }
  destruct Hp as (Ht2 & Hm2 & _).
  pose proof (tracker_with_pool Decode chain 1 a2) as Ht3. rewrite Ht2 in Ht3.
  destruct (Router.select_in_pool (index_clock env 1) Decode chain (router a2)) as [sel r3].
  cbn [snd] in Ht3. destruct sel as [decode|e].
  2:{ apply handled_error; [exact Ht3|].
      rewrite requests_counted_request, counted_router_error. cbn. rewrite Hm2. cbn. lia. }
  destruct (kv_transfer _ _ _) as [[]|e].
  2:{ apply handled_error; [exact Ht3|].
      rewrite requests_counted_request, counted_router_error. cbn. rewrite Hm2. cbn. lia. }
  set (a4 := with_metrics _ _).
  assert (Ht4 : tracker a4 = tracker a) by exact Ht3.
  pose proof (decode_phase_handled request request_id (rd_worker prefill) decode ms
                (transfer_ms env) a4) as Hd.
  rewrite Ht4 in Hd. specialize (Hd Hwf).
  destruct (decode_phase env _ _ _ _ _ _ a4) as [res a'].
  eapply handled_from; [exact Ht4| |exact Hd].
  unfold a4. rewrite requests_counted_transfer. cbn. by rewrite Hm2.
Qed.

(** ** Requests from start to end *)

Lemma finish_request_balanced now n a res a' :
  InflightTracker.wf (tracker a) → handled a res a' →
  tracker (finish_request now n res a').2 = tracker a.
Proof.
  intros Hwf [He Ho _]. destruct res as [resp|e]; [|by apply (He e)].
  destruct (Ho resp eq_refl) as (s & w & Hb & _ & Hg & Ht). unfold finish_request.
  pose proof (ProxyStream.polls_then_drop n now (resp_body resp) (metrics a') (tracker a'))
    as Hdrop.
  destruct (ProxyStream.polls _ _ _ _ _) as [[[items b] m] tr]. cbn [snd].
  unfold tracker at 1, with_tracker. cbn. rewrite Hdrop, Hb. simpl. rewrite Hg, Ht.
  by apply Inflight.drop_acquire.
Qed.

(** Enough polls to drain the body of a response. *)
Definition drain_polls (res : result ApiError response) : nat :=
  match res with
  | Ok resp =>
      match resp_body resp with Some s => S (length (ProxyStream.remaining s)) | None => 0 end
  | Err _ => 0
  end.

Lemma finish_request_counted now a res a' :
  handled a res a' →
  Metrics.requests_counted (metrics (finish_request now (drain_polls res) res a').2) =
  Metrics.requests_counted (metrics a) +
  (match res with Ok _ => 1 | Err _ => counted res end).
Proof.
  intros [He Ho Hc]. destruct res as [resp|e]; [|exact Hc].
  destruct (Ho resp eq_refl) as (s & w & Hb & Htok & _ & _).
  unfold finish_request, drain_polls. rewrite Hb.
  rewrite ProxyStream.polls_drain by done. cbn. simpl in Hc.
  unfold ProxyStream.outcome. case_match.
  - unfold Metrics.record_request. rewrite Metrics.requests_counted_emit. simpl. lia.
  - rewrite requests_counted_finish. lia.
Qed.
End handled.
End Api.

(** ** Properties *)

(** C13.  No request leaks an in-flight slot: whatever the payload, the upstream,
    the KV connector and the client do (the body may be drained or abandoned
    after any number of polls), the tracker after the request is the tracker
    before it; the handler always returns. *)
Theorem request_releases_slots {T V} `{BeliefIndex T} {HM : HashMapOrder} {BH : BlockHash}
    {KV : KvTransfer} (env : Api.http) (payload : result (N * rstr) (ChatCompletionRequest V))
    (request_id : rstr) (now : nat → instant) (n : nat) (a : Api.app T)
    (Hwf : InflightTracker.wf (Api.tracker a)) :
  ∃ res a', Api.chat_completions env payload request_id a = Some (res, a') ∧
    Api.tracker (Api.finish_request now n res a').2 = Api.tracker a.
Proof.
  unfold Api.chat_completions. destruct payload as [request|rejection].
  2:{ by eexists _, _. }
  case_decide.
  - pose proof (Api.serve_disaggregated_handled env request request_id a Hwf) as Hh.
    destruct (Api.serve_disaggregated env request request_id a) as [res a'].
    exists res, a'. split; [done|]. by eapply Api.finish_request_balanced.
  - destruct (Api.serve_proxied_handled env request request_id a Hwf) as (res & a' & -> & Hh).
    exists res, a'. split; [done|]. by eapply Api.finish_request_balanced.
Qed.

(** A request is counted exactly once in [kvrouter_requests_total]: by the
    handler when it fails, by the body when it is drained; the only failure
    that is not counted is a response whose headers cannot be built. *)
Theorem request_counted_once {T V} `{BeliefIndex T} {HM : HashMapOrder} {BH : BlockHash}
    {KV : KvTransfer} (env : Api.http) (request : ChatCompletionRequest V)
    (request_id : rstr) (now : nat → instant) (a : Api.app T)
    (Hwf : InflightTracker.wf (Api.tracker a)) :
  ∃ res a', Api.chat_completions env (Ok request) request_id a = Some (res, a') ∧
    Metrics.requests_counted
      (Api.metrics (Api.finish_request now (Api.drain_polls res) res a').2) =
    Metrics.requests_counted (Api.metrics a) +
    (match res with
     | Err e => if decide (ae_type e = lit "internal_error") then 0 else 1
     | Ok _ => 1
     end).
Proof.
  unfold Api.chat_completions. case_decide.
  - pose proof (Api.serve_disaggregated_handled env request request_id a Hwf) as Hh.
    destruct (Api.serve_disaggregated env request request_id a) as [res a'].
    exists res, a'. split; [done|].
    rewrite (Api.finish_request_counted now a res a' Hh). by destruct res.
  - destruct (Api.serve_proxied_handled env request request_id a Hwf) as (res & a' & -> & Hh).
    exists res, a'. split; [done|].
    rewrite (Api.finish_request_counted now a res a' Hh). by destruct res.
Qed.


(** What the client is told, and what is counted, when the proxy has chosen by
    [d] and [answer] is what its worker answered to the forwarded request. *)
Definition proxied_answer {V} (env : Api.http) (request : ChatCompletionRequest V)
    (request_id : rstr) (d : RouteDecision) (policy : RoutingPolicy)
    (answer : result rstr Api.upstream) (m : Metrics.t) (res : result ApiError Api.response)
    (m' : Metrics.t) : Prop :=
  let w := rd_worker d in
  let failed message :=
    res = Err (api_upstream w message) ∧ m' = Metrics.record_request (w_url w) policy 502 m in
  match answer with
  | Err error => failed error
  | Ok u =>
      if Api.is_success env (Api.up_status u) then
        let headers := Api.response_headers request_id (w_url w) (rd_matched_prefix_len d)
          (Api.prefix_hit_header env u) (Api.completion_tokens_header env u) (req_stream request) in
        m' = m ∧
        if forallb (λ h, Api.header_ok env h.2) headers then
          ∃ s, res = Ok {| Api.resp_status := 200; Api.resp_headers := headers;
                           Api.resp_body := Some s |} ∧
            ProxyStream.inner s = Api.up_body u ∧ ProxyStream.streaming s = req_stream request ∧
            rt_worker (ProxyStream.telemetry s) = w ∧
            rt_guard (ProxyStream.telemetry s) = {| InflightGuard.worker := w_id w |}
        else res = Err (api_error 500 (lit "internal_error") (Api.header_error env))
      else failed (lit "upstream returned " ++ Api.show_status env (Api.up_status u))
  end.

(** C33.  Contract of the single-phase proxy (policies other than
    [disaggregated]).  Without a healthy worker it answers 503, counted as
    [unrouted], and nothing else changes.  Otherwise it chooses a healthy worker
    ([both] workers first), learns the prompt for it and answers by what that
    worker answered: 502 naming the worker and counted against it when it could
    not be reached or refused; its body as a stream, under the headers built
    from the decision and its answer, when it accepted, uncounted so far and
    with the slot of the worker held; and an uncounted 500 only when it accepted
    and one of those headers has a value that HTTP does not allow. *)
Theorem serve_proxied_contract {T V} `{BeliefIndexLaws T} {HM : HashMapOrder}
    {BH : BlockHash} (env : Api.http) (request : ChatCompletionRequest V) (request_id : rstr)
    (a : Api.app T) (Hok : bi_ok (Router.prefix_index (Api.router a)))
    (Hp : Router.policy (Api.router a) ≠ Disaggregated) :
  let healthy := WorkerRegistry.healthy_workers (Router.registry (Api.router a)) in
  let policy := Router.policy (Api.router a) in
  let chain := chain_hash (canonical_prompt request) (Router.block_size (Api.router a)) in
  ∃ res a', Api.serve_proxied env request request_id a = Some (res, a') ∧
    (healthy = [] → res = Err api_no_healthy_workers ∧ Api.router a' = Api.router a ∧
       Api.metrics a' = Metrics.record_request (lit "unrouted") policy 503 (Api.metrics a)) ∧
    (healthy ≠ [] → ∃ d, rd_worker d ∈ healthy ∧
       (w_pool (rd_worker d) = Both ∨ ∀ w, w ∈ healthy → w_pool w ≠ Both) ∧
       rd_matched_prefix_len d = Router.believed_prefix (Api.router a) chain (rd_worker d) ∧
       (∀ h, h ∈ chain →
          bi_holds (Router.prefix_index (Api.router a')) (w_id (rd_worker d)) h = true) ∧
       proxied_answer env request request_id d policy
         (Api.post env (Api.chat_url (rd_worker d)) None) (Api.metrics a) res (Api.metrics a')).
Proof.
  destruct (select_for_chat_spec (Api.index_clock env 0) request (Api.router a) Hok)
    as (out & r & Hsel & Hout).
  unfold Api.serve_proxied. rewrite Hsel. cbn [mbind option_bind]. cbn zeta.
  set (chain := chain_hash _ _) in *. unfold RouterSpec.chat_contract in *.
  destruct out as [d|e].
  2:{ destruct Hout as [-> [[He ->]|(_ & Hd & _)]]; [|done].
      eexists _, _. split; [done|]. split; [|by intros Hne]. intros _.
      split_and!; [done| |done]. by destruct a. }
  destruct Hout as ((Hm & Hb & idx & -> & _ & Hh) & Hw & _ & Hpool).
  assert (Hheld : ∀ h, h ∈ chain → bi_holds idx (w_id (rd_worker d)) h = true).
  { intros h Hin. rewrite Hh, bool_decide_true by done. apply orb_true_r. }
  destruct (InflightGuard.acquire _ _) as [g tr] eqn:Hg.
  assert (Hgw : g = {| InflightGuard.worker := w_id (rd_worker d) |}) by by injection Hg as <-.
  assert (Hne : WorkerRegistry.healthy_workers (Router.registry (Api.router a)) = [] → False).
  { intros Hnil. rewrite Hnil in Hw. by apply not_elem_of_nil in Hw. }
  unfold proxied_answer. cbn [from_option].
  destruct (Api.post env (Api.chat_url (rd_worker d)) None) as [u|e] eqn:Hpost.
  2:{ eexists _, _. split; [done|]. split; [by intros ?%Hne|]. intros _. exists d.
      rewrite Hpost. by split_and!. }
  destruct (Api.is_success env (Api.up_status u)) eqn:Hs; simpl negb; cbv iota.
  2:{ eexists _, _. split; [done|]. split; [by intros ?%Hne|]. intros _. exists d.
      rewrite Hpost, Hs. by split_and!. }
  unfold Api.build_response. cbn [rt_request_id rt_worker rt_matched_prefix_blocks].
  destruct (forallb _ _) eqn:Hf; eexists _, _; (split; [done|]); (split; [by intros ?%Hne|]);
    intros _; exists d; rewrite Hpost, Hs, Hf; split_and!; try done.
  by eexists.
Qed.

(** Two phases: when the disaggregated flow answers with a stream, a healthy
    [prefill] worker accepted the prefill request, a healthy [decode] worker
    the decode request, the connector moved the whole chain from the one to
    the other between the two, the transfer was recorded once, and both
    workers are then believed to hold every block of the prompt. *)
Theorem serve_disaggregated_phases {T V} `{BeliefIndexLaws T} {HM : HashMapOrder}
    {BH : BlockHash} {KV : KvTransfer} (env : Api.http) (request : ChatCompletionRequest V)
    (request_id : rstr) (resp : Api.response) (a a' : Api.app T)
    (Hok : bi_ok (Router.prefix_index (Api.router a)))
    (Hres : Api.serve_disaggregated env request request_id a = (Ok resp, a')) :
  let chain := chain_hash (canonical_prompt request) (cfg_prompt_block_chars (Api.config a)) in
  let healthy := WorkerRegistry.healthy_workers (Router.registry (Api.router a)) in
  ∃ prefill decode u u',
    prefill ∈ healthy ∧ w_pool prefill = Prefill ∧ decode ∈ healthy ∧ w_pool decode = Decode ∧
    Api.post env (Api.chat_url prefill) (Some (lit "prefill")) = Ok u ∧
    Api.is_success env (Api.up_status u) = true ∧
    kv_transfer (w_id prefill) (w_id decode) (length chain) = Ok () ∧
    Api.post env (Api.chat_url decode) (Some (lit "decode")) = Ok u' ∧
    Api.is_success env (Api.up_status u') = true ∧
    Api.metrics a' = Metrics.record_kv_transfer
      (f64_div (f64_of_N (Api.transfer_ms env)) (f64_of_N 1000)) (Api.metrics a) ∧
    ∀ h, h ∈ chain →
      bi_holds (Router.prefix_index (Api.router a')) (w_id prefill) h = true ∧
      bi_holds (Router.prefix_index (Api.router a')) (w_id decode) h = true.
Proof.
  intros chain healthy. revert Hres. unfold Api.serve_disaggregated. fold chain.
  destruct (Router.select_in_pool_cases (Api.index_clock env 0) Prefill chain (Api.router a) Hok)
    as [[_ ->]|(prefill & idx1 & -> & Hp & Hpp & Hok1 & Hh1)]; [done|].
  set (a1 := Api.with_router _ a). unfold Api.prefill_phase.
  destruct (InflightGuard.acquire _ _) as [g1 tr1].
  destruct (Api.post env _ (Some (lit "prefill"))) as [u|e] eqn:Hu; [|done].
  destruct (Api.is_success env (Api.up_status u)) eqn:Hsu; simpl negb; cbv iota; [|done].
  set (a2 := Api.drop_guard _ _).
  destruct (Router.select_in_pool_cases (Api.index_clock env 1) Decode chain (Api.router a2) Hok1)
    as [[_ ->]|(decode & idx2 & -> & Hd & Hpd & _ & Hh2)]; [done|].
  destruct (kv_transfer _ _ _) as [[]|e] eqn:Hkv; [|done].
  unfold Api.decode_phase. destruct (InflightGuard.acquire _ (w_id (rd_worker (Router.decision
    (Router.candidate (Api.router a2) chain decode) chain)))) as [g2 tr2].
  destruct (Api.post env _ (Some (lit "decode"))) as [u'|e] eqn:Hu'; [|done].
  destruct (Api.is_success env (Api.up_status u')) eqn:Hsu'; simpl negb; cbv iota; [|done].
  match goal with |- context [Api.build_response env u' ?t ?h ?k ?st ?x] =>
    destruct (Api.build_response_cases env u' t h k st x)
      as [(headers & -> & _ & _)|(e & a3 & -> & _ & _)] end; [|done].
  intros [= _ <-].
  exists prefill, decode, u, u'. split_and!; try done.
  intros h Hin. cbn. rewrite !Hh2. cbn. rewrite !Hh1.
  rewrite (bool_decide_true (w_id prefill = w_id prefill ∧ h ∈ chain)) by done.
  rewrite (bool_decide_true (w_id decode = w_id decode ∧ h ∈ chain)) by done.
  by rewrite !orb_true_r.
Qed.

(** The single-phase refusal never reaches a client: on a state built by
    [AppState::new] the proxy is only called with the policy of the router, so
    no selection fails with [DisaggregatedRequiresTwoPhase]. *)
Theorem two_phase_refusal_unreachable {T V} `{BeliefIndex T} {HM : HashMapOrder}
    {BH : BlockHash} (env : Api.http) (request : ChatCompletionRequest V)
    (a : Api.app T)
    (Hp : Router.policy (Api.router a) = cfg_routing_policy (Api.config a))
    (Hd : cfg_routing_policy (Api.config a) ≠ Disaggregated) :
  ∃ out r, Router.select_for_chat (Api.index_clock env 0) request (Api.router a) = Some (out, r) ∧
    out ≠ Err DisaggregatedRequiresTwoPhase.
Proof.
  destruct (Router.select_for_chat_frame (Api.index_clock env 0) request (Api.router a))
    as (out & r & Hsel & _ & Hout).
  exists out, r. split; [done|]. intros He. apply Hd. rewrite <-Hp. by apply Hout.
Qed.

(** Readiness: [/ready] answers 200 exactly when some worker is healthy, and
    503 otherwise, with the number of healthy workers. *)
Theorem ready_spec {T} {HM : HashMapOrder} (a : Api.app T) :
  let '(status, healthy) := Api.ready a in
  healthy = length (WorkerRegistry.healthy_workers (Router.registry (Api.router a))) ∧
  (status = 200%N ∧ healthy ≠ 0 ∨ status = 503%N ∧ healthy = 0).
Proof.
  unfold Api.ready.
  pose proof (WorkerRegistry.any_healthy_spec (Router.registry (Api.router a))) as Hany.
  rewrite WorkerRegistry.healthy_count_length.
  destruct (WorkerRegistry.any_healthy _); (split; [done|]).
  - left. split; [done|]. destruct (WorkerRegistry.healthy_workers _); [|done].
    by destruct (proj1 Hany eq_refl).
  - right. split; [done|]. destruct (WorkerRegistry.healthy_workers _) as [|w ws]; [done|].
    by discriminate (proj2 Hany ltac:(done)).
Qed.

(** ** The properties at a concrete world *)

Section witnesses.
#[local] Existing Instance hm_canonical.
#[local] Existing Instance mock_kv_transfer.

(** Every worker answers 200 with one chunk. *)
Definition sample_upstream : Api.upstream := {|
  Api.up_status := 200;
  Api.up_header := λ name,
    if decide (name = lit "x-completion-tokens") then Some (lit "12") else None;
  Api.up_body := [Ok (lit "data: hi")];
|}.

Definition sample_http : Api.http := {|
  Api.post := λ _ _, Ok sample_upstream;
  Api.get := λ _, Ok sample_upstream;
  Api.is_success := λ status, bool_decide (200 ≤ status < 300)%N;
  Api.show_status := show_N;
  Api.to_str := Some;
  Api.header_ok := λ _, true;
  Api.header_error := [];
  Api.index_clock := λ _ _, 0%N;
  Api.clock := λ k, (N.of_nat k * 1000000)%N;
|}.

(** A server that is down: connections are refused. *)
Definition refusing_http : Api.http := {|
  Api.post := λ _ _, Err (lit "connection refused");
  Api.get := λ _, Err (lit "connection refused");
  Api.is_success := Api.is_success sample_http;
  Api.show_status := show_N;
  Api.to_str := Some;
  Api.header_ok := λ _, true;
  Api.header_error := [];
  Api.index_clock := λ _ _, 0%N;
  Api.clock := λ _, 0%N;
|}.

Definition sample_app (policy : RoutingPolicy) (workers : list WorkerConfig) :
    Api.app PrefixIndex.t := {|
  Api.config := sample_config policy workers;
  Api.router := sample_router policy workers;
  Api.metrics := no_metrics;
|}.

Definition app_a := sample_app CacheAware two_workers.
Definition app_pd := sample_app Disaggregated prefill_decode.

Lemma app_a_tracker_wf : InflightTracker.wf (Api.tracker app_a).
Proof. repeat constructor. Qed.

Lemma app_pd_index_ok : bi_ok (Router.prefix_index (Api.router app_pd)).
Proof. exact index_ok_new. Qed.

Example header_tokens : Api.completion_tokens_header sample_http sample_upstream = Some 12%N.
Proof. vm_compute. reflexivity. Qed.

Theorem request_releases_slots_witness :
  ∃ res a', Api.chat_completions refusing_http (Ok hello) (lit "id") app_a = Some (res, a') ∧
    Api.tracker (Api.finish_request still 1 res a').2 = Api.tracker app_a.
Proof.
  exact (request_releases_slots refusing_http (Ok hello) (lit "id") still 1 app_a
           app_a_tracker_wf).
Defined.

Theorem request_counted_once_witness :
  ∃ res a', Api.chat_completions sample_http (Ok hello) (lit "id") app_a = Some (res, a') ∧
    Metrics.requests_counted
      (Api.metrics (Api.finish_request still (Api.drain_polls res) res a').2) =
    Metrics.requests_counted (Api.metrics app_a) +
    (match res with
     | Err e => if decide (ae_type e = lit "internal_error") then 0 else 1
     | Ok _ => 1
     end).
Proof.
  exact (request_counted_once sample_http hello (lit "id") still app_a app_a_tracker_wf).
Defined.

(** Worker 0 accepts, and its answer is relayed. *)
Theorem serve_proxied_contract_witness :
  ∃ resp a', Api.serve_proxied sample_http hello (lit "id") app_a = Some (Ok resp, a') ∧
    (lit "x-router-worker", lit "http://a") ∈ Api.resp_headers resp ∧
    ∃ d, rd_worker d = worker_a ∧ proxied_answer sample_http hello (lit "id") d CacheAware
      (Ok sample_upstream) (Api.metrics app_a) (Ok resp) (Api.metrics a').
Proof.
  destruct (serve_proxied_contract sample_http hello (lit "id") app_a)
    as (res & a' & Hs & _ & Hc); [exact index_ok_new|discriminate|].
  destruct Hc as (d & Hw & _ & _ & _ & Ha); [vm_compute; discriminate|].
  destruct res as [resp|e]; [|exfalso; vm_compute in Hs; discriminate].
  exists resp, a'. split; [exact Hs|]. 
  assert (Hd : rd_worker d = worker_a).
  { cbn [proxied_answer] in Ha. destruct Ha as (_ & s & Hr & _ & _ & Hsw & _).
    rewrite <-Hsw. injection Hr as Hr. 
    assert (Hb : (λ x : result ApiError Api.response * Api.app PrefixIndex.t,
        match x.1 with Ok resp => (λ s, rt_worker (ProxyStream.telemetry s)) <$> Api.resp_body resp
        | Err _ => None end) <$> Api.serve_proxied sample_http hello (lit "id") app_a =
        Some (Some worker_a)) by (vm_compute; reflexivity).
    rewrite Hs, Hr in Hb. by injection Hb. }
  split; [|by exists d].
  destruct Ha as (_ & s & Hr & _). injection Hr as ->. cbn [Api.resp_headers]. rewrite Hd.
  by right; left.
Defined.

Definition served_pd : result ApiError Api.response * Api.app PrefixIndex.t :=
  Api.serve_disaggregated sample_http hello (lit "id") app_pd.

Definition served_response : Api.response :=
  match served_pd.1 with
  | Ok resp => resp
  | Err _ => {| Api.resp_status := 0; Api.resp_headers := []; Api.resp_body := None |}
  end.

Theorem serve_disaggregated_phases_witness :
  Api.metrics served_pd.2 = Metrics.record_kv_transfer
    (f64_div (f64_of_N (Api.transfer_ms sample_http)) (f64_of_N 1000)) (Api.metrics app_pd).
Proof.
  assert (Hres : Api.serve_disaggregated sample_http hello (lit "id") app_pd =
                 (Ok served_response, served_pd.2)) by (vm_compute; reflexivity).
  destruct (serve_disaggregated_phases sample_http hello (lit "id") served_response
    app_pd served_pd.2 app_pd_index_ok Hres)
    as (p & d & u & u' & _ & _ & _ & _ & _ & _ & _ & _ & _ & Hm & _).
  exact Hm.
Defined.

Theorem two_phase_refusal_unreachable_witness :
  ∃ out r, Router.select_for_chat (Api.index_clock sample_http 0) hello (Api.router app_a) =
      Some (out, r) ∧ out ≠ Err DisaggregatedRequiresTwoPhase.
Proof.
  apply (two_phase_refusal_unreachable sample_http hello app_a).
  - reflexivity.
  - discriminate.
Defined.
End witnesses.
