(* ===== verification/Widths.v ===== *)
(** * Machine widths

    The model computes with unbounded numbers; here every quantity that the
    program keeps in 64 bits is shown to fit: the hashes of [DefaultHasher], and
    ids, cursor and counters in every reachable state of the server. *)

From S2P Require Import Prelude Float64 Text Hashing Config Request Worker Inflight Belief Prefix Router Discovery Health System PrometheusText Metrics EngineMetrics Stream Api.

(** ** Bit operations stay within 64 bits *)

Module Bits.
Local Open Scope N_scope.

Definition fits (n x : N) : Prop := x < 2 ^ n.

Lemma fits_bits n x : fits n x ↔ ∀ i, n ≤ i → N.testbit x i = false.
Proof.
  unfold fits. split.
  - intros Hx i Hi. rewrite <-(N.mod_small x (2 ^ n)) by done. by apply N.mod_pow2_bits_high.
  - intros Hx. assert (x = x mod 2 ^ n) as ->; [|by apply N.mod_lt, N.pow_nonzero].
    apply N.bits_inj. intros i. destruct (N.lt_ge_cases i n) as [Hi|Hi].
    + by rewrite N.mod_pow2_bits_low.
    + by rewrite N.mod_pow2_bits_high, Hx.
Qed.

Lemma fits_lor n x y : fits n x → fits n y → fits n (N.lor x y).
Proof. rewrite !fits_bits. intros Hx Hy i Hi. by rewrite N.lor_spec, Hx, Hy. Qed.

Lemma fits_lxor n x y : fits n x → fits n y → fits n (N.lxor x y).
Proof. rewrite !fits_bits. intros Hx Hy i Hi. by rewrite N.lxor_spec, Hx, Hy. Qed.

Lemma fits_shiftr n k x : fits n x → fits n (N.shiftr x k).
Proof. rewrite !fits_bits. intros Hx i Hi. rewrite N.shiftr_spec by lia. apply Hx. lia. Qed.

Lemma fits_shiftl n k x : fits n x → fits (n + k) (N.shiftl x k).
Proof. rewrite !fits_bits. intros Hx i Hi. rewrite N.shiftl_spec_high by lia. apply Hx. lia. Qed.

Lemma fits_mono n m x : n ≤ m → fits n x → fits m x.
Proof. rewrite !fits_bits. intros Hnm Hx i Hi. apply Hx. lia. Qed.

Lemma fits_land_255 x : fits 8 (N.land x 255).
Proof. unfold fits. change 255 with (N.ones 8). rewrite N.land_ones. by apply N.mod_lt. Qed.

Lemma fits_wrap64 x : fits 64 (wrap64 x).
Proof. apply wrap64_lt. Qed.

Create HintDb bits.
#[export] Hint Resolve fits_lor fits_lxor fits_shiftr fits_land_255 fits_wrap64 : bits.

Lemma fits_fetch_add x y : fits 64 (fetch_add x y).
Proof. apply fetch_add_lt. Qed.
#[export] Hint Resolve fits_fetch_add : bits.

Lemma fits_le_word bs :
  Forall (fits 8) bs → fits (8 * N.of_nat (length bs)) (DefaultHasher.le_word bs).
Proof.
  induction 1 as [|b bs Hb _ IH]; [done|]. cbn [DefaultHasher.le_word length].
  apply fits_lor.
  - eapply fits_mono; [|exact Hb]. lia.
  - eapply fits_mono; [|by apply fits_shiftl]. lia.
Qed.

Lemma fits_le_bytes k x : Forall (fits 8) (DefaultHasher.to_le_bytes k x).
Proof.
  revert x. induction k as [|k IH]; intros x; cbn [DefaultHasher.to_le_bytes]; [done|].
  constructor; [apply fits_land_255|done].
Qed.
End Bits.

(** ** The hasher *)

Module HashWidth.
Import DefaultHasher Bits.
Local Open Scope N_scope.

Definition ok (s : sip_state) : Prop :=
  fits 64 (v0 s) ∧ fits 64 (v1 s) ∧ fits 64 (v2 s) ∧ fits 64 (v3 s).

Lemma rotl_fits x b : fits 64 x → fits 64 (rotl x b).
Proof. intros Hx. unfold rotl. auto with bits. Qed.
#[local] Hint Resolve rotl_fits : bits.

Lemma compress_ok s : ok s → ok (compress s).
Proof. intros (H0 & H1 & H2 & H3). unfold compress, ok; cbn [v0 v1 v2 v3]. split_and!; auto 12 with bits. Qed.

Lemma mix_ok s m : fits 64 m → ok s → ok (mix s m).
Proof.
  intros Hm (H0 & H1 & H2 & H3). unfold mix.
  destruct (compress_ok (SipState (v0 s) (v1 s) (v2 s) (N.lxor (v3 s) m))) as (C0 & C1 & C2 & C3);
    [unfold ok; cbn [v0 v1 v2 v3]; split_and!; auto with bits|].
  unfold ok; cbn [v0 v1 v2 v3]. split_and!; auto with bits.
Qed.

(** Fewer than eight bytes are left over. *)
Lemma absorb_ok bs s :
  Forall (fits 8) bs → ok s →
  let '(s', tail) := absorb s bs in
  ok s' ∧ Forall (fits 8) tail ∧ (length tail < 8)%nat.
Proof.
  intros Hbs Hs. remember (length bs) as n eqn:Hn. revert bs s Hn Hbs Hs.
  induction n as [n IH] using lt_wf_ind. intros bs s -> Hbs Hs.
  do 8 (destruct bs as [|? bs]; [cbn; split_and!; [done|done|lia]|]).
  cbn [absorb]. apply IH with (m := length bs); [cbn; lia|done| |].
  - by do 8 apply Forall_inv_tail in Hbs.
  - apply mix_ok; [|done].
    assert (H8 : Forall (fits 8) [n; n0; n1; n2; n3; n4; n5; n6]).
    { repeat (apply Forall_cons in Hbs as [? Hbs]). by repeat constructor. }
    exact (fits_le_word _ H8).
Qed.

Lemma finish_fits bs : Forall (fits 8) bs → fits 64 (finish bs).
Proof.
  intros Hbs. unfold finish. pose proof (absorb_ok bs init Hbs) as Ha.
  destruct (absorb init bs) as [s tail]. destruct Ha as (Hs & Ht & Hl).
  { unfold ok, init. cbn [v0 v1 v2 v3]. by split_and!. }
  set (b := N.lor _ (le_word tail)).
  assert (Hb : fits 64 b).
  { apply fits_lor.
    - exact (fits_shiftl 8 56 _ (fits_land_255 _)).
    - eapply fits_mono; [|by apply fits_le_word]. lia. }
  destruct (mix_ok s b Hb Hs) as (M0 & M1 & M2 & M3).
  set (m := mix s b) in *.
  destruct (compress_ok (compress (compress (SipState (v0 m) (v1 m) (N.lxor (v2 m) 255) (v3 m)))))
    as (C0 & C1 & C2 & C3).
  { do 2 apply compress_ok. unfold ok; cbn [v0 v1 v2 v3]. split_and!; auto with bits.
    apply fits_lxor; [done|]. unfold fits. lia. }
  auto with bits.
Qed.

Lemma block_hash_fits prev block : fits 64 (default_block_hash prev block).
Proof.
  apply finish_fits, Forall_app. split.
  - destruct prev; [apply fits_le_bytes|done].
  - apply Forall_app. split; [apply fits_le_bytes|].
    apply Forall_forall. intros b (c & Hb & _)%list_elem_of_bind.
    pose proof (fits_le_bytes 4 c) as Hc. rewrite Forall_forall in Hc. by apply Hc.
Qed.
End HashWidth.

(** Block hashes are [u64]s: every hash of a chain that the program computes
    is below 2^64, and its shard index is one of the 64 shards. *)
Theorem chain_hash_is_u64 (prompt : rstr) (block_size : N) (h : N)
    (Hh : h ∈ chain_hash (H := default_block_hash) prompt block_size) :
  (h < u64_modulus)%N ∧ PrefixIndex.shard_index h < length (PrefixIndex.shards PrefixIndex.new).
Proof.
  split; [|rewrite (PrefixIndex.sharded_length _ ShardedRefinesFlat.sharded_new);
           apply ShardedRefinesFlat.shard_index_lt].
  unfold chain_hash in Hh. rewrite chain_loop_inputs in Hh.
  apply list_elem_of_fmap in Hh as ([prev block] & -> & _).
  exact (HashWidth.block_hash_fits prev block).
Qed.

(** ** Reachable states *)

Module StateWidths.
Import System.

Section widths.
Context {T : Type} `{BIL : BeliefIndexLaws T} {HM : HashMapOrder} {BH : BlockHash}.
Implicit Types (s : t T).

Record widths s : Prop := {
  widths_cursor : (Router.next_worker (router s) < u64_modulus)%N;
  widths_counts : InflightTracker.wf (Router.inflight (router s));
}.

Lemma tracker_wf_alter f i tr :
  (∀ c, (f c < u64_modulus)%N) → InflightTracker.wf tr →
  InflightTracker.wf {| InflightTracker.counts := alter f i (InflightTracker.counts tr) |}.
Proof.
  intros Hf Htr. unfold InflightTracker.wf in *. cbn. rewrite Forall_lookup in *.
  intros j c. destruct (decide (i = j)) as [<-|Hne].
  - rewrite list_lookup_alter_eq. intros (c' & _ & ->)%fmap_Some_1. apply Hf.
  - rewrite list_lookup_alter_ne by done. apply Htr.
Qed.

Lemma tracker_wf_grow n tr :
  InflightTracker.wf tr → InflightTracker.wf (InflightTracker.ensure_capacity n tr).
Proof.
  intros Htr. unfold InflightTracker.ensure_capacity. case_decide; [|done].
  apply Forall_app. split; [done|]. by apply Forall_replicate.
Qed.

Lemma mark_keeps w healthy (r : Router.t T) :
  Router.next_worker (Health.mark w healthy r) = Router.next_worker r ∧
  Router.inflight (Health.mark w healthy r) = Router.inflight r.
Proof.
  unfold Health.mark. destruct (WorkerRegistry.set_healthy _ _ _) as [changed reg].
  by destruct (changed && _).
Qed.

Lemma pool_keeps_cursor now pool chain (r : Router.t T) :
  Router.next_worker (Router.select_in_pool now pool chain r).2 = Router.next_worker r.
Proof.
  unfold Router.select_in_pool, Router.choose, Router.pick_best. case_decide; [done|].
  destruct (Router.score_all_frame now 0 chain (Router.pool_candidates pool r) r) as [idx Hidx].
  destruct (Router.score_all _ _ _ _ _) as [ss r']. cbn [snd] in Hidx. subst r'.
  by destruct (max_by _ ss).
Qed.

Lemma widths_step s s' : step s s' → inv s → widths s → widths s'.
Proof.
  intros Hstep Hinv [Hc Ht].
  destruct Hstep as [V now request out r s Hsel|now pool chain out r s Hsel|w healthy s
    |now ttl cap s|ev sl st s Hn Hev|s|w s|g gs1 gs2 s Hg].
  - destruct (select_for_chat_spec now request (router s) (inv_index s Hinv))
      as (out' & r' & Hsel' & Hout).
    destruct (Router.select_for_chat_frame now request (router s)) as (? & ? & Hf & (_ & _ & Hin) & _).
    rewrite Hsel in Hsel', Hf. simplify_eq. split; [|by cbn; rewrite Hin].
    cbn. destruct out'.
    + destruct Hout as ((_ & _ & idx & -> & _) & _). cbn. case_decide; [apply fetch_add_lt|done].
    + by destruct Hout as [-> _].
  - pose proof (pool_keeps_cursor now pool chain (router s)) as Hk.
    destruct (Router.select_in_pool_frame now pool chain (router s)) as (_ & _ & Hin).
    rewrite Hsel in Hk, Hin. cbn in Hk, Hin. split; cbn; [by rewrite Hk|by rewrite Hin].
  - destruct (mark_keeps w healthy (router s)) as [Hk Hin]. split; cbn; [by rewrite Hk|by rewrite Hin].
  - by split.
  - unfold Watch.handle_event in Hev. destruct (Discovery.reconcile _ _) as [[removed added] d].
    injection Hev as <- <-. split; cbn; case_decide; cbn; try done. by apply tracker_wf_grow.
  - by split.
  - split; [done|]. cbn. apply tracker_wf_alter; [|done]. intros; apply fetch_add_lt.
  - split; [done|]. cbn. apply tracker_wf_alter; [|done]. intros; apply fetch_sub_lt.
Qed.

Lemma reachable config s :
  (N.of_nat (length (cfg_workers config)) < u64_modulus)%N →
  rtc step (initial config) s → inv s ∧ widths s.
Proof.
  intros Hn Hs. assert (inv (initial (T := T) config)) as Hi by by apply inv_initial.
  assert (widths (initial (T := T) config)) as Hw by (split; [done|]; by apply Forall_replicate).
  induction Hs as [s|s1 s2 s3 Hstep _ IH]; [done|].
  apply IH; [by eapply inv_step|by eapply widths_step].
Qed.

Lemma wf_count worker tr :
  InflightTracker.wf tr → (InflightTracker.count worker tr < u64_modulus)%N.
Proof.
  unfold InflightTracker.wf, InflightTracker.count, InflightTracker.slot.
  rewrite Forall_lookup. intros Htr.
  destruct (InflightTracker.counts tr !! N.to_nat worker) as [c|] eqn:Hl; [|done].
  by eapply Htr.
Qed.
End widths.
End StateWidths.

(** The model and the machine agree on widths: in every state of [System] the
    round-robin cursor, every in-flight counter, every registered or discovered
    id and every id in the index are below [2^64].  This is a check of the
    model, which keeps them in [N] with the wrap-around of [fetch_add] and
    [fetch_sub] written out; in the program the type [u64] gives it. *)
Theorem reachable_widths {T} `{BeliefIndexLaws T} {HM : HashMapOrder} {BH : BlockHash}
    (config : RouterConfig) (s : System.t T)
    (Hn : (N.of_nat (length (cfg_workers config)) < u64_modulus)%N)
    (Hs : rtc System.step (System.initial config) s) :
  let r := System.router s in
  (Router.next_worker r < u64_modulus)%N ∧
  (∀ w, (InflightTracker.count w (Router.inflight r) < u64_modulus)%N) ∧
  (∀ id w, WorkerRegistry.get id (Router.registry r) = Some w →
     w_id w = id ∧ (id < u64_modulus)%N) ∧
  (∀ url id, System.discovered s !! url = Some id → (id < u64_modulus)%N) ∧
  (∀ id h, bi_holds (Router.prefix_index r) id h = true → (id < u64_modulus)%N).
Proof.
  destruct (StateWidths.reachable config s Hn Hs) as [Hinv [Hc Ht]].
  pose proof (System.inv_wf s Hinv) as Hwf. cbn zeta.
  assert (Hreg : ∀ id w, WorkerRegistry.get id (Router.registry (System.router s)) = Some w →
     w_id w = id ∧ (id < u64_modulus)%N).
  { unfold WorkerRegistry.get. intros id w (st & Hl & ->)%fmap_Some.
    split; [by apply (WorkerRegistry.wf_id _ Hwf) in Hl|].
    pose proof (WorkerRegistry.wf_bound _ Hwf _ _ Hl). pose proof (WorkerRegistry.wf_next _ Hwf). lia. }
  assert (Hsome : ∀ id, is_Some (WorkerRegistry.workers (Router.registry (System.router s)) !! id) →
    (id < u64_modulus)%N).
  { intros id [st Hl]. apply (Hreg id (ws_worker st)). unfold WorkerRegistry.get. by rewrite Hl. }
  split_and!; [done| |done| |].
  - intros w. by apply StateWidths.wf_count.
  - intros url id Hid. apply Hsome.
    destruct (Discovery.ok_owned _ (System.inv_discovery s Hinv) url id Hid) as [h Hl]. by eexists.
  - intros id h Hh. apply Hsome. apply (System.inv_beliefs s Hinv) in Hh.
    apply WorkerRegistry.is_healthy_spec in Hh as (st & Hl & _). by eexists.
Qed.

Section witnesses.
#[local] Existing Instance hm_canonical.

Theorem chain_hash_is_u64_witness :
  (16360918370999562615 < u64_modulus)%N ∧
  PrefixIndex.shard_index 16360918370999562615 < length (PrefixIndex.shards PrefixIndex.new).
Proof.
  apply (chain_hash_is_u64 (canonical_prompt hello) (cfg_prompt_block_chars sys_config)).
  apply (bool_decide_unpack _). vm_compute. exact I.
Defined.

(** A probe, a request and the guard of that request. *)
Theorem reachable_widths_witness :
  let tr := InflightTracker.increment 0 (Router.inflight (System.router sys_served)) in
  let s := {| System.router := Router.set_inflight tr (System.router sys_served);
              System.slices := ∅; System.discovered := ∅;
              System.guards := [{| InflightGuard.worker := 0%N |}] |} in
  InflightTracker.count 0 tr = 1%N ∧
  (Router.next_worker (System.router s) < u64_modulus)%N ∧
  (∀ id h, bi_holds (Router.prefix_index (System.router s)) id h = true →
     (id < u64_modulus)%N).
Proof.
  intros tr s. split; [vm_compute; reflexivity|].
  assert (Hs : rtc System.step (System.initial sys_config) s).
  { eapply rtc_l; [apply (System.step_probe worker_a true)|].
    eapply rtc_l with (y := sys_served).
    - apply (System.step_chat still hello (default (Err DisaggregatedRequiresTwoPhase)
        (fst <$> Router.select_for_chat still hello (System.router sys_up)))).
      vm_compute. reflexivity.
    - eapply rtc_l; [apply (System.step_acquire 0%N sys_served)|apply rtc_refl]. }
  destruct (reachable_widths sys_config s) as (Hc & _ & _ & _ & Hh);
    [vm_compute; reflexivity|exact Hs|]. by split.
Defined.
End witnesses.
