(* ===== verification/Scores.v ===== *)
(** * Scores are numbers

    The arithmetic of [Router::score_worker] in binary64: as long as the
    configured weights are below 2^900 in magnitude, no product overflows and
    the score of every worker is a finite number, so candidates are totally
    ordered and cache-aware routing is optimal in every reachable state. *)

From Stdlib Require Import SpecFloat.
From S2P Require Import Prelude Float64 Hashing Config Request Worker Inflight Belief Prefix Router Discovery Health System Widths.

(** ** Magnitudes of rounded results *)

Module Magnitude.
Local Open Scope Z_scope.

Abbreviation emin := (SpecFloat.emin 53 1024).
Abbreviation fexp := (SpecFloat.fexp 53 1024).

(** [x] is below [2 ^ k] in magnitude, with exponent at most [e]. *)
Definition below (k e : Z) (x : f64) : Prop :=
  match x with
  | S754_zero _ => True
  | S754_finite _ m ex => ∃ j, 0 ≤ j ∧ Z.pos m < 2 ^ j ∧ j + ex ≤ k ∧ ex ≤ e
  | _ => False
  end.

Lemma below_finite k e x : below k e x → f64_is_finite x = true.
Proof. by destruct x. Qed.

Lemma below_mono k k' e e' x : k ≤ k' → e ≤ e' → below k e x → below k' e' x.
Proof.
  intros Hk He. destruct x as [| | |s m ex]; simpl; try done.
  intros (j & ? & ? & ? & ?). exists j. split_and!; lia || done.
Qed.

Lemma digits_pow m : Z.pos m < 2 ^ Z.pos (digits2_pos m) ∧ 2 ^ (Z.pos (digits2_pos m) - 1) ≤ Z.pos m.
Proof.
  induction m as [m [IH1 IH2]|m [IH1 IH2]|]; cbn [digits2_pos]; rewrite ?Pos2Z.inj_succ.
  - rewrite Z.pow_succ_r by done. split; [lia|].
    replace (Z.succ _ - 1) with (Z.succ (Z.pos (digits2_pos m) - 1)) by lia.
    rewrite Z.pow_succ_r by lia. lia.
  - rewrite Z.pow_succ_r by done. split; [lia|].
    replace (Z.succ _ - 1) with (Z.succ (Z.pos (digits2_pos m) - 1)) by lia.
    rewrite Z.pow_succ_r by lia. lia.
  - done.
Qed.

Lemma digits_le m j : 0 ≤ m → 0 ≤ j → m < 2 ^ j → Zdigits2 m ≤ j.
Proof.
  intros Hm Hj Hlt. destruct m as [|m|m]; [done| |done]. cbn [Zdigits2].
  destruct (digits_pow m) as [_ Hlo].
  apply Z.nlt_ge. intros Hgt.
  assert (2 ^ j ≤ 2 ^ (Z.pos (digits2_pos m) - 1)) by (apply Z.pow_le_mono_r; lia). lia.
Qed.

Lemma fexp_le d k : d ≤ k → fexp d ≤ Z.max (k - 53) emin.
Proof. unfold SpecFloat.fexp. lia. Qed.

(** ** Shifting right *)

Lemma shr_1_half r : 0 ≤ shr_m r → shr_m (shr_1 r) = shr_m r / 2.
Proof.
  destruct r as [m b s]. intros Hm. destruct m as [|[p|p|]|]; try done; cbn -[Z.div].
  - rewrite Pos2Z.inj_xI. symmetry. rewrite Z.mul_comm, Z.div_add_l by done. done || lia.
  - rewrite Pos2Z.inj_xO. symmetry. rewrite Z.mul_comm. by apply Z.div_mul.
Qed.

Lemma shr_iter p r :
  0 ≤ shr_m r → shr_m (SpecFloat.iter_pos shr_1 p r) = shr_m r / 2 ^ Z.pos p.
Proof.
  revert r. induction p as [p IH|p IH|]; intros r Hr; cbn [SpecFloat.iter_pos].
  - assert (0 ≤ shr_m (shr_1 r)) by (rewrite shr_1_half by done; by apply Z.div_pos).
    rewrite IH, IH by (rewrite ?IH; try apply Z.div_pos; done || lia).
    rewrite shr_1_half by done. rewrite !Z.div_div by (done || lia). f_equal.
    rewrite Pos2Z.inj_xI, Z.pow_add_r, Z.mul_comm, <-Z.add_diag, Z.pow_add_r by lia. lia.
  - rewrite IH, IH by (rewrite ?IH; try apply Z.div_pos; done || lia).
    rewrite Z.div_div by lia. f_equal. rewrite <-Z.pow_add_r by lia. f_equal. lia.
  - by rewrite shr_1_half.
Qed.

(** A mantissa below [2 ^ j] shifted to the exponent of its format. *)
Lemma shr_fexp_bound m e l j k :
  0 ≤ m → 0 ≤ j → m < 2 ^ j → j + e ≤ k → emin ≤ k →
  let '(r, e') := shr_fexp 53 1024 m e l in
  0 ≤ shr_m r ∧ e' ≤ Z.max e (Z.max (k - 53) emin) ∧
  ∃ j', 0 ≤ j' ∧ shr_m r < 2 ^ j' ∧ j' + e' ≤ k.
Proof.
  intros Hm Hj Hlt Hk Hmin. unfold shr_fexp.
  assert (Hmr : shr_m (shr_record_of_loc m l) = m) by (by destruct l as [|[]]).
  pose proof (digits_le m j Hm Hj Hlt) as Hd.
  pose proof (fexp_le (Zdigits2 m + e) k ltac:(lia)) as Hf.
  destruct (fexp (Zdigits2 m + e) - e) as [|p|p] eqn:Hn; cbn [shr].
  - rewrite Hmr. split_and!; [done|lia|]. by exists j.
  - rewrite shr_iter by (by rewrite Hmr). rewrite Hmr. split_and!.
    + apply Z.div_pos; [done|lia].
    + lia.
    + exists (Z.max 0 (j - Z.pos p)). split_and!; [lia| |].
      * apply Z.div_lt_upper_bound; [lia|]. rewrite <-Z.pow_add_r by lia.
        eapply Z.lt_le_trans; [exact Hlt|]. apply Z.pow_le_mono_r; lia.
      * assert (e + Z.pos p = fexp (Zdigits2 m + e)) by lia.
        assert (Z.max (k - 53) emin ≤ k) by lia. lia.
  - rewrite Hmr. split_and!; [done|lia|]. by exists j.
Qed.

Lemma round_even_le m l : 0 ≤ m → 0 ≤ round_nearest_even m l ≤ m + 1.
Proof. intros Hm. destruct l as [|[]]; simpl; try case_match; lia. Qed.

Lemma round_aux_below s m e l j k :
  0 ≤ m → 0 ≤ j → m < 2 ^ j → j + e ≤ k → emin ≤ k → k ≤ 1023 → e ≤ 971 →
  below (k + 1) (Z.max e (Z.max (k - 52) emin)) (binary_round_aux 53 1024 s m e l).
Proof.
  intros Hm Hj Hlt Hk Hmin Hk' He. unfold binary_round_aux.
  pose proof (shr_fexp_bound m e l j k Hm Hj Hlt Hk Hmin) as H1.
  destruct (shr_fexp 53 1024 m e l) as [r1 e1].
  destruct H1 as (Hr1 & He1 & j1 & Hj1 & Hlt1 & Hk1).
  set (m2 := round_nearest_even (shr_m r1) (loc_of_shr_record r1)).
  pose proof (round_even_le (shr_m r1) (loc_of_shr_record r1) Hr1) as [Hm2 Hm2'].
  fold m2 in Hm2, Hm2'.
  assert (Hlt2 : m2 < 2 ^ (j1 + 1)) by (rewrite Z.pow_add_r by lia; lia).
  pose proof (shr_fexp_bound m2 e1 loc_Exact (j1 + 1) (k + 1) Hm2 ltac:(lia) Hlt2
                ltac:(lia) ltac:(lia)) as H2.
  destruct (shr_fexp 53 1024 m2 e1 loc_Exact) as [r2 e2].
  destruct H2 as (Hr2 & He2 & j2 & Hj2 & Hlt3 & Hk2).
  assert (Hcap : SpecFloat.emin 53 1024 = -1074) by done.
  destruct (shr_m r2) as [|p|p]; [done| |lia].
  rewrite (proj2 (Z.leb_le e2 (1024 - 53))) by lia. simpl. exists j2. split_and!; lia || done.
Qed.

(** ** The operations *)

Lemma iter_xO p m : Z.pos (Pos.iter xO m p) = Z.pos m * 2 ^ Z.pos p.
Proof.
  induction p as [|p IH] using Pos.peano_ind; [simpl; lia|].
  rewrite Pos.iter_succ, Pos2Z.inj_xO, IH, Pos2Z.inj_succ, Z.pow_succ_r by done. lia.
Qed.

Lemma round_below s m e j k :
  0 ≤ j → Z.pos m < 2 ^ j → j + e ≤ k → emin ≤ k → k ≤ 1023 → e ≤ 971 →
  below (k + 1) (Z.max e (Z.max (k - 52) emin)) (binary_round 53 1024 s m e).
Proof.
  intros Hj Hlt Hk Hmin Hk' He. unfold binary_round, shl_align.
  destruct (fexp (Z.pos (digits2_pos m) + e) - e) as [|p|p] eqn:Hn.
  - by apply (round_aux_below s _ e loc_Exact j).
  - by apply (round_aux_below s _ e loc_Exact j).
  - eapply below_mono; [| |apply (round_aux_below s _ _ loc_Exact (j + Z.pos p) k)]; try lia.
    rewrite iter_xO, Z.pow_add_r by lia. apply Z.mul_lt_mono_pos_r; lia.
Qed.

(** A 64-bit integer is below 2^65 and its exponent at most 12. *)
Lemma of_N_below n : (n < u64_modulus)%N → below 65 12 (f64_of_N n).
Proof.
  intros Hn. unfold f64_of_N, binary_normalize. destruct n as [|m]; [done|].
  cbn [Z.of_N]. destruct (digits_pow m) as [Hm Hlo]. unfold binary_round, shl_align.
  assert (Hd : Z.pos (digits2_pos m) ≤ 64).
  { apply (digits_le (Z.pos m)); [done|done|]. change (2 ^ 64) with (Z.of_N u64_modulus). lia. }
  assert (Hf : fexp (Z.pos (digits2_pos m) + 0) - 0 = Z.pos (digits2_pos m) - 53)
    by (unfold SpecFloat.fexp, SpecFloat.emin; lia).
  fold f64_prec f64_emax in *. change f64_prec with 53 in *. change f64_emax with 1024 in *.
  rewrite Hf.
  assert (Haux : ∀ m' e j, 0 ≤ j → Z.pos m' < 2 ^ j → j + e ≤ 64 → e ≤ 12 →
    below 65 12 (binary_round_aux 53 1024 false (Z.pos m') e loc_Exact)).
  { intros m' e j Hj Hm' Hk He.
    assert (emin = -1074) by reflexivity.
    eapply below_mono; [| |apply (round_aux_below false _ e loc_Exact j 64)]; lia. }
  destruct (Z.pos (digits2_pos m) - 53) as [|p|p] eqn:Hn'.
  - apply (Haux _ _ (Z.pos (digits2_pos m))); [lia|exact Hm|lia|lia].
  - apply (Haux _ _ (Z.pos (digits2_pos m))); [lia|exact Hm|lia|lia].
  - apply (Haux _ _ 53); [lia| |lia|lia].
    rewrite iter_xO. replace 53 with (Z.pos (digits2_pos m) + Z.pos p) by lia.
    rewrite Z.pow_add_r by done. apply Z.mul_lt_mono_pos_r; lia.
Qed.

Lemma mul_below x y k1 e1 k2 e2 :
  below k1 e1 x → below k2 e2 y →
  emin ≤ k1 + k2 → k1 + k2 ≤ 1023 → e1 + e2 ≤ 971 →
  below (k1 + k2 + 1) 971 (f64_mul x y).
Proof.
  intros Hx Hy Hmin Hk He.
  destruct x as [| | |s m ex], y as [| | |s' m' ey]; try done.
  destruct Hx as (j1 & Hj1 & Hm1 & Hk1 & He1), Hy as (j2 & Hj2 & Hm2 & Hk2 & He2).
  eapply below_mono; [| |apply (round_aux_below _ _ _ loc_Exact (j1 + j2) (k1 + k2))];
    try lia.
  - unfold SpecFloat.emin. lia.
  - rewrite Pos2Z.inj_mul, Z.pow_add_r by done. apply Z.mul_lt_mono_nonneg; lia.
Qed.

Lemma shl_align_exact m e e' :
  e' ≤ e → Z.pos (shl_align m e e').1 = Z.pos m * 2 ^ (e - e').
Proof.
  intros He. unfold shl_align. destruct (e' - e) as [|p|p] eqn:Hn; cbn [fst]; [|lia|].
  - replace (e - e') with 0 by lia. lia.
  - rewrite iter_xO. do 2 f_equal. lia.
Qed.

(** A summand of a difference, brought to a smaller exponent. *)
Lemma aligned_bound m ex e j k :
  e ≤ ex → 0 ≤ j → Z.pos m < 2 ^ j → j + ex ≤ k →
  Z.pos (shl_align m ex e).1 < 2 ^ (k - e).
Proof.
  intros He Hj Hm Hk. rewrite shl_align_exact by done.
  eapply Z.lt_le_trans with (2 ^ (j + (ex - e))).
  - rewrite Z.pow_add_r by lia. apply Z.mul_lt_mono_pos_r; [|done]. apply Z.pow_pos_nonneg; lia.
  - apply Z.pow_le_mono_r; lia.
Qed.

Lemma normalize_finite m e k :
  0 ≤ k - e → Z.abs m < 2 ^ (k - e) → emin ≤ k → k ≤ 1023 → e ≤ 971 →
  f64_is_finite (binary_normalize 53 1024 m e false) = true.
Proof.
  intros Hj Hm Hmin Hk He. destruct m as [|m|m]; [done|..];
    (eapply below_finite, (round_below _ m e (k - e) k); [done|exact Hm|lia|done|done|done]).
Qed.

(** The difference of two moderate numbers is finite. *)
Lemma sub_finite x y k :
  below k 971 x → below k 971 y → emin ≤ k → k ≤ 1022 → f64_is_finite (f64_sub x y) = true.
Proof.
  intros Hx Hy Hmin Hk.
  destruct x as [[]| | |s m ex], y as [[]| | |s' m' ey]; try done.
  destruct Hx as (j1 & Hj1 & Hm1 & Hk1 & He1), Hy as (j2 & Hj2 & Hm2 & Hk2 & He2).
  unfold f64_sub, SFsub. set (e := Z.min ex ey).
  pose proof (aligned_bound m ex e j1 k ltac:(lia) Hj1 Hm1 Hk1) as Ha.
  pose proof (aligned_bound m' ey e j2 k ltac:(lia) Hj2 Hm2 Hk2) as Hb.
  apply (normalize_finite _ _ (k + 1)); try lia.
  replace (k + 1 - e) with (k - e + 1) by lia. rewrite Z.pow_add_r by lia.
  destruct s, s'; cbn [cond_Zopp]; lia.
Qed.
End Magnitude.

(** ** Scores *)

Module Scores.
Import Magnitude.

(** A weight below 2^900 in magnitude. *)
Definition moderate (w : f64) : bool :=
  match w with
  | S754_zero _ => true
  | S754_finite _ m e => bool_decide (Z.pos (digits2_pos m) + e ≤ 900)%Z
  | _ => false
  end.

Lemma moderate_below w : moderate w = true → below 900 900 w.
Proof.
  destruct w as [| | |s m e]; simpl; try done. intros He%bool_decide_eq_true.
  exists (Z.pos (digits2_pos m)). split_and!; [done|apply digits_pow|done|lia].
Qed.

Section scores.
Context {T : Type} `{BIL : BeliefIndexLaws T} {HM : HashMapOrder} {BH : BlockHash}.
Implicit Types (r : Router.t T) (s : System.t T).

Lemma score_finite worker matched r :
  moderate (Router.cache_weight r) = true → moderate (Router.load_weight r) = true →
  (N.of_nat matched < u64_modulus)%N →
  (InflightTracker.count worker (Router.inflight r) < u64_modulus)%N →
  f64_is_finite (Router.score_worker worker matched r) = true.
Proof.
  intros Hc%moderate_below Hl%moderate_below Hm%of_N_below Hi%of_N_below.
  unfold Router.score_worker.
  apply (sub_finite _ _ 966); [| |done|done].
  - by apply (mul_below _ _ 65 12 900 900).
  - by apply (mul_below _ _ 65 12 900 900).
Qed.

Lemma scorable_moderate r chain w :
  moderate (Router.cache_weight r) = true → moderate (Router.load_weight r) = true →
  InflightTracker.wf (Router.inflight r) → (N.of_nat (length chain) < u64_modulus)%N →
  f64_is_finite (Router.score_worker (w_id w) (Router.believed_prefix r chain w) r) = true ∧
  Router.scorable r chain w.
Proof.
  intros Hc Hl Htr Hlen.
  assert (Hf : f64_is_finite (Router.score_worker (w_id w) (Router.believed_prefix r chain w) r)
               = true).
  { apply score_finite; [done..| |by apply StateWidths.wf_count].
    pose proof (held_prefix_le (bi_holds (Router.prefix_index r) (w_id w)) chain) as Hle.
    unfold Router.believed_prefix. lia. }
  split; [done|]. unfold Router.scorable, comparable, Router.candidate, Router.scored.
  cbn [sw_candidate c_score]. by destruct (Router.score_worker _ _ _).
Qed.

(** ** Settings never change *)

Definition settings r : RoutingPolicy * N * f64 * f64 :=
  (Router.policy r, Router.block_size r, Router.cache_weight r, Router.load_weight r).

Lemma settings_choose now e ws chain r :
  settings (Router.choose now e ws chain r).2 = settings r.
Proof.
  unfold Router.choose, Router.pick_best.
  destruct (Router.score_all_frame now 0 chain ws r) as [idx Hidx].
  destruct (Router.score_all _ _ _ _ _) as [ss r']. cbn [snd] in Hidx. subst r'.
  by destruct (max_by _ ss).
Qed.

Lemma settings_chat {V} now (request : ChatCompletionRequest V) r out r' :
  Router.select_for_chat now request r = Some (out, r') → settings r' = settings r.
Proof.
  unfold Router.select_for_chat. case_decide; [by intros [= _ <-]|].
  set (ws := Router.chat_candidates _). set (chain := chain_hash _ _).
  destruct (Router.policy r).
  - unfold Router.round_robin. case_decide; [done|].
    destruct (ws !! _) as [w|]; cbn [mbind option_bind]; [|done].
    destruct (bi_longest_match _ _ _ _) as [matched idx]. by intros [= _ <-].
  - pose proof (settings_choose now (Router.no_healthy r) ws chain r) as Hs.
    destruct (Router.choose _ _ _ _ _) as [o r1]. by intros [= _ <-].
  - by intros [= _ <-].
Qed.

Lemma settings_step s s' :
  System.step s s' → settings (System.router s') = settings (System.router s).
Proof.
  destruct 1 as [V now request out r s Hsel|now pool chain out r s Hsel|w healthy s
    |now ttl cap s|ev sl st s Hn Hev|s|w s|g gs1 gs2 s Hg]; try done.
  - by eapply settings_chat.
  - cbn [System.router System.with_router]. revert Hsel. unfold Router.select_in_pool.
    case_decide; [by intros [= _ <-]|]. intros Hsel.
    pose proof (settings_choose now (Router.no_healthy_in_pool pool (System.router s))
      (Router.pool_candidates pool (System.router s)) chain (System.router s)) as Hs.
    by rewrite Hsel in Hs.
  - cbn. unfold Health.mark. destruct (WorkerRegistry.set_healthy _ _ _) as [changed reg].
    by destruct (changed && _).
  - unfold Watch.handle_event in Hev. destruct (Discovery.reconcile _ _) as [[removed added] d].
    injection Hev as <- <-. cbn. by case_decide.
Qed.

Lemma settings_rtc s s' :
  rtc System.step s s' → settings (System.router s') = settings (System.router s).
Proof. induction 1 as [|s1 s2 s3 Hs _ IH]; [done|]. by rewrite IH, (settings_step _ _ Hs). Qed.
End scores.
End Scores.

(** ** Properties *)

(** C15.  Routing is optimal in every reachable state: with finite weights below
    2^900 (the defaults are 1 and 0.5) a cache-aware request that finds a
    healthy worker is served by the candidate with the highest score, then the
    fewest requests in flight, then the lowest id, and its score is a finite
    number; the tie-breaking order is total because no score can be NaN. *)
Theorem reachable_routing_optimal {T} `{BeliefIndexLaws T} {HM : HashMapOrder}
    {BH : BlockHash} {V} (config : RouterConfig) (s : System.t T) (now : nat → instant)
    (request : ChatCompletionRequest V)
    (Hn : (N.of_nat (length (cfg_workers config)) < u64_modulus)%N)
    (Hs : rtc System.step (System.initial config) s)
    (Hp : cfg_routing_policy config = CacheAware)
    (Hw : Scores.moderate (cfg_cache_weight config) = true ∧
          Scores.moderate (cfg_load_weight config) = true) :
  let r := System.router s in
  let chain := chain_hash (canonical_prompt request) (Router.block_size r) in
  let healthy := WorkerRegistry.healthy_workers (Router.registry r) in
  healthy ≠ [] → (N.of_nat (length chain) < u64_modulus)%N →
  ∃ d r', Router.select_for_chat now request r = Some (Ok d, r') ∧
    RouterSpec.optimal r chain (Router.chat_candidates healthy) d ∧
    f64_is_finite (rd_score d) = true.
Proof.
  intros r chain healthy Hne Hlen.
  destruct (StateWidths.reachable config s Hn Hs) as [Hinv [_ Htr]].
  pose proof (Scores.settings_rtc _ _ Hs) as Hset. unfold Scores.settings in Hset. cbn in Hset.
  injection Hset as Hpol _ Hcw Hlw. fold r in Htr, Hpol, Hcw, Hlw.
  assert (Hall : ∀ w, f64_is_finite (Router.score_worker (w_id w) (Router.believed_prefix r chain w) r)
            = true ∧ Router.scorable r chain w).
  { intros w. apply Scores.scorable_moderate; rewrite ?Hcw, ?Hlw; [apply Hw..|done|done]. }
  destruct (select_cache_aware now request r (System.inv_index s Hinv) (System.inv_wf s Hinv))
    as (d & r' & Hsel & Hopt); [congruence|done| |].
  { apply Forall_forall. intros w _. apply Hall. }
  exists d, r'. split_and!; [done|done|]. destruct Hopt as (_ & -> & _). apply Hall.
Qed.

Section witnesses.
#[local] Existing Instance hm_canonical.

Theorem reachable_routing_optimal_witness :
  ∃ d r', Router.select_for_chat still hello (System.router sys_up) = Some (Ok d, r') ∧
    rd_worker d = worker_a ∧ f64_is_finite (rd_score d) = true.
Proof.
  destruct (reachable_routing_optimal sys_config sys_up still hello)
    as (d & r' & Hsel & Hopt & Hf).
  - vm_compute. reflexivity.
  - eapply rtc_l; [apply (System.step_probe worker_a true)|apply rtc_refl].
  - reflexivity.
  - split; vm_compute; reflexivity.
  - vm_compute. discriminate.
  - vm_compute. reflexivity.
  - exists d, r'. split_and!; [done| |done].
    destruct Hopt as (Hin & _). revert Hin.
    assert (Router.chat_candidates (WorkerRegistry.healthy_workers
      (Router.registry (System.router sys_up))) = [worker_a]) as -> by (vm_compute; reflexivity).
    by intros ?%list_elem_of_singleton.
Defined.
End witnesses.
