(* ===== verification/Serving.v ===== *)
(** * The server as a whole

    Requests, streaming bodies, probes, sweeps, discovery and scrapes of one
    server, interleaved: handlers run one at a time, while any number of
    response bodies is being streamed and any of them may be polled or dropped
    next.  What a handler does to the router and to the guards is a sequence of
    steps of [System], so the server refines it. *)

From S2P Require Import Prelude Float64 Text Hashing Config Request Worker Inflight Belief Prefix Router Discovery Health System PrometheusText Metrics EngineMetrics Stream Api.

(** ** The effects of a handler *)

Module Handler.

Section effects.
Context {T : Type} `{BI : BeliefIndex T} {HM : HashMapOrder} {BH : BlockHash} {KV : KvTransfer}.
Implicit Types (r : Router.t T) (gs : list InflightGuard.t) (a : Api.app T).

(** Selections, and guards taken for workers that are healthy. *)
Inductive effect : Router.t T * list InflightGuard.t → Router.t T * list InflightGuard.t → Prop :=
  | effect_chat {V} now (request : ChatCompletionRequest V) out r r' gs :
      Router.select_for_chat now request r = Some (out, r') → effect (r, gs) (r', gs)
  | effect_pool now pool chain out r r' gs :
      Router.select_in_pool now pool chain r = (out, r') → effect (r, gs) (r', gs)
  | effect_acquire w r gs :
      w ∈ WorkerRegistry.healthy_workers (Router.registry r) →
      effect (r, gs)
        (Router.set_inflight (InflightGuard.acquire (Router.inflight r) (w_id w)).2 r,
         (InflightGuard.acquire (Router.inflight r) (w_id w)).1 :: gs)
  | effect_drop g r gs1 gs2 :
      effect (r, gs1 ++ g :: gs2)
        (Router.set_inflight (InflightGuard.drop g (Router.inflight r)) r, gs1 ++ gs2).

(** Guards held by what a handler returned. *)
Definition opened (res : result ApiError Api.response) : list InflightGuard.t :=
  match res with
  | Ok resp =>
      match Api.resp_body resp with
      | Some s => [rt_guard (ProxyStream.telemetry s)]
      | None => []
      end
  | Err _ => []
  end.

Definition runs a gs (out : result ApiError Api.response * Api.app T) : Prop :=
  rtc effect (Api.router a, gs) (Api.router out.2, opened out.1 ++ gs).

(** The worker of a decision is a healthy worker, index laws or not. *)
Lemma score_all_workers now k chain ws r :
  sw_worker <$> (Router.score_all now k chain ws r).1 = ws.
Proof.
  revert k r. induction ws as [|w ws IH]; intros k r; [done|]. cbn [Router.score_all].
  destruct (bi_longest_match _ _ _ _) as [matched idx].
  specialize (IH (S k) (Router.set_prefix_index idx r)).
  destruct (Router.score_all _ _ _ _ _) as [rest r']. cbn [fst] in *.
  by rewrite fmap_cons, IH.
Qed.

Lemma choose_member now e ws chain r d r' :
  Router.choose now e ws chain r = (Ok d, r') → rd_worker d ∈ ws.
Proof.
  unfold Router.choose, Router.pick_best.
  pose proof (score_all_workers now 0 chain ws r) as Hws.
  destruct (Router.score_all _ _ _ _ _) as [ss r1]. cbn [fst] in Hws. subst ws.
  destruct (max_by _ ss) as [best|] eqn:Hb; [|done]. intros [= <- _].
  apply max_by_elem in Hb. by apply (list_elem_of_fmap_2 sw_worker).
Qed.

Lemma select_for_chat_member {V} now (request : ChatCompletionRequest V) r d r' :
  Router.select_for_chat now request r = Some (Ok d, r') →
  rd_worker d ∈ WorkerRegistry.healthy_workers (Router.registry r') .
Proof.
  intros Hsel.
  destruct (Router.select_for_chat_frame now request r) as (? & ? & Hsel' & (Hreg & _) & _).
  rewrite Hsel in Hsel'. injection Hsel' as <- <-. rewrite Hreg. revert Hsel.
  unfold Router.select_for_chat. case_decide; [done|].
  set (ws := Router.chat_candidates _). set (chain := chain_hash _ _).
  assert (Hsub : ∀ w, w ∈ ws → w ∈ WorkerRegistry.healthy_workers (Router.registry r)).
  { by intros w [? _]%Router.chat_candidates_elem. }
  destruct (Router.policy r); [|intros [= Hc]; by eapply Hsub, choose_member|done].
  unfold Router.round_robin. case_decide; [done|].
  destruct (ws !! _) as [w|] eqn:Hw; cbn [mbind option_bind]; [|done].
  destruct (bi_longest_match _ _ _ _) as [matched idx]. intros [= <- _]. cbn.
  by eapply Hsub, list_elem_of_lookup_2.
Qed.

Lemma select_in_pool_member now pool chain r d r' :
  Router.select_in_pool now pool chain r = (Ok d, r') →
  rd_worker d ∈ WorkerRegistry.healthy_workers (Router.registry r').
Proof.
  intros Hsel. pose proof (Router.select_in_pool_frame now pool chain r) as (Hreg & _).
  rewrite Hsel in Hreg. cbn in Hreg. rewrite Hreg. revert Hsel.
  unfold Router.select_in_pool. case_decide; [done|].
  intros Hc%choose_member. by apply list_elem_of_filter in Hc as [_ ?].
Qed.

Lemma effect_record_request worker status a gs out :
  runs (Api.record_request worker status a) gs out → runs a gs out.
Proof. done. Qed.

(** A guard that was just taken is dropped again. *)
Lemma drop_last g r gs :
  rtc effect (r, g :: gs)
    (Router.set_inflight (InflightGuard.drop g (Router.inflight r)) r, gs).
Proof. apply rtc_once, (effect_drop g r [] gs). Qed.

Variable env : Api.http.

(** From a response head on: the guard ends up in the body, or is dropped. *)
Lemma build_response_runs u t hit tok streaming a gs g :
  rt_guard t = g →
  rtc effect (Api.router a, g :: gs)
    (Api.router (Api.build_response env u t hit tok streaming a).2,
     opened (Api.build_response env u t hit tok streaming a).1 ++ gs).
Proof.
  intros <-. unfold Api.build_response. case_match; [apply rtc_refl|]. apply drop_last.
Qed.

(** A phase on the healthy worker [w]: take the guard, then go on. *)
Lemma acquire_runs w a gs (out : result ApiError Api.response * Api.app T) :
  w ∈ WorkerRegistry.healthy_workers (Router.registry (Api.router a)) →
  (let '(g, tr) := InflightGuard.acquire (Api.tracker a) (w_id w) in
   rtc effect (Api.router (Api.with_tracker tr a), g :: gs)
     (Api.router out.2, opened out.1 ++ gs)) →
  runs a gs out.
Proof. intros Hw Hrest. eapply rtc_l; [by apply (effect_acquire w)|]. exact Hrest. Qed.

Lemma serve_proxied_runs {V} (request : ChatCompletionRequest V) id a gs out :
  Api.serve_proxied env request id a = Some out → runs a gs out.
Proof.
  unfold Api.serve_proxied, runs. intros Hs.
  destruct (Router.select_for_chat _ _ _) as [[sel r]|] eqn:Hsel; [|done].
  cbn [mbind option_bind] in Hs.
  eapply rtc_l; [by eapply effect_chat|]. destruct sel as [d|e].
  2:{ injection Hs as <-. apply rtc_refl. }
  apply select_for_chat_member in Hsel.
  apply (acquire_runs (rd_worker d) (Api.with_router r a) gs out Hsel).
  destruct (InflightGuard.acquire (Api.tracker (Api.with_router r a)) (w_id (rd_worker d)))
    as [g tr].
  destruct (Api.post _ _ _) as [u|e]; [|injection Hs as <-; apply drop_last].
  destruct (negb _); [injection Hs as <-; apply drop_last|].
  injection Hs as <-. by apply build_response_runs.
Qed.

Lemma prefill_phase_runs w a gs :
  w ∈ WorkerRegistry.healthy_workers (Router.registry (Api.router a)) →
  rtc effect (Api.router a, gs) (Api.router (Api.prefill_phase env w a).2, gs).
Proof.
  intros Hw. eapply rtc_l; [by apply (effect_acquire w)|]. unfold Api.prefill_phase.
  destruct (InflightGuard.acquire (Api.tracker a) (w_id w)) as [g tr] eqn:Hacq.
  unfold Api.tracker in Hacq. rewrite Hacq.
  destruct (Api.post _ _ _) as [u|e]; [|apply drop_last].
  destruct (negb _); apply drop_last.
Qed.

Lemma decode_phase_runs {V} (request : ChatCompletionRequest V) id prefill decode ms tms a gs :
  rd_worker decode ∈ WorkerRegistry.healthy_workers (Router.registry (Api.router a)) →
  runs a gs (Api.decode_phase env request id prefill decode ms tms a).
Proof.
  intros Hw. apply (acquire_runs (rd_worker decode) a gs _ Hw). unfold Api.decode_phase.
  destruct (InflightGuard.acquire (Api.tracker a) (w_id (rd_worker decode))) as [g tr].
  destruct (Api.post _ _ _) as [u|e]; [|apply drop_last].
  destruct (negb _); [apply drop_last|]. by apply build_response_runs.
Qed.

Lemma serve_disaggregated_runs {V} (request : ChatCompletionRequest V) id a gs :
  runs a gs (Api.serve_disaggregated env request id a).
Proof.
  unfold Api.serve_disaggregated. set (chain := chain_hash _ _).
  destruct (Router.select_in_pool _ Prefill chain _) as [sel r] eqn:Hsel.
  eapply rtc_l; [by eapply effect_pool|]. destruct sel as [prefill|e]; [|apply rtc_refl].
  apply select_in_pool_member in Hsel.
  pose proof (prefill_phase_runs (rd_worker prefill) (Api.with_router r a) gs Hsel) as Hp.
  destruct (Api.prefill_phase _ _ _) as [[ms|e] a2]; [|exact Hp].
  etrans; [exact Hp|]. cbn [snd].
  destruct (Router.select_in_pool _ Decode chain _) as [sel r2] eqn:Hsel2.
  eapply rtc_l; [by eapply effect_pool|]. destruct sel as [decode|e]; [|apply rtc_refl].
  apply select_in_pool_member in Hsel2.
  destruct (kv_transfer _ _ _); [|apply rtc_refl].
  match goal with |- context [Api.decode_phase env _ _ _ _ ?ms ?tms ?a] =>
    apply (decode_phase_runs request id (rd_worker prefill) decode ms tms a gs Hsel2) end.
Qed.

(** Whatever the payload, policy and outcome. *)
Lemma chat_completions_runs {V} payload id a gs out :
  Api.chat_completions (V := V) env payload id a = Some out → runs a gs out.
Proof.
  unfold Api.chat_completions. destruct payload as [request|e].
  - case_decide; [|apply serve_proxied_runs]. intros [= <-]. apply serve_disaggregated_runs.
  - intros [= <-]. apply rtc_refl.
Qed.
End effects.
End Handler.

(** ** The server *)

Module Serving.

Record t {T : Type} := {
  app : Api.app T;
  (** The response bodies being streamed. *)
  bodies : list ProxyStream.state;
  (** The state of the discovery watch. *)
  slices : Watch.slice_map;
  discovered : gmap rstr WorkerId;
}.
Arguments t : clear implicits.

Section server.
Context {T : Type} `{BI : BeliefIndex T} {HM : HashMapOrder} {BH : BlockHash} {KV : KvTransfer}.
Implicit Types (s : t T) (st : ProxyStream.state).

Definition with_app (a : Api.app T) (bs : list ProxyStream.state) s : t T := {|
  app := a; bodies := bs; slices := slices s; discovered := discovered s |}.

Definition body_of (res : result ApiError Api.response) : list ProxyStream.state :=
  match res with
  | Ok resp => match Api.resp_body resp with Some st => [st] | None => [] end
  | Err _ => []
  end.

Definition guard_of st : InflightGuard.t := rt_guard (ProxyStream.telemetry st).

(** The state of [System] that a server state stands for. *)
Definition view s : System.t T := {|
  System.router := Api.router (app s); System.slices := slices s;
  System.discovered := discovered s; System.guards := guard_of <$> bodies s |}.

(** The tasks next to the handlers: probes, sweeps, the watch and the scrapes. *)
Inductive background : t T → t T → Prop :=
  | step_probe w healthy s :
      background s (with_app (Api.with_router (Health.mark w healthy (Api.router (app s))) (app s))
                (bodies s) s)
  | step_evict now ttl max_entries s :
      background s (with_app (Api.with_router
        (Router.set_prefix_index
           (bi_evict now ttl max_entries (Router.prefix_index (Api.router (app s)))).2
           (Api.router (app s))) (app s)) (bodies s) s)
  | step_event ev sl w s :
      (WorkerRegistry.next_id (Router.registry (Api.router (app s))) +
         N.of_nat (size (Watch.desired_urls (Watch.apply_event ev (slices s)))) < u64_modulus)%N →
      Watch.handle_event (slices s, System.watch_state (view s)) ev = (sl, w) →
      background s {| app := Api.with_router (Watch.app w) (app s); bodies := bodies s;
                slices := sl; discovered := Watch.discovered w |}
  | step_restart s :
      background s {| app := app s; bodies := bodies s; slices := ∅; discovered := discovered s |}
  | step_scrape s : background s (with_app (Api.scrape (app s)) (bodies s) s)
  | step_engine is_success get turn s :
      background s (with_app (Api.with_metrics
        (EngineMetrics.scrape_round is_success get (cfg_engine_cache_hit_metric (Api.config (app s)))
           (Router.registry (Api.router (app s))) turn) (app s)) (bodies s) s).

Inductive step : t T → t T → Prop :=
  (** A request is handled; its body, if any, starts to stream. *)
  | step_request {V} env (payload : result (N * rstr) (ChatCompletionRequest V)) id res a s :
      Api.chat_completions env payload id (app s) = Some (res, a) →
      step s (with_app a (body_of res ++ bodies s) s)
  (** Any body is polled: it goes on, or it ends and is gone. *)
  | step_poll now st b1 b2 i b m tr s :
      bodies s = b1 ++ st :: b2 →
      ProxyStream.poll now (Some st) (Api.metrics (app s)) (Api.tracker (app s)) = (i, b, m, tr) →
      step s (with_app (Api.with_tracker tr (Api.with_metrics (λ _, m) (app s)))
                (b1 ++ option_list b ++ b2) s)
  (** A client disconnects. *)
  | step_disconnect st b1 b2 s :
      bodies s = b1 ++ st :: b2 →
      step s (with_app (Api.with_tracker (ProxyStream.drop_body (Some st) (Api.tracker (app s)))
                          (app s)) (b1 ++ b2) s)
  | step_background s s' : background s s' → step s s'.

Definition initial (config : RouterConfig) : t T := {|
  app := Api.new config; bodies := []; slices := ∅; discovered := ∅ |}.

(** ** Simulation *)

Definition placed (p : Router.t T * list InflightGuard.t) s : System.t T := {|
  System.router := p.1; System.slices := slices s; System.discovered := discovered s;
  System.guards := p.2 |}.

Lemma effect_system p p' s : Handler.effect p p' → System.step (placed p s) (placed p' s).
Proof.
  destruct 1 as [V now request out r r' gs Hsel|now pool chain out r r' gs Hsel|w r gs Hw
    |g r gs1 gs2].
  - by apply (System.step_chat now request out r' (placed (r, gs) s)).
  - by apply (System.step_pool now pool chain out r' (placed (r, gs) s)).
  - apply (System.step_acquire (w_id w) (placed (r, gs) s)).
  - by apply (System.step_drop g gs1 gs2 (placed (r, gs1 ++ g :: gs2) s)).
Qed.

Lemma effects_system p p' s :
  rtc Handler.effect p p' → rtc System.step (placed p s) (placed p' s).
Proof.
  induction 1 as [p|p1 p2 p3 He _ IH]; [apply rtc_refl|].
  eapply rtc_l; [by apply effect_system|done].
Qed.

Lemma body_of_opened res : guard_of <$> body_of res = Handler.opened res.
Proof. destruct res as [resp|]; [|done]. simpl. by destruct (Api.resp_body resp). Qed.

(** One poll keeps the guard, or ends the body and drops it. *)
Lemma poll_effect now st m tr i b m' tr' r gs1 gs2 :
  ProxyStream.poll now (Some st) m tr = (i, b, m', tr') → Router.inflight r = tr →
  rtc Handler.effect (r, gs1 ++ guard_of st :: gs2)
    (Router.set_inflight tr' r, gs1 ++ (guard_of <$> option_list b) ++ gs2).
Proof.
  unfold ProxyStream.poll. intros Hp Hr.
  destruct (ProxyStream.next now st m) as [[[i' st']|] m1] eqn:Hn; injection Hp as <- <- <- <-.
  - assert (Router.set_inflight tr r = r) as -> by (subst tr; by destruct r).
    cbn. unfold guard_of. rewrite (ProxyStream.telemetry_next _ _ _ _ _ _ Hn). apply rtc_refl.
  - subst tr. apply rtc_once, Handler.effect_drop.
Qed.

(** The other tasks leave the bodies and the guards alone, whoever holds them,
    and at most extend the tracker. *)
Lemma background_cases s s' :
  background s s' →
  bodies s' = bodies s ∧ Api.config (app s') = Api.config (app s) ∧
  (∀ gs, rtc System.step (placed (Api.router (app s), gs) s) (placed (Api.router (app s'), gs) s')) ∧
  ∃ n, Router.inflight (Api.router (app s')) =
       InflightTracker.ensure_capacity n (Router.inflight (Api.router (app s))).
Proof.
  assert (Hsame : ∀ tr : InflightTracker.t, ∃ n, tr = InflightTracker.ensure_capacity n tr).
  { intros tr. exists 0. unfold InflightTracker.ensure_capacity. by rewrite decide_False by lia. }
  destruct 1 as [w healthy s|now ttl cap s|ev sl w s Hn Hev|s|s|is_success get turn s];
    (split; [done|]); (split; [done|]); split; try (by apply Hsame); intros.
  - apply rtc_once, (System.step_probe w healthy (placed (_, gs) s)).
  - cbn. unfold Health.mark. destruct (WorkerRegistry.set_healthy _ _ _) as [changed reg].
    destruct (changed && _); apply Hsame.
  - apply rtc_once, (System.step_evict now ttl cap (placed (_, gs) s)).
  - by apply rtc_once, (System.step_event ev sl w (placed (_, gs) s)).
  - unfold Watch.handle_event in Hev. destruct (Discovery.reconcile _ _) as [[removed added] d].
    injection Hev as _ <-. cbn. case_decide; [by eexists|apply Hsame].
  - apply rtc_once, (System.step_restart (placed (_, gs) s)).
  - apply rtc_refl.
  - apply rtc_refl.
Qed.

(** Handlers and bodies act by effects. *)
Lemma step_cases s s' :
  step s s' →
  (slices s' = slices s ∧ discovered s' = discovered s ∧
   rtc Handler.effect (Api.router (app s), guard_of <$> bodies s)
     (Api.router (app s'), guard_of <$> bodies s')) ∨
  background s s'.
Proof.
  destruct 1 as [V env payload id res a s Hc|now st b1 b2 i b m tr s Hb Hp|st b1 b2 s Hb|s s' Hbg];
    [left; split_and!; [done..|]; cbn [with_app app bodies]..|by right].
  - apply (Handler.chat_completions_runs env payload id (app s) (guard_of <$> bodies s)) in Hc.
    rewrite fmap_app, body_of_opened. exact Hc.
  - rewrite Hb, !fmap_app, fmap_cons.
    by eapply (poll_effect _ _ _ _ _ _ _ _ (Api.router (app s))).
  - rewrite Hb, !fmap_app, fmap_cons. apply rtc_once, (Handler.effect_drop (guard_of st)).
Qed.

Lemma step_system s s' : step s s' → rtc System.step (view s) (view s').
Proof.
  intros [(Hsl & Hd & He)|(Hb & _ & Hs & _)%background_cases]%step_cases.
  - apply (effects_system _ _ s) in He. unfold view. by rewrite Hsl, Hd.
  - specialize (Hs (guard_of <$> bodies s)). unfold view. rewrite Hb. exact Hs.
Qed.

Lemma run_system s s' : rtc step s s' → rtc System.step (view s) (view s').
Proof. induction 1 as [|s1 s2 s3 Hs _ IH]; [done|]. etrans; [by apply step_system|done]. Qed.

(** ** In-flight slots *)

(** Every healthy worker has a counter. *)
Definition covered (r : Router.t T) : Prop :=
  ∀ w, w ∈ WorkerRegistry.healthy_workers (Router.registry r) →
       InflightTracker.tracks (w_id w) (Router.inflight r).

Definition slots (p : Router.t T * list InflightGuard.t) : Inflight.state := {|
  Inflight.tracker := Router.inflight p.1; Inflight.guards := p.2 |}.

Definition counted (p : Router.t T * list InflightGuard.t) : Prop :=
  Inflight.accounted (slots p) ∧ Inflight.totalled (slots p).

Lemma counted_step p p' :
  Inflight.step InflightTracker.tracks (slots p) (slots p') → counted p → counted p'.
Proof.
  intros Hs [Ha Ht]. split; [by eapply Inflight.accounted_step|by eapply Inflight.totalled_step].
Qed.

Lemma counted_perm r gs gs' : gs ≡ₚ gs' → counted (r, gs) → counted (r, gs').
Proof.
  intros Hp [Ha Ht]. split; [by eapply Inflight.accounted_perm|].
  unfold Inflight.totalled in *. cbn in *. by rewrite <-Hp.
Qed.

Lemma effect_counted p p' :
  Handler.effect p p' → covered p.1 → counted p → covered p'.1 ∧ counted p'.
Proof.
  destruct 1 as [V now request out r r' gs Hsel|now pool chain out r r' gs Hsel|w r gs Hw
    |g r gs1 gs2]; intros Hcov Hcnt.
  - destruct (Router.select_for_chat_frame now request r) as (? & ? & Hsel' & (Hreg & _ & Hin) & _).
    rewrite Hsel in Hsel'. injection Hsel' as <- <-.
    unfold covered, counted, slots in *. cbn [fst snd] in *. by rewrite Hreg, Hin.
  - destruct (Router.select_in_pool_frame now pool chain r) as (Hreg & _ & Hin).
    rewrite Hsel in Hreg, Hin. cbn in Hreg, Hin.
    unfold covered, counted, slots in *. cbn [fst snd] in *. by rewrite Hreg, Hin.
  - split.
    + intros w' Hw'. cbn. apply Inflight.tracks_increment. by apply Hcov.
    + eapply counted_step, Hcnt. by eapply (Inflight.step_acquire _ (w_id w)); [apply Hcov|].
  - split.
    + intros w' Hw'. cbn. apply Inflight.tracks_decrement. by apply Hcov.
    + eapply counted_step, Hcnt. apply Inflight.step_drop.
Qed.

Lemma effects_counted p p' :
  rtc Handler.effect p p' → covered p.1 → counted p → counted p'.
Proof.
  induction 1 as [|p1 p2 p3 He _ IH]; intros Hcov Hcnt; [done|].
  destruct (effect_counted _ _ He Hcov Hcnt). by apply IH.
Qed.

Definition slots_ok s : Prop :=
  covered (Api.router (app s)) ∧ counted (Api.router (app s), guard_of <$> bodies s).

Lemma slots_step s s' :
  step s s' → covered (Api.router (app s')) → slots_ok s → slots_ok s'.
Proof.
  intros Hs Hcov' [Hcov Hcnt]. split; [done|].
  destruct (step_cases s s' Hs) as [(_ & _ & He)|(Hb & _ & _ & n & Hn)%background_cases].
  - exact (effects_counted _ _ He Hcov Hcnt).
  - rewrite Hb. eapply counted_step, Hcnt. unfold slots. cbn [fst snd]. rewrite Hn.
    apply Inflight.step_grow.
Qed.

Lemma slots_initial config : slots_ok (initial config).
Proof.
  split.
  - intros w. change (Router.registry _) with (WorkerRegistry.from_config (cfg_workers config)).
    rewrite WorkerRegistry.healthy_from_config. by intros ?%not_elem_of_nil.
  - split; [apply (Inflight.accounted_initial (length (cfg_workers config)))
           |apply (Inflight.totalled_initial (length (cfg_workers config)))].
Qed.

(** Bodies streamed from worker [id]. *)
Definition streaming_from (id : WorkerId) s : nat :=
  length (filter (λ st, InflightGuard.worker (guard_of st) = id) (bodies s)).

Lemma live_streaming id s : Inflight.live id (guard_of <$> bodies s) = streaming_from id s.
Proof.
  unfold Inflight.live, streaming_from. induction (bodies s) as [|st bs IH]; [done|].
  rewrite fmap_cons, !filter_cons. case_decide; simpl; by rewrite IH.
Qed.
End server.
End Serving.

(** ** Properties *)

(** The server implements the abstract system: whatever requests, bodies,
    disconnects, probes, sweeps, watch events and scrapes it handles, in any
    order and with any number of bodies streaming at once, its router, watch
    state and guards run through steps of [System]; so, in particular, only
    healthy workers are ever believed to hold blocks. *)
Theorem server_refines_system {T} `{BeliefIndexLaws T} {HM : HashMapOrder} {BH : BlockHash}
    {KV : KvTransfer} (config : RouterConfig) (s : Serving.t T)
    (Hn : (N.of_nat (length (cfg_workers config)) < u64_modulus)%N)
    (Hs : rtc Serving.step (Serving.initial config) s) :
  rtc System.step (System.initial config) (Serving.view s) ∧
  let r := Api.router (Serving.app s) in
  ∀ id h, bi_holds (Router.prefix_index r) id h = true →
    WorkerRegistry.is_healthy id (Router.registry r) = true.
Proof.
  apply Serving.run_system in Hs. split; [exact Hs|].
  apply (System.inv_beliefs _ (System.inv_rtc _ _ Hs (System.inv_initial config Hn))).
Qed.

(** In-flight slots of the running server: as long as every healthy worker
    has a counter, the in-flight count of each worker is the number of response
    bodies currently streaming from it, however requests, polls, disconnects,
    failures and background tasks interleave, and the total is the number of
    all bodies; when nothing streams, every count is zero. *)
Theorem server_inflight_exact {T} `{BeliefIndex T} {HM : HashMapOrder} {BH : BlockHash}
    {KV : KvTransfer} (config : RouterConfig) (s : Serving.t T) (id : WorkerId)
    (Hs : rtc (λ s s', Serving.step s s' ∧ Serving.covered (Api.router (Serving.app s')))
            (Serving.initial config) s) :
  let tr := Router.inflight (Api.router (Serving.app s)) in
  InflightTracker.count id tr = wrap64 (N.of_nat (Serving.streaming_from id s)) ∧
  InflightTracker.total tr = wrap64 (N.of_nat (length (Serving.bodies s))) ∧
  (Serving.bodies s = [] → InflightTracker.count id tr = 0%N).
Proof.
  assert (Hok : Serving.slots_ok s).
  { pose proof (Serving.slots_initial (T := T) config) as H0.
    induction Hs as [|s1 s2 s3 [Hstep Hcov] _ IH]; [done|]. by apply IH, (Serving.slots_step s1). }
  destruct Hok as [_ [[Hc _] Ht]]. unfold Inflight.totalled, Serving.slots in *.
  cbn [Inflight.tracker Inflight.guards fst snd] in Hc, Ht.
  specialize (Hc id). rewrite Serving.live_streaming in Hc. rewrite length_fmap in Ht.
  cbn zeta. split_and!; [done|done|]. intros Hb. rewrite Hc. unfold Serving.streaming_from.
  by rewrite Hb.
Qed.

Section witnesses.
#[local] Existing Instance hm_canonical.
#[local] Existing Instance mock_kv_transfer.
#[local] Existing Instance InflightTracker.tracks_dec.

Definition serving_start : Serving.t PrefixIndex.t := Serving.initial sys_config.

Definition serving_up : Serving.t PrefixIndex.t :=
  Serving.with_app (Api.with_router
    (Health.mark worker_a true (Api.router (Serving.app serving_start)))
    (Serving.app serving_start)) [] serving_start.

(** One request: its body streams from worker 0. *)
Definition serving_result : result ApiError Api.response * Api.app PrefixIndex.t :=
  default (Err api_no_healthy_workers, Serving.app serving_up)
    (Api.chat_completions sample_http (Ok hello) (lit "r1") (Serving.app serving_up)).

Definition serving_one : Serving.t PrefixIndex.t :=
  Serving.with_app serving_result.2 (Serving.body_of serving_result.1 ++ []) serving_up.

Lemma serving_run :
  Serving.step serving_start serving_up ∧ Serving.step serving_up serving_one.
Proof.
  split; [apply Serving.step_background, (Serving.step_probe worker_a true)|].
  apply (Serving.step_request sample_http (Ok hello) (lit "r1") serving_result.1).
  vm_compute. reflexivity.
Qed.

Lemma serving_covered (r : Router.t PrefixIndex.t) :
  Forall (λ w, InflightTracker.tracks (w_id w) (Router.inflight r))
    (WorkerRegistry.healthy_workers (Router.registry r)) →
  Serving.covered r.
Proof. intros Hall w Hw. rewrite Forall_forall in Hall. by apply Hall. Qed.

Theorem server_refines_system_witness :
  rtc System.step (System.initial sys_config) (Serving.view serving_one) ∧
  bi_holds (Router.prefix_index (System.router (Serving.view serving_one))) 0
    16360918370999562615%N = true.
Proof.
  split; [|vm_compute; reflexivity].
  apply (server_refines_system sys_config serving_one); [vm_compute; reflexivity|].
  destruct serving_run as [H1 H2]. eapply rtc_l; [exact H1|]. by apply rtc_once.
Defined.

Theorem server_inflight_exact_witness :
  InflightTracker.count 0 (Router.inflight (Api.router (Serving.app serving_one))) =
    wrap64 (N.of_nat (Serving.streaming_from 0 serving_one)) ∧
  Serving.streaming_from 0 serving_one = 1.
Proof.
  split; [|vm_compute; reflexivity].
  apply (server_inflight_exact sys_config serving_one 0).
  destruct serving_run as [H1 H2]. eapply rtc_l; [|apply rtc_once].
  - split; [exact H1|]. apply serving_covered, (bool_decide_unpack _). vm_compute. exact I.
  - split; [exact H2|]. apply serving_covered, (bool_decide_unpack _). vm_compute. exact I.
Defined.
End witnesses.
