(* ===== verification/Schema.v ===== *)
(** * Metric schema

    Every call that the program makes on the metrics facade, from its handlers,
    its response bodies, its scrapes and its background tasks, belongs to a
    metric declared in [register_descriptions], with the declared kind and
    always the same label keys: the shape a recorder depends on. *)

From S2P Require Import Prelude Float64 Text Hashing Config Request Worker Inflight Belief Prefix Router PrometheusText Metrics EngineMetrics Stream Api.

Module Schema.

Definition call_kind (c : MetricCall) : MetricKind :=
  match c with
  | CounterIncrement _ _ _ => Counter
  | GaugeSet _ _ _ => Gauge
  | HistogramRecord _ _ _ => Histogram
  end.

Definition call_name (c : MetricCall) : rstr :=
  match c with
  | CounterIncrement name _ _ | GaugeSet name _ _ | HistogramRecord name _ _ => name
  end.

Definition label_keys (c : MetricCall) : list rstr :=
  match c with
  | CounterIncrement _ labels _ | GaugeSet _ labels _ | HistogramRecord _ labels _ => labels.*1
  end.

Definition declared : list (MetricKind * rstr) := register_descriptions.*1.

(** The label keys of each declared metric. *)
Definition keys_of : list (MetricKind * rstr * list rstr) :=
  let worker := lit "worker" in
  let policy := lit "policy" in [
  (Counter, lit "kvrouter_requests_total", [worker; policy; lit "status"]);
  (Counter, lit "kvrouter_cache_hit_blocks", []);
  (Counter, lit "kvrouter_prompt_blocks_total", []);
  (Histogram, lit "kvrouter_ttft_seconds", [policy]);
  (Histogram, lit "kvrouter_request_duration_seconds", [policy]);
  (Counter, lit "kvrouter_tokens_generated_total", [worker]);
  (Gauge, lit "kvrouter_inflight_requests", [worker]);
  (Gauge, lit "kvrouter_prefix_index_entries", []);
  (Gauge, lit "kvrouter_worker_up", [worker]);
  (Histogram, lit "kvrouter_kv_transfer_seconds", []);
  (Gauge, lit "kvrouter_engine_cache_hit_rate", [worker]);
  (Gauge, lit "kvrouter_predicted_cache_hit_rate", [worker]);
  (Gauge, lit "kvrouter_hit_rate_prediction_error", [worker])].

Lemma keys_of_declared : keys_of.*1 = declared.
Proof. reflexivity. Qed.

Lemma names_distinct : NoDup (declared.*2).
Proof. apply (bool_decide_unpack _). vm_compute. exact I. Qed.

(** ** Calls of the declared shape *)

Definition call_ok (c : MetricCall) : bool :=
  bool_decide ((call_kind c, call_name c, label_keys c) ∈ keys_of).

Definition ok (m : Metrics.t) : Prop := Forall (λ c, call_ok c = true) (Metrics.calls m).

Lemma ok_emit c m : call_ok c = true → ok m → ok (Metrics.emit c m).
Proof. intros Hc Hm. apply Forall_app. split; [done|]. by constructor. Qed.

(** One declared name has one kind and one list of keys. *)
Lemma call_ok_unique c c' :
  call_ok c = true → call_ok c' = true → call_name c = call_name c' →
  call_kind c = call_kind c' ∧ label_keys c = label_keys c'.
Proof.
  unfold call_ok. intros Hc%bool_decide_eq_true Hc'%bool_decide_eq_true Hn.
  apply list_elem_of_lookup in Hc as [i Hi]. apply list_elem_of_lookup in Hc' as [j Hj].
  assert (i = j) as ->.
  { apply (NoDup_lookup (declared.*2) i j (call_name c) names_distinct);
      rewrite <-keys_of_declared, !list_lookup_fmap; [by rewrite Hi|by rewrite Hj, Hn]. }
  rewrite Hi in Hj. by injection Hj.
Qed.

Lemma call_ok_declared c : call_ok c = true → (call_kind c, call_name c) ∈ declared.
Proof.
  unfold call_ok. intros Hc%bool_decide_eq_true. rewrite <-keys_of_declared.
  by apply (list_elem_of_fmap_2 fst) in Hc.
Qed.

Create HintDb schema.

(** Every recording function emits one call of its declared shape. *)
Ltac emits := intros; apply ok_emit; [vm_compute; reflexivity|assumption].

Lemma ok_request worker policy status m : ok m → ok (Metrics.record_request worker policy status m).
Proof. emits. Qed.
Lemma ok_hit_blocks n m : ok m → ok (Metrics.record_cache_hit_blocks n m).
Proof. emits. Qed.
Lemma ok_prompt_blocks n m : ok m → ok (Metrics.record_prompt_blocks n m).
Proof. emits. Qed.
Lemma ok_hit_stats worker a b m : ok m → ok (Metrics.record_hit_stats worker a b m).
Proof. done. Qed.
Lemma ok_ttft policy s m : ok m → ok (Metrics.record_ttft policy s m).
Proof. emits. Qed.
Lemma ok_duration policy s m : ok m → ok (Metrics.record_request_duration policy s m).
Proof. emits. Qed.
Lemma ok_tokens worker n m : ok m → ok (Metrics.record_tokens_generated worker n m).
Proof. emits. Qed.
Lemma ok_kv_transfer s m : ok m → ok (Metrics.record_kv_transfer s m).
Proof. emits. Qed.
Lemma ok_inflight worker n m : ok m → ok (Metrics.set_inflight worker n m).
Proof. emits. Qed.
Lemma ok_index_entries n m : ok m → ok (Metrics.set_prefix_index_entries n m).
Proof. emits. Qed.
Lemma ok_worker_up worker up m : ok m → ok (Metrics.set_worker_up worker up m).
Proof. emits. Qed.
Lemma ok_engine_rate worker r m : ok m → ok (Metrics.set_engine_cache_hit_rate worker r m).
Proof. emits. Qed.
Lemma ok_predicted_rate worker r m : ok m → ok (Metrics.set_predicted_cache_hit_rate worker r m).
Proof. emits. Qed.
Lemma ok_prediction_error worker r m :
  ok m → ok (Metrics.set_hit_rate_prediction_error worker r m).
Proof. emits. Qed.

#[export] Hint Resolve ok_request ok_hit_blocks ok_prompt_blocks ok_hit_stats ok_ttft
  ok_duration ok_tokens ok_kv_transfer ok_inflight ok_index_entries ok_worker_up
  ok_engine_rate ok_predicted_rate ok_prediction_error : schema.

Lemma ok_foldl {A} (f : Metrics.t → A → Metrics.t) l m :
  (∀ m x, ok m → ok (f m x)) → ok m → ok (foldl f m l).
Proof. intros Hf. revert m. induction l as [|x l IH]; intros m Hm; [done|]. by apply IH, Hf. Qed.

(** ** The parts of the program *)

Lemma ok_finish t ttft total n m : ok m → ok (finish t ttft total n m).
Proof. intros Hm. unfold finish. auto 10 with schema. Qed.
#[export] Hint Resolve ok_finish : schema.

Lemma ok_poll now b m tr :
  ok m → let '(_, _, m', _) := ProxyStream.poll now b m tr in ok m'.
Proof.
  intros Hm. destruct b as [s|]; [|done]. unfold ProxyStream.poll, ProxyStream.next.
  destruct (ProxyStream.inner s) as [|[] ?]; [|done..].
  destruct (_ && _); [done|]. destruct (ProxyStream.errored s); cbn; auto with schema.
Qed.

Section app.
Context {T : Type} `{BI : BeliefIndex T} {HM : HashMapOrder} {BH : BlockHash} {KV : KvTransfer}.
Context (env : Api.http).
Implicit Types (a : Api.app T).

Lemma ok_refresh (r : Router.t T) m : ok m → ok (Metrics.refresh_gauges r m).
Proof.
  intros Hm. apply ok_index_entries, ok_foldl; [|done].
  intros m' w Hm'. unfold Metrics.refresh_worker. auto with schema.
Qed.

Lemma ok_scrape_round is_success get metric_name reg turn m :
  ok m → ok (EngineMetrics.scrape_round is_success get metric_name reg turn m).
Proof.
  intros Hm. apply ok_foldl; [|done]. intros m' w Hm'. rewrite EngineMetrics.scrape_worker_cases.
  case_match; [|done]. unfold EngineMetrics.report. case_match; auto with schema.
Qed.

Lemma ok_record_request worker status a :
  ok (Api.metrics a) → ok (Api.metrics (Api.record_request worker status a)).
Proof. cbn. auto with schema. Qed.

Lemma ok_build_response u t hit tok streaming a :
  ok (Api.metrics a) → ok (Api.metrics (Api.build_response env u t hit tok streaming a).2).
Proof. intros Ha. unfold Api.build_response. by case_match. Qed.

Lemma ok_prefill_phase w a :
  ok (Api.metrics a) → ok (Api.metrics (Api.prefill_phase env w a).2).
Proof.
  intros Ha. unfold Api.prefill_phase. destruct (InflightGuard.acquire _ _) as [g tr].
  destruct (Api.post _ _ _) as [u|]; [|by apply ok_request]. by case_match; [apply ok_request|].
Qed.

Lemma ok_decode_phase {V} (request : ChatCompletionRequest V) id prefill decode ms tms a :
  ok (Api.metrics a) →
  ok (Api.metrics (Api.decode_phase env request id prefill decode ms tms a).2).
Proof.
  intros Ha. unfold Api.decode_phase. destruct (InflightGuard.acquire _ _) as [g tr].
  destruct (Api.post _ _ _) as [u|]; [|by apply ok_request].
  case_match; [by apply ok_request|]. by apply ok_build_response.
Qed.

Lemma ok_serve_proxied {V} (request : ChatCompletionRequest V) id a res a' :
  Api.serve_proxied env request id a = Some (res, a') → ok (Api.metrics a) → ok (Api.metrics a').
Proof.
  unfold Api.serve_proxied. intros Hs Ha. revert Hs.
  destruct (Router.select_for_chat _ _ _) as [[[d|e] r]|]; cbn [mbind option_bind]; [| |done].
  - destruct (InflightGuard.acquire _ _) as [g tr].
    destruct (Api.post _ _ _) as [u|]; [|intros [= _ <-]; by apply ok_request].
    case_match; intros [= Hr]; [subst; by apply ok_request|].
    match type of Hr with ?b = _ => assert (a' = b.2) as -> by by rewrite Hr end.
    by apply ok_build_response.
  - intros [= _ <-]. by apply ok_request.
Qed.

Lemma ok_serve_disaggregated {V} (request : ChatCompletionRequest V) id a :
  ok (Api.metrics a) → ok (Api.metrics (Api.serve_disaggregated env request id a).2).
Proof.
  intros Ha. unfold Api.serve_disaggregated. set (chain := chain_hash _ _).
  destruct (Router.select_in_pool _ Prefill chain _) as [[prefill|e] r]; [|by apply ok_request].
  pose proof (ok_prefill_phase (rd_worker prefill) (Api.with_router r a) Ha) as Hp.
  destruct (Api.prefill_phase _ _ _) as [[ms|e] a2]; [|done]. cbn [snd] in Hp.
  destruct (Router.select_in_pool _ Decode chain _) as [[decode|e] r2]; [|by apply ok_request].
  destruct (kv_transfer _ _ _); [|by apply ok_request].
  apply ok_decode_phase. by apply ok_kv_transfer.
Qed.

Lemma ok_chat_completions {V} payload id a res a' :
  Api.chat_completions (V := V) env payload id a = Some (res, a') →
  ok (Api.metrics a) → ok (Api.metrics a').
Proof.
  unfold Api.chat_completions. intros Hs Ha. destruct payload as [request|e].
  - case_decide; [|by eapply ok_serve_proxied]. injection Hs as Hs.
    replace a' with (Api.serve_disaggregated env request id a).2 by by rewrite Hs.
    by apply ok_serve_disaggregated.
  - by injection Hs as _ <-.
Qed.
End app.

(** ** What can touch the metrics of a running server

    A handler call, one poll of any body, a scrape of [/metrics], a round of
    the engine scraper, and any change of the router by the other tasks. *)

Section steps.
Context {T : Type} `{BI : BeliefIndex T} {HM : HashMapOrder} {BH : BlockHash} {KV : KvTransfer}.

Inductive step : Api.app T → Api.app T → Prop :=
  | step_chat {V} env (payload : result (N * rstr) (ChatCompletionRequest V)) id res a a' :
      Api.chat_completions env payload id a = Some (res, a') → step a a'
  | step_poll now b i b' m tr a :
      ProxyStream.poll now b (Api.metrics a) (Api.tracker a) = (i, b', m, tr) →
      step a (Api.with_tracker tr (Api.with_metrics (λ _, m) a))
  | step_drop_body b a :
      step a (Api.with_tracker (ProxyStream.drop_body b (Api.tracker a)) a)
  | step_metrics a : step a (Api.scrape a)
  | step_engine is_success get turn a :
      step a (Api.with_metrics
        (EngineMetrics.scrape_round is_success get (cfg_engine_cache_hit_metric (Api.config a))
           (Router.registry (Api.router a)) turn) a)
  | step_router r a : step a (Api.with_router r a).

Lemma ok_step a a' : step a a' → ok (Api.metrics a) → ok (Api.metrics a').
Proof.
  intros Hs Ha. destruct Hs as [V env payload id res a a' Hc|now b i b' m tr a Hp|b a|a|is_success get turn a|r a].
  - by eapply ok_chat_completions.
  - pose proof (ok_poll now b _ (Api.tracker a) Ha) as Hok. by rewrite Hp in Hok.
  - exact Ha.
  - by apply ok_refresh.
  - by apply ok_scrape_round.
  - exact Ha.
Qed.
End steps.
End Schema.

(** ** Properties *)

(** The metrics are well typed: whatever a server does after its start,
    every call it has made on the metrics facade is to a declared metric with
    the declared kind, declared names are distinct, and two calls to one metric
    carry the same label keys in the same order. *)
Theorem metrics_declared {T} `{BeliefIndex T} {HM : HashMapOrder} {BH : BlockHash}
    {KV : KvTransfer} (config : RouterConfig) (a : Api.app T)
    (Ha : rtc Schema.step (Api.new config) a) :
  NoDup (Schema.declared.*2) ∧
  (∀ c, c ∈ Metrics.calls (Api.metrics a) →
     (Schema.call_kind c, Schema.call_name c) ∈ Schema.declared) ∧
  (∀ c c', c ∈ Metrics.calls (Api.metrics a) → c' ∈ Metrics.calls (Api.metrics a) →
     Schema.call_name c = Schema.call_name c' →
     Schema.call_kind c = Schema.call_kind c' ∧ Schema.label_keys c = Schema.label_keys c').
Proof.
  assert (Hok : Schema.ok (Api.metrics a)).
  { assert (Schema.ok (Api.metrics (Api.new (T := T) config))) as H0 by constructor.
    induction Ha as [|a1 a2 a3 Hs _ IH]; [done|]. by apply IH, (Schema.ok_step a1 a2 Hs). }
  unfold Schema.ok in Hok. rewrite Forall_forall in Hok.
  split_and!; [exact Schema.names_distinct| |].
  - intros c Hc. by apply Schema.call_ok_declared, Hok.
  - intros c c' Hc Hc'. by apply Schema.call_ok_unique; apply Hok.
Qed.

Section witnesses.
#[local] Existing Instance hm_canonical.
#[local] Existing Instance mock_kv_transfer.

(** A scrape, then a request that fails for want of a healthy worker. *)
Definition idle_app : Api.app PrefixIndex.t := Api.new (sample_config CacheAware two_workers).

Theorem metrics_declared_witness :
  ∃ a : Api.app PrefixIndex.t, length (Metrics.calls (Api.metrics a)) = 6 ∧
    ∀ c, c ∈ Metrics.calls (Api.metrics a) →
      (Schema.call_kind c, Schema.call_name c) ∈ Schema.declared.
Proof.
  exists (default idle_app (snd <$> Api.chat_completions sample_http (Ok hello) (lit "r1")
    (Api.scrape idle_app))).
  split; [vm_compute; reflexivity|].
  match goal with |- ∀ c, c ∈ Metrics.calls (Api.metrics ?a) → _ =>
    apply (metrics_declared (sample_config CacheAware two_workers) a) end.
  eapply rtc_l; [apply Schema.step_metrics|]. eapply rtc_l; [|apply rtc_refl].
  destruct (Api.chat_completions sample_http (Ok hello) (lit "r1") (Api.scrape idle_app))
    as [[res a']|] eqn:E; [|by vm_compute in E].
  by apply (Schema.step_chat sample_http (Ok hello) (lit "r1") res).
Defined.
End witnesses.
