(* ===== verification/Tasks.v ===== *)
(** * Handlers as tasks ([router-server/src/api.rs])

    A handler is an [async fn]: it runs until it awaits the network or the KV
    connector, and the rest of the server runs while it waits.  This file
    writes [serve_proxied] and [serve_disaggregated] as the state machine that
    such a function compiles to, one step per operation on the shared state:
    a selection, taking a guard, the answer of an await, dropping a guard.  Run
    without interference it is [Api.chat_completions]; run with it, the answer
    is still a function of the states in which workers were selected. *)

From S2P Require Import Prelude Float64 Text Hashing Config Request Worker Inflight Belief Prefix Router Discovery Health System PrometheusText Metrics EngineMetrics Stream Api Serving.
From Stdlib Require Import Relations.Relation_Operators Wellfounded.Inclusion Wellfounded.Inverse_Image Wellfounded.Lexicographic_Product Arith.Wf_nat.

Module Task.

(** A suspended handler, with the local variables it still needs. *)
Inductive t {V : Type} :=
  (** Before the policy is looked at. *)
  | Received (request : ChatCompletionRequest V) (request_id : rstr)
  (** [serve_proxied]: a worker is selected; its answer is awaited. *)
  | Proxied (request : ChatCompletionRequest V) (request_id : rstr) (decision : RouteDecision)
  | ProxiedSent (request : ChatCompletionRequest V) (request_id : rstr)
      (decision : RouteDecision) (guard : InflightGuard.t) (started : instant)
  (** [serve_disaggregated]: the prefill phase. *)
  | PrefillChosen (request : ChatCompletionRequest V) (request_id : rstr) (chain : list N)
      (prefill : Worker)
  | PrefillSent (request : ChatCompletionRequest V) (request_id : rstr) (chain : list N)
      (prefill : Worker) (guard : InflightGuard.t) (started : instant)
  (** The rest of the prefill answer is being read. *)
  | PrefillDraining (request : ChatCompletionRequest V) (request_id : rstr) (chain : list N)
      (prefill : Worker) (guard : InflightGuard.t) (started : instant)
      (body : list ProxyStream.item)
  | PrefillDone (request : ChatCompletionRequest V) (request_id : rstr) (chain : list N)
      (prefill : Worker) (prefill_ms : N)
  (** The KV transfer is awaited. *)
  | Transferring (request : ChatCompletionRequest V) (request_id : rstr) (chain : list N)
      (prefill : Worker) (prefill_ms : N) (decode : RouteDecision) (transfer_started : instant)
  (** The decode phase. *)
  | DecodeChosen (request : ChatCompletionRequest V) (request_id : rstr) (prefill : Worker)
      (prefill_ms kv_transfer_ms : N) (decode : RouteDecision)
  | DecodeSent (request : ChatCompletionRequest V) (request_id : rstr) (prefill : Worker)
      (prefill_ms kv_transfer_ms : N) (decode : RouteDecision) (guard : InflightGuard.t)
      (started : instant)
  (** An error that is already counted; the guard goes out of scope next. *)
  | Failing (error : ApiError) (guard : InflightGuard.t).
Arguments t : clear implicits.

(** What a step leaves: a task to go on with, or the handler's result. *)
Abbreviation next V := (t V + result ApiError Api.response)%type.

(** The guard a task holds. *)
Definition guard_of {V} (k : t V) : option InflightGuard.t :=
  match k with
  | ProxiedSent _ _ _ guard _ | PrefillSent _ _ _ _ guard _
  | PrefillDraining _ _ _ _ guard _ _ | DecodeSent _ _ _ _ _ _ guard _
  | Failing _ guard => Some guard
  | _ => None
  end.

(** The worker a task is going to take a guard for. *)
Definition reserved {V} (k : t V) : option Worker :=
  match k with
  | Proxied _ _ decision | Transferring _ _ _ _ _ decision _
  | DecodeChosen _ _ _ _ _ decision => Some (rd_worker decision)
  | PrefillChosen _ _ _ prefill => Some prefill
  | _ => None
  end.

(** Only a task that awaits something can be cancelled. *)
Definition awaits {V} (k : t V) : bool :=
  match k with
  | ProxiedSent _ _ _ _ _ | PrefillSent _ _ _ _ _ _ | PrefillDraining _ _ _ _ _ _ _
  | Transferring _ _ _ _ _ _ _ | DecodeSent _ _ _ _ _ _ _ _ => true
  | _ => false
  end.

Section machine.
Context {T V : Type} `{BI : BeliefIndex T} {HM : HashMapOrder} {BH : BlockHash}.
Implicit Types (a : Api.app T) (k : t V).

Section steps.
Context {KV : KvTransfer} (env : Api.http).

(** The payload is unpacked; a rejection is answered at once. *)
Definition accept (payload : result (N * rstr) (ChatCompletionRequest V)) (request_id : rstr) :
    next V :=
  match payload with
  | Err rejection => inr (Err (from_json_rejection rejection))
  | Ok request => inl (Received request request_id)
  end.

(** The answer of an upstream that must be a success: otherwise the failure is
    counted against the worker and the guard is about to be dropped. *)
Definition answered (worker : Worker) (phase : option rstr) (rejected : rstr)
    (guard : InflightGuard.t) a (success : Api.upstream → next V * Api.app T) :
    next V * Api.app T :=
  match Api.post env (Api.chat_url worker) phase with
  | Err error =>
      (inl (Failing (api_upstream worker error) guard), Api.record_request (w_url worker) 502 a)
  | Ok u =>
      if negb (Api.is_success env (Api.up_status u)) then
        (inl (Failing (api_upstream worker (rejected ++ Api.show_status env (Api.up_status u))) guard),
         Api.record_request (w_url worker) 502 a)
      else success u
  end.

(** The response to the client, once the head of the last answer is there. *)
Definition respond (u : Api.upstream) (request : ChatCompletionRequest V) (request_id : rstr)
    (decision : RouteDecision) (guard : InflightGuard.t) (started : instant)
    (details : CompletionDetails) a : next V * Api.app T :=
  let '(res, a) := Api.build_response env u
    {| rt_request_id := request_id; rt_worker := rd_worker decision;
       rt_policy := Router.policy (Api.router a);
       rt_matched_prefix_blocks := rd_matched_prefix_len decision;
       rt_prompt_blocks := rd_prompt_blocks decision;
       rt_score := rd_score decision; rt_started := started; rt_guard := guard;
       rt_details := details |}
    (Api.prefix_hit_header env u) (Api.completion_tokens_header env u) (req_stream request) a in
  (inr res, a).

Definition select_proxied (request : ChatCompletionRequest V) (request_id : rstr) a :
    option (next V * Api.app T) :=
  '(selected, r) ← Router.select_for_chat (Api.index_clock env 0) request (Api.router a);
  let a := Api.with_router r a in
  match selected with
  | Err error =>
      Some (inr (Err (from_router_error error)), Api.record_request (lit "unrouted") 503 a)
  | Ok decision => Some (inl (Proxied request request_id decision), a)
  end.

Definition select_prefill (request : ChatCompletionRequest V) (request_id : rstr) a :
    next V * Api.app T :=
  let chain := chain_hash (canonical_prompt request) (cfg_prompt_block_chars (Api.config a)) in
  let '(selected, r) := Router.select_in_pool (Api.index_clock env 0) Prefill chain (Api.router a) in
  let a := Api.with_router r a in
  match selected with
  | Err error => (inr (Err (from_router_error error)), Api.record_request (lit "unrouted") 503 a)
  | Ok prefill => (inl (PrefillChosen request request_id chain (rd_worker prefill)), a)
  end.

Definition select_decode (request : ChatCompletionRequest V) (request_id : rstr) (chain : list N)
    (prefill : Worker) (prefill_ms : N) a : next V * Api.app T :=
  let '(selected, r) := Router.select_in_pool (Api.index_clock env 1) Decode chain (Api.router a) in
  let a := Api.with_router r a in
  match selected with
  | Err error => (inr (Err (from_router_error error)), Api.record_request (lit "unrouted") 503 a)
  | Ok decode =>
      (inl (Transferring request request_id chain prefill prefill_ms decode (Api.clock env 2)), a)
  end.

Definition transferred (request : ChatCompletionRequest V) (request_id : rstr) (chain : list N)
    (prefill : Worker) (prefill_ms : N) (decode : RouteDecision) (transfer_started : instant) a :
    next V * Api.app T :=
  match kv_transfer (w_id prefill) (w_id (rd_worker decode)) (length chain) with
  | Err error =>
      (inr (Err (from_router_error error)), Api.record_request (w_url (rd_worker decode)) 502 a)
  | Ok _ =>
      let ms := Metrics.as_millis (ProxyStream.elapsed (Api.clock env 3) transfer_started) in
      (inl (DecodeChosen request request_id prefill prefill_ms ms decode),
       Api.with_metrics
         (Metrics.record_kv_transfer (f64_div (f64_of_N ms) (f64_of_N 1000))) a)
  end.

(** The guard is taken: the counter is incremented, the guard kept. *)
Definition take (worker : Worker) a (go : InflightGuard.t → t V) : next V * Api.app T :=
  let '(guard, tr) := InflightGuard.acquire (Api.tracker a) (w_id worker) in
  (inl (go guard), Api.with_tracker tr a).

(** One step of a handler.  Between two steps everything else may run.  A whole
    selection, which takes one lock per candidate and block, is one step here;
    [Selection] and [Threads] stop at each of its locks. *)
Definition advance k a : option (next V * Api.app T) :=
  match k with
  | Received request request_id =>
      if decide (cfg_routing_policy (Api.config a) = Disaggregated)
      then Some (select_prefill request request_id a)
      else select_proxied request request_id a
  | Proxied request request_id decision =>
      Some (take (rd_worker decision) a
              (λ guard, ProxiedSent request request_id decision guard (Api.clock env 0)))
  | ProxiedSent request request_id decision guard started =>
      Some (answered (rd_worker decision) None (lit "upstream returned ") guard a
              (λ u, respond u request request_id decision guard started Single a))
  | PrefillChosen request request_id chain prefill =>
      Some (take prefill a
              (λ guard, PrefillSent request request_id chain prefill guard (Api.clock env 0)))
  | PrefillSent request request_id chain prefill guard started =>
      Some (answered prefill (Some (lit "prefill")) (lit "prefill phase returned ") guard a
              (λ u, (inl (PrefillDraining request request_id chain prefill guard started
                            (Api.up_body u)), a)))
  | PrefillDraining request request_id chain prefill guard started (Ok _ :: body) =>
      Some (inl (PrefillDraining request request_id chain prefill guard started body), a)
  | PrefillDraining request request_id chain prefill guard started _ =>
      Some (inl (PrefillDone request request_id chain prefill
                   (Metrics.as_millis (ProxyStream.elapsed (Api.clock env 1) started))),
            Api.drop_guard guard a)
  | PrefillDone request request_id chain prefill prefill_ms =>
      Some (select_decode request request_id chain prefill prefill_ms a)
  | Transferring request request_id chain prefill prefill_ms decode transfer_started =>
      Some (transferred request request_id chain prefill prefill_ms decode transfer_started a)
  | DecodeChosen request request_id prefill prefill_ms kv_transfer_ms decode =>
      Some (take (rd_worker decode) a
              (λ guard, DecodeSent request request_id prefill prefill_ms kv_transfer_ms decode
                          guard (Api.clock env 4)))
  | DecodeSent request request_id prefill prefill_ms kv_transfer_ms decode guard started =>
      Some (answered (rd_worker decode) (Some (lit "decode")) (lit "decode phase returned ") guard a
              (λ u, respond u request request_id decode guard started
                      (DisaggregatedDetails (w_url prefill) prefill_ms kv_transfer_ms) a))
  | Failing error guard => Some (inr (Err error), Api.drop_guard guard a)
  end.

(** The handler alone, for at most [n] steps. *)
Fixpoint run (n : nat) (x : next V * Api.app T) : option (result ApiError Api.response * Api.app T) :=
  match x, n with
  | (inr res, a), _ => Some (res, a)
  | (inl k, a), S n => x ← advance k a; run n x
  | (inl _, _), O => None
  end.
End steps.

(** The handler is dropped while it awaits: so is its guard. *)
Definition cancel k a : Api.app T :=
  match guard_of k with Some guard => Api.drop_guard guard a | None => a end.

(** ** The handler alone *)

Section alone.
Context {KV : KvTransfer} (env : Api.http).

(** [x] comes to the result [y] when nothing interferes. *)
Definition evaluates (x : next V * Api.app T) (y : result ApiError Api.response * Api.app T) : Prop :=
  ∃ fuel, ∀ n, fuel ≤ n → run env n x = Some y.

Lemma evaluates_done res a : evaluates (inr res, a) (res, a).
Proof. exists 0. by intros []. Qed.

Lemma evaluates_step k a x y : advance env k a = Some x → evaluates x y → evaluates (inl k, a) y.
Proof.
  intros Hk [fuel Hx]. exists (S fuel). intros [|n] Hn; [lia|]. cbn [run].
  rewrite Hk. apply Hx. lia.
Qed.

Lemma evaluates_failing error guard a :
  evaluates (inl (Failing error guard), a) (Err error, Api.drop_guard guard a).
Proof. by eapply evaluates_step, evaluates_done. Qed.

(** Reading the prefill answer: whatever its items, the guard is dropped next. *)
Lemma evaluates_draining request request_id chain prefill guard started body a y :
  evaluates (inl (PrefillDone request request_id chain prefill
               (Metrics.as_millis (ProxyStream.elapsed (Api.clock env 1) started))),
             Api.drop_guard guard a) y →
  evaluates (inl (PrefillDraining request request_id chain prefill guard started body), a) y.
Proof.
  intros Hy. induction body as [|[chunk|e] body IH]; by eapply evaluates_step.
Qed.

Lemma evaluates_respond u request request_id d guard started details a :
  evaluates (respond env u request request_id d guard started details a)
    (Api.build_response env u
      {| rt_request_id := request_id; rt_worker := rd_worker d;
         rt_policy := Router.policy (Api.router a);
         rt_matched_prefix_blocks := rd_matched_prefix_len d;
         rt_prompt_blocks := rd_prompt_blocks d; rt_score := rd_score d;
         rt_started := started; rt_guard := guard; rt_details := details |}
      (Api.prefix_hit_header env u) (Api.completion_tokens_header env u) (req_stream request) a).
Proof. unfold respond. destruct (Api.build_response _ _ _ _ _ _ _). apply evaluates_done. Qed.

Lemma evaluates_proxied request request_id a y :
  Api.serve_proxied env request request_id a = Some y →
  ∃ x, select_proxied env request request_id a = Some x ∧ evaluates x y.
Proof.
  unfold Api.serve_proxied, select_proxied.
  destruct (Router.select_for_chat _ _ _) as [[[d|e] r]|]; cbn [mbind option_bind]; [| |done].
  2:{ intros [= <-]. eexists. split; [done|]. apply evaluates_done. }
  intros Hy. eexists. split; [done|]. eapply evaluates_step; [done|]. unfold take.
  destruct (InflightGuard.acquire _ _) as [g tr]. cbn zeta in Hy.
  eapply evaluates_step; [done|]. unfold answered.
  destruct (Api.post _ _ _) as [u|e]; [|injection Hy as <-; apply evaluates_failing].
  destruct (negb _); injection Hy as <-; [apply evaluates_failing|apply evaluates_respond].
Qed.

Lemma evaluates_decode request request_id prefill decode ms tms a :
  evaluates (inl (DecodeChosen request request_id prefill ms tms decode), a)
    (Api.decode_phase env request request_id prefill decode ms tms a).
Proof.
  eapply evaluates_step; [done|]. unfold take, Api.decode_phase.
  destruct (InflightGuard.acquire _ _) as [g tr].
  eapply evaluates_step; [done|]. unfold answered.
  destruct (Api.post _ _ _) as [u|e]; [|apply evaluates_failing].
  destruct (negb _); [apply evaluates_failing|apply evaluates_respond].
Qed.

Lemma evaluates_prefill request request_id chain prefill a y :
  match Api.prefill_phase env prefill a with
  | (Err e, a') => y = (Err e, a')
  | (Ok ms, a') => evaluates (inl (PrefillDone request request_id chain prefill ms), a') y
  end →
  evaluates (inl (PrefillChosen request request_id chain prefill), a) y.
Proof.
  unfold Api.prefill_phase. intros Hy. eapply evaluates_step; [done|]. unfold take.
  destruct (InflightGuard.acquire _ _) as [g tr].
  eapply evaluates_step; [done|]. unfold answered.
  destruct (Api.post _ _ _) as [u|e]; [|subst y; apply evaluates_failing].
  destruct (negb _); [subst y; apply evaluates_failing|]. by apply evaluates_draining.
Qed.

Lemma evaluates_disaggregated request request_id a :
  evaluates (select_prefill env request request_id a)
    (Api.serve_disaggregated env request request_id a).
Proof.
  unfold Api.serve_disaggregated, select_prefill. set (chain := chain_hash _ _).
  destruct (Router.select_in_pool _ Prefill chain _) as [[p|e] r]; [|apply evaluates_done].
  apply evaluates_prefill.
  destruct (Api.prefill_phase _ _ _) as [[ms|e] a2]; [|done].
  eapply evaluates_step; [done|]. unfold select_decode.
  destruct (Router.select_in_pool _ Decode chain _) as [[d|e] r2]; [|apply evaluates_done].
  eapply evaluates_step; [done|]. unfold transferred.
  destruct (kv_transfer _ _ _); [|apply evaluates_done]. apply evaluates_decode.
Qed.
End alone.

(** ** No step is stuck, and no handler goes on for ever *)

Definition rank k : nat :=
  match k with
  | Received _ _ => 9
  | PrefillChosen _ _ _ _ => 8
  | PrefillSent _ _ _ _ _ _ => 7
  | PrefillDraining _ _ _ _ _ _ _ => 6
  | PrefillDone _ _ _ _ _ => 5
  | Transferring _ _ _ _ _ _ _ => 4
  | DecodeChosen _ _ _ _ _ _ | Proxied _ _ _ => 3
  | DecodeSent _ _ _ _ _ _ _ _ | ProxiedSent _ _ _ _ _ => 2
  | Failing _ _ => 1
  end.

(** Items of the prefill answer that are still to be read. *)
Definition unread k : nat :=
  match k with PrefillDraining _ _ _ _ _ _ body => length body | _ => 0 end.

Definition measure k : nat * nat := (rank k, unread k).

Definition before : t V → t V → Prop := λ k' k, slexprod nat nat lt lt (measure k') (measure k).

Lemma before_wf : well_founded before.
Proof. apply (wf_inverse_image (t V) _ (slexprod nat nat lt lt) measure), wf_slexprod; apply lt_wf. Qed.

Lemma answered_before {KV : KvTransfer} env worker phase rejected guard a success k k' a' :
  answered env worker phase rejected guard a success = (inl k', a') →
  1 < rank k → (∀ u x, success u = (inl x, a') → before x k) → before k' k.
Proof.
  unfold answered. intros Hk Hr Hs. destruct (Api.post _ _ _) as [u|e].
  - destruct (negb _); [|by eapply Hs]. injection Hk as <- _. by left.
  - injection Hk as <- _. by left.
Qed.

Lemma respond_not_task {KV : KvTransfer} env u request request_id d guard started details a x a' :
  respond env u request request_id d guard started details a ≠ (inl x, a').
Proof. unfold respond. by destruct (Api.build_response _ _ _ _ _ _ _). Qed.

Lemma advance_before {KV : KvTransfer} env k a k' a' :
  advance env k a = Some (inl k', a') → before k' k.
Proof.
  destruct k as [req id|req id d|req id d g st|req id ch p|req id ch p g st|req id ch p g st body
    |req id ch p ms|req id ch p ms d st|req id p ms tms d|req id p ms tms d g st|e g]; cbn.
  - case_decide.
    + unfold select_prefill. destruct (Router.select_in_pool _ _ _ _) as [[p|e] r]; [|done].
      intros [= <- _]. left. simpl. lia.
    + unfold select_proxied. destruct (Router.select_for_chat _ _ _) as [[[d|e] r]|]; [|done..].
      intros [= <- _]. left. simpl. lia.
  - intros [= <- _]. left. simpl. lia.
  - intros [= Hk]. eapply answered_before; [exact Hk|simpl; lia|].
    by intros u x ?%respond_not_task.
  - intros [= <- _]. left. simpl. lia.
  - intros [= Hk]. eapply answered_before; [exact Hk|simpl; lia|].
    intros u x [= <-]. left. simpl. lia.
  - destruct body as [|[] body]; intros [= <- _]; [left; simpl; lia|right; simpl; lia|left; simpl; lia].
  - unfold select_decode. destruct (Router.select_in_pool _ _ _ _) as [[d|e] r]; [|done].
    intros [= <- _]. left. simpl. lia.
  - unfold transferred. destruct (kv_transfer _ _ _); [|done]. intros [= <- _]. left. simpl. lia.
  - intros [= <- _]. left. simpl. lia.
  - intros [= Hk]. eapply answered_before; [exact Hk|simpl; lia|].
    by intros u x ?%respond_not_task.
  - done.
Qed.

Lemma advance_total {KV : KvTransfer} env k a : is_Some (advance env k a).
Proof.
  destruct k as [req id| | | | |? ? ? ? ? ? [|[] ?]| | | | |]; cbn; try by eexists.
  case_decide; [by eexists|]. unfold select_proxied.
  destruct (Router.select_for_chat_frame (Api.index_clock env 0) req (Api.router a))
    as (out & r & -> & _). cbn [mbind option_bind]. destruct out; by eexists.
Qed.

(** ** Interference

    What the rest of the server may do between two steps of a handler: anything
    that keeps the configuration and the policy, which no operation changes. *)

Definition rely a a' : Prop :=
  Api.config a' = Api.config a ∧ Router.policy (Api.router a') = Router.policy (Api.router a).

#[global] Instance rely_preorder : PreOrder rely.
Proof.
  split; [done|]. intros a1 a2 a3 [Hc Hp] [Hc' Hp']. split; congruence.
Qed.

(** A handler itself keeps to it. *)
Lemma rely_answered {KV : KvTransfer} env worker phase rejected guard a success x a' :
  answered env worker phase rejected guard a success = (x, a') →
  (∀ u, success u = (x, a') → rely a a') → rely a a'.
Proof.
  unfold answered. intros Hx Hs. destruct (Api.post _ _ _) as [u|e]; [|by injection Hx as _ <-].
  destruct (negb _); [by injection Hx as _ <-|by eapply Hs].
Qed.

Lemma rely_respond {KV : KvTransfer} env u request request_id d guard started details a x a' :
  respond env u request request_id d guard started details a = (x, a') → rely a a'.
Proof.
  unfold respond, Api.build_response.
  match goal with |- context [if ?b then _ else _] => destruct b end; by intros [= _ <-].
Qed.

Lemma advance_rely {KV : KvTransfer} env k a x a' : advance env k a = Some (x, a') → rely a a'.
Proof.
  assert (Hpool : ∀ now pool chain out r,
    Router.select_in_pool now pool chain (Api.router a) = (out, r) → rely a (Api.with_router r a)).
  { intros now pool chain out r Hs.
    destruct (Router.select_in_pool_frame now pool chain (Api.router a)) as (_ & Hp & _).
    split; [done|]. by rewrite Hs in Hp. }
  destruct k as [req id|req id d|req id d g st|req id ch p|req id ch p g st|req id ch p g st body
    |req id ch p ms|req id ch p ms d st|req id p ms tms d|req id p ms tms d g st|e g];
    cbn [advance].
  - case_decide.
    + unfold select_prefill. destruct (Router.select_in_pool _ _ _ _) as [[p|e] r] eqn:Hs;
        intros [= _ <-]; by apply Hpool in Hs.
    + unfold select_proxied.
      destruct (Router.select_for_chat_frame (Api.index_clock env 0) req (Api.router a))
        as (out & r & -> & (_ & Hp & _) & _). by destruct out; intros [= _ <-].
  - by intros [= _ <-].
  - intros Hx%(inj Some). eapply rely_answered; [exact Hx|]. intros u. apply rely_respond.
  - by intros [= _ <-].
  - intros Hx%(inj Some). eapply rely_answered; [exact Hx|]. by intros u [= _ <-].
  - by destruct body as [|[] body]; intros [= _ <-].
  - unfold select_decode. destruct (Router.select_in_pool _ _ _ _) as [[d|e] r] eqn:Hs;
      intros [= _ <-]; by apply Hpool in Hs.
  - unfold transferred. by destruct (kv_transfer _ _ _); intros [= _ <-].
  - by intros [= _ <-].
  - intros Hx%(inj Some). eapply rely_answered; [exact Hx|]. intros u. apply rely_respond.
  - by intros [= _ <-].
Qed.

Section interference.
Context {KV : KvTransfer} (env : Api.http).

(** The handler answers [res], the shared state changing before every step. *)
Inductive interfered : next V * Api.app T → result ApiError Api.response → Prop :=
  | interfered_done res a : interfered (inr res, a) res
  | interfered_step k a a' x res :
      rely a a' → advance env k a' = Some x → interfered x res → interfered (inl k, a) res.

Lemma interfered_inv k a res :
  interfered (inl k, a) res →
  ∃ a' x, rely a a' ∧ advance env k a' = Some x ∧ interfered x res.
Proof. intros Hi. inversion Hi; subst. by eexists _, _. Qed.

Lemma interfered_result res a res' : interfered (inr res, a) res' → res' = res.
Proof. intros Hi. by inversion Hi. Qed.

Lemma interfered_failing error guard a res :
  interfered (inl (Failing error guard), a) res → res = Err error.
Proof. by intros (a' & x & _ & [= <-] & ->%interfered_result)%interfered_inv. Qed.

(** What a client is told does not depend on the shared state. *)
Lemma build_response_result u t hit tok streaming a a' :
  (Api.build_response env u t hit tok streaming a).1 =
  (Api.build_response env u t hit tok streaming a').1.
Proof. unfold Api.build_response. by case_match. Qed.

(** The answer to the client after a phase whose answer is awaited. *)
Lemma interfered_answered worker phase rejected guard a success res :
  interfered (answered env worker phase rejected guard a success) res →
  match Api.post env (Api.chat_url worker) phase with
  | Err error => res = Err (api_upstream worker error)
  | Ok u =>
      if negb (Api.is_success env (Api.up_status u))
      then res = Err (api_upstream worker (rejected ++ Api.show_status env (Api.up_status u)))
      else interfered (success u) res
  end.
Proof.
  unfold answered. destruct (Api.post _ _ _) as [u|e]; [|apply interfered_failing].
  destruct (negb _); [apply interfered_failing|done].
Qed.

Lemma interfered_respond u request request_id d guard started details a res :
  interfered (respond env u request request_id d guard started details a) res →
  res = (Api.build_response env u
      {| rt_request_id := request_id; rt_worker := rd_worker d;
         rt_policy := Router.policy (Api.router a);
         rt_matched_prefix_blocks := rd_matched_prefix_len d;
         rt_prompt_blocks := rd_prompt_blocks d; rt_score := rd_score d;
         rt_started := started; rt_guard := guard; rt_details := details |}
      (Api.prefix_hit_header env u) (Api.completion_tokens_header env u) (req_stream request) a).1.
Proof.
  unfold respond. destruct (Api.build_response _ _ _ _ _ _ _). apply interfered_result.
Qed.

(** [take] yields the same guard in every state. *)
Lemma interfered_take worker a go res :
  interfered (take worker a go) res →
  ∃ a', rely a a' ∧ interfered (inl (go {| InflightGuard.worker := w_id worker |}), a') res.
Proof.
  intros Hi. eexists (Api.with_tracker _ a). split; [|exact Hi]. done.
Qed.

(** No interference is a special case. *)
Lemma interfered_run n x res a' : run env n x = Some (res, a') → interfered x res.
Proof.
  revert x. induction n as [|n IH]; intros [[k|res'] a]; cbn [run]; [done| | |];
    try (intros [= <- _]; constructor).
  destruct (advance env k a) as [x|] eqn:Hk; [|done]. cbn [mbind option_bind]. intros Hx%IH.
  by eapply interfered_step.
Qed.

(** However the prefill answer is read, the handler comes to its end. *)
Lemma interfered_draining request request_id chain prefill guard started body a res :
  interfered (inl (PrefillDraining request request_id chain prefill guard started body), a) res →
  ∃ a' ms, rely a a' ∧ interfered (inl (PrefillDone request request_id chain prefill ms), a') res.
Proof.
  revert a. induction body as [|[chunk|e] body IH]; intros a Hi;
    apply interfered_inv in Hi as (a1 & x & Hr & [= <-] & Hi);
    [by eexists (Api.drop_guard _ a1), _; split| |by eexists (Api.drop_guard _ a1), _; split].
  apply IH in Hi as (a' & ms & Hr' & Hi). exists a', ms. split; [by etrans|done].
Qed.

(** An answer that is not a success. *)
Definition refused (worker : Worker) (phase : rstr) : Prop :=
  ∀ u, Api.post env (Api.chat_url worker) (Some phase) = Ok u →
       Api.is_success env (Api.up_status u) = false.

Lemma interfered_phase worker phase rejected guard a success res :
  interfered (answered env worker (Some phase) rejected guard a success) res →
  (∃ message, refused worker phase ∧ res = Err (api_upstream worker message)) ∨
  (∃ u, Api.post env (Api.chat_url worker) (Some phase) = Ok u ∧
     Api.is_success env (Api.up_status u) = true ∧ interfered (success u) res).
Proof.
  intros Hi%interfered_answered. unfold refused.
  destruct (Api.post _ _ _) as [u|e] eqn:Hpost; [|left; eexists; by split].
  destruct (Api.is_success env (Api.up_status u)) eqn:Hs; [right; by exists u|].
  left. eexists. split; [|exact Hi]. by intros ? [= <-].
Qed.
End interference.
End machine.
End Task.

(** ** What a selection in a pool answers *)

Section pools.
Context {T : Type} `{BI : BeliefIndex T} {HM : HashMapOrder}.

Lemma choose_none now e ws chain (r : Router.t T) e' r' :
  Router.choose now e ws chain r = (Err e', r') → ws = [].
Proof.
  unfold Router.choose, Router.pick_best.
  pose proof (Handler.score_all_workers now 0 chain ws r) as Hws.
  destruct (Router.score_all _ _ _ _ _) as [ss r1]. cbn [fst] in Hws. subst ws.
  destruct (max_by _ ss) as [best|] eqn:Hb; [done|]. by destruct ss.
Qed.

Lemma select_in_pool_outcome now pool chain (r : Router.t T) out r' :
  Router.select_in_pool now pool chain r = (out, r') →
  match out with
  | Ok d => rd_worker d ∈ Router.pool_candidates pool r
  | Err e => Router.pool_candidates pool r = [] ∧ e = Router.no_healthy_in_pool pool r
  end.
Proof.
  unfold Router.select_in_pool. case_decide as He; [by intros [= <- _]|]. intros Hc.
  destruct out as [d|e]; [by eapply Handler.choose_member|]. by apply choose_none in Hc.
Qed.
End pools.

(** ** Properties *)

(** C10.  A handler that is not interrupted is the handler function: stepped from
    the accepted payload, whatever the policy, the upstreams and the connector
    answer, the state machine comes to exactly the result and the state of
    [Api.chat_completions]. *)
Theorem uninterrupted_handler_is_api {T V} `{BeliefIndex T} {HM : HashMapOrder}
    {BH : BlockHash} {KV : KvTransfer} (env : Api.http)
    (payload : result (N * rstr) (ChatCompletionRequest V)) (request_id : rstr)
    (a : Api.app T) :
  ∃ out fuel, Api.chat_completions env payload request_id a = Some out ∧
    ∀ n, fuel ≤ n → Task.run env n (Task.accept payload request_id, a) = Some out.
Proof.
  destruct payload as [request|e]; cbn [Api.chat_completions Task.accept].
  2:{ eexists _, 0. split; [done|]. by intros []. }
  assert (Hout : ∃ out, Api.chat_completions env (Ok request) request_id a = Some out ∧
    Task.evaluates env (inl (Task.Received request request_id), a) out).
  { unfold Api.chat_completions. case_decide as Hd.
    - eexists. split; [done|]. eapply Task.evaluates_step, Task.evaluates_disaggregated.
      cbn [Task.advance]. by rewrite decide_True.
    - destruct (Api.serve_proxied env request request_id a) as [y|] eqn:Hy.
      + destruct (Task.evaluates_proxied env request request_id a y Hy) as (x & Hx & Hxy).
        exists y. split; [done|]. eapply Task.evaluates_step, Hxy.
        cbn [Task.advance]. by rewrite decide_False.
      + destruct (Router.select_for_chat_frame (Api.index_clock env 0) request (Api.router a))
          as (out & r & Hsel & _). revert Hy. unfold Api.serve_proxied. rewrite Hsel.
        cbn [mbind option_bind]. destruct out; [|done].
        destruct (InflightGuard.acquire _ _). destruct (Api.post _ _ _); [|done].
        by destruct (negb _). }
  destruct Hout as (out & Hc & fuel & Hf). by exists out, fuel.
Qed.

(** C17.  Handlers make progress: no step of a handler is ever stuck, and
    whatever the shared state, the upstreams, the connector and the clocks are
    at each of its steps, it takes finitely many of them (the steps of any one
    handler form a well-founded relation). *)
Theorem handlers_terminate (T V : Type) `{BeliefIndex T} {HM : HashMapOrder} {BH : BlockHash} :
  (∀ {KV : KvTransfer} env (k : Task.t V) (a : Api.app T), is_Some (Task.advance env k a)) ∧
  well_founded (λ k' k : Task.t V, ∃ (KV : KvTransfer) env (a a' : Api.app T),
    Task.advance env k a = Some (inl k', a')).
Proof.
  split; [intros; apply Task.advance_total|].
  eapply wf_incl, Task.before_wf. intros k' k (KV & env & a & a' & Hk).
  by eapply Task.advance_before.
Qed.

(** The proxy's answer is decided when its worker is selected: however the
    rest of the server changes the state between the later steps of the
    handler, the client is told exactly what the uninterrupted handler answers
    in the state of the selection. *)
Theorem proxied_answer_fixed_by_selection {T V} `{BeliefIndex T} {HM : HashMapOrder}
    {BH : BlockHash} {KV : KvTransfer} (env : Api.http) (request : ChatCompletionRequest V)
    (request_id : rstr) (a : Api.app T) (x : Task.next V * Api.app T)
    (res : result ApiError Api.response)
    (Hp : cfg_routing_policy (Api.config a) ≠ Disaggregated)
    (Hsel : Task.advance env (Task.Received request request_id) a = Some x)
    (Hres : Task.interfered env x res) :
  ∃ a', Api.chat_completions env (Ok request) request_id a = Some (res, a').
Proof.
  revert Hsel. cbn [Task.advance Api.chat_completions]. rewrite !decide_False by done.
  unfold Task.select_proxied, Api.serve_proxied.
  destruct (Router.select_for_chat_frame (Api.index_clock env 0) request (Api.router a))
    as (out & r & -> & (_ & Hpol & _) & _).
  cbn [mbind option_bind]. destruct out as [d|e]; intros [= <-].
  2:{ apply Task.interfered_result in Hres as ->. by eexists. }
  apply Task.interfered_inv in Hres as (a1 & x1 & [_ Hr1] & [= <-] & Hres).
  apply Task.interfered_take in Hres as (a2 & [_ Hr2] & Hres).
  apply Task.interfered_inv in Hres as (a3 & x3 & [_ Hr3] & [= <-] & Hres).
  apply Task.interfered_answered in Hres. cbn [InflightGuard.acquire].
  destruct (Api.post _ _ _) as [u|e]; [|subst res; by eexists].
  destruct (negb _); [subst res; by eexists|]. apply Task.interfered_respond in Hres.
  rewrite Hr3, Hr2, Hr1 in Hres. subst res. eexists.
  rewrite (surjective_pairing (Api.build_response _ _ _ _ _ _ _)). do 2 f_equal.
  apply Task.build_response_result.
Qed.

(** What the two-phase flow may tell the client, [a] being the state in which
    the prefill worker is selected. *)
Definition disaggregated_outcome {T} `{BeliefIndex T} {HM : HashMapOrder} {KV : KvTransfer}
    (env : Api.http) (chain : list N) (a : Api.app T) (res : result ApiError Api.response) : Prop :=
  let candidates pool a := Router.pool_candidates pool (Api.router a) in
  match res with
  | Ok resp =>
      ∃ prefill decode a2 u u' s,
        prefill ∈ candidates Prefill a ∧ Task.rely a a2 ∧ decode ∈ candidates Decode a2 ∧
        Api.post env (Api.chat_url prefill) (Some (lit "prefill")) = Ok u ∧
        Api.is_success env (Api.up_status u) = true ∧
        kv_transfer (w_id prefill) (w_id decode) (length chain) = Ok tt ∧
        Api.post env (Api.chat_url decode) (Some (lit "decode")) = Ok u' ∧
        Api.is_success env (Api.up_status u') = true ∧
        (lit "x-router-worker", w_url decode) ∈ Api.resp_headers resp ∧
        Api.resp_body resp = Some s ∧ ProxyStream.inner s = Api.up_body u' ∧
        rt_guard (ProxyStream.telemetry s) = {| InflightGuard.worker := w_id decode |}
  | Err e =>
      (e = api_no_healthy_workers ∧
        (candidates Prefill a = [] ∨ ∃ a2, Task.rely a a2 ∧ candidates Decode a2 = [])) ∨
      (∃ w phase message, Task.refused env w phase ∧ e = api_upstream w message) ∨
      (∃ prefill decode error, kv_transfer (w_id prefill) (w_id decode) (length chain) = Err error ∧
         e = from_router_error error) ∨
      Api.rejected_headers e
  end.

Section phases.
Context {T V : Type} `{BI : BeliefIndex T} {HM : HashMapOrder} {BH : BlockHash} {KV : KvTransfer}.
Context (env : Api.http) (chain : list N) (a : Api.app T).
Implicit Types (b : Api.app T).

(** From the decode selection on. *)
Lemma decode_outcome (request : ChatCompletionRequest V) request_id prefill ms u b res :
  prefill ∈ Router.pool_candidates Prefill (Api.router a) → Task.rely a b →
  Api.post env (Api.chat_url prefill) (Some (lit "prefill")) = Ok u →
  Api.is_success env (Api.up_status u) = true →
  Task.interfered env (inl (Task.PrefillDone request request_id chain prefill ms), b) res →
  disaggregated_outcome env chain a res.
Proof.
  intros Hp Hab Hu Hsu (b1 & x & Hr1 & [= <-] & Hi)%Task.interfered_inv. revert Hi.
  unfold Task.select_decode.
  destruct (Router.select_in_pool _ Decode chain _) as [[d|e] r] eqn:Hsel;
    apply select_in_pool_outcome in Hsel.
  2:{ intros ->%Task.interfered_result. destruct Hsel as [Hnone ->].
      left. split; [done|]. right. exists b1. split; [by etrans|done]. }
  intros (b2 & x & _ & [= <-] & Hi)%Task.interfered_inv. revert Hi. unfold Task.transferred.
  destruct (kv_transfer _ _ _) as [[]|e] eqn:Hkv.
  2:{ intros ->%Task.interfered_result. right. right. left. by eexists _, _, _. }
  intros (b3 & x & _ & [= <-] & Hi)%Task.interfered_inv.
  apply Task.interfered_take in Hi as (b4 & _ & Hi).
  apply Task.interfered_inv in Hi as (b5 & x & _ & [= <-] & Hi).
  apply Task.interfered_phase in Hi as [(message & Hf & ->)|(u' & Hu' & Hsu' & Hi)].
  { right. left. by eexists _, _, _. }
  apply Task.interfered_respond in Hi.
  match type of Hi with _ = (Api.build_response env u' ?t ?h ?k ?st ?x).1 =>
    destruct (Api.build_response_cases env u' t h k st x)
      as [(headers & Hb & Hh & _)|(e & a' & Hb & He & _)]; rewrite Hb in Hi end; subst res.
  - exists prefill, (rd_worker d), b1, u, u'. eexists. split_and!; try done. by etrans.
  - by do 3 right.
Qed.
End phases.

(** C12.  Two phases under interference: however the rest of the server changes the
    state between the steps of the handler, a stream is answered only when a
    worker that was healthy at its selection accepted the prefill, the
    connector moved the whole chain from it to a decode worker that was healthy
    at its own, later, selection, and that worker accepted the decode; the
    stream is that worker's and holds its slot.  Every error names its cause:
    no healthy worker in a pool at that pool's selection, a worker that
    refused, the connector, or headers that cannot be built. *)
Theorem disaggregated_under_interference {T V} `{BeliefIndex T} {HM : HashMapOrder}
    {BH : BlockHash} {KV : KvTransfer} (env : Api.http) (request : ChatCompletionRequest V)
    (request_id : rstr) (a : Api.app T) (x : Task.next V * Api.app T)
    (res : result ApiError Api.response)
    (Hp : cfg_routing_policy (Api.config a) = Disaggregated)
    (Hsel : Task.advance env (Task.Received request request_id) a = Some x)
    (Hres : Task.interfered env x res) :
  disaggregated_outcome env
    (chain_hash (canonical_prompt request) (cfg_prompt_block_chars (Api.config a))) a res.
Proof.
  revert Hsel. cbn [Task.advance]. rewrite decide_True by done. unfold Task.select_prefill.
  set (chain := chain_hash _ _).
  destruct (Router.select_in_pool _ Prefill chain _) as [[d|e] r] eqn:Hs;
    pose proof (Router.select_in_pool_frame (Api.index_clock env 0) Prefill chain (Api.router a))
      as (_ & Hpol & _); rewrite Hs in Hpol; cbn [snd] in Hpol;
    apply select_in_pool_outcome in Hs; intros [= <-].
  2:{ apply Task.interfered_result in Hres as ->. destruct Hs as [Hnone ->]. left.
      split; [done|by left]. }
  apply Task.interfered_inv in Hres as (a1 & x1 & Hr1 & [= <-] & Hres).
  apply Task.interfered_take in Hres as (a2 & Hr2 & Hres).
  apply Task.interfered_inv in Hres as (a3 & x3 & Hr3 & [= <-] & Hres).
  apply Task.interfered_phase in Hres as [(message & Hf & ->)|(u & Hu & Hsu & Hres)].
  { right. left. by eexists _, _, _. }
  apply Task.interfered_draining in Hres as (a4 & ms & Hr4 & Hres).
  eapply decode_outcome; [exact Hs| |exact Hu|exact Hsu|exact Hres].
  etrans; [|exact Hr4]. etrans; [|exact Hr3]. etrans; [|exact Hr2].
  etrans; [|exact Hr1]. by split.
Qed.

Section witnesses.
#[local] Existing Instance hm_canonical.
#[local] Existing Instance mock_kv_transfer.

(** Worker 0 goes down right after it has been selected. *)
Definition lose_worker_a (a : Api.app PrefixIndex.t) : Api.app PrefixIndex.t :=
  Api.with_router (Health.mark worker_a false (Api.router a)) a.

Definition step_of (k : Task.t unit) (a : Api.app PrefixIndex.t) :
    Task.next unit * Api.app PrefixIndex.t :=
  default (inl k, a) (Task.advance sample_http k a).

Definition selected : Task.next unit * Api.app PrefixIndex.t :=
  step_of (Task.Received hello (lit "r1")) app_a.

(** The rest of the handler, from the state without that worker. *)
Definition answered_anyway : result ApiError Api.response :=
  match Task.run sample_http 2 (selected.1, lose_worker_a selected.2) with
  | Some (res, _) => res
  | None => Err api_no_healthy_workers
  end.

Lemma interfered_from k (a a1 : Api.app PrefixIndex.t) n res a' :
  Task.rely a a1 → Task.run sample_http (S n) (inl k, a1) = Some (res, a') →
  Task.interfered (V := unit) sample_http (inl k, a) res.
Proof.
  intros Hr Hrun%Task.interfered_run. inversion Hrun as [|? ? a2 x ? Hr2 Hk Hi]; subst.
  eapply Task.interfered_step; [|exact Hk|exact Hi]. by etrans.
Qed.

Theorem proxied_answer_fixed_by_selection_witness :
  (∃ resp, answered_anyway = Ok resp) ∧
  ∃ a', Api.chat_completions sample_http (Ok hello) (lit "r1") app_a = Some (answered_anyway, a').
Proof.
  split; [vm_compute; by eexists|].
  apply (proxied_answer_fixed_by_selection sample_http hello (lit "r1") app_a selected answered_anyway).
  - discriminate.
  - vm_compute. reflexivity.
  - apply (interfered_from _ _ (lose_worker_a selected.2) 1 _
      (default app_a (snd <$> Task.run sample_http 2 (selected.1, lose_worker_a selected.2)))).
    + split; vm_compute; reflexivity.
    + vm_compute. reflexivity.
Defined.

Definition phases_result : result ApiError Api.response :=
  match Task.run sample_http 20 (inl (Task.Received hello (lit "r1")), app_pd) with
  | Some (res, _) => res
  | None => Err api_no_healthy_workers
  end.

Theorem disaggregated_under_interference_witness :
  (∃ resp, phases_result = Ok resp) ∧
  disaggregated_outcome sample_http
    (chain_hash (canonical_prompt hello) (cfg_prompt_block_chars (Api.config app_pd))) app_pd
    phases_result.
Proof.
  split; [vm_compute; by eexists|].
  apply (disaggregated_under_interference sample_http hello (lit "r1") app_pd
    (step_of (Task.Received hello (lit "r1")) app_pd) phases_result).
  - reflexivity.
  - vm_compute. reflexivity.
  - apply (Task.interfered_run sample_http 19 _ _
      (default app_pd (snd <$> Task.run sample_http 19 (step_of (Task.Received hello (lit "r1")) app_pd)))).
    vm_compute. reflexivity.
Defined.
End witnesses.
