(* ===== verification/Interleaved.v ===== *)
(** * The server with its handlers interleaved

    Any number of handlers ([Task]) is under way, each somewhere between two
    points at which it awaits or touches the shared state; any of them may make
    its next step, be cancelled while it awaits, or wait, while bodies stream and
    the background tasks run.  [Serving] is the special case in which a handler
    runs in one piece.

    The grain: a selection (scoring and recording), the answer to a probe, a
    watch event and a poll of a body are each one step here.  The program
    releases its locks inside all four; [Threads] takes the first three apart,
    lock by lock, and [HitRates.Recordings] the end of a body. *)

From S2P Require Import Prelude Float64 Text Hashing Config Request Worker Inflight Belief Prefix Router Discovery Health System PrometheusText Metrics EngineMetrics Stream Api Serving Schema Tasks.

(** ** What one step of a handler does to the shared router and to its guard *)

Module TaskEffect.

Section effects.
Context {T V : Type} `{BI : BeliefIndex T} {HM : HashMapOrder} {BH : BlockHash}.
Implicit Types (a : Api.app T) (r : Router.t T) (k : Task.t V) (x : Task.next V).

(** The guards held after a step: the task's, or those of its response. *)
Definition held x : list InflightGuard.t :=
  match x with
  | inl k => option_list (Task.guard_of k)
  | inr res => Handler.opened res
  end.

(** A step keeps the router, selects, takes the guard of the worker it has
    selected, or drops the guard it holds. *)
Inductive moved k r : list InflightGuard.t → Router.t T → Prop :=
  | moved_on : moved k r (option_list (Task.guard_of k)) r
  | moved_chat {W} now (request : ChatCompletionRequest W) out r' :
      Task.guard_of k = None → Router.select_for_chat now request r = Some (out, r') →
      moved k r [] r'
  | moved_pool now pool chain out r' :
      Task.guard_of k = None → Router.select_in_pool now pool chain r = (out, r') →
      moved k r [] r'
  | moved_take w :
      Task.guard_of k = None → Task.reserved k = Some w →
      moved k r [(InflightGuard.acquire (Router.inflight r) (w_id w)).1]
        (Router.set_inflight (InflightGuard.acquire (Router.inflight r) (w_id w)).2 r)
  | moved_drop g :
      Task.guard_of k = Some g →
      moved k r [] (Router.set_inflight (InflightGuard.drop g (Router.inflight r)) r).

(** The worker a step reserves was reserved before, or has just been selected
    among the healthy ones. *)
Definition reserves_healthy k x r' : Prop :=
  ∀ k' w, x = inl k' → Task.reserved k' = Some w →
    Task.reserved k = Some w ∨ w ∈ WorkerRegistry.healthy_workers (Router.registry r').

Section kv.
Context {KV : KvTransfer} (env : Api.http).

Lemma moved_respond k g u request request_id d started details a x a' :
  Task.guard_of k = Some g →
  Task.respond env u request request_id d g started details a = (x, a') →
  moved k (Api.router a) (held x) (Api.router a') ∧ reserves_healthy k x (Api.router a').
Proof.
  unfold Task.respond, Api.build_response. intros Hg Hr.
  match type of Hr with context [if ?b then _ else _] => destruct b end;
    injection Hr as <- <-; (split; [|done]).
  - change (held _) with (option_list (Some g)). rewrite <-Hg. apply moved_on.
  - by apply moved_drop.
Qed.

Lemma moved_answered k g worker phase rejected a success x a' :
  Task.guard_of k = Some g →
  Task.answered env worker phase rejected g a success = (x, a') →
  (∀ u, success u = (x, a') →
     moved k (Api.router a) (held x) (Api.router a') ∧ reserves_healthy k x (Api.router a')) →
  moved k (Api.router a) (held x) (Api.router a') ∧ reserves_healthy k x (Api.router a').
Proof.
  intros Hg Hx Hs. unfold Task.answered in Hx.
  assert (Hfail : ∀ e, moved k (Api.router a) (held (inl (Task.Failing e g))) (Api.router a) ∧
    reserves_healthy k (inl (Task.Failing e g)) (Api.router a)).
  { intros e. split; [|by intros k' w [= <-]].
    change (held _) with (option_list (Some g)). rewrite <-Hg. apply moved_on. }
  destruct (Api.post _ _ _) as [u|e]; [|injection Hx as <- <-; apply Hfail].
  destruct (negb _); [injection Hx as <- <-; apply Hfail|by eapply Hs].
Qed.

Lemma moved_taken k worker a go x a' :
  Task.guard_of k = None → Task.reserved k = Some worker →
  (∀ g, Task.guard_of (go g) = Some g ∧ Task.reserved (go g) = None) →
  Task.take worker a go = (x, a') →
  moved k (Api.router a) (held x) (Api.router a') ∧ reserves_healthy k x (Api.router a').
Proof.
  intros Hg Hr Hgo. unfold Task.take. intros [= <- <-]. split.
  - cbn [held]. rewrite (proj1 (Hgo _)). by apply moved_take.
  - intros k' w [= <-]. by rewrite (proj2 (Hgo _)).
Qed.

(** Whatever a handler does, its next step is one of these. *)
Lemma advance_moved k a x a' :
  Task.advance env k a = Some (x, a') →
  moved k (Api.router a) (held x) (Api.router a') ∧ reserves_healthy k x (Api.router a').
Proof.
  destruct k as [req id|req id d|req id d g st|req id ch p|req id ch p g st|req id ch p g st body
    |req id ch p ms|req id ch p ms d st|req id p ms tms d|req id p ms tms d g st|e g];
    cbn [Task.advance].
  - case_decide.
    + unfold Task.select_prefill.
      destruct (Router.select_in_pool _ _ _ _) as [[p|e] r] eqn:Hsel; intros [= <- <-].
      * split; [eapply moved_pool; [done|exact Hsel]|]. intros k' w [= <-] [= <-]. right.
        by eapply Handler.select_in_pool_member.
      * split; [by eapply moved_pool|done].
    + unfold Task.select_proxied.
      destruct (Router.select_for_chat _ _ _) as [[[d|e] r]|] eqn:Hsel; intros [= <- <-].
      * split; [by eapply moved_chat|]. intros k' w [= <-] [= <-]. right.
        by eapply Handler.select_for_chat_member.
      * split; [by eapply moved_chat|done].
  - intros Hx%(inj Some). by eapply moved_taken; [..|exact Hx].
  - intros Hx%(inj Some). eapply (moved_answered _ g); [done|exact Hx|]. intros u. by apply moved_respond.
  - intros Hx%(inj Some). by eapply moved_taken; [..|exact Hx].
  - intros Hx%(inj Some). eapply (moved_answered _ g); [done|exact Hx|]. intros u [= <- <-].
    split; [apply moved_on|by intros k' w [= <-]].
  - destruct body as [|[] body]; intros [= <- <-]; (split; [|by intros k' w [= <-]]);
      [by apply moved_drop|apply moved_on|by apply moved_drop].
  - unfold Task.select_decode.
    destruct (Router.select_in_pool _ _ _ _) as [[d|e] r] eqn:Hsel; intros [= <- <-].
    + split; [by eapply moved_pool|]. intros k' w [= <-] [= <-]. right.
      by eapply Handler.select_in_pool_member.
    + split; [by eapply moved_pool|done].
  - unfold Task.transferred. destruct (kv_transfer _ _ _); intros [= <- <-].
    + split; [apply moved_on|]. intros k' w [= <-] [= <-]. by left.
    + split; [apply moved_on|done].
  - intros Hx%(inj Some). by eapply moved_taken; [..|exact Hx].
  - intros Hx%(inj Some). eapply (moved_answered _ g); [done|exact Hx|]. intros u. by apply moved_respond.
  - intros [= <- <-]. split; [by apply moved_drop|done].
Qed.
End kv.
End effects.
End TaskEffect.

(** ** The server *)

Module Interleaved.

Record t {T V : Type} := {
  server : Serving.t T;
  (** The handlers under way. *)
  tasks : list (Task.t V);
}.
Arguments t : clear implicits.

Abbreviation app s := (Serving.app (server s)).
Abbreviation bodies s := (Serving.bodies (server s)).

(** What a step means for a client's request. *)
Inductive event :=
  | Arrived       (** a request was accepted *)
  | Abandoned     (** the client of a handler or a body is gone *)
  | Unbuilt       (** the response head could not be built *)
  | Silent.

#[export] Instance event_eq_dec : EqDecision event.
Proof. solve_decision. Defined.

Definition ended (res : result ApiError Api.response) : event :=
  match res with
  | Err e => if decide (ae_type e = lit "internal_error") then Unbuilt else Silent
  | Ok _ => Silent
  end.

Section steps.
Context {T V : Type} `{BI : BeliefIndex T} {HM : HashMapOrder} {BH : BlockHash}.
Implicit Types (s : t T V) (k : Task.t V) (a : Api.app T).

Definition with_app a (bs : list ProxyStream.state) (ks : list (Task.t V)) s : t T V :=
  {| server := Serving.with_app a bs (server s); tasks := ks |}.

Inductive step : event → t T V → t T V → Prop :=
  | step_arrive payload request_id k s :
      Task.accept payload request_id = inl k →
      step Arrived s {| server := server s; tasks := k :: tasks s |}
  | step_reject payload request_id res s :
      Task.accept (V := V) payload request_id = inr res → step Silent s s
  (** A handler makes its next step, under the answer it has got. *)
  | step_advance {KV : KvTransfer} env k pre post k' a s :
      tasks s = pre ++ k :: post → Task.advance env k (app s) = Some (inl k', a) →
      step Silent s (with_app a (bodies s) (pre ++ k' :: post) s)
  (** A handler returns; its body, if any, starts to stream. *)
  | step_return {KV : KvTransfer} env k pre post res a s :
      tasks s = pre ++ k :: post → Task.advance env k (app s) = Some (inr res, a) →
      step (ended res) s (with_app a (Serving.body_of res ++ bodies s) (pre ++ post) s)
  (** The client disconnects from a handler that awaits. *)
  | step_cancel k pre post s :
      tasks s = pre ++ k :: post → Task.awaits k = true →
      step Abandoned s (with_app (Task.cancel k (app s)) (bodies s) (pre ++ post) s)
  | step_poll now st b1 b2 i b m tr s :
      bodies s = b1 ++ st :: b2 →
      ProxyStream.poll now (Some st) (Api.metrics (app s)) (Api.tracker (app s)) = (i, b, m, tr) →
      step Silent s (with_app (Api.with_tracker tr (Api.with_metrics (λ _, m) (app s)))
                       (b1 ++ option_list b ++ b2) (tasks s) s)
  (** The client disconnects from a body. *)
  | step_disconnect st b1 b2 s :
      bodies s = b1 ++ st :: b2 →
      step Abandoned s
        (with_app (Api.with_tracker (ProxyStream.drop_body (Some st) (Api.tracker (app s))) (app s))
           (b1 ++ b2) (tasks s) s)
  | step_background sv s :
      Serving.background (server s) sv → step Silent s {| server := sv; tasks := tasks s |}.

Definition initial (config : RouterConfig) : t T V :=
  {| server := Serving.initial config; tasks := [] |}.

(** Runs in which every state satisfies [P]. *)
Inductive run (P : t T V → Prop) : t T V → list event → t T V → Prop :=
  | run_nil s : run P s [] s
  | run_snoc s es s' e s'' : run P s es s' → step e s' s'' → P s'' → run P s (es ++ [e]) s''.

(** Every guard alive. *)
Definition guards s : list InflightGuard.t :=
  omap Task.guard_of (tasks s) ++ (Serving.guard_of <$> bodies s).

(** The state of [System] that a server state stands for. *)
Definition view s : System.t T := {|
  System.router := Api.router (app s); System.slices := Serving.slices (server s);
  System.discovered := Serving.discovered (server s); System.guards := guards s |}.

(** ** The guards along a step *)

Lemma omap_middle k (pre post : list (Task.t V)) :
  omap Task.guard_of (pre ++ k :: post) ≡ₚ
  option_list (Task.guard_of k) ++ omap Task.guard_of (pre ++ post).
Proof.
  rewrite !omap_app. cbn [omap list_omap]. destruct (Task.guard_of k) as [g|]; [|done].
  cbn. by rewrite Permutation_middle.
Qed.

(** The other guards, when a handler steps from [k] to [x]. *)
Definition others (pre post : list (Task.t V)) s : list InflightGuard.t :=
  omap Task.guard_of (pre ++ post) ++ (Serving.guard_of <$> bodies s).

Lemma guards_before k pre post s :
  tasks s = pre ++ k :: post → guards s ≡ₚ option_list (Task.guard_of k) ++ others pre post s.
Proof. intros Hk. unfold guards, others. by rewrite Hk, omap_middle, app_assoc. Qed.

Lemma guards_advance k' pre post a s :
  guards (with_app a (bodies s) (pre ++ k' :: post) s) ≡ₚ
  TaskEffect.held (inl k') ++ others pre post s.
Proof. unfold guards, others. cbn. by rewrite omap_middle, app_assoc. Qed.

Lemma guards_return res pre post a s :
  guards (with_app a (Serving.body_of res ++ bodies s) (pre ++ post) s) ≡ₚ
  TaskEffect.held (V := V) (inr res) ++ others pre post s.
Proof.
  unfold guards, others. cbn. rewrite fmap_app, Serving.body_of_opened.
  rewrite !app_assoc. f_equiv. apply Permutation_app_comm.
Qed.

Lemma guards_cancel pre post a s :
  guards (with_app a (bodies s) (pre ++ post) s) = others pre post s.
Proof. done. Qed.

Lemma guards_bodies st b1 b2 s :
  bodies s = b1 ++ st :: b2 →
  guards s ≡ₚ Serving.guard_of st :: omap Task.guard_of (tasks s) ++ (Serving.guard_of <$> b1 ++ b2).
Proof.
  intros Hb. unfold guards. rewrite Hb, !fmap_app, fmap_cons.
  rewrite !app_assoc. symmetry. apply Permutation_middle.
Qed.

(** ** Steps, as what they do to the router and the guards alive

    The cases every invariant of the server is about; [gs] are the guards of
    everything that is not involved. *)

Inductive effect s s' : Prop :=
  | effect_handler k x gs :
      TaskEffect.moved k (Api.router (app s)) (TaskEffect.held x) (Api.router (app s')) →
      TaskEffect.reserves_healthy k x (Api.router (app s')) → k ∈ tasks s →
      (∀ k', k' ∈ tasks s' → k' ∈ tasks s ∨ x = inl k') →
      guards s ≡ₚ option_list (Task.guard_of k) ++ gs →
      guards s' ≡ₚ TaskEffect.held x ++ gs →
      effect s s'
  | effect_drop g gs :
      guards s ≡ₚ g :: gs → guards s' ≡ₚ gs →
      (∀ k', k' ∈ tasks s' → k' ∈ tasks s) →
      Api.router (app s') =
        Router.set_inflight (InflightGuard.drop g (Router.inflight (Api.router (app s))))
          (Api.router (app s)) →
      effect s s'
  | effect_none :
      Api.router (app s') = Api.router (app s) → guards s' ≡ₚ guards s →
      (∀ k', k' ∈ tasks s' → k' ∈ tasks s ∨ Task.reserved k' = None) →
      effect s s'.

Lemma effect_advance {KV : KvTransfer} env k pre post x a bs ks s :
  tasks s = pre ++ k :: post → Task.advance env k (app s) = Some (x, a) →
  (∀ k', k' ∈ ks → k' ∈ pre ++ post ∨ x = inl k') →
  guards (with_app a bs ks s) ≡ₚ TaskEffect.held x ++ others pre post s →
  effect s (with_app a bs ks s).
Proof.
  intros Hk Hx Hks Hg. destruct (TaskEffect.advance_moved env k (app s) x a Hx) as [Hm Hr].
  eapply (effect_handler _ _ k x (others pre post s)); [done|done| | |by apply guards_before|done].
  - rewrite Hk. set_solver.
  - intros k' Hin. rewrite Hk. destruct (Hks k' Hin) as [?|?]; [left; set_solver|by right].
Qed.

Lemma effect_poll now st b1 b2 i b m tr s :
  bodies s = b1 ++ st :: b2 →
  ProxyStream.poll now (Some st) (Api.metrics (app s)) (Api.tracker (app s)) = (i, b, m, tr) →
  effect s (with_app (Api.with_tracker tr (Api.with_metrics (λ _, m) (app s)))
              (b1 ++ option_list b ++ b2) (tasks s) s).
Proof.
  intros Hb. unfold ProxyStream.poll.
  destruct (ProxyStream.next now st _) as [[[i' st']|] m1] eqn:Hn; intros [= <- <- <- <-].
  - apply effect_none; [|unfold guards; cbn|by left].
    { cbn. unfold Api.tracker. by destruct (Api.router (app s)). }
    rewrite Hb, !fmap_app, fmap_cons. unfold Serving.guard_of at 2.
    by rewrite (ProxyStream.telemetry_next _ _ _ _ _ _ Hn).
  - by eapply effect_drop; [by apply guards_bodies|..].
Qed.

(** Every step of the server is one of these, or a background task's. *)
Lemma step_effect e s s' :
  step e s s' →
  (effect s s' ∧ Serving.slices (server s') = Serving.slices (server s) ∧
   Serving.discovered (server s') = Serving.discovered (server s) ∧
   Task.rely (app s) (app s')) ∨
  (Serving.background (server s) (server s') ∧ tasks s' = tasks s).
Proof.
  destruct 1 as [payload id k s Hk|payload id res s Hk|KV env k pre post k' a s Hk Hx
    |KV env k pre post res a s Hk Hx|k pre post s Hk Hw|now st b1 b2 i b m tr s Hb Hp
    |st b1 b2 s Hb|sv s Hb]; [left..|by right];
    (split; [|split_and!; [done..|]]); try done.
  - destruct payload as [request|]; [|done]. injection Hk as <-.
    apply effect_none; [done|done|]. intros k' [->|?]%elem_of_cons; [by right|by left].
  - apply effect_none; [done|done|by left].
  - eapply effect_advance; [done|done| |apply guards_advance]. intros k'' Hin. set_solver.
  - by eapply Task.advance_rely.
  - eapply effect_advance; [done|done|by left|apply guards_return].
  - by eapply Task.advance_rely.
  - unfold Task.cancel. pose proof (guards_before k pre post s Hk) as Hg.
    destruct (Task.guard_of k) as [g|].
    + eapply effect_drop; [exact Hg|done|cbn; rewrite Hk; set_solver|done].
    + apply effect_none; [done|by rewrite Hg|cbn; rewrite Hk; set_solver].
  - unfold Task.cancel. by destruct (Task.guard_of k).
  - by eapply effect_poll.
  - by eapply effect_drop; [by apply guards_bodies|..].
Qed.

(** ** Simulation by [System] *)

Lemma moved_system k gs' r r' gs sl d :
  TaskEffect.moved k r gs' r' →
  ∃ gs'', gs'' ≡ₚ gs' ++ gs ∧
  rtc System.step
    {| System.router := r; System.slices := sl; System.discovered := d;
       System.guards := option_list (Task.guard_of k) ++ gs |}
    {| System.router := r'; System.slices := sl; System.discovered := d;
       System.guards := gs'' |}.
Proof.
  set (at_ (r : Router.t T) gs := {| System.router := r; System.slices := sl; System.discovered := d;
                      System.guards := gs |}).
  destruct 1 as [|W now request out r' Hg Hsel|now pool chain out r' Hg Hsel|w Hg _|g Hg];
    eexists; (split; [reflexivity|]); rewrite ?Hg; cbn [option_list app].
  - apply rtc_refl.
  - by apply rtc_once, (System.step_chat now request out r' (at_ r gs)).
  - by apply rtc_once, (System.step_pool now pool chain out r' (at_ r gs)).
  - apply rtc_once, (System.step_acquire (w_id w) (at_ r gs)).
  - by apply rtc_once, (System.step_drop g [] gs (at_ r (g :: gs))).
Qed.

Lemma effect_simulates s s' :
  effect s s' → Serving.slices (server s') = Serving.slices (server s) →
  Serving.discovered (server s') = Serving.discovered (server s) →
  ∃ σ, rtc System.step (view s) σ ∧ System.same σ (view s').
Proof.
  intros He Hsl Hd.
  assert (Hrun : ∀ gs gs',
    guards s ≡ₚ gs → guards s' ≡ₚ gs' →
    rtc System.step
      {| System.router := Api.router (app s); System.slices := Serving.slices (server s);
         System.discovered := Serving.discovered (server s); System.guards := gs |}
      {| System.router := Api.router (app s'); System.slices := Serving.slices (server s);
         System.discovered := Serving.discovered (server s); System.guards := gs' |} →
    ∃ σ, rtc System.step (view s) σ ∧ System.same σ (view s')).
  { intros gs gs' Hg Hg' Hr.
    eapply (System.run_same _ (view s)) in Hr as (σ & Hσ & Hsame); [|split; [done..|symmetry; exact Hg]].
    exists σ. split; [exact Hσ|]. etrans; [symmetry; exact Hsame|]. by split. }
  destruct He as [k x gs Hm _ _ _ Hg Hg'|g gs Hg Hg' _ Hr|Hr Hg _].
  - destruct (moved_system _ _ _ _ gs (Serving.slices (server s)) (Serving.discovered (server s)) Hm)
      as (gs'' & Hp & Hs). eapply Hrun; [exact Hg| |exact Hs]. by rewrite Hp.
  - eapply Hrun; [exact Hg|exact Hg'|]. rewrite Hr. apply rtc_once.
    by apply (System.step_drop g [] gs (System.Build_t _ _ _ _ _)).
  - eapply Hrun; [reflexivity|exact Hg|]. rewrite Hr. apply rtc_refl.
Qed.

Lemma step_simulates e s s' :
  step e s s' → ∃ σ, rtc System.step (view s) σ ∧ System.same σ (view s').
Proof.
  intros [(He & Hsl & Hd & _)|[Hb Ht]]%step_effect; [by apply effect_simulates|].
  apply Serving.background_cases in Hb as (Hbs & _ & Hr & _).
  exists (view s'). split; [|done]. specialize (Hr (guards s)).
  unfold view. replace (guards s') with (guards s) by (unfold guards; by rewrite Ht, Hbs). exact Hr.
Qed.

Lemma run_simulates P s es s' :
  run P s es s' → ∃ σ, rtc System.step (view s) σ ∧ System.same σ (view s').
Proof.
  induction 1 as [s|s es s1 e s2 _ (σ & Hσ & Hsame) Hs _]; [by exists (view s)|].
  destruct (step_simulates e s1 s2 Hs) as (σ' & Hσ' & Hsame').
  symmetry in Hsame. destruct (System.run_same _ _ _ Hsame Hσ') as (σ2 & Hσ2 & Hsame2).
  exists σ2. split; [by etrans|]. etrans; [symmetry; exact Hsame2|exact Hsame'].
Qed.

(** What holds in every state of [System] holds along the server. *)
Lemma inv_run `{!BeliefIndexLaws T} P config es s :
  (N.of_nat (length (cfg_workers config)) < u64_modulus)%N →
  run P (initial config) es s → ∃ σ, System.inv σ ∧ System.router σ = Api.router (app s).
Proof.
  intros Hn Hs. destruct (run_simulates P _ es s Hs) as (σ & Hσ & [Hr _ _ _]).
  exists σ. split; [|done]. eapply System.inv_rtc; [exact Hσ|]. by apply System.inv_initial.
Qed.

Lemma index_ok_run `{!BeliefIndexLaws T} P config es s :
  (N.of_nat (length (cfg_workers config)) < u64_modulus)%N →
  run P (initial config) es s → bi_ok (Router.prefix_index (Api.router (app s))).
Proof.
  intros Hn Hs. destruct (inv_run P config es s Hn Hs) as (σ & Hσ & <-). by apply System.inv_index.
Qed.

(** ** In-flight slots *)

(** A counter exists for every worker that some handler is going to take a
    guard for. *)
Definition reserved_ok s : Prop :=
  ∀ k w, k ∈ tasks s → Task.reserved k = Some w →
    InflightTracker.tracks (w_id w) (Router.inflight (Api.router (app s))).

Definition slots_ok s : Prop :=
  Serving.covered (Api.router (app s)) ∧ reserved_ok s ∧
  Serving.counted (Api.router (app s), guards s).

(** Counters are never taken away. *)
Lemma moved_tracks k gs' r r' w :
  TaskEffect.moved k r gs' r' →
  InflightTracker.tracks w (Router.inflight r) → InflightTracker.tracks w (Router.inflight r').
Proof.
  destruct 1 as [|W now request out r' _ Hsel|now pool chain out r' _ Hsel|w' _ _|g _]; [done|..].
  - destruct (Router.select_for_chat_frame now request r) as (? & ? & Hsel' & (_ & _ & Hin) & _).
    rewrite Hsel in Hsel'. injection Hsel' as <- <-. by rewrite Hin.
  - destruct (Router.select_in_pool_frame now pool chain r) as (_ & _ & Hin).
    rewrite Hsel in Hin. cbn in Hin. by rewrite Hin.
  - apply Inflight.tracks_increment.
  - apply Inflight.tracks_decrement.
Qed.

Lemma moved_counted k gs' r r' gs :
  TaskEffect.moved k r gs' r' →
  (∀ w, Task.reserved k = Some w → InflightTracker.tracks (w_id w) (Router.inflight r)) →
  Serving.counted (r, option_list (Task.guard_of k) ++ gs) → Serving.counted (r', gs' ++ gs).
Proof.
  destruct 1 as [|W now request out r' Hg Hsel|now pool chain out r' Hg Hsel|w Hg Hw|g Hg];
    intros Hres; rewrite ?Hg; cbn [option_list app]; [done|..].
  - destruct (Router.select_for_chat_frame now request r) as (? & ? & Hsel' & (_ & _ & Hin) & _).
    rewrite Hsel in Hsel'. injection Hsel' as <- <-.
    unfold Serving.counted, Serving.slots. cbn [fst snd]. by rewrite Hin.
  - destruct (Router.select_in_pool_frame now pool chain r) as (_ & _ & Hin).
    rewrite Hsel in Hin. cbn in Hin.
    unfold Serving.counted, Serving.slots. cbn [fst snd]. by rewrite Hin.
  - apply Serving.counted_step. by eapply Inflight.step_acquire; [apply Hres|].
  - apply Serving.counted_step. apply (Inflight.step_drop _ g _ [] gs).
Qed.

Lemma effect_slots s s' :
  effect s s' → Serving.covered (Api.router (app s')) → slots_ok s → slots_ok s'.
Proof.
  intros He Hcov' (Hcov & Hres & Hcnt). split; [done|].
  destruct He as [k x gs Hm Hh Hk Hks Hg Hg'|g gs Hg Hg' Hks Hr|Hr Hg Hks].
  - split.
    + intros k' w Hin Hw. destruct (Hks k' Hin) as [Hin'| ->].
      { eapply moved_tracks; [done|]. by eapply Hres. }
      destruct (Hh k' w eq_refl Hw) as [Hold|Hhealthy]; [|by apply Hcov'].
      eapply moved_tracks; [done|]. by eapply Hres.
    + eapply Serving.counted_perm; [symmetry; exact Hg'|]. eapply moved_counted; [done| |].
      * intros w Hw. by eapply Hres.
      * by eapply Serving.counted_perm.
  - unfold reserved_ok. rewrite Hr. split.
    + intros k w Hin Hw. apply Inflight.tracks_decrement. eapply Hres; [by apply Hks|done].
    + eapply Serving.counted_perm; [symmetry; exact Hg'|].
      apply (Serving.counted_perm _ _ _ Hg) in Hcnt. eapply Serving.counted_step, Hcnt.
      apply (Inflight.step_drop _ g _ [] gs).
  - unfold reserved_ok. rewrite Hr. split.
    + intros k w Hin Hw. destruct (Hks k Hin) as [Hin'|Hn]; [by eapply Hres|congruence].
    + by eapply Serving.counted_perm; [symmetry; exact Hg|].
Qed.

Lemma every_slot_step e s s' :
  step e s s' → Serving.covered (Api.router (app s')) → slots_ok s → slots_ok s'.
Proof.
  intros [(He & _)|[Hb Ht]]%step_effect Hcov'; [by apply effect_slots|].
  intros (Hcov & Hres & Hcnt). split; [done|].
  apply Serving.background_cases in Hb as (Hbs & _ & _ & n & Hn). split.
  - intros k w. rewrite Ht, Hn. intros Hin Hw. apply Inflight.tracks_ensure_capacity. left.
    by eapply Hres.
  - replace (guards s') with (guards s) by (unfold guards; by rewrite Ht, Hbs).
    eapply Serving.counted_step, Hcnt. unfold Serving.slots. cbn [fst snd]. rewrite Hn.
    apply Inflight.step_grow.
Qed.

Lemma every_slot_initial config : slots_ok (initial config).
Proof.
  destruct (Serving.slots_initial (T := T) config) as [Hcov Hcnt].
  split; [exact Hcov|]. split; [|exact Hcnt]. intros k w Hk. by apply not_elem_of_nil in Hk.
Qed.

Lemma slots_run config es s :
  run (λ s, Serving.covered (Api.router (app s))) (initial config) es s → slots_ok s.
Proof.
  remember (initial config) as s0 eqn:H0. induction 1 as [s|s es s1 e s2 _ IH Hstep Hcov].
  - subst. apply every_slot_initial.
  - eapply every_slot_step; [exact Hstep|exact Hcov|by apply IH].
Qed.

(** Handlers that hold a slot of worker [id]. *)
Definition awaiting (id : WorkerId) s : nat :=
  Inflight.live id (omap Task.guard_of (tasks s)).

Lemma live_guards id s :
  Inflight.live id (guards s) = awaiting id s + Serving.streaming_from id (server s).
Proof.
  unfold guards, awaiting. unfold Inflight.live at 1. rewrite filter_app, length_app.
  f_equal. apply Serving.live_streaming.
Qed.
End steps.

(** ** Every request is accounted for *)

Section requests.
Context {T V : Type} `{BI : BeliefIndex T} {HM : HashMapOrder} {BH : BlockHash}.
Implicit Types (s : t T V) (k : Task.t V) (a : Api.app T).

(** A handler whose request is not yet counted: any, except one that has
    counted a failure and is about to return it. *)
Definition open k : bool := match k with Task.Failing _ _ => false | _ => true end.

(** The failures handlers return are never those of the response head. *)
Definition sound k : Prop :=
  match k with Task.Failing e _ => ae_type e ≠ lit "internal_error" | _ => True end.

Definition uncounted (x : Task.next V) : nat :=
  match x with
  | inl k => Nat.b2n (open k)
  | inr res => length (Serving.body_of res)
  end.

Definition lost (x : Task.next V) : nat :=
  match x with
  | inl _ => 0
  | inr res => if decide (ended res = Unbuilt) then 1 else 0
  end.

Abbreviation counted a := (Metrics.requests_counted (Api.metrics a)).

(** What a step does to the request it is about. *)
Definition balanced k a x a' : Prop :=
  counted a' + uncounted x + lost x = counted a + Nat.b2n (open k) ∧
  ∀ k', x = inl k' → sound k'.

Lemma ended_error e : ae_type e ≠ lit "internal_error" → ended (Err e) = Silent.
Proof. intros He. unfold ended. by rewrite decide_False. Qed.

Lemma ended_cases res : ended res = Unbuilt ∨ ended res = Silent.
Proof. destruct res as [?|e]; [by right|]. unfold ended. case_decide; auto. Qed.

Lemma router_error_type e : ae_type (from_router_error e) ≠ lit "internal_error".
Proof. by destruct e. Qed.

(** The failure of a selection or of the connector, counted at once. *)
Lemma balanced_refused k worker status e a a1 :
  open k = true → counted a1 = counted a →
  balanced k a (inr (Err (from_router_error e))) (Api.record_request worker status a1).
Proof.
  intros Hk Ha. split; [|done]. unfold lost. rewrite Hk, Api.requests_counted_request, Ha.
  rewrite ended_error by apply router_error_type. simpl. lia.
Qed.

Lemma balanced_on k k' a a' :
  open k = true → open k' = true → counted a' = counted a → balanced k a (inl k') a'.
Proof.
  intros Hk Hk' Ha. split; [|intros ? [= <-]; by destruct k'].
  cbn. rewrite Hk, Hk', Ha. lia.
Qed.

Lemma balanced_answered {KV : KvTransfer} env k worker phase rejected g a success x a' :
  open k = true → Task.answered env worker phase rejected g a success = (x, a') →
  (∀ u, success u = (x, a') → balanced k a x a') → balanced k a x a'.
Proof.
  unfold Task.answered. intros Hk Hx Hs.
  assert (Hfail : ∀ e, balanced k a (inl (Task.Failing (api_upstream worker e) g))
    (Api.record_request (w_url worker) 502 a)).
  { intros e. split; [|by intros ? [= <-]]. rewrite Hk, Api.requests_counted_request. simpl. lia. }
  destruct (Api.post _ _ _) as [u|e]; [|injection Hx as <- <-; apply Hfail].
  destruct (negb _); [injection Hx as <- <-; apply Hfail|by eapply Hs].
Qed.

Lemma balanced_respond {KV : KvTransfer} env k u request request_id d g started details a x a' :
  open k = true →
  Task.respond env u request request_id d g started details a = (x, a') → balanced k a x a'.
Proof.
  unfold Task.respond, Api.build_response. intros Hk Hr.
  match type of Hr with context [if ?b then _ else _] => destruct b end;
    injection Hr as <- <-; (split; [|done]); rewrite Hk; [done|].
  cbn [uncounted lost]. unfold ended. rewrite !decide_True by done. simpl. lia.
Qed.

Lemma advance_balanced {KV : KvTransfer} env k a x a' :
  Task.advance env k a = Some (x, a') → sound k → balanced k a x a'.
Proof.
  destruct k as [req id|req id d|req id d g st|req id ch p|req id ch p g st|req id ch p g st body
    |req id ch p ms|req id ch p ms d st|req id p ms tms d|req id p ms tms d g st|e g];
    cbn [Task.advance]; intros Hx Hsound.
  - revert Hx. case_decide.
    + unfold Task.select_prefill. destruct (Router.select_in_pool _ _ _ _) as [[p|e] r];
        intros [= <- <-]; [by apply balanced_on|by apply balanced_refused].
    + unfold Task.select_proxied. destruct (Router.select_for_chat _ _ _) as [[[d|e] r]|];
        intros [= <- <-]; [by apply balanced_on|by apply balanced_refused].
  - injection Hx as <- <-. by apply balanced_on.
  - apply (inj Some) in Hx. eapply balanced_answered; [done|exact Hx|].
    intros u. by apply balanced_respond.
  - injection Hx as <- <-. by apply balanced_on.
  - apply (inj Some) in Hx. eapply balanced_answered; [done|exact Hx|].
    intros u [= <- <-]. by apply balanced_on.
  - by destruct body as [|[] body]; injection Hx as <- <-; apply balanced_on.
  - revert Hx. unfold Task.select_decode. destruct (Router.select_in_pool _ _ _ _) as [[d|e] r];
      intros [= <- <-]; [by apply balanced_on|by apply balanced_refused].
  - revert Hx. unfold Task.transferred. destruct (kv_transfer _ _ _); intros [= <- <-];
      [|by apply balanced_refused]. apply balanced_on; [done..|].
    etrans; [apply (Metrics.requests_counted_emit (HistogramRecord _ _ _))|apply Nat.add_0_r].
  - injection Hx as <- <-. by apply balanced_on.
  - apply (inj Some) in Hx. eapply balanced_answered; [done|exact Hx|].
    intros u. by apply balanced_respond.
  - injection Hx as <- <-. split; [|done]. unfold lost. by rewrite (ended_error e Hsound).
Qed.

(** Scrapes and probes count no request. *)
Lemma counted_refresh (r : Router.t T) m :
  Metrics.requests_counted (Metrics.refresh_gauges r m) = Metrics.requests_counted m.
Proof.
  unfold Metrics.refresh_gauges, Metrics.set_prefix_index_entries.
  rewrite Metrics.requests_counted_emit. cbn [Metrics.is_request_call]. rewrite Nat.add_0_r.
  revert m. induction (WorkerRegistry.all_workers (Router.registry r)) as [|w ws IH];
    intros m; [done|]. cbn [foldl]. rewrite IH.
  unfold Metrics.refresh_worker, Metrics.set_inflight, Metrics.set_worker_up.
  by rewrite !Metrics.requests_counted_emit, !Nat.add_0_r.
Qed.

Lemma counted_background sv sv' :
  Serving.background (T := T) sv sv' →
  Metrics.requests_counted (Api.metrics (Serving.app sv')) =
  Metrics.requests_counted (Api.metrics (Serving.app sv)).
Proof.
  destruct 1; [done..| |].
  - apply counted_refresh.
  - apply EngineMetrics.round_frame.
Qed.

(** Requests that are neither counted nor over. *)
Definition in_progress s : nat :=
  length (filter (λ k, open k = true) (tasks s)) + length (bodies s).

Definition tally (e : event) (es : list event) : nat := length (filter (λ e', e' = e) es).

Lemma tally_snoc e es e' : tally e (es ++ [e']) = tally e es + (if decide (e' = e) then 1 else 0).
Proof. unfold tally. rewrite filter_app, length_app, filter_cons. by case_decide. Qed.

Lemma open_middle pre post k :
  length (filter (λ k, open k = true) (pre ++ k :: post)) =
  Nat.b2n (open k) + length (filter (λ k, open k = true) (pre ++ post)).
Proof.
  rewrite !filter_app, filter_cons, !length_app. destruct (open k); simpl; lia.
Qed.

(** The next poll of a body counts its request exactly when it ends it. *)
Lemma next_counted now st m :
  match ProxyStream.next now st m with
  | (Some _, m') => m' = m
  | (None, m') => Metrics.requests_counted m' = S (Metrics.requests_counted m)
  end.
Proof.
  unfold ProxyStream.next. destruct (ProxyStream.inner st) as [|[] ?]; [|done..].
  destruct (_ && _); [done|]. destruct (ProxyStream.errored st).
  - unfold Metrics.record_request. rewrite Metrics.requests_counted_emit. simpl. lia.
  - apply Api.requests_counted_finish.
Qed.

Lemma awaits_open k : Task.awaits k = true → open k = true.
Proof. by destruct k. Qed.

Lemma cancel_counted k a : counted (Task.cancel k a) = counted a.
Proof. unfold Task.cancel. by destruct (Task.guard_of k). Qed.

Lemma step_conserves e s s' :
  step e s s' → Forall sound (tasks s) →
  Forall sound (tasks s') ∧
  counted (app s') + in_progress s' + (if decide (e = Abandoned) then 1 else 0) +
    (if decide (e = Unbuilt) then 1 else 0) =
  counted (app s) + in_progress s + (if decide (e = Arrived) then 1 else 0).
Proof.
  destruct 1 as [payload id k s Hk|payload id res s Hk|KV env k pre post k' a s Hk Hx
    |KV env k pre post res a s Hk Hx|k pre post s Hk Hw|now st b1 b2 i b m tr s Hb Hp
    |st b1 b2 s Hb|sv s Hb]; intros Hsound; unfold in_progress; cbn [with_app server tasks].
  - destruct payload as [request|]; [|done]. injection Hk as <-. split; [by constructor|].
    rewrite filter_cons. simpl. lia.
  - split; [done|]. simpl. lia.
  - rewrite Hk in Hsound. apply Forall_app in Hsound as [Hpre [Hsk Hpost]%Forall_cons].
    destruct (advance_balanced env k _ _ _ Hx Hsk) as [Hc Hs]. cbn [uncounted lost] in Hc. split.
    + apply Forall_app. split; [done|]. constructor; [by apply Hs|done].
    + rewrite Hk, !open_middle. simpl in *. lia.
  - rewrite Hk in Hsound. apply Forall_app in Hsound as [Hpre [Hsk Hpost]%Forall_cons].
    destruct (advance_balanced env k _ _ _ Hx Hsk) as [Hc _]. cbn [uncounted lost] in Hc.
    split; [by apply Forall_app|]. rewrite Hk, open_middle. cbn in *. rewrite length_app.
    assert (ended res ≠ Abandoned ∧ ended res ≠ Arrived) as [Ha Hr]
      by (by destruct (ended_cases res) as [->| ->]).
    rewrite (decide_False (P := ended res = Abandoned)), (decide_False (P := ended res = Arrived))
      by done. lia.
  - rewrite Hk in Hsound. apply Forall_app in Hsound as [Hpre [_ Hpost]%Forall_cons].
    split; [by apply Forall_app|]. rewrite Hk, open_middle, (awaits_open k Hw). cbn.
    rewrite cancel_counted. simpl. lia.
  - split; [done|]. unfold ProxyStream.poll in Hp. revert Hp.
    pose proof (next_counted now st (Api.metrics (app s))) as Hn.
    destruct (ProxyStream.next now st _) as [[[i' st']|] m1]; intros [= <- <- <- <-];
      cbn; rewrite Hb, !length_app; simpl; [subst m1; lia|rewrite Hn; lia].
  - split; [done|]. cbn. rewrite Hb, !length_app. simpl. lia.
  - split; [done|]. cbn. apply Serving.background_cases in Hb as Hbs. destruct Hbs as [-> _].
    rewrite (counted_background _ _ Hb). simpl. lia.
Qed.

Lemma run_conserves P config es s :
  run P (initial config) es s →
  Forall sound (tasks s) ∧
  counted (app s) + in_progress s + tally Abandoned es + tally Unbuilt es = tally Arrived es.
Proof.
  remember (initial config) as s0 eqn:H0. induction 1 as [s|s es s1 e s2 _ IH Hs _].
  - subst. split; [constructor|done].
  - destruct (IH H0) as [Hsound Hc]. destruct (step_conserves e s1 s2 Hs Hsound) as [Hsound' Hc'].
    split; [done|]. rewrite !tally_snoc. lia.
Qed.
End requests.
End Interleaved.

(** ** Every call of the metrics facade keeps to the declarations *)

Module Declared.

Section steps.
Context {T V : Type} `{BI : BeliefIndex T} {HM : HashMapOrder} {BH : BlockHash}.
Implicit Types (s : Interleaved.t T V) (k : Task.t V) (a : Api.app T).

Abbreviation ok a := (Schema.ok (Api.metrics a)).

Lemma answered_ok {KV : KvTransfer} env worker phase rejected g a success (x : Task.next V) a' :
  ok a → Task.answered env worker phase rejected g a success = (x, a') →
  (∀ u, success u = (x, a') → ok a') → ok a'.
Proof.
  unfold Task.answered. intros Ha Hx Hs.
  destruct (Api.post _ _ _) as [u|e]; [|injection Hx as _ <-; by apply Schema.ok_request].
  destruct (negb _); [injection Hx as _ <-; by apply Schema.ok_request|by eapply Hs].
Qed.

Lemma respond_ok {KV : KvTransfer} env u request request_id d g started details a
    (x : Task.next V) a' :
  ok a → Task.respond env u request request_id d g started details a = (x, a') → ok a'.
Proof.
  unfold Task.respond, Api.build_response. intros Ha.
  match goal with |- context [if ?b then _ else _] => destruct b end; by intros [= _ <-].
Qed.

Lemma advance_ok {KV : KvTransfer} env k a x a' :
  Task.advance env k a = Some (x, a') → ok a → ok a'.
Proof.
  destruct k as [req id|req id d|req id d g st|req id ch p|req id ch p g st|req id ch p g st body
    |req id ch p ms|req id ch p ms d st|req id p ms tms d|req id p ms tms d g st|e g];
    cbn [Task.advance]; intros Hx Ha.
  - revert Hx. case_decide.
    + unfold Task.select_prefill. destruct (Router.select_in_pool _ _ _ _) as [[d|e] r];
        intros [= _ <-]; [done|by apply Schema.ok_request].
    + unfold Task.select_proxied. destruct (Router.select_for_chat _ _ _) as [[[d|e] r]|];
        intros [= _ <-]; [done|by apply Schema.ok_request].
  - by injection Hx as _ <-.
  - apply (inj Some) in Hx. eapply answered_ok; [done|exact Hx|]. intros u. by apply respond_ok.
  - by injection Hx as _ <-.
  - apply (inj Some) in Hx. eapply answered_ok; [done|exact Hx|]. by intros u [= _ <-].
  - by destruct body as [|[] body]; injection Hx as _ <-.
  - revert Hx. unfold Task.select_decode. destruct (Router.select_in_pool _ _ _ _) as [[d|e] r];
      intros [= _ <-]; [done|by apply Schema.ok_request].
  - revert Hx. unfold Task.transferred. destruct (kv_transfer _ _ _); intros [= _ <-];
      [by apply Schema.ok_kv_transfer|by apply Schema.ok_request].
  - by injection Hx as _ <-.
  - apply (inj Some) in Hx. eapply answered_ok; [done|exact Hx|]. intros u. by apply respond_ok.
  - by injection Hx as _ <-.
Qed.

Lemma step_ok e s s' :
  Interleaved.step e s s' → ok (Interleaved.app s) → ok (Interleaved.app s').
Proof.
  intros Hs Ha. destruct Hs as [payload id k s Hk|payload id res s Hk|KV env k pre post k' a s Hk Hx
    |KV env k pre post res a s Hk Hx|k pre post s Hk Hw|now st b1 b2 i b m tr s Hb Hp
    |st b1 b2 s Hb|sv s Hb]; try done.
  - by eapply advance_ok.
  - by eapply advance_ok.
  - unfold Task.cancel. cbn. by destruct (Task.guard_of k).
  - pose proof (Schema.ok_poll now (Some st) _ (Api.tracker (Interleaved.app s)) Ha) as Hok.
    by rewrite Hp in Hok.
  - destruct Hb; [done..| |]; cbn.
    + by apply Schema.ok_refresh.
    + by apply Schema.ok_scrape_round.
Qed.

Lemma run_ok P config es s :
  Interleaved.run P (Interleaved.initial config) es s → ok (Interleaved.app s).
Proof.
  remember (Interleaved.initial config) as s0 eqn:H0. induction 1 as [s|s es s1 e s2 _ IH Hs _].
  - subst. constructor.
  - by eapply step_ok; [|apply IH].
Qed.
End steps.
End Declared.

(** ** Schedules, as lists of commands *)

Module Schedule.
Import Interleaved.

Inductive command {V : Type} :=
  | DoArrive (request : ChatCompletionRequest V) (request_id : rstr)
  | DoAdvance (i : nat)
  | DoCancel (i : nat)
  | DoPoll (i : nat)
  | DoDisconnect (i : nat)
  | DoProbe (w : Worker) (healthy : bool).
Arguments command : clear implicits.

(** The element at [i], between those before and those after it. *)
Definition split_at {A} (i : nat) (l : list A) : option (list A * A * list A) :=
  match drop i l with x :: post => Some (take i l, x, post) | [] => None end.

Lemma split_at_spec {A} i (l pre post : list A) x :
  split_at i l = Some (pre, x, post) → l = pre ++ x :: post.
Proof.
  unfold split_at. destruct (drop i l) as [|y l'] eqn:E; [done|]. intros [= <- -> <-].
  by rewrite <-E, take_drop.
Qed.

Section exec.
Context {T V : Type} `{BI : BeliefIndex T} {HM : HashMapOrder} {BH : BlockHash} {KV : KvTransfer}.
Context (env : Api.http) (check : t T V → bool).
Implicit Types (s : t T V).

Definition exec (c : command V) s : option (event * t T V) :=
  match c with
  | DoArrive request request_id =>
      Some (Arrived, {| server := server s; tasks := Task.Received request request_id :: tasks s |})
  | DoAdvance i =>
      '(pre, k, post) ← split_at i (tasks s);
      x ← Task.advance env k (app s);
      match x with
      | (inl k', a) => Some (Silent, with_app a (bodies s) (pre ++ k' :: post) s)
      | (inr res, a) =>
          Some (ended res, with_app a (Serving.body_of res ++ bodies s) (pre ++ post) s)
      end
  | DoCancel i =>
      '(pre, k, post) ← split_at i (tasks s);
      if Task.awaits k
      then Some (Abandoned, with_app (Task.cancel k (app s)) (bodies s) (pre ++ post) s) else None
  | DoPoll i =>
      '(b1, st, b2) ← split_at i (bodies s);
      let '(_, b, m, tr) :=
        ProxyStream.poll 0 (Some st) (Api.metrics (app s)) (Api.tracker (app s)) in
      Some (Silent, with_app (Api.with_tracker tr (Api.with_metrics (λ _, m) (app s)))
                      (b1 ++ option_list b ++ b2) (tasks s) s)
  | DoDisconnect i =>
      '(b1, st, b2) ← split_at i (bodies s);
      Some (Abandoned, with_app (Api.with_tracker
        (ProxyStream.drop_body (Some st) (Api.tracker (app s))) (app s)) (b1 ++ b2) (tasks s) s)
  | DoProbe w healthy =>
      Some (Silent, {| server := Serving.with_app
        (Api.with_router (Health.mark w healthy (Api.router (app s))) (app s)) (bodies s) (server s);
        tasks := tasks s |})
  end.

(** Every state is checked. *)
Fixpoint exec_all (cs : list (command V)) s : option (list event * t T V) :=
  match cs with
  | [] => Some ([], s)
  | c :: cs =>
      '(e, s) ← exec c s;
      if check s then '(es, s) ← exec_all cs s; Some (e :: es, s) else None
  end.

Lemma exec_step c s e s' : exec c s = Some (e, s') → step e s s'.
Proof.
  destruct c as [req id|i|i|i|i|w healthy]; cbn [exec]; intros Hx.
  - injection Hx as <- <-. by apply (step_arrive (Ok req) id).
  - destruct (split_at i (tasks s)) as [[[pre k] post]|] eqn:Hs; [|done].
    cbn [mbind option_bind] in Hx. apply split_at_spec in Hs.
    destruct (Task.advance env k (app s)) as [[[k'|res] a]|] eqn:Hk; [..|done];
      cbn [mbind option_bind] in Hx; injection Hx as <- <-;
      [by eapply step_advance|by eapply step_return].
  - destruct (split_at i (tasks s)) as [[[pre k] post]|] eqn:Hs; [|done].
    cbn [mbind option_bind] in Hx. destruct (Task.awaits k) eqn:Hw; [|done].
    injection Hx as <- <-. apply split_at_spec in Hs. by eapply step_cancel.
  - destruct (split_at i (bodies s)) as [[[b1 st] b2]|] eqn:Hs; [|done].
    cbn [mbind option_bind] in Hx. apply split_at_spec in Hs.
    destruct (ProxyStream.poll 0 (Some st) _ _) as [[[it b] m] tr] eqn:Hp.
    injection Hx as <- <-. by eapply step_poll.
  - destruct (split_at i (bodies s)) as [[[b1 st] b2]|] eqn:Hs; [|done].
    cbn [mbind option_bind] in Hx. injection Hx as <- <-. apply split_at_spec in Hs.
    by eapply step_disconnect.
  - injection Hx as <- <-. apply step_background, Serving.step_probe.
Qed.

Lemma exec_all_run (P : t T V → Prop) cs s0 es s es' s' :
  (∀ s, check s = true → P s) → run P s0 es s →
  exec_all cs s = Some (es', s') → run P s0 (es ++ es') s'.
Proof.
  intros HP. revert es s es'. induction cs as [|c cs IH]; intros es s es' Hr; cbn [exec_all].
  { intros [= <- <-]. by rewrite app_nil_r. }
  destruct (exec c s) as [[e s1]|] eqn:Hc; cbn [mbind option_bind]; [|done].
  destruct (check s1) eqn:Hs1; [|done].
  destruct (exec_all cs s1) as [[es1 s2]|] eqn:Hcs; cbn [mbind option_bind]; [|done].
  intros [= <- <-]. change (e :: es1) with ([e] ++ es1). rewrite app_assoc.
  eapply IH, Hcs. eapply run_snoc; [exact Hr|by eapply exec_step|by apply HP].
Qed.
End exec.
End Schedule.

(** ** Properties *)

(** As long as no selection, probe answer or watch event is itself interrupted,
    the server implements the abstract system: whatever handlers, bodies,
    cancellations, disconnects, probes, sweeps, watch events and scrapes are
    interleaved at this grain, its router, its watch state and the guards alive
    (in whatever order they are listed) run through steps of [System]; and then
    only healthy workers are believed to hold blocks, although a worker may go
    down or be removed while a handler waits for it.  The last part is not true
    of the program, whose selections are interrupted:
    [selection_races_with_health], and what is true of it,
    [believed_workers_in_service], are in [Threads]. *)
Theorem interleaved_refines_system {T V} `{BeliefIndexLaws T} {HM : HashMapOrder}
    {BH : BlockHash} (config : RouterConfig) (es : list Interleaved.event)
    (s : Interleaved.t T V)
    (Hn : (N.of_nat (length (cfg_workers config)) < u64_modulus)%N)
    (Hs : Interleaved.run (λ _, True) (Interleaved.initial config) es s) :
  (∃ σ, rtc System.step (System.initial config) σ ∧ System.same σ (Interleaved.view s)) ∧
  let r := Api.router (Interleaved.app s) in
  ∀ id h, bi_holds (Router.prefix_index r) id h = true →
    WorkerRegistry.is_healthy id (Router.registry r) = true.
Proof.
  split; [exact (Interleaved.run_simulates _ _ es s Hs)|].
  destruct (Interleaved.inv_run _ config es s Hn Hs) as (σ & Hσ & <-).
  exact (System.inv_beliefs _ Hσ).
Qed.

(** C14.  In-flight slots, whatever is interleaved: as long as every healthy worker
    has a counter, the in-flight count of each worker is the number of handlers
    that hold one of its slots plus the number of bodies streaming from it, and
    the total is the number of guards alive; so no failure, cancellation or
    disconnect leaks a slot: once nothing is under way, every count is zero. *)
Theorem interleaved_inflight_exact {T V} `{BeliefIndex T} {HM : HashMapOrder} {BH : BlockHash}
    (config : RouterConfig) (es : list Interleaved.event) (s : Interleaved.t T V) (id : WorkerId)
    (Hs : Interleaved.run (λ s, Serving.covered (Api.router (Interleaved.app s)))
            (Interleaved.initial config) es s) :
  let tr := Router.inflight (Api.router (Interleaved.app s)) in
  InflightTracker.count id tr =
    wrap64 (N.of_nat (Interleaved.awaiting id s +
                      Serving.streaming_from id (Interleaved.server s))) ∧
  InflightTracker.total tr = wrap64 (N.of_nat (length (Interleaved.guards s))) ∧
  (Interleaved.tasks s = [] → Interleaved.bodies s = [] → InflightTracker.count id tr = 0%N).
Proof.
  pose proof (Interleaved.slots_run config es s Hs) as Hok.
  destruct Hok as (_ & _ & [Hc _] & Ht). unfold Inflight.totalled, Serving.slots in *.
  cbn [Inflight.tracker Inflight.guards fst snd] in Hc, Ht.
  specialize (Hc id). rewrite Interleaved.live_guards in Hc.
  cbn zeta. split_and!; [done|done|]. intros Hts Hb. rewrite Hc.
  unfold Interleaved.awaiting, Serving.streaming_from. by rewrite Hts, Hb.
Qed.

(** C16.  Every request is accounted for, whatever is interleaved: the requests
    accepted so far are those counted in [kvrouter_requests_total], those still
    under way, those whose client has gone and those whose response head could
    not be built; none is counted twice and none is lost. *)
Theorem requests_conserved {T V} `{BeliefIndex T} {HM : HashMapOrder} {BH : BlockHash}
    (config : RouterConfig) (es : list Interleaved.event) (s : Interleaved.t T V)
    (Hs : Interleaved.run (λ _, True) (Interleaved.initial config) es s) :
  Interleaved.tally Interleaved.Arrived es =
    Metrics.requests_counted (Api.metrics (Interleaved.app s)) + Interleaved.in_progress s +
    Interleaved.tally Interleaved.Abandoned es + Interleaved.tally Interleaved.Unbuilt es.
Proof. symmetry. exact (proj2 (Interleaved.run_conserves _ config es s Hs)). Qed.

(** C36.  The metrics are well typed: however handlers, bodies, scrapes and the
    other tasks are interleaved, every call that the server has made on the
    metrics facade is to a declared metric with the declared kind, and two calls
    to one metric carry the same label keys in the same order. *)
Theorem interleaved_metrics_declared {T V} `{BeliefIndex T} {HM : HashMapOrder} {BH : BlockHash}
    (config : RouterConfig) (es : list Interleaved.event) (s : Interleaved.t T V)
    (Hs : Interleaved.run (λ _, True) (Interleaved.initial config) es s) :
  let calls := Metrics.calls (Api.metrics (Interleaved.app s)) in
  (∀ c, c ∈ calls → (Schema.call_kind c, Schema.call_name c) ∈ Schema.declared) ∧
  (∀ c c', c ∈ calls → c' ∈ calls → Schema.call_name c = Schema.call_name c' →
     Schema.call_kind c = Schema.call_kind c' ∧ Schema.label_keys c = Schema.label_keys c').
Proof.
  pose proof (Declared.run_ok _ config es s Hs) as Hok. unfold Schema.ok in Hok.
  rewrite Forall_forall in Hok. cbn zeta. split.
  - intros c Hc. by apply Schema.call_ok_declared, Hok.
  - intros c c' Hc Hc'. by apply Schema.call_ok_unique; apply Hok.
Qed.

Section witnesses.
#[local] Existing Instance hm_canonical.
#[local] Existing Instance mock_kv_transfer.
#[local] Existing Instance InflightTracker.tracks_dec.

(** Two requests reach worker 0; it goes down while both are under way, the
    first is answered all the same, and so is a third, with an error; the
    client of the second goes away. *)
Definition busy_schedule : list (Schedule.command unit) :=
  [Schedule.DoProbe worker_a true;
   Schedule.DoArrive hello (lit "r1"); Schedule.DoAdvance 0;
   Schedule.DoArrive hello (lit "r2"); Schedule.DoAdvance 0;
   Schedule.DoAdvance 1; Schedule.DoProbe worker_a false; Schedule.DoAdvance 0;
   Schedule.DoAdvance 1;
   Schedule.DoArrive hello (lit "r3"); Schedule.DoAdvance 0].

Definition every_state (s : Interleaved.t PrefixIndex.t unit) : bool :=
  bool_decide (Forall (λ w, InflightTracker.tracks (w_id w)
                         (Router.inflight (Api.router (Interleaved.app s))))
    (WorkerRegistry.healthy_workers (Router.registry (Api.router (Interleaved.app s))))).

Definition busy_run : list Interleaved.event * Interleaved.t PrefixIndex.t unit :=
  default ([], Interleaved.initial sys_config)
    (Schedule.exec_all sample_http every_state busy_schedule (Interleaved.initial sys_config)).

Definition busy := busy_run.2.

Definition left_run : list Interleaved.event * Interleaved.t PrefixIndex.t unit :=
  default ([], busy) (Schedule.exec_all sample_http every_state [Schedule.DoCancel 0] busy).

Lemma busy_reached (P : Interleaved.t PrefixIndex.t unit → Prop) :
  (∀ s, every_state s = true → P s) →
  Interleaved.run P (Interleaved.initial sys_config) busy_run.1 busy.
Proof.
  intros HP.
  assert (Hx : Schedule.exec_all sample_http every_state busy_schedule
    (Interleaved.initial sys_config) = Some (busy_run.1, busy)) by (vm_compute; reflexivity).
  exact (Schedule.exec_all_run sample_http every_state P busy_schedule
    (Interleaved.initial sys_config) [] (Interleaved.initial sys_config) busy_run.1 busy HP
    (Interleaved.run_nil P _) Hx).
Qed.

Lemma left_reached (P : Interleaved.t PrefixIndex.t unit → Prop) :
  (∀ s, every_state s = true → P s) →
  Interleaved.run P (Interleaved.initial sys_config) (busy_run.1 ++ left_run.1) left_run.2.
Proof.
  intros HP.
  assert (Hx : Schedule.exec_all sample_http every_state [Schedule.DoCancel 0] busy =
    Some (left_run.1, left_run.2)) by (vm_compute; reflexivity).
  exact (Schedule.exec_all_run sample_http every_state P [Schedule.DoCancel 0]
    (Interleaved.initial sys_config) busy_run.1 busy left_run.1 left_run.2 HP
    (busy_reached P HP) Hx).
Qed.

Theorem interleaved_refines_system_witness :
  (∃ σ, rtc System.step (System.initial sys_config) σ ∧ System.same σ (Interleaved.view busy)) ∧
  WorkerRegistry.is_healthy 0 (Router.registry (Api.router (Interleaved.app busy))) = false ∧
  length (Interleaved.guards busy) = 2.
Proof.
  split; [|split; vm_compute; reflexivity].
  apply (interleaved_refines_system sys_config busy_run.1 busy);
    [vm_compute; reflexivity|by apply busy_reached].
Defined.

Theorem interleaved_inflight_exact_witness :
  InflightTracker.count 0 (Router.inflight (Api.router (Interleaved.app busy))) =
    wrap64 (N.of_nat (Interleaved.awaiting 0 busy +
                      Serving.streaming_from 0 (Interleaved.server busy))) ∧
  Interleaved.awaiting 0 busy = 1 ∧ Serving.streaming_from 0 (Interleaved.server busy) = 1.
Proof.
  split; [|split; vm_compute; reflexivity].
  apply (interleaved_inflight_exact sys_config busy_run.1 busy 0).
  apply busy_reached. intros s Hs. apply serving_covered. by apply bool_decide_eq_true in Hs.
Defined.

Theorem requests_conserved_witness :
  Interleaved.tally Interleaved.Arrived (busy_run.1 ++ left_run.1) = 3 ∧
  Metrics.requests_counted (Api.metrics (Interleaved.app left_run.2)) = 1 ∧
  Interleaved.tally Interleaved.Arrived (busy_run.1 ++ left_run.1) =
    Metrics.requests_counted (Api.metrics (Interleaved.app left_run.2)) +
    Interleaved.in_progress left_run.2 +
    Interleaved.tally Interleaved.Abandoned (busy_run.1 ++ left_run.1) +
    Interleaved.tally Interleaved.Unbuilt (busy_run.1 ++ left_run.1).
Proof.
  split; [vm_compute; reflexivity|]. split; [vm_compute; reflexivity|].
  apply (requests_conserved sys_config (busy_run.1 ++ left_run.1) left_run.2).
  by apply left_reached.
Defined.

Theorem interleaved_metrics_declared_witness :
  length (Metrics.calls (Api.metrics (Interleaved.app left_run.2))) = 1 ∧
  ∀ c, c ∈ Metrics.calls (Api.metrics (Interleaved.app left_run.2)) →
    (Schema.call_kind c, Schema.call_name c) ∈ Schema.declared.
Proof.
  split; [vm_compute; reflexivity|].
  apply (interleaved_metrics_declared sys_config (busy_run.1 ++ left_run.1) left_run.2).
  by apply left_reached.
Defined.
End witnesses.
