(* ===== verification/HitRates.v ===== *)
(** * The predicted hit rate

    A decision never credits a worker with more blocks than the prompt has, so
    the exported block counters and the per-worker hit statistics describe a
    rate: hits do not exceed prompts.  A body that ends makes seven calls on the
    metrics one after the other, between which the rest of the server runs;
    [Recordings] takes each of them as a step, and says by how much the
    counters may be out of step meanwhile. *)

From S2P Require Import Prelude Float64 Text Hashing Config Request Worker Inflight Belief Prefix Router Discovery Health System PrometheusText Metrics EngineMetrics Stream Api Serving Schema Tasks Interleaved.

Module HitRates.

Definition hit_blocks : rstr := lit "kvrouter_cache_hit_blocks".
Definition prompt_blocks : rstr := lit "kvrouter_prompt_blocks_total".

(** What a call adds to the counter [name]. *)
Definition increment_of (name : rstr) (c : MetricCall) : N :=
  match c with
  | CounterIncrement name' _ by_ => if decide (name' = name) then by_ else 0
  | _ => 0
  end.

(** The value of a counter, over all its labels. *)
Definition counter (name : rstr) (m : Metrics.t) : N := sumN (increment_of name <$> Metrics.calls m).

Lemma counter_emit name c m : counter name (Metrics.emit c m) = (counter name m + increment_of name c)%N.
Proof. unfold counter, Metrics.emit. cbn [Metrics.calls]. rewrite fmap_app, sumN_app. simpl. lia. Qed.

(** The hit statistics next to the counters: each entry is a pair of sums
    (modulo 2^64) with no more hits than prompts, and no more prompts than the
    counter of all prompts.  [ahead] hit blocks are counted whose prompts are
    not yet, and [behind] prompt blocks whose statistics are not yet. *)
Record consistent (ahead behind : N) (m : Metrics.t) : Prop := {
  consistent_counters : (counter hit_blocks m ≤ counter prompt_blocks m + ahead)%N;
  consistent_stats worker entry : Metrics.hit_stats m !! worker = Some entry →
    ∃ hits prompts, (hits ≤ prompts)%N ∧ (prompts + behind ≤ counter prompt_blocks m)%N ∧
      entry = (wrap64 hits, wrap64 prompts);
  consistent_behind : (behind ≤ counter prompt_blocks m)%N;
}.

(** Calls that concern neither the counters nor the statistics. *)
Definition unrelated (m m' : Metrics.t) : Prop :=
  counter hit_blocks m' = counter hit_blocks m ∧
  counter prompt_blocks m' = counter prompt_blocks m ∧
  Metrics.hit_stats m' = Metrics.hit_stats m.

#[export] Instance unrelated_preorder : PreOrder unrelated.
Proof.
  split; [done|]. intros m1 m2 m3 (? & ? & ?) (? & ? & ?). split_and!; congruence.
Qed.

Lemma unrelated_emit c m :
  increment_of hit_blocks c = 0%N → increment_of prompt_blocks c = 0%N →
  unrelated m (Metrics.emit c m).
Proof. intros Hh Hp. split_and!; [rewrite counter_emit; lia..|done]. Qed.

Lemma unrelated_foldl {A} (f : Metrics.t → A → Metrics.t) l m :
  (∀ m x, unrelated m (f m x)) → unrelated m (foldl f m l).
Proof.
  intros Hf. revert m. induction l as [|x l IH]; intros m; [done|]. cbn [foldl].
  etrans; [apply Hf|apply IH].
Qed.

Lemma consistent_unrelated ahead behind m m' :
  unrelated m m' → consistent ahead behind m → consistent ahead behind m'.
Proof.
  intros (Hh & Hp & Hs) [Hc He Hb]. split; [by rewrite Hh, Hp| |by rewrite Hp].
  intros worker entry. rewrite Hs, Hp. apply He.
Qed.

(** What the three calls that matter do: the hit counter, the prompt counter
    and the statistics, in the order in which a body makes them. *)
Lemma increment_names :
  (∀ n, increment_of hit_blocks (CounterIncrement hit_blocks [] n) = n) ∧
  (∀ n, increment_of prompt_blocks (CounterIncrement hit_blocks [] n) = 0%N) ∧
  (∀ n, increment_of hit_blocks (CounterIncrement prompt_blocks [] n) = 0%N) ∧
  (∀ n, increment_of prompt_blocks (CounterIncrement prompt_blocks [] n) = n).
Proof.
  split_and!; intros n; cbn [increment_of]; case_decide as Hd; try done;
    exfalso; revert Hd; vm_compute; congruence.
Qed.

Lemma consistent_hits n ahead behind m :
  consistent ahead behind m →
  consistent (ahead + n) behind (Metrics.record_cache_hit_blocks n m).
Proof.
  intros [Hc He Hb]. destruct increment_names as (H1 & H2 & _).
  change (Metrics.record_cache_hit_blocks n m) with (Metrics.emit (CounterIncrement hit_blocks [] n) m).
  split; rewrite ?counter_emit, ?H1, ?H2; [lia| |lia].
  intros worker entry Hl. destruct (He worker entry Hl) as (hits & prompts & ? & ? & ?).
  exists hits, prompts. split_and!; [done|lia|done].
Qed.

Lemma consistent_prompts hit n ahead behind m :
  (hit ≤ n)%N → consistent (ahead + hit) behind m →
  consistent ahead (behind + n) (Metrics.record_prompt_blocks n m).
Proof.
  intros Hn [Hc He Hb]. destruct increment_names as (_ & _ & H1 & H2).
  change (Metrics.record_prompt_blocks n m)
    with (Metrics.emit (CounterIncrement prompt_blocks [] n) m).
  split; rewrite ?counter_emit, ?H1, ?H2; [lia| |lia].
  intros worker entry Hl. destruct (He worker entry Hl) as (hits & prompts & ? & ? & ?).
  exists hits, prompts. split_and!; [done|lia|done].
Qed.

Lemma consistent_record worker hit n ahead behind m :
  (hit ≤ n)%N → consistent ahead (behind + n) m →
  consistent ahead behind (Metrics.record_hit_stats worker hit n m).
Proof.
  intros Hn [Hc He Hb].
  assert (Hcounter : ∀ name, counter name (Metrics.record_hit_stats worker hit n m) = counter name m)
    by done.
  split; rewrite ?Hcounter; [done| |lia]. intros worker' entry.
  cbn [Metrics.record_hit_stats Metrics.hit_stats].
  destruct (decide (worker' = worker)) as [->|Hne].
  - rewrite lookup_insert_eq. intros [= <-].
    destruct (Metrics.hit_stats m !! worker) as [entry|] eqn:Hl.
    + destruct (He _ _ Hl) as (hits & prompts & Hhp & Hpc & ->). cbn [default fst snd].
      exists (hits + hit)%N, (prompts + n)%N.
      split_and!; [lia|lia|]. unfold fetch_add. simpl. by rewrite !wrap64_add_l.
    + cbn [default fst snd]. exists hit, n. split_and!; [lia|lia|done].
  - rewrite lookup_insert_ne by done. intros Hl.
    destruct (He _ _ Hl) as (hits & prompts & Hhp & Hpc & ->). exists hits, prompts.
    split_and!; [done|lia|done].
Qed.

(** A drained body in one piece: it ends as consistent as it began. *)
Lemma finish_consistent t ttft total tokens ahead behind m :
  rt_matched_prefix_blocks t ≤ rt_prompt_blocks t →
  consistent ahead behind m → consistent ahead behind (finish t ttft total tokens m).
Proof.
  intros Hle Hm. unfold finish.
  do 3 (eapply consistent_unrelated; [by apply unrelated_emit|]).
  apply consistent_record; [lia|]. eapply consistent_prompts; [|apply consistent_hits]; [lia|].
  eapply consistent_unrelated; [|exact Hm]. by apply unrelated_emit.
Qed.

(** ** Decisions *)

Definition credible (d : RouteDecision) : Prop := rd_matched_prefix_len d ≤ rd_prompt_blocks d.

Section selections.
Context {T : Type} `{BIL : BeliefIndexLaws T} {HM : HashMapOrder} {BH : BlockHash}.
Implicit Types (r : Router.t T).

Lemma chat_credible {V} now (request : ChatCompletionRequest V) r d r' :
  bi_ok (Router.prefix_index r) →
  Router.select_for_chat now request r = Some (Ok d, r') → credible d.
Proof.
  intros Hok Hsel. destruct (select_for_chat_spec now request r Hok) as (out & r2 & Hsel' & Hc).
  rewrite Hsel in Hsel'. injection Hsel' as <- <-. destruct Hc as ((Hm & Hb & _) & _).
  unfold credible. rewrite Hm, Hb. apply held_prefix_le.
Qed.

Lemma pool_credible now pool chain r d r' :
  bi_ok (Router.prefix_index r) →
  Router.select_in_pool now pool chain r = (Ok d, r') → credible d.
Proof.
  intros Hok Hsel.
  destruct (Router.select_in_pool_cases now pool chain r Hok) as [[_ Hs]|(w & idx & Hs & _)];
    rewrite Hsel in Hs; [done|]. injection Hs as -> _. apply held_prefix_le.
Qed.

(** ** Along a handler *)

(** The decision a task will report. *)
Definition decided {V} (k : Task.t V) : option RouteDecision :=
  match k with
  | Task.Proxied _ _ d | Task.ProxiedSent _ _ d _ _ | Task.Transferring _ _ _ _ _ d _
  | Task.DecodeChosen _ _ _ _ _ d | Task.DecodeSent _ _ _ _ _ d _ _ => Some d
  | _ => None
  end.

Definition task_ok {V} (k : Task.t V) : Prop := ∀ d, decided k = Some d → credible d.

Definition body_ok (st : ProxyStream.state) : Prop :=
  rt_matched_prefix_blocks (ProxyStream.telemetry st) ≤ rt_prompt_blocks (ProxyStream.telemetry st).

Definition next_ok {V} (x : Task.next V) : Prop :=
  match x with
  | inl k => task_ok k
  | inr res => Forall body_ok (Serving.body_of res)
  end.

Section kv.
Context {V : Type} {KV : KvTransfer} (env : Api.http).
Implicit Types (k : Task.t V) (a : Api.app T).

Lemma answered_next_ok worker phase rejected g a success x a' :
  Task.answered env worker phase rejected g a success = (x, a') →
  (∀ u, success u = (x, a') → next_ok x ∧ unrelated (Api.metrics a) (Api.metrics a')) →
  next_ok (V := V) x ∧ unrelated (Api.metrics a) (Api.metrics a').
Proof.
  unfold Task.answered. intros Hx Hs.
  assert (Hfail : ∀ e, next_ok (V := V) (inl (Task.Failing e g)) ∧
    unrelated (Api.metrics a) (Api.metrics (Api.record_request (w_url worker) 502 a))).
  { intros e. split; [done|]. by apply unrelated_emit. }
  destruct (Api.post _ _ _) as [u|e]; [|injection Hx as <- <-; apply Hfail].
  destruct (negb _); [injection Hx as <- <-; apply Hfail|by eapply Hs].
Qed.

Lemma respond_next_ok u request request_id d g started details a x a' :
  credible d → Task.respond env u request request_id d g started details a = (x, a') →
  next_ok (V := V) x ∧ unrelated (Api.metrics a) (Api.metrics a').
Proof.
  unfold Task.respond, Api.build_response. intros Hd Hr.
  match type of Hr with context [if ?b then _ else _] => destruct b end; injection Hr as <- <-;
    (split; [|done]); repeat constructor. exact Hd.
Qed.

Lemma advance_credible k a x a' :
  bi_ok (Router.prefix_index (Api.router a)) →
  Task.advance env k a = Some (x, a') → task_ok k →
  next_ok x ∧ unrelated (Api.metrics a) (Api.metrics a').
Proof.
  intros Hok Hx Hk.
  destruct k as [req id|req id d|req id d g st|req id ch p|req id ch p g st|req id ch p g st body
    |req id ch p ms|req id ch p ms d st|req id p ms tms d|req id p ms tms d g st|e g];
    cbn [Task.advance] in Hx.
  - revert Hx. case_decide.
    + unfold Task.select_prefill. destruct (Router.select_in_pool _ _ _ _) as [[p|e] r];
        intros [= <- <-]; [done|]. split; [constructor|by apply unrelated_emit].
    + unfold Task.select_proxied.
      destruct (Router.select_for_chat _ _ _) as [[[d|e] r]|] eqn:Hsel; intros [= <- <-].
      * split; [|done]. intros d' [= <-]. by eapply chat_credible.
      * split; [constructor|by apply unrelated_emit].
  - by injection Hx as <- <-.
  - apply (inj Some) in Hx. eapply answered_next_ok; [exact Hx|]. intros u.
    apply respond_next_ok. by apply Hk.
  - by injection Hx as <- <-.
  - apply (inj Some) in Hx. eapply answered_next_ok; [exact Hx|]. by intros u [= <- <-].
  - by destruct body as [|[] body]; injection Hx as <- <-.
  - revert Hx. unfold Task.select_decode.
    destruct (Router.select_in_pool _ _ _ _) as [[d|e] r] eqn:Hsel; intros [= <- <-].
    + split; [|done]. intros d' [= <-]. by eapply pool_credible.
    + split; [constructor|by apply unrelated_emit].
  - revert Hx. unfold Task.transferred. destruct (kv_transfer _ _ _); intros [= <- <-].
    + split; [exact Hk|by apply unrelated_emit].
    + split; [constructor|by apply unrelated_emit].
  - by injection Hx as <- <-.
  - apply (inj Some) in Hx. eapply answered_next_ok; [exact Hx|]. intros u.
    apply respond_next_ok. by apply Hk.
  - injection Hx as <- <-. by split; [constructor|].
Qed.
End kv.

(** ** Along a run of the server *)

Section server.
Context {V : Type}.
Implicit Types (s : Interleaved.t T V).

Record inv (ahead behind : N) s : Prop := {
  inv_tasks : Forall task_ok (Interleaved.tasks s);
  inv_bodies : Forall body_ok (Interleaved.bodies s);
  inv_metrics : consistent ahead behind (Api.metrics (Interleaved.app s));
}.

Lemma background_unrelated sv sv' :
  Serving.background (T := T) sv sv' →
  unrelated (Api.metrics (Serving.app sv)) (Api.metrics (Serving.app sv')).
Proof.
  destruct 1; [done..| |]; cbn.
  - unfold Metrics.refresh_gauges.
    etrans; [|by apply unrelated_emit].
    apply (unrelated_foldl (Metrics.refresh_worker (Api.router (Serving.app s)))).
    intros m w. unfold Metrics.refresh_worker.
    etrans; [|by apply unrelated_emit]. by apply unrelated_emit.
  - apply unrelated_foldl. intros m w. rewrite EngineMetrics.scrape_worker_cases.
    case_match; [|done]. unfold EngineMetrics.report.
    destruct (Metrics.predicted_cache_hit_rate _ _); [|by apply unrelated_emit].
    do 2 (etrans; [|by apply unrelated_emit]). by apply unrelated_emit.
Qed.

Lemma next_inv ahead behind now st m :
  body_ok st → consistent ahead behind m →
  match ProxyStream.next now st m with
  | (Some (_, st'), m') => body_ok st' ∧ m' = m
  | (None, m') => consistent ahead behind m'
  end.
Proof.
  intros Hst Hm. destruct (ProxyStream.next now st m) as [[[i st']|] m'] eqn:Hn.
  - unfold body_ok. rewrite (ProxyStream.telemetry_next _ _ _ _ _ _ Hn). split; [done|].
    unfold ProxyStream.next in Hn. destruct (ProxyStream.inner st) as [|[] ?]; [|by simplify_eq..].
    destruct (_ && _); [by simplify_eq|]. by destruct (ProxyStream.errored st).
  - revert Hn. unfold ProxyStream.next. destruct (ProxyStream.inner st) as [|[] ?]; [|done..].
    destruct (_ && _); [done|]. destruct (ProxyStream.errored st); intros [= <-].
    + eapply consistent_unrelated, Hm. by apply unrelated_emit.
    + by apply finish_consistent.
Qed.

Lemma rates_step ahead behind e s s' :
  bi_ok (Router.prefix_index (Api.router (Interleaved.app s))) →
  Interleaved.step e s s' → inv ahead behind s → inv ahead behind s'.
Proof.
  intros Hok Hs [Hks Hbs Hm]. destruct Hs as [payload id k s Hk|payload id res s Hk
    |KV env k pre post k' a s Hk Hx|KV env k pre post res a s Hk Hx|k pre post s Hk Hw
    |now st b1 b2 i b m tr s Hb Hp|st b1 b2 s Hb|sv s Hb].
  - split; [|done..]. constructor; [|done]. destruct payload; [|done]. by injection Hk as <-.
  - done.
  - rewrite Hk in Hks. apply Forall_app in Hks as [Hpre [Hk0 Hpost]%Forall_cons].
    destruct (advance_credible env k _ _ _ Hok Hx Hk0) as [Hn Hu]. split; cbn; [|done|].
    + apply Forall_app. split; [done|by constructor].
    + by eapply consistent_unrelated.
  - rewrite Hk in Hks. apply Forall_app in Hks as [Hpre [Hk0 Hpost]%Forall_cons].
    destruct (advance_credible env k _ _ _ Hok Hx Hk0) as [Hn Hu]. split; cbn.
    + by apply Forall_app.
    + by apply Forall_app.
    + by eapply consistent_unrelated.
  - rewrite Hk in Hks. apply Forall_app in Hks as [Hpre [_ Hpost]%Forall_cons].
    split; cbn; [by apply Forall_app|done|].
    unfold Task.cancel. by destruct (Task.guard_of k).
  - rewrite Hb in Hbs. apply Forall_app in Hbs as [Hb1 [Hst Hb2]%Forall_cons].
    pose proof (next_inv _ _ now st _ Hst Hm) as Hn. unfold ProxyStream.poll in Hp.
    destruct (ProxyStream.next now st _) as [[[i' st']|] m1]; injection Hp as <- <- <- <-;
      (split; cbn; [done|..]).
    + apply Forall_app. split; [done|]. by constructor; [apply Hn|].
    + by destruct Hn as [_ ->].
    + by apply Forall_app.
    + exact Hn.
  - rewrite Hb in Hbs. apply Forall_app in Hbs as [Hb1 [Hst Hb2]%Forall_cons].
    split; cbn; [done|by apply Forall_app|done].
  - apply Serving.background_cases in Hb as Hc. destruct Hc as [Hbodies _].
    split; cbn; [done|by rewrite Hbodies|]. by eapply consistent_unrelated; [apply background_unrelated|].
Qed.

End server.
End selections.
End HitRates.

(** ** The end of a body, call by call *)

Module Recordings.
Import HitRates.

(** A body that has ended and has made [rc_made] of the calls of [finish]; its
    guard is still alive. *)
Record recording := {
  rc_telemetry : RequestTelemetry;
  rc_ttft : duration;
  rc_total : duration;
  rc_tokens : N;
  rc_made : nat;
}.

(** The calls of [finish], in their order. *)
Definition finish_calls (x : recording) : list (Metrics.t → Metrics.t) :=
  let t := rc_telemetry x in
  let worker := w_url (rt_worker t) in [
  Metrics.record_request worker (rt_policy t) 200;
  Metrics.record_cache_hit_blocks (N.of_nat (rt_matched_prefix_blocks t));
  Metrics.record_prompt_blocks (N.of_nat (rt_prompt_blocks t));
  Metrics.record_hit_stats worker (N.of_nat (rt_matched_prefix_blocks t))
    (N.of_nat (rt_prompt_blocks t));
  Metrics.record_ttft (rt_policy t) (Metrics.as_secs_f64 (rc_ttft x));
  Metrics.record_request_duration (rt_policy t) (Metrics.as_secs_f64 (rc_total x));
  Metrics.record_tokens_generated worker (rc_tokens x)].

(** Uninterrupted they are [finish]. *)
Lemma finish_is_calls t ttft total tokens m :
  finish t ttft total tokens m =
  foldl (λ m call, call m) m (finish_calls {| rc_telemetry := t; rc_ttft := ttft;
    rc_total := total; rc_tokens := tokens; rc_made := 0 |}).
Proof. done. Qed.

(** The recording that begins when the poll at [now] finds the end of [st]. *)
Definition begin (now : instant) (st : ProxyStream.state) : recording :=
  let t := ProxyStream.telemetry st in
  let total := ProxyStream.elapsed now (rt_started t) in {|
  rc_telemetry := t;
  rc_ttft := default total (ProxyStream.first_chunk_after st);
  rc_total := total;
  rc_tokens := if ProxyStream.streaming st then ProxyStream.tokens st
               else default 0%N (ProxyStream.completion_tokens st);
  rc_made := 0 |}.

Definition ends_well (st : ProxyStream.state) : Prop :=
  ProxyStream.inner st = [] ∧ ProxyStream.streaming st && negb (ProxyStream.done_seen st) = false ∧
  ProxyStream.errored st = false.

(** Such a poll is [finish] and nothing else. *)
Lemma ends_well_finishes now st m :
  ends_well st →
  ProxyStream.next now st m =
    (None, foldl (λ m call, call m) m (finish_calls (begin now st))).
Proof. intros (Hi & Hd & He). unfold ProxyStream.next. by rewrite Hi, Hd, He. Qed.

Definition made (x : recording) : recording := {|
  rc_telemetry := rc_telemetry x; rc_ttft := rc_ttft x; rc_total := rc_total x;
  rc_tokens := rc_tokens x; rc_made := S (rc_made x) |}.

Record t {T V : Type} := {
  server : Interleaved.t T V;
  recordings : list recording;
}.
Arguments t : clear implicits.

Section steps.
Context {T V : Type} `{BI : BeliefIndex T} {HM : HashMapOrder} {BH : BlockHash}.
Implicit Types (s : Interleaved.t T V) (xs : list recording).

(** Any step of the server, or one of a body that ends.  (The first case still
    contains the whole end of a body in one step, as a special schedule.) *)
Inductive step : t T V → t T V → Prop :=
  | step_server e s s' xs :
      Interleaved.step e s s' →
      step {| server := s; recordings := xs |} {| server := s'; recordings := xs |}
  | step_begin now st b1 b2 s xs :
      Interleaved.bodies s = b1 ++ st :: b2 → ends_well st →
      step {| server := s; recordings := xs |}
           {| server := Interleaved.with_app (Interleaved.app s) (b1 ++ b2) (Interleaved.tasks s) s;
              recordings := begin now st :: xs |}
  | step_call x call xs1 xs2 s :
      finish_calls x !! rc_made x = Some call →
      step {| server := s; recordings := xs1 ++ x :: xs2 |}
           {| server := Interleaved.with_app (Api.with_metrics call (Interleaved.app s))
                (Interleaved.bodies s) (Interleaved.tasks s) s;
              recordings := xs1 ++ made x :: xs2 |}
  (** All calls made: the state of the body is dropped, with its guard. *)
  | step_end x xs1 xs2 s :
      rc_made x = length (finish_calls x) →
      step {| server := s; recordings := xs1 ++ x :: xs2 |}
           {| server := Interleaved.with_app (Api.with_tracker
                (InflightGuard.drop (rt_guard (rc_telemetry x)) (Api.tracker (Interleaved.app s)))
                (Interleaved.app s)) (Interleaved.bodies s) (Interleaved.tasks s) s;
              recordings := xs1 ++ xs2 |}.

Definition initial (config : RouterConfig) : t T V :=
  {| server := Interleaved.initial config; recordings := [] |}.

Lemma step_run P s es s' xs :
  Interleaved.run P s es s' →
  rtc step {| server := s; recordings := xs |} {| server := s'; recordings := xs |}.
Proof.
  induction 1 as [s|s es s1 e s2 _ IH Hs _]; [apply rtc_refl|].
  eapply rtc_r; [exact IH|by eapply step_server].
Qed.
End steps.

(** ** The invariant *)

(** Hit blocks counted whose prompt blocks are not yet. *)
Definition ahead (xs : list recording) : N :=
  sumN ((λ x, if decide (rc_made x = 2)
              then N.of_nat (rt_matched_prefix_blocks (rc_telemetry x)) else 0%N) <$> xs).

(** Prompt blocks counted whose statistics are not yet. *)
Definition behind (xs : list recording) : N :=
  sumN ((λ x, if decide (rc_made x = 3)
              then N.of_nat (rt_prompt_blocks (rc_telemetry x)) else 0%N) <$> xs).

Lemma ahead_middle xs1 x xs2 :
  ahead (xs1 ++ x :: xs2) =
  (ahead (xs1 ++ xs2) +
   if decide (rc_made x = 2%nat)
   then N.of_nat (rt_matched_prefix_blocks (rc_telemetry x)) else 0)%N.
Proof. unfold ahead. rewrite !fmap_app, !sumN_app, fmap_cons. unfold sumN. simpl. lia. Qed.

Lemma behind_middle xs1 x xs2 :
  behind (xs1 ++ x :: xs2) =
  (behind (xs1 ++ xs2) +
   if decide (rc_made x = 3%nat)
   then N.of_nat (rt_prompt_blocks (rc_telemetry x)) else 0)%N.
Proof. unfold behind. rewrite !fmap_app, !sumN_app, fmap_cons. unfold sumN. simpl. lia. Qed.

Lemma ahead_none xs : Forall (λ x, rc_made x ≠ 2) xs → ahead xs = 0%N.
Proof.
  induction 1 as [|x xs Hx _ IH]; [done|]. pose proof (ahead_middle [] x xs) as Ha.
  rewrite decide_False in Ha by done. cbn [app] in Ha. by rewrite Ha, IH.
Qed.

Definition recording_ok (x : recording) : Prop :=
  rt_matched_prefix_blocks (rc_telemetry x) ≤ rt_prompt_blocks (rc_telemetry x).

Section invariant.
Context {T V : Type} `{BIL : BeliefIndexLaws T} {HM : HashMapOrder} {BH : BlockHash}.
Implicit Types (s : Interleaved.t T V) (xs : list recording).

Record inv (st : t T V) : Prop := {
  inv_system : System.inv (Interleaved.view (server st));
  inv_recordings : Forall recording_ok (recordings st);
  inv_rates : HitRates.inv (ahead (recordings st)) (behind (recordings st)) (server st);
}.

(** The next call of a recording. *)
Lemma call_consistent x call xs1 xs2 m :
  recording_ok x → finish_calls x !! rc_made x = Some call →
  consistent (ahead (xs1 ++ x :: xs2)) (behind (xs1 ++ x :: xs2)) m →
  consistent (ahead (xs1 ++ made x :: xs2)) (behind (xs1 ++ made x :: xs2)) (call m).
Proof.
  unfold recording_ok. rewrite !ahead_middle, !behind_middle.
  generalize (ahead (xs1 ++ xs2)) (behind (xs1 ++ xs2)). intros a b.
  destruct x as [t ttft total tokens n]. cbn [rc_telemetry rc_made made finish_calls].
  intros Hle Hcall Hm.
  destruct n as [|[|[|[|[|[|[|n]]]]]]]; cbn in Hcall, Hm |- *; simplify_eq;
    rewrite ?N.add_0_r in *; try (eapply consistent_unrelated; [by apply unrelated_emit|exact Hm]).
  - by apply consistent_hits.
  - eapply consistent_prompts; [|exact Hm]. lia.
  - eapply consistent_record; [|exact Hm]. lia.
Qed.

Lemma system_step e s s' :
  Interleaved.step e s s' → System.inv (Interleaved.view s) → System.inv (Interleaved.view s').
Proof.
  intros Hs Hi. destruct (Interleaved.step_simulates e s s' Hs) as (σ & Hσ & Hsame).
  destruct (System.inv_rtc _ _ Hσ Hi) as [Hd Hb]. destruct Hsame as [Hr _ Hdisc _].
  unfold System.watch_state in Hd. rewrite Hr, Hdisc in Hd. rewrite Hr in Hb. by split.
Qed.

Lemma recordings_inv_step st st' : step st st' → inv st → inv st'.
Proof.
  intros Hs [Hsys Hxs [Hks Hbs Hm]].
  destruct Hs as [e s s' xs Hs|now b bs1 bs2 s xs Hb He|x call xs1 xs2 s Hc|x xs1 xs2 s Hx];
    cbn [server recordings] in *.
  - split; cbn [server recordings]; [by eapply system_step|done|].
    eapply rates_step; [exact (System.inv_index _ Hsys)|exact Hs|by split].
  - rewrite Hb in Hbs. apply Forall_app in Hbs as [Hb1 [Hb0 Hb2]%Forall_cons].
    split; cbn [server recordings].
    + by destruct Hsys.
    + by constructor.
    + split; [done|by apply Forall_app|exact Hm].
  - pose proof Hxs as [Hx1 [Hx0 Hx2]%Forall_cons]%Forall_app. split; cbn [server recordings].
    + by destruct Hsys.
    + apply Forall_app. split; [done|by constructor].
    + split; [done|done|]. by apply call_consistent.
  - pose proof Hxs as [Hx1 [Hx0 Hx2]%Forall_cons]%Forall_app. split; cbn [server recordings].
    + by destruct Hsys.
    + by apply Forall_app.
    + split; [done|done|]. revert Hm. rewrite ahead_middle, behind_middle, Hx.
      cbn [finish_calls length]. by rewrite !decide_False, !N.add_0_r by lia.
Qed.

Lemma recordings_inv_run config st :
  (N.of_nat (length (cfg_workers config)) < u64_modulus)%N →
  rtc step (initial config) st → inv st.
Proof.
  intros Hn Hs. cut (inv (initial config)).
  { induction Hs; eauto using recordings_inv_step. }
  split; cbn; [by apply System.inv_initial|constructor|].
  split; [constructor..|]. split; [done| |done]. intros worker entry. cbn. by rewrite lookup_empty.
Qed.
End invariant.
End Recordings.

(** ** Properties *)

(** C27.  The predicted hit rate is a rate, with every call that a body makes
    at its end a step of its own: at any time the counter of cache-hit blocks
    exceeds the counter of prompt blocks by at most the hit blocks of the bodies
    that are just between the two increments, so it does not exceed it when there
    are none; and, as long as fewer than 2^64 prompt blocks have been routed in
    all, every worker is credited at any time with at most as many hit blocks as
    prompt blocks, so that the rate the server predicts for it is a quotient of at
    most 1.  (A selection is one step here; [concurrent_selection] bounds what
    one reports that is interrupted.) *)
Theorem hit_statistics_consistent {T V} `{BeliefIndexLaws T} {HM : HashMapOrder}
    {BH : BlockHash} (config : RouterConfig) (st : Recordings.t T V)
    (Hn : (N.of_nat (length (cfg_workers config)) < u64_modulus)%N)
    (Hs : rtc Recordings.step (Recordings.initial config) st) :
  let m := Api.metrics (Interleaved.app (Recordings.server st)) in
  (HitRates.counter HitRates.hit_blocks m ≤
   HitRates.counter HitRates.prompt_blocks m + Recordings.ahead (Recordings.recordings st))%N ∧
  (Forall (λ x, Recordings.rc_made x ≠ 2) (Recordings.recordings st) →
   (HitRates.counter HitRates.hit_blocks m ≤ HitRates.counter HitRates.prompt_blocks m)%N) ∧
  ((HitRates.counter HitRates.prompt_blocks m < u64_modulus)%N →
   ∀ worker rate, Metrics.predicted_cache_hit_rate worker m = Some rate →
     ∃ hits prompts, Metrics.hit_stats m !! worker = Some (hits, prompts) ∧
       (0 < prompts)%N ∧ (hits ≤ prompts)%N ∧
       rate = f64_div (f64_of_N hits) (f64_of_N prompts)).
Proof.
  destruct (Recordings.recordings_inv_run config st Hn Hs) as [_ _ [_ _ [Hc He _]]].
  cbn zeta. split_and!; [exact Hc| |].
  { intros Hall. rewrite (Recordings.ahead_none _ Hall), N.add_0_r in Hc. exact Hc. }
  intros Hlt worker rate. unfold Metrics.predicted_cache_hit_rate.
  destruct (Metrics.hit_stats _ !! worker) as [entry|] eqn:Hl; cbn [mbind option_bind]; [|done].
  destruct (He worker entry Hl) as (hits & prompts & Hle & Hp & ->).
  rewrite !wrap64_small by lia. case_decide as Hpos; [|done]. intros [= <-].
  by exists hits, prompts.
Qed.

Section witnesses.
#[local] Existing Instance hm_canonical.
#[local] Existing Instance mock_kv_transfer.

(** [hello] is sent to worker 0 twice and read to its end both times. *)
Definition rate_schedule : list (Schedule.command unit) :=
  [Schedule.DoProbe worker_a true;
   Schedule.DoArrive hello (lit "r1"); Schedule.DoAdvance 0; Schedule.DoAdvance 0;
   Schedule.DoAdvance 0; Schedule.DoPoll 0; Schedule.DoPoll 0;
   Schedule.DoArrive hello (lit "r2"); Schedule.DoAdvance 0; Schedule.DoAdvance 0;
   Schedule.DoAdvance 0; Schedule.DoPoll 0; Schedule.DoPoll 0].

Definition rate_run : list Interleaved.event * Interleaved.t PrefixIndex.t unit :=
  default ([], Interleaved.initial sys_config)
    (Schedule.exec_all sample_http (λ _, true) rate_schedule (Interleaved.initial sys_config)).

(** A schedule that succeeds is a run with no recording under way. *)
Lemma schedule_recordings cs es s :
  Schedule.exec_all sample_http (λ _, true) cs (Interleaved.initial sys_config) = Some (es, s) →
  rtc (Recordings.step (V := unit)) (Recordings.initial sys_config)
    {| Recordings.server := s; Recordings.recordings := [] |}.
Proof.
  intros Hx. apply (Recordings.step_run (λ _, True) _ es).
  exact (Schedule.exec_all_run sample_http (λ _, true) (λ _, True) cs
    (Interleaved.initial sys_config) [] (Interleaved.initial sys_config) es s
    (λ _ _, I) (Interleaved.run_nil _ _) Hx).
Qed.

Theorem hit_statistics_consistent_witness :
  Metrics.predicted_cache_hit_rate (w_url worker_a) (Api.metrics (Interleaved.app rate_run.2)) =
    Some f64_half ∧
  (HitRates.counter HitRates.hit_blocks (Api.metrics (Interleaved.app rate_run.2)) ≤
   HitRates.counter HitRates.prompt_blocks (Api.metrics (Interleaved.app rate_run.2)))%N.
Proof.
  split; [vm_compute; reflexivity|].
  assert (Hx : Schedule.exec_all sample_http (λ _, true) rate_schedule
    (Interleaved.initial sys_config) = Some (rate_run.1, rate_run.2)) by (vm_compute; reflexivity).
  apply (hit_statistics_consistent sys_config
    {| Recordings.server := rate_run.2; Recordings.recordings := [] |});
    [vm_compute; reflexivity|exact (schedule_recordings _ _ _ Hx)|constructor].
Defined.

(** The first body still streams when the second one, which matched all of its
    prompt, ends. *)
Definition overlap_schedule : list (Schedule.command unit) :=
  [Schedule.DoProbe worker_a true;
   Schedule.DoArrive hello (lit "r1"); Schedule.DoAdvance 0; Schedule.DoAdvance 0;
   Schedule.DoAdvance 0;
   Schedule.DoArrive hello (lit "r2"); Schedule.DoAdvance 0; Schedule.DoAdvance 0;
   Schedule.DoAdvance 0; Schedule.DoPoll 0].

Definition overlapping : list Interleaved.event * Interleaved.t PrefixIndex.t unit :=
  default ([], Interleaved.initial sys_config)
    (Schedule.exec_all sample_http (λ _, true) overlap_schedule (Interleaved.initial sys_config)).

(** A body that ends makes its first two calls. *)
Lemma first_two_calls {T V} `{BeliefIndex T} {BH : BlockHash} (b : ProxyStream.state)
    (bs : list ProxyStream.state) (s : Interleaved.t T V) :
  Interleaved.bodies s = b :: bs → Recordings.ends_well b →
  let t := ProxyStream.telemetry b in
  ∃ st, rtc Recordings.step {| Recordings.server := s; Recordings.recordings := [] |} st ∧
    Api.metrics (Interleaved.app (Recordings.server st)) =
      Metrics.record_cache_hit_blocks (N.of_nat (rt_matched_prefix_blocks t))
        (Metrics.record_request (w_url (rt_worker t)) (rt_policy t) 200
           (Api.metrics (Interleaved.app s))).
Proof.
  intros Hb He. set (x := Recordings.begin 0 b). eexists. split.
  - eapply rtc_l; [exact (Recordings.step_begin 0 b [] bs s [] Hb He)|]. fold x.
    eapply rtc_l; [exact (Recordings.step_call x _ [] [] _ eq_refl)|].
    eapply rtc_l; [exact (Recordings.step_call (Recordings.made x) _ [] [] _ eq_refl)|].
    apply rtc_refl.
  - done.
Qed.

Lemma head_is {A B} (f : A → B) (l : list A) y :
  f <$> head l = Some y → ∃ x l', l = x :: l' ∧ f x = y.
Proof. destruct l as [|x l']; [done|]. intros [= <-]. by exists x, l'. Qed.

(** How the second body ends, and what it will report. *)
Definition ending_of (b : ProxyStream.state) :=
  (ProxyStream.inner b, ProxyStream.streaming b && negb (ProxyStream.done_seen b),
   ProxyStream.errored b, rt_matched_prefix_blocks (ProxyStream.telemetry b)).

(** Both counters are zero, whatever the next request call. *)
Lemma overlapping_counters worker policy :
  let m := Metrics.record_request worker policy 200 (Api.metrics (Interleaved.app overlapping.2)) in
  HitRates.counter HitRates.hit_blocks m = 0%N ∧ HitRates.counter HitRates.prompt_blocks m = 0%N.
Proof.
  cbn zeta. unfold Metrics.record_request. rewrite !HitRates.counter_emit.
  split; vm_compute; reflexivity.
Qed.

(** The counters can be seen out of step: a body that ends increments the hit
    counter before the prompt counter, and a scrape between the two sees three
    hit blocks and no prompt block. *)
Theorem hits_run_ahead :
  ∃ st : Recordings.t PrefixIndex.t unit,
    rtc Recordings.step (Recordings.initial sys_config) st ∧
    let m := Api.metrics (Interleaved.app (Recordings.server st)) in
    HitRates.counter HitRates.hit_blocks m = 3%N ∧
    HitRates.counter HitRates.prompt_blocks m = 0%N.
Proof.
  assert (Hx : Schedule.exec_all sample_http (λ _, true) overlap_schedule
    (Interleaved.initial sys_config) = Some (overlapping.1, overlapping.2))
    by (vm_compute; reflexivity).
  apply schedule_recordings in Hx.
  assert (He : ending_of <$> head (Interleaved.bodies overlapping.2) = Some ([], false, false, 3))
    by (vm_compute; reflexivity).
  apply head_is in He as (b & bs & Hb & He).
  pose proof overlapping_counters as Hc. revert Hx Hb Hc. generalize overlapping.2 as s.
  intros s Hx Hb Hc. injection He as Hi Hd Hr H3.
  destruct (first_two_calls b bs s Hb) as (st & Hst & Hm); [done|].
  exists st. split; [by etrans|]. cbn zeta. rewrite Hm, H3.
  destruct (Hc (w_url (rt_worker (ProxyStream.telemetry b)))
    (rt_policy (ProxyStream.telemetry b))) as [Hh Hp].
  destruct HitRates.increment_names as (H1 & H2 & _).
  change (Metrics.record_cache_hit_blocks (N.of_nat 3)) with
    (Metrics.emit (CounterIncrement HitRates.hit_blocks [] 3)).
  by rewrite !HitRates.counter_emit, Hh, Hp, H1, H2.
Qed.
End witnesses.
