(* ===== verification/Shutdown.v ===== *)
(** * Graceful shutdown ([router-server/src/lib.rs], [serve] and [shutdown_signal])

    Once the future that [serve] gives to the HTTP library resolves, no further
    request is accepted and [serve] returns when those under way are over: that
    is what the library documents, and [step] and [finished] say.  This file
    shows that they come to an end, whatever the network answers and
    whatever the background tasks, which keep running, do meanwhile.  An
    upstream's body is a finite list: an engine that streams for ever is not
    covered. *)

From S2P Require Import Prelude Float64 Text Hashing Config Request Worker Inflight Belief Prefix Router Discovery Health System PrometheusText Metrics EngineMetrics Stream Api Serving Schema Tasks Interleaved.
From Stdlib Require Import Relations.Relation_Operators Wellfounded.Inverse_Image Wellfounded.Lexicographic_Product Arith.Wf_nat.

(** ** Lists with one element replaced by a smaller one, or gone *)

Section shrunk.
Context {A : Type} (R : A → A → Prop).
Implicit Types (x y : A) (l pre post : list A).

Inductive shrunk : list A → list A → Prop :=
  | shrunk_less y x pre post : R y x → shrunk (pre ++ y :: post) (pre ++ x :: post)
  | shrunk_gone x pre post : shrunk (pre ++ post) (pre ++ x :: post).

Lemma shrunk_cons l' x l :
  shrunk l' (x :: l) →
  (∃ y, R y x ∧ l' = y :: l) ∨ l' = l ∨ ∃ l2, l' = x :: l2 ∧ shrunk l2 l.
Proof.
  intros Hs. inversion Hs as [y x' pre post HR He Hl|x' pre post He Hl]; destruct pre as [|z pre];
    simplify_eq/=.
  - left. by eexists.
  - right; right. eexists. split; [done|by constructor].
  - by right; left.
  - right; right. eexists. split; [done|by constructor].
Qed.

Lemma shrunk_wf : well_founded R → well_founded shrunk.
Proof.
  intros Hwf l. induction l as [|x l Hl].
  { constructor. intros l' Hs. inversion Hs as [? ? pre|? pre]; by destruct pre. }
  revert l Hl. induction (Hwf x) as [x _ IHx]. intros l Hl. induction Hl as [l Hl IHl].
  constructor. intros l' [(y & Hy & ->)|[->|(l2 & -> & Hs)]]%shrunk_cons.
  - apply IHx; [done|by constructor].
  - by constructor.
  - by apply IHl.
Qed.
End shrunk.

(** ** The life of the server *)

Module Shutdown.

(** Whether [shutdown_signal] has resolved, given what [ctrl_c] has come to: it
    resolves at the interrupt, and never when no handler could be installed. *)
Definition shutdown_signal (ctrl_c : option (result rstr unit)) : bool :=
  match ctrl_c with Some (Ok _) => true | Some (Err _) | None => false end.

Record t {T V : Type} := { inner : Interleaved.t T V; accepting : bool }.
Arguments t : clear implicits.

Section life.
Context {T V : Type} `{BI : BeliefIndex T} {HM : HashMapOrder} {BH : BlockHash}.
Implicit Types (s : t T V) (i : Interleaved.t T V).

(** The server works as before; requests arrive until the signal. *)
Inductive step : t T V → t T V → Prop :=
  | step_serve e i s :
      Interleaved.step e (inner s) i → (e = Interleaved.Arrived → accepting s = true) →
      step s {| inner := i; accepting := accepting s |}
  | step_signal ctrl_c s :
      shutdown_signal ctrl_c = true → step s {| inner := inner s; accepting := false |}.

Definition initial (config : RouterConfig) : t T V :=
  {| inner := Interleaved.initial config; accepting := true |}.

(** [serve] returns. *)
Definition finished s : Prop :=
  accepting s = false ∧ Interleaved.tasks (inner s) = [] ∧ Interleaved.bodies (inner s) = [].

(** Runs in which every state satisfies [P]. *)
Definition reached (P : Interleaved.t T V → Prop) (config : RouterConfig) : t T V → Prop :=
  rtc (λ s s', step s s' ∧ P (inner s')) (initial config).

(** Every healthy worker has a counter. *)
Definition covered i : Prop := Serving.covered (Api.router (Interleaved.app i)).

(** ** What is under way *)

(** Polls that the bodies take until they end. *)
Definition polls_left i : nat :=
  sum_list_with (λ st, S (length (ProxyStream.remaining st))) (Interleaved.bodies i).

Definition fewer i' i : Prop :=
  slexprod _ _ (shrunk Task.before) lt (Interleaved.tasks i', polls_left i')
    (Interleaved.tasks i, polls_left i).

Lemma fewer_wf : well_founded fewer.
Proof.
  apply (wf_inverse_image _ _ (slexprod _ _ (shrunk Task.before) lt)
    (λ i, (Interleaved.tasks i, polls_left i))), wf_slexprod;
    [apply shrunk_wf, Task.before_wf|apply lt_wf].
Qed.

Lemma remaining_next now st m it st' m' :
  ProxyStream.next now st m = (Some (it, st'), m') →
  length (ProxyStream.remaining st) = S (length (ProxyStream.remaining st')).
Proof.
  unfold ProxyStream.next. destruct (ProxyStream.inner st) as [|[chunk|e] rest] eqn:Hi.
  - destruct (_ && _) eqn:Hd; [|by destruct (ProxyStream.errored st)].
    intros [= _ <- _]. unfold ProxyStream.remaining, ProxyStream.owes_done. cbn.
    rewrite Hi. apply andb_true_iff in Hd as [-> Hd]. apply negb_true_iff in Hd.
    by rewrite Hd.
  - intros [= _ <- _]. by rewrite (ProxyStream.remaining_chunk now chunk rest st Hi).
  - intros [= _ <- _]. by rewrite (ProxyStream.remaining_error e rest st Hi).
Qed.

Lemma fewer_bodies i sv ks b1 st b2 ob :
  ks = Interleaved.tasks i → Interleaved.bodies i = b1 ++ st :: b2 →
  Serving.bodies sv = b1 ++ option_list ob ++ b2 →
  (∀ st', ob = Some st' →
     length (ProxyStream.remaining st') < length (ProxyStream.remaining st)) →
  fewer {| Interleaved.server := sv; Interleaved.tasks := ks |} i.
Proof.
  intros -> Hi Hsv Hob. right. unfold polls_left. cbn. rewrite Hi, Hsv, !sum_list_with_app.
  cbn [sum_list_with]. destruct ob as [st'|]; cbn; [specialize (Hob st' eq_refl)|]; lia.
Qed.

Lemma fewer_poll now st b1 b2 it b m tr i :
  Interleaved.bodies i = b1 ++ st :: b2 →
  ProxyStream.poll now (Some st) (Api.metrics (Interleaved.app i))
    (Api.tracker (Interleaved.app i)) = (it, b, m, tr) →
  fewer (Interleaved.with_app (Api.with_tracker tr (Api.with_metrics (λ _, m) (Interleaved.app i)))
           (b1 ++ option_list b ++ b2) (Interleaved.tasks i) i) i.
Proof.
  intros Hb Hp. apply (fewer_bodies i _ _ b1 st b2 b); [done|done|done|]. intros st' ->.
  unfold ProxyStream.poll in Hp.
  destruct (ProxyStream.next now st _) as [[[it' st2]|] m2] eqn:Hn; [|done].
  injection Hp as _ <- _ _. apply remaining_next in Hn. lia.
Qed.

Lemma fewer_advance k k' pre post a bs i :
  Interleaved.tasks i = pre ++ k :: post → Task.before k' k →
  fewer (Interleaved.with_app a bs (pre ++ k' :: post) i) i.
Proof. intros Hk Hb. left. rewrite Hk. by apply shrunk_less. Qed.

Lemma fewer_gone k pre post a bs i :
  Interleaved.tasks i = pre ++ k :: post → fewer (Interleaved.with_app a bs (pre ++ post) i) i.
Proof. intros Hk. left. rewrite Hk. apply shrunk_gone. Qed.

(** Without arrivals, a step works on what is under way or leaves it alone. *)
Lemma step_fewer e i i' :
  Interleaved.step e i i' → e ≠ Interleaved.Arrived →
  fewer i' i ∨
  Interleaved.tasks i' = Interleaved.tasks i ∧ Interleaved.bodies i' = Interleaved.bodies i.
Proof.
  destruct 1 as [payload id k i Hk|payload id res i Hk|KV env k pre post k' a i Hk Hx
    |KV env k pre post res a i Hk Hx|k pre post i Hk Hw|now st b1 b2 it b m tr i Hb Hp
    |st b1 b2 i Hb|sv i Hb]; intros He.
  - done.
  - by right.
  - left. eapply fewer_advance; [done|]. by eapply Task.advance_before.
  - left. by eapply fewer_gone.
  - left. by eapply fewer_gone.
  - left. by eapply fewer_poll.
  - left. by apply (fewer_bodies i _ _ b1 st b2 None).
  - right. split; [done|]. cbn. by apply Serving.background_cases in Hb as [-> _].
Qed.

Lemma ended_not_arrived res : Interleaved.ended res ≠ Interleaved.Arrived.
Proof. unfold Interleaved.ended. destruct res; [done|]. by case_decide. Qed.

(** Whatever the network answers, something that is under way can go on. *)
Lemma step_possible {KV : KvTransfer} (env : Api.http) (now : instant) i :
  Interleaved.tasks i ≠ [] ∨ Interleaved.bodies i ≠ [] →
  ∃ e i', Interleaved.step e i i' ∧ e ≠ Interleaved.Arrived ∧ fewer i' i.
Proof.
  destruct (Interleaved.tasks i) as [|k ks] eqn:Hk.
  - intros [?|Hb]; [done|]. destruct (Interleaved.bodies i) as [|st bs] eqn:Hbs; [done|].
    destruct (ProxyStream.poll now (Some st) (Api.metrics (Interleaved.app i))
      (Api.tracker (Interleaved.app i))) as [[[it b] m] tr] eqn:Hp.
    eexists _, _. split; [exact (Interleaved.step_poll now st [] bs it b m tr i Hbs Hp)|].
    split; [done|]. by apply (fewer_poll now st [] bs it b m tr).
  - intros _. destruct (Task.advance_total env k (Interleaved.app i)) as [[[k'|res] a] Hx].
    + eexists _, _. split; [exact (Interleaved.step_advance env k [] ks k' a i Hk Hx)|].
      split; [done|]. eapply (fewer_advance k k' [] ks); [done|]. by eapply Task.advance_before.
    + eexists _, _. split; [exact (Interleaved.step_return env k [] ks res a i Hk Hx)|].
      split; [apply ended_not_arrived|]. by apply (fewer_gone k [] ks).
Qed.

Lemma reached_run P config s :
  reached P config s → ∃ es, Interleaved.run P (Interleaved.initial config) es (inner s).
Proof.
  intros Hs. unfold reached in Hs. revert s Hs.
  apply (rtc_ind_r (λ s, ∃ es, Interleaved.run P (Interleaved.initial config) es (inner s))
    (initial config)).
  - exists []. constructor.
  - intros s s' _ [Hs Hc] [es Hrun]. destruct Hs as [e i s Hi _|c s _].
    + exists (es ++ [e]). by eapply Interleaved.run_snoc.
    + by exists es.
Qed.

(** A run of the interleaved server, with arrivals only while they are accepted. *)
Lemma run_steps P i es i' b :
  Interleaved.run P i es i' → (Interleaved.Arrived ∈ es → b = true) →
  rtc (λ s s', step s s' ∧ P (inner s'))
    {| inner := i; accepting := b |} {| inner := i'; accepting := b |}.
Proof.
  induction 1 as [i|i es i1 e i2 _ IH Hs Hc]; intros Hb; [apply rtc_refl|].
  eapply rtc_r; [apply IH; intros Hin; apply Hb; set_solver|]. split; [|done].
  apply (step_serve e i2 {| inner := i1; accepting := b |}); [done|].
  intros ->. apply Hb. set_solver.
Qed.

Lemma finished_counts config s id :
  reached covered config s → finished s →
  InflightTracker.count id (Router.inflight (Api.router (Interleaved.app (inner s)))) = 0%N.
Proof.
  intros [es Hrun]%reached_run (_ & Ht & Hb).
  destruct (Interleaved.slots_run config es (inner s) Hrun) as (_ & _ & [Hc _] & _).
  cbn [Serving.slots Inflight.tracker Inflight.guards fst snd] in Hc.
  rewrite (Hc id). unfold Interleaved.guards. by rewrite Ht, Hb.
Qed.

Lemma finished_tally P config s :
  reached P config s → finished s →
  Interleaved.guards (inner s) = [] ∧
  ∃ es, Interleaved.run P (Interleaved.initial config) es (inner s) ∧
    Interleaved.tally Interleaved.Arrived es =
      Metrics.requests_counted (Api.metrics (Interleaved.app (inner s))) +
      Interleaved.tally Interleaved.Abandoned es + Interleaved.tally Interleaved.Unbuilt es.
Proof.
  intros [es Hrun]%reached_run (_ & Ht & Hb).
  split; [unfold Interleaved.guards; by rewrite Ht, Hb|]. exists es. split; [done|].
  destruct (Interleaved.run_conserves _ config es _ Hrun) as [_ <-].
  unfold Interleaved.in_progress. rewrite Ht, Hb. cbn. lia.
Qed.
End life.
End Shutdown.

(** ** Properties *)

(** C19.  Graceful shutdown ends: after the interrupt no request is accepted any
    more, every step works off something that is under way or leaves it alone,
    of the former there are only finitely many in a row, and as long as anything
    is under way one is possible whatever the network answers; so [serve] comes
    to return, and then every request that was ever accepted is counted, was
    abandoned by its client, or had no response head, and no guard is left.  If
    moreover every healthy worker had a counter at every moment of the run (a
    discovered worker need not have one), then every in-flight count is zero. *)
Theorem graceful_shutdown {T V} `{BeliefIndex T} {HM : HashMapOrder} {BH : BlockHash}
    (config : RouterConfig) :
  well_founded (Shutdown.fewer (T := T) (V := V)) ∧
  (∀ s s' : Shutdown.t T V, Shutdown.accepting s = false → Shutdown.step s s' →
     Shutdown.accepting s' = false ∧
     (Shutdown.fewer (Shutdown.inner s') (Shutdown.inner s) ∨
      Interleaved.tasks (Shutdown.inner s') = Interleaved.tasks (Shutdown.inner s) ∧
      Interleaved.bodies (Shutdown.inner s') = Interleaved.bodies (Shutdown.inner s))) ∧
  (∀ (KV : KvTransfer) (env : Api.http) (s : Shutdown.t T V),
     Shutdown.accepting s = false → ¬ Shutdown.finished s →
     ∃ s', Shutdown.step s s' ∧ Shutdown.fewer (Shutdown.inner s') (Shutdown.inner s)) ∧
  (∀ s : Shutdown.t T V, Shutdown.reached (λ _, True) config s → Shutdown.finished s →
     Interleaved.guards (Shutdown.inner s) = [] ∧
     ∃ es, Interleaved.run (λ _, True) (Interleaved.initial config) es (Shutdown.inner s) ∧
       Interleaved.tally Interleaved.Arrived es =
         Metrics.requests_counted (Api.metrics (Interleaved.app (Shutdown.inner s))) +
         Interleaved.tally Interleaved.Abandoned es + Interleaved.tally Interleaved.Unbuilt es) ∧
  (∀ s : Shutdown.t T V, Shutdown.reached Shutdown.covered config s → Shutdown.finished s →
     ∀ id, InflightTracker.count id
             (Router.inflight (Api.router (Interleaved.app (Shutdown.inner s)))) = 0%N).
Proof.
  split_and!.
  - exact Shutdown.fewer_wf.
  - intros s s' Ha Hs. destruct Hs as [e i s Hi He|c s _]; cbn.
    + split; [done|]. eapply Shutdown.step_fewer; [exact Hi|].
      intros ->. rewrite He in Ha by done. done.
    + split; [done|]. by right.
  - intros KV env s Ha Hf.
    destruct (Shutdown.step_possible env 0%N (Shutdown.inner s)) as (e & i & Hi & He & Hlt).
    { destruct (Interleaved.tasks (Shutdown.inner s)) eqn:Ht; [right|by left].
      intros Hb. by apply Hf. }
    eexists. split; [by apply (Shutdown.step_serve e i s Hi)|done].
  - intros s. apply Shutdown.finished_tally.
  - intros s Hs Hf id. by eapply Shutdown.finished_counts.
Qed.

Section witnesses.
#[local] Existing Instance hm_canonical.
#[local] Existing Instance mock_kv_transfer.
#[local] Existing Instance InflightTracker.tracks_dec.
#[local] Existing Instance Interleaved.event_eq_dec.

(** After the interrupt, the busy server answers the handler that awaits and
    streams both bodies to their ends. *)
Definition winding_down : list (Schedule.command unit) :=
  [Schedule.DoAdvance 0; Schedule.DoPoll 0; Schedule.DoPoll 0; Schedule.DoPoll 0; Schedule.DoPoll 0].

Definition wound_run : list Interleaved.event * Interleaved.t PrefixIndex.t unit :=
  default ([], busy) (Schedule.exec_all sample_http every_state winding_down busy).

Definition wound_down : Shutdown.t PrefixIndex.t unit :=
  {| Shutdown.inner := wound_run.2; Shutdown.accepting := false |}.

Lemma every_state_covered i :
  every_state i = true → Serving.covered (Api.router (Interleaved.app i)).
Proof. intros Hi. apply serving_covered. by apply bool_decide_eq_true in Hi. Qed.

Lemma wound_down_reached : Shutdown.reached Shutdown.covered sys_config wound_down.
Proof.
  assert (Hx : Schedule.exec_all sample_http every_state winding_down busy =
    Some (wound_run.1, wound_run.2)) by (vm_compute; reflexivity).
  unfold Shutdown.reached.
  transitivity {| Shutdown.inner := busy; Shutdown.accepting := true |};
    [apply (Shutdown.run_steps Shutdown.covered (Interleaved.initial sys_config) busy_run.1 busy true);
     [by apply busy_reached, every_state_covered|done]|].
  eapply rtc_l.
  { split; [by apply (Shutdown.step_signal (Some (Ok tt)))|].
    apply every_state_covered. vm_compute. reflexivity. }
  apply (Shutdown.run_steps Shutdown.covered busy wound_run.1 wound_run.2 false).
  - exact (Schedule.exec_all_run sample_http every_state _ winding_down busy [] busy wound_run.1
      wound_run.2 every_state_covered (Interleaved.run_nil _ busy) Hx).
  - assert (Hno : Interleaved.Arrived ∉ wound_run.1) by (apply (bool_decide_unpack _); vm_compute; exact I).
    exact (λ Hin, False_ind _ (Hno Hin)).
Qed.

Theorem graceful_shutdown_witness :
  Shutdown.finished wound_down ∧
  InflightTracker.count 0
    (Router.inflight (Api.router (Interleaved.app (Shutdown.inner wound_down)))) = 0%N ∧
  InflightTracker.count 0 (Router.inflight (Api.router (Interleaved.app busy))) = 2%N.
Proof.
  assert (Hf : Shutdown.finished wound_down) by (split_and!; vm_compute; reflexivity).
  split; [exact Hf|]. split; [|vm_compute; reflexivity].
  exact (proj2 (proj2 (proj2 (proj2 (graceful_shutdown (T := PrefixIndex.t) (V := unit)
    sys_config)))) wound_down wound_down_reached Hf 0%N).
Defined.
End witnesses.
