(* ===== verification/Server.v ===== *)
(** * Start-up ([router-server/src/lib.rs], [state.rs], [main.rs])

    [serve] up to the point where the listener accepts: configuration, bind
    address, application state, background tasks, listener, in this order; the
    first step that fails ends it.  The environment, the address parser, the
    metrics recorder, the HTTP client and the socket are parameters. *)

From S2P Require Import Prelude Float64 Text Hashing Config Request Worker Inflight Belief Prefix Router Discovery Health System Metrics EngineMetrics Stream Api.

Module Server.

Definition DEFAULT_CONFIG_PATH : rstr := lit "config/router.yaml".
Definition DEFAULT_BIND_ADDRESS : rstr := lit "0.0.0.0:8080".

(** What [serve] finds around it; errors carry their [Display] text. *)
Record environment {Addr : Type} := {
  (** [ROUTER_CONFIG] and [ROUTER_BIND]. *)
  router_config : option rstr;
  router_bind : option rstr;
  read_to_string : rstr → result rstr rstr;
  serde_yaml_parse : rstr → result rstr RouterConfigYaml;
  parse_addr : rstr → result rstr Addr;
  install_recorder : result rstr unit;
  build_client : result rstr unit;
  bind : Addr → result rstr unit;
}.
Arguments environment : clear implicits.

(** The boxed error of [serve]. *)
Inductive serve_error :=
  | RouterFailed (error : RouterError)
  | AddrInvalid (message : rstr)
  | ListenFailed (message : rstr).

(** The tasks that are spawned, with what they are given. *)
Inductive task :=
  | HealthPoller (interval_secs : N)
  | EngineScraper (interval_secs : N) (metric : rstr)
  | WorkerDiscovery (service : rstr) (namespace : option rstr)
  | Eviction (ttl : duration) (max_entries : N) (period : duration).

Section serve.
Context {T : Type} `{BI : BeliefIndex T} {Addr : Type}.
Implicit Types (env : environment Addr).

(** [AppState::new]. *)
Definition app_state_new env (config : RouterConfig) : result RouterError (Api.app T) :=
  _ ← map_err (λ e, ConfigError (lit "failed to install metrics recorder: " ++ e))
        (install_recorder env);
  _ ← map_err (λ e, ConfigError (lit "failed to build http client: " ++ e)) (build_client env);
  Ok (Api.new config).

(** [Duration::from_secs]. *)
Definition from_secs (secs : N) : duration := (secs * 1000000000)%N.

Definition spawned (config : RouterConfig) : list task :=
  [HealthPoller (Health.interval_secs config)]
  ++ (if cfg_metrics_scrape config
      then [EngineScraper (EngineMetrics.interval_secs config)
              (cfg_engine_cache_hit_metric config)] else [])
  ++ (if dc_enabled (cfg_discovery config)
      then [WorkerDiscovery (dc_service (cfg_discovery config))
              (dc_namespace (cfg_discovery config))] else [])
  ++ (let ttl := from_secs (cfg_prefix_index_ttl_secs config) in
      [Eviction ttl (cfg_prefix_index_max_entries config) (PrefixIndex.eviction_period ttl)]).

Definition config_path env : rstr := default DEFAULT_CONFIG_PATH (router_config env).
Definition bind_address env : rstr := default DEFAULT_BIND_ADDRESS (router_bind env).

Definition serve env : result serve_error (Api.app T * list task) :=
  config ← map_err RouterFailed (load (serde_yaml_parse env) (read_to_string env) (config_path env));
  addr ← map_err AddrInvalid (parse_addr env (bind_address env));
  state ← map_err RouterFailed (app_state_new env config);
  let tasks := spawned config in
  _ ← map_err ListenFailed (bind env addr);
  Ok (state, tasks).
End serve.

Lemma serve_ok {T} `{BeliefIndex T} {Addr} (env : environment Addr) (a : Api.app T) tasks :
  serve env = Ok (a, tasks) →
  ∃ config, load (serde_yaml_parse env) (read_to_string env) (config_path env) = Ok config ∧
    a = Api.new config ∧ tasks = spawned config.
Proof.
  unfold serve, app_state_new. destruct (load _ _ _) as [config|]; simpl; [|done].
  destruct (parse_addr env _) as [addr|]; simpl; [|done].
  destruct (install_recorder env); simpl; [|done]. destruct (build_client env); simpl; [|done].
  destruct (bind env addr); simpl; [|done]. intros [= <- <-]. by exists config.
Qed.

(** What can go wrong with each step of the start-up, on its own. *)
Definition err_of {A E} (r : result E A) : option E :=
  match r with Err e => Some e | Ok _ => None end.

Section failures.
Context {Addr : Type} (env : environment Addr).

Definition config_failure : option serve_error :=
  RouterFailed <$> err_of (load (serde_yaml_parse env) (read_to_string env) (config_path env)).

Definition addr_failure : option serve_error :=
  AddrInvalid <$> err_of (parse_addr env (bind_address env)).

Definition recorder_failure : option serve_error :=
  (λ m, RouterFailed (ConfigError (lit "failed to install metrics recorder: " ++ m))) <$>
    err_of (install_recorder env).

Definition client_failure : option serve_error :=
  (λ m, RouterFailed (ConfigError (lit "failed to build http client: " ++ m))) <$>
    err_of (build_client env).

(** An address is bound when there is one. *)
Definition listen_failure : option serve_error :=
  match parse_addr env (bind_address env) with
  | Ok addr => ListenFailed <$> err_of (bind env addr)
  | Err _ => None
  end.

(** Those there are, in the order of the steps. *)
Definition failures : list serve_error :=
  omap id [config_failure; addr_failure; recorder_failure; client_failure; listen_failure].
End failures.

(** The state in which the server starts to accept. *)
Definition system_of {T} (a : Api.app T) : System.t T := {|
  System.router := Api.router a; System.slices := ∅; System.discovered := ∅;
  System.guards := [] |}.
End Server.

(** ** Properties *)

(** C38.  Start-up: [serve] gets to accept exactly when no step of it fails (the
    configuration loads from [ROUTER_CONFIG] or the default path, the bind
    address parses, the recorder and the client are set up, the address is
    bound), and otherwise returns the error of the first step, in this order,
    that fails.  It then runs the loaded configuration from the initial state of
    the system, always with the health poller and the eviction task (period
    between one second and a minute, probe interval at least a second), with
    discovery and the scraper exactly when they are enabled. *)
Theorem serve_spec {T} `{BeliefIndex T} {Addr : Type} (env : Server.environment Addr) :
  match Server.serve env with
  | Err e => head (Server.failures env) = Some e
  | Ok (a, tasks) =>
      Server.failures env = [] ∧
      ∃ config,
        load (Server.serde_yaml_parse env) (Server.read_to_string env) (Server.config_path env) =
          Ok config ∧
        Api.config a = config ∧ Server.system_of a = System.initial config ∧
        Metrics.calls (Api.metrics a) = [] ∧
        (∃ secs, Server.HealthPoller secs ∈ tasks ∧ (1 ≤ secs)%N) ∧
        (∃ ttl period, Server.Eviction ttl (cfg_prefix_index_max_entries config) period ∈ tasks ∧
           (1000000000 ≤ period ≤ 60000000000)%N) ∧
        ((∃ secs metric, Server.EngineScraper secs metric ∈ tasks) ↔
         cfg_metrics_scrape config = true) ∧
        ((∃ service namespace, Server.WorkerDiscovery service namespace ∈ tasks) ↔
         dc_enabled (cfg_discovery config) = true)
  end.
Proof.
  unfold Server.failures, Server.serve, Server.app_state_new, Server.config_failure,
    Server.addr_failure, Server.recorder_failure, Server.client_failure, Server.listen_failure.
  destruct (load _ _ _) as [config|re]; simpl; [|done].
  destruct (Server.parse_addr env _) as [addr|m]; simpl; [|done].
  destruct (Server.install_recorder env) as [[]|m]; simpl; [|done].
  destruct (Server.build_client env) as [[]|m]; simpl; [|done].
  destruct (Server.bind env addr) as [[]|m]; simpl; [|done].
  split; [done|].
  exists config. split_and!; try done.
  - eexists. split; [by left|]. unfold Health.interval_secs. lia.
  - eexists _, _. split.
    + unfold Server.spawned. rewrite !elem_of_app. do 3 right. by left.
    + unfold PrefixIndex.eviction_period. lia.
  - unfold Server.spawned. setoid_rewrite elem_of_app. setoid_rewrite elem_of_app.
    setoid_rewrite elem_of_app.
    destruct (cfg_metrics_scrape config), (dc_enabled (cfg_discovery config)); set_solver.
  - unfold Server.spawned. setoid_rewrite elem_of_app. setoid_rewrite elem_of_app.
    setoid_rewrite elem_of_app.
    destruct (cfg_metrics_scrape config), (dc_enabled (cfg_discovery config)); set_solver.
Qed.
