(* ===== verification/Progress.v ===== *)
(** * Progress

    What eventually happens: a request is answered and its body comes to an
    end, a worker that answers its probe is served again, a block that nobody
    asks for leaves the index, and a server that has started is ready exactly
    while some worker's last probe was answered. *)

From S2P Require Import Prelude Float64 Text Hashing Config Request Worker Inflight Belief Prefix Router Discovery Health System Concurrent Threads Metrics EngineMetrics Stream Api Server.

(** ** Bodies come to an end *)

Module BodyEnds.
Import ProxyStream.

Lemma polls_finished n now m tr : polls n now None m tr = ([], None, m, tr).
Proof. revert now. induction n as [|n IH]; intros now; [done|]. cbn [polls poll]. by rewrite IH. Qed.

Lemma polls_plus a b now body_ m tr :
  polls (a + b) now body_ m tr =
  let '(items1, body1, m1, tr1) := polls a now body_ m tr in
  let '(items2, body2, m2, tr2) := polls b (λ k, now (a + k)) body1 m1 tr1 in
  (items1 ++ items2, body2, m2, tr2).
Proof.
  revert now body_ m tr. induction a as [|a IH]; intros now body_ m tr.
  - cbn [Nat.add polls]. by destruct (polls b now body_ m tr) as [[[? ?] ?] ?].
  - cbn [Nat.add polls]. destruct (poll (now 0) body_ m tr) as [[[i b1] m1] tr1].
    rewrite IH. destruct (polls a (λ k, now (S k)) b1 m1 tr1) as [[[items1 b2] m2] tr2].
    destruct (polls b _ b2 m2 tr2) as [[[items2 b3] m3] tr3]. by rewrite app_assoc.
Qed.

(** Polled often enough, a body has relayed everything and is finished. *)
Lemma polls_enough n now s m tr :
  (tokens s < u64_modulus)%N → length (inner s) + 2 ≤ n →
  ∃ m' tr', polls n now (Some s) m tr = (remaining s, None, m', tr').
Proof.
  intros Ht Hn.
  assert (Hr : length (remaining s) ≤ length (inner s) + 1).
  { unfold remaining. rewrite length_app. destruct (owes_done s); simpl; lia. }
  replace n with (S (length (remaining s)) + (n - S (length (remaining s)))) by lia.
  rewrite polls_plus, polls_drain by done. rewrite polls_finished, app_nil_r. by eexists _, _.
Qed.
End BodyEnds.

Section responses.
Context {T : Type} `{BI : BeliefIndex T} {HM : HashMapOrder} {BH : BlockHash} {KV : KvTransfer}.
Context (env : Api.http).
Implicit Types (a : Api.app T).

(** A response relays the body of an answer that some worker gave. *)
Definition relays (resp : Api.response) : Prop :=
  ∃ url phase u t tok streaming, Api.post env url phase = Ok u ∧
    Api.resp_body resp = Some (ProxyStream.proxy_stream (Api.up_body u) t tok streaming).

Lemma build_response_relays url phase u t hit tok streaming a resp a' :
  Api.post env url phase = Ok u →
  Api.build_response env u t hit tok streaming a = (Ok resp, a') → relays resp.
Proof.
  intros Hu Hb. exists url, phase, u, t, tok, streaming. split; [done|].
  destruct (Api.build_response_cases env u t hit tok streaming a)
    as [(headers & He & _)|(e & a1 & He & _)]; rewrite He in Hb; by simplify_eq.
Qed.

Lemma decode_phase_relays {V} (request : ChatCompletionRequest V) id w d x y a resp a' :
  Api.decode_phase env request id w d x y a = (Ok resp, a') → relays resp.
Proof.
  unfold Api.decode_phase. destruct (InflightGuard.acquire _ _) as [g tr].
  destruct (Api.post env _ _) as [u|e] eqn:Hu; [|done].
  destruct (negb _); [done|]. by eapply build_response_relays.
Qed.

Lemma chat_completions_relays {V} (payload : result (N * rstr) (ChatCompletionRequest V)) id a resp a' :
  Api.chat_completions env payload id a = Some (Ok resp, a') → relays resp.
Proof.
  unfold Api.chat_completions. destruct payload as [request|rejection]; [|done].
  case_decide as Hd.
  - intros [= Hs]. revert Hs. unfold Api.serve_disaggregated.
    destruct (Router.select_in_pool _ _ _ _) as [[prefill|e] r1]; [|done].
    destruct (Api.prefill_phase env _ _) as [[ms|e] a2]; [|done].
    destruct (Router.select_in_pool _ _ _ _) as [[decode|e] r3]; [|done].
    destruct (kv_transfer _ _ _); [|done]. apply decode_phase_relays.
  - unfold Api.serve_proxied.
    destruct (Router.select_for_chat _ _ _) as [[[d|e] r]|]; cbn [mbind option_bind]; [|done|done].
    destruct (InflightGuard.acquire _ _) as [g tr].
    destruct (Api.post env _ _) as [u|e] eqn:Hu; [|done].
    destruct (negb _); [done|]. intros [= Hb]. by eapply build_response_relays.
Qed.

Lemma chat_completions_returns {V} (payload : result (N * rstr) (ChatCompletionRequest V)) id a :
  ∃ res a', Api.chat_completions env payload id a = Some (res, a').
Proof.
  unfold Api.chat_completions. destruct payload as [request|rejection]; [|by eexists _, _].
  case_decide; [by eexists _, _; rewrite <-surjective_pairing|]. unfold Api.serve_proxied.
  destruct (Router.select_for_chat_frame (Api.index_clock env 0) request (Api.router a))
    as (out & r & -> & _). cbn [mbind option_bind].
  destruct out as [d|e]; [|by eexists _, _].
  destruct (InflightGuard.acquire _ _) as [g tr]. destruct (Api.post env _ _) as [u|e];
    [destruct (negb _)|]; try by eexists _, _. by eexists _, _; rewrite <-surjective_pairing.
Qed.
End responses.

(** Every request terminates: for any payload, configuration and behaviour
    of the workers the handler returns, and a streamed answer relays the body
    of one worker's answer and is over after at most two polls more than that
    body has items; from then on every poll finds the end. *)
Theorem request_terminates {T V} `{BeliefIndex T} {HM : HashMapOrder} {BH : BlockHash}
    {KV : KvTransfer} (env : Api.http) (payload : result (N * rstr) (ChatCompletionRequest V))
    (request_id : rstr) (a : Api.app T) :
  ∃ res a', Api.chat_completions env payload request_id a = Some (res, a') ∧
    ∀ resp, res = Ok resp →
      ∃ url phase u s, Api.post env url phase = Ok u ∧ Api.resp_body resp = Some s ∧
        ∀ n now m tr, length (Api.up_body u) + 2 ≤ n →
          ∃ m' tr', ProxyStream.polls n now (Some s) m tr =
            (ProxyStream.relayed (ProxyStream.streaming s) (Api.up_body u), None, m', tr').
Proof.
  destruct (chat_completions_returns env payload request_id a) as (res & a' & Hres).
  exists res, a'. split; [done|]. intros resp ->.
  destruct (chat_completions_relays env payload request_id a resp a' Hres)
    as (url & phase & u & t & tok & streaming & Hu & Hbody).
  eexists url, phase, u, _. split_and!; [done|exact Hbody|]. intros n now m tr Hn.
  exact (BodyEnds.polls_enough n now
    (ProxyStream.proxy_stream (Api.up_body u) t tok streaming) m tr eq_refl Hn).
Qed.

(** ** A worker that recovers is served *)

(** No starvation under round robin: a registered [both] worker that
    answers its probe is a candidate after the poll round, and among as many
    consecutive requests as there are candidates one is routed to it, whatever
    its health was before the round. *)
Theorem recovered_worker_served {T V} `{BeliefIndexLaws T} {HM : HashMapOrder} {BH : BlockHash}
    (is_success : N → bool) (get : WorkerId → rstr → result rstr N) (now : nat → instant)
    (requests : list (ChatCompletionRequest V)) (r : Router.t T) (w : Worker)
    (Hwf : WorkerRegistry.wf (Router.registry r)) (Hok : bi_ok (Router.prefix_index r))
    (Hp : Router.policy r = RoundRobin)
    (Hw : WorkerRegistry.get (w_id w) (Router.registry r) = Some w)
    (Hboth : w_pool w = Both)
    (Hprobe : Health.probe is_success get w = true) :
  let r1 := Health.poll_round is_success get r in
  length requests = length (round_robin_order r1) →
  (Router.next_worker r1 + N.of_nat (length requests) ≤ u64_modulus)%N →
  ∃ ds r2, RouterSpec.chat_run now requests r1 = Some (ds, r2) ∧ w ∈ rd_worker <$> ds.
Proof.
  cbn zeta. intros Hlen Hn.
  destruct (Health.poll_round_facts is_success get r Hwf Hok)
    as (Hwf1 & Hok1 & Hget1 & Hup1 & Hp1).
  assert (Hin : w ∈ round_robin_order (Health.poll_round is_success get r)).
  { unfold round_robin_order. apply Router.chat_candidates_elem. split; [|by left].
    apply WorkerRegistry.elem_of_healthy_workers_wf; [done|].
    specialize (Hget1 (w_id w)). specialize (Hup1 (w_id w)). rewrite Hw in Hget1.
    unfold Health.probed in Hup1. rewrite Hw, Hprobe in Hup1.
    unfold WorkerRegistry.get, WorkerRegistry.is_healthy in *.
    destruct (WorkerRegistry.workers (Router.registry (Health.poll_round is_success get r)) !! w_id w)
      as [[w' h]|]; simplify_eq/=; done. }
  assert (Hne : round_robin_order (Health.poll_round is_success get r) ≠ []).
  { intros He. rewrite He in Hin. by apply not_elem_of_nil in Hin. }
  destruct (chat_run_round_robin now requests _ Hok1 (eq_trans Hp1 Hp) Hne Hn)
    as (ds & r2 & Hrun & Hds & Hpos).
  exists ds, r2. split; [done|].
  by rewrite (chat_run_serves_all _ ds (eq_trans Hds Hlen) Hpos).
Qed.

(** ** Blocks that nobody asks for expire *)

Module Expiry.
Import PrefixRuns.

(** An operation that neither records nor matches the block [h]. *)
Definition leaves (h : N) (o : op) : Prop :=
  match o with
  | OpRecord _ _ chain | OpMatch _ _ chain => h ∉ chain
  | OpRemove _ | OpLen | OpEvict _ _ _ => True
  end.

#[export] Instance leaves_dec h o : Decision (leaves h o).
Proof. destruct o; simpl; apply _. Defined.

(** The block is absent, or was last touched at [t0] or before. *)
Definition quiet (h : N) (t0 : instant) (idx : PrefixIndex.t) : Prop :=
  ∀ e, PrefixIndex.flatten idx !! h = Some e → (ie_last_touched e ≤ t0)%N.

Section expiry.
Context {HM : HashMapOrder}.
Implicit Types (idx : PrefixIndex.t) (o : op) (h : N).

Lemma step_entry o idx h :
  PrefixIndex.sharded idx → leaves h o →
  ∀ e, PrefixIndex.flatten (step o idx).2 !! h = Some e →
    ∃ e', PrefixIndex.flatten idx !! h = Some e' ∧ ie_last_touched e = ie_last_touched e'.
Proof.
  intros Hs Hl e He. destruct (step_refines o idx Hs) as [_ Hstep]. revert He.
  generalize dependent (PrefixIndex.flatten (step o idx).2). intros m' Hstep. revert Hl.
  destruct Hstep as [now w chain m|now w chain m|w m|m|now ttl cap m stats m' Hev];
    simpl; intros Hl He.
  - rewrite FlatIndex.lookup_record, decide_False in He by done. eauto.
  - rewrite FlatIndex.lookup_touch_list, decide_False in He; [eauto|].
    intros (i & Hi & _)%elem_of_take. by eapply Hl, list_elem_of_lookup_2.
  - rewrite FlatIndex.lookup_remove_worker in He.
    destruct (m !! h) as [e'|]; [|done]. simpl in He.
    pose proof (FlatIndex.drop_worker_spec w e') as Hd. rewrite He in Hd.
    exists e'. split; [done|]. apply Hd.
  - eauto.
  - exists e. split; [|done]. by eapply lookup_weaken; [|eapply FlatIndex.evicts_sub].
Qed.
(** A sweep that comes late enough removes the quiet block. *)
Lemma sweep_removes idx h t0 now ttl cap :
  PrefixIndex.sharded idx → quiet h t0 idx → (t0 + ttl < now)%N →
  PrefixIndex.flatten (step (OpEvict now ttl cap) idx).2 !! h = None.
Proof.
  intros Hs Hq Hnow. apply eq_None_not_Some. intros [e He].
  destruct (step_entry (OpEvict now ttl cap) idx h Hs I e He) as (e' & He' & Ht).
  specialize (Hq e' He'). revert He. cbn [step].
  pose proof (EvictionRefines.evict_refines now ttl cap idx Hs) as [_ Hev].
  destruct (PrefixIndex.evict now ttl cap idx) as [stats idx']. intros He.
  pose proof (FlatIndex.evicts_fresh _ _ _ _ _ _ Hev h e He) as Hf. unfold fresh in Hf. lia.
Qed.

Lemma run_quiet ops idx h t0 :
  PrefixIndex.sharded idx → Forall (leaves h) ops → quiet h t0 idx →
  let idx' := (run ops idx).2 in
  quiet h t0 idx' ∧
  (PrefixIndex.flatten idx !! h = None → PrefixIndex.flatten idx' !! h = None) ∧
  ∀ now ttl cap, OpEvict now ttl cap ∈ ops → (t0 + ttl < now)%N →
    PrefixIndex.flatten idx' !! h = None.
Proof.
  revert idx. induction ops as [|o ops IH]; intros idx Hs Hl Hq; cbn [run].
  { split_and!; [done|done|]. intros now ttl cap Hin. by apply not_elem_of_nil in Hin. }
  apply Forall_cons in Hl as [Ho Hl].
  pose proof (step_entry o idx h Hs Ho) as Hentry.
  destruct (step_refines o idx Hs) as [Hs1 _].
  pose proof (λ now ttl cap, sweep_removes idx h t0 now ttl cap Hs Hq) as Hsweep.
  destruct (step o idx) as [ob idx1] eqn:Hstep. cbn [snd] in *.
  assert (Hq1 : quiet h t0 idx1).
  { intros e He. destruct (Hentry e He) as (e' & He' & ->). by apply Hq. }
  destruct (IH idx1 Hs1 Hl Hq1) as (Hq' & Hnone & Hlate).
  destruct (run ops idx1) as [obs idx']. cbn [snd] in *. split_and!; [done| |].
  - intros Hn. apply Hnone, eq_None_not_Some. intros [e He].
    destruct (Hentry e He) as (e' & He' & _). congruence.
  - intros now ttl cap [Ho'|Hin]%elem_of_cons Hnow; [|by eapply Hlate]. subst o.
    apply Hnone. specialize (Hsweep now ttl cap Hnow). by rewrite Hstep in Hsweep.
Qed.
End expiry.

(** The first tick after a deadline comes within one period of it. *)
Lemma first_tick_after (ticks : nat → instant) (deadline period : N) :
  (∀ i, ticks (S i) ≤ ticks i + period)%N → (ticks 0%nat ≤ deadline)%N →
  (∃ i, deadline < ticks i)%N →
  ∃ i, (deadline < ticks i ≤ deadline + period)%N.
Proof.
  intros Hstep H0 [i Hi]. revert Hi. induction i as [|i IH]; intros Hi; [lia|].
  destruct (decide (deadline < ticks i)%N) as [Hlt|Hge]; [by apply IH|].
  exists (S i). specialize (Hstep i). lia.
Qed.
End Expiry.

(** C29.  Unused blocks leave the index: when sweeps keep coming at most one
    eviction period apart (a third of the lifetime, between a second and a
    minute), then within one such period after [t0 + ttl] there is a tick whose
    sweep, in any run of the index's operations that does not record or match a
    given block touched no later than [t0], leaves the index without that block
    for the rest of the run, whatever else the run does. *)
Theorem blocks_expire {HM : HashMapOrder} (ticks : nat → instant) (ttl : duration) (cap : N)
    (idx : PrefixIndex.t) (h : N) (t0 : instant)
    (Hs : PrefixIndex.sharded idx) (Hq : Expiry.quiet h t0 idx)
    (Hperiod : ∀ i, (ticks (S i) ≤ ticks i + PrefixIndex.eviction_period ttl)%N)
    (Hfirst : (ticks 0%nat ≤ t0 + ttl)%N) (Hforever : ∀ b, ∃ i, (b < ticks i)%N) :
  ∃ i, (t0 + ttl < ticks i ≤ t0 + ttl + PrefixIndex.eviction_period ttl)%N ∧
    ∀ ops, Forall (Expiry.leaves h) ops → PrefixRuns.OpEvict (ticks i) ttl cap ∈ ops →
      PrefixIndex.flatten (PrefixRuns.run ops idx).2 !! h = None ∧
      ∀ w, PrefixIndex.holds (PrefixRuns.run ops idx).2 w h = false.
Proof.
  destruct (Expiry.first_tick_after ticks (t0 + ttl) (PrefixIndex.eviction_period ttl)
    Hperiod Hfirst (Hforever _)) as (i & Hlo & Hhi).
  exists i. split; [by split|].
  intros ops Hl Hin. destruct (Expiry.run_quiet ops idx h t0 Hs Hl Hq) as (_ & _ & Hlate).
  specialize (Hlate _ _ _ Hin Hlo). split; [done|]. intros w.
  rewrite ShardedRefinesFlat.holds_flatten by by apply PrefixRuns.run_sharded.
  unfold FlatIndex.holds. by rewrite Hlate.
Qed.

(** ** Readiness *)

(** After the first poll round some worker is healthy exactly when a configured
    one answered its probe. *)
Lemma first_round_ready {T} `{BeliefIndexLaws T} {HM : HashMapOrder} (config : RouterConfig)
    (is_success : N → bool) (get : WorkerId → rstr → result rstr N) :
  (N.of_nat (length (cfg_workers config)) < u64_modulus)%N →
  let r := Router.new (T := T) (WorkerRegistry.from_config (cfg_workers config)) config in
  WorkerRegistry.healthy_workers (Router.registry (Health.poll_round is_success get r)) ≠ [] ↔
  ∃ i c, cfg_workers config !! i = Some c ∧ Health.probe is_success get
    {| w_id := N.of_nat i; w_url := wc_url c; w_pool := wc_pool c |} = true.
Proof.
  intros Hn r.
  destruct (Health.poll_round_facts is_success get r (WorkerRegistry.wf_from_config _ Hn) bi_new_ok)
    as (Hwf1 & _ & _ & Hup1 & _).
  set (reg1 := Router.registry (Health.poll_round is_success get r)) in *.
  assert (Hget : ∀ id, WorkerRegistry.get id (Router.registry r) =
    (λ c, {| w_id := id; w_url := wc_url c; w_pool := wc_pool c |}) <$>
      cfg_workers config !! N.to_nat id) by (intros; apply WorkerRegistry.get_from_config).
  split.
  - intros Hne. destruct (WorkerRegistry.healthy_workers reg1) as [|w ws] eqn:He; [done|].
    assert (w ∈ WorkerRegistry.healthy_workers reg1) as Hin by (rewrite He; by left).
    apply WorkerRegistry.elem_of_healthy_workers_wf in Hin; [|done].
    specialize (Hup1 (w_id w)). unfold WorkerRegistry.is_healthy, Health.probed in Hup1.
    rewrite Hin, Hget in Hup1. cbn [ws_healthy] in Hup1.
    destruct (cfg_workers config !! N.to_nat (w_id w)) as [c|] eqn:Hc; [|done].
    cbn [fmap option_fmap option_map] in Hup1.
    exists (N.to_nat (w_id w)), c. by rewrite N2Nat.id.
  - intros (i & c & Hc & Hp) He.
    specialize (Hup1 (N.of_nat i)). unfold Health.probed in Hup1.
    rewrite Hget, Nat2N.id, Hc in Hup1. cbn [fmap option_fmap option_map] in Hup1.
    rewrite Hp in Hup1. apply WorkerRegistry.is_healthy_spec in Hup1 as (s & Hl & Hh).
    assert (ws_worker s ∈ WorkerRegistry.healthy_workers reg1) as Hin.
    { apply WorkerRegistry.elem_of_healthy_workers. eauto. }
    rewrite He in Hin. by apply not_elem_of_nil in Hin.
Qed.

(** A whole poll round at once, right after the start: before it [/ready]
    answers 503 with no healthy worker, and after it 200 exactly when some
    configured worker answered its probe. *)
Theorem started_server_becomes_ready {T} `{BeliefIndexLaws T} {HM : HashMapOrder} {Addr : Type}
    (env : Server.environment Addr) (a : Api.app T) (tasks : list Server.task)
    (is_success : N → bool) (get : WorkerId → rstr → result rstr N)
    (Hserve : Server.serve env = Ok (a, tasks))
    (Hn : (N.of_nat (length (cfg_workers (Api.config a))) < u64_modulus)%N) :
  Api.ready a = (503%N, 0) ∧
  ((Api.ready (Api.with_router (Health.poll_round is_success get (Api.router a)) a)).1 = 200%N ↔
   ∃ i c, cfg_workers (Api.config a) !! i = Some c ∧
     Health.probe is_success get
       {| w_id := N.of_nat i; w_url := wc_url c; w_pool := wc_pool c |} = true).
Proof.
  destruct (Server.serve_ok env a tasks Hserve) as (config & _ & -> & _). clear Hserve.
  cbn [Api.new Api.config] in *. unfold Api.ready.
  cbn [Api.router Api.with_router Api.new Router.registry Router.new]. split.
  - rewrite WorkerRegistry.healthy_count_length, WorkerRegistry.healthy_from_config.
    destruct (WorkerRegistry.any_healthy _) eqn:Ha; [|done].
    apply WorkerRegistry.any_healthy_spec in Ha. by rewrite WorkerRegistry.healthy_from_config in Ha.
  - rewrite <-(first_round_ready (T := T) config is_success get Hn).
    rewrite <-WorkerRegistry.any_healthy_spec. by destruct (WorkerRegistry.any_healthy _).
Qed.

Lemma any_healthy_is {HM : HashMapOrder} (reg : WorkerRegistry.t) :
  WorkerRegistry.any_healthy reg = true ↔ ∃ id, WorkerRegistry.is_healthy id reg = true.
Proof.
  rewrite WorkerRegistry.any_healthy_spec. setoid_rewrite WorkerRegistry.is_healthy_spec. split.
  - intros Hne. destruct (WorkerRegistry.healthy_workers reg) as [|w ws] eqn:He; [done|].
    assert (w ∈ WorkerRegistry.healthy_workers reg) as Hin by (rewrite He; by left).
    apply WorkerRegistry.elem_of_healthy_workers in Hin as (id & st & ? & ? & _). eauto.
  - intros (id & st & Hl & Hh). apply (elem_of_not_nil (ws_worker st)).
    apply WorkerRegistry.elem_of_healthy_workers. eauto.
Qed.

(** What [/ready] answers. *)
Lemma ready_cases {T} `{BeliefIndex T} {HM : HashMapOrder} (a : Api.app T) :
  (∃ id, WorkerRegistry.is_healthy id (Router.registry (Api.router a)) = true) ∧
    (Api.ready a).1 = 200%N ∨
  ¬ (∃ id, WorkerRegistry.is_healthy id (Router.registry (Api.router a)) = true) ∧
    Api.ready a = (503%N, 0).
Proof.
  rewrite <-any_healthy_is. unfold Api.ready. rewrite WorkerRegistry.healthy_count_length.
  destruct (WorkerRegistry.any_healthy _) eqn:Ha; [by left|right]. split; [done|].
  destruct (WorkerRegistry.healthy_workers _) eqn:He; [done|].
  assert (WorkerRegistry.any_healthy (Router.registry (Api.router a)) = true); [|congruence].
  apply WorkerRegistry.any_healthy_spec. by rewrite He.
Qed.

Lemma ready_at_start {T} `{BeliefIndex T} {HM : HashMapOrder} (config : RouterConfig) :
  Api.ready (T := T) (Api.new config) = (503%N, 0).
Proof.
  destruct (ready_cases (T := T) (Api.new config)) as [[[id Hid] _]|[_ Hr]]; [exfalso|exact Hr].
  unfold WorkerRegistry.is_healthy in Hid. cbn [Api.router Api.new Router.registry Router.new] in Hid.
  rewrite WorkerRegistry.lookup_from_config in Hid. by destruct (cfg_workers config !! N.to_nat id).
Qed.

(** What is known of a worker before the first verdict: the configured ones are
    registered, and down. *)
Definition configured (config : RouterConfig) (id : WorkerId) : option bool :=
  (λ _, false) <$> cfg_workers config !! N.to_nat id.

(** Worker [id] got a good verdict while it was registered, and nothing has
    happened to it since. *)
Definition vouched_for (config : RouterConfig) (es : list Threads.event) (id : WorkerId) : Prop :=
  ∃ es1 es2, es = es1 ++ Threads.Verdict id true :: es2 ∧
    Verdicts.status id (configured config id) es1 ≠ None ∧
    Forall (λ e, Verdicts.concerns id e = false) es2.

(** C31.  Readiness is the health poller's last word.  Take the state with
    which [serve] starts the server, and any run from there of requests, verdicts
    of the health poller, sweeps and events of the watch, interleaved at their
    critical sections.  [/ready] answers 503 at the start, and at the end of the
    run 200 if for some worker that is then registered, configured or discovered,
    the last thing that happened to it is a good verdict, and 503 otherwise; the
    healthy workers are exactly those. *)
Theorem readiness_follows_verdicts {HM : HashMapOrder} {Addr : Type}
    (env : Server.environment Addr) (a : Api.app PrefixIndex.t) (tasks : list Server.task)
    (es : list Threads.event) (s : Threads.t)
    (Hserve : Server.serve env = Ok (a, tasks))
    (Hs : Threads.run (Threads.start (Api.router a)) es s) :
  let up := vouched_for (Api.config a) es in
  Api.ready a = (503%N, 0) ∧
  (∀ id, WorkerRegistry.is_healthy id (Router.registry (Threads.router s)) = true ↔ up id) ∧
  ((∃ id, up id) ∧ (Api.ready (Api.with_router (Threads.router s) a)).1 = 200%N ∨
   ¬ (∃ id, up id) ∧ Api.ready (Api.with_router (Threads.router s) a) = (503%N, 0)).
Proof.
  intros up.
  destruct (Server.serve_ok env a tasks Hserve) as (config & _ & -> & _). clear Hserve.
  assert (Hup : ∀ id,
    WorkerRegistry.is_healthy id (Router.registry (Threads.router s)) = true ↔ up id).
  { intros id. unfold up, vouched_for.
    rewrite <-Verdicts.status_up by (unfold configured; by destruct (_ !! _)).
    pose proof (Verdicts.run_health id _ _ _ Hs) as Hh. unfold Verdicts.health at 2 in Hh.
    cbn [Threads.start Threads.router Api.router Api.new Router.registry Router.new] in Hh.
    rewrite WorkerRegistry.lookup_from_config, <-option_fmap_compose in Hh.
    unfold configured. cbn [Api.config Api.new].
    change (WorkerRegistry.is_healthy id (Router.registry (Threads.router s)) = true ↔
      Verdicts.status id ((ws_healthy ∘ λ c, {| ws_worker :=
        {| w_id := id; w_url := wc_url c; w_pool := wc_pool c |}; ws_healthy := false |}) <$>
        cfg_workers config !! N.to_nat id) es = Some true).
    rewrite <-Hh. unfold Verdicts.health, WorkerRegistry.is_healthy.
    destruct (WorkerRegistry.workers _ !! id) as [[w h]|]; naive_solver. }
  split_and!.
  - apply ready_at_start.
  - done.
  - setoid_rewrite <-Hup. apply (ready_cases (Api.with_router (Threads.router s) (Api.new config))).
Qed.

(** ** The properties at concrete states *)

Section witnesses.
#[local] Existing Instance hm_canonical.

Definition quiet_index : PrefixIndex.t := PrefixIndex.record 5 0 [7; 71]%N PrefixIndex.new.

(** A sweep every ten seconds for a lifetime of thirty. *)
Definition every_ten_seconds (i : nat) : instant := (N.of_nat i * 10000000000)%N.

Lemma quiet_index_quiet : Expiry.quiet 7 5 quiet_index.
Proof.
  intros e. assert (PrefixIndex.flatten quiet_index !! 7%N =
    Some {| ie_workers := [0%N]; ie_last_touched := 5 |}) as -> by (vm_compute; reflexivity).
  intros [= <-]. done.
Qed.

Theorem blocks_expire_witness :
  ∃ i, (5 + 30000000000 < every_ten_seconds i ≤ 5 + 30000000000 + 10000000000)%N ∧
    PrefixIndex.flatten (PrefixRuns.run
      [PrefixRuns.OpMatch 6 0 [71]%N; PrefixRuns.OpEvict (every_ten_seconds i) 30000000000 100]
      quiet_index).2 !! 7%N = None.
Proof.
  destruct (blocks_expire every_ten_seconds 30000000000 100 quiet_index 7 5) as (i & Hi' & Hi).
  - apply ShardedRefinesFlat.record_refines, ShardedRefinesFlat.sharded_new.
  - exact quiet_index_quiet.
  - intros i. unfold every_ten_seconds.
    replace (PrefixIndex.eviction_period 30000000000) with 10000000000%N by (vm_compute; reflexivity).
    lia.
  - vm_compute. discriminate.
  - intros b. exists (S (N.to_nat b)). unfold every_ten_seconds. lia.
  - exists i. split; [exact Hi'|]. apply Hi.
    + constructor; [apply (bool_decide_unpack _); vm_compute; exact I|].
      constructor; [exact I|constructor].
    + right. left.
Defined.

(** Worker 1 was down and answers again; two requests reach both workers. *)
Definition router_rr2 : Router.t PrefixIndex.t := Router.set_registry
  (WorkerRegistry.set_healthy 1 false (all_up two_workers)).2 (sample_router RoundRobin two_workers).

Definition answers_all (_ : WorkerId) (_ : rstr) : result rstr N := Ok 200%N.

Lemma router_rr2_wf : WorkerRegistry.wf (Router.registry router_rr2).
Proof. apply Health.wf_set_healthy, all_up_wf. Qed.

Lemma router_rr2_index_ok : bi_ok (Router.prefix_index router_rr2).
Proof. exact index_ok_new. Qed.

Theorem recovered_worker_served_witness :
  ∃ ds r2, RouterSpec.chat_run still [hello; hello]
    (Health.poll_round sample_success answers_all router_rr2) = Some (ds, r2) ∧
    worker_b ∈ rd_worker <$> ds.
Proof.
  apply (recovered_worker_served sample_success answers_all still [hello; hello] router_rr2 worker_b
    router_rr2_wf router_rr2_index_ok); vm_compute; first [reflexivity|discriminate].
Defined.

Definition sample_environment : Server.environment unit := {|
  Server.router_config := None;
  Server.router_bind := None;
  Server.read_to_string := Ok;
  Server.serde_yaml_parse := λ _, Ok {|
    y_workers := two_workers; y_routing_policy := CacheAware;
    y_health_check_interval_secs := None; y_prompt_block_chars := None;
    y_cache_weight := None; y_load_weight := None; y_prefix_index_ttl_secs := None;
    y_prefix_index_max_entries := None; y_kv_transfer_cost_ms := None;
    y_metrics_scrape := None; y_engine_metrics_interval_secs := None;
    y_engine_cache_hit_metric := None; y_discovery := None |};
  Server.parse_addr := λ _, Ok tt;
  Server.install_recorder := Ok tt;
  Server.build_client := Ok tt;
  Server.bind := λ _, Ok tt;
|}.

Definition started : Api.app PrefixIndex.t * list Server.task :=
  match Server.serve sample_environment with
  | Ok x => x
  | Err _ => (Api.new (sample_config CacheAware []), [])
  end.

Theorem started_server_becomes_ready_witness :
  Api.ready started.1 = (503%N, 0) ∧
  (Api.ready (Api.with_router
     (Health.poll_round sample_success sample_get (Api.router started.1)) started.1)).1 = 200%N.
Proof.
  assert (Hserve : Server.serve sample_environment = Ok (started.1, started.2))
    by (vm_compute; reflexivity).
  assert (Hn : (N.of_nat (length (cfg_workers (Api.config started.1))) < u64_modulus)%N)
    by (vm_compute; reflexivity).
  destruct (started_server_becomes_ready sample_environment started.1 started.2 sample_success
    sample_get Hserve Hn) as [H0 H1].
  split; [exact H0|]. apply H1. exists 0. eexists. split; vm_compute; reflexivity.
Defined.

(** Worker 0 answers its probe, then worker 1 does not. *)
Definition two_verdicts : list ThreadSchedule.command :=
  [ThreadSchedule.Spawn (Thread.Mark 0 true); ThreadSchedule.Run 0 1;
   ThreadSchedule.Spawn (Thread.Mark 1 false); ThreadSchedule.Run 0 1].

Definition after_verdicts : list Threads.event * Threads.t :=
  default ([], Threads.start (Api.router started.1))
    (ThreadSchedule.exec_all ThreadSchedule.request_or_verdict two_verdicts
       (Threads.start (Api.router started.1))).

Theorem readiness_follows_verdicts_witness :
  Api.ready started.1 = (503%N, 0) ∧
  (Api.ready (Api.with_router (Threads.router after_verdicts.2) started.1)).1 = 200%N.
Proof.
  destruct (readiness_follows_verdicts sample_environment started.1 started.2
    after_verdicts.1 after_verdicts.2) as (H0 & _ & [[_ H1]|[H1 _]]).
  - vm_compute. reflexivity.
  - apply (ThreadSchedule.exec_all_runs ThreadSchedule.request_or_verdict
      ThreadSchedule.request_or_verdict_starts two_verdicts). vm_compute. reflexivity.
  - split; [exact H0|exact H1].
  - exfalso. apply H1. exists 0%N, [Threads.Quiet], [Threads.Quiet; Threads.Verdict 1 false].
    split_and!; [vm_compute; reflexivity|vm_compute; discriminate|by repeat constructor].
Defined.
End witnesses.
