(* ===== verification/PyBindings.v ===== *)
(** * Python bindings ([router-py/src/lib.rs])

    The two classes that Python sees: an index with a fixed block size, and an
    in-process router that keeps one core router per policy.  Every method
    releases the interpreter lock around its core call, so a run of the
    bindings is a sequence of calls.  A panic is [None]. *)

From Stdlib Require Import SpecFloat.
From S2P Require Import Prelude Float64 Hashing Config Request Worker Inflight Belief Prefix Router.

(** ** Exceptions *)

Inductive PyErr :=
  | PyKvRouterError (message : rstr)
  | PyNoHealthyWorkersError (message : rstr)
  | PyPolicyError (message : rstr)
  | PyValueError (message : rstr).

#[export] Instance PyErr_eq_dec : EqDecision PyErr.
Proof. solve_decision. Defined.

(** [except KvRouterError] catches the exception ([create_exception!]). *)
Definition is_kv_router_error (e : PyErr) : bool :=
  match e with PyValueError _ => false | _ => true end.

Definition to_py_error (error : RouterError) : PyErr :=
  match error with
  | NoHealthyWorkers _ | NoHealthyWorkersInPool _ _ =>
      PyNoHealthyWorkersError (show_RouterError error)
  | DisaggregatedRequiresTwoPhase | PolicyNotImplemented _ =>
      PyPolicyError (show_RouterError error)
  | other => PyKvRouterError (show_RouterError other)
  end.

Definition parse_policy (policy : rstr) : result PyErr RoutingPolicy :=
  if decide (policy = lit "round_robin") then Ok RoundRobin
  else if decide (policy = lit "cache_aware") then Ok CacheAware
  else if decide (policy = lit "disaggregated") then
    Err (PyPolicyError
      (lit "policy `disaggregated` needs the two-phase server flow (prefill -> KV transfer -> "
       ++ lit "decode); use the HTTP router for it"))
  else
    Err (PyPolicyError (lit "unknown policy `" ++ policy
      ++ lit "`; expected `round_robin` or `cache_aware`")).

(** ** [Duration::from_secs_f64] *)

(** [num / den], rounded to nearest, ties to even. *)
Definition div_round_even (num den : N) : N :=
  let q := (num / den)%N in
  match ((2 * (num mod den)) ?= den)%N with
  | Lt => q
  | Gt => q + 1
  | Eq => if N.even q then q else q + 1
  end%N.

(** Nanoseconds; a value that is negative, not finite or does not fit 64 bits
    of seconds panics. *)
Definition from_secs_f64 (x : f64) : option duration :=
  match x with
  | S754_zero _ => Some 0%N
  | S754_finite false m e =>
      let nanos :=
        if decide (0 ≤ e)%Z then (Npos m * Z.to_N (2 ^ e) * 1000000000)%N
        else div_round_even (Npos m * 1000000000) (Z.to_N (2 ^ (- e))) in
      if decide (nanos / 1000000000 < u64_modulus)%N then Some nanos else None
  | _ => None
  end.

(** ** [PyPrefixIndex] *)

Module PyPrefixIndex.

Record t {T : Type} := {
  inner : T;
  block_size : N;
  ttl : duration;
  max_entries : N;
  workers : gset WorkerId;
}.
Arguments t : clear implicits.

Section operations.
Context {T : Type} `{BI : BeliefIndex T} {HM : HashMapOrder} {BH : BlockHash}.

Definition new (block_size : N) (ttl_seconds : f64) (max_entries : N) :
    option (result PyErr (t T)) :=
  if decide (block_size = 0%N) then Some (Err (PyValueError (lit "block_size must be >= 1")))
  else if negb (f64_is_finite ttl_seconds) || SFltb ttl_seconds f64_0 then
    Some (Err (PyValueError (lit "ttl_seconds must be a finite, non-negative number")))
  else
    ttl ← from_secs_f64 ttl_seconds;
    Some (Ok {| inner := bi_new; block_size := block_size; ttl := ttl;
                max_entries := max_entries; workers := ∅ |}).

Definition insert (now : instant) (worker_id : WorkerId) (prompt : rstr) (s : t T) : t T :=
  let chain := chain_hash prompt (block_size s) in
  {| inner := bi_record now worker_id chain (inner s); block_size := block_size s; ttl := ttl s;
     max_entries := max_entries s; workers := {[worker_id]} ∪ workers s |}.

(** The [map] over the worker ids; [now k] is the clock at the [k]-th match. *)
Fixpoint match_all (now : nat → instant) (chain : list N) (ids : list WorkerId) (idx : T) :
    list (WorkerId * nat) * T :=
  match ids with
  | [] => ([], idx)
  | worker :: ids =>
      let '(matched, idx) := bi_longest_match (now 0) worker chain idx in
      let '(rest, idx) := match_all (λ k, now (S k)) chain ids idx in
      ((worker, matched) :: rest, idx)
  end.

Definition with_inner (idx : T) (s : t T) : t T := {|
  inner := idx; block_size := block_size s; ttl := ttl s;
  max_entries := max_entries s; workers := workers s |}.

Definition lookup (now : nat → instant) (prompt : rstr) (s : t T) :
    list (WorkerId * nat) * t T :=
  let chain := chain_hash prompt (block_size s) in
  let '(matches, idx) := match_all now chain (hs_iter (workers s)) (inner s) in
  (sort_by_key fst matches, with_inner idx s).

Definition evict_stale (now : instant) (s : t T) : (nat * nat) * t T :=
  let '(stats, idx) := bi_evict now (ttl s) (max_entries s) (inner s) in
  ((expired stats, lru_evicted stats), with_inner idx s).

Definition len (s : t T) : nat := bi_len (inner s).
End operations.
End PyPrefixIndex.

(** ** [PyRouter] *)

#[export] Instance RoutingPolicy_countable : Countable RoutingPolicy.
Proof.
  refine {|
    encode p := match p with RoundRobin => 1 | CacheAware => 2 | Disaggregated => 3 end%positive;
    decode n := Some (match n with 1 => RoundRobin | 2 => CacheAware | _ => Disaggregated end)%positive;
  |}.
  by intros [].
Defined.

(** [py_route_decision]: what [route] hands to Python. *)
Record PyRouteDecision := {
  prd_worker : rstr;
  prd_matched_blocks : nat;
  prd_prompt_blocks : nat;
  prd_score : f64;
}.

Module PyRouter.

(** The registry is shared by the routers and fixed after construction. *)
Record t {T : Type} := {
  registry : WorkerRegistry.t;
  base_config : RouterConfig;
  routers : gmap RoutingPolicy (Router.t T);
}.
Arguments t : clear implicits.

(** [config.routing_policy = policy]. *)
Definition with_policy (policy : RoutingPolicy) (c : RouterConfig) : RouterConfig := {|
  cfg_workers := cfg_workers c; cfg_routing_policy := policy;
  cfg_health_check_interval_secs := cfg_health_check_interval_secs c;
  cfg_prompt_block_chars := cfg_prompt_block_chars c;
  cfg_cache_weight := cfg_cache_weight c; cfg_load_weight := cfg_load_weight c;
  cfg_prefix_index_ttl_secs := cfg_prefix_index_ttl_secs c;
  cfg_prefix_index_max_entries := cfg_prefix_index_max_entries c;
  cfg_kv_transfer_cost_ms := cfg_kv_transfer_cost_ms c;
  cfg_metrics_scrape := cfg_metrics_scrape c;
  cfg_engine_metrics_interval_secs := cfg_engine_metrics_interval_secs c;
  cfg_engine_cache_hit_metric := cfg_engine_cache_hit_metric c;
  cfg_discovery := cfg_discovery c |}.

Definition python_config (workers : list rstr) (cache_weight load_weight : f64)
    (block_size : N) : RouterConfig := {|
  cfg_workers := (λ url, {| wc_url := url; wc_pool := Both |}) <$> workers;
  cfg_routing_policy := RoundRobin;
  cfg_health_check_interval_secs := 5;
  cfg_prompt_block_chars := block_size;
  cfg_cache_weight := cache_weight;
  cfg_load_weight := load_weight;
  cfg_prefix_index_ttl_secs := 300;
  cfg_prefix_index_max_entries := 100000;
  cfg_kv_transfer_cost_ms := 20;
  cfg_metrics_scrape := false;
  cfg_engine_metrics_interval_secs := 15;
  cfg_engine_cache_hit_metric := lit "vllm:gpu_prefix_cache_hit_rate";
  cfg_discovery := DiscoveryConfig_default |}.

Definition python_request (prompt : rstr) : ChatCompletionRequest unit := {|
  req_model := lit "python-embedding";
  req_messages := [{| msg_role := lit "user"; msg_content := prompt |}];
  req_max_tokens := None; req_temperature := None; req_stream := false; req_extra := ∅ |}.

Section operations.
Context {T : Type} `{BI : BeliefIndex T} {HM : HashMapOrder} {BH : BlockHash}.

(** Every configured worker is treated as healthy. *)
Definition healthy_registry (workers : list WorkerConfig) : WorkerRegistry.t :=
  foldl (λ reg index, (WorkerRegistry.set_healthy (N.of_nat index) true reg).2)
    (WorkerRegistry.from_config workers) (seq 0 (length workers)).

Definition new (workers : list rstr) (cache_weight load_weight : f64) (block_size : N) :
    result PyErr (t T) :=
  if decide (workers = []) then Err (PyKvRouterError (lit "`workers` must not be empty"))
  else if decide (block_size = 0%N) then Err (PyValueError (lit "block_size must be >= 1"))
  else
    let config := python_config workers cache_weight load_weight block_size in
    Ok {| registry := healthy_registry (cfg_workers config); base_config := config;
          routers := ∅ |}.

Definition get_or_create (policy : RoutingPolicy) (s : t T) : Router.t T * t T :=
  match routers s !! policy with
  | Some router => (router, s)
  | None =>
      let router := Router.new (registry s) (with_policy policy (base_config s)) in
      (router, {| registry := registry s; base_config := base_config s;
                  routers := <[policy := router]> (routers s) |})
  end.

(** The router of [policy] after a selection on the shared handle. *)
Definition put (policy : RoutingPolicy) (r : Router.t T) (s : t T) : t T := {|
  registry := registry s; base_config := base_config s;
  routers := <[policy := r]> (routers s) |}.

Definition decision_of (now : nat → instant) (prompt policy : rstr) (s : t T) :
    option (result PyErr RouteDecision * t T) :=
  match parse_policy policy with
  | Err e => Some (Err e, s)
  | Ok policy =>
      let '(router, s) := get_or_create policy s in
      '(out, router') ← Router.select_for_chat now (python_request prompt) router;
      Some (map_err to_py_error out, put policy router' s)
  end.

Definition select_worker (now : nat → instant) (prompt policy : rstr) (s : t T) :
    option (result PyErr rstr * t T) :=
  match decision_of now prompt policy s with
  | Some (out, s') => Some ((λ decision, w_url (rd_worker decision)) <$> out, s')
  | None => None
  end.

Definition route (now : nat → instant) (prompt policy : rstr) (s : t T) :
    option (result PyErr PyRouteDecision * t T) :=
  match decision_of now prompt policy s with
  | Some (out, s') =>
      Some ((λ decision, {|
        prd_worker := w_url (rd_worker decision);
        prd_matched_blocks := rd_matched_prefix_len decision;
        prd_prompt_blocks := rd_prompt_blocks decision;
        prd_score := rd_score decision |}) <$> out, s')
  | None => None
  end.

(** A sequence of calls ([prompt], [policy]) and their outcomes. *)
Fixpoint run (now : nat → instant) (calls : list (rstr * rstr)) (s : t T) :
    option (list (result PyErr RouteDecision) * t T) :=
  match calls with
  | [] => Some ([], s)
  | (prompt, policy) :: calls =>
      '(out, s') ← decision_of now prompt policy s;
      '(outs, s'') ← run now calls s';
      Some (out :: outs, s'')
  end.
End operations.
End PyRouter.

(** ** The index seen from Python *)

Module PyIndexRuns.
Import PyPrefixIndex.

(** Calls that change beliefs or only touch them. *)
Inductive op :=
  | Insert (now : instant) (worker_id : WorkerId) (prompt : rstr)
  | Lookup (now : nat → instant) (prompt : rstr).

Section runs.
Context {T : Type} `{BIL : BeliefIndexLaws T} {HM : HashMapOrder} {BH : BlockHash}.
Implicit Types (s : t T) (ops : list op) (w : WorkerId) (prompt : rstr).

Definition apply (s : t T) (o : op) : t T :=
  match o with
  | Insert now w prompt => insert now w prompt s
  | Lookup now prompt => (lookup now prompt s).2
  end.

(** What was inserted. *)
Definition inserted (ops : list op) : list (WorkerId * rstr) :=
  omap (λ o, match o with Insert _ w prompt => Some (w, prompt) | Lookup _ _ => None end) ops.

(** Some inserted prompt of [w] has the block [h]. *)
Definition seen (block_size : N) (ins : list (WorkerId * rstr)) w (h : N) : bool :=
  existsb (λ x, bool_decide (x.1 = w ∧ h ∈ chain_hash x.2 block_size)) ins.

Lemma match_all_spec now chain ids (idx : T) :
  bi_ok idx →
  ∃ idx', match_all now chain ids idx =
      ((λ w, (w, held_prefix (bi_holds idx w) chain)) <$> ids, idx') ∧
    bi_ok idx' ∧ ∀ w h, bi_holds idx' w h = bi_holds idx w h.
Proof.
  revert now idx. induction ids as [|w ids IH]; intros now idx Hok; cbn [match_all].
  { by exists idx. }
  pose proof (bi_match_len (now 0) w chain _ Hok) as Hlen.
  pose proof (bi_match_ok (now 0) w chain _ Hok) as Hok'.
  pose proof (λ i h, bi_match_holds (now 0) w chain _ i h Hok) as Hh.
  destruct (bi_longest_match _ _ _ _) as [matched idx1]. cbn [fst snd] in *.
  destruct (IH (λ k, now (S k)) idx1 Hok') as (idx' & -> & Hidx & Hheld).
  exists idx'. split_and!; [|done|by intros; rewrite Hheld].
  rewrite fmap_cons, Hlen. do 2 f_equal. apply list_fmap_ext. intros i w' _. f_equal.
  apply held_prefix_ext. intros. apply Hh.
Qed.

Lemma lookup_spec now prompt s :
  bi_ok (inner s) →
  let '(matches, s') := lookup now prompt s in
  (∀ w k, (w, k) ∈ matches ↔
     w ∈ workers s ∧ k = held_prefix (bi_holds (inner s) w) (chain_hash prompt (block_size s))) ∧
  StronglySorted N.lt matches.*1 ∧
  bi_ok (inner s') ∧ (∀ w h, bi_holds (inner s') w h = bi_holds (inner s) w h) ∧
  workers s' = workers s ∧ block_size s' = block_size s.
Proof.
  intros Hok. unfold lookup. set (chain := chain_hash _ _).
  destruct (match_all_spec now chain (hs_iter (workers s)) (inner s) Hok)
    as (idx & -> & Hidx & Hheld).
  split_and!; [| |done|done|done|done].
  - intros w k. rewrite sort_by_key_perm, list_elem_of_fmap. split.
    + intros (w' & [= -> ->] & Hw'). by rewrite elem_of_hs_iter in Hw'.
    + intros [Hw ->]. exists w. by rewrite elem_of_hs_iter.
  - apply (sort_by_key_strict fst). rewrite <-list_fmap_compose.
    rewrite (list_fmap_ext _ id) by done. rewrite list_fmap_id. apply NoDup_hs_iter.
Qed.

(** The state after a run: who was inserted, and what they hold. *)
Lemma run_spec ops s :
  bi_ok (inner s) →
  let s' := foldl apply s ops in
  bi_ok (inner s') ∧ block_size s' = block_size s ∧
  (∀ w, w ∈ workers s' ↔ w ∈ workers s ∨ w ∈ (inserted ops).*1) ∧
  ∀ w h, bi_holds (inner s') w h = bi_holds (inner s) w h || seen (block_size s) (inserted ops) w h.
Proof.
  revert s. induction ops as [|o ops IH]; intros s Hok; cbn [foldl].
  { split_and!; [done..| |].
    - intros w. split; [by left|]. intros [?|Hw]; [done|]. by apply not_elem_of_nil in Hw.
    - intros. by rewrite orb_false_r. }
  destruct o as [now w0 prompt|now prompt].
  - destruct (IH (apply s (Insert now w0 prompt))) as (Hok' & Hbs & Hw & Hh).
    { by apply bi_record_ok. }
    split_and!; [done|done| |].
    + intros w. rewrite Hw. cbn [apply insert workers inserted omap list_omap].
      rewrite fmap_cons, elem_of_cons. set_solver.
    + intros w h. rewrite Hh. cbn [apply insert inner block_size inserted omap list_omap].
      rewrite bi_record_holds by done. cbn [seen existsb fst snd].
      rewrite <-orb_assoc. do 2 f_equal. apply bool_decide_ext.
      split; intros [? ?]; split; congruence || done.
  - pose proof (lookup_spec now prompt s Hok) as Hl. cbn [apply].
    destruct (lookup now prompt s) as [matches s1]. cbn [snd].
    destruct Hl as (_ & _ & Hok1 & Hh1 & Hw1 & Hbs1).
    destruct (IH s1 Hok1) as (Hok' & Hbs & Hw & Hh).
    split_and!; [done|congruence| |].
    + intros w. by rewrite Hw, Hw1.
    + intros w h. by rewrite Hh, Hh1, Hbs1.
Qed.
End runs.
End PyIndexRuns.

(** [lookup] answers from exactly what was inserted: after any calls of
    [insert] and [lookup] on a new index, it lists every worker ever inserted
    and no other, in strictly increasing id order, each with the number of
    leading blocks of the prompt that occur in prompts inserted for that very
    worker; earlier lookups have no influence. *)
Theorem py_index_lookup {T} `{BeliefIndexLaws T} {HM : HashMapOrder} {BH : BlockHash}
    (bs : N) (ttl_seconds : f64) (cap : N) (s : PyPrefixIndex.t T)
    (ops : list PyIndexRuns.op) (now : nat → instant) (prompt : rstr)
    (Hnew : PyPrefixIndex.new bs ttl_seconds cap = Some (Ok s)) :
  let matches := (PyPrefixIndex.lookup now prompt (foldl PyIndexRuns.apply s ops)).1 in
  let ins := PyIndexRuns.inserted ops in
  StronglySorted N.lt matches.*1 ∧
  ∀ w k, (w, k) ∈ matches ↔
    w ∈ ins.*1 ∧ k = held_prefix (PyIndexRuns.seen bs ins w) (chain_hash prompt bs).
Proof.
  assert (Hs : PyPrefixIndex.inner s = bi_new ∧ PyPrefixIndex.block_size s = bs ∧
               PyPrefixIndex.workers s = ∅).
  { unfold PyPrefixIndex.new in Hnew. repeat case_decide; [done|].
    destruct (_ || _); [done|]. by destruct (from_secs_f64 ttl_seconds); simplify_eq/=. }
  destruct Hs as (Hi & Hbs & Hws). cbn zeta.
  destruct (PyIndexRuns.run_spec ops s) as (Hok & Hbs' & Hw & Hh);
    [rewrite Hi; apply bi_new_ok|].
  pose proof (PyIndexRuns.lookup_spec now prompt (foldl PyIndexRuns.apply s ops) Hok) as Hl.
  destruct (PyPrefixIndex.lookup _ _ _) as [matches s']. destruct Hl as (Hm & Hsorted & _).
  split; [done|]. intros w k. cbn [fst]. rewrite Hm, Hw, Hws, Hbs', Hbs.
  assert (held_prefix (bi_holds (PyPrefixIndex.inner (foldl PyIndexRuns.apply s ops)) w)
            (chain_hash prompt bs) =
          held_prefix (PyIndexRuns.seen bs (PyIndexRuns.inserted ops) w) (chain_hash prompt bs)) as ->.
  { apply held_prefix_ext. intros h _. by rewrite Hh, Hi, bi_new_holds, Hbs. }
  set_solver.
Qed.

(** ** The router seen from Python *)

Module PyRouterRuns.
Import PyRouter.

Section runs.
Context {T : Type} `{BIL : BeliefIndexLaws T} {HM : HashMapOrder} {BH : BlockHash}.
Implicit Types (s : t T) (p : RoutingPolicy) (calls : list (rstr * rstr)).

(** The core router behind a policy, created or not. *)
Definition view p s : Router.t T :=
  default (Router.new (registry s) (with_policy p (base_config s))) (routers s !! p).

(** Prompts of the calls that name policy [p], and their outcomes. *)
Definition prompts_for p calls : list rstr :=
  omap (λ c, if decide (parse_policy c.2 = Ok p) then Some c.1 else None) calls.

Definition outcomes_for {A} p calls (outs : list A) : list A :=
  omap (λ x, if decide (parse_policy x.1.2 = Ok p) then Some x.2 else None) (zip calls outs).

Lemma prompts_for_cons p prompt policy calls :
  prompts_for p ((prompt, policy) :: calls) =
  (if decide (parse_policy policy = Ok p) then [prompt] else []) ++ prompts_for p calls.
Proof. unfold prompts_for. simpl. by case_decide. Qed.

Lemma outcomes_for_cons {A} p prompt policy calls (out : A) outs :
  outcomes_for p ((prompt, policy) :: calls) (out :: outs) =
  (if decide (parse_policy policy = Ok p) then [out] else []) ++ outcomes_for p calls outs.
Proof. unfold outcomes_for. simpl. by case_decide. Qed.

Record ok s : Prop := {
  ok_healthy : WorkerRegistry.healthy_workers (registry s) ≠ [];
  ok_index p : bi_ok (Router.prefix_index (view p s));
  ok_registry p : Router.registry (view p s) = registry s;
  ok_policy p : Router.policy (view p s) = p;
}.

Lemma parse_policy_not_disaggregated policy p :
  parse_policy policy = Ok p → p ≠ Disaggregated.
Proof. unfold parse_policy. repeat case_decide; intros ?; by simplify_eq. Qed.

Lemma view_put p q r s : view q (put p r s) = if decide (p = q) then r else view q s.
Proof.
  unfold view, put. cbn [routers registry base_config].
  case_decide as Hpq; [subst; by rewrite lookup_insert_eq|by rewrite lookup_insert_ne].
Qed.

Lemma get_or_create_view p s :
  ∃ s1, get_or_create p s = (view p s, s1) ∧ registry s1 = registry s ∧
    (∀ q r, view q (put p r s1) = if decide (p = q) then r else view q s).
Proof.
  unfold get_or_create. destruct (routers s !! p) as [r|] eqn:Hr.
  - exists s. split_and!; [by unfold view; rewrite Hr|done|]. intros. apply view_put.
  - eexists. split_and!; [by unfold view; rewrite Hr|done|].
    intros q r. rewrite view_put. case_decide as Hpq; [done|].
    unfold view. cbn [routers registry base_config]. by rewrite lookup_insert_ne.
Qed.

(** One call with a known policy is one selection of that policy's router. *)
Lemma decision_ok now prompt policy p s :
  ok s → parse_policy policy = Ok p →
  ∃ d r s', Router.select_for_chat now (python_request prompt) (view p s) = Some (Ok d, r) ∧
    decision_of now prompt policy s = Some (Ok d, s') ∧ ok s' ∧
    ∀ q, view q s' = if decide (p = q) then r else view q s.
Proof.
  intros Hs Hp.
  destruct (select_for_chat_ok now (python_request prompt) (view p s)) as
    (d & r & Hsel & Hidx & Hreg & Hpol & _).
  { apply Hs. } { rewrite ok_registry by done. apply Hs. }
  { rewrite ok_policy by done. by eapply parse_policy_not_disaggregated. }
  destruct (get_or_create_view p s) as (s1 & Hget & Hr1 & Hview).
  exists d, r, (put p r s1). split_and!; [done| | |].
  - unfold decision_of. rewrite Hp, Hget, Hsel. done.
  - split.
    + cbn. rewrite Hr1. apply Hs.
    + intros q. rewrite Hview. case_decide; [done|]. by apply ok_index.
    + intros q. rewrite Hview. cbn. rewrite Hr1. case_decide; [|by apply ok_registry].
      rewrite Hreg. by apply ok_registry.
    + intros q. rewrite Hview. case_decide as Hpq; [|by apply ok_policy].
      subst q. rewrite Hpol. by apply ok_policy.
  - intros q. apply Hview.
Qed.

Lemma decision_refused now prompt policy e s :
  parse_policy policy = Err e → decision_of now prompt policy s = Some (Err e, s).
Proof. unfold decision_of. by intros ->. Qed.

Lemma run_projects now calls s :
  ok s →
  ∃ outs s', run now calls s = Some (outs, s') ∧ length outs = length calls ∧ ok s' ∧
    (∀ i prompt policy e, calls !! i = Some (prompt, policy) →
       parse_policy policy = Err e → outs !! i = Some (Err e)) ∧
    ∀ p, ∃ ds r,
      RouterSpec.chat_run now (python_request <$> prompts_for p calls) (view p s) = Some (ds, r) ∧
      outcomes_for p calls outs = Ok <$> ds ∧ view p s' = r.
Proof.
  revert s. induction calls as [|[prompt policy] calls IH]; intros s Hs; cbn [run].
  { exists [], s. split_and!; [done..|]. intros p. by exists [], (view p s). }
  destruct (parse_policy policy) as [p|e] eqn:Hp.
  - destruct (decision_ok now prompt policy p s Hs Hp) as (d & r & s1 & Hsel & Hdec & Hs1 & Hview).
    destruct (IH s1 Hs1) as (outs & s' & Hrun & Hlen & Hs' & Herr & Hproj).
    exists (Ok d :: outs), s'. rewrite Hdec. cbn [mbind option_bind]. rewrite Hrun.
    split_and!; [done|simpl; lia|done| |].
    + intros [|i] prompt' policy' e; simpl; [|by apply Herr]. intros; congruence.
    + intros q. destruct (Hproj q) as (ds & r' & Hchat & Hout & Hr').
      rewrite prompts_for_cons, outcomes_for_cons, Hp. rewrite Hview in *. destruct (decide (p = q)) as [<-|Hne].
      * rewrite !decide_True by done. exists (d :: ds), r'.
        cbn [app]. rewrite fmap_cons. cbn [RouterSpec.chat_run]. rewrite Hsel. cbn [mbind option_bind].
        by rewrite Hchat, Hout.
      * rewrite !decide_False by congruence. by exists ds, r'.
  - destruct (IH s Hs) as (outs & s' & Hrun & Hlen & Hs' & Herr & Hproj).
    exists (Err e :: outs), s'. rewrite (decision_refused _ _ _ e) by done.
    cbn [mbind option_bind]. rewrite Hrun. split_and!; [done|simpl; lia|done| |].
    + intros [|i] prompt' policy' e'; simpl; [|by apply Herr]. intros; congruence.
    + intros q. destruct (Hproj q) as (ds & r' & Hchat & Hout & Hr').
      rewrite prompts_for_cons, outcomes_for_cons, Hp, !decide_False by done. by exists ds, r'.
Qed.

(** The registry that [new] builds: every configured worker, healthy. *)
Lemma lookup_healthy_registry configs id :
  WorkerRegistry.workers (healthy_registry configs) !! id =
  (λ c, {| ws_worker := {| w_id := id; w_url := wc_url c; w_pool := wc_pool c |};
           ws_healthy := true |}) <$> configs !! N.to_nat id.
Proof.
  unfold healthy_registry.
  assert (∀ l reg,
    WorkerRegistry.workers (foldl (λ reg index,
      (WorkerRegistry.set_healthy (N.of_nat index) true reg).2) reg l) !! id =
    if decide (N.to_nat id ∈ l)
    then (λ st, {| ws_worker := ws_worker st; ws_healthy := true |}) <$> WorkerRegistry.workers reg !! id
    else WorkerRegistry.workers reg !! id) as Hfold.
  { induction l as [|x l IH]; intros reg; [done|]. cbn [foldl].
    rewrite IH, WorkerRegistry.lookup_set_healthy.
    destruct (decide (id = N.of_nat x)) as [->|Hne].
    - rewrite Nat2N.id, (decide_True (P := x ∈ x :: l)) by by left.
      rewrite <-option_fmap_compose. by destruct (decide (x ∈ l)).
    - apply decide_ext. rewrite elem_of_cons. split; [by right|].
      intros [Hx|?]; [|done]. exfalso. apply Hne. by rewrite <-Hx, N2Nat.id. }
  rewrite Hfold, WorkerRegistry.lookup_from_config.
  destruct (configs !! N.to_nat id) as [c|] eqn:Hc; cbn [fmap option_fmap option_map].
  - rewrite decide_True; [done|]. apply elem_of_seq. apply lookup_lt_Some in Hc. lia.
  - by case_decide.
Qed.

Lemma new_ok workers cw lw bs s :
  PyRouter.new workers cw lw bs = Ok s →
  ok s ∧ ∀ p, view p s = Router.new (healthy_registry (cfg_workers (python_config workers cw lw bs)))
                   (with_policy p (python_config workers cw lw bs)).
Proof.
  unfold PyRouter.new. repeat case_decide; intros ?; simplify_eq.
  split; [split|done]; try (intros; apply bi_new_ok); try done.
  cbn [registry]. destruct workers as [|url workers]; [done|].
  intros He. eapply (not_elem_of_nil (A := Worker)). rewrite <-He.
  apply WorkerRegistry.elem_of_healthy_workers. exists 0%N. eexists.
  split_and!; [by rewrite lookup_healthy_registry|done..].
Qed.
End runs.
End PyRouterRuns.

(** C30.  The in-process router is a family of independent core routers: for
    any calls on a new [Router], nothing panics, a call with an unknown or
    two-phase policy raises its [PolicyError] and has no effect, every other
    call succeeds, and the decisions of one policy are exactly those of a
    stand-alone core router with all workers healthy that receives the prompts
    of that policy alone. *)
Theorem py_router_projects {T} `{BeliefIndexLaws T} {HM : HashMapOrder} {BH : BlockHash}
    (workers : list rstr) (cw lw : f64) (bs : N) (s : PyRouter.t T)
    (calls : list (rstr * rstr)) (now : nat → instant)
    (Hnew : PyRouter.new workers cw lw bs = Ok s) :
  let config := PyRouter.python_config workers cw lw bs in
  ∃ outs s', PyRouter.run now calls s = Some (outs, s') ∧ length outs = length calls ∧
    (∀ i prompt policy e, calls !! i = Some (prompt, policy) →
       parse_policy policy = Err e → outs !! i = Some (Err e)) ∧
    ∀ p, ∃ ds r,
      RouterSpec.chat_run now (PyRouter.python_request <$> PyRouterRuns.prompts_for p calls)
        (Router.new (PyRouter.healthy_registry (cfg_workers config))
           (PyRouter.with_policy p config)) = Some (ds, r) ∧
      PyRouterRuns.outcomes_for p calls outs = Ok <$> ds.
Proof.
  cbn zeta. destruct (PyRouterRuns.new_ok _ _ _ _ _ Hnew) as [Hs Hview].
  destruct (PyRouterRuns.run_projects now calls s Hs) as (outs & s' & Hrun & Hlen & _ & Herr & Hproj).
  exists outs, s'. split_and!; [done..|]. intros p.
  destruct (Hproj p) as (ds & r & Hchat & Hout & _). exists ds, r. by rewrite <-Hview.
Qed.

(** ** The load term in process

    Nothing is ever in flight in the in-process router, so the load term of a
    score is a zero and cannot change a comparison. *)

Module PyLoad.

(** What a caller can observe of a decision besides its score. *)
Definition choice (d : RouteDecision) : Worker * nat * nat :=
  (rd_worker d, rd_matched_prefix_len d, rd_prompt_blocks d).

Lemma max_by_fmap {A B} (cmp : B → B → comparison) (f : A → B) (l : list A) :
  max_by cmp (f <$> l) = f <$> max_by (λ x y, cmp (f x) (f y)) l.
Proof.
  destruct l as [|x l]; [done|]. simpl. f_equal. revert x.
  induction l as [|y l IH]; intros x; [done|]. simpl. rewrite <-IH. by destruct (cmp (f x) (f y)).
Qed.

Lemma max_by_ext {A} (cmp1 cmp2 : A → A → comparison) (l : list A) :
  (∀ x y, cmp1 x y = cmp2 x y) → max_by cmp1 l = max_by cmp2 l.
Proof.
  intros Heq. destruct l as [|x l]; [done|]. simpl. f_equal. revert x.
  induction l as [|y l IH]; intros x; [done|]. simpl. by rewrite Heq, IH.
Qed.

Lemma cmp_sub_zero a b s1 s2 :
  f64_partial_cmp (f64_sub a (S754_zero s1)) (f64_sub b (S754_zero s2)) = f64_partial_cmp a b.
Proof.
  destruct a as [[]|[]| |[] ? ?], b as [[]|[]| |[] ? ?], s1, s2; reflexivity.
Qed.

Section inert.
Context {T : Type} `{BI : BeliefIndex T} {HM : HashMapOrder} {BH : BlockHash}.
Implicit Types (r : Router.t T).
Import Router.

Definition with_load_weight (lw : f64) r : Router.t T := {|
  registry := registry r; policy := policy r; next_worker := next_worker r;
  prefix_index := prefix_index r; inflight := inflight r; block_size := block_size r;
  cache_weight := cache_weight r; load_weight := lw |}.

Definition idle r : Prop := ∀ w, InflightTracker.count w (inflight r) = 0%N.

(** The matches that [score_all] computes do not depend on the weights. *)
Fixpoint matches (now : nat → instant) (k : nat) chain (ws : list Worker) (idx : T) :
    list (Worker * nat) * T :=
  match ws with
  | [] => ([], idx)
  | w :: ws =>
      let '(matched, idx) := bi_longest_match (now k) (w_id w) chain idx in
      let '(rest, idx) := matches now (S k) chain ws idx in
      ((w, matched) :: rest, idx)
  end.

Lemma score_all_matches now k chain ws r :
  score_all now k chain ws r =
  ((λ x, scored x.1 x.2 r) <$> (matches now k chain ws (prefix_index r)).1,
   set_prefix_index (matches now k chain ws (prefix_index r)).2 r).
Proof.
  revert k r. induction ws as [|w ws IH]; intros k r; cbn [score_all matches].
  { by destruct r. }
  destruct (bi_longest_match _ _ _ _) as [matched idx]. rewrite IH.
  cbn [prefix_index set_prefix_index]. by destruct (matches _ _ _ _ idx).
Qed.

Lemma scored_cmp lw1 lw2 r (x y : Worker * nat) :
  idle r → f64_is_finite lw1 = true → f64_is_finite lw2 = true →
  candidate_cmp (sw_candidate (scored x.1 x.2 (with_load_weight lw1 r)))
                (sw_candidate (scored y.1 y.2 (with_load_weight lw1 r))) =
  candidate_cmp (sw_candidate (scored x.1 x.2 (with_load_weight lw2 r)))
                (sw_candidate (scored y.1 y.2 (with_load_weight lw2 r))).
Proof.
  intros Hidle H1 H2. unfold candidate_cmp, scored, score_worker.
  cbn [sw_candidate c_score c_in_flight c_id inflight load_weight cache_weight with_load_weight].
  rewrite !Hidle.
  assert (Hz : ∀ lw, f64_is_finite lw = true →
    ∃ s, f64_mul (f64_of_N 0) lw = S754_zero s) by (intros [] ?; done || by eexists).
  destruct (Hz lw1 H1) as [s1 ->], (Hz lw2 H2) as [s2 ->]. by rewrite !cmp_sub_zero.
Qed.

Lemma choose_inert now e ws chain lw1 lw2 r :
  idle r → f64_is_finite lw1 = true → f64_is_finite lw2 = true →
  ∃ out1 out2 r', choose now e ws chain (with_load_weight lw1 r) = (out1, with_load_weight lw1 r') ∧
    choose now e ws chain (with_load_weight lw2 r) = (out2, with_load_weight lw2 r') ∧
    choice <$> out1 = choice <$> out2 ∧ idle r'.
Proof.
  intros Hidle H1 H2. unfold choose, pick_best. rewrite !score_all_matches.
  cbn [prefix_index with_load_weight].
  destruct (matches now 0 chain ws (prefix_index r)) as [ms idx]. cbn [fst snd].
  rewrite !max_by_fmap.
  rewrite (max_by_ext _ _ ms (λ x y, scored_cmp lw1 lw2 r x y Hidle H1 H2)).
  destruct (max_by _ ms) as [x|]; cbn [fmap option_fmap option_map].
  - eexists _, _, (record (now (length ws)) x.1 chain (set_prefix_index idx r)).
    split_and!; done.
  - eexists _, _, (set_prefix_index idx r). split_and!; done.
Qed.

Lemma select_inert {V} now (request : ChatCompletionRequest V) lw1 lw2 r :
  idle r → f64_is_finite lw1 = true → f64_is_finite lw2 = true →
  (∃ out1 out2 r',
    select_for_chat now request (with_load_weight lw1 r) = Some (out1, with_load_weight lw1 r') ∧
    select_for_chat now request (with_load_weight lw2 r) = Some (out2, with_load_weight lw2 r') ∧
    choice <$> out1 = choice <$> out2 ∧ idle r') ∨
  select_for_chat now request (with_load_weight lw1 r) = None ∧
  select_for_chat now request (with_load_weight lw2 r) = None.
Proof.
  intros Hidle H1 H2. unfold select_for_chat.
  cbn [registry block_size policy with_load_weight].
  case_decide as Hh; [left; by eexists _, _, r|].
  destruct (policy r) eqn:Hp.
  - unfold round_robin. case_decide; [by right|]. cbn [next_worker with_load_weight].
    destruct (_ !! _) as [w|]; [|by right]. left. cbn [mbind option_bind].
    cbn [prefix_index set_next_worker].
    destruct (bi_longest_match _ _ _ _) as [matched idx].
    eexists _, _, (record (now 1) w _ (set_prefix_index idx
      (set_next_worker (fetch_add (next_worker r) 1) r))).
    by split_and!.
  - left. destruct (choose_inert now (no_healthy r)
      (chat_candidates (WorkerRegistry.healthy_workers (registry r)))
      (chain_hash (canonical_prompt request) (block_size r)) lw1 lw2 r Hidle H1 H2)
      as (out1 & out2 & r' & He1 & He2 & Hc & Hi).
    exists out1, out2, r'. split_and!; [by rewrite <-He1|by rewrite <-He2|done|done].
  - left. by eexists _, _, r.
Qed.
End inert.

Section python.
Context {T : Type} `{BI : BeliefIndex T} {HM : HashMapOrder} {BH : BlockHash}.
Implicit Types (s : PyRouter.t T).
Import PyRouter.

Definition config_with_load (lw : f64) (c : RouterConfig) : RouterConfig := {|
  cfg_workers := cfg_workers c; cfg_routing_policy := cfg_routing_policy c;
  cfg_health_check_interval_secs := cfg_health_check_interval_secs c;
  cfg_prompt_block_chars := cfg_prompt_block_chars c;
  cfg_cache_weight := cfg_cache_weight c; cfg_load_weight := lw;
  cfg_prefix_index_ttl_secs := cfg_prefix_index_ttl_secs c;
  cfg_prefix_index_max_entries := cfg_prefix_index_max_entries c;
  cfg_kv_transfer_cost_ms := cfg_kv_transfer_cost_ms c;
  cfg_metrics_scrape := cfg_metrics_scrape c;
  cfg_engine_metrics_interval_secs := cfg_engine_metrics_interval_secs c;
  cfg_engine_cache_hit_metric := cfg_engine_cache_hit_metric c;
  cfg_discovery := cfg_discovery c |}.

Definition reweigh (lw : f64) s : PyRouter.t T := {|
  registry := registry s; base_config := config_with_load lw (base_config s);
  routers := with_load_weight lw <$> routers s |}.

(** The outcomes of a run, without scores and final state. *)
Definition observed (x : option (list (result PyErr RouteDecision) * t T)) :
    option (list (result PyErr (Worker * nat * nat))) :=
  match x with
  | Some (outs, _) => Some ((λ out : result PyErr RouteDecision, choice <$> out) <$> outs)
  | None => None
  end.

Definition all_idle s : Prop := ∀ p r, routers s !! p = Some r → idle r.

Lemma idle_new reg c : idle (T := T) (Router.new reg c).
Proof.
  intros w. unfold InflightTracker.count, InflightTracker.slot. cbn.
  destruct (replicate _ 0%N !! N.to_nat w) as [x|] eqn:Hx; [|done].
  by apply lookup_replicate in Hx as [-> _].
Qed.

Lemma reweigh_put p r lw s : reweigh lw (put p r s) = put p (with_load_weight lw r) (reweigh lw s).
Proof. unfold reweigh, put. cbn [routers registry base_config]. by rewrite fmap_insert. Qed.

Lemma all_idle_put p r s : idle r → all_idle s → all_idle (put p r s).
Proof.
  intros Hr Hs q r' Hq. cbn [routers put] in Hq.
  apply lookup_insert_Some in Hq as [[_ <-]|[_ Hq]]; [done|by eapply Hs].
Qed.

Lemma get_or_create_reweigh p s :
  all_idle s →
  ∃ r s1, (∀ lw, get_or_create p (reweigh lw s) = (with_load_weight lw r, reweigh lw s1)) ∧
    idle r ∧ all_idle s1.
Proof.
  intros Hs. destruct (routers s !! p) as [r|] eqn:Hp.
  - exists r, s. split_and!; [|by eapply Hs|done]. intros lw'. unfold get_or_create.
    cbn [routers reweigh]. by rewrite lookup_fmap, Hp.
  - exists (Router.new (registry s) (with_policy p (base_config s))),
      (put p (Router.new (registry s) (with_policy p (base_config s))) s).
    split_and!; [|apply idle_new|apply all_idle_put; [apply idle_new|done]].
    intros lw'. rewrite reweigh_put. unfold get_or_create. cbn [routers reweigh].
    by rewrite lookup_fmap, Hp.
Qed.

Lemma run_inert now calls lw1 lw2 s :
  all_idle s → f64_is_finite lw1 = true → f64_is_finite lw2 = true →
  observed (run now calls (reweigh lw1 s)) = observed (run now calls (reweigh lw2 s)).
Proof.
  intros Hs H1 H2. revert s Hs. induction calls as [|[prompt policy] calls IH]; intros s Hs; [done|].
  cbn [run]. unfold decision_of. destruct (parse_policy policy) as [p|e].
  - destruct (get_or_create_reweigh p s Hs) as (r & s1 & Hget & Hr & Hs1). rewrite !Hget.
    destruct (select_inert now (python_request prompt) lw1 lw2 r Hr H1 H2)
      as [(out1 & out2 & r' & -> & -> & Hc & Hr')|[-> ->]]; [|done].
    cbn [mbind option_bind]. rewrite <-!reweigh_put.
    specialize (IH (put p r' s1) (all_idle_put _ _ _ Hr' Hs1)).
    destruct (run now calls (reweigh lw1 _)) as [[outs1 s1']|],
      (run now calls (reweigh lw2 _)) as [[outs2 s2']|]; try done.
    injection IH as IH. cbn [mbind option_bind observed].
    f_equal. rewrite !fmap_cons. f_equal; [|done].
    destruct out1, out2; simpl in *; congruence.
  - cbn [mbind option_bind]. specialize (IH s Hs).
    destruct (run now calls (reweigh lw1 _)) as [[outs1 s1']|],
      (run now calls (reweigh lw2 _)) as [[outs2 s2']|]; try done.
    injection IH as IH. cbn [mbind option_bind observed].
    f_equal. rewrite !fmap_cons. by f_equal.
Qed.
End python.
End PyLoad.

(** [load_weight] has no effect in process: two routers that differ only
    in it (finite weights) make the same decisions on every sequence of calls
    (worker, matched and prompt blocks), because no request of the in-process
    router is ever in flight. *)
Theorem py_load_weight_inert {T} `{BeliefIndex T} {HM : HashMapOrder} {BH : BlockHash}
    (workers : list rstr) (cw lw1 lw2 : f64) (bs : N) (s1 s2 : PyRouter.t T)
    (calls : list (rstr * rstr)) (now : nat → instant)
    (H1 : PyRouter.new workers cw lw1 bs = Ok s1)
    (H2 : PyRouter.new workers cw lw2 bs = Ok s2)
    (Hf1 : f64_is_finite lw1 = true) (Hf2 : f64_is_finite lw2 = true) :
  PyLoad.observed (PyRouter.run now calls s1) = PyLoad.observed (PyRouter.run now calls s2).
Proof.
  unfold PyRouter.new in *. repeat case_decide; simplify_eq.
  set (s := {| PyRouter.registry := PyRouter.healthy_registry
                 (cfg_workers (PyRouter.python_config workers cw lw1 bs));
               PyRouter.base_config := PyRouter.python_config workers cw f64_0 bs;
               PyRouter.routers := ∅ : gmap RoutingPolicy (Router.t T) |}).
  assert (Hs : PyLoad.all_idle s) by (intros p r Hp; unfold s in Hp; cbn in Hp; by rewrite lookup_empty in Hp).
  pose proof (PyLoad.run_inert now calls lw1 lw2 s Hs Hf1 Hf2) as Hrun.
  unfold PyLoad.reweigh in Hrun. unfold s in Hrun. cbn [PyRouter.routers] in Hrun.
  rewrite fmap_empty in Hrun. by rewrite fmap_empty in Hrun.
Qed.

(** A lifetime that [Duration] cannot hold is not rejected but panics:
    from [2^64] seconds on, a finite non-negative [ttl_seconds] passes the
    validation of the constructor and the conversion aborts, whatever the
    other arguments; everything below yields the lifetime, correct to the
    nanosecond for whole seconds. *)
Theorem py_ttl_conversion {T} `{BeliefIndex T} (bs cap : N) (m : positive) (e : Z)
    (Hbs : bs ≠ 0%N) (He : (0 ≤ e)%Z) :
  let ttl := S754_finite false m e in
  let secs := (Npos m * Z.to_N (2 ^ e))%N in
  f64_is_finite ttl = true ∧ SFltb ttl f64_0 = false ∧
  PyPrefixIndex.new (T := T) bs ttl cap =
    if decide (secs < u64_modulus)%N
    then Some (Ok {| PyPrefixIndex.inner := bi_new; PyPrefixIndex.block_size := bs;
                     PyPrefixIndex.ttl := (secs * 1000000000)%N;
                     PyPrefixIndex.max_entries := cap; PyPrefixIndex.workers := ∅ |})
    else None.
Proof.
  cbn zeta. split_and!; [done|done|]. unfold PyPrefixIndex.new.
  rewrite (decide_False (P := bs = _)) by done.
  change (negb _ || _) with false. cbn iota.
  unfold from_secs_f64. rewrite (decide_True (P := (0 ≤ e)%Z)) by done.
  rewrite N.div_mul by done. by case_decide.
Qed.

(** ** The properties at concrete inputs *)

Section witnesses.
#[local] Existing Instance hm_canonical.

Definition py_index : PyPrefixIndex.t PrefixIndex.t := {|
  PyPrefixIndex.inner := PrefixIndex.new; PyPrefixIndex.block_size := 4;
  PyPrefixIndex.ttl := 300000000000; PyPrefixIndex.max_entries := 100000;
  PyPrefixIndex.workers := ∅ |}.

Definition py_inserts : list PyIndexRuns.op :=
  [PyIndexRuns.Insert 0 7 (lit "abcdefgh"); PyIndexRuns.Lookup still (lit "abcd");
   PyIndexRuns.Insert 1 3 (lit "abcdXXXX")].

Theorem py_index_lookup_witness :
  (7%N, 2) ∈ (PyPrefixIndex.lookup still (lit "abcdefgh")
                (foldl PyIndexRuns.apply py_index py_inserts)).1.
Proof.
  assert (Hnew : PyPrefixIndex.new 4 (f64_of_N 300) 100000 = Some (Ok py_index))
    by (vm_compute; reflexivity).
  apply (proj2 (py_index_lookup 4 (f64_of_N 300) 100000 py_index py_inserts still
    (lit "abcdefgh") Hnew)).
  split; [|vm_compute; reflexivity]. apply (bool_decide_unpack _). vm_compute. exact I.
Defined.

Definition py_router : PyRouter.t PrefixIndex.t := {|
  PyRouter.registry := PyRouter.healthy_registry
    [both "http://a"; both "http://b"];
  PyRouter.base_config := PyRouter.python_config [lit "http://a"; lit "http://b"]
    f64_1 f64_half 4;
  PyRouter.routers := ∅ |}.

Lemma py_router_new :
  PyRouter.new [lit "http://a"; lit "http://b"] f64_1 f64_half 4 = Ok py_router.
Proof. vm_compute. reflexivity. Qed.

Definition py_calls : list (rstr * rstr) :=
  [(lit "hello", lit "round_robin"); (lit "hello", lit "disaggregated");
   (lit "hello", lit "cache_aware"); (lit "hello", lit "round_robin")].

Theorem py_router_projects_witness :
  ∃ outs s', PyRouter.run still py_calls py_router = Some (outs, s') ∧ length outs = 4.
Proof.
  destruct (py_router_projects _ _ _ _ py_router py_calls still py_router_new)
    as (outs & s' & Hrun & Hlen & _).
  exists outs, s'. split; [exact Hrun|exact Hlen].
Defined.

Theorem py_load_weight_inert_witness :
  PyLoad.observed (PyRouter.run still py_calls py_router) =
  PyLoad.observed (PyRouter.run still py_calls (PyLoad.reweigh (f64_of_N 1000) py_router)).
Proof.
  apply (py_load_weight_inert [lit "http://a"; lit "http://b"] f64_1 f64_half (f64_of_N 1000) 4
    _ _ py_calls still py_router_new); vm_compute; reflexivity.
Defined.

Theorem py_ttl_conversion_witness :
  PyPrefixIndex.new (T := PrefixIndex.t) 512 (S754_finite false 4503599627370496 12) 100000 = None.
Proof.
  refine (eq_trans (proj2 (proj2 (py_ttl_conversion 512 100000 4503599627370496 12 _ _))) _);
    [done|done|vm_compute; reflexivity].
Defined.
End witnesses.
