(* ===== verification/CacheModel.v ===== *)
(** * What the index means: a radix cache of prompts

    The abstract reading of the prefix index, without hashes: each worker has
    the list of prompts it was given since it was last forgotten, and a prompt
    matches a worker by the longest run of leading blocks that it shares with
    one of them.  As long as no two inputs of the hash collide the index never
    believes more than this, and believes exactly this while nothing was
    evicted or purged; so do the decisions of the router. *)

From S2P Require Import Prelude Float64 Hashing Config Request Worker Inflight Belief Prefix Router Discovery Health.

(** ** Specification *)

(** Number of leading blocks two prompts share. *)
Fixpoint common_blocks (bs1 bs2 : list rstr) : nat :=
  match bs1, bs2 with
  | b1 :: bs1, b2 :: bs2 => if decide (b1 = b2) then S (common_blocks bs1 bs2) else 0
  | _, _ => 0
  end.

(** The longest match of [prompt] with one of [served]. *)
Definition cached_blocks (block_size : N) (served : list rstr) (prompt : rstr) : nat :=
  max_list ((λ p, common_blocks (prompt_blocks prompt block_size) (prompt_blocks p block_size))
              <$> served).

Lemma common_blocks_take bs1 bs2 k :
  k ≤ length bs1 → take k bs1 = take k bs2 → k ≤ common_blocks bs1 bs2.
Proof.
  revert bs2 k. induction bs1 as [|b1 bs1 IH]; intros bs2 k Hk Ht; simpl in *; [lia|].
  destruct k as [|k]; [lia|]. destruct bs2 as [|b2 bs2]; [done|]. simpl in Ht.
  injection Ht as -> Ht. rewrite decide_True by done.
  apply le_n_S, IH; [lia|done].
Qed.

Lemma take_common_blocks bs1 bs2 :
  take (common_blocks bs1 bs2) bs1 = take (common_blocks bs1 bs2) bs2 ∧
  common_blocks bs1 bs2 ≤ length bs1.
Proof.
  revert bs2. induction bs1 as [|b1 bs1 IH]; intros bs2; simpl; [split; [done|lia]|].
  destruct bs2 as [|b2 bs2]; [split; [done|lia]|]. case_decide as Hb; [|split; [done|lia]].
  subst. simpl. destruct (IH bs2) as [-> ?]. split; [done|lia].
Qed.

(** ** The held prefix of a chain is the longest common run *)

Section held.
Context {BH : BlockHash}.
Implicit Types (p prompt : rstr) (n : N) (served : list rstr).

(** Some prompt of [served] has a block with hash [h]. *)
Definition holds_of (n : N) (served : list rstr) (h : N) : bool :=
  existsb (λ p, bool_decide (h ∈ chain_hash p n)) served.

Lemma holds_of_spec n served h :
  holds_of n served h = true ↔ ∃ p, p ∈ served ∧ h ∈ chain_hash p n.
Proof.
  unfold holds_of. rewrite existsb_exists. split.
  - intros (p & Hp & Hh%bool_decide_eq_true). exists p. by rewrite list_elem_of_In.
  - intros (p & Hp & Hh). exists p. rewrite <-list_elem_of_In. by rewrite bool_decide_true.
Qed.

Lemma chain_take_common p prompt n :
  take (common_blocks (prompt_blocks prompt n) (prompt_blocks p n)) (chain_hash prompt n) =
  take (common_blocks (prompt_blocks prompt n) (prompt_blocks p n)) (chain_hash p n).
Proof.
  unfold chain_hash. rewrite !take_chain_loop.
  by rewrite (proj1 (take_common_blocks (prompt_blocks prompt n) (prompt_blocks p n))).
Qed.

(** Blocks shared with a served prompt are held. *)
Lemma common_le_held n served prompt p :
  p ∈ served →
  common_blocks (prompt_blocks prompt n) (prompt_blocks p n) ≤
  held_prefix (holds_of n served) (chain_hash prompt n).
Proof.
  intros Hp. set (k := common_blocks _ _).
  destruct (held_prefix_spec (holds_of n served) (chain_hash prompt n)
    (held_prefix (holds_of n served) (chain_hash prompt n))) as [Hs _].
  destruct (Hs eq_refl) as (_ & Hle & Hno). clear Hs.
  set (j := held_prefix _ _) in *. destruct (decide (k ≤ j)) as [|Hj]; [done|exfalso].
  pose proof (proj2 (take_common_blocks (prompt_blocks prompt n) (prompt_blocks p n))) as Hk.
  fold k in Hk.
  destruct (lookup_lt_is_Some_2 (chain_hash prompt n) j) as [h Hh].
  { unfold chain_hash. rewrite length_chain_loop. lia. }
  assert (holds_of n served h = true); [|by rewrite (Hno h Hh) in *].
  apply holds_of_spec. exists p. split; [done|].
  apply list_elem_of_lookup. exists j.
  rewrite <-(lookup_take_lt (chain_hash p n) k j) by lia.
  unfold k. rewrite <-chain_take_common. fold k. by rewrite lookup_take_lt by lia.
Qed.

(** And nothing beyond the best of them, unless hashes collide. *)
Lemma held_le_cached n served prompt :
  (∀ p, p ∈ served → no_collision prompt p n) →
  held_prefix (holds_of n served) (chain_hash prompt n) ≤ cached_blocks n served prompt.
Proof.
  intros Hc. destruct (held_prefix_spec (holds_of n served) (chain_hash prompt n)
    (held_prefix (holds_of n served) (chain_hash prompt n))) as [Hs _].
  destruct (Hs eq_refl) as (Hyes & Hle & _). clear Hs.
  destruct (held_prefix _ _) as [|j]; [lia|].
  destruct (lookup_lt_is_Some_2 (chain_hash prompt n) j) as [h Hh]; [lia|].
  pose proof (Hyes j h ltac:(lia) Hh) as (p & Hp & (i & Hi)%list_elem_of_lookup)%holds_of_spec.
  destruct (chain_hash_position prompt p n j i h (Hc p Hp) Hh Hi) as [<- Ht].
  unfold chain_hash in Hle. rewrite length_chain_loop in Hle.
  etrans; [exact (common_blocks_take _ _ _ Hle Ht)|].
  apply max_list_elem_of_le. by apply (list_elem_of_fmap_2
    (λ p, common_blocks (prompt_blocks prompt n) (prompt_blocks p n))).
Qed.

Lemma held_is_cached n served prompt :
  (∀ p, p ∈ served → no_collision prompt p n) →
  held_prefix (holds_of n served) (chain_hash prompt n) = cached_blocks n served prompt.
Proof.
  intros Hc. apply Nat.le_antisymm; [by apply held_le_cached|].
  unfold cached_blocks. destruct (decide (served = [])) as [->|Hne]; [simpl; lia|].
  assert (Hin : max_list ((λ p, common_blocks (prompt_blocks prompt n) (prompt_blocks p n))
    <$> served) ∈ ((λ p, common_blocks (prompt_blocks prompt n) (prompt_blocks p n)) <$> served)).
  { apply max_list_elem_of. by destruct served. }
  apply list_elem_of_fmap in Hin as (p & -> & Hp). by apply common_le_held.
Qed.
End held.

(** ** Routed prompts *)

Module RoutedPrompts.

(** Who was given which prompt, oldest first. *)
Abbreviation history := (list (WorkerId * rstr)).

Definition given (w : WorkerId) (hist : history) : list rstr :=
  omap (λ x, if decide (x.1 = w) then Some x.2 else None) hist.

(** A decision, the prompt it was made for, and whether the index had then
    forgotten nothing yet. *)
Record routed := { q_prompt : rstr; q_decision : RouteDecision; q_kept : bool }.

Definition history_of (trace : list routed) : history :=
  (λ q, (w_id (rd_worker (q_decision q)), q_prompt q)) <$> trace.

Section runs.
Context {T : Type} `{BIL : BeliefIndexLaws T} {HM : HashMapOrder} {BH : BlockHash}.
Implicit Types (r : Router.t T) (hist : history).

(** The index holds what was given, and nothing else. *)
Definition believes (n : N) hist (idx : T) : Prop :=
  ∀ w h, bi_holds idx w h = holds_of n (given w hist) h.

(** The index holds nothing but what was given. *)
Definition believes_at_most (n : N) hist (idx : T) : Prop :=
  ∀ w h, bi_holds idx w h = true → holds_of n (given w hist) h = true.

(** What the other tasks of the server do between two selections. *)
Inductive background : Router.t T → Router.t T → Prop :=
| bg_sweep now ttl cap r :
    background r (Router.set_prefix_index (bi_evict now ttl cap (Router.prefix_index r)).2 r)
| bg_mark w healthy r : background r (Health.mark w healthy r)
| bg_watch slices discovered ev r :
    background r (Watch.app (Watch.handle_event
      (slices, {| Watch.app := r; Watch.discovered := discovered |}) ev).2)
| bg_load tracker r : background r (Router.set_inflight tracker r).

(** A run of the router from [r0]: selections of both kinds, one after the
    other, with background steps between them.  The flag says that no
    background step has changed what the index holds. *)
Inductive run {V} (r0 : Router.t T) : bool → list routed → Router.t T → Prop :=
| run_start : run r0 true [] r0
| run_chat kept trace r now (request : ChatCompletionRequest V) d r' :
    run r0 kept trace r →
    Router.select_for_chat now request r = Some (Ok d, r') →
    run r0 kept (trace ++ [{| q_prompt := canonical_prompt request; q_decision := d;
                              q_kept := kept |}]) r'
| run_chat_refused kept trace r now (request : ChatCompletionRequest V) e r' :
    run r0 kept trace r →
    Router.select_for_chat now request r = Some (Err e, r') →
    run r0 kept trace r'
| run_phase kept trace r now (request : ChatCompletionRequest V) pool d r' :
    run r0 kept trace r →
    Router.select_in_pool now pool
      (chain_hash (canonical_prompt request) (Router.block_size r)) r = (Ok d, r') →
    run r0 kept (trace ++ [{| q_prompt := canonical_prompt request; q_decision := d;
                              q_kept := kept |}]) r'
| run_phase_refused kept trace r now (request : ChatCompletionRequest V) pool e r' :
    run r0 kept trace r →
    Router.select_in_pool now pool
      (chain_hash (canonical_prompt request) (Router.block_size r)) r = (Err e, r') →
    run r0 kept trace r'
| run_keeps kept trace r r' :
    run r0 kept trace r → background r r' →
    (∀ w h, bi_holds (Router.prefix_index r') w h = bi_holds (Router.prefix_index r) w h) →
    run r0 kept trace r'
| run_forgets kept trace r r' :
    run r0 kept trace r → background r r' → run r0 false trace r'.

(** What the radix cache says about one decision, after [before]. *)
Definition agrees (n : N) (before : list routed) (q : routed) : Prop :=
  let cached := cached_blocks n
    (given (w_id (rd_worker (q_decision q))) (history_of before)) (q_prompt q) in
  rd_matched_prefix_len (q_decision q) ≤ cached ∧
  (q_kept q = true → rd_matched_prefix_len (q_decision q) = cached) ∧
  rd_prompt_blocks (q_decision q) = length (prompt_blocks (q_prompt q) n).

Lemma given_app w hist1 hist2 : given w (hist1 ++ hist2) = given w hist1 ++ given w hist2.
Proof. apply omap_app. Qed.

Lemma elem_of_given w hist p : p ∈ given w hist → p ∈ hist.*2.
Proof.
  intros ((w' & p') & Hin & Hp)%list_elem_of_omap. cbn in Hp. case_decide; [|done].
  injection Hp as <-. by apply (list_elem_of_fmap_2 snd) in Hin.
Qed.

Lemma history_prompts trace : (history_of trace).*2 = q_prompt <$> trace.
Proof. unfold history_of. by rewrite <-list_fmap_compose. Qed.

Lemma holds_of_mono n served p h :
  holds_of n served h = true → holds_of n (served ++ [p]) h = true.
Proof. unfold holds_of. rewrite existsb_app. by intros ->. Qed.

(** A larger belief has a longer held prefix. *)
Lemma matches_mono (holds1 holds2 : N → bool) chain :
  (∀ h, holds1 h = true → holds2 h = true) →
  held_prefix holds1 chain ≤ held_prefix holds2 chain.
Proof.
  intros Hm. induction chain as [|h chain IH]; simpl; [done|].
  destruct (holds1 h) eqn:H1; [|lia]. rewrite (Hm h H1). lia.
Qed.

(** Recording a prompt extends the history by it. *)
Lemma believes_records n hist r w prompt idx :
  believes n hist (Router.prefix_index r) →
  Router.records r (chain_hash prompt n) w idx →
  believes n (hist ++ [(w_id w, prompt)]) idx.
Proof.
  intros Hb [_ Hh] w' h. rewrite Hh, Hb, given_app. unfold holds_of. rewrite existsb_app.
  f_equal. cbn. destruct (decide (w_id w = w')) as [->|Hne]; simpl.
  - rewrite orb_false_r. apply bool_decide_ext. tauto.
  - apply bool_decide_false. naive_solver.
Qed.

Lemma at_most_records n hist r w prompt idx :
  believes_at_most n hist (Router.prefix_index r) →
  Router.records r (chain_hash prompt n) w idx →
  believes_at_most n (hist ++ [(w_id w, prompt)]) idx.
Proof.
  intros Hb [_ Hh] w' h. rewrite Hh, orb_true_iff, given_app. cbn.
  intros [Hold|[-> Hin]%bool_decide_eq_true].
  - apply Hb in Hold. case_decide; [by apply holds_of_mono|by rewrite app_nil_r].
  - rewrite decide_True by done. apply holds_of_spec. exists prompt.
    split; [apply elem_of_app; right; by left|done].
Qed.

(** Background steps never add a belief. *)
Lemma background_shrinks r r' :
  background r r' → bi_ok (Router.prefix_index r) →
  bi_ok (Router.prefix_index r') ∧ Router.block_size r' = Router.block_size r ∧
  ∀ w h, bi_holds (Router.prefix_index r') w h = true →
         bi_holds (Router.prefix_index r) w h = true.
Proof.
  intros Hstep Hok. destruct Hstep as [now ttl cap r|w healthy r|slices disc ev r|tr r].
  - split_and!; [by apply bi_evict_ok|done|]. intros w h. by apply bi_evict_holds.
  - unfold Health.mark. destruct (WorkerRegistry.set_healthy _ _ _) as [changed reg].
    destruct (_ && _); [|done]. split_and!; [by apply bi_remove_ok|done|].
    intros w' h. cbn. rewrite bi_remove_holds by done. by intros [? _]%andb_true_iff.
  - pose proof (Watch.view_handle_event slices
      {| Watch.app := r; Watch.discovered := disc |} ev) as Hview.
    pose proof (Watch.handle_event_block_size slices
      {| Watch.app := r; Watch.discovered := disc |} ev) as Hn.
    destruct (Discovery.reconcile_shrinks (Watch.desired_urls (Watch.apply_event ev slices))
      (Watch.view {| Watch.app := r; Watch.discovered := disc |})) as [Hok' Hh]; [done|].
    rewrite <-Hview in Hok', Hh. done.
  - done.
Qed.

Lemma chosen_cached n trace kept r r' prompt next d :
  believes_at_most n (history_of trace) (Router.prefix_index r) →
  (kept = true → believes n (history_of trace) (Router.prefix_index r)) →
  (∀ p, p ∈ q_prompt <$> trace → no_collision prompt p n) →
  RouterSpec.chosen r r' (chain_hash prompt n) next d →
  let q := {| q_prompt := prompt; q_decision := d; q_kept := kept |} in
  agrees n trace q ∧
  bi_ok (Router.prefix_index r') ∧ Router.block_size r' = Router.block_size r ∧
  believes_at_most n (history_of (trace ++ [q])) (Router.prefix_index r') ∧
  (kept = true → believes n (history_of (trace ++ [q])) (Router.prefix_index r')).
Proof.
  intros Hm Hb Hc (Hmatch & Hlen & idx & -> & Hrec) q.
  assert (Hc' : ∀ p, p ∈ given (w_id (rd_worker d)) (history_of trace) → no_collision prompt p n).
  { intros p Hp. apply Hc. rewrite <-history_prompts. by eapply elem_of_given. }
  unfold agrees, history_of. rewrite fmap_app. cbn [q q_prompt q_decision q_kept].
  split_and!.
  - rewrite Hmatch. etrans; [|by apply held_le_cached].
    apply matches_mono. intros h. apply Hm.
  - intros Hk. rewrite Hmatch, <-held_is_cached by done.
    apply held_prefix_ext. intros h _. by apply Hb.
  - rewrite Hlen. unfold chain_hash. apply length_chain_loop.
  - apply Hrec.
  - done.
  - by eapply at_most_records.
  - intros Hk. by eapply believes_records; [apply Hb|].
Qed.

Lemma agrees_snoc n trace (q : routed) i q' :
  (∀ i q', trace !! i = Some q' → agrees n (take i trace) q') → agrees n trace q →
  (trace ++ [q]) !! i = Some q' → agrees n (take i (trace ++ [q])) q'.
Proof.
  intros Hall Hq [Hi|[Hle Hi]]%lookup_app_Some.
  - rewrite take_app_le by (apply lookup_lt_Some in Hi; lia). by apply Hall.
  - apply list_lookup_singleton_Some in Hi as [Hi <-].
    rewrite take_app_ge, Hi by done. cbn [take]. by rewrite app_nil_r.
Qed.

(** The invariant of a run, as long as its prompts do not collide. *)
Definition tracks (n : N) (kept : bool) (trace : list routed) (r : Router.t T) : Prop :=
  (∀ q p, q ∈ q_prompt <$> trace → p ∈ q_prompt <$> trace → no_collision q p n) →
  bi_ok (Router.prefix_index r) ∧ Router.block_size r = n ∧
  believes_at_most n (history_of trace) (Router.prefix_index r) ∧
  (kept = true → believes n (history_of trace) (Router.prefix_index r)) ∧
  (∀ i q, trace !! i = Some q → agrees n (take i trace) q).

Lemma tracks_decision n kept trace r r' next prompt d :
  tracks n kept trace r →
  (bi_ok (Router.prefix_index r) →
   RouterSpec.chosen r r' (chain_hash prompt (Router.block_size r)) next d) →
  tracks n kept (trace ++ [{| q_prompt := prompt; q_decision := d; q_kept := kept |}]) r'.
Proof.
  intros IH Hch Hc. setoid_rewrite fmap_app in Hc. setoid_rewrite elem_of_app in Hc.
  destruct IH as (Hok & Hn & Hm & Hb & Hall); [intros; apply Hc; by left|].
  specialize (Hch Hok). rewrite Hn in Hch.
  destruct (chosen_cached n trace kept r r' prompt next d Hm Hb) as (Hq & Hok' & Hn' & Hm' & Hb');
    [intros p Hp; apply Hc; [right; by left|by left]|done|].
  split_and!; [done|congruence|done|done|]. intros i q'. by apply agrees_snoc.
Qed.

Lemma tracks_background n kept kept' trace r r' :
  tracks n kept trace r → background r r' →
  (kept' = true → kept = true ∧
   ∀ w h, bi_holds (Router.prefix_index r') w h = bi_holds (Router.prefix_index r) w h) →
  tracks n kept' trace r'.
Proof.
  intros IH Hbg Hk Hc. destruct (IH Hc) as (Hok & Hn & Hm & Hb & Hall).
  destruct (background_shrinks r r' Hbg Hok) as (Hok' & Hn' & Hh).
  split_and!; [done|congruence| | |done].
  - intros w h Hw. by apply Hm, Hh.
  - intros [Hk' Hsame]%Hk w h. rewrite Hsame. by apply Hb.
Qed.

Lemma run_tracks {V} (r0 r : Router.t T) kept trace :
  run (V := V) r0 kept trace r →
  bi_ok (Router.prefix_index r0) →
  (∀ w h, bi_holds (Router.prefix_index r0) w h = false) →
  tracks (Router.block_size r0) kept trace r.
Proof.
  intros Hrun Hok0 Hempty.
  induction Hrun as [|kept trace r now request d r' Hrun IH Hsel
    |kept trace r now request e r' Hrun IH Hsel|kept trace r now request pool d r' Hrun IH Hsel
    |kept trace r now request pool e r' Hrun IH Hsel
    |kept trace r r' Hrun IH Hbg Hsame|kept trace r r' Hrun IH Hbg].
  - intros _. split_and!; [done|done| | |done]; intros; [congruence|done].
  - eapply tracks_decision; [exact IH|]. intros Hok.
    destruct (select_for_chat_spec now request r Hok) as (out & r1 & Heq & Hout).
    rewrite Hsel in Heq. simplify_eq. apply Hout.
  - intros Hc. destruct (IH Hc) as (Hok & IH').
    destruct (select_for_chat_spec now request r Hok) as (out & r1 & Heq & Hout).
    rewrite Hsel in Heq. simplify_eq. by destruct Hout as [-> _].
  - apply (tracks_decision _ _ _ r r' (Router.next_worker r)); [exact IH|]. intros Hok.
    destruct (Router.select_in_pool_cases now pool (chain_hash (canonical_prompt request)
      (Router.block_size r)) r Hok) as [[_ Heq]|(w & idx & Heq & _ & _ & Hrec)];
      rewrite Heq in Hsel; simplify_eq.
    eapply chosen_intro; [done..| |done]. by destruct r.
  - intros Hc. destruct (IH Hc) as (Hok & IH').
    destruct (Router.select_in_pool_cases now pool (chain_hash (canonical_prompt request)
      (Router.block_size r)) r Hok) as [[_ Heq]|(w & idx & Heq & _)];
      rewrite Heq in Hsel; by simplify_eq.
  - by eapply tracks_background.
  - by eapply tracks_background.
Qed.
End runs.
End RoutedPrompts.

(** ** Properties *)

(** C8.  The router predicts a radix cache.  Take any run from an empty index:
    single-phase and pool selections under any policy, one after the other,
    and between them sweeps, health verdicts, watch events and load changes.
    If no two blocks of the prompts collide, every decision reports the
    prompt's number of blocks and never more matched blocks than the longest
    run of leading blocks that the prompt shares with a prompt sent to that
    worker before; it reports exactly that many as long as no background step
    has taken a block out of the index. *)
Theorem decisions_follow_radix_cache {T} `{BeliefIndexLaws T} {HM : HashMapOrder}
    {BH : BlockHash} {V} (r0 r : Router.t T) (kept : bool) (trace : list RoutedPrompts.routed)
    (Hok : bi_ok (Router.prefix_index r0))
    (Hempty : ∀ w h, bi_holds (Router.prefix_index r0) w h = false)
    (Hrun : RoutedPrompts.run (V := V) r0 kept trace r)
    (Hc : ∀ q p, q ∈ RoutedPrompts.q_prompt <$> trace → p ∈ RoutedPrompts.q_prompt <$> trace →
       no_collision q p (Router.block_size r0)) :
  ∀ i q, trace !! i = Some q →
    RoutedPrompts.agrees (Router.block_size r0) (take i trace) q.
Proof. by apply (RoutedPrompts.run_tracks r0 r kept trace Hrun Hok Hempty). Qed.

Section witnesses.
#[local] Existing Instance hm_canonical.

Definition say (text : string) : ChatCompletionRequest unit :=
  chat_request [{| msg_role := lit "user"; msg_content := lit text |}].

Definition after (text : string) (r : Router.t PrefixIndex.t) :
    option RouteDecision * Router.t PrefixIndex.t :=
  match Router.select_for_chat still (say text) r with
  | Some (Ok d, r') => (Some d, r')
  | _ => (None, r)
  end.

(** Two prompts of the first worker, and a sweep that empties the index. *)
Definition first_turn := after "ab" router_a.
Definition second_turn := after "abef" first_turn.2.
Definition swept : Router.t PrefixIndex.t :=
  Router.set_prefix_index
    (bi_evict 1 0 10 (Router.prefix_index second_turn.2)).2 second_turn.2.
Definition third_turn := after "abef" swept.

Definition asked (text : string) (kept : bool)
    (turn : option RouteDecision * Router.t PrefixIndex.t) : option RoutedPrompts.routed :=
  (λ d, {| RoutedPrompts.q_prompt := canonical_prompt (say text);
           RoutedPrompts.q_decision := d; RoutedPrompts.q_kept := kept |}) <$> turn.1.

Definition conversation : list RoutedPrompts.routed :=
  omap id [asked "ab" true first_turn; asked "abef" true second_turn;
           asked "abef" false third_turn].

Lemma run_after (r0 r : Router.t PrefixIndex.t) kept trace text d :
  (after text r).1 = Some d → RoutedPrompts.run (V := unit) r0 kept trace r →
  RoutedPrompts.run (V := unit) r0 kept
    (trace ++ [{| RoutedPrompts.q_prompt := canonical_prompt (say text);
                  RoutedPrompts.q_decision := d; RoutedPrompts.q_kept := kept |}])
    (after text r).2.
Proof.
  intros Ha Hrun. apply (RoutedPrompts.run_chat _ _ _ r still); [exact Hrun|].
  unfold after in *. destruct (Router.select_for_chat still (say text) r) as [[[d'|e] r'']|];
    by simplify_eq/=.
Qed.

Lemma conversation_run :
  RoutedPrompts.run (V := unit) router_a false conversation third_turn.2.
Proof.
  destruct first_turn.1 as [d1|] eqn:H1; [|by vm_compute in H1].
  destruct second_turn.1 as [d2|] eqn:H2; [|by vm_compute in H2].
  destruct third_turn.1 as [d3|] eqn:H3; [|by vm_compute in H3].
  unfold conversation, asked. rewrite H1, H2, H3.
  pose proof (run_after _ _ _ _ _ _ H1 (RoutedPrompts.run_start router_a)) as Hrun.
  apply (run_after _ _ _ _ _ _ H2) in Hrun.
  eapply RoutedPrompts.run_forgets in Hrun; [|apply (RoutedPrompts.bg_sweep 1 0 10)].
  exact (run_after _ _ _ _ _ _ H3 Hrun).
Qed.

(** The matches reported are 0, 2 and, after the sweep, 0 blocks of four
    characters, where a radix cache that keeps everything has 0, 2 and 3. *)
Theorem decisions_follow_radix_cache_witness :
  ((λ q, rd_matched_prefix_len (RoutedPrompts.q_decision q)) <$> conversation) = [0; 2; 0] ∧
  ∀ i q, conversation !! i = Some q →
    RoutedPrompts.agrees (Router.block_size router_a) (take i conversation) q.
Proof.
  split; [vm_compute; reflexivity|].
  apply (decisions_follow_radix_cache (V := unit) router_a third_turn.2 false conversation
    router_a_index_ok).
  - intros w h. apply (bi_new_holds (T := PrefixIndex.t)).
  - exact conversation_run.
  - assert (Hall : Forall (λ q, Forall (λ p, no_collision q p 4)
      (RoutedPrompts.q_prompt <$> conversation)) (RoutedPrompts.q_prompt <$> conversation))
      by (apply (bool_decide_unpack _); vm_compute; exact I).
    intros q p Hq Hp. rewrite Forall_forall in Hall. specialize (Hall q Hq).
    rewrite Forall_forall in Hall. by apply Hall.
Defined.
End witnesses.
