(* ===== verification/Stress.v ===== *)
(** * The stress test ([router-core/src/inflight.rs], [concurrent_hammering...])

    Tasks that each take a guard, record their chain, match it, sleep and drop
    the guard, over and over, on eight threads.  The tasks run at the grain of
    their locks: before every access to the shared vector of counters or to a
    shard of the index a task takes the lock that the code takes, waits while it
    is not available, and releases it afterwards.  Every interleaving is a run of
    the step relation below.  None of them deadlocks, each comes to an end, and
    there the assertions of the test hold.  The timeout of the test is about wall
    clock time and is not modelled. *)

From S2P Require Import Prelude Text Hashing Config Worker Inflight Belief Prefix Concurrent.

Module Stress.

(** ** Locks *)

(** The lock of the counters, and those of the shards. *)
Inductive lock := Counts | Shard (i : nat).
Inductive mode := Read | Write.

#[export] Instance lock_eq_dec : EqDecision lock.
Proof. solve_decision. Defined.

#[export] Instance mode_eq_dec : EqDecision mode.
Proof. solve_decision. Defined.

(** The lock under which a call on the index makes its next access; [None] for
    a step that touches no shard. *)
Definition call_lock (call : IndexThread.t) : option (lock * mode) :=
  let shard i mode := if decide (i < N.to_nat PrefixIndex.NUM_SHARDS) then Some (Shard i, mode) else None in
  match call with
  | IndexThread.Recording _ _ (hash :: _) | IndexThread.Touching _ _ (hash :: _) =>
      Some (Shard (PrefixIndex.shard_index hash), Write)
  | IndexThread.Matching _ (hash :: _) _ => Some (Shard (PrefixIndex.shard_index hash), Read)
  | IndexThread.Removing _ i | IndexThread.Expiring _ _ _ i _ => shard i Write
  | IndexThread.Counting i _ | IndexThread.Totalling _ _ i _ | IndexThread.Collecting _ _ i _ =>
      shard i Read
  | IndexThread.Trimming _ ((_, _, i) :: _) _ => Some (Shard i, Write)
  | _ => None
  end.

(** ** Tasks *)

(** Where a task is in its loop; after [Idle] comes the guard, and the sleep
    comes before its drop. *)
Inductive phase :=
  | Idle
  | Running (guard : InflightGuard.t) (call : IndexThread.t)
  | Sleeping (guard : InflightGuard.t).

(** Where it is around the lock of its next access. *)
Inductive stage := Entering | Inside (taken : lock * mode) | Leaving (taken : lock * mode).

Record task := {
  worker : WorkerId;
  chain : list N;
  (** Iterations left, the current one included. *)
  rounds : nat;
  at_ : phase;
  stage_ : stage;
  held : list (lock * mode);
}.

Record t := { tracker : InflightTracker.t; index : PrefixIndex.t; tasks : list task }.

Definition moved (k : task) (n : nat) (p : phase) : task := {|
  worker := worker k; chain := chain k; rounds := n; at_ := p;
  stage_ := stage_ k; held := held k |}.

(** The next access of a task and its lock, if it takes one; [None] when the
    task has finished. *)
Definition needs (k : task) : option (option (lock * mode)) :=
  match at_ k with
  | Idle => match rounds k with O => None | S _ => Some (Some (Counts, Read)) end
  | Running _ call => Some (call_lock call)
  | Sleeping _ => Some (Some (Counts, Read))
  end.

(** What the access does. *)
Definition perform {HM : HashMapOrder} (now : instant) (k : task) (tr : InflightTracker.t)
    (idx : PrefixIndex.t) : option (task * InflightTracker.t * PrefixIndex.t) :=
  match at_ k with
  | Idle =>
      match rounds k with
      | O => None
      | S _ =>
          let '(guard, tr) := InflightGuard.acquire tr (worker k) in
          Some (moved k (rounds k) (Running guard
                  (IndexThread.start now (IndexThread.CallRecord (worker k) (chain k)))), tr, idx)
      end
  | Running guard (IndexThread.Returned IndexThread.Recorded) =>
      Some (moved k (rounds k) (Running guard
              (IndexThread.start now (IndexThread.CallLongestMatch (worker k) (chain k)))), tr, idx)
  | Running guard (IndexThread.Returned _) => Some (moved k (rounds k) (Sleeping guard), tr, idx)
  | Running guard call =>
      '(call, a) ← IndexThread.advance now call idx;
      Some (moved k (rounds k) (Running guard call), tr, Section_.apply a idx)
  | Sleeping guard => Some (moved k (rounds k - 1) Idle, InflightGuard.drop guard tr, idx)
  end.

(** A task may take a lock that it does not hold already and that nobody else
    holds, unless both only read.  (Whether the lock lets readers pass waiting
    writers does not matter below: a task that holds a lock never waits.) *)
Definition available (l : lock) (m : mode) (k : task) (others : list task) : Prop :=
  (∀ m', (l, m') ∉ held k) ∧
  ∀ k' m', k' ∈ others → (l, m') ∈ held k' → m = Read ∧ m' = Read.

Definition at_stage (x : stage) (hs : list (lock * mode)) (k : task) : task := {|
  worker := worker k; chain := chain k; rounds := rounds k; at_ := at_ k;
  stage_ := x; held := hs |}.

(** The lock is taken; the access is over; the lock is released. *)
Definition enter (taken : lock * mode) (k : task) : task :=
  at_stage (Inside taken) (taken :: held k) k.

Definition accessed (taken : lock * mode) (k : task) : task :=
  at_stage (Leaving taken) (held k) k.

Definition leave (taken : lock * mode) (k : task) : task :=
  at_stage Entering (filter (λ x, x ≠ taken) (held k)) k.

Definition put (i : nat) (k : task) (s : t) : t :=
  {| tracker := tracker s; index := index s; tasks := <[i := k]> (tasks s) |}.

Section steps.
Context {HM : HashMapOrder}.

(** Task [i] makes a step. *)
Inductive step (i : nat) : t → t → Prop :=
  | step_take l m k s :
      tasks s !! i = Some k → stage_ k = Entering → needs k = Some (Some (l, m)) →
      available l m k (delete i (tasks s)) →
      step i s (put i (enter (l, m) k) s)
  | step_access now taken k k' tr idx s :
      tasks s !! i = Some k → stage_ k = Inside taken →
      perform now k (tracker s) (index s) = Some (k', tr, idx) →
      step i s (put i (accessed taken k') {| tracker := tr; index := idx; tasks := tasks s |})
  | step_local now k k' tr idx s :
      tasks s !! i = Some k → stage_ k = Entering → needs k = Some None →
      perform now k (tracker s) (index s) = Some (k', tr, idx) →
      step i s (put i k' {| tracker := tr; index := idx; tasks := tasks s |})
  | step_release taken k s :
      tasks s !! i = Some k → stage_ k = Leaving taken →
      step i s (put i (leave taken k) s).

Definition some_step (s s' : t) : Prop := ∃ i, step i s s'.
End steps.

(** [TASKS] tasks, the [i]-th with the [i]-th chain. *)
Definition spawned (n : nat) (i : nat) (c : list N) : task := {|
  worker := N.of_nat i; chain := c; rounds := n; at_ := Idle; stage_ := Entering; held := [] |}.

Definition initial (n : nat) (chains : list (list N)) : t := {|
  tracker := InflightTracker.with_capacity (length chains);
  index := PrefixIndex.new;
  tasks := imap (spawned n) chains |}.

Definition finished (k : task) : Prop := at_ k = Idle ∧ rounds k = 0 ∧ held k = [].

#[export] Instance finished_dec k : Decision (finished k).
Proof.
  unfold finished. destruct (at_ k); [|by right; intros [? _]..].
  destruct (decide (rounds k = 0 ∧ held k = [])); [by left|by right; intros [_ ?]].
Defined.

(** ** Guards *)

Definition guard_of (k : task) : option InflightGuard.t :=
  match at_ k with
  | Idle => None
  | Running guard _ | Sleeping guard => Some guard
  end.

Definition guards (s : t) : list InflightGuard.t := omap guard_of (tasks s).

(** The guards when task [i] is at [k]. *)
Lemma guards_insert i k k0 (ks : list task) :
  ks !! i = Some k0 →
  omap guard_of (<[i := k]> ks) ≡ₚ option_list (guard_of k) ++ omap guard_of (delete i ks).
Proof.
  intros Hi. pose proof (lookup_lt_Some _ _ _ Hi) as Hlt.
  rewrite insert_take_drop, delete_take_drop by done. rewrite !omap_app. cbn [omap list_omap].
  destruct (guard_of k) as [g|]; [|done]. cbn. by rewrite Permutation_middle.
Qed.

Lemma guards_at i k (ks : list task) :
  ks !! i = Some k → omap guard_of ks ≡ₚ option_list (guard_of k) ++ omap guard_of (delete i ks).
Proof. intros Hi. rewrite <-(list_insert_id ks i k Hi) at 1. by eapply guards_insert. Qed.

Lemma no_guards ks : (∀ k, k ∈ ks → at_ k = Idle) → omap guard_of ks = [].
Proof.
  intros Hk. induction ks as [|k ks IH]; [done|]. cbn [omap list_omap].
  unfold guard_of at 1. rewrite Hk by by left. apply IH. intros j Hj. apply Hk. by right.
Qed.

Definition slots tr gs : Inflight.state := {| Inflight.tracker := tr; Inflight.guards := gs |}.

Definition counted tr gs : Prop :=
  Inflight.accounted (slots tr gs) ∧ Inflight.totalled (slots tr gs).

Lemma pool_counted_perm tr gs gs' : gs ≡ₚ gs' → counted tr gs → counted tr gs'.
Proof.
  intros Hp [Ha Ht]. split; [by eapply Inflight.accounted_perm|].
  unfold Inflight.totalled in *. cbn in *. by rewrite <-Hp.
Qed.

#[export] Instance counted_proper tr : Proper ((≡ₚ) ==> iff) (counted tr).
Proof. intros gs gs' Hp. by split; apply pool_counted_perm. Qed.

Lemma pool_counted_step tr gs tr' gs' :
  Inflight.step InflightTracker.tracks (slots tr gs) (slots tr' gs') →
  counted tr gs → counted tr' gs'.
Proof.
  intros Hs [Ha Ht]. split; [by eapply Inflight.accounted_step|by eapply Inflight.totalled_step].
Qed.

(** ** The invariant *)

(** Calls that the test makes, on the blocks of [ch]. *)
Definition test_call (ch : list N) (call : IndexThread.t) : Prop :=
  match call with
  | IndexThread.Recording _ _ rest => ∀ h, h ∈ rest → h ∈ ch
  | IndexThread.Matching _ _ _ | IndexThread.Touching _ _ _ => True
  | IndexThread.Returned IndexThread.Recorded | IndexThread.Returned (IndexThread.Matched _) => True
  | _ => False
  end.

(** What a task holds, and where. *)
Record task_ok (k : task) : Prop := {
  ok_held : held k =
    match stage_ k with Entering => [] | Inside taken | Leaving taken => [taken] end;
  ok_inside taken : stage_ k = Inside taken → needs k = Some (Some taken);
  ok_call g call : at_ k = Running g call → test_call (chain k) call;
}.

(** The task has recorded block [h] of its chain. *)
Definition has_recorded (n : nat) (k : task) (h : N) : Prop :=
  rounds k < n ∨
  match at_ k with
  | Idle => False
  | Running _ (IndexThread.Recording _ _ rest) => h ∉ rest
  | _ => True
  end.

Record inv (n : nat) (chains : list (list N)) (s : t) : Prop := {
  inv_counted : counted (tracker s) (guards s);
  inv_tasks k : k ∈ tasks s → task_ok k ∧ InflightTracker.tracks (worker k) (tracker s);
  inv_chains : chain <$> tasks s = chains;
  inv_sharded : PrefixIndex.sharded (index s);
  inv_keys h : is_Some (PrefixIndex.flatten (index s) !! h) → h ∈ concat chains;
  inv_recorded k h : k ∈ tasks s → has_recorded n k h → h ∈ chain k →
    is_Some (PrefixIndex.flatten (index s) !! h);
}.

Section invariant.
Context {HM : HashMapOrder}.

(** What a section of a test call does to the keys of the index. *)
Lemma section_keys now call idx call' a ch :
  IndexThread.advance now call idx = Some (call', a) → test_call ch call →
  PrefixIndex.sharded idx →
  test_call ch call' ∧ PrefixIndex.sharded (Section_.apply a idx) ∧
  (∀ h, is_Some (PrefixIndex.flatten idx !! h) →
        is_Some (PrefixIndex.flatten (Section_.apply a idx) !! h)) ∧
  (∀ h, is_Some (PrefixIndex.flatten (Section_.apply a idx) !! h) →
        is_Some (PrefixIndex.flatten idx !! h) ∨ h ∈ ch) ∧
  (∀ at_ w rest h, call = IndexThread.Recording at_ w rest → h ∈ rest →
     (∃ rest', call' = IndexThread.Recording at_ w rest' ∧ h ∈ rest') ∨
     is_Some (PrefixIndex.flatten (Section_.apply a idx) !! h)).
Proof.
  intros Ha Hc Hs. destruct (SectionEffect.apply_refines a idx Hs) as [Hs' He].
  assert (Hkeys : test_call ch call' ∧
    (a = Section_.ReadOnly ∨ (∃ now' h, a = Section_.Touch now' h) ∨
     ∃ now' w h, a = Section_.Record now' w h ∧ h ∈ ch)).
  { destruct call as [at_ w [|h ch']|w [|h ch'] hs|at_ m [|h hs]| | | | | | |[]]; cbn in Ha; try done;
      repeat case_match; simplify_eq; split; try done; try (by left); try (right; left; by eauto).
    - intros h' Hh'. apply Hc. by right.
    - right. right. eexists _, _, _. split; [done|]. apply Hc. by left. }
  destruct Hkeys as [Hc' Hkinds]. split; [done|]. split; [done|].
  destruct Hkinds as [->|[(now' & h0 & ->)|(now' & w0 & h0 & -> & Hh0)]].
  - split_and!; [done|by left|]. intros at_ w rest h -> Hh. left. destruct rest as [|h' rest]; [|done].
    by apply not_elem_of_nil in Hh.
  - assert (Hd : ∀ h, is_Some (PrefixIndex.flatten (Section_.apply (Section_.Touch now' h0) idx) !! h)
      ↔ is_Some (PrefixIndex.flatten idx !! h)).
    { intros h. rewrite He. cbn [SectionEffect.effect]. case_decide; [|done]. by rewrite fmap_is_Some. }
    split_and!; [by intros h ?%Hd|by intros h ?%Hd; left|].
    intros at_ w rest h -> Hh. cbn in Ha. by destruct rest.
  - assert (Hd : ∀ h, is_Some (PrefixIndex.flatten (Section_.apply (Section_.Record now' w0 h0) idx)
      !! h) ↔ is_Some (PrefixIndex.flatten idx !! h) ∨ h = h0).
    { intros h. rewrite He. cbn [SectionEffect.effect]. case_decide; [|naive_solver].
      split; [by right|by eexists]. }
    split_and!; [by intros h ?; apply Hd; left|intros h [?| ->]%Hd; [by left|by right]|].
    intros at_ w rest h -> Hh. cbn in Ha. destruct rest as [|h' rest]; [done|]. simplify_eq.
    apply elem_of_cons in Hh as [->|Hh]; [right; apply Hd; by right|left; by eexists].
Qed.

Lemma perform_running now k g call tr idx :
  at_ k = Running g call → (∀ r, call ≠ IndexThread.Returned r) →
  perform now k tr idx =
    ('(call', a) ← IndexThread.advance now call idx;
     Some (moved k (rounds k) (Running g call'), tr, Section_.apply a idx)).
Proof. intros Hk Hr. unfold perform. rewrite Hk. by destruct call as [| | | | | | | | |r]; [..|destruct (Hr r)]. Qed.

Lemma returned_dec (call : IndexThread.t) :
  (∃ r, call = IndexThread.Returned r) ∨ ∀ r, call ≠ IndexThread.Returned r.
Proof. destruct call; eauto. Qed.

(** What an access does to the index, and to what the task has recorded. *)
Lemma perform_index now k tr idx k' tr' idx' :
  perform now k tr idx = Some (k', tr', idx') → task_ok k → PrefixIndex.sharded idx →
  (∀ g call, at_ k' = Running g call → test_call (chain k) call) ∧
  PrefixIndex.sharded idx' ∧
  (∀ h, is_Some (PrefixIndex.flatten idx !! h) → is_Some (PrefixIndex.flatten idx' !! h)) ∧
  (∀ h, is_Some (PrefixIndex.flatten idx' !! h) →
     is_Some (PrefixIndex.flatten idx !! h) ∨ h ∈ chain k) ∧
  (∀ n h, has_recorded n k' h → h ∈ chain k →
     has_recorded n k h ∨ is_Some (PrefixIndex.flatten idx' !! h)).
Proof.
  intros Hp Hok Hs. pose proof (ok_call k Hok) as Hcall.
  destruct (at_ k) as [|g call|g] eqn:Hat.
  - unfold perform in Hp. rewrite Hat in Hp. destruct (rounds k) as [|m] eqn:Hm; [done|].
    injection Hp as <- <- <-. cbn. split_and!; try done; [intros ? ? [= <- <-]; cbn; auto|by left|].
    intros n h [Hn|Hf] Hh; [left; left; cbn in Hn; lia|done].
  - destruct (returned_dec call) as [[r ->]|Hr].
    { specialize (Hcall g _ eq_refl). unfold perform in Hp. rewrite Hat in Hp.
      destruct r as [|m| | |]; try done; injection Hp as <- <- <-;
        cbn; split_and!; try done; try (by left);
        [by intros ? ? [= <- <-]|intros n h _ _; left; right; by rewrite Hat..]. }
    rewrite (perform_running now k g call tr idx Hat Hr) in Hp.
    destruct (IndexThread.advance now call idx) as [[call' a]|] eqn:Ha; [|done].
    injection Hp as <- <- <-. cbn.
    destruct (section_keys now call idx call' a (chain k) Ha (Hcall g call eq_refl) Hs)
      as (Hc' & Hs' & Hgrow & Hnew & Hrec).
    split_and!; [by intros ? ? [= <- <-]|done|done|done|].
    intros n h Hpast Hh.
    destruct call as [at_' w rest| | | | | | | | |]; try (left; right; by rewrite Hat).
    destruct (decide (h ∈ rest)) as [Hin|Hin]; [|left; right; by rewrite Hat].
    destruct (Hrec at_' w rest h eq_refl Hin) as [(rest' & -> & Hin')|?]; [|by right].
    left. left. destruct Hpast as [?|Hpast]; done.
  - unfold perform in Hp. rewrite Hat in Hp.
    injection Hp as <- <- <-. cbn. split_and!; try done; [by left|].
    intros n h _ _. left. right. by rewrite Hat.
Qed.

(** What an access keeps of its task. *)
Lemma perform_frame now k tr idx k' tr' idx' :
  perform now k tr idx = Some (k', tr', idx') →
  worker k' = worker k ∧ chain k' = chain k ∧ stage_ k' = stage_ k ∧ held k' = held k.
Proof.
  intros Hp. destruct (at_ k) as [|g call|g] eqn:Hat.
  - unfold perform in Hp. rewrite Hat in Hp. destruct (rounds k); [done|]. by injection Hp as <- _ _.
  - destruct (returned_dec call) as [[r ->]|Hr].
    { unfold perform in Hp. rewrite Hat in Hp. by destruct r; injection Hp as <- _ _. }
    rewrite (perform_running now k g call tr idx Hat Hr) in Hp.
    destruct (IndexThread.advance now call idx) as [[call' a]|]; [|done]. by injection Hp as <- _ _.
  - unfold perform in Hp. rewrite Hat in Hp. by injection Hp as <- _ _.
Qed.

(** What it does to the guards alive. *)
Lemma perform_guards now k tr idx k' tr' idx' gs :
  perform now k tr idx = Some (k', tr', idx') → InflightTracker.tracks (worker k) tr →
  counted tr (option_list (guard_of k) ++ gs) →
  counted tr' (option_list (guard_of k') ++ gs) ∧
  ∀ w, InflightTracker.tracks w tr → InflightTracker.tracks w tr'.
Proof.
  intros Hp Hw. unfold guard_of at 1. destruct (at_ k) as [|g call|g] eqn:Hat.
  - unfold perform in Hp. rewrite Hat in Hp. destruct (rounds k); [done|]. injection Hp as <- <- <-.
    intros Hc. split; [|intros w'; by apply Inflight.tracks_increment].
    eapply pool_counted_step; [|exact Hc]. by apply (Inflight.step_acquire _ (worker k)).
  - destruct (returned_dec call) as [[r ->]|Hr].
    { unfold perform in Hp. rewrite Hat in Hp. by destruct r; injection Hp as <- <- <-. }
    rewrite (perform_running now k g call tr idx Hat Hr) in Hp.
    destruct (IndexThread.advance now call idx) as [[call' a]|]; [|done]. by injection Hp as <- <- <-.
  - unfold perform in Hp. rewrite Hat in Hp. injection Hp as <- <- <-. intros Hc.
    split; [|intros w'; by apply Inflight.tracks_decrement].
    eapply pool_counted_step; [|exact Hc]. apply (Inflight.step_drop _ g tr []).
Qed.

(** A step replaces one task; everything else about the pool is what the
    access does. *)
Lemma inv_replace n chains i k k' tr idx s :
  inv n chains s → tasks s !! i = Some k →
  task_ok k' → worker k' = worker k → chain k' = chain k →
  counted tr (option_list (guard_of k') ++ omap guard_of (delete i (tasks s))) →
  (∀ w, InflightTracker.tracks w (tracker s) → InflightTracker.tracks w tr) →
  PrefixIndex.sharded idx →
  (∀ h, is_Some (PrefixIndex.flatten (index s) !! h) → is_Some (PrefixIndex.flatten idx !! h)) →
  (∀ h, is_Some (PrefixIndex.flatten idx !! h) →
     is_Some (PrefixIndex.flatten (index s) !! h) ∨ h ∈ chain k) →
  (∀ h, has_recorded n k' h → h ∈ chain k →
     has_recorded n k h ∨ is_Some (PrefixIndex.flatten idx !! h)) →
  inv n chains (put i k' {| tracker := tr; index := idx; tasks := tasks s |}).
Proof.
  intros [Hc Ht Hch Hsh Hkeys Hrec] Hi Hok Hw Hcn Hc' Htr Hs' Hgrow Hnew Hpast.
  pose proof (list_elem_of_lookup_2 _ _ _ Hi) as Hk.
  assert (Hin : ∀ j, j ∈ <[i := k']> (tasks s) → j = k' ∨ j ∈ tasks s).
  { intros j (x & Hx)%list_elem_of_lookup. rewrite list_lookup_insert in Hx.
    case_decide; [left; by simplify_eq|right; by eapply list_elem_of_lookup_2]. }
  split; cbn [put tracker index tasks].
  - unfold guards. cbn [put tasks]. by rewrite (guards_insert i k' k _ Hi).
  - intros j [->|Hj]%Hin; [split; [done|]; apply Htr; rewrite Hw; by apply Ht|].
    split; [by apply Ht|by apply Htr, Ht].
  - rewrite list_fmap_insert, Hcn, <-Hch. apply list_insert_id. by rewrite list_lookup_fmap, Hi.
  - done.
  - intros h [Hh|Hh]%Hnew; [by apply Hkeys|]. rewrite <-Hch. apply list_elem_of_In, in_concat.
    exists (chain k). split; [|by apply list_elem_of_In]. apply list_elem_of_In, list_elem_of_fmap.
    by exists k.
  - intros j h [->|Hj]%Hin Hr Hh; [|by eapply Hgrow, Hrec]. rewrite Hcn in Hh.
    destruct (Hpast h Hr Hh) as [Hr'|Hd]; [|done]. by eapply Hgrow, Hrec.
Qed.

(** A step that only moves around a lock. *)
Lemma inv_stage n chains i k x hs s :
  inv n chains s → tasks s !! i = Some k → task_ok (at_stage x hs k) →
  inv n chains (put i (at_stage x hs k) s).
Proof.
  intros Hi Hk Hok. destruct s as [tr idx ks].
  apply (inv_replace n chains i k (at_stage x hs k) tr idx _ Hi Hk Hok); [done..| |done|apply Hi|
    done|by left|by left].
  destruct Hi as [Hc _ _ _ _ _]. unfold guards in Hc. cbn in Hc, Hk |- *.
  rewrite (guards_at i k ks Hk) in Hc. exact Hc.
Qed.

Lemma inv_perform n chains i now k k' tr idx x hs s :
  inv n chains s → tasks s !! i = Some k →
  perform now k (tracker s) (index s) = Some (k', tr, idx) → task_ok (at_stage x hs k') →
  inv n chains (put i (at_stage x hs k') {| tracker := tr; index := idx; tasks := tasks s |}).
Proof.
  intros Hi Hk Hp Hok. pose proof (list_elem_of_lookup_2 _ _ _ Hk) as Hin.
  destruct (inv_tasks _ _ _ Hi k Hin) as [Hokk Htr].
  destruct (perform_index _ _ _ _ _ _ _ Hp Hokk (inv_sharded _ _ _ Hi))
    as (_ & Hs' & Hgrow & Hnew & Hpast).
  destruct (perform_frame _ _ _ _ _ _ _ Hp) as (Hw & Hcn & _ & _).
  destruct (perform_guards _ _ _ _ _ _ _ (omap guard_of (delete i (tasks s))) Hp Htr) as [Hc' Htr'].
  { rewrite <-(guards_at i k _ Hk). apply Hi. }
  eapply inv_replace; [done..|exact (Hpast n)].
Qed.

Lemma pool_inv_step n chains i s s' : step i s s' → inv n chains s → inv n chains s'.
Proof.
  intros Hs Hi.
  destruct Hs as [l m k s Hk Hst Hn Ha|now taken k k' tr idx s Hk Hst Hp|now k k' tr idx s Hk Hst Hn Hp
    |taken k s Hk Hst];
    destruct (inv_tasks _ _ _ Hi k (list_elem_of_lookup_2 _ _ _ Hk)) as [Hok _];
    pose proof (ok_held k Hok) as Hh; rewrite Hst in Hh.
  - apply inv_stage; [done..|]. rewrite Hh. split; cbn; [done|by intros ? [= <-]|apply Hok].
  - destruct (perform_frame _ _ _ _ _ _ _ Hp) as (_ & Hcn & _ & Hh').
    destruct (perform_index _ _ _ _ _ _ _ Hp Hok (inv_sharded _ _ _ Hi)) as (Hcall & _).
    eapply inv_perform; [done..|]. split; cbn; [by rewrite Hh', Hh|done|by rewrite Hcn].
  - destruct (perform_frame _ _ _ _ _ _ _ Hp) as (_ & Hcn & Hst' & Hh').
    destruct (perform_index _ _ _ _ _ _ _ Hp Hok (inv_sharded _ _ _ Hi)) as (Hcall & _).
    replace k' with (at_stage Entering [] k').
    2:{ destruct k'. cbn in *. by rewrite Hst', Hst, Hh', Hh. }
    eapply inv_perform; [done..|]. split; cbn; [done|done|by rewrite Hcn].
  - apply inv_stage; [done..|]. rewrite Hh, filter_cons_False, filter_nil by tauto.
    split; cbn; [done|done|apply Hok].
Qed.

Lemma pool_inv_initial n chains : inv n chains (initial n chains).
Proof.
  assert (Hk : ∀ k, k ∈ tasks (initial n chains) →
    at_ k = Idle ∧ rounds k = n ∧ N.to_nat (worker k) < length chains ∧
    stage_ k = Entering ∧ held k = []).
  { intros k (i & c & -> & Hc)%elem_of_lookup_imap. split_and!; [done|done| |done|done].
    cbn. rewrite Nat2N.id. by eapply lookup_lt_Some. }
  assert (Hg : guards (initial n chains) = []).
  { apply no_guards. intros k Hin. by apply Hk. }
  split.
  - rewrite Hg. split; [apply Inflight.accounted_initial|apply Inflight.totalled_initial].
  - intros k Hin. destruct (Hk k Hin) as (Ha & _ & Hw & Hst & Hh). split.
    + split; [by rewrite Hst, Hh|by rewrite Hst|by rewrite Ha].
    + unfold InflightTracker.tracks. cbn. by rewrite length_replicate.
  - cbn. rewrite fmap_imap. apply list_eq. intros i. rewrite list_lookup_imap.
    by destruct (chains !! i).
  - apply ShardedRefinesFlat.sharded_new.
  - intros h. cbn [index initial]. rewrite ShardedRefinesFlat.flatten_new, lookup_empty. by intros [? ?].
  - intros k h Hin [Hr|Hr]; destruct (Hk k Hin) as (Ha & Hn & _); [lia|]. by rewrite Ha in Hr.
Qed.

(** ** Progress *)

(** An access that is due can be made. *)
Lemma perform_total now k tr idx :
  task_ok k → needs k ≠ None → is_Some (perform now k tr idx).
Proof.
  intros Hok Hn. unfold needs in Hn. destruct (at_ k) as [|g call|g] eqn:Hat.
  - unfold perform. rewrite Hat. by destruct (rounds k).
  - pose proof (ok_call k Hok g call Hat) as Hcall.
    destruct (returned_dec call) as [[r ->]|Hr].
    { unfold perform. rewrite Hat. by destruct r. }
    rewrite (perform_running now k g call tr idx Hat Hr).
    destruct call as [at_' w [|]|w [|] hs|at_' m [|]| | | | | | |r]; try done; cbn;
      repeat case_match; try done; by destruct (Hr r).
  - unfold perform. by rewrite Hat.
Qed.

(** A task that holds a lock does not wait: its next step is enabled. *)
Lemma holder_steps n chains i k s :
  inv n chains s → tasks s !! i = Some k → held k ≠ [] → ∃ s', step i s s'.
Proof.
  intros Hi Hk Hh. destruct (inv_tasks _ _ _ Hi k (list_elem_of_lookup_2 _ _ _ Hk)) as [Hok _].
  rewrite (ok_held k Hok) in Hh. destruct (stage_ k) as [|taken|taken] eqn:Hst; [done| |].
  - destruct (perform_total 0%N k (tracker s) (index s) Hok) as [[[k' tr] idx] Hp].
    { by rewrite (ok_inside k Hok taken Hst). }
    eexists. by eapply step_access.
  - eexists. by eapply step_release.
Qed.

(** And nobody waits when no lock is held. *)
Lemma unfinished_steps n chains i k s :
  inv n chains s → tasks s !! i = Some k → ¬ finished k →
  Forall (λ k, held k = []) (tasks s) → ∃ s', step i s s'.
Proof.
  intros Hi Hk Hf Hnone. pose proof (list_elem_of_lookup_2 _ _ _ Hk) as Hin.
  destruct (inv_tasks _ _ _ Hi k Hin) as [Hok _]. rewrite Forall_forall in Hnone.
  pose proof (Hnone k Hin) as Hh. pose proof (ok_held k Hok) as Hh'. rewrite Hh in Hh'.
  destruct (stage_ k) eqn:Hst; [|done..].
  destruct (needs k) as [[[l m]|]|] eqn:Hn.
  - eexists. eapply step_take; [done..|]. split.
    + rewrite Hh. intros m'. apply not_elem_of_nil.
    + intros k' m' Hk' Hl. rewrite (Hnone k') in Hl; [by apply not_elem_of_nil in Hl|].
      eapply elem_of_submseteq; [exact Hk'|]. apply sublist_submseteq, sublist_delete.
  - destruct (perform_total 0%N k (tracker s) (index s) Hok) as [[[k' tr] idx] Hp]; [by rewrite Hn|].
    eexists. by eapply step_local.
  - exfalso. apply Hf. unfold needs in Hn. unfold finished.
    destruct (at_ k); [destruct (rounds k)|..]; done.
Qed.

(** So some task can go on as long as one has not finished. *)
Lemma some_task_steps n chains s :
  inv n chains s → ¬ Forall finished (tasks s) → ∃ s', some_step s s'.
Proof.
  intros Hi Hf. destruct (decide (Forall (λ k, held k = []) (tasks s))) as [Hnone|Hsome].
  - apply not_Forall_Exists in Hf; [|apply _].
    apply Exists_exists in Hf as (k & (i & Hk)%list_elem_of_lookup & Hnf).
    destruct (unfinished_steps n chains i k s Hi Hk Hnf Hnone) as [s' Hs]. by exists s', i.
  - apply not_Forall_Exists in Hsome; [|apply _].
    apply Exists_exists in Hsome as (k & (i & Hk)%list_elem_of_lookup & Hh).
    destruct (holder_steps n chains i k s Hi Hk Hh) as [s' Hs]. by exists s', i.
Qed.

(** Accesses left, at most: each block of the chain is recorded once, read once
    and touched at most once per iteration. *)
Definition call_left (call : IndexThread.t) : nat :=
  match call with
  | IndexThread.Recording _ _ rest => length rest + 1
  | IndexThread.Matching _ rest ms => length ms + 2 * length rest + 2
  | IndexThread.Touching _ _ hs => length hs + 1
  | _ => 0
  end.

Definition records_now (call : IndexThread.t) : bool :=
  match call with
  | IndexThread.Recording _ _ _ | IndexThread.Returned IndexThread.Recorded => true
  | _ => false
  end.

Definition round_length (ch : list N) : nat := 3 * length ch + 7.

Definition left_ (k : task) : nat :=
  match at_ k with
  | Idle => rounds k * round_length (chain k)
  | Running _ call =>
      (rounds k - 1) * round_length (chain k) + call_left call + 2 +
      (if records_now call then 2 * length (chain k) + 3 else 0)
  | Sleeping _ => (rounds k - 1) * round_length (chain k) + 1
  end.

(** Steps left, at most: taking a lock, the access, releasing it. *)
Definition steps_left (k : task) : nat :=
  match stage_ k with
  | Entering => 3 * left_ k
  | Inside _ => 3 * left_ k - 1
  | Leaving _ => 3 * left_ k + 1
  end.

Definition measure (s : t) : nat := sum_list_with steps_left (tasks s).

Lemma call_left_advance now call idx call' a ch :
  IndexThread.advance now call idx = Some (call', a) → test_call ch call →
  call_left call' < call_left call ∧ records_now call' = records_now call.
Proof.
  destruct call as [at_ w [|h ch']|w [|h ch'] hs|at_ m [|h hs]| | | | | | |[]]; cbn; try done;
    intros Ha _; repeat case_match; simplify_eq; cbn; rewrite ?length_app; cbn; split; done || lia.
Qed.

Lemma perform_left now k tr idx k' tr' idx' :
  perform now k tr idx = Some (k', tr', idx') → task_ok k → left_ k' < left_ k.
Proof.
  intros Hp Hok. pose proof (ok_call k Hok) as Hcall. unfold left_ at 2.
  destruct (at_ k) as [|g call|g] eqn:Hat.
  - unfold perform in Hp. rewrite Hat in Hp. destruct (rounds k) as [|m] eqn:Hm; [done|].
    injection Hp as <- <- <-. unfold left_. cbn. unfold round_length. nia.
  - specialize (Hcall g call eq_refl). destruct (returned_dec call) as [[r ->]|Hr].
    { unfold perform in Hp. rewrite Hat in Hp. destruct r; try done; injection Hp as <- <- <-;
        unfold left_; cbn; lia. }
    rewrite (perform_running now k g call tr idx Hat Hr) in Hp.
    destruct (IndexThread.advance now call idx) as [[call' a]|] eqn:Ha; [|done].
    injection Hp as <- <- <-. unfold left_. cbn.
    destruct (call_left_advance _ _ _ _ _ _ Ha Hcall) as [? ->]. lia.
  - unfold perform in Hp. rewrite Hat in Hp. injection Hp as <- <- <-. unfold left_. cbn. lia.
Qed.

(** A due access leaves something to do. *)
Lemma needs_left k : needs k ≠ None → 0 < left_ k.
Proof.
  unfold needs, left_. destruct (at_ k) as [| |]; intros Hn; [|nia..].
  destruct (rounds k); [done|]. unfold round_length. nia.
Qed.

Lemma sum_insert i k k' (ks : list task) :
  ks !! i = Some k → steps_left k' < steps_left k →
  sum_list_with steps_left (<[i := k']> ks) < sum_list_with steps_left ks.
Proof.
  intros Hi Hlt. pose proof (lookup_lt_Some _ _ _ Hi) as Hl.
  rewrite insert_take_drop by done. rewrite <-(take_drop_middle ks i k Hi) at 3.
  rewrite !sum_list_with_app. cbn [sum_list_with]. lia.
Qed.

Lemma step_measure n chains i s s' : step i s s' → inv n chains s → measure s' < measure s.
Proof.
  intros Hs Hi. unfold measure.
  destruct Hs as [l m k s Hk Hst Hn Ha|now taken k k' tr idx s Hk Hst Hp|now k k' tr idx s Hk Hst Hn Hp
    |taken k s Hk Hst]; cbn [put tasks]; eapply sum_insert; try exact Hk;
    destruct (inv_tasks _ _ _ Hi k (list_elem_of_lookup_2 _ _ _ Hk)) as [Hok _];
    unfold steps_left; rewrite Hst.
  - pose proof (needs_left k) as Hl. rewrite Hn in Hl. specialize (Hl ltac:(done)).
    change (left_ (enter (l, m) k)) with (left_ k). cbn. lia.
  - change (left_ (accessed taken k')) with (left_ k'). cbn.
    pose proof (perform_left _ _ _ _ _ _ _ Hp Hok). lia.
  - destruct (perform_frame _ _ _ _ _ _ _ Hp) as (_ & _ & Hst' & _). rewrite Hst', Hst.
    pose proof (perform_left _ _ _ _ _ _ _ Hp Hok). lia.
  - change (left_ (leave taken k)) with (left_ k). cbn. lia.
Qed.

Lemma inv_steps n chains m s s' :
  nsteps some_step m s s' → inv n chains s → inv n chains s' ∧ m + measure s' ≤ measure s.
Proof.
  induction 1 as [s|m s1 s2 s3 [i Hs] _ IH]; intros Hi; [by split|].
  pose proof (step_measure _ _ _ _ _ Hs Hi). destruct IH as [Hi' Hm]; [by eapply pool_inv_step|].
  split; [done|lia].
Qed.

Lemma measure_initial n chains :
  measure (initial n chains) = sum_list_with (λ c, 3 * (n * round_length c)) chains.
Proof.
  unfold measure. cbn [initial tasks].
  assert (Hf : ∀ i c, steps_left (spawned n i c) = 3 * (n * round_length c)) by done.
  revert Hf. generalize (spawned n).
  induction chains as [|c chains IH]; intros f Hf; [done|]. rewrite imap_cons.
  cbn [sum_list_with]. by rewrite Hf, IH by (intros; apply Hf).
Qed.

(** What the assertions of the test read once all tasks have finished. *)
Lemma inv_finished n chains s :
  0 < n → inv n chains s → Forall finished (tasks s) →
  InflightTracker.total (tracker s) = 0%N ∧
  (∀ w, InflightTracker.count w (tracker s) = 0%N) ∧
  dom (PrefixIndex.flatten (index s)) = list_to_set (concat chains) ∧
  PrefixIndex.len (index s) = size (list_to_set (concat chains) : gset N).
Proof.
  intros Hn [[[Hc _] Htot] _ Hch Hsh Hkeys Hrec] Hf. rewrite Forall_forall in Hf.
  assert (Hg : guards s = []) by (apply no_guards; intros k Hk; by apply Hf).
  rewrite Hg in Hc, Htot. cbn [Inflight.guards Inflight.tracker] in Hc, Htot.
  assert (Hd : dom (PrefixIndex.flatten (index s)) = list_to_set (concat chains)).
  { apply set_eq. intros h. rewrite elem_of_dom, elem_of_list_to_set. split; [apply Hkeys|].
    rewrite <-Hch. intros (c & Hc' & Hh)%list_elem_of_In%in_concat.
    apply list_elem_of_In, list_elem_of_fmap in Hc' as (k & -> & Hk). apply list_elem_of_In in Hh.
    apply (Hrec k); [done| |done]. left. destruct (Hf k Hk) as (_ & -> & _). lia. }
  split_and!; [done|by intros w; rewrite Hc|done|].
  by rewrite EvictionRefines.len_flatten, <-Hd, size_dom.
Qed.
End invariant.

(** ** The test *)

Definition TASKS : nat := 64.

Definition prompt (i : nat) : rstr := lit "concurrent prompt number " ++ show_N (N.of_nat i).

Definition chains {BH : BlockHash} : list (list N) :=
  (λ i, chain_hash (prompt i) 512) <$> seq 0 TASKS.

(** The state in which the test has spawned its tasks. *)
Definition hammering {BH : BlockHash} : t := initial 50 chains.

(** Each prompt is one block. *)
Lemma prompt_blocks {BH : BlockHash} i :
  i < TASKS → length (chain_hash (prompt i) 512) = 1.
Proof.
  intros Hi. rewrite (proj1 (chain_hash_length _ 512)).
  assert (Hall : Forall (λ i, 1 ≤ length (prompt i) ≤ 512) (seq 0 TASKS))
    by (apply (bool_decide_unpack _); vm_compute; exact I).
  rewrite Forall_forall in Hall. specialize (Hall i ltac:(apply elem_of_seq; lia)).
  change (N.to_nat (N.max 512 1)) with 512. unfold div_ceil.
  symmetry. apply (Nat.div_unique _ 512 1 (length (prompt i) - 1)); lia.
Qed.

Lemma length_chains {BH : BlockHash} : length chains = TASKS ∧ length (concat chains) = TASKS.
Proof.
  unfold chains. rewrite length_fmap, length_seq. split; [done|].
  assert (Hl : ∀ l, (∀ i, i ∈ l → i < TASKS) →
    length (concat ((λ i, chain_hash (prompt i) 512) <$> l)) = length l).
  { induction l as [|i l IH]; intros Hi; [done|]. cbn [fmap list_fmap concat length].
    rewrite length_app, prompt_blocks, IH; [done| |]; intros; apply Hi; set_solver. }
  rewrite Hl, length_seq; [done|]. intros i Hi%elem_of_seq. lia.
Qed.
(** The chains are short. *)
Lemma chains_accesses {BH : BlockHash} :
  sum_list_with (λ c, 3 * (50 * round_length c)) chains = 96 * 1000.
Proof.
  assert (Hl : ∀ l, (∀ i, i ∈ l → i < TASKS) →
    sum_list_with (λ c, 3 * (50 * round_length c)) ((λ i, chain_hash (prompt i) 512) <$> l) =
    1500 * length l).
  { induction l as [|i l IH]; intros Hi; [done|]. cbn [fmap list_fmap sum_list_with length].
    rewrite IH by (intros; apply Hi; set_solver). unfold round_length.
    rewrite prompt_blocks by (apply Hi; set_solver). lia. }
  unfold chains. rewrite Hl, length_seq; [done|]. intros i Hi%elem_of_seq. lia.
Qed.
End Stress.

(** ** Properties *)

(** C20.  The stress test passes under every schedule of its 64 tasks at the
    grain of their locks.  It cannot deadlock: a task that holds a lock is never
    blocked, when no lock is held every unfinished task can go on, and so some
    task can until all have finished.  Every run ends, after at most 96,000
    steps.  When all tasks have finished no lock is held, the in-flight total,
    with every count, is zero, and the index holds one block per distinct
    chain, 64 if no two prompts collide. *)
Theorem hammering_test_passes {BH : BlockHash} {HM : HashMapOrder} (m : nat) (s : Stress.t)
    (Hrun : nsteps Stress.some_step m Stress.hammering s) :
  (∀ i k, Stress.tasks s !! i = Some k → Stress.held k ≠ [] → ∃ s', Stress.step i s s') ∧
  (Forall (λ k, Stress.held k = []) (Stress.tasks s) → ∀ i k, Stress.tasks s !! i = Some k →
     ¬ Stress.finished k → ∃ s', Stress.step i s s') ∧
  (¬ Forall Stress.finished (Stress.tasks s) → ∃ s', Stress.some_step s s') ∧
  m ≤ 96 * 1000 ∧
  (Forall Stress.finished (Stress.tasks s) →
    InflightTracker.total (Stress.tracker s) = 0%N ∧
    (∀ w, InflightTracker.count w (Stress.tracker s) = 0%N) ∧
    PrefixIndex.len (Stress.index s) = size (list_to_set (concat Stress.chains) : gset N) ∧
    (NoDup (concat Stress.chains) → PrefixIndex.len (Stress.index s) = Stress.TASKS)).
Proof.
  destruct (Stress.inv_steps 50 Stress.chains m _ s Hrun) as [Hi Hm].
  { apply Stress.pool_inv_initial. }
  split_and!.
  - intros i k. by eapply Stress.holder_steps.
  - intros Hnone i k Hk Hf. by eapply Stress.unfinished_steps.
  - by eapply Stress.some_task_steps.
  - unfold Stress.hammering in Hm. rewrite Stress.measure_initial, Stress.chains_accesses in Hm. lia.
  - intros Hf. destruct (Stress.inv_finished 50 Stress.chains s) as (Ht & Hc & _ & Hl);
      [lia|done|done|].
    destruct Stress.length_chains as [_ Hblocks].
    split_and!; [done|done|done|]. intros Hnd. by rewrite Hl, size_list_to_set, Hblocks.
Qed.

Section witnesses.
#[local] Existing Instance hm_canonical.

(** The first task takes the lock of the counters and its guard. *)
Theorem hammering_test_passes_witness :
  ∃ s, nsteps Stress.some_step 2 Stress.hammering s ∧
    InflightTracker.count 0 (Stress.tracker s) = 1%N ∧ ∃ s', Stress.step 0 s s'.
Proof.
  set (k := Stress.spawned 50 0 (chain_hash (Stress.prompt 0) 512)).
  set (k1 := Stress.enter (Stress.Counts, Stress.Read) k).
  assert (H1 : Stress.step 0 Stress.hammering (Stress.put 0 k1 Stress.hammering)).
  { apply (Stress.step_take 0 _ _ k); [done..|]. split; [by intros ? ?%not_elem_of_nil|].
    intros k' m' Hk' Hl. eapply elem_of_submseteq in Hk';
      [|apply sublist_submseteq, sublist_delete].
    apply elem_of_lookup_imap in Hk' as (i & c & -> & _). by apply not_elem_of_nil in Hl. }
  destruct (Stress.perform 0 k1 (Stress.tracker Stress.hammering) (Stress.index Stress.hammering))
    as [[[k2 tr] idx]|] eqn:Hp; [|done].
  assert (Htr : InflightTracker.count 0 tr = 1%N) by (injection Hp as _ <- _; vm_compute; reflexivity).
  pose proof (Stress.step_access 0 0 (Stress.Counts, Stress.Read) k1 k2 tr idx
    (Stress.put 0 k1 Stress.hammering) eq_refl eq_refl Hp) as H2.
  eexists. split.
  - eapply nsteps_l; [by exists 0|]. apply nsteps_once. exists 0. exact H2.
  - split; [exact Htr|].
    refine (proj1 (hammering_test_passes 2 _ _) 0 (Stress.accessed (Stress.Counts, Stress.Read) k2) _ _).
    + eapply nsteps_l; [by exists 0|]. apply nsteps_once. exists 0. exact H2.
    + reflexivity.
    + injection Hp as <- _ _. discriminate.
Defined.
End witnesses.
