(* ===== verification/UnitTests.v ===== *)
(** * The unit tests of the repository, replayed on the model

    The [#[cfg(test)]] modules of the sources as executable definitions: every
    test is the conjunction of its assertions, evaluated on the definitions of
    this library, with later instants where a test sleeps.  The property test
    of [prefix.rs] passes on all prompts whose hashes do not collide.  The test
    that hammers the index from many threads is in [Stress].  Left out: the
    tests of serde and of the YAML parser's own errors. *)

From S2P Require Import Prelude Float64 Text Hashing Config Request Worker Inflight Belief Prefix Router Discovery PrometheusText Metrics Stream Api CacheModel.

(** The assertions of a test. *)
Definition assertions (l : list bool) : bool := forallb id l.

Definition millis (n : N) : duration := (n * 1000000)%N.

(** ** [hashing.rs] *)

Module HashingTests.

Definition identical_prompts_produce_identical_chains : bool :=
  let a := chain_hash (lit "the same prompt text") 4 in
  let b := chain_hash (lit "the same prompt text") 4 in
  assertions [bool_decide (a = b); bool_decide (a ≠ [])].

Definition shared_prefix_produces_shared_chain_head : bool :=
  let base := lit "once upon a time" in
  let chain_base := chain_hash base 4 in
  let chain_longer := chain_hash (base ++ lit " there was a cache") 4 in
  assertions [bool_decide (length chain_base < length chain_longer);
              bool_decide (take (length chain_base) chain_longer = chain_base)].

Definition single_char_change_at_start_diverges_the_whole_chain : bool :=
  let a := chain_hash (lit "aaaaaaaaaaaaaaaa") 4 in
  let b := chain_hash (lit "baaaaaaaaaaaaaaa") 4 in
  assertions [bool_decide (length a = length b);
              forallb (λ x, bool_decide (x.1 ≠ x.2)) (zip a b)].

Definition block_count_is_ceil_chars_over_block_size : bool :=
  assertions [bool_decide (length (chain_hash (lit "12345") 2) = 3);
              bool_decide (length (chain_hash (lit "1234") 2) = 2);
              bool_decide (length (chain_hash (lit "abc") 512) = 1);
              bool_decide (length (chain_hash (lit "") 512) = 0)].

Definition multi_byte_chars_count_as_single_characters : bool :=
  bool_decide (length (chain_hash (replicate 4 128512%N) 2) = 2).

Definition zero_block_size_clamps_to_one : bool :=
  bool_decide (chain_hash (lit "hello") 0 = chain_hash (lit "hello") 1).

Example hashing_tests_pass : assertions [
  identical_prompts_produce_identical_chains; shared_prefix_produces_shared_chain_head;
  single_char_change_at_start_diverges_the_whole_chain;
  block_count_is_ceil_chars_over_block_size; multi_byte_chars_count_as_single_characters;
  zero_block_size_clamps_to_one] = true.
Proof. vm_compute. reflexivity. Qed.
End HashingTests.

(** ** [request.rs] *)

Module RequestTests.

Definition request (messages : list (string * string)) : ChatCompletionRequest unit := {|
  req_model := lit "mock";
  req_messages := (λ m, {| msg_role := lit m.1; msg_content := lit m.2 |}) <$> messages;
  req_max_tokens := None; req_temperature := None; req_stream := false; req_extra := ∅ |}.

Definition canonical_prompt_is_deterministic : bool :=
  let a := request [("user", "hello")] in
  let b := request [("user", "hello")] in
  assertions [bool_decide (canonical_prompt a = canonical_prompt b);
              bool_decide (canonical_prompt a = lit "user: hello")].

Definition canonical_prompt_joins_messages_in_order_with_roles : bool :=
  let request := request [("user", "first"); ("assistant", "second")] in
  bool_decide (canonical_prompt request = lit "user: first" ++ newline ++ lit "assistant: second").

Definition role_changes_are_visible_in_the_prompt : bool :=
  let as_user := request [("user", "same words")] in
  let as_assistant := request [("assistant", "same words")] in
  bool_decide (canonical_prompt as_user ≠ canonical_prompt as_assistant).

Example request_tests_pass : assertions [
  canonical_prompt_is_deterministic; canonical_prompt_joins_messages_in_order_with_roles;
  role_changes_are_visible_in_the_prompt] = true.
Proof. vm_compute. reflexivity. Qed.
End RequestTests.

(** ** [worker.rs] *)

Module WorkerTests.
Import WorkerRegistry.
Section tests.
#[local] Existing Instance hm_canonical.

Definition two_workers : list WorkerConfig :=
  [{| wc_url := lit "http://a"; wc_pool := Both |};
   {| wc_url := lit "http://b"; wc_pool := Both |}].

Definition starts_with_everything_down : bool :=
  let registry := from_config two_workers in
  assertions [negb (any_healthy registry); bool_decide (healthy_count registry = 0);
              bool_decide (length (all_workers registry) = 2)].

Definition health_updates_report_changes_only : bool :=
  let registry := from_config two_workers in
  let '(first, registry) := set_healthy 0 true registry in
  let '(second, registry) := set_healthy 0 true registry in
  assertions [first; negb second; is_healthy 0 registry; negb (is_healthy 1 registry);
              bool_decide (Some (healthy_workers registry) = (λ w, [w]) <$> get 0 registry)].

Definition unknown_worker_id_is_ignored : bool :=
  let registry := from_config two_workers in
  let '(changed, registry) := set_healthy 42 true registry in
  assertions [negb changed; bool_decide (get 42 registry = None)].

Definition registers_and_removes_runtime_workers : bool :=
  let registry := from_config two_workers in
  let '(id, registry) := register_worker (lit "http://discovered") Both registry in
  let after_register := [bool_decide (id = 2%N); bool_decide (length (all_workers registry) = 3);
                         negb (is_healthy id registry)] in
  let '(_, registry) := set_healthy id true registry in
  let after_health := [is_healthy id registry] in
  let '(removed, registry) := remove_worker id registry in
  let after_removal := [bool_decide (w_url <$> removed = Some (lit "http://discovered"));
                        bool_decide (length (all_workers registry) = 2)] in
  let '(next, registry) := register_worker (lit "http://replacement") Both registry in
  assertions (after_register ++ after_health ++ after_removal ++ [bool_decide (next = 3%N)]).

Example worker_tests_pass : assertions [
  starts_with_everything_down; health_updates_report_changes_only;
  unknown_worker_id_is_ignored; registers_and_removes_runtime_workers] = true.
Proof. vm_compute. reflexivity. Qed.
End tests.
End WorkerTests.

(** ** [inflight.rs] *)

Module InflightTests.
Import InflightTracker.

Definition guard_increments_and_decrements : bool :=
  let tracker := with_capacity 2 in
  let before := [bool_decide (count 0 tracker = 0%N)] in
  let '(guard, tracker) := InflightGuard.acquire tracker 0 in
  let held := [bool_decide (count 0 tracker = 1%N); bool_decide (total tracker = 1%N);
               bool_decide (InflightGuard.worker guard = 0%N)] in
  let tracker := InflightGuard.drop guard tracker in
  assertions (before ++ held ++
    [bool_decide (count 0 tracker = 0%N); bool_decide (total tracker = 0%N)]).

Definition ensure_capacity_tracks_runtime_workers : bool :=
  let tracker := with_capacity 2 in
  let before := [bool_decide (count 5 tracker = 0%N)] in
  let tracker := ensure_capacity 6 tracker in
  let '(guard, tracker) := InflightGuard.acquire tracker 5 in
  let held := [bool_decide (count 5 tracker = 1%N); bool_decide (total tracker = 1%N)] in
  let tracker := InflightGuard.drop guard tracker in
  assertions (before ++ held ++ [bool_decide (total tracker = 0%N)]).

(** The guard goes out of scope with the error. *)
Definition fallible_upstream_call (tracker : t) (worker : WorkerId) : result RouterError unit * t :=
  let '(guard, tracker) := InflightGuard.acquire tracker worker in
  (Err (NoHealthyWorkers (lit "round_robin")), InflightGuard.drop guard tracker).

Fixpoint guard_released_loop (n : nat) (tracker : t) : bool :=
  match n with
  | O => true
  | S n =>
      let '(out, tracker) := fallible_upstream_call tracker 0 in
      assertions [match out with Err _ => true | Ok _ => false end;
                  bool_decide (count 0 tracker = 0%N); guard_released_loop n tracker]
  end.

Definition guard_released_when_upstream_call_errors : bool :=
  guard_released_loop 5 (with_capacity 1).

Example inflight_tests_pass : assertions [
  guard_increments_and_decrements; ensure_capacity_tracks_runtime_workers;
  guard_released_when_upstream_call_errors] = true.
Proof. vm_compute. reflexivity. Qed.
End InflightTests.

(** ** [prefix.rs] *)

Module PrefixTests.
Import PrefixIndex.
Section tests.
#[local] Existing Instance hm_canonical.

Definition chain (text : string) : list N := chain_hash (lit text) 4.

(** The length matched at [now], for reading only. *)
Definition matched (now : instant) (worker : WorkerId) (c : list N) (index : t) : nat :=
  (longest_match now worker c index).1.

Definition test_record_then_match : bool :=
  let index := new in
  let chain := chain "the quick brown fox" in
  let '(before, index) := longest_match 0 0 chain index in
  let index := record 1 0 chain index in
  let '(after, index) := longest_match 2 0 chain index in
  assertions [bool_decide (before = 0); bool_decide (after = length chain);
              bool_decide (len index = length chain)].

Definition tracking_is_per_worker : bool :=
  let chain := chain "cache aware routing" in
  let index := record 0 0 chain new in
  assertions [bool_decide (matched 1 0 chain index = length chain);
              bool_decide (matched 1 1 chain index = 0)].

Definition partial_prefix_matches_in_blocks : bool :=
  let longer := chain "abcdefghijkl" in
  let index := record 0 0 longer new in
  let shorter := chain "abcdef" in
  assertions [bool_decide (matched 1 0 shorter index = 1);
              bool_decide (matched 1 0 (chain "zzzz") index = 0)].

Definition ttl_expiry_removes_stale_entries : bool :=
  let chain := chain "hello world" in
  let index := record 0 0 chain new in
  let '(stats, index) := evict (millis 5) (millis 1) (u64_modulus - 1) index in
  assertions [bool_decide (expired stats = length chain); bool_decide (len index = 0)].

Definition lru_cap_evicts_oldest_entries_first : bool :=
  let old_chain := chain "aaaa" in
  let new_chain := chain "bbbb" in
  let index := record 0 0 old_chain new in
  let index := record (millis 2) 0 new_chain index in
  let '(stats, index) := evict (millis 2) (millis 300000) 1 index in
  assertions [bool_decide (lru_evicted stats = 1); bool_decide (len index = 1);
              bool_decide (matched (millis 2) 0 new_chain index = length new_chain);
              bool_decide (matched (millis 2) 0 old_chain index = 0)].

Definition matching_touches_an_entry_and_extends_its_life : bool :=
  let chain_a := chain "aaaa" in
  let chain_b := chain "bbbb" in
  let index := record 0 0 chain_a new in
  let index := record (millis 2) 0 chain_b index in
  let '(touched, index) := longest_match (millis 3) 0 chain_a index in
  let '(stats, index) := evict (millis 3) (millis 300000) 1 index in
  assertions [bool_decide (touched = length chain_a); bool_decide (lru_evicted stats = 1);
              bool_decide (matched (millis 3) 0 chain_a index = length chain_a);
              bool_decide (matched (millis 3) 0 chain_b index = 0)].

Definition remove_worker_clears_its_entries_but_keeps_others : bool :=
  let chain := chain "shared prompt" in
  let index := record 1 1 chain (record 0 0 chain new) in
  let index := remove_worker 0 index in
  assertions [bool_decide (matched 2 0 chain index = 0);
              bool_decide (matched 2 1 chain index = length chain);
              bool_decide (len index = length chain)].

Example prefix_tests_pass : assertions [
  test_record_then_match; tracking_is_per_worker; partial_prefix_matches_in_blocks;
  ttl_expiry_removes_stale_entries; lru_cap_evicts_oldest_entries_first;
  matching_touches_an_entry_and_extends_its_life;
  remove_worker_clears_its_entries_but_keeps_others] = true.
Proof. vm_compute. reflexivity. Qed.

Definition longest_match_never_exceeds_shorter_prompt (prompt_a prompt_b : rstr)
    (block_size : N) : bool :=
  let index := new in
  let chain_a := chain_hash prompt_a block_size in
  let chain_b := chain_hash prompt_b block_size in
  let index := record 0 0 chain_a index in
  let matched := matched 1 0 chain_b index in
  assertions [bool_decide (matched ≤ length chain_a); bool_decide (matched ≤ length chain_b);
              bool_decide (chain_hash prompt_a block_size = chain_a)].

(** The property test passes on all prompts and block sizes whose hashes do not
    collide, those outside its generators' ranges included. *)
Lemma longest_match_proptest (prompt_a prompt_b : rstr) (block_size : N) :
  no_collision prompt_b prompt_a block_size →
  longest_match_never_exceeds_shorter_prompt prompt_a prompt_b block_size = true.
Proof.
  intros Hc. unfold longest_match_never_exceeds_shorter_prompt, matched, assertions.
  set (chain_a := chain_hash prompt_a block_size). set (chain_b := chain_hash prompt_b block_size).
  assert (Hm : (longest_match 1 0 chain_b (record 0 0 chain_a new)).1 ≤ length chain_a ∧
    (longest_match 1 0 chain_b (record 0 0 chain_a new)).1 ≤ length chain_b).
  2:{ destruct Hm. cbn [forallb id]. by rewrite !bool_decide_true. }
  subst chain_a chain_b.
  rewrite match_len by apply index_ok_record, index_ok_new.
  rewrite (held_prefix_ext _ (holds_of block_size [prompt_a])).
  2:{ intros h _. rewrite index_holds_record by apply index_ok_new.
      assert (holds new 0 h = false) as -> by exact (bi_new_holds (T := PrefixIndex.t) 0 h).
      unfold holds_of. cbn [existsb orb]. rewrite orb_false_r. apply bool_decide_ext. tauto. }
  rewrite held_is_cached by (by intros p ->%list_elem_of_singleton).
  unfold cached_blocks, chain_hash. rewrite !length_chain_loop. simpl. rewrite Nat.max_0_r.
  destruct (take_common_blocks (prompt_blocks prompt_b block_size)
    (prompt_blocks prompt_a block_size)) as [Ht Hle].
  split; [|done]. apply (f_equal length) in Ht. rewrite !length_take in Ht. lia.
Qed.
End tests.
End PrefixTests.

(** ** [router.rs] *)

Module RouterTests.
Import Router.
Section tests.
#[local] Existing Instance hm_canonical.

Definition config (policy : RoutingPolicy) (pool0 pool1 : Pool) : RouterConfig := {|
  cfg_workers := [{| wc_url := lit "http://a"; wc_pool := pool0 |};
                  {| wc_url := lit "http://b"; wc_pool := pool1 |}];
  cfg_routing_policy := policy; cfg_health_check_interval_secs := 5;
  cfg_prompt_block_chars := 512; cfg_cache_weight := f64_1; cfg_load_weight := f64_half;
  cfg_prefix_index_ttl_secs := 300; cfg_prefix_index_max_entries := 100000;
  cfg_kv_transfer_cost_ms := 20; cfg_metrics_scrape := false;
  cfg_engine_metrics_interval_secs := 15;
  cfg_engine_cache_hit_metric := lit "vllm:gpu_prefix_cache_hit_rate";
  cfg_discovery := DiscoveryConfig_default |}.

Definition setup (policy : RoutingPolicy) (pool0 pool1 : Pool) (healthy : list WorkerId) :
    t PrefixIndex.t :=
  let config := config policy pool0 pool1 in
  let registry := WorkerRegistry.from_config (cfg_workers config) in
  let registry := foldl (λ registry id, (WorkerRegistry.set_healthy id true registry).2)
                    registry healthy in
  new registry config.

Definition request (prompt : rstr) : ChatCompletionRequest unit := {|
  req_model := lit "mock";
  req_messages := [{| msg_role := lit "user"; msg_content := prompt |}];
  req_max_tokens := None; req_temperature := None; req_stream := false; req_extra := ∅ |}.

(** The 984 characters of the literal. *)
Definition TWO_BLOCKS : rstr := replicate 984 120%N.

(** [select_for_chat(..).unwrap()] for every prompt in turn: the decisions as
    worker id, matched blocks and score. *)
Fixpoint decisions (prompts : list rstr) (router : t PrefixIndex.t) :
    option (list (WorkerId * nat * f64)) :=
  match prompts with
  | [] => Some []
  | prompt :: prompts =>
      match select_for_chat (λ _, 0%N) (request prompt) router with
      | Some (Ok d, router) =>
          ds ← decisions prompts router;
          Some ((w_id (rd_worker d), rd_matched_prefix_len d, rd_score d) :: ds)
      | _ => None
      end
  end.

Definition ids (prompts : list rstr) (router : t PrefixIndex.t) : option (list WorkerId) :=
  (λ ds : list (WorkerId * nat * f64), ds.*1.*1) <$> decisions prompts router.

(** [(0..n).map(|_| InflightGuard::acquire(..))] on worker 0. *)
Definition acquire_on_0 (n : nat) (router : t PrefixIndex.t) : t PrefixIndex.t :=
  Nat.iter n (λ router,
    set_inflight (InflightGuard.acquire (inflight router) 0).2 router) router.

Definition record_for (worker : WorkerId) (prompt : rstr) (router : t PrefixIndex.t) :
    t PrefixIndex.t :=
  let chain := chain_hash (canonical_prompt (request prompt)) 512 in
  set_prefix_index (PrefixIndex.record 0 worker chain (prefix_index router)) router.

Definition candidate (score in_flight id : N) : Candidate :=
  {| c_score := f64_of_N score; c_in_flight := in_flight; c_id := id |}.

Definition gt (a b : Candidate) : bool := bool_decide (candidate_cmp a b = Gt).

Definition candidate_ordering_prefers_score_then_load_then_id : bool :=
  assertions [gt (candidate 2 5 1) (candidate 1 0 0); gt (candidate 1 0 1) (candidate 1 3 0);
              gt (candidate 1 0 0) (candidate 1 0 1)].

Definition round_robin_cycles_through_healthy_workers : bool :=
  bool_decide (ids (replicate 3 (lit "hello")) (setup RoundRobin Both Both [0; 1]%N)
               = Some [0; 1; 0]%N).

Definition never_routes_to_a_down_worker : bool :=
  bool_decide (ids (replicate 16 (lit "x")) (setup RoundRobin Both Both [0]%N)
               = Some (replicate 16 0%N)).

(** The error of a selection. *)
Definition fails (p : RouterError → bool) (out : result RouterError RouteDecision) : bool :=
  match out with Err e => p e | Ok _ => false end.

Definition chat_fails (p : RouterError → bool) (router : t PrefixIndex.t) : bool :=
  match select_for_chat (λ _, 0%N) (request (lit "x")) router with
  | Some (out, _) => fails p out
  | None => false
  end.

Definition no_healthy_workers_is_an_error : bool :=
  chat_fails (λ e, match e with NoHealthyWorkers _ => true | _ => false end)
    (setup RoundRobin Both Both []).

Definition falls_back_to_other_pools_when_no_both_workers_are_healthy : bool :=
  match select_for_chat (λ _, 0%N) (request (lit "x")) (setup RoundRobin Both Prefill [1]%N) with
  | Some (Ok d, _) => bool_decide (w_pool (rd_worker d) = Prefill)
  | _ => false
  end.

Definition matched_prefix_length_is_tracked_per_worker : bool :=
  bool_decide (decisions (replicate 3 TWO_BLOCKS) (setup RoundRobin Both Both [0; 1]%N)
               = Some [(0%N, 0, f64_0); (1%N, 0, f64_0); (0%N, 2, f64_0)]).

Definition cache_aware_prefers_the_worker_that_holds_the_chain : bool :=
  bool_decide (decisions [TWO_BLOCKS]
                 (record_for 1 TWO_BLOCKS (setup CacheAware Both Both [0; 1]%N))
               = Some [(1%N, 2, f64_of_N 2)]).

Definition load_term_redirects_traffic_away_from_a_hot_replica : bool :=
  bool_decide (decisions [lit "fresh prompt"]
                 (acquire_on_0 10 (setup CacheAware Both Both [0; 1]%N))
               = Some [(1%N, 0, f64_0)]).

Definition cache_bonus_outweighs_a_small_queue : bool :=
  bool_decide (decisions [TWO_BLOCKS]
                 (acquire_on_0 3 (record_for 0 TWO_BLOCKS (setup CacheAware Both Both [0; 1]%N)))
               = Some [(0%N, 2, f64_half)]).

Definition ties_break_on_fewest_in_flight : bool :=
  let router := setup CacheAware Both Both [0; 1]%N in
  match select_for_chat (λ _, 0%N) (request (lit "brand new prompt")) router with
  | Some (Ok first, router) =>
      assertions [bool_decide (w_id (rd_worker first) = 0%N);
                  bool_decide (ids [lit "another new prompt"] (acquire_on_0 1 router) = Some [1%N])]
  | _ => false
  end.

(** The worker that a pool selection picks. *)
Definition picked (out : result RouterError RouteDecision) : option (WorkerId * Pool) :=
  match out with
  | Ok d => Some (w_id (rd_worker d), w_pool (rd_worker d))
  | Err _ => None
  end.

Definition disaggregated_selects_per_pool : bool :=
  let router := setup Disaggregated Prefill Decode [0; 1]%N in
  let chain := chain_hash (lit "hello") 512 in
  let '(prefill, router) := select_in_pool (λ _, 0%N) Prefill chain router in
  let '(decode, router) := select_in_pool (λ _, 0%N) Decode chain router in
  assertions [bool_decide (picked prefill = Some (0%N, Prefill));
              bool_decide (picked decode = Some (1%N, Decode))].

Definition disaggregated_missing_pool_is_an_error : bool :=
  let router := setup Disaggregated Prefill Prefill [0; 1]%N in
  let chain := chain_hash (lit "hello") 512 in
  fails (λ e, match e with NoHealthyWorkersInPool _ _ => true | _ => false end)
    (select_in_pool (λ _, 0%N) Decode chain router).1.

Definition disaggregated_rejects_single_phase_routing : bool :=
  chat_fails (λ e, bool_decide (e = DisaggregatedRequiresTwoPhase))
    (setup Disaggregated Both Both [0; 1]%N).

Example router_tests_pass : assertions [
  candidate_ordering_prefers_score_then_load_then_id; round_robin_cycles_through_healthy_workers;
  never_routes_to_a_down_worker; no_healthy_workers_is_an_error;
  falls_back_to_other_pools_when_no_both_workers_are_healthy;
  matched_prefix_length_is_tracked_per_worker;
  cache_aware_prefers_the_worker_that_holds_the_chain;
  load_term_redirects_traffic_away_from_a_hot_replica; cache_bonus_outweighs_a_small_queue;
  ties_break_on_fewest_in_flight; disaggregated_selects_per_pool;
  disaggregated_missing_pool_is_an_error; disaggregated_rejects_single_phase_routing] = true.
Proof. vm_compute. reflexivity. Qed.
End tests.
End RouterTests.

(** ** [kv_transfer.rs] *)

Module KvTransferTests.

Definition mock_transfer_succeeds : bool :=
  match mock_kv_transfer 0%N 1%N 4 with Ok _ => true | Err _ => false end.

Example kv_transfer_tests_pass : assertions [mock_transfer_succeeds] = true.
Proof. reflexivity. Qed.
End KvTransferTests.

(** ** [config.rs]

    The YAML parser is a parameter, so a document is given by what the parser
    yields for it: the fields it names. *)

Module ConfigTests.

Definition document (policy : RoutingPolicy) (workers : list WorkerConfig) : RouterConfigYaml := {|
  y_workers := workers; y_routing_policy := policy;
  y_health_check_interval_secs := None; y_prompt_block_chars := None;
  y_cache_weight := None; y_load_weight := None; y_prefix_index_ttl_secs := None;
  y_prefix_index_max_entries := None; y_kv_transfer_cost_ms := None;
  y_metrics_scrape := None; y_engine_metrics_interval_secs := None;
  y_engine_cache_hit_metric := None; y_discovery := None |}.

Definition worker (url : string) (pool : Pool) : WorkerConfig :=
  {| wc_url := lit url; wc_pool := pool |}.

Definition CONFIG : RouterConfigYaml := document RoundRobin
  [worker "http://127.0.0.1:8001" Both; worker "http://127.0.0.1:8002" Prefill].

Definition from_document (y : RouterConfigYaml) : result RouterError RouterConfig :=
  from_yaml (λ _, Ok y) [].

Definition accepts (y : RouterConfigYaml) (p : RouterConfig → bool) : bool :=
  match from_document y with Ok config => p config | Err _ => false end.

Definition parses_config_with_defaults : bool :=
  accepts CONFIG (λ config, assertions [
    bool_decide (wc_url <$> cfg_workers config
                 = [lit "http://127.0.0.1:8001"; lit "http://127.0.0.1:8002"]);
    bool_decide (wc_pool <$> cfg_workers config = [Both; Prefill]);
    bool_decide (cfg_routing_policy config = RoundRobin);
    bool_decide (cfg_health_check_interval_secs config = 5%N);
    bool_decide (cfg_prompt_block_chars config = 512%N);
    bool_decide (Some (cfg_cache_weight config) = parse_f64 (lit "1.0"));
    bool_decide (Some (cfg_load_weight config) = parse_f64 (lit "0.5"));
    bool_decide (cfg_prefix_index_ttl_secs config = 300%N);
    bool_decide (cfg_prefix_index_max_entries config = 100000%N);
    bool_decide (cfg_kv_transfer_cost_ms config = 20%N)]).

Definition accepts_all_policies : bool :=
  assertions [
    accepts (document CacheAware [worker "http://x" Decode])
      (λ config, bool_decide (cfg_routing_policy config = CacheAware));
    accepts (document Disaggregated [worker "http://x" Prefill])
      (λ config, bool_decide (cfg_routing_policy config = Disaggregated))].

Definition knobs : RouterConfigYaml := {|
  y_workers := [worker "http://x" Both]; y_routing_policy := CacheAware;
  y_health_check_interval_secs := None; y_prompt_block_chars := Some 256%N;
  y_cache_weight := parse_f64 (lit "2.0"); y_load_weight := parse_f64 (lit "0.25");
  y_prefix_index_ttl_secs := Some 60%N; y_prefix_index_max_entries := Some 1000%N;
  y_kv_transfer_cost_ms := Some 42%N; y_metrics_scrape := None;
  y_engine_metrics_interval_secs := None; y_engine_cache_hit_metric := None;
  y_discovery := None |}.

Definition accepts_explicit_knobs : bool :=
  accepts knobs (λ config, assertions [
    bool_decide (cfg_prompt_block_chars config = 256%N);
    bool_decide (cfg_cache_weight config = f64_of_N 2);
    bool_decide (cfg_load_weight config = f64_div f64_1 (f64_of_N 4));
    bool_decide (cfg_prefix_index_ttl_secs config = 60%N);
    bool_decide (cfg_prefix_index_max_entries config = 1000%N);
    bool_decide (cfg_kv_transfer_cost_ms config = 42%N)]).

Definition rejects_empty_workers : bool :=
  match from_document (document RoundRobin []) with
  | Err (ConfigError _) => true
  | _ => false
  end.

Definition discovered_document : RouterConfigYaml := {|
  y_workers := []; y_routing_policy := CacheAware;
  y_health_check_interval_secs := None; y_prompt_block_chars := None;
  y_cache_weight := None; y_load_weight := None; y_prefix_index_ttl_secs := None;
  y_prefix_index_max_entries := None; y_kv_transfer_cost_ms := None;
  y_metrics_scrape := None; y_engine_metrics_interval_secs := None;
  y_engine_cache_hit_metric := None;
  y_discovery := Some {| yd_enabled := Some true; yd_service := Some (lit "kvrouter-workers");
                         yd_namespace := None |} |}.

Definition accepts_empty_workers_when_discovery_is_enabled : bool :=
  accepts discovered_document (λ config, assertions [
    match cfg_workers config with [] => true | _ => false end;
    dc_enabled (cfg_discovery config);
    bool_decide (dc_service (cfg_discovery config) = lit "kvrouter-workers")]).

Definition discovery_defaults_to_disabled : bool :=
  accepts CONFIG (λ config, negb (dc_enabled (cfg_discovery config))).

Example config_tests_pass : assertions [
  parses_config_with_defaults; accepts_all_policies; accepts_explicit_knobs;
  rejects_empty_workers; accepts_empty_workers_when_discovery_is_enabled;
  discovery_defaults_to_disabled] = true.
Proof. vm_compute. reflexivity. Qed.
End ConfigTests.

(** ** [discovery.rs] *)

Module DiscoveryTests.
Import Discovery.
Section tests.
#[local] Existing Instance hm_canonical.

Definition url (ip : string) : rstr := lit "http://" ++ lit ip ++ lit ":8001".

Definition nothing_discovered : t PrefixIndex.t := {|
  registry := WorkerRegistry.from_config []; index := PrefixIndex.new; by_url := ∅ |}.

Definition matched (worker : WorkerId) (chain : list N) (d : t PrefixIndex.t) : nat :=
  (PrefixIndex.longest_match 0 worker chain (index d)).1.

Definition record_for (worker : WorkerId) (chain : list N) (d : t PrefixIndex.t) :
    t PrefixIndex.t := {|
  registry := registry d; index := PrefixIndex.record 0 worker chain (index d);
  by_url := by_url d |}.

Definition reconcile_adds_and_removes_workers : bool :=
  let '(first, d) := reconcile {[url "10.0.0.1"; url "10.0.0.2"]} nothing_discovered in
  let chain := chain_hash (lit "shared prompt") 512 in
  match by_url d !! url "10.0.0.2", by_url d !! url "10.0.0.1" with
  | Some survivor, Some dead =>
      let added := [bool_decide (first = (0, 2));
                    bool_decide (length (WorkerRegistry.all_workers (registry d)) = 2)] in
      let d := record_for survivor chain (record_for dead chain d) in
      let recorded := [bool_decide (matched dead chain d = length chain)] in
      let '(second, d) := reconcile {[url "10.0.0.2"]} d in
      let removed := [bool_decide (second = (1, 0));
                      bool_decide (length (WorkerRegistry.all_workers (registry d)) = 1);
                      bool_decide (WorkerRegistry.get dead (registry d) = None);
                      bool_decide (matched survivor chain d = length chain)] in
      let '(third, d) := reconcile {[url "10.0.0.2"; url "10.0.0.3"]} d in
      match by_url d !! url "10.0.0.3" with
      | Some replacement =>
          assertions (added ++ recorded ++ removed ++
            [bool_decide (third.2 = 1); bool_decide (matched replacement chain d = 0)])
      | None => false
      end
  | _, _ => false
  end.

Definition workers_1 : EndpointSlice := {|
  slice_name := lit "workers-1";
  slice_ports := Some [Some 8001%Z];
  slice_endpoints := [
    {| ep_addresses := [lit "10.0.0.1"]; ep_conditions := Some (Some true) |};
    {| ep_addresses := [lit "10.0.0.2"]; ep_conditions := Some (Some false) |};
    {| ep_addresses := [lit "10.0.0.3"]; ep_conditions := None |}] |}.

Definition endpoint_urls_skips_unready_and_uses_first_port : bool :=
  let urls := endpoint_urls workers_1 in
  assertions [bool_decide (url "10.0.0.1" ∈ urls); bool_decide (url "10.0.0.2" ∉ urls);
              bool_decide (url "10.0.0.3" ∈ urls)].

Definition static_workers_still_parse_for_fallback : bool :=
  ConfigTests.accepts
    (ConfigTests.document RoundRobin [ConfigTests.worker "http://x:8001" Both])
    (λ config, assertions [bool_decide (length (cfg_workers config) = 1);
                           negb (dc_enabled (cfg_discovery config))]).

Example discovery_tests_pass : assertions [
  reconcile_adds_and_removes_workers; endpoint_urls_skips_unready_and_uses_first_port;
  static_workers_still_parse_for_fallback] = true.
Proof. vm_compute. reflexivity. Qed.
End tests.
End DiscoveryTests.

(** ** [prometheus_text.rs] *)

Module PrometheusTests.

(** A line of the sample, with its line feed. *)
Definition line (s : string) : rstr := lit s ++ [LF].

Definition quoted (s : string) : rstr := [34%N] ++ lit s ++ [34%N].

Definition SAMPLE : rstr :=
  line "# HELP vllm:gpu_prefix_cache_hit_rate GPU prefix cache hit rate."
  ++ line "# TYPE vllm:gpu_prefix_cache_hit_rate gauge"
  ++ lit "vllm:gpu_prefix_cache_hit_rate{model_name=" ++ quoted "Qwen/Qwen2.5-0.5B-Instruct"
  ++ line "} 0.625"
  ++ line "# TYPE vllm:num_requests_running gauge"
  ++ line "vllm:num_requests_running 2".

Definition finds_labeled_metric : bool :=
  bool_decide (find_metric SAMPLE (lit "vllm:gpu_prefix_cache_hit_rate")
               = parse_f64 (lit "0.625")).

(** [(value - 0.3).abs() < f64::EPSILON]. *)
Definition averages_multiple_series : bool :=
  let text := lit "m{a=" ++ quoted "1" ++ line "} 0.2" ++ lit "m{a=" ++ quoted "2" ++ line "} 0.4" in
  match find_metric text (lit "m"), parse_f64 (lit "0.3") with
  | Some value, Some expected =>
      SpecFloat.SFltb (SpecFloat.SFabs (f64_sub value expected))
        (f64_div f64_1 (f64_of_N (2 ^ 52)))
  | _, _ => false
  end.

Definition returns_none_for_absent_metric : bool :=
  bool_decide (find_metric SAMPLE (lit "nope") = None).

Definition skips_comments_and_blank_lines : bool :=
  bool_decide (find_metric (line "# m 1" ++ [LF]) (lit "m") = None).

Example prometheus_tests_pass : assertions [
  finds_labeled_metric; averages_multiple_series; returns_none_for_absent_metric;
  skips_comments_and_blank_lines] = true.
Proof. vm_compute. reflexivity. Qed.
End PrometheusTests.
