(* ===== verification/EndToEnd.v ===== *)
(** * The end-to-end test ([router-server/tests/vllm_e2e.rs])

    The test drives the router and a real engine with prompts that share a long
    system prompt, and compares the hit rate that the router predicts with the
    one that the engine reports.  The engine and its HTTP answers are
    parameters; what the router contributes is computed, and the assertion
    about it holds for every engine. *)

From S2P Require Import Prelude Float64 Text Hashing Config Request Worker Inflight Belief Prefix Router Discovery Health PrometheusText.
From Stdlib Require Import Floats.SpecFloat.

(** ** Prompts with a common beginning *)

Module WarmCache.


Section runs.
Context {T : Type} `{BIL : BeliefIndexLaws T} {HM : HashMapOrder} {BH : BlockHash}.
Implicit Types (r : Router.t T) (chain common : list N).

(** A router whose only healthy worker is [w]. *)
Record alone (w : Worker) (n : N) r : Prop := {
  alone_ok : bi_ok (Router.prefix_index r);
  alone_worker : WorkerRegistry.healthy_workers (Router.registry r) = [w];
  alone_policy : Router.policy r ≠ Disaggregated;
  alone_block_size : Router.block_size r = n;
}.

Definition warm (w : Worker) common r : Prop :=
  ∀ h, h ∈ common → bi_holds (Router.prefix_index r) (w_id w) h = true.

Lemma held_prefix_common holds common chain :
  common `prefix_of` chain → (∀ h, h ∈ common → holds h = true) →
  length common ≤ held_prefix holds chain.
Proof.
  intros [rest ->]. induction common as [|h common IH]; intros Hh; [simpl; lia|].
  cbn [app held_prefix length]. rewrite Hh by by left.
  apply le_n_S, IH. intros h' Hin. apply Hh. by right.
Qed.

Lemma alone_step {V} now (request : ChatCompletionRequest V) w n common r :
  alone w n r → common `prefix_of` chain_hash (canonical_prompt request) n →
  ∃ d r', Router.select_for_chat now request r = Some (Ok d, r') ∧ alone w n r' ∧ warm w common r' ∧
    rd_prompt_blocks d = length (chain_hash (canonical_prompt request) n) ∧
    (warm w common r → length common ≤ rd_matched_prefix_len d) ∧
    rd_matched_prefix_len d ≤ rd_prompt_blocks d ∧ rd_worker d = w.
Proof.
  intros [Hok Hw Hp <-] Hc.
  destruct (select_for_chat_ok now request r Hok) as (d & r' & Hsel & Hok' & Hreg & Hpol & _);
    [by rewrite Hw|done|].
  destruct (select_for_chat_spec now request r Hok) as (out & r2 & Hsel' & Hs).
  rewrite Hsel in Hsel'. injection Hsel' as <- <-.
  destruct Hs as ((Hm & Hb & idx & Hr' & Hidx & Hheld) & Hin & _).
  rewrite Hw in Hin. apply list_elem_of_singleton in Hin.
  exists d, r'. split_and!; [done|split; [done|by rewrite Hreg|by rewrite Hpol|by rewrite Hr']| |done| | |done].
  - intros h Hh. rewrite Hr'. cbn. rewrite Hheld, bool_decide_true; [by rewrite orb_true_r|].
    split; [by rewrite Hin|]. by eapply elem_of_prefix.
  - intros Hwarm. rewrite Hm, Hin. unfold Router.believed_prefix.
    by apply held_prefix_common.
  - rewrite Hm, Hb. apply held_prefix_le.
Qed.

End runs.
End WarmCache.

(** ** The test *)

Module VllmTest.

Definition f64_literal (s : string) : f64 := default f64_0 (parse_f64 (lit s)).

Definition HIT_RATE_TOLERANCE : f64 := f64_literal "0.30".
Definition REQUESTS : nat := 40.

(** What the test gets from outside: the environment, the engine's answers to
    the probes, to the completions (status, then body) and to the scrape. *)
Record engine := {
  KVROUTERS_E2E : option rstr;
  VLLM_URL : option rstr;
  is_success : N → bool;
  (** [error_for_status] fails. *)
  is_error : N → bool;
  health : nat → result rstr N;
  complete : nat → result rstr N;
  drain : nat → result rstr bytes;
  scrape : result rstr N;
  metrics_text : result rstr rstr;
}.

(** The ways in which the test can panic, in their order. *)
Inductive panic :=
  | NotReady
  | RoutingFailed (error : RouterError)
  | EngineFailed (request : nat)
  | MetricsFailed
  | MetricMissing
  | PredictedTooLow
  | ReportedTooLow
  | BeyondTolerance.

Inductive outcome := Skipped | Passed | Panicked (at_ : panic).

Definition request (system suffix : rstr) : ChatCompletionRequest unit := {|
  req_model := lit "Qwen/Qwen2.5-0.5B-Instruct";
  req_messages := [{| msg_role := lit "system"; msg_content := system |};
                   {| msg_role := lit "user"; msg_content := suffix |}];
  req_max_tokens := Some 16%N; req_temperature := None; req_stream := false; req_extra := ∅ |}.

Definition sentence : rstr := lit "You are a helpful assistant. Answer questions about the fictional city of Kvropolis. Kvropolis was founded in 1987 as a routing research hub and its economy depends on prefix caches. ".

(** [str::repeat]. *)
Definition repeated (n : nat) (s : rstr) : rstr := concat (replicate n s).

Definition system : rstr := repeated 30 sentence.

Definition question (i : nat) : rstr :=
  lit "Question " ++ show_N (N.of_nat i) ++ lit ": what is the weather in Kvropolis?".

Definition config (vllm_url : rstr) : RouterConfig := {|
  cfg_workers := [{| wc_url := vllm_url; wc_pool := Both |}];
  cfg_routing_policy := CacheAware;
  cfg_health_check_interval_secs := 5;
  cfg_prompt_block_chars := 512;
  cfg_cache_weight := f64_1;
  cfg_load_weight := f64_half;
  cfg_prefix_index_ttl_secs := 300;
  cfg_prefix_index_max_entries := 100000;
  cfg_kv_transfer_cost_ms := 20;
  cfg_metrics_scrape := false;
  cfg_engine_metrics_interval_secs := 15;
  cfg_engine_cache_hit_metric := lit "vllm:gpu_prefix_cache_hit_rate";
  cfg_discovery := DiscoveryConfig_default;
|}.

(** [for _ in 0..n]: ready at the first probe that succeeds. *)
Fixpoint wait_until_ready (n i : nat) (e : engine) : bool :=
  match n with
  | O => false
  | S n =>
      match health e i with
      | Ok status => if is_success e status then true else wait_until_ready n (S i) e
      | Err _ => wait_until_ready n (S i) e
      end
  end.

Definition greater (x y : f64) : bool :=
  match f64_partial_cmp x y with Some Gt => true | _ => false end.

Definition f64_abs (x : f64) : f64 := SFabs x.

Section test.
Context {T : Type} `{BI : BeliefIndex T} {HM : HashMapOrder} {BH : BlockHash}.
(** The clock of the [i]-th routing decision. *)
Context (now : nat → nat → instant).

Definition router (vllm_url : rstr) : Router.t T :=
  Router.new (WorkerRegistry.set_healthy 0 true
                (WorkerRegistry.from_config (cfg_workers (config vllm_url)))).2 (config vllm_url).

(** [for i in 0..REQUESTS]: the sums of matched and of prompt blocks. *)
Fixpoint drive (n i : nat) (e : engine) (r : Router.t T) (predicted_hits predicted_blocks : N) :
    panic + (N * N) :=
  match n with
  | O => inr (predicted_hits, predicted_blocks)
  | S n =>
      match Router.select_for_chat (now i) (request system (question i)) r with
      | Some (Ok decision, r) =>
          match complete e i, drain e i with
          | Ok status, Ok _ =>
              if is_error e status then inl (EngineFailed i)
              else drive n (S i) e r
                     (fetch_add predicted_hits (N.of_nat (rd_matched_prefix_len decision)))
                     (fetch_add predicted_blocks (N.of_nat (rd_prompt_blocks decision)))
          | _, _ => inl (EngineFailed i)
          end
      | Some (Err error, _) => inl (RoutingFailed error)
      | None => inl (RoutingFailed (NoHealthyWorkers []))
      end
  end.

Definition judge (predicted reported : f64) : outcome :=
  if negb (greater predicted (f64_literal "0.6")) then Panicked PredictedTooLow
  else if negb (greater reported (f64_literal "0.4")) then Panicked ReportedTooLow
  else if negb (greater HIT_RATE_TOLERANCE (f64_abs (f64_sub predicted reported)))
  then Panicked BeyondTolerance
  else Passed.

Definition predicted_hit_rate_tracks_vllm (e : engine) : outcome :=
  if decide (KVROUTERS_E2E e = Some (lit "1")) then
    let vllm_url := default (lit "http://127.0.0.1:8000") (VLLM_URL e) in
    if negb (wait_until_ready 120 0 e) then Panicked NotReady else
    match drive REQUESTS 0 e (router vllm_url) 0 0 with
    | inl p => Panicked p
    | inr (predicted_hits, predicted_blocks) =>
        let predicted := f64_div (f64_of_N predicted_hits) (f64_of_N predicted_blocks) in
        match scrape e, metrics_text e with
        | Ok status, Ok text =>
            if is_error e status then Panicked MetricsFailed else
              match find_metric text (lit "vllm:gpu_prefix_cache_hit_rate") with
              | Some reported => judge predicted reported
              | None => Panicked MetricMissing
              end
        | _, _ => Panicked MetricsFailed
        end
    end
  else Skipped.
End test.

(** ** The prompts *)

(** The system message, as the prompts begin. *)
Definition opening : rstr := lit "system: " ++ system.

Lemma length_repeated n s : length (repeated n s) = n * length s.
Proof.
  unfold repeated. induction n as [|n IH]; [done|]. cbn [replicate concat].
  rewrite length_app, IH. done.
Qed.

Lemma length_system : length system = 30 * 183.
Proof. unfold system. by rewrite length_repeated. Qed.

Lemma canonical_question i :
  canonical_prompt (request system (question i)) =
  opening ++ newline ++ lit "user: " ++ question i.
Proof.
  unfold canonical_prompt, request, opening. generalize system, (question i). intros s q.
  cbn [req_messages canonical_loop msg_role msg_content].
  rewrite (decide_False (P := 0 < 0)), (decide_True (P := 0 < 1)) by lia. cbn [app].
  rewrite <-!(assoc_L (++)). done.
Qed.

Lemma opening_prefix i : opening `prefix_of` canonical_prompt (request system (question i)).
Proof. rewrite canonical_question. by eexists. Qed.

Lemma length_opening : length opening = 8 + 30 * 183.
Proof. unfold opening. by rewrite length_app, length_system. Qed.

Lemma length_question i : i < REQUESTS → 45 ≤ length (question i) ≤ 46.
Proof.
  intros Hi.
  assert (Hall : Forall (λ i, 45 ≤ length (question i) ≤ 46) (seq 0 REQUESTS))
    by (apply (bool_decide_unpack _); vm_compute; exact I).
  rewrite Forall_forall in Hall. apply Hall, elem_of_seq. lia.
Qed.

(** Eleven blocks, ten of which are the same for all prompts. *)
Lemma question_blocks {BH : BlockHash} i :
  i < REQUESTS → length (chain_hash (canonical_prompt (request system (question i))) 512) = 11.
Proof.
  intros Hi. rewrite (proj1 (chain_hash_length _ 512)), canonical_question.
  pose proof (length_question i Hi). rewrite !length_app, length_opening.
  change (length newline) with 1. change (length (lit "user: ")) with 6.
  change (N.to_nat (N.max 512 1)) with 512. unfold div_ceil.
  symmetry. apply (Nat.div_unique _ 512 11
    (8 + 30 * 183 + (1 + (6 + length (question i))) + 512 - 1 - 512 * 11)); lia.
Qed.

(** ** The run *)

Section run.
Context {T : Type} `{BIL : BeliefIndexLaws T} {HM : HashMapOrder} {BH : BlockHash}.
Context (now : nat → nat → instant).

Definition worker (vllm_url : rstr) : Worker := {| w_id := 0; w_url := vllm_url; w_pool := Both |}.

Lemma router_alone vllm_url : WarmCache.alone (T := T) (worker vllm_url) 512 (router vllm_url).
Proof.
  set (reg := (WorkerRegistry.set_healthy 0 true
    (WorkerRegistry.from_config (cfg_workers (config vllm_url)))).2).
  assert (Hwf : WorkerRegistry.wf reg).
  { apply Health.wf_set_healthy, WorkerRegistry.wf_from_config. done. }
  assert (Hin : ∀ w, w ∈ WorkerRegistry.healthy_workers reg ↔ w = worker vllm_url).
  { intros w. rewrite WorkerRegistry.elem_of_healthy_workers_wf by done. unfold reg.
    rewrite WorkerRegistry.lookup_set_healthy, WorkerRegistry.lookup_from_config.
    destruct w as [id url pool]. cbn [w_id]. split.
    - case_decide as Hid; [subst; by intros [= <- <-]|].
      by rewrite (lookup_ge_None_2 _ (N.to_nat id)) by (simpl; lia).
    - by intros [= -> -> ->]. }
  split; [apply bi_new_ok| |done|done]. change (WorkerRegistry.healthy_workers _) with
    (WorkerRegistry.healthy_workers reg).
  pose proof (WorkerRegistry.NoDup_healthy_ids reg Hwf) as Hnd.
  destruct (WorkerRegistry.healthy_workers reg) as [|w1 [|w2 ws]].
  - exfalso. apply (not_elem_of_nil (worker vllm_url)). by apply Hin.
  - f_equal. apply Hin. by left.
  - exfalso. assert (w1 = worker vllm_url) as -> by (apply Hin; by left).
    assert (w2 = worker vllm_url) as -> by (apply Hin; by right; left).
    apply NoDup_cons in Hnd as [Hni _]. apply Hni. by left.
Qed.

Definition common : list N := take 10 (chain_hash opening 512).

Lemma length_common : length common = 10.
Proof.
  unfold common. rewrite length_take, (proj1 (chain_hash_length opening 512)), length_opening. done.
Qed.

Lemma common_prefix i :
  common `prefix_of` chain_hash (canonical_prompt (request system (question i))) 512.
Proof.
  pose proof (chain_hash_extends opening (canonical_prompt (request system (question i))) 512
    (opening_prefix i)) as Hp.
  rewrite length_opening in Hp. exact Hp.
Qed.

(** Whatever the engine answers, every request is routed, with eleven blocks,
    ten of them credited once the router is warm. *)
Lemma drive_spec e w n i (r : Router.t T) hits blocks :
  WarmCache.alone w 512 r → i + n ≤ REQUESTS →
  (hits ≤ 11 * N.of_nat i ∧ blocks = 11 * N.of_nat i)%N →
  match drive now n i e r hits blocks with
  | inl p => ∃ j, p = EngineFailed j
  | inr (hits', blocks') =>
      (blocks' = 11 * N.of_nat (i + n) ∧ hits' ≤ 11 * N.of_nat (i + n))%N ∧
      (WarmCache.warm w common r → (hits + 10 * N.of_nat n ≤ hits')%N) ∧
      (0 < n → (hits + 10 * N.of_nat (n - 1) ≤ hits')%N)
  end.
Proof.
  revert i r hits blocks. induction n as [|n IH]; intros i r hits blocks Hr Hi [Hh Hb];
    cbn [drive].
  { rewrite Nat.add_0_r. split_and!; [done|done|lia|lia]. }
  destruct (WarmCache.alone_step (now i) (request system (question i)) w 512 common r Hr
    (common_prefix i)) as (d & r' & -> & Hr' & Hwarm & Hblocks & Hm & Hle).
  rewrite question_blocks in Hblocks by lia. rewrite length_common in Hm.
  destruct (complete e i) as [status|]; [|by eexists]. destruct (drain e i); [|by eexists].
  destruct (is_error e status); [by eexists|].
  unfold REQUESTS in Hi. unfold fetch_add. rewrite !wrap64_small by (unfold u64_modulus; lia).
  specialize (IH (S i) r' (hits + N.of_nat (rd_matched_prefix_len d))%N
    (blocks + N.of_nat (rd_prompt_blocks d))%N Hr' ltac:(unfold REQUESTS; lia) ltac:(lia)).
  destruct (drive now n (S i) e r' _ _) as [p|[hits' blocks']]; [done|].
  destruct IH as (Hb' & Hw' & _). specialize (Hw' Hwarm).
  split_and!; [lia|lia| |]; intros Hw.
  - specialize (Hm Hw). lia.
  - lia.
Qed.

Lemma drive_answered e w n i (r : Router.t T) hits blocks :
  WarmCache.alone w 512 r →
  (∀ i, ∃ status body, complete e i = Ok status ∧ drain e i = Ok body ∧ is_error e status = false) →
  ∃ hits' blocks', drive now n i e r hits blocks = inr (hits', blocks').
Proof.
  intros Hr He. revert i r Hr hits blocks. induction n as [|n IH]; intros i r Hr hits blocks;
    cbn [drive]; [by eexists _, _|].
  destruct (WarmCache.alone_step (now i) (request system (question i)) w 512 [] r Hr
    (prefix_nil _)) as (d & r' & -> & Hr' & _).
  destruct (He i) as (status & body & -> & -> & ->). by apply IH.
Qed.

Lemma drive_rates e url hits blocks :
  drive now REQUESTS 0 e (router (T := T) url) 0 0 = inr (hits, blocks) →
  blocks = 440%N ∧ (390 ≤ hits ≤ 440)%N.
Proof.
  intros Hd. pose proof (drive_spec e (worker url) REQUESTS 0 (router url) 0 0
    (router_alone url) (le_n _) ltac:(lia)) as Hs.
  rewrite Hd in Hs. destruct Hs as ([Hb Hh] & _ & Hlow).
  unfold REQUESTS in *. specialize (Hlow ltac:(lia)). lia.
Qed.
End run.

(** Every rate the run can come to is above the bound of the test. *)
Lemma predicted_high hits :
  (390 ≤ hits ≤ 440)%N →
  greater (f64_div (f64_of_N hits) (f64_of_N 440)) (f64_literal "0.6") = true.
Proof.
  intros Hh.
  assert (Hall : Forall (λ k, greater (f64_div (f64_of_N (N.of_nat k)) (f64_of_N 440))
    (f64_literal "0.6") = true) (seq 390 51)) by (apply (bool_decide_unpack _); vm_compute; exact I).
  rewrite Forall_forall in Hall. specialize (Hall (N.to_nat hits)). rewrite N2Nat.id in Hall.
  apply Hall, elem_of_seq. lia.
Qed.
End VllmTest.

(** ** Properties *)


(** C22.  The router's half of the end-to-end test always passes: whatever the
    engine answers, no request of the test fails to be routed and the assertion
    on the predicted hit rate never fires; a run that gets to the end has routed
    440 blocks and predicts between 390 and 440 of them to be cached. *)
Theorem e2e_prediction_holds {T} `{BeliefIndexLaws T} {HM : HashMapOrder} {BH : BlockHash}
    (now : nat → nat → instant) (e : VllmTest.engine) :
  (∀ error, VllmTest.predicted_hit_rate_tracks_vllm (T := T) now e ≠
            VllmTest.Panicked (VllmTest.RoutingFailed error)) ∧
  VllmTest.predicted_hit_rate_tracks_vllm (T := T) now e ≠
    VllmTest.Panicked VllmTest.PredictedTooLow ∧
  ∀ url hits blocks,
    VllmTest.drive now VllmTest.REQUESTS 0 e (VllmTest.router (T := T) url) 0 0 =
      inr (hits, blocks) →
    blocks = 440%N ∧ (390 ≤ hits ≤ 440)%N.
Proof.
  assert (Hout : ∀ p, VllmTest.predicted_hit_rate_tracks_vllm (T := T) now e = VllmTest.Panicked p →
    p ≠ VllmTest.PredictedTooLow ∧ ∀ error, p ≠ VllmTest.RoutingFailed error).
  { intros p. unfold VllmTest.predicted_hit_rate_tracks_vllm. case_decide; [|done].
    destruct (negb _); [by intros [= <-]|]. set (url := default _ _).
    pose proof (VllmTest.drive_spec now e (VllmTest.worker url) VllmTest.REQUESTS 0
      (VllmTest.router url) 0 0 (VllmTest.router_alone url) (le_n _) ltac:(lia)) as Hs.
    pose proof (VllmTest.drive_rates now e url) as Hr.
    destruct (VllmTest.drive _ _ _ _ _ _ _) as [p'|[hits blocks]].
    { destruct Hs as [j ->]. by intros [= <-]. }
    destruct (Hr hits blocks eq_refl) as [-> Hh].
    destruct (VllmTest.scrape e); [|by intros [= <-]].
    destruct (VllmTest.metrics_text e); [|by intros [= <-]].
    destruct (VllmTest.is_error _ _); [by intros [= <-]|].
    destruct (find_metric _ _); [|by intros [= <-]].
    unfold VllmTest.judge. rewrite VllmTest.predicted_high by done. cbn [negb].
    destruct (negb _); [by intros [= <-]|]. destruct (negb _); [by intros [= <-]|done]. }
  split_and!.
  - intros error Hp. exact (proj2 (Hout _ Hp) error eq_refl).
  - intros Hp. exact (proj1 (Hout _ Hp) eq_refl).
  - intros url. apply VllmTest.drive_rates.
Qed.

Section witnesses.
#[local] Existing Instance hm_canonical.


(** An engine that answers every request. *)
Definition obliging : VllmTest.engine := {|
  VllmTest.KVROUTERS_E2E := Some (lit "1"); VllmTest.VLLM_URL := None;
  VllmTest.is_success := λ status, (status =? 200)%N; VllmTest.is_error := λ status, (400 <=? status)%N;
  VllmTest.health := λ _, Ok 200%N; VllmTest.complete := λ _, Ok 200%N; VllmTest.drain := λ _, Ok [];
  VllmTest.scrape := Ok 200%N;
  VllmTest.metrics_text := Ok (lit "vllm:gpu_prefix_cache_hit_rate 0.9") |}.

Theorem e2e_prediction_holds_witness :
  ∃ hits blocks,
    VllmTest.drive (T := PrefixIndex.t) (λ _, still) VllmTest.REQUESTS 0 obliging
      (VllmTest.router (lit "http://a")) 0 0 = inr (hits, blocks) ∧
    blocks = 440%N ∧ (390 ≤ hits ≤ 440)%N.
Proof.
  destruct (VllmTest.drive_answered (T := PrefixIndex.t) (λ _, still) obliging
    (VllmTest.worker (lit "http://a")) VllmTest.REQUESTS 0 (VllmTest.router (lit "http://a")) 0 0)
    as (hits & blocks & Hd).
  - apply VllmTest.router_alone.
  - intros i. by exists 200%N, [].
  - exists hits, blocks. split; [exact Hd|].
    exact (proj2 (proj2 (e2e_prediction_holds (T := PrefixIndex.t) (λ _, still) obliging))
      (lit "http://a") hits blocks Hd).
Defined.
End witnesses.
